(* ===== verification/_CoqProject ===== *)
-Q . S2P
Prelude.v
Text.v
Utf8.v
AsyncIo.v
MuxFrame.v
MuxQueue.v
MuxStream.v
MuxSession.v
MuxCredit.v
MuxTransfer.v
Permissions.v
Duration.v
Node.v
Selector.v
Reload.v
IpAddr.v
Auth.v
Hosts.v
Bypass.v
KcpCrypt.v
KcpFec.v
KcpFrame.v
KcpRecover.v
Snappy.v
Conn.v
Socks5Addr.v
Socks5Tunnel.v
Effects.v
Socks5Udp.v
Socks5.v
Socks4.v
Relay.v
HttpConnect.v
Words.v
HttpDate.v
SniHello.v
Http.v
SniProxy.v
SocketText.v
ShadowStream.v
Shadow.v
Dns.v
NameServer.v
Resolver.v
DnsProxy.v
Udp.v
Obfs.v
Server.v
Ws.v
MuxDial.v
KcpConf.v
KcpSession.v
KcpListen.v
Auto.v
Chain.v
Setup.v
Forward.v
Ssh.v
SshClient.v
Quic.v
Http2.v
Devices.v
