(* ===== verification/Prelude.v ===== *)
(** * rt: verification of a multi-protocol tunnel

    rt is a proxy and tunnel in Rust. This library models its own core logic,
    file by file of src/, and proves what makes it correct. Network, file and
    clock access and the crates it calls are arguments of the models.

    ** The program's parts and where they are modelled

    - Stream multiplexing over one connection (mux.rs, smux version 1):
      MuxFrame.v has the frame codec and [MuxConfig::verify]; MuxQueue.v the
      write queue and the writer task as a transition system; MuxStream.v the
      receive side of one stream; MuxSession.v the session, its stream handles
      and the reader, accept and keep-alive tasks; MuxCredit.v the transition
      system in which application tasks and the reader interleave; MuxTransfer.v
      the reader as a refinement of a frame-level specification and the
      delivery of a stream's bytes. Shared state behind [Arc<Mutex<..>>] is an
      explicit store; a mutex-protected section is one step; wakers and permits
      are part of the state.
    - Access control (permissions.rs): Permissions.v. [split_host_port], the
      [go_glob] matcher, port ranges, rules and [Can].
    - Proxy nodes and their selection (node.rs, selector.rs): Node.v and
      Selector.v. [FailMarker]s live in a store so that clones of a node share
      theirs; trait objects are inductive types with the source's
      implementations; the clock and the random index are arguments.
    - Durations (auth.rs, node.rs): Duration.v, with binary64 arithmetic from
      the Standard Library's executable specification.
    - Live-reloaded tables (reload.rs, auth.rs, hosts.rs, bypass.rs): Reload.v
      states the contract of a reloadable table as the classes [Reloader] and
      [ReloaderLaws] and proves [period_reload] against it; Auth.v, Hosts.v and
      Bypass.v are its instances. IpAddr.v has the address syntax of the Rust
      standard library.
    - KCP datagrams (kcp.rs): KcpCrypt.v has the checksums, TEA, XTEA, CFB and
      [Crypt], with the contract of a block cipher as the class [BlockEncOk];
      KcpFec.v the forward error correction encoder and decoder; KcpFrame.v the
      packet framer and its inverse; KcpRecover.v the recovery of lost shards.
      Snappy.v has the compressed stream above KCP, whose transport is the list
      of its answers.
    - Connections and polled transports (conn.rs and the framing layers):
      Conn.v models a connection as what its peer will send and what was
      written, and a handshake as a function that reads, writes and stops at
      the first error; AsyncIo.v the [poll_read] and [poll_write] loops the
      framed connections share, with the contract of a frame decoder as the
      class [MachineOk]. Effects.v adds the trace of what a handler does on the
      network.
    - SOCKS5 (socks5.rs): Socks5Addr.v has the address formats, Socks5Tunnel.v
      the UDP-over-TCP connection, Socks5Udp.v the two datagram relays,
      Socks5.v the connector and the handler with its five commands. SOCKS4
      (socks4.rs): Socks4.v. Protocol detection (handler.rs): Auto.v. The relay
      protocol (relay.rs): Relay.v.
    - Proxy chains (chain.rs): HttpConnect.v has the HTTP connector, Chain.v the
      SOCKS connectors, the walk over the hops, retries and [dial_udp].
    - The HTTP proxy (http_proxy.rs): Http.v has the handler with CONNECT and
      forwarded requests, authentication and probe resistance, HttpDate.v the
      Date header. The SNI proxy (sni.rs): SniHello.v has the ClientHello parser
      and rewriter, SniProxy.v the connection that hides its host and the handler.
    - Shadowsocks (ss.rs): ShadowStream.v has key derivation and the encrypted
      stream, with the contract of an authenticated cipher as a class; Shadow.v
      the connectors, handlers and the UDP relay. SocketText.v has the printing
      of socket addresses.
    - DNS (resolver.rs, dns_proxy.rs): Dns.v has the wire format, NameServer.v the
      exchange with one server over each protocol, Resolver.v the cache, the
      configuration file, resolution and raw exchange, in which tasks sharing a
      resolver interleave; DnsProxy.v the servers.
    - Virtual connections over a UDP socket (udp.rs): Udp.v, a transition system
      of the demultiplexer, the watchers, the handlers and the clients.
    - Obfuscation (obfs_transport.rs, obfs.rs): Obfs.v.
    - Accept loops (server.rs and the [serve] functions of tls_listener.rs, ws.rs,
      mux_transport.rs and udp.rs): Server.v.
    - Transports over other libraries: Ws.v has the WebSocket transport (ws.rs);
      MuxDial.v the multiplexed ones (mux_transport.rs), whose dials share
      sessions of MuxSession.v, as a transition system; KcpConf.v, KcpSession.v
      and KcpListen.v the configuration, the session driver, and the listener and
      transporter of kcp.rs; Quic.v the QUIC transport (quic_transport.rs); Http2.v
      the HTTP/2 tunnel and proxy (h2_transport.rs, http2_transport.rs).
    - SSH port forwarding (ssh.rs): Ssh.v has the listener with its credentials and
      the session of a client, a transition system over the library's calls and the
      tasks of open ports; SshClient.v the handshake, the sessions calls share and
      both directions of forwarding.
    - Transparent proxying and devices (redirect.rs, tuntap.rs, vsock_transport.rs):
      Devices.v.
    - Start-up (main.rs, config.rs): Setup.v has the gates, the options of a
      listener and the choice of handler and listener. Port forwarding
      (forward.rs, remote_forward.rs): Forward.v, over Selector.v.
    - This file has results, polls, machine integers, byte order, the hint
      databases and tactics; Text.v the string operations on UTF-8 bytes, Words.v
      splitting at white space, Utf8.v validation and lossy decoding.

    ** Conventions

    A Rust integer is a [Z]; wrap-around is written out ([u16], [u32], [u64],
    [to_signed]) where the code can reach it. A byte slice or string is the
    list of its bytes. [Result] is [result], [Poll] is [poll], and [?] the
    notation [<-?]. Operations on shared state take and return the state.

    ** What the theorems show

    - Multiplexing: frames round-trip and no prefix of a frame is read as one;
      [verify] accepts exactly the consistent configurations; a flush that
      completes has flushed everything it covers; frames reach the wire in
      order; the send queue is bounded; the writer drains it; receive credit
      is conserved and no wake-up is lost; live streams are registered under
      unique ids; ids are handed out in sequence; the byte-level reader refines
      the frame-level one; a stream's bytes arrive complete and in order; the
      first failure is the one reported. [psh_race_leaks] shows an
      interleaving in which credit is lost.
    - Policy: the matcher is wildcard matching; address splitting and port
      ranges are characterised completely; [Can] is the policy its rules state
      and fails closed.
    - Nodes: the sentinel host changes nothing else of a URL; printed nodes
      parse back; round robin is fair; filters keep the eligible and fastest
      nodes; selection fails over.
    - Tables: [period_reload] keeps the table equal to the file; secrets and
      hosts files round-trip; bypass decisions ignore the port.
    - KCP: table-driven checksums equal the bitwise ones; every cipher is
      undone by its decryption; datagrams round-trip; shard numbers stay on
      the grid; any [datashard] shards of a group recover the lost ones. A
      snappy stream delivers exactly the bytes accepted for writing and bounds
      those that wait; [snappy_out_grows] shows that its buffer is not bounded.
    - Protocols: a SOCKS5 or relay server acts only for clients it let in and
      within its rules, a detecting listener only through the handler the first
      byte selects; client and server run against each other agree on target
      and outcome ([socks5_connect_exchange], [socks4_exchange],
      [relay_request_exchange], [socks5_udp_tunnel_exchange]), also when the
      login is refused; datagram layers deliver what was sent, in order and
      whole, however the stream is cut ([tunnel_transfer], [relay_transfer]);
      an association serves its client only. [relay_ipv6_refused] and
      [long_name_split] show addresses the code cannot carry.
    - HTTP and SNI: the proxy acts only for a request it read in full and whose
      client it let in, within its rules, and contacts the decoy at most for
      others; its client finds the tunnel with no byte lost; forwarded requests
      reach their origin without proxy credentials; a camouflaged proxy does not
      show itself ([probe_refused_shows] is the exception); a rewritten ClientHello
      shows the decoy and the proxy restores the bytes; the date is the
      calendar's.
    - Shadowsocks: the encrypted stream delivers what was accepted for writing;
      connector and handler agree on the target; the relay sends on only what it
      authenticated and its rules allow. [scope_evades_rules] shows an address
      form they do not cover.
    - DNS: a name is decoded exactly when it stands in the message, through any
      pointers; messages round-trip; queries to secure servers travel under TLS
      only; the cache refines one without expiry; a client gets the first answer
      under its own ID; servers are asked in order and each at most twice; UDP
      replies fit the client's buffer or are truncated. [failure_never_expires],
      [wrong_answer_cached] and [reload_leaves_old_answer] show its limits.
    - UDP connections: a handler reads its peer's datagrams in order, none twice;
      queues are bounded; idle connections end, and none disturbs another.
      [dropped_early_stays] shows an entry that does not expire.
    - Obfuscation: the hello shows the chosen host and carries the first payload;
      records deliver what was written, however they are cut; neither HTTP end
      reads past the other's head. [failed_flush_loses] and [piggyback_refused]
      show where bytes or connections are lost.
    - WebSocket and multiplexed transports: bytes are delivered as they were taken;
      a hop and a listener with the same parameters agree on the path; dials that
      share a dialer build a second session only when the first is spent, one at
      a time, and all come to an end; a pool keeps one dialer for a key.
      [version_wraps] and [query_path_unserved] show parameters it gets wrong.
    - KCP sessions: datagrams of a valid configuration fit; the stream, its driver
      and the channels lose and reorder nothing; the listener keeps senders apart
      and ignores what is not sealed. [shards_dropped], [garbage_keeps_decoder]
      and [held_bytes_lost] show its limits.
    - SSH: the listener acts only for clients with credentials its configuration
      names and within its rules; its open ports can be closed and end with the
      session; the client shows its credentials only to a pinned server; a hop has
      one session; calls come to an end; both ends of a forward agree.
      [empty_secrets_open], [rebind_leaks], [wildcard_unruled], [retry_evicts_live],
      [forwards_mixed] and [hop_first_credentials] show its limits.
    - QUIC: sealed datagrams arrive as they were sent, whatever else does; dials share
      one connection; the endpoint closes when all is over. [sealed_exceeds_path] and
      [hop_first_config] show its limits.
    - HTTP/2: the stream carries what was taken for writing and returns the window it
      used; the proxy serves only accepted clients, to the target they name.
      [rules_ignored], [hop_unauthenticated], [unframed_body], [chunked_body_raw],
      [bad_header_panics] and [bare_path_unserved] show what it does not do.
    - Devices: a redirected connection goes to its own destination, if permitted;
      commands run in order, and [failures_ignored].
    - Accept loops: once draining, nothing is accepted, and a bounded wait ends;
      [handshake_holds] shows that an unbounded one need not.
    - Chains: a dial takes the route of its hops and makes the configured number
      of attempts; the HTTP connector keeps what follows the response head.
      [chain_ssh_misroutes] and [chain_udp_control] show where the route is not
      the intended one.
    - Listeners: encrypted transports are never served in the clear; who may log
      in follows from the URL; a forwarded connection reaches a live target and
      only targets. [secrets_unreadable_open], [retry_negative],
      [cli_mark_dropped], [rtcp_binds_here] and [remote_ignores_failures] show
      where options are lost.

    ** Bounds and fuel

    Loops that consume text run on a fuel of the text's length; each turn
    removes at least one byte ([go_turn_shorter], [node_turn_shorter]), so the
    fuel is never exhausted. The byte-level reader of MuxSession.v has two turns
    per byte of its input; a frame takes at most two turns and eight bytes. The
    chunk decoder of Snappy.v has one turn per byte, and a turn takes four.
    The machines of AsyncIo.v take a turn per byte in hand, and every turn but the
    last uses one; [peek], [read_nul], [head_loop] and [parse_features] have a
    turn per byte of the input and use at least one byte a turn, as do
    [read_until_lf], [read_fields], [parse_extensions], [sni_loop],
    [ticket_loop], [split_str], [percent_bytes], [read_header], [read_rest] and
    the loops of Obfs.v, [read_reply_headers] and [chunks]; the [send] of KcpSession.v has a turn per byte and uses one,
    the segment size being positive. The budget of [decode_name] is the code's own, and
    [decode_name_exact] proves it large enough for every name. The events a
    handler's [select!] loop meets are its argument, so such a loop runs over
    any finite sequence of them.
    Theorems about the default selector hold while its 64-bit counter does not
    wrap; those about shard recovery for groups whose numbers do not cross
    [2^32], which the encoder never produces.

    ** Not modelled

    The external crates (url, ipnet, glob_match, RustCrypto ciphers, PBKDF2,
    Salsa20, Reed-Solomon, snap) are parameters with named hypotheses where a theorem
    needs their documented behaviour. Sockets, TLS, HTTP/2 frames, QUIC, the SSH
    protocol, devices, signals and timers are I/O around libraries: a model has their
    answers as arguments. A spliced pair of connections is one event; the copying
    itself is tokio's. So tls_transport.rs, sockopts.rs and signal.rs, which arrange
    calls of such libraries and of the operating system, are not modelled, nor is
    ftcp.rs, whose operations always fail, or client.rs, transport.rs and lib.rs,
    which only hold types and glue. Of chain.rs the pump tasks of a tunnelled
    [UdpChannel] are left out, of main.rs argument parsing and logging, of
    tls_listener.rs all but the accept loop, of redirect.rs the system call that
    reads a destination. *)

From stdpp Require Import base list option numbers strings pretty gmap.
From Stdlib Require Import ZArith Lia.

#[global] Open Scope Z_scope.

(** ** Results, polls and their notations *)

Declare Scope rt_scope.
Delimit Scope rt_scope with rt.

(** Rust's [Result<A, E>]. *)
Inductive result (E A : Type) : Type :=
| Ok (a : A)
| Err (e : E).
Arguments Ok {E A} a.
Arguments Err {E A} e.

(** Rust's [Poll<A>]. *)
Inductive poll (A : Type) : Type :=
| Pending
| Ready (a : A).
Arguments Pending {A}.
Arguments Ready {A} a.

#[export] Instance result_eq_dec E A `{EqDecision E, EqDecision A} : EqDecision (result E A).
Proof. solve_decision. Defined.
#[export] Instance poll_eq_dec A `{EqDecision A} : EqDecision (poll A).
Proof. solve_decision. Defined.

Definition rbind {E A B} (x : result E A) (k : A → result E B) : result E B :=
  match x with Ok a => k a | Err e => Err e end.

Definition is_ok {E A} (x : result E A) : bool :=
  match x with Ok _ => true | Err _ => false end.

Notation "x <-? c ;; k" := (rbind c (λ x, k))
  (at level 100, c at next level, right associativity) : rt_scope.
#[global] Open Scope rt_scope.

(** The [io::ErrorKind]s the modelled code produces. *)
Inductive ErrorKind : Set :=
| InvalidInput | InvalidData | Unsupported | BrokenPipe | TimedOut
| UnexpectedEof | ConnectionReset | WriteZero | Other.

(** An [io::Error]: its kind and its message. *)
Record io_error : Set := IoError { ek : ErrorKind; emsg : string }.

#[export] Instance ErrorKind_eq_dec : EqDecision ErrorKind.
Proof. solve_decision. Defined.
#[export] Instance io_error_eq_dec : EqDecision io_error.
Proof. solve_decision. Defined.

(** ** Bytes

    A Rust [u8] is a [Z] in [0, 256); a byte slice, [Vec<u8>] or [str] is the
    list of its bytes. Lengths compared with wide constants are taken in [Z]. *)

Abbreviation bytes := (list Z).

Definition is_byte (b : Z) : Prop := 0 ≤ b < 256.
Definition is_bytes (l : bytes) : Prop := Forall is_byte l.

Definition zlen {A} (l : list A) : Z := Z.of_nat (length l).

(** The UTF-8 bytes of a string literal. *)
Definition str (s : string) : bytes :=
  (λ a, Z.of_N (Ascii.N_of_ascii a)) <$> String.list_ascii_of_string s.

Definition wrap (w : Z) (z : Z) : Z := z mod 2 ^ w.
Abbreviation u8 := (wrap 8).
Abbreviation u16 := (wrap 16).
Abbreviation u32 := (wrap 32).
Abbreviation u64 := (wrap 64).

Definition u16_max : Z := 65535.
Definition u32_max : Z := 4294967295.
Definition u64_max : Z := 18446744073709551615.

(** Two's complement reading of a [w]-bit word, Rust's [as i32] on a [u32]. *)
Definition to_signed (w : Z) (z : Z) : Z :=
  if z <? 2 ^ (w - 1) then z else z - 2 ^ w.

(** [to_le_bytes] / [from_le_bytes] and the big-endian pair, on [n] bytes. *)
Fixpoint to_le (n : nat) (z : Z) : bytes :=
  match n with
  | O => []
  | S n => z mod 256 :: to_le n (z / 256)
  end.

Fixpoint from_le (l : bytes) : Z :=
  match l with
  | [] => 0
  | b :: l => b + 256 * from_le l
  end.

Definition to_be (n : nat) (z : Z) : bytes := reverse (to_le n z).
Definition from_be (l : bytes) : Z := from_le (reverse l).

(** ** Hint databases and tactics *)

Create HintDb rt discriminated.
Create Rewrite HintDb rt_len.

(** Case analysis on the innermost [match] or [if] of the goal or a
    hypothesis, remembering the equation. *)
Ltac case_goal :=
  match goal with
  | |- context [match ?x with _ => _ end] =>
      lazymatch x with context [match _ with _ => _ end] => fail | _ => destruct x eqn:? end
  end.

Ltac case_hyp H :=
  match type of H with
  | context [match ?x with _ => _ end] =>
      lazymatch x with context [match _ with _ => _ end] => fail | _ => destruct x eqn:? end
  end.

(** Boolean comparisons of the code turned into the propositions they decide. *)
Ltac zbool :=
  repeat match goal with
  | H : (_ <? _) = true |- _ => apply Z.ltb_lt in H
  | H : (_ <? _) = false |- _ => apply Z.ltb_ge in H
  | H : (_ <=? _) = true |- _ => apply Z.leb_le in H
  | H : (_ <=? _) = false |- _ => apply Z.leb_gt in H
  | H : (_ =? _) = true |- _ => apply Z.eqb_eq in H
  | H : (_ =? _) = false |- _ => apply Z.eqb_neq in H
  | H : (_ || _)%bool = true |- _ => apply orb_true_iff in H
  | H : (_ || _)%bool = false |- _ => apply orb_false_iff in H; destruct H
  | H : (_ && _)%bool = true |- _ => apply andb_true_iff in H; destruct H
  | H : (_ && _)%bool = false |- _ => apply andb_false_iff in H
  | H : negb _ = true |- _ => apply negb_true_iff in H
  | H : negb _ = false |- _ => apply negb_false_iff in H
  end.

(** ** Generic lemmas *)

Lemma zlen_nonneg {A} (l : list A) : 0 ≤ zlen l.
Proof. unfold zlen. lia. Qed.

Lemma zlen_app {A} (l k : list A) : zlen (l ++ k) = zlen l + zlen k.
Proof. unfold zlen. rewrite length_app. lia. Qed.

Lemma zlen_cons {A} (x : A) l : zlen (x :: l) = 1 + zlen l.
Proof. unfold zlen. cbn [length]. lia. Qed.

Lemma zlen_nil_iff {A} (l : list A) : zlen l = 0 ↔ l = [].
Proof. unfold zlen. rewrite <-length_zero_iff_nil. lia. Qed.

#[export] Hint Rewrite @zlen_app @zlen_cons @length_app @length_take @length_drop
  @length_replicate @length_reverse @length_fmap : rt_len.

(** [firstn]/[skipn] at the boundary of an append. *)
Lemma take_app_exact {A} (l k : list A) n : n = length l → take n (l ++ k) = l.
Proof. intros ->. apply take_app_length. Qed.

Lemma drop_app_exact {A} (l k : list A) n : n = length l → drop n (l ++ k) = k.
Proof. intros ->. apply drop_app_length. Qed.

Lemma wrap_range w z : 0 ≤ w → 0 ≤ wrap w z < 2 ^ w.
Proof. intros. unfold wrap. apply Z.mod_pos_bound. lia. Qed.

Lemma wrap_small w z : 0 ≤ z < 2 ^ w → wrap w z = z.
Proof. intros. unfold wrap. by apply Z.mod_small. Qed.

(** ** Little- and big-endian codecs *)

Lemma length_to_le n z : length (to_le n z) = n.
Proof. revert z. induction n; intros; simpl; auto. Qed.

Lemma length_to_be n z : length (to_be n z) = n.
Proof. unfold to_be. by rewrite length_reverse, length_to_le. Qed.

#[export] Hint Rewrite length_to_le length_to_be : rt_len.

Lemma is_bytes_to_le n z : is_bytes (to_le n z).
Proof.
  revert z. induction n; intros; simpl; constructor; [|apply IHn].
  apply Z.mod_pos_bound. lia.
Qed.

Lemma is_bytes_to_be n z : is_bytes (to_be n z).
Proof. unfold to_be, is_bytes. apply Forall_reverse, is_bytes_to_le. Qed.

#[export] Hint Resolve is_bytes_to_le is_bytes_to_be : rt.

Lemma from_to_le n z : 0 ≤ z < 2 ^ (8 * Z.of_nat n) → from_le (to_le n z) = z.
Proof.
  revert z. induction n as [|n IH]; intros z Hz; simpl.
  - change (2 ^ (8 * Z.of_nat 0)) with 1 in Hz. lia.
  - rewrite IH.
    + pose proof (Z.div_mod z 256). lia.
    + replace (8 * Z.of_nat (S n)) with (8 + 8 * Z.of_nat n) in Hz by lia.
      rewrite Z.pow_add_r in Hz by lia. change (2 ^ 8) with 256 in Hz.
      split; [apply Z.div_pos; lia|]. apply Z.div_lt_upper_bound; lia.
Qed.

Lemma to_from_le l : is_bytes l → to_le (length l) (from_le l) = l.
Proof.
  induction 1 as [|b l Hb Hl IH]; [done|]. simpl. unfold is_byte in Hb.
  replace ((b + 256 * from_le l) mod 256) with b.
  - replace ((b + 256 * from_le l) / 256) with (from_le l); [by rewrite IH|].
    apply Z.div_unique with b; lia.
  - apply Z.mod_unique with (from_le l); lia.
Qed.

Lemma from_le_bound l : is_bytes l → 0 ≤ from_le l < 2 ^ (8 * zlen l).
Proof.
  induction 1 as [|b l Hb Hl IH]; [unfold zlen; simpl; lia|].
  simpl from_le. unfold is_byte in Hb. rewrite zlen_cons.
  replace (8 * (1 + zlen l)) with (8 + 8 * zlen l) by lia.
  pose proof (zlen_nonneg l).
  rewrite Z.pow_add_r by lia. change (2 ^ 8) with 256. lia.
Qed.

Lemma from_to_be n z : 0 ≤ z < 2 ^ (8 * Z.of_nat n) → from_be (to_be n z) = z.
Proof. intros. unfold from_be, to_be. rewrite reverse_involutive. by apply from_to_le. Qed.

Lemma to_from_be l : is_bytes l → to_be (length l) (from_be l) = l.
Proof.
  intros H. unfold from_be, to_be.
  rewrite <-(length_reverse l), to_from_le, reverse_involutive; [done|].
  by apply Forall_reverse.
Qed.

Lemma from_be_bound l : is_bytes l → 0 ≤ from_be l < 2 ^ (8 * zlen l).
Proof.
  intros H. unfold from_be.
  replace (zlen l) with (zlen (reverse l)) by (unfold zlen; by rewrite length_reverse).
  by apply from_le_bound, Forall_reverse.
Qed.

Lemma elem_of_concat {A} (x : A) (ls : list (list A)) : x ∈ concat ls ↔ ∃ l, x ∈ l ∧ l ∈ ls.
Proof.
  induction ls as [|l ls IH]; cbn [concat].
  - split; [by intros ?%elem_of_nil|]. by intros (? & _ & ?%elem_of_nil).
  - rewrite elem_of_app, IH. split.
    + intros [?|(k & ? & ?)]; [exists l|exists k]; (split; [done|]); by constructor.
    + intros (k & Hx & [->|Hk]%elem_of_cons); [by left|right; eauto].
Qed.
