(* ===== verification/Text.v ===== *)
(** * Rust string operations on byte lists

    The [str] and integer-parsing methods the configuration code uses, on the
    UTF-8 bytes of a string: [find], [rfind], [contains], [split], [split_once],
    [starts_with], [ends_with], [strip_prefix], [trim], [parse::<i64>()] and
    friends, and decimal printing. An ASCII character is found in a UTF-8
    string exactly where its byte is, so these are the [str] methods themselves
    for ASCII patterns. *)

From stdpp Require Import base list option numbers strings sets.
From Stdlib Require Import ZArith Lia.
From S2P Require Import Prelude.

(** ** Characters *)

Definition ch_tab : Z := 9.
Definition ch_lf : Z := 10.
Definition ch_cr : Z := 13.
Definition ch_space : Z := 32.
Definition ch_hash : Z := 35.
Definition ch_star : Z := 42.
Definition ch_plus : Z := 43.
Definition ch_comma : Z := 44.
Definition ch_minus : Z := 45.
Definition ch_dot : Z := 46.
Definition ch_slash : Z := 47.
Definition ch_zero : Z := 48.
Definition ch_colon : Z := 58.
Definition ch_at : Z := 64.
Definition ch_lbracket : Z := 91.
Definition ch_rbracket : Z := 93.

Definition is_digit (c : Z) : bool := (48 <=? c) && (c <=? 57).

(** ** Searching *)

(** [s.find(c)] *)
Fixpoint find_char (c : Z) (s : bytes) : option nat :=
  match s with
  | [] => None
  | b :: s => if b =? c then Some 0%nat else S <$> find_char c s
  end.

(** [s.rfind(c)] *)
Fixpoint rfind_char (c : Z) (s : bytes) : option nat :=
  match s with
  | [] => None
  | b :: s =>
      match rfind_char c s with
      | Some i => Some (S i)
      | None => if b =? c then Some 0%nat else None
      end
  end.

(** [s.contains(c)] *)
Definition contains_char (c : Z) (s : bytes) : bool := existsb (λ b, b =? c) s.

(** [s.find(p)] for a predicate on characters *)
Fixpoint find_pred (p : Z → bool) (s : bytes) : option nat :=
  match s with
  | [] => None
  | b :: s => if p b then Some 0%nat else S <$> find_pred p s
  end.

Fixpoint starts_with (p s : bytes) : bool :=
  match p, s with
  | [], _ => true
  | a :: p, b :: s => (a =? b) && starts_with p s
  | _ :: _, [] => false
  end.

Definition ends_with (p s : bytes) : bool := starts_with (reverse p) (reverse s).

(** [s.find(p)] for a substring *)
Fixpoint find_sub (p s : bytes) : option nat :=
  if starts_with p s then Some 0%nat
  else match s with [] => None | _ :: s => S <$> find_sub p s end.

Definition strip_prefix (p s : bytes) : option bytes :=
  if starts_with p s then Some (drop (length p) s) else None.

(** ** Splitting *)

(** [s.split(c)]: one piece more than there are separators. *)
Fixpoint split_char (c : Z) (s : bytes) : list bytes :=
  match s with
  | [] => [[]]
  | b :: s =>
      if b =? c then [] :: split_char c s
      else match split_char c s with
           | [] => [[b]]
           | p :: ps => (b :: p) :: ps
           end
  end.

(** [s.split_once(c)] *)
Definition split_once (c : Z) (s : bytes) : option (bytes * bytes) :=
  match find_char c s with
  | None => None
  | Some i => Some (take i s, drop (S i) s)
  end.

(** ** [trim]: Unicode [White_Space], in UTF-8 *)

(** The length of a white-space character at the start of [s]. *)
Definition ws_len (s : bytes) : nat :=
  match s with
  | 9 :: _ | 10 :: _ | 11 :: _ | 12 :: _ | 13 :: _ | 32 :: _ => 1%nat
  | 194 :: 133 :: _ | 194 :: 160 :: _ => 2%nat                    (* U+0085, U+00A0 *)
  | 225 :: 154 :: 128 :: _ => 3%nat                              (* U+1680 *)
  | 226 :: 128 :: b :: _ =>                                  (* U+2000-200A, 2028, 2029, 202F *)
      if (128 <=? b) && (b <=? 138) || (b =? 168) || (b =? 169) || (b =? 175) then 3%nat else 0%nat
  | 226 :: 129 :: 159 :: _ => 3%nat                              (* U+205F *)
  | 227 :: 128 :: 128 :: _ => 3%nat                              (* U+3000 *)
  | _ => 0%nat
  end.

Fixpoint trim_start_fuel (fuel : nat) (s : bytes) : bytes :=
  match fuel with
  | O => s
  | S fuel => match ws_len s with O => s | n => trim_start_fuel fuel (drop n s) end
  end.
Definition trim_start (s : bytes) : bytes := trim_start_fuel (length s) s.

(** A white-space character at the end of [s]: its length. *)
Definition ws_end_len (s : bytes) : nat :=
  let n := length s in
  if (ws_len (drop (n - 1) s) =? 1)%nat then 1%nat
  else if (ws_len (drop (n - 2) s) =? 2)%nat then 2%nat
  else if (ws_len (drop (n - 3) s) =? 3)%nat then 3%nat
  else 0%nat.

Fixpoint trim_end_fuel (fuel : nat) (s : bytes) : bytes :=
  match fuel with
  | O => s
  | S fuel => match ws_end_len s with O => s | n => trim_end_fuel fuel (take (length s - n) s) end
  end.
Definition trim_end (s : bytes) : bytes := trim_end_fuel (length s) s.

Definition trim (s : bytes) : bytes := trim_end (trim_start s).

(** ** Integers *)

Fixpoint digits_value (acc : Z) (s : bytes) : option Z :=
  match s with
  | [] => Some acc
  | b :: s => if is_digit b then digits_value (10 * acc + (b - ch_zero)) s else None
  end.

Definition parse_digits (s : bytes) : option Z :=
  match s with [] => None | _ => digits_value 0 s end.

(** [s.parse::<uN>()]: an optional [+] and digits, in range. *)
Definition parse_unsigned (max : Z) (s : bytes) : option Z :=
  let d := match s with 43 :: s' => s' | _ => s end in
  match parse_digits d with
  | Some v => if v <=? max then Some v else None
  | None => None
  end.

(** [s.parse::<iN>()]: an optional sign and digits, in range. *)
Definition parse_signed (min max : Z) (s : bytes) : option Z :=
  let v := match s with
           | 45 :: s' => Z.opp <$> parse_digits s'
           | 43 :: s' => parse_digits s'
           | _ => parse_digits s
           end in
  match v with
  | Some v => if (min <=? v) && (v <=? max) then Some v else None
  | None => None
  end.

Definition parse_u16 : bytes → option Z := parse_unsigned u16_max.
Definition parse_u64 : bytes → option Z := parse_unsigned u64_max.
Definition i64_min : Z := -9223372036854775808.
Definition i64_max : Z := 9223372036854775807.
Definition parse_i64 : bytes → option Z := parse_signed i64_min i64_max.

(** Decimal printing ([write!(f, "{}", n)]). The fuel is the number of bits,
    which bounds the number of digits. *)
Fixpoint show_digits (fuel : nat) (n : Z) (acc : bytes) : bytes :=
  match fuel with
  | O => acc
  | S fuel =>
      let acc' := (ch_zero + n mod 10) :: acc in
      if n / 10 =? 0 then acc' else show_digits fuel (n / 10) acc'
  end.
Definition show_unsigned (n : Z) : bytes := show_digits (S (Z.to_nat (Z.log2 n))) n [].
Definition show_int (n : Z) : bytes :=
  if n <? 0 then ch_minus :: show_unsigned (- n) else show_unsigned n.

(** ** Lemmas: searching *)

Lemma find_char_Some c s i :
  find_char c s = Some i ↔ s !! i = Some c ∧ c ∉ take i s.
Proof.
  revert i. induction s as [|b s IH]; intros i; cbn; [split; [done|intros []; done]|].
  destruct (Z.eqb_spec b c) as [->|Hne].
  - destruct i; cbn; [split; [intros _; split; [done|set_solver]|done]|].
    split; [done|]. intros [_ Hn]. set_solver.
  - destruct i; cbn.
    + split; [by intros (? & ? & ?)%fmap_Some|]. intros [? _]. congruence.
    + destruct (find_char c s) as [j|] eqn:E; cbn.
      * split; [intros [= <-]|intros [Hi Hn]].
        { destruct (IH j) as [[H1 H2] _]; [done|]. split; [done|set_solver]. }
        f_equal. f_equal. enough (Some j = Some i) by congruence. apply IH. split; [done|set_solver].
      * split; [done|]. intros [Hi Hn]. enough (@None nat = Some i) by done. apply IH.
        split; [done|set_solver].
Qed.

Lemma find_char_None c s : find_char c s = None ↔ c ∉ s.
Proof.
  induction s as [|b s IH]; cbn; [set_solver|].
  destruct (Z.eqb_spec b c) as [->|Hne]; [set_solver|].
  destruct (find_char c s); cbn; [|set_solver].
  split; [done|]. intros Hn. assert (c ∉ s) as Hc by set_solver. by apply IH in Hc.
Qed.

Lemma rfind_char_Some c s i :
  rfind_char c s = Some i ↔ s !! i = Some c ∧ c ∉ drop (S i) s.
Proof.
  revert i. induction s as [|b s IH]; intros i; cbn; [split; [done|intros []; done]|].
  destruct (rfind_char c s) as [j|] eqn:E.
  - destruct i; cbn.
    + split; [done|]. intros [_ Hn]. exfalso. destruct (IH j) as [[H1 _] _]; [done|].
      rewrite drop_0 in Hn. apply Hn. by eapply list_elem_of_lookup_2.
    + rewrite <-IH. split; [by intros [= ->]|by intros [= ->]].
  - assert (c ∉ s) as Hc.
    { intros [i' Hi']%list_elem_of_lookup. clear -IH Hi'.
      assert (∃ k, s !! k = Some c ∧ c ∉ drop (S k) s) as [k Hk].
      { clear IH. revert i' Hi'. induction s as [|b s IHs]; intros i' Hi'; [done|].
        destruct (decide (c ∈ s)) as [[k Hk]%list_elem_of_lookup|Hn].
        - destruct (IHs k Hk) as [k' Hk']. by exists (S k').
        - destruct i'; [by exists 0%nat|]. exfalso. apply Hn. by eapply list_elem_of_lookup_2. }
      by apply IH in Hk. }
    destruct (Z.eqb_spec b c) as [->|Hne]; destruct i; cbn; rewrite ?drop_0.
    + done.
    + split; [done|]. intros [Hi _]. exfalso. apply Hc. by eapply list_elem_of_lookup_2.
    + split; [done|]. intros [? _]. congruence.
    + split; [done|]. intros [Hi _]. exfalso. apply Hc. by eapply list_elem_of_lookup_2.
Qed.

Lemma rfind_char_None c s : rfind_char c s = None ↔ c ∉ s.
Proof.
  induction s as [|b s IH]; cbn; [set_solver|].
  destruct (rfind_char c s) as [j|].
  - split; [done|]. intros Hn. assert (c ∉ s) as Hc by set_solver. by apply IH in Hc.
  - assert (c ∉ s) as Hc by (by apply IH).
    destruct (Z.eqb_spec b c) as [->|Hne]; set_solver.
Qed.

Lemma contains_char_spec c s : contains_char c s = true ↔ c ∈ s.
Proof.
  unfold contains_char. rewrite existsb_exists. setoid_rewrite Z.eqb_eq.
  rewrite list_elem_of_In. split; [by intros (x & Hx & ->)|by exists c].
Qed.

Lemma contains_char_false c s : contains_char c s = false ↔ c ∉ s.
Proof. rewrite <-not_true_iff_false, contains_char_spec. done. Qed.

Lemma starts_with_spec p s : starts_with p s = true ↔ ∃ t, s = p ++ t.
Proof.
  revert s. induction p as [|a p IH]; intros s; cbn; [split; [by exists s|done]|].
  destruct s as [|b s]; [split; [done|by intros [t ?]]|].
  rewrite andb_true_iff, Z.eqb_eq, IH. split.
  - intros [-> [t ->]]. by exists t.
  - intros [t [= -> ->]]. split; [done|]. by exists t.
Qed.

Lemma ends_with_spec p s : ends_with p s = true ↔ ∃ t, s = t ++ p.
Proof.
  unfold ends_with. rewrite starts_with_spec. split.
  - intros [t Ht]. exists (reverse t). apply (f_equal reverse) in Ht.
    by rewrite reverse_involutive, reverse_app, reverse_involutive in Ht.
  - intros [t ->]. exists (reverse t). by rewrite reverse_app.
Qed.

(** [find_sub] is the leftmost occurrence. *)
Lemma find_sub_Some p s i :
  find_sub p s = Some i →
  (∃ t, s = take i s ++ p ++ t) ∧ (i ≤ length s)%nat
  ∧ ∀ u v, s = u ++ p ++ v → (i ≤ length u)%nat.
Proof.
  revert i. induction s as [|b s IH]; intros i; cbn.
  - destruct (starts_with p []) eqn:E; [|done]. intros [= <-].
    apply starts_with_spec in E as [t Ht]. split; [by exists t|]. split; [done|]. intros. lia.
  - destruct (starts_with p (b :: s)) eqn:E.
    + intros [= <-]. apply starts_with_spec in E as [t Ht].
      split; [by exists t|]. split; [lia|]. intros. lia.
    + destruct (find_sub p s) as [j|] eqn:Ej; cbn; [|done]. intros [= <-].
      destruct (IH j eq_refl) as ([t Ht] & Hl & Hmin). split; [exists t; cbn; by rewrite <-Ht|].
      split; [lia|]. intros u v Huv. destruct u as [|x u].
      { exfalso. assert (starts_with p (b :: s) = true); [|congruence].
        apply starts_with_spec. by exists v. }
      cbn in Huv. injection Huv as -> Hs. apply Hmin in Hs. cbn. lia.
Qed.

Lemma find_sub_None p s : find_sub p s = None → ∀ u v, s ≠ u ++ p ++ v.
Proof.
  induction s as [|b s IH]; cbn; destruct (starts_with p _) eqn:E; try done.
  - intros _ u v Huv. symmetry in Huv. apply app_eq_nil in Huv as [-> Hp].
    assert (starts_with p [] = true); [|congruence]. apply starts_with_spec. by exists v.
  - intros Hn u v Huv. destruct (find_sub p s); [done|]. destruct u as [|x u].
    + assert (starts_with p (b :: s) = true); [|congruence]. apply starts_with_spec. by exists v.
    + cbn in Huv. injection Huv as -> Hs. by eapply IH.
Qed.

Lemma rfind_middle c u v : c ∉ v → rfind_char c (u ++ c :: v) = Some (length u).
Proof.
  intros Hv. apply rfind_char_Some. split; [by apply list_lookup_middle|].
  replace (S (length u)) with (length u + 1)%nat by lia. by rewrite <-drop_drop, drop_app_length.
Qed.

Lemma find_middle c u v : c ∉ u → find_char c (u ++ c :: v) = Some (length u).
Proof.
  intros Hu. apply find_char_Some. split; [by apply list_lookup_middle|].
  by rewrite take_app_length.
Qed.

Lemma split_once_Some c s a b : split_once c s = Some (a, b) ↔ c ∉ a ∧ s = a ++ c :: b.
Proof.
  unfold split_once. split.
  - destruct (find_char c s) as [i|] eqn:E; [|done]. intros [= <- <-].
    apply find_char_Some in E as [Hi Hf]. split; [done|].
    by rewrite take_drop_middle.
  - intros [Hn ->]. rewrite find_middle by done. rewrite take_app_length.
    by rewrite <-Nat.add_1_r, <-drop_drop, drop_app_length.
Qed.

Lemma split_once_None c s : split_once c s = None ↔ c ∉ s.
Proof. unfold split_once. rewrite <-find_char_None. by destruct (find_char c s). Qed.

(** The leftmost occurrence depends only on what comes before its end. *)
Lemma find_sub_prefix p u t t' i :
  find_sub p (u ++ p ++ t) = Some i → i = length u → find_sub p (u ++ p ++ t') = Some (length u).
Proof.
  revert i. induction u as [|b u IH]; intros i Hf ->; cbn in *.
  - assert (starts_with p (p ++ t') = true) as E by (apply starts_with_spec; eauto).
    destruct (p ++ t') eqn:Ep; cbn; rewrite ?Ep in E; cbn in E; by rewrite E.
  - destruct (starts_with p (b :: u ++ p ++ t)) eqn:E; [done|].
    destruct (find_sub p (u ++ p ++ t)) as [j|] eqn:Ej; [|done]. injection Hf as ->.
    assert (starts_with p (b :: u ++ p ++ t') = false) as ->.
    { rewrite <-not_true_iff_false, starts_with_spec in *. intros [w Hw]. apply E.
      exists (drop (length p) (b :: u ++ p ++ t)).
      rewrite <-(take_drop (length p) (b :: u ++ p ++ t)) at 1. f_equal.
      assert (∀ x, take (length p) (b :: u ++ p ++ x) = take (length p) (b :: u ++ p)) as Hx.
      { intros x. change (b :: u ++ p ++ x) with ((b :: u) ++ p ++ x).
        rewrite (app_assoc _ p x), take_app_le; [done|]. cbn. rewrite length_app. lia. }
      rewrite Hx, <-(Hx t'), Hw, take_app_length. done. }
    by rewrite (IH _ eq_refl eq_refl).
Qed.

Lemma find_pred_Some p s i :
  find_pred p s = Some i →
  ∃ u c v, s = u ++ c :: v ∧ length u = i ∧ p c = true ∧ Forall (λ b, p b = false) u.
Proof.
  revert i. induction s as [|b s IH]; intros i; cbn; [done|]. destruct (p b) eqn:E.
  - intros [= <-]. by exists [], b, s.
  - destruct (find_pred p s) as [j|] eqn:Ej; [|done]. intros [= <-].
    destruct (IH j eq_refl) as (u & c & v & -> & <- & Hc & Hu).
    exists (b :: u), c, v. split_and!; [done..|by constructor].
Qed.

Lemma find_pred_None p s : find_pred p s = None → Forall (λ b, p b = false) s.
Proof.
  induction s as [|b s IH]; cbn; [constructor|]. destruct (p b) eqn:E; [done|].
  destruct (find_pred p s); [done|]. intros _. constructor; auto.
Qed.

Lemma find_pred_middle p u c v :
  Forall (λ b, p b = false) u → p c = true → find_pred p (u ++ c :: v) = Some (length u).
Proof. induction 1 as [|b u Hb Hu IH]; intros Hc; cbn; [by rewrite Hc|]. by rewrite Hb, IH. Qed.

Lemma find_pred_all p u : Forall (λ b, p b = false) u → find_pred p u = None.
Proof. induction 1 as [|b u Hb Hu IH]; cbn; [done|]. by rewrite Hb, IH. Qed.

(** ** Lemmas: splitting *)

Lemma split_char_nonempty c s : split_char c s ≠ [].
Proof. destruct s as [|b s]; cbn; [done|]. destruct (b =? c); [done|]. by destruct (split_char c s). Qed.

Lemma split_char_join c s :
  s = match split_char c s with [] => [] | p :: ps => p ++ concat ((λ q, c :: q) <$> ps) end.
Proof.
  induction s as [|b s IH]; cbn; [done|].
  pose proof (split_char_nonempty c s). destruct (split_char c s) as [|p ps]; [done|].
  destruct (Z.eqb_spec b c) as [->|Hne]; cbn; by rewrite IH at 1.
Qed.

Lemma split_char_pieces c s : Forall (λ p, c ∉ p) (split_char c s).
Proof.
  induction s as [|b s IH]; cbn; [constructor; [set_solver|done]|].
  destruct (Z.eqb_spec b c) as [->|Hne]; [constructor; [set_solver|done]|].
  destruct (split_char c s) as [|p ps]; [constructor; [set_solver|done]|].
  inversion IH. constructor; [set_solver|done].
Qed.

Lemma split_char_no_sep c s : c ∉ s → split_char c s = [s].
Proof.
  induction s as [|b s IH]; intros Hn; cbn; [done|].
  destruct (Z.eqb_spec b c) as [->|Hne]; [set_solver|]. rewrite IH by set_solver. done.
Qed.

Lemma split_char_app c p s : c ∉ p → split_char c (p ++ c :: s) = p :: split_char c s.
Proof.
  induction p as [|b p IH]; intros Hn; cbn; [by rewrite Z.eqb_refl|].
  destruct (Z.eqb_spec b c) as [->|Hne]; [set_solver|]. rewrite IH by set_solver. done.
Qed.

(** ** Lemmas: integers *)

Lemma digits_value_app acc s t :
  digits_value acc (s ++ t) = (v ← digits_value acc s; digits_value v t).
Proof.
  revert acc. induction s as [|b s IH]; intros acc; cbn; [done|].
  destruct (is_digit b); [apply IH|done].
Qed.

Lemma digits_value_bound acc s v : 0 ≤ acc → digits_value acc s = Some v → acc ≤ v.
Proof.
  revert acc. induction s as [|b s IH]; intros acc Ha; cbn; [intros [= <-]; lia|].
  destruct (is_digit b) eqn:E; [|done]. intros H. unfold is_digit in E. zbool.
  apply IH in H; unfold ch_zero in *; lia.
Qed.

Lemma digit_char n : 0 ≤ n → is_digit (ch_zero + n mod 10) = true.
Proof. intros. unfold is_digit, ch_zero. pose proof (Z.mod_pos_bound n 10). lia. Qed.

(** The digits printed are the number read back, in front of what follows. *)
Lemma show_digits_value fuel n acc :
  0 ≤ n < 2 ^ Z.of_nat fuel → (0 < fuel)%nat →
  ∃ d ds, show_digits fuel n acc = d :: ds ++ acc ∧ is_digit d = true
    ∧ digits_value 0 (d :: ds) = Some n.
Proof.
  revert n acc. induction fuel as [|fuel IH]; intros n acc Hn Hf; [lia|]. cbn [show_digits].
  pose proof (digit_char n ltac:(lia)) as Hd. pose proof (Z.mod_pos_bound n 10).
  destruct (Z.eqb_spec (n / 10) 0) as [E|E].
  - exists (ch_zero + n mod 10), []. split; [done|]. split; [done|].
    cbn [digits_value]. rewrite Hd. f_equal. unfold ch_zero.
    pose proof (Z.div_mod n 10). lia.
  - assert (0 < n / 10) as Hpos by (pose proof (Z.div_pos n 10); lia).
    assert (n / 10 < 2 ^ Z.of_nat fuel) as Hlt.
    { apply Z.div_lt_upper_bound; [lia|]. rewrite Nat2Z.inj_succ, Z.pow_succ_r in Hn by lia. lia. }
    assert (0 < fuel)%nat as Hf'.
    { destruct fuel; [|lia]. cbn in Hlt. lia. }
    destruct (IH (n / 10) ((ch_zero + n mod 10) :: acc)) as (d & ds & -> & Hd' & Hv); [lia|done|].
    exists d, (ds ++ [ch_zero + n mod 10]). split; [by rewrite <-app_assoc|]. split; [done|].
    change (digits_value 0 ((d :: ds) ++ [ch_zero + n mod 10]) = Some n).
    rewrite digits_value_app, Hv. cbn. rewrite Hd. f_equal. unfold ch_zero.
    pose proof (Z.div_mod n 10). lia.
Qed.

Lemma show_unsigned_spec n :
  0 ≤ n → ∃ d ds, show_unsigned n = d :: ds ∧ is_digit d = true
    ∧ digits_value 0 (d :: ds) = Some n.
Proof.
  intros Hn. unfold show_unsigned.
  destruct (show_digits_value (S (Z.to_nat (Z.log2 n))) n []) as (d & ds & E & H1 & H2); [|lia|].
  - split; [done|]. rewrite Nat2Z.inj_succ, Z2Nat.id by apply Z.log2_nonneg.
    destruct (decide (n = 0)) as [->|Hne]; [done|]. apply Z.log2_spec. lia.
  - exists d, ds. rewrite app_nil_r in E. done.
Qed.

Lemma digit_not_sign d : is_digit d = true → d ≠ ch_minus ∧ d ≠ ch_plus ∧ d ≠ ch_colon.
Proof. unfold is_digit, ch_minus, ch_plus, ch_colon. intros. zbool. lia. Qed.

(** A leading digit is neither sign, whatever the literal pattern looks like. *)
Lemma parse_signed_digits lo hi d ds :
  is_digit d = true →
  parse_signed lo hi (d :: ds) =
    match digits_value 0 (d :: ds) with
    | Some v => if (lo <=? v) && (v <=? hi) then Some v else None
    | None => None
    end.
Proof.
  intros Hd. unfold parse_signed, is_digit in *. zbool.
  assert (d ∈ [48; 49; 50; 51; 52; 53; 54; 55; 56; 57]) as Hin.
  { rewrite !elem_of_cons. lia. }
  rewrite !elem_of_cons in Hin.
  repeat (destruct Hin as [->|Hin]; [reflexivity|]). by apply elem_of_nil in Hin.
Qed.

Lemma parse_unsigned_digits hi d ds :
  is_digit d = true →
  parse_unsigned hi (d :: ds) =
    match digits_value 0 (d :: ds) with
    | Some v => if v <=? hi then Some v else None
    | None => None
    end.
Proof.
  intros Hd. unfold parse_unsigned, is_digit in *. zbool.
  assert (d ∈ [48; 49; 50; 51; 52; 53; 54; 55; 56; 57]) as Hin.
  { rewrite !elem_of_cons. lia. }
  rewrite !elem_of_cons in Hin.
  repeat (destruct Hin as [->|Hin]; [reflexivity|]). by apply elem_of_nil in Hin.
Qed.

Lemma parse_show_signed lo hi n :
  0 ≤ n ≤ hi → lo ≤ 0 → parse_signed lo hi (show_int n) = Some n.
Proof.
  intros Hn Hlo. unfold show_int. destruct (Z.ltb_spec n 0); [lia|].
  destruct (show_unsigned_spec n) as (d & ds & -> & Hd & Hv); [lia|].
  rewrite parse_signed_digits, Hv by done.
  destruct (Z.leb_spec lo n), (Z.leb_spec n hi); done || lia.
Qed.

Lemma parse_show_unsigned hi n :
  0 ≤ n ≤ hi → parse_unsigned hi (show_int n) = Some n.
Proof.
  intros Hn. unfold show_int. destruct (Z.ltb_spec n 0); [lia|].
  destruct (show_unsigned_spec n) as (d & ds & -> & Hd & Hv); [lia|].
  rewrite parse_unsigned_digits, Hv by done. destruct (Z.leb_spec n hi); done || lia.
Qed.

Lemma digits_value_all acc s v : digits_value acc s = Some v → Forall (λ b, is_digit b = true) s.
Proof.
  revert acc. induction s as [|b s IH]; intros acc; cbn; [constructor|].
  destruct (is_digit b) eqn:E; [|done]. intros H. constructor; [done|]. by eapply IH.
Qed.

(** A printed number holds digits only. *)
Lemma show_int_digits n : 0 ≤ n → Forall (λ b, is_digit b = true) (show_int n).
Proof.
  intros Hn. unfold show_int. destruct (Z.ltb_spec n 0); [lia|].
  destruct (show_unsigned_spec n) as (d & ds & -> & Hd & Hv); [lia|]. by eapply digits_value_all.
Qed.

Lemma show_int_cons n : 0 ≤ n → ∃ d ds, show_int n = d :: ds.
Proof.
  intros Hn. unfold show_int. destruct (Z.ltb_spec n 0); [lia|].
  destruct (show_unsigned_spec n) as (d & ds & -> & _); [lia|]. eauto.
Qed.

Lemma parse_unsigned_range hi s v : parse_unsigned hi s = Some v → 0 ≤ v ≤ hi.
Proof.
  unfold parse_unsigned. set (d := match s with 43 :: s' => s' | _ => s end).
  destruct (parse_digits d) as [w|] eqn:E; [|done]. unfold parse_digits in E.
  destruct d; [done|]. apply digits_value_bound in E; [|lia].
  case_goal; [|done]. intros [= <-]. zbool. lia.
Qed.
