(* ===== verification/Utf8.v ===== *)
(** * UTF-8

    Well-formed UTF-8, which every [str] is, and [String::from_utf8_lossy],
    which the protocol readers apply to names from the network. *)

From stdpp Require Import base list option numbers strings sets.
From Stdlib Require Import ZArith Lia.
From S2P Require Import Prelude.

Definition cont (b : Z) : bool := (128 <=? b) && (b <=? 191).

(** Well-formed UTF-8. *)
Fixpoint utf8_ok_fuel (fuel : nat) (s : bytes) : bool :=
  match fuel with
  | O => match s with [] => true | _ => false end
  | S fuel =>
      match s with
      | [] => true
      | a :: s1 =>
          if a <? 128 then utf8_ok_fuel fuel s1
          else
            match s1 with
            | b :: s2 =>
                if (194 <=? a) && (a <=? 223) then cont b && utf8_ok_fuel fuel s2
                else
                  match s2 with
                  | c :: s3 =>
                      if (224 <=? a) && (a <=? 239) then
                        cont b && cont c && negb ((a =? 224) && (b <? 160)) && negb ((a =? 237) && (159 <? b))
                        && utf8_ok_fuel fuel s3
                      else
                        match s3 with
                        | d :: s4 =>
                            (240 <=? a) && (a <=? 244) && cont b && cont c && cont d
                            && negb ((a =? 240) && (b <? 144)) && negb ((a =? 244) && (143 <? b))
                            && utf8_ok_fuel fuel s4
                        | [] => false
                        end
                  | [] => false
                  end
            | [] => false
            end
      end
  end.
Definition utf8_ok (s : bytes) : bool := utf8_ok_fuel (length s) s.

(** ** Lossy decoding *)

(** The first character of a non-empty text: its length and whether it is
    well-formed; of an ill-formed one, the length of its longest prefix that
    could begin a character. *)
Definition utf8_char (s : bytes) : nat * bool :=
  match s with
  | [] => (0%nat, true)
  | a :: s =>
      if a <? 128 then (1%nat, true)
      else if (194 <=? a) && (a <=? 223) then
        match s with b :: _ => if cont b then (2%nat, true) else (1%nat, false) | [] => (1%nat, false) end
      else if (224 <=? a) && (a <=? 239) then
        match s with
        | b :: s =>
            if cont b && negb ((a =? 224) && (b <? 160)) && negb ((a =? 237) && (159 <? b)) then
              match s with c :: _ => if cont c then (3%nat, true) else (2%nat, false) | [] => (2%nat, false) end
            else (1%nat, false)
        | [] => (1%nat, false)
        end
      else if (240 <=? a) && (a <=? 244) then
        match s with
        | b :: s =>
            if cont b && negb ((a =? 240) && (b <? 144)) && negb ((a =? 244) && (143 <? b)) then
              match s with
              | c :: s =>
                  if cont c then
                    match s with d :: _ => if cont d then (4%nat, true) else (3%nat, false) | [] => (3%nat, false) end
                  else (2%nat, false)
              | [] => (2%nat, false)
              end
            else (1%nat, false)
        | [] => (1%nat, false)
        end
      else (1%nat, false)
  end.

(** The replacement character U+FFFD. *)
Definition replacement : bytes := [239; 191; 189].

Fixpoint lossy_fuel (fuel : nat) (s : bytes) : bytes :=
  match fuel, s with
  | S fuel, _ :: _ =>
      let '(n, ok) := utf8_char s in (if ok then take n s else replacement) ++ lossy_fuel fuel (drop n s)
  | _, _ => []
  end.
Definition from_utf8_lossy (s : bytes) : bytes := lossy_fuel (length s) s.

Example from_utf8_lossy_examples :
  from_utf8_lossy [104; 195; 169; 33] = [104; 195; 169; 33]
  ∧ from_utf8_lossy [255; 97] = replacement ++ [97]
  ∧ from_utf8_lossy [226; 130; 97] = replacement ++ [97]
  ∧ from_utf8_lossy [240; 144; 128; 255] = replacement ++ replacement.
Proof. vm_compute. done. Qed.

Lemma lossy_valid_fuel fuel fuel' s :
  (length s ≤ fuel)%nat → utf8_ok_fuel fuel' s = true → lossy_fuel fuel s = s.
Proof.
  revert fuel s. induction fuel' as [|fuel' IH]; intros [|fuel] [|a s1] Hl H; try done; [cbn in Hl; lia|].
  cbn [utf8_ok_fuel] in H. cbn [lossy_fuel utf8_char].
  destruct (a <? 128).
  { cbn [take drop app]. rewrite !drop_0, !take_0. by rewrite IH by (done || (cbn in Hl; lia)). }
  destruct s1 as [|b s2]; [done|]. destruct ((194 <=? a) && (a <=? 223)).
  { apply andb_true_iff in H as [-> H]. cbn [take drop app]. rewrite !drop_0, !take_0. by rewrite IH by (done || (cbn in Hl; lia)). }
  destruct s2 as [|c s3]; [done|]. destruct ((224 <=? a) && (a <=? 239)).
  { rewrite !andb_true_iff in H. destruct H as [[[[-> ->] ->] ->] H]. cbn [andb take drop app].
    rewrite !drop_0, !take_0. by rewrite IH by (done || (cbn in Hl; lia)). }
  destruct s3 as [|d s4]; [done|]. rewrite !andb_true_iff in H.
  destruct H as [[[[[[[Ha1 Ha2] ->] ->] ->] ->] ->] H]. rewrite Ha1, Ha2. cbn [andb take drop app].
  rewrite !drop_0, !take_0. by rewrite IH by (done || (cbn in Hl; lia)).
Qed.

(** Well-formed text is left as it is. *)
Lemma lossy_valid s : utf8_ok s = true → from_utf8_lossy s = s.
Proof. by apply lossy_valid_fuel. Qed.

Lemma lossy_ascii s : Forall (λ c, c < 128) s → from_utf8_lossy s = s.
Proof.
  unfold from_utf8_lossy. induction 1 as [|c s Hc Hs IH]; [done|]. cbn [length lossy_fuel utf8_char].
  destruct (Z.ltb_spec c 128); [|lia]. cbn [take drop app]. rewrite drop_0, take_0. by rewrite IH.
Qed.
