(* ===== verification/AsyncIo.v ===== *)
(** * Polled transports and framed connections

    What the framing layers of the program share. A transport is the list of
    its answers to [poll_read] or [poll_write]; a connection keeps a partial
    frame ([read_buf]) and a frame being delivered ([plain]) across polls, and
    encoded bytes the transport has not taken ([out]). The three layers that
    frame datagrams or chunks over a byte stream (UDP over SOCKS5 in
    src/socks5.rs, src/relay.rs and src/ss.rs) have the same [poll_fill],
    [poll_flush_out] and delivery code; they differ in the state machine that
    reads a frame, a [Machine] here. The reader is proved to deliver what its
    machine reads from the bytes as a whole, however they are cut. *)

From stdpp Require Import base list option numbers strings sets.
From Stdlib Require Import ZArith Lia.
From S2P Require Import Prelude.

(** ** The transport below *)

(** An answer to [poll_read]: not ready, an error, or bytes, none at the end
    of the stream. *)
Inductive ReadAnswer : Set :=
| RPending
| RErr (e : io_error)
| RData (piece : bytes).

(** An answer to [poll_write]: not ready, an error, or at most [n] of the
    bytes offered taken. *)
Inductive Answer : Set :=
| APending
| AErr (e : io_error)
| ATake (n : nat).

#[export] Instance io_answer_eq_dec : EqDecision Answer.
Proof. solve_decision. Defined.

Definition answer_bytes (a : ReadAnswer) : bytes := match a with RData p => p | _ => [] end.
Definition received (answers : list ReadAnswer) : bytes := concat (answer_bytes <$> answers).

Lemma received_cons a answers : received (a :: answers) = answer_bytes a ++ received answers.
Proof. done. Qed.

(** A read into [room] bytes; what does not fit stays in the transport. *)
Definition inner_read (room : nat) (answers : list ReadAnswer) :
    poll (result io_error bytes) * list ReadAnswer :=
  match answers with
  | [] => (Pending, [])
  | RPending :: answers => (Pending, answers)
  | RErr e :: answers => (Ready (Err e), answers)
  | RData p :: answers =>
      (Ready (Ok (take room p)), match drop room p with [] => answers | rest => RData rest :: answers end)
  end.

(** ** Filling a buffer *)

(** [poll_fill]: reads until [buf] holds [need] bytes; [Ok false] when the
    stream ends before. *)
Fixpoint poll_fill (need : nat) (answers : list ReadAnswer) (buf : bytes) :
    poll (result io_error bool) * bytes * list ReadAnswer :=
  if (length buf <? need)%nat then
    match answers with
    | [] => (Pending, buf, [])
    | RPending :: answers => (Pending, buf, answers)
    | RErr e :: answers => (Ready (Err e), buf, answers)
    | RData p :: answers =>
        let room := (need - length buf)%nat in
        match take room p, drop room p with
        | [], _ => (Ready (Ok false), buf, answers)
        | got, [] => poll_fill need answers (buf ++ got)
        | got, rest => (Ready (Ok true), buf ++ got, RData rest :: answers)
        end
    end
  else (Ready (Ok true), buf, answers).

(** ** The outgoing buffer *)

(** [out] and [out_pos], and all bytes the transport has taken. *)
Record OutBuf : Set := mkOut { out : bytes; out_pos : nat; sent : bytes }.

Definition new_out : OutBuf := mkOut [] 0 [].

(** What the transport has still to take. *)
Definition unsent (o : OutBuf) : bytes := drop (out_pos o) (out o).

(** Bytes appended to [out]. *)
Definition queue (b : bytes) (o : OutBuf) : OutBuf := mkOut (out o ++ b) (out_pos o) (sent o).

(** [poll_flush_out]: hands [out] to the transport; [zero] is the error for a
    transport that takes nothing. *)
Fixpoint flush_out (zero : io_error) (answers : list Answer) (o : OutBuf) :
    poll (result io_error ()) * OutBuf * list Answer :=
  if (out_pos o <? length (out o))%nat then
    match answers with
    | [] => (Pending, o, [])
    | APending :: answers => (Pending, o, answers)
    | AErr e :: answers => (Ready (Err e), o, answers)
    | ATake n :: answers =>
        let n := Nat.min n (length (out o) - out_pos o) in
        if (n =? 0)%nat then (Ready (Err zero), o, answers)
        else flush_out zero answers (mkOut (out o) (out_pos o + n) (sent o ++ take n (unsent o)))
    end
  else (Ready (Ok tt), mkOut [] 0 (sent o), answers).

(** [io::ErrorKind::WriteZero.into()], the [zero] of the datagram layers. *)
Definition write_zero : io_error := IoError WriteZero "write zero".

Definition out_ok (o : OutBuf) : Prop := (out_pos o ≤ length (out o))%nat.

(** A flush moves bytes from the buffer to the transport. *)
Lemma flush_out_spec zero answers o p o' answers' :
  out_ok o → flush_out zero answers o = (p, o', answers') →
  sent o' ++ unsent o' = sent o ++ unsent o ∧ out_ok o'
  ∧ (length (unsent o') ≤ length (unsent o))%nat
  ∧ (p = Ready (Ok tt) → out o' = [] ∧ unsent o' = []).
Proof.
  unfold out_ok. revert o. induction answers as [|[|e|n] answers IH]; intros o Hp H; cbn [flush_out] in H;
    destruct (Nat.ltb_spec (out_pos o) (length (out o))) as [Hlt|Hge]; simplify_eq; try (by split_and!).
  1,2,3,5: unfold unsent; cbn; rewrite (drop_ge (out o)) by done; split_and!; by auto with lia.
  set (m := Nat.min n (length (out o) - out_pos o)) in *.
  destruct (Nat.eqb_spec m 0); simplify_eq; [by split_and!|].
  apply IH in H as (E & Hp' & Hl & Hd); [|cbn; lia]. unfold unsent in *. cbn in *.
  rewrite <-drop_drop in E, Hl. rewrite <-app_assoc, take_drop in E. rewrite !length_drop in Hl. rewrite !length_drop.
  split_and!; [done..|lia|done].
Qed.

Lemma queue_spec b o :
  out_ok o → sent (queue b o) ++ unsent (queue b o) = (sent o ++ unsent o) ++ b ∧ out_ok (queue b o)
    ∧ length (unsent (queue b o)) = (length (unsent o) + length b)%nat.
Proof.
  unfold out_ok, queue, unsent. cbn. intros Ho. rewrite drop_app_le, <-app_assoc, !length_app by done.
  split_and!; [done|lia..].
Qed.

(** ** Filling *)

Lemma poll_fill_spec need answers buf p buf' answers' :
  poll_fill need answers buf = (p, buf', answers') →
  buf' ++ received answers' = buf ++ received answers
  ∧ (length answers' ≤ length answers)%nat
  ∧ (RData [] ∉ answers → RData [] ∉ answers')
  ∧ (∀ e, RErr e ∈ answers' → RErr e ∈ answers)
  ∧ match p with
    | Ready (Ok true) => (need ≤ length buf')%nat ∧ (length buf ≤ need → length buf' = need)%nat
    | Ready (Ok false) => (length buf' < need)%nat ∧ RData [] ∈ answers
    | Ready (Err e) => (length buf' < need)%nat ∧ RErr e ∈ answers ∧ (length answers' < length answers)%nat
    | Pending => (length buf' < need)%nat ∧ (answers = [] ∨ (length answers' < length answers)%nat)
    end.
Proof.
  revert buf. induction answers as [|[|e|piece] answers IH]; intros buf H; cbn [poll_fill] in H;
    destruct (Nat.ltb_spec (length buf) need) as [Hlt|Hge]; simplify_eq;
    try (split_and!; try done; by auto with lia).
  - split_and!; try done; cbn; try lia; [by intros Hn Hi; apply Hn; right|by intros; right].
  - split_and!; try done; cbn; try lia; [by intros Hn Hi; apply Hn; right|by intros; right|by left].
  - set (room := (need - length buf)%nat) in *.
    destruct (take room piece) as [|x got] eqn:Et.
    { assert (piece = []) as -> by (destruct piece; [done|]; destruct room eqn:Er; [lia|done]).
      simplify_eq. rewrite received_cons. cbn.
      split_and!; [done|lia|by intros Hn Hi; apply Hn; right|by intros; right|lia|by left]. }
    rewrite <-Et in H. pose proof (take_drop room piece) as Etd.
    destruct (drop room piece) as [|y rest] eqn:Ed.
    + rewrite app_nil_r in Etd. assert (take room piece = piece) as Ep by done. rewrite Ep in H.
      replace (match piece with [] => _ | _ => _ end) with (poll_fill need answers (buf ++ piece)) in H
        by (by destruct piece).
      apply IH in H as (E & Hl & Hno & Herr & Hp). rewrite received_cons. cbn [answer_bytes].
      rewrite E, app_assoc. split_and!; [done|cbn; lia|..].
      * intros Hn. apply Hno. intros Hi. apply Hn. by right.
      * intros ? ?. right. by apply Herr.
      * destruct p as [|[[]|e]].
        -- destruct Hp as [? [->|?]]; (split; [done|]); right; cbn in *; lia.
        -- destruct Hp as [Hp1 Hp2]. split; [done|]. intros ?. apply Hp2. rewrite length_app.
           apply (f_equal length) in Ep. rewrite length_take in Ep. lia.
        -- destruct Hp. split; [done|]. by right.
        -- destruct Hp as (? & ? & ?). split_and!; [done|by right|cbn; lia].
    + rewrite Et in H. simplify_eq. rewrite <-Et, !received_cons. cbn [answer_bytes].
      assert (length (take room piece) = room) as El.
      { rewrite length_take. apply (f_equal length) in Ed. rewrite length_drop in Ed. cbn in Ed. lia. }
      split_and!.
      * rewrite <-Etd at 2. by rewrite <-!app_assoc.
      * cbn. lia.
      * intros Hn [?|Hi]%elem_of_cons; [done|]. apply Hn. by right.
      * intros e [?|Hi]%elem_of_cons; [done|]. by right.
      * rewrite length_app. lia.
      * rewrite length_app. lia.
Qed.

(** ** Frame-reading machines *)

(** What a machine does with the bytes it asked for: fail, or move on with
    some of them kept and perhaps a frame read. *)
Inductive Advance (St T : Type) : Type :=
| AdvErr (e : io_error) (s : St) (kept : bytes)
| AdvNext (s : St) (kept : bytes) (frame : option (T * bytes)).
Arguments AdvErr {St T}.
Arguments AdvNext {St T}.

(** The read side of a connection: how many bytes a state needs, whether it
    passes bytes through or has seen the end, what it does with the bytes it
    needs, and what the end of the stream means. *)
Record Machine (St T : Type) : Type := mkMachine {
  need : St → nat;
  raw : St → bool;
  ended : St → bool;
  advance : St → bytes → Advance St T;
  at_eof : St → bytes → result io_error St;
}.
Arguments mkMachine {St T}.
Arguments need {St T}.
Arguments raw {St T}.
Arguments ended {St T}.
Arguments advance {St T}.
Arguments at_eof {St T}.

(** [read_state], [read_buf], [plain], [plain_pos] and what comes with [plain]. *)
Record Framed (St T : Type) : Type := mkFramed {
  read_state : St; read_buf : bytes; plain : bytes; plain_pos : nat; tag : T }.
Arguments mkFramed {St T}.
Arguments read_state {St T}.
Arguments read_buf {St T}.
Arguments plain {St T}.
Arguments plain_pos {St T}.
Arguments tag {St T}.

(** A frame is in hand, the stream has ended, or bytes now pass through. *)
Inductive Stage : Set := InHand | AtEnd | Through.

Section machine.
Context {St T : Type} (m : Machine St T).

Definition remaining (c : Framed St T) : bytes := drop (plain_pos c) (plain c).

(** The read loop: until a frame with bytes is in hand. *)
Fixpoint poll_frame_fuel (fuel : nat) (answers : list ReadAnswer) (c : Framed St T) :
    poll (result io_error Stage) * Framed St T * list ReadAnswer :=
  if (plain_pos c <? length (plain c))%nat then (Ready (Ok InHand), c, answers)
  else if ended m (read_state c) then (Ready (Ok AtEnd), mkFramed (read_state c) (read_buf c) [] 0 (tag c), answers)
  else if raw m (read_state c) then (Ready (Ok Through), mkFramed (read_state c) (read_buf c) [] 0 (tag c), answers)
  else
    match fuel with
    | O => (Pending, c, answers)
    | S fuel =>
        let '(p, buf, answers) := poll_fill (need m (read_state c)) answers (read_buf c) in
        match p with
        | Pending => (Pending, mkFramed (read_state c) buf [] 0 (tag c), answers)
        | Ready (Err e) => (Ready (Err e), mkFramed (read_state c) buf [] 0 (tag c), answers)
        | Ready (Ok false) =>
            match at_eof m (read_state c) buf with
            | Ok s => (Ready (Ok AtEnd), mkFramed s buf [] 0 (tag c), answers)
            | Err e => (Ready (Err e), mkFramed (read_state c) buf [] 0 (tag c), answers)
            end
        | Ready (Ok true) =>
            match advance m (read_state c) buf with
            | AdvErr e s buf => (Ready (Err e), mkFramed s buf [] 0 (tag c), answers)
            | AdvNext s buf None => poll_frame_fuel fuel answers (mkFramed s buf [] 0 (tag c))
            | AdvNext s buf (Some (t, d)) => poll_frame_fuel fuel answers (mkFramed s buf d 0 t)
            end
        end
    end.

(** Every turn uses up bytes or moves a machine from a state of rank one to
    one of rank zero, so this fuel is enough ([poll_frame_inv]). *)
Definition poll_frame (answers : list ReadAnswer) (c : Framed St T) :=
  poll_frame_fuel (S (S (2 * (length (read_buf c) + length (received answers))))) answers c.

(** Bytes of the frame in hand, to a reader with [room]. *)
Definition deliver (room : nat) (c : Framed St T) : bytes * Framed St T :=
  let n := Nat.min room (length (plain c) - plain_pos c) in
  let pos := (plain_pos c + n)%nat in
  (take n (remaining c),
   if (pos =? length (plain c))%nat then mkFramed (read_state c) (read_buf c) [] 0 (tag c)
   else mkFramed (read_state c) (read_buf c) (plain c) pos (tag c)).

(** [poll_read] of a framed connection. *)
Definition framed_read (room : nat) (answers : list ReadAnswer) (c : Framed St T) :
    poll (result io_error bytes) * Framed St T * list ReadAnswer :=
  match poll_frame answers c with
  | (Pending, c, answers) => (Pending, c, answers)
  | (Ready (Err e), c, answers) => (Ready (Err e), c, answers)
  | (Ready (Ok AtEnd), c, answers) => (Ready (Ok []), c, answers)
  | (Ready (Ok Through), c, answers) =>
      let '(p, answers) := inner_read room answers in (p, c, answers)
  | (Ready (Ok InHand), c, answers) => let '(b, c) := deliver room c in (Ready (Ok b), c, answers)
  end.

(** Reads one after the other, one for each room offered. *)
Fixpoint framed_reads (rooms : list nat) (answers : list ReadAnswer) (c : Framed St T) :
    list (poll (result io_error bytes)) * Framed St T * list ReadAnswer :=
  match rooms with
  | [] => ([], c, answers)
  | room :: rooms =>
      let '(p, c, answers) := framed_read room answers c in
      let '(ps, c, answers) := framed_reads rooms answers c in
      (p :: ps, c, answers)
  end.

(** ** The machine on a whole input *)

(** A frame without bytes is not reported. *)
Definition frame_list (o : option (T * bytes)) : list (T * bytes) :=
  match o with Some (t, x :: d) => [(t, x :: d)] | _ => [] end.

(** The frames of an input, the state and bytes left, and the first failure. *)
Record Parsed : Type := mkParsed {
  p_frames : list (T * bytes); p_state : St; p_rest : bytes; p_err : option io_error }.

Definition add_frame (o : option (T * bytes)) (p : Parsed) : Parsed :=
  mkParsed (frame_list o ++ p_frames p) (p_state p) (p_rest p) (p_err p).

Fixpoint parse_fuel (fuel : nat) (s : St) (buf : bytes) : Parsed :=
  match fuel with
  | O => mkParsed [] s buf None
  | S fuel =>
      if raw m s || ended m s then mkParsed [] s buf None
      else if (need m s <=? length buf)%nat then
        match advance m s (take (need m s) buf) with
        | AdvErr e _ _ => mkParsed [] s buf (Some e)
        | AdvNext s' kept o => add_frame o (parse_fuel fuel s' (kept ++ drop (need m s) buf))
        end
      else mkParsed [] s buf None
  end.

Definition parse (s : St) (buf : bytes) : Parsed := parse_fuel (S (S (2 * length buf))) s buf.

(** A machine makes progress from the states it reaches: it keeps no more than
    its next state needs, and bytes or rank go down. *)
Class MachineOk := {
  good : St → Prop;
  rank : St → nat;
  rank_le s : (rank s ≤ 1)%nat;
  advance_good s b s' kept o : good s → advance m s b = AdvNext s' kept o → good s';
  advance_dec s b s' kept o :
    good s → raw m s = false → ended m s = false →
    length b = need m s → advance m s b = AdvNext s' kept o →
    (2 * length kept + rank s' < 2 * need m s + rank s)%nat;
  advance_fits s b s' kept o :
    length b = need m s → advance m s b = AdvNext s' kept o → (length kept ≤ need m s')%nat;
  raw_need s : raw m s = true → need m s = 0%nat;
  ended_not_raw s : ended m s = true → raw m s = false;
}.
Context {OK : MachineOk}.

Lemma parse_fuel_enough fuel fuel' s buf :
  good s → (2 * length buf + rank s < fuel)%nat → (2 * length buf + rank s < fuel')%nat →
  parse_fuel fuel s buf = parse_fuel fuel' s buf.
Proof.
  revert fuel' s buf. induction fuel as [|fuel IH]; intros [|fuel'] s buf Hg H1 H2; try lia. cbn [parse_fuel].
  destruct (raw m s) eqn:Er; [done|]. destruct (ended m s) eqn:Ee; [done|]. cbn [orb].
  destruct (Nat.leb_spec (need m s) (length buf)) as [Hn|Hn]; [|done].
  assert (length (take (need m s) buf) = need m s) as Hl by (rewrite length_take; lia).
  destruct (advance m s _) as [e ? ?|s' kept o] eqn:Ea; [done|].
  pose proof (advance_dec _ _ _ _ _ Hg Er Ee Hl Ea). f_equal.
  apply IH; [by eapply advance_good|..]; rewrite length_app, length_drop; lia.
Qed.

(** One step of [parse]. *)
Lemma parse_step s buf s' kept o :
  good s → raw m s = false → ended m s = false → (need m s ≤ length buf)%nat →
  advance m s (take (need m s) buf) = AdvNext s' kept o →
  parse s buf = add_frame o (parse s' (kept ++ drop (need m s) buf)).
Proof.
  intros Hg Er Ee Hn Ea. unfold parse at 1.
  assert (∃ f, f = S (2 * length buf))%nat as [f Hf] by eauto. rewrite <-Hf. cbn [parse_fuel].
  rewrite Er, Ee. cbn [orb]. destruct (Nat.leb_spec (need m s) (length buf)); [|lia]. rewrite Ea. f_equal.
  assert (length (take (need m s) buf) = need m s) as Hl by (rewrite length_take; lia).
  pose proof (advance_dec _ _ _ _ _ Hg Er Ee Hl Ea). pose proof (rank_le s). pose proof (rank_le s').
  apply parse_fuel_enough; [by eapply advance_good|..]; rewrite length_app, length_drop; lia.
Qed.

Lemma parse_stop s buf :
  raw m s = true ∨ ended m s = true ∨ (length buf < need m s)%nat → parse s buf = mkParsed [] s buf None.
Proof.
  intros Hs. unfold parse. cbn [parse_fuel]. destruct (raw m s); [done|]. destruct (ended m s); [done|].
  destruct Hs as [?|[?|?]]; [done..|]. cbn [orb]. by destruct (Nat.leb_spec (need m s) (length buf)); [lia|].
Qed.

Lemma parse_err s buf e k s' :
  raw m s = false → ended m s = false → (need m s ≤ length buf)%nat →
  advance m s (take (need m s) buf) = AdvErr e s' k → p_err (parse s buf) = Some e.
Proof.
  intros Er Ee Hn Ea. unfold parse. cbn [parse_fuel]. rewrite Er, Ee. cbn [orb].
  destruct (Nat.leb_spec (need m s) (length buf)); [|lia]. by rewrite Ea.
Qed.

(** ** The polled reader reads what the machine reads *)

(** The frame in hand. *)
Definition in_hand (c : Framed St T) : list (T * bytes) :=
  match remaining c with [] => [] | d => [(tag c, d)] end.

Definition fits (c : Framed St T) : Prop :=
  (plain_pos c ≤ length (plain c))%nat ∧ (length (read_buf c) ≤ need m (read_state c))%nat ∧ good (read_state c).

(** What is still to come, of the bytes buffered and of those on the way. *)
Definition ahead (answers : list ReadAnswer) (c : Framed St T) : Parsed :=
  parse (read_state c) (read_buf c ++ received answers).

(** What a poll keeps: the frames in hand and ahead, and where they end. *)
Record kept_frames (answers : list ReadAnswer) (c : Framed St T) (answers' : list ReadAnswer) (c' : Framed St T) :
    Prop := {
  kf_fits : fits c';
  kf_no_eof : RData [] ∉ answers';
  kf_frames : in_hand c ++ p_frames (ahead answers c) = in_hand c' ++ p_frames (ahead answers' c');
  kf_state : p_state (ahead answers c) = p_state (ahead answers' c');
  kf_rest : p_rest (ahead answers c) = p_rest (ahead answers' c');
  kf_err : p_err (ahead answers' c') = None;
  kf_len : (length answers' ≤ length answers)%nat;
  kf_errs e : RErr e ∈ answers' → RErr e ∈ answers }.

Lemma in_hand_drained c : ¬ (plain_pos c < length (plain c))%nat → in_hand c = [].
Proof. intros. unfold in_hand, remaining. by rewrite drop_ge by lia. Qed.

Lemma in_hand_nonempty c : (plain_pos c < length (plain c))%nat → in_hand c ≠ [].
Proof.
  intros Hl. unfold in_hand, remaining. destruct (drop _ _) eqn:E; [|done].
  apply (f_equal length) in E. rewrite length_drop in E. cbn in E. lia.
Qed.

Lemma frame_list_in_hand s buf t d : frame_list (Some (t, d)) = in_hand (mkFramed s buf d 0 t).
Proof. by destruct d. Qed.

Lemma kept_refl answers c c' :
  fits c' → RData [] ∉ answers → p_err (ahead answers c) = None →
  read_state c' = read_state c → read_buf c' = read_buf c → in_hand c' = in_hand c →
  kept_frames answers c answers c'.
Proof.
  intros Hf Hn He Es Eb Ei. unfold ahead in *. split; unfold ahead; rewrite ?Es, ?Eb, ?Ei; done || lia.
Qed.

(** Filling the buffer changes neither. *)
Lemma kept_fill answers c buf answers' t :
  fits c → in_hand c = [] → p_err (ahead answers c) = None →
  buf ++ received answers' = read_buf c ++ received answers →
  (length buf ≤ need m (read_state c))%nat → RData [] ∉ answers' →
  (length answers' ≤ length answers)%nat → (∀ e, RErr e ∈ answers' → RErr e ∈ answers) →
  kept_frames answers c answers' (mkFramed (read_state c) buf [] 0 t).
Proof.
  intros Hf Hi He E Hb Hn Hl Herr. unfold ahead in *.
  split; unfold ahead, fits; cbn [read_state read_buf plain plain_pos length]; rewrite ?E; try done.
  { split_and!; [lia|done|apply Hf]. }
  rewrite Hi. unfold in_hand, remaining. by cbn.
Qed.

Lemma kept_trans a1 c1 a2 c2 a3 c3 :
  kept_frames a1 c1 a2 c2 → kept_frames a2 c2 a3 c3 → kept_frames a1 c1 a3 c3.
Proof. intros [] []. split; try done; try congruence; try lia. auto. Qed.

Lemma poll_frame_fuel_inv fuel answers c p c' answers' :
  fits c → RData [] ∉ answers → p_err (ahead answers c) = None →
  (2 * (length (read_buf c) + length (received answers)) + rank (read_state c) < fuel)%nat →
  poll_frame_fuel fuel answers c = (p, c', answers') →
  kept_frames answers c answers' c'
  ∧ match p with
    | Pending =>
        in_hand c' = [] ∧ (length (read_buf c') < need m (read_state c'))%nat
        ∧ (answers = [] ∨ (length answers' < length answers)%nat)
    | Ready (Ok InHand) => in_hand c' ≠ []
    | Ready (Ok AtEnd) => in_hand c' = [] ∧ ended m (read_state c') = true
    | Ready (Ok Through) => in_hand c' = [] ∧ raw m (read_state c') = true
    | Ready (Err e) => in_hand c' = [] ∧ RErr e ∈ answers ∧ (length answers' < length answers)%nat
    end.
Proof.
  revert answers c. induction fuel as [|fuel IH]; intros answers c Hf Hno He Hfuel H; [lia|].
  cbn [poll_frame_fuel] in H. destruct (Nat.ltb_spec (plain_pos c) (length (plain c))) as [Hlt|Hge].
  { simplify_eq. split; [by apply kept_refl|by apply in_hand_nonempty]. }
  assert (in_hand c = []) as Hi by (apply in_hand_drained; lia).
  assert (fits (mkFramed (read_state c) (read_buf c) [] 0 (tag c))) as Hf0 by (split; [done|apply Hf]).
  destruct (ended m (read_state c)) eqn:Ee.
  { simplify_eq. split; [by apply kept_refl|done]. }
  destruct (raw m (read_state c)) eqn:Er.
  { simplify_eq. split; [by apply kept_refl|done]. }
  destruct (poll_fill (need m (read_state c)) answers (read_buf c)) as [[p1 buf] a1] eqn:Efill.
  apply poll_fill_spec in Efill as (E & Hl & Hn & Herr & Hp).
  assert (∀ t, (length buf ≤ need m (read_state c))%nat →
    kept_frames answers c a1 (mkFramed (read_state c) buf [] 0 t)) as Hk by (intros; apply kept_fill; auto).
  destruct p1 as [|[[]|e]].
  - simplify_eq. destruct Hp as [Hp1 Hp2]. split; [apply Hk; lia|]. done.
  - destruct Hp as [_ Hb]. destruct Hf as (_ & Hf & Hg). specialize (Hb Hf). specialize (Hk (tag c)). rewrite Hb in Hk.
    specialize (Hk (le_n _)). pose proof (kf_err _ _ _ _ Hk) as He1. unfold ahead in He1. cbn [read_state read_buf] in He1.
    assert (take (need m (read_state c)) (buf ++ received a1) = buf) as Etake by (by apply take_app_exact).
    assert (need m (read_state c) ≤ length (buf ++ received a1))%nat as Hneed by (rewrite length_app; lia).
    destruct (advance m (read_state c) buf) as [e s' k|s' k o] eqn:Ea.
    { erewrite parse_err in He1; [done..|]. by rewrite Etake. }
    pose proof (parse_step _ _ _ _ _ Hg Er Ee Hneed ltac:(by rewrite Etake)) as Estep.
    rewrite drop_app_exact in Estep by done. rewrite Estep in He1. cbn [p_err add_frame] in He1.
    pose proof (advance_fits _ _ _ _ _ Hb Ea) as Hfit.
    pose proof (advance_dec _ _ _ _ _ Hg Er Ee Hb Ea) as Hdec.
    pose proof (advance_good _ _ _ _ _ Hg Ea) as Hg'.
    assert (length buf + length (received a1) = length (read_buf c) + length (received answers))%nat as Elen
      by (rewrite <-!length_app; by rewrite E).
    assert (∃ d t, poll_frame_fuel fuel a1 (mkFramed s' k d 0 t) = (p, c', answers')
      ∧ frame_list o = in_hand (mkFramed s' k d 0 t)) as (d & t & H' & Efl).
    { destruct o as [[t d]|]; [exists d, t; by rewrite frame_list_in_hand with (s := s') (buf := k)|by exists [], (tag c)]. }
    apply IH in H' as [Hk' Hp]; [|split_and!; cbn; [lia|done..]|by apply Hk|done|cbn; lia].
    assert (kept_frames answers c a1 (mkFramed s' k d 0 t)) as Hk1.
    { eapply kept_trans; [exact Hk|]. split; try done; try apply Hk; unfold ahead; cbn [read_state read_buf];
        rewrite ?Estep; try done; [split_and!; cbn; [lia|done..]|].
      cbn [p_frames add_frame]. by rewrite Efl. }
    split; [by eapply kept_trans|]. pose proof (kf_len _ _ _ _ Hk').
    destruct p as [|[[]|e]]; try done.
    + destruct Hp as (? & ? & Hp). split_and!; [done..|]. destruct Hp as [->|?]; [|right; lia].
      destruct answers; [by left|right; cbn in *; lia].
    + destruct Hp as (? & ? & ?). split_and!; [done|by apply Hk|lia].
  - destruct Hp. by apply Hno in H1.
  - destruct Hp as (? & ? & ?). simplify_eq. split; [apply Hk; lia|done].
Qed.

Lemma poll_frame_inv answers c p c' answers' :
  fits c → RData [] ∉ answers → p_err (ahead answers c) = None →
  poll_frame answers c = (p, c', answers') →
  kept_frames answers c answers' c'
  ∧ match p with
    | Pending =>
        in_hand c' = [] ∧ (length (read_buf c') < need m (read_state c'))%nat
        ∧ (answers = [] ∨ (length answers' < length answers)%nat)
    | Ready (Ok InHand) => in_hand c' ≠ []
    | Ready (Ok AtEnd) => in_hand c' = [] ∧ ended m (read_state c') = true
    | Ready (Ok Through) => in_hand c' = [] ∧ raw m (read_state c') = true
    | Ready (Err e) => in_hand c' = [] ∧ RErr e ∈ answers ∧ (length answers' < length answers)%nat
    end.
Proof.
  intros Hf Hn He H. eapply poll_frame_fuel_inv; [done..| |exact H]. pose proof (rank_le (read_state c)). lia.
Qed.

(** The bytes a reader is still to get. *)
Definition content (answers : list ReadAnswer) (c : Framed St T) : bytes :=
  concat (snd <$> (in_hand c ++ p_frames (ahead answers c)))
  ++ (if raw m (p_state (ahead answers c)) then p_rest (ahead answers c) else []).

Lemma kept_content a c a' c' : kept_frames a c a' c' → content a c = content a' c'.
Proof. intros [? ? Ef Es Er]. unfold content. by rewrite Ef, Es, Er. Qed.

Lemma content_remaining answers c :
  content answers c = remaining c ++ concat (snd <$> p_frames (ahead answers c))
    ++ (if raw m (p_state (ahead answers c)) then p_rest (ahead answers c) else []).
Proof.
  unfold content. rewrite fmap_app, concat_app, <-app_assoc. f_equal. unfold in_hand.
  destruct (remaining c); [done|]. cbn. by rewrite app_nil_r.
Qed.

(** A machine that waits for bytes, or has seen the end, delivers nothing more. *)
Lemma content_stopped answers c :
  in_hand c = [] → ended m (read_state c) = true
    ∨ (answers = [] ∧ (length (read_buf c) < need m (read_state c))%nat) →
  content answers c = [].
Proof.
  intros Hi Hs. unfold content. rewrite Hi. cbn [app]. unfold ahead.
  assert (raw m (read_state c) = false) as Hr.
  { destruct Hs as [?|[_ ?]]; [by apply ended_not_raw|]. destruct (raw m (read_state c)) eqn:Er; [|done].
    apply raw_need in Er. lia. }
  rewrite parse_stop; [cbn; by rewrite Hr|]. right. destruct Hs as [?|[-> ?]]; [by left|right]. cbn.
  by rewrite app_nil_r.
Qed.

Lemma deliver_content room answers c :
  fits c → let '(b, c') := deliver room c in
  content answers c = b ++ content answers c' ∧ fits c' ∧ ahead answers c' = ahead answers c
  ∧ ((0 < room)%nat → in_hand c ≠ [] → b ≠ []).
Proof.
  intros (Hp & Hb & Hg). unfold deliver. set (n := Nat.min room (length (plain c) - plain_pos c)).
  rewrite !content_remaining.
  assert ((0 < room)%nat → in_hand c ≠ [] → take n (remaining c) ≠ []) as Hne.
  { intros Hr Hi Ht. apply Hi, in_hand_drained. intros Hlt. apply (f_equal length) in Ht. unfold remaining in Ht.
    rewrite length_take, length_drop in Ht. cbn in Ht. lia. }
  destruct (Nat.eqb_spec (plain_pos c + n) (length (plain c))) as [En|En]; (split_and!; [|by split_and!; cbn; try lia|done..]).
  - rewrite take_ge; [done|]. unfold remaining. rewrite length_drop. lia.
  - rewrite (app_assoc (take n _)). f_equal. unfold remaining. cbn [plain plain_pos].
    by rewrite <-drop_drop, take_drop.
Qed.

Definition poll_bytes (p : poll (result io_error bytes)) : bytes :=
  match p with Ready (Ok b) => b | _ => [] end.

(** What one read does to the bytes to come. *)
Lemma framed_read_inv room answers c p c' answers' :
  fits c → RData [] ∉ answers → p_err (ahead answers c) = None →
  framed_read room answers c = (p, c', answers') →
  content answers c = poll_bytes p ++ content answers' c'
  ∧ fits c' ∧ (RData [] ∉ answers') ∧ p_err (ahead answers' c') = None
  ∧ (length answers' ≤ length answers)%nat ∧ (∀ e, RErr e ∈ answers' → RErr e ∈ answers)
  ∧ (∀ e, p = Ready (Err e) → RErr e ∈ answers)
  ∧ ((0 < room)%nat → poll_bytes p = [] → (length answers' < length answers)%nat ∨ content answers' c' = []).
Proof.
  intros Hf Hn He H. unfold framed_read in H.
  destruct (poll_frame answers c) as [[p1 c1] a1] eqn:Ep.
  apply poll_frame_inv in Ep as [Hk Hp]; [|done..]. rewrite (kept_content _ _ _ _ Hk).
  destruct Hk as [Hf1 Hn1 _ _ _ He1 Hl1 Herr1].
  destruct p1 as [|[[]|e]].
  - simplify_eq. destruct Hp as (? & ? & Hp). split_and!; try done. intros _ _.
    destruct Hp as [->|?]; [right|by left]. apply content_stopped; [done|]. right. split; [|done].
    destruct answers'; [done|cbn in Hl1; lia].
  - pose proof (deliver_content room a1 c1 Hf1) as Hd. destruct (deliver room c1) as [b c2]. simplify_eq.
    destruct Hd as (Hc & Hf2 & Ea & Hb). rewrite Ea. split_and!; try done. intros Hr Hb0. by apply Hb in Hb0.
  - simplify_eq. destruct Hp. split_and!; try done. intros _ _. right. apply content_stopped; auto.
  - destruct Hp as [Hi Hr]. assert (read_buf c1 = []) as Hb.
    { destruct Hf1 as (_ & Hf1 & _). rewrite (raw_need _ Hr) in Hf1. by destruct (read_buf c1); [|cbn in Hf1; lia]. }
    assert (∀ a, content a c1 = received a ∧ p_err (ahead a c1) = None) as Hc.
    { intros a. unfold content. rewrite Hi. unfold ahead. rewrite parse_stop by (by left). cbn. by rewrite Hr, Hb. }
    destruct (Hc a1) as [-> _]. destruct (inner_read room a1) as [p2 a2] eqn:Ei. simplify_eq.
    destruct (Hc answers') as [-> ->]. destruct a1 as [|[|e|piece] a1]; cbn in Ei; simplify_eq; cbn [poll_bytes app].
    + split_and!; try done. by right.
    + rewrite received_cons. cbn in *. split_and!; try done; [by intros ?; apply Hn1; right|lia|intros; apply Herr1; by right|].
      intros. left. lia.
    + rewrite received_cons. cbn in *.
      split_and!; try done; [by intros ?; apply Hn1; right|lia|intros; apply Herr1; by right| |intros; left; lia].
      intros ? [= ->]. apply Herr1. by left.
    + rewrite !received_cons. cbn [answer_bytes].
      assert (piece ≠ []) as Hpne by (intros ->; apply Hn1; by left).
      assert (RData [] ∉ a1) as Hn2 by (by intros ?; apply Hn1; right).
      assert (∀ e, RErr e ∈ a1 → RErr e ∈ answers) as He2 by (intros; apply Herr1; by right).
      pose proof (take_drop room piece) as Etd.
      assert ((0 < room)%nat → take room piece ≠ []) as Htne by (by destruct room, piece; try lia).
      destruct (drop room piece) as [|y rest] eqn:Ed; [rewrite app_nil_r in Etd|rewrite received_cons; cbn [answer_bytes]].
      * rewrite Etd. split_and!; try done. cbn in Hl1. lia.
      * rewrite <-Etd at 1. rewrite <-app_assoc. split_and!; try done.
        -- by intros [?|?]%elem_of_cons.
        -- intros e [?|?]%elem_of_cons; [done|auto].
        -- intros ? Ht. by apply Htne in Ht.
  - simplify_eq. destruct Hp as (? & ? & ?). split_and!; try done; [by intros ? [= ->]|]. intros. by left.
Qed.

Definition delivered (ps : list (poll (result io_error bytes))) : bytes := concat (poll_bytes <$> ps).

Lemma framed_reads_inv rooms answers c ps c' answers' :
  fits c → RData [] ∉ answers → p_err (ahead answers c) = None →
  framed_reads rooms answers c = (ps, c', answers') →
  content answers c = delivered ps ++ content answers' c'
  ∧ (∀ e, Ready (Err e) ∈ ps → RErr e ∈ answers)
  ∧ (Forall (λ room, 0 < room)%nat rooms → (length (content answers c) + length answers ≤ length rooms)%nat →
     content answers' c' = []).
Proof.
  revert answers c ps. induction rooms as [|room rooms IH]; intros answers c ps Hf Hn He H; cbn [framed_reads] in H.
  { simplify_eq. split_and!; [done|by intros ? ?%elem_of_nil|]. cbn. intros _ Hl.
    destruct (content answers' c'); [done|cbn in Hl; lia]. }
  destruct (framed_read room answers c) as [[p c1] a1] eqn:E1.
  destruct (framed_reads rooms a1 c1) as [[ps2 c2] a2] eqn:E2. simplify_eq.
  destruct (framed_read_inv _ _ _ _ _ _ Hf Hn He E1) as (Hc & Hf1 & Hn1 & He1 & Hl1 & Herr & Hperr & Hprog).
  destruct (IH _ _ _ Hf1 Hn1 He1 E2) as (Hc2 & Herr2 & Hall). split_and!.
  - rewrite Hc, Hc2, app_assoc. done.
  - intros e [Hp|Hin]%elem_of_cons; [by apply Hperr|by apply Herr, Herr2].
  - intros Hrooms Hlen. inversion Hrooms as [|? ? Hroom Hrooms']; subst.
    destruct (decide (content a1 c1 = [])) as [Hz|Hz].
    { rewrite Hz in Hc2. symmetry in Hc2. by apply app_eq_nil in Hc2 as [_ ->]. }
    apply Hall; [done|]. rewrite Hc, length_app in Hlen. cbn in Hlen.
    destruct (poll_bytes p) eqn:Eb; [|cbn in Hlen; lia]. destruct (Hprog Hroom eq_refl); [lia|done].
Qed.
End machine.

(** The frames of a prefix of an input are the first frames of the input. *)
Section prefix.
Context {St T : Type} (m : Machine St T) {OK : MachineOk m}.

Lemma parse_app s x y :
  good m s → p_err (parse m s x) = None →
  parse m s (x ++ y) = let p := parse m s x in let q := parse m (p_state p) (p_rest p ++ y) in
    mkParsed (p_frames p ++ p_frames q) (p_state q) (p_rest q) (p_err q).
Proof.
  remember (2 * length x + rank m s)%nat as k eqn:Hk. revert s x Hk.
  induction k as [k IH] using lt_wf_ind; intros s x -> Hg He.
  destruct (raw m s) eqn:Er.
  { rewrite (parse_stop _ s x) by (by left). cbn [p_frames p_state p_rest p_err app]. by destruct (parse m s (x ++ y)). }
  destruct (ended m s) eqn:Ee.
  { rewrite (parse_stop _ s x) by (by right; left). cbn [p_frames p_state p_rest p_err app]. by destruct (parse m s (x ++ y)). }
  destruct (decide (need m s ≤ length x)%nat) as [Hn|Hn].
  2: { rewrite (parse_stop _ s x) by (right; right; lia). cbn [p_frames p_state p_rest p_err app]. by destruct (parse m s (x ++ y)). }
  destruct (advance m s (take (need m s) x)) as [e s' kept|s' kept o] eqn:Ea.
  { by rewrite (parse_err _ _ _ _ _ _ Er Ee Hn Ea) in He. }
  assert (length (take (need m s) x) = need m s) as Hl by (rewrite length_take; lia).
  pose proof (advance_dec m _ _ _ _ _ Hg Er Ee Hl Ea) as Hdec.
  rewrite (parse_step m _ _ _ _ _ Hg Er Ee Hn Ea) in He |- *. cbn [p_err add_frame] in He.
  erewrite (parse_step m s (x ++ y)); [|done|done|done|rewrite length_app; lia|rewrite take_app_le by lia; exact Ea].
  rewrite drop_app_le, app_assoc by lia.
  erewrite IH; [|..|reflexivity|by eapply advance_good|exact He]; [|rewrite length_app, length_drop; lia].
  unfold add_frame. cbn [p_frames p_state p_rest p_err]. by rewrite app_assoc.
Qed.

(** A beginning of an input without failures has none. *)
Lemma parse_no_err s x y : good m s → p_err (parse m s (x ++ y)) = None → p_err (parse m s x) = None.
Proof.
  remember (2 * length x + rank m s)%nat as k eqn:Hk. revert s x Hk.
  induction k as [k IH] using lt_wf_ind; intros s x -> Hg He.
  destruct (raw m s) eqn:Er; [by rewrite parse_stop by (by left)|].
  destruct (ended m s) eqn:Ee; [by rewrite parse_stop by (by right; left)|].
  destruct (decide (need m s ≤ length x)%nat) as [Hn|Hn]; [|by rewrite parse_stop by (right; right; lia)].
  destruct (advance m s (take (need m s) x)) as [e s' kept|s' kept o] eqn:Ea.
  { erewrite parse_err in He; [done|..]; try done; [rewrite length_app; lia|rewrite take_app_le by lia; exact Ea]. }
  assert (length (take (need m s) x) = need m s) as Hl by (rewrite length_take; lia).
  pose proof (advance_dec m _ _ _ _ _ Hg Er Ee Hl Ea) as Hdec.
  rewrite (parse_step m _ _ _ _ _ Hg Er Ee Hn Ea). cbn [p_err add_frame].
  erewrite (parse_step m s (x ++ y)) in He; [|done|done|done|rewrite length_app; lia|rewrite take_app_le by lia; exact Ea].
  cbn [p_err add_frame] in He. rewrite drop_app_le, app_assoc in He by lia.
  eapply IH; [|reflexivity|by eapply advance_good|exact He]. rewrite length_app, length_drop. lia.
Qed.

(** What a machine reads of an input, as bytes. *)
Definition parsed_bytes (p : Parsed (St := St) (T := T)) : bytes :=
  concat (snd <$> p_frames p) ++ (if raw m (p_state p) then p_rest p else []).

Lemma content_fresh answers s t : content m answers (mkFramed s [] [] 0 t) = parsed_bytes (parse m s (received answers)).
Proof. done. Qed.

Lemma parsed_prefix s x y :
  good m s → p_err (parse m s (x ++ y)) = None → parsed_bytes (parse m s x) `prefix_of` parsed_bytes (parse m s (x ++ y)).
Proof.
  intros Hg He. rewrite parse_app by (done || by eapply parse_no_err). cbv zeta. unfold parsed_bytes. cbn [p_frames p_state p_rest].
  rewrite fmap_app, concat_app, <-app_assoc. apply prefix_app.
  destruct (raw m (p_state (parse m s x))) eqn:Er; [|apply prefix_nil].
  rewrite (parse_stop m (p_state (parse m s x))) by (by left). cbn [p_frames p_state p_rest fmap list_fmap concat app]. rewrite Er. by eexists.
Qed.

(** Reads with room for a whole frame return whole frames, one each. *)
Lemma framed_reads_whole rooms answers c ps c' answers' :
  fits m c → RData [] ∉ answers → p_err (ahead m answers c) = None → raw m (p_state (ahead m answers c)) = false →
  Forall (λ room, Forall (λ f, length f.2 ≤ room) (in_hand c ++ p_frames (ahead m answers c)))%nat rooms →
  framed_reads m rooms answers c = (ps, c', answers') →
  ∃ rest, snd <$> (in_hand c ++ p_frames (ahead m answers c)) = filter (λ b, b ≠ []) (poll_bytes <$> ps) ++ rest.
Proof.
  revert answers c ps. induction rooms as [|room rooms IH]; intros answers c ps Hf Hn He Hr Hrooms H; cbn [framed_reads] in H.
  { simplify_eq. by eexists. }
  apply Forall_cons in Hrooms as [Hroom Hrooms].
  destruct (framed_read m room answers c) as [[p c1] a1] eqn:E1. destruct (framed_reads m rooms a1 c1) as [[ps2 c2] a2] eqn:E2.
  simplify_eq. unfold framed_read in E1. destruct (poll_frame m answers c) as [[p0 c0] a0] eqn:E0.
  destruct (poll_frame_inv m _ _ _ _ _ Hf Hn He E0) as [[Hf0 Hn0 Hfr Hst _ He0 _ _] Hp].
  rewrite Hfr in *. rewrite Hst in Hr.
  assert (∀ p', poll_bytes p' = [] → (p', c0, a0) = (p, c1, a1) →
    ∃ rest, snd <$> (in_hand c0 ++ p_frames (ahead m a0 c0)) = filter (λ b, b ≠ []) (poll_bytes <$> p :: ps2) ++ rest) as Hskip.
  { intros p' Hb [= -> -> ->]. cbn [fmap list_fmap]. rewrite Hb, filter_cons_False by (by intros ?). by eapply IH. }
  destruct p0 as [|[[]|e]]; try (by eapply Hskip; [|exact E1]).
  - destruct (deliver room c0) as [b c3] eqn:Ed. simplify_eq.
    assert (∃ d, in_hand c0 = [(tag c0, d)] ∧ remaining c0 = d ∧ d ≠ []) as (d & Ei & Erem & Hd).
    { unfold in_hand in *. destruct (remaining c0) as [|x d]; [done|]. by exists (x :: d). }
    assert (length d ≤ room)%nat as Hlen.
    { rewrite Ei in Hroom. cbn in Hroom. by apply Forall_cons in Hroom as [? _]. }
    assert (b = d ∧ in_hand c1 = [] ∧ read_state c1 = read_state c0 ∧ read_buf c1 = read_buf c0
      ∧ plain_pos c1 = 0%nat) as (-> & Ei1 & Es1 & Eb1 & Epos).
    { unfold deliver in Ed. assert (length d = (length (plain c0) - plain_pos c0)%nat) as El
        by (subst d; unfold remaining; by rewrite length_drop).
      rewrite Nat.min_r in Ed by lia. destruct Hf0 as (Hpos & _ & _).
      destruct (Nat.eqb_spec (plain_pos c0 + (length (plain c0) - plain_pos c0)) (length (plain c0))); [|lia].
      simplify_eq. rewrite take_ge by lia. by split_and!. }
    assert (ahead m a1 c1 = ahead m a1 c0) as Ea by (unfold ahead; by rewrite Es1, Eb1).
    rewrite <-Ea in *. rewrite Ei in *. cbn [app fmap list_fmap poll_bytes]. rewrite filter_cons_True by done.
    destruct (IH a1 c1 ps2) as [rest Hrest]; [|done|done|done| |done|].
    + destruct Hf0 as (_ & ? & ?). unfold fits. rewrite Es1, Eb1. split_and!; [rewrite Epos; lia|done..].
    + rewrite Ei1. eapply Forall_impl; [exact Hrooms|]. intros r Hall. by apply Forall_cons in Hall as [_ ?].
    + rewrite Ei1 in Hrest. exists rest. cbn [app] in *. by rewrite Hrest.
  - destruct Hp as [_ Hraw]. unfold ahead in Hr. rewrite parse_stop in Hr by (by left). cbn in Hr. congruence.
Qed.

(** A connection that has read nothing yet, on a beginning of an input the
    machine reads without failure. *)
Lemma fresh_reads s t answers w rooms ps c' answers' :
  let full := parse m s (received answers ++ w) in
  good m s → p_err full = None → RData [] ∉ answers →
  framed_reads m rooms answers (mkFramed s [] [] 0 t) = (ps, c', answers') →
  delivered ps `prefix_of` parsed_bytes full
  ∧ (∀ e, Ready (Err e) ∈ ps → RErr e ∈ answers)
  ∧ (w = [] → Forall (λ room, 0 < room)%nat rooms → (length (parsed_bytes full) + length answers ≤ length rooms)%nat →
     delivered ps = parsed_bytes full).
Proof.
  intros full Hg He Hn Hrun. pose proof (parse_no_err _ _ _ Hg He) as He0.
  assert (fits m (mkFramed s [] [] 0 t)) as Hfit by (unfold fits; cbn; split_and!; [lia..|done]).
  destruct (framed_reads_inv m _ _ _ _ _ _ Hfit Hn He0 Hrun) as (Hc & Herr & Hall). rewrite content_fresh in Hc, Hall.
  split_and!; [|done|].
  - etrans; [|by apply parsed_prefix]. rewrite Hc. by eexists.
  - intros -> Hrooms Hlen. unfold full in *. rewrite app_nil_r in *. by rewrite Hc, (Hall Hrooms Hlen), app_nil_r.
Qed.

Lemma fresh_reads_frames s t answers w rooms ps c' answers' :
  let full := parse m s (received answers ++ w) in
  good m s → p_err full = None → RData [] ∉ answers → raw m (p_state full) = false →
  framed_reads m rooms answers (mkFramed s [] [] 0 t) = (ps, c', answers') →
  Forall (λ room, Forall (λ f, length f.2 ≤ room)%nat (p_frames full)) rooms →
  filter (λ b, b ≠ []) (poll_bytes <$> ps) `prefix_of` (snd <$> p_frames full).
Proof.
  intros full Hg He Hn Hr Hrun Hrooms. pose proof (parse_no_err _ _ _ Hg He) as He0.
  pose proof (parse_app _ _ w Hg He0) as Happ. fold full in Happ. cbv zeta in Happ.
  destruct (framed_reads_whole rooms answers (mkFramed s [] [] 0 t) ps c' answers') as [rest Hrest].
  - unfold fits; cbn; split_and!; [lia..|done].
  - done.
  - done.
  - unfold ahead. cbn [read_state read_buf app]. destruct (raw m (p_state (parse m s (received answers)))) eqn:Eraw; [|done].
    rewrite (parse_stop m (p_state (parse m s (received answers)))) in Happ by (by left). rewrite Happ in Hr. cbn [p_state] in Hr. congruence.
  - eapply Forall_impl; [exact Hrooms|]. intros room Hroom. rewrite Happ in Hroom. by apply Forall_app in Hroom as [? _].
  - done.
  - rewrite Happ. cbn [p_frames]. rewrite fmap_app. unfold ahead in Hrest. cbn [read_state read_buf app] in Hrest.
    change (in_hand (mkFramed s [] [] 0 t)) with (@nil (T * bytes)) in Hrest. cbn [app] in Hrest. rewrite Hrest, <-app_assoc. by eexists.
Qed.

(** A machine run on encoded frames: the frames come out and the machine is
    back in its state. *)
Lemma parse_frames {A} (enc : A → bytes) (out : A → option (T * bytes)) s xs rest :
  (∀ x r, x ∈ xs → parse m s (enc x ++ r) = add_frame (out x) (parse m s r)) →
  parse m s (concat (enc <$> xs) ++ rest)
  = mkParsed (concat ((λ x, frame_list (out x)) <$> xs) ++ p_frames (parse m s rest))
      (p_state (parse m s rest)) (p_rest (parse m s rest)) (p_err (parse m s rest)).
Proof.
  intros Hx. induction xs as [|x xs IH];
    [cbn [fmap list_fmap concat app]; by destruct (parse m s rest)|].
  cbn [fmap list_fmap concat]. rewrite <-app_assoc, Hx by (by left). rewrite IH by (intros; apply Hx; by right).
  unfold add_frame. cbn [p_frames p_state p_rest p_err]. by rewrite app_assoc.
Qed.
End prefix.
