(* ===== verification/MuxFrame.v ===== *)
(** * The smux frame codec and session configuration

    Models the wire constants, [MuxHeader], [MuxFrame] and [MuxConfig] of
    src/mux.rs, and the loop of [writer_task] that encodes a batch of frames.
    The theorems are the round trip between [encode] and [decode], the
    behaviour of [decode] on a partial frame and on every command byte, and
    what [verify] accepts. *)

From stdpp Require Import base list option numbers strings pretty.
From Stdlib Require Import ZArith Lia.
From S2P Require Import Prelude.

Definition VERSION_1 : Z := 1.
Definition VERSION_2 : Z := 2.
Definition CMD_SYN : Z := 0.
Definition CMD_FIN : Z := 1.
Definition CMD_PSH : Z := 2.
Definition CMD_NOP : Z := 3.
Definition CMD_UPD : Z := 4.
Definition HEADER_SIZE : nat := 8.
Definition UPD_SIZE : nat := 8.
Definition MAX_FRAME_SIZE : Z := 32768.
Definition MAX_FRAME_DATA : Z := u16_max.
Definition DEFAULT_ACCEPT_BACKLOG : Z := 1024.

(** ** Headers *)

Record MuxHeader : Set := mkHeader {
  h_version : Z;
  h_cmd : Z;
  h_length : Z;
  h_sid : Z
}.

Definition MuxHeader_encode (h : MuxHeader) : bytes :=
  [h_version h; h_cmd h] ++ to_le 2 (h_length h) ++ to_le 4 (h_sid h).

(** The argument is a [[u8; HEADER_SIZE]]: every caller passes eight bytes. *)
Definition MuxHeader_decode (buf : bytes) : MuxHeader :=
  mkHeader (buf !!! 0%nat) (buf !!! 1%nat)
    (from_le [buf !!! 2%nat; buf !!! 3%nat])
    (from_le [buf !!! 4%nat; buf !!! 5%nat; buf !!! 6%nat; buf !!! 7%nat]).

(** ** Frames *)

Record MuxFrame : Set := mkFrame {
  f_version : Z;
  f_cmd : Z;
  f_sid : Z;
  f_data : bytes
}.

#[export] Instance MuxHeader_eq_dec : EqDecision MuxHeader.
Proof. solve_decision. Defined.
#[export] Instance MuxFrame_eq_dec : EqDecision MuxFrame.
Proof. solve_decision. Defined.

Definition MuxFrame_new (version cmd sid : Z) : MuxFrame := mkFrame version cmd sid [].
Definition MuxFrame_with_data (version cmd sid : Z) (data : bytes) : MuxFrame :=
  mkFrame version cmd sid data.

Definition MuxFrame_header (f : MuxFrame) : MuxHeader :=
  mkHeader (f_version f) (f_cmd f) (u16 (zlen (f_data f))) (f_sid f).

Definition MuxFrame_encoded_len (f : MuxFrame) : nat :=
  (HEADER_SIZE + length (f_data f))%nat.

Definition MuxFrame_encode_into (f : MuxFrame) (out : bytes) : result io_error bytes :=
  if MAX_FRAME_DATA <? zlen (f_data f)
  then Err (IoError InvalidInput
    ("smux: frame payload " +:+ pretty (zlen (f_data f)) +:+ " exceeds the "
       +:+ pretty MAX_FRAME_DATA +:+ "-byte protocol limit"))
  else Ok (out ++ MuxHeader_encode (MuxFrame_header f) ++ f_data f).

Definition MuxFrame_encode (f : MuxFrame) : result io_error bytes :=
  MuxFrame_encode_into f [].

Definition unknown_command (other : Z) : io_error :=
  IoError InvalidData ("smux: invalid protocol, unknown command " +:+ pretty other).

Definition MuxFrame_decode (buf : bytes) : result io_error (option (MuxFrame * nat)) :=
  if (length buf <? HEADER_SIZE)%nat then Ok None
  else
    let header := MuxHeader_decode (take HEADER_SIZE buf) in
    want <-? (if (h_cmd header =? CMD_PSH) || (h_cmd header =? CMD_UPD)
              then Ok (Z.to_nat (h_length header))
              else if (h_cmd header =? CMD_SYN) || (h_cmd header =? CMD_FIN)
                      || (h_cmd header =? CMD_NOP)
              then Ok 0%nat
              else Err (unknown_command (h_cmd header))) ;;
    if (length buf <? HEADER_SIZE + want)%nat then Ok None
    else Ok (Some (mkFrame (h_version header) (h_cmd header) (h_sid header)
                     (take want (drop HEADER_SIZE buf)),
                   (HEADER_SIZE + want)%nat)).

(** The [for frame in &batch { frame.encode_into(&mut out)? }] loop of
    [writer_task]. *)
Fixpoint encode_batch (batch : list MuxFrame) (out : bytes) : result io_error bytes :=
  match batch with
  | [] => Ok out
  | f :: batch => out' <-? MuxFrame_encode_into f out ;; encode_batch batch out'
  end.

(** ** Configuration. Durations are in nanoseconds. *)

Record MuxConfig : Set := mkMuxConfig {
  version : Z;
  keep_alive_disabled : bool;
  keep_alive_interval : Z;
  keep_alive_timeout : Z;
  max_frame_size : Z;
  max_receive_buffer : Z;
  max_stream_buffer : Z
}.

Definition secs (n : Z) : Z := n * 1000000000.

Definition MuxConfig_default : MuxConfig :=
  mkMuxConfig VERSION_1 false (secs 10) (secs 30) MAX_FRAME_SIZE (4 * 1024 * 1024) 65536.

Definition with_version (c : MuxConfig) (v : Z) : MuxConfig :=
  mkMuxConfig v (keep_alive_disabled c) (keep_alive_interval c) (keep_alive_timeout c)
    (max_frame_size c) (max_receive_buffer c) (max_stream_buffer c).

Definition verify (c : MuxConfig) : result io_error () :=
  if negb (version c =? VERSION_1) && negb (version c =? VERSION_2)
  then Err (IoError InvalidInput ("smux: unsupported protocol version " +:+ pretty (version c)))
  else if version c =? VERSION_2
  then Err (IoError Unsupported "smux: protocol version 2 is not implemented, use version 1")
  else if negb (keep_alive_disabled c) && (keep_alive_interval c =? 0)
  then Err (IoError InvalidInput "smux: keep-alive interval must be positive")
  else if negb (keep_alive_disabled c) && (keep_alive_timeout c <? keep_alive_interval c)
  then Err (IoError InvalidInput
    "smux: keep-alive timeout must be larger than keep-alive interval")
  else if max_frame_size c =? 0
  then Err (IoError InvalidInput "smux: max frame size must be positive")
  else if MAX_FRAME_DATA <? max_frame_size c
  then Err (IoError InvalidInput "smux: max frame size must not be larger than 65535")
  else if max_receive_buffer c =? 0
  then Err (IoError InvalidInput "smux: max receive buffer must be positive")
  else if max_stream_buffer c =? 0
  then Err (IoError InvalidInput "smux: max stream buffer must be positive")
  else if max_receive_buffer c <? max_stream_buffer c
  then Err (IoError InvalidInput
    "smux: max stream buffer must not be larger than max receive buffer")
  else Ok ().

(** [usize] is 64 bits wide on the supported targets; [saturating_mul]. *)
Definition send_queue_limit (c : MuxConfig) : Z :=
  Z.max (Z.min (max_frame_size c * 8) u64_max) 65536.

(** ** Well-formedness *)

Definition is_cmd (c : Z) : Prop := 0 ≤ c ≤ 4.
Definition carries_data (c : Z) : bool := (c =? CMD_PSH) || (c =? CMD_UPD).

(** What a Rust [MuxFrame] value that respects the protocol satisfies: the
    fields are in their types' ranges, the command is one of the five, and
    only PSH and UPD carry a payload. *)
Record frame_wf (f : MuxFrame) : Prop := {
  wf_version : is_byte (f_version f);
  wf_cmd : is_cmd (f_cmd f);
  wf_sid : 0 ≤ f_sid f < 2 ^ 32;
  wf_data : is_bytes (f_data f);
  wf_empty : carries_data (f_cmd f) = false → f_data f = []
}.

(** The types' ranges for a configuration: every field is unsigned. *)
Record config_wf (c : MuxConfig) : Prop := {
  wf_cversion : is_byte (version c);
  wf_interval : 0 ≤ keep_alive_interval c;
  wf_timeout : 0 ≤ keep_alive_timeout c;
  wf_frame_size : 0 ≤ max_frame_size c ≤ u64_max;
  wf_receive : 0 ≤ max_receive_buffer c ≤ u64_max;
  wf_stream : 0 ≤ max_stream_buffer c ≤ u64_max
}.

(** Concrete frames are well formed by computation. *)
Ltac solve_bytes := unfold is_bytes, is_byte; repeat constructor; try (cbn; lia); try done.
Ltac solve_frame_wf :=
  constructor; cbn -[is_bytes]; unfold is_byte, is_cmd, CMD_PSH, CMD_SYN, CMD_FIN, CMD_NOP, CMD_UPD;
  first [lia | solve_bytes | done].

(** ** Lemmas *)

Lemma length_header_encode h : length (MuxHeader_encode h) = HEADER_SIZE.
Proof. unfold MuxHeader_encode. autorewrite with rt_len. done. Qed.
#[export] Hint Rewrite length_header_encode : rt_len.

Lemma header_decode_encode h :
  0 ≤ h_length h < 2 ^ 16 → 0 ≤ h_sid h < 2 ^ 32 →
  MuxHeader_decode (MuxHeader_encode h) = h.
Proof.
  intros Hl Hs. destruct h as [v c l s]; cbn [h_length h_sid] in *.
  unfold MuxHeader_decode, MuxHeader_encode. f_equal.
  - change (from_le (to_le 2 l) = l). by apply from_to_le.
  - change (from_le (to_le 4 s) = s). by apply from_to_le.
Qed.

Lemma header_encode_decode buf :
  length buf = HEADER_SIZE → is_bytes buf →
  MuxHeader_encode (MuxHeader_decode buf) = buf.
Proof.
  intros Hlen Hb.
  destruct buf as [|b0 [|b1 [|b2 [|b3 [|b4 [|b5 [|b6 [|b7 [|]]]]]]]]]; try discriminate Hlen.
  unfold is_bytes in Hb. rewrite !Forall_cons in Hb. destruct_and!.
  assert (to_le 2 (from_le [b2; b3]) = [b2; b3]) as E1.
  { apply (to_from_le [b2; b3]). unfold is_bytes. rewrite !Forall_cons, Forall_nil. done. }
  assert (to_le 4 (from_le [b4; b5; b6; b7]) = [b4; b5; b6; b7]) as E2.
  { apply (to_from_le [b4; b5; b6; b7]). unfold is_bytes. rewrite !Forall_cons, Forall_nil. done. }
  change (MuxHeader_encode (MuxHeader_decode [b0; b1; b2; b3; b4; b5; b6; b7]))
    with ([b0; b1] ++ to_le 2 (from_le [b2; b3]) ++ to_le 4 (from_le [b4; b5; b6; b7])).
  by rewrite E1, E2.
Qed.

Lemma encode_into_ok f out :
  zlen (f_data f) ≤ MAX_FRAME_DATA →
  MuxFrame_encode_into f out =
    Ok (out ++ MuxHeader_encode (MuxFrame_header f) ++ f_data f).
Proof. intros H. unfold MuxFrame_encode_into. case_goal; [zbool; lia|done]. Qed.

Lemma encode_into_err f out :
  MAX_FRAME_DATA < zlen (f_data f) → ∃ e, MuxFrame_encode_into f out = Err e ∧ ek e = InvalidInput.
Proof.
  intros H. unfold MuxFrame_encode_into. case_goal; zbool; [|lia].
  eexists. split; reflexivity.
Qed.

Lemma encode_Ok_inv f w :
  MuxFrame_encode f = Ok w →
  zlen (f_data f) ≤ MAX_FRAME_DATA ∧ w = MuxHeader_encode (MuxFrame_header f) ++ f_data f.
Proof.
  unfold MuxFrame_encode, MuxFrame_encode_into. case_goal; intros [= <-]. zbool. by split.
Qed.

Lemma frame_header_decode f :
  frame_wf f → zlen (f_data f) ≤ MAX_FRAME_DATA →
  MuxHeader_decode (MuxHeader_encode (MuxFrame_header f)) = MuxFrame_header f.
Proof.
  intros Hwf Hl. apply header_decode_encode; [|apply Hwf].
  apply wrap_range. lia.
Qed.

Lemma frame_length_exact f :
  zlen (f_data f) ≤ MAX_FRAME_DATA → u16 (zlen (f_data f)) = zlen (f_data f).
Proof.
  intros H. apply wrap_small. pose proof (zlen_nonneg (f_data f)).
  unfold MAX_FRAME_DATA, u16_max in H. lia.
Qed.

(** The number of payload bytes [decode] waits for, on a known command. *)
Definition wanted (h : MuxHeader) : nat :=
  if carries_data (h_cmd h) then Z.to_nat (h_length h) else 0%nat.

Lemma decode_known buf :
  let h := MuxHeader_decode (take HEADER_SIZE buf) in
  (HEADER_SIZE ≤ length buf)%nat → is_cmd (h_cmd h) →
  MuxFrame_decode buf =
    if (length buf <? HEADER_SIZE + wanted h)%nat then Ok None
    else Ok (Some (mkFrame (h_version h) (h_cmd h) (h_sid h)
                     (take (wanted h) (drop HEADER_SIZE buf)), (HEADER_SIZE + wanted h)%nat)).
Proof.
  intros h Hlen Hc. unfold MuxFrame_decode.
  destruct (Nat.ltb_spec (length buf) HEADER_SIZE); [lia|].
  fold h. unfold wanted, carries_data.
  destruct ((h_cmd h =? CMD_PSH) || (h_cmd h =? CMD_UPD))%bool eqn:E1; [done|].
  destruct ((h_cmd h =? CMD_SYN) || (h_cmd h =? CMD_FIN) || (h_cmd h =? CMD_NOP))%bool eqn:E2;
    [done|].
  exfalso. unfold is_cmd, CMD_PSH, CMD_UPD, CMD_SYN, CMD_FIN, CMD_NOP in *. lia.
Qed.

Lemma wanted_frame f :
  frame_wf f → zlen (f_data f) ≤ MAX_FRAME_DATA →
  wanted (MuxFrame_header f) = length (f_data f).
Proof.
  intros Hwf Hl. unfold wanted. cbn [MuxFrame_header h_cmd h_length].
  destruct (carries_data (f_cmd f)) eqn:E.
  - rewrite frame_length_exact by done. unfold zlen. lia.
  - by rewrite (wf_empty f Hwf E).
Qed.

Lemma encode_batch_app fs gs out :
  encode_batch (fs ++ gs) out = (out' <-? encode_batch fs out ;; encode_batch gs out').
Proof.
  revert out. induction fs as [|f fs IH]; intros out; [done|].
  cbn [encode_batch app]. destruct (MuxFrame_encode_into f out); [apply IH|done].
Qed.

(** The bytes of one frame and of a batch. *)
Definition frame_bytes (f : MuxFrame) : bytes :=
  MuxHeader_encode (MuxFrame_header f) ++ f_data f.

Lemma encode_batch_ok fs out :
  Forall (λ f, zlen (f_data f) ≤ MAX_FRAME_DATA) fs →
  encode_batch fs out = Ok (out ++ concat (frame_bytes <$> fs)).
Proof.
  intros H. revert out. induction H as [|f fs Hf _ IH]; intros out; simpl.
  - by rewrite app_nil_r.
  - rewrite encode_into_ok by done. cbn [rbind]. by rewrite IH, <-app_assoc.
Qed.

(** ** Properties *)

(** Decoding an encoded frame gives back the frame and consumes exactly
    its bytes, whatever follows it in the buffer. *)
Theorem mux_decode_encode f w rest :
  frame_wf f → MuxFrame_encode f = Ok w →
  MuxFrame_decode (w ++ rest) = Ok (Some (f, length w)).
Proof.
  intros Hwf [Hl ->]%encode_Ok_inv.
  assert (take HEADER_SIZE ((MuxHeader_encode (MuxFrame_header f) ++ f_data f) ++ rest)
          = MuxHeader_encode (MuxFrame_header f)) as Et.
  { rewrite <-app_assoc. apply take_app_exact. by autorewrite with rt_len. }
  rewrite decode_known; rewrite ?Et, ?frame_header_decode by done.
  - rewrite wanted_frame by done. autorewrite with rt_len.
    destruct (Nat.ltb_spec (HEADER_SIZE + length (f_data f) + length rest)
                (HEADER_SIZE + length (f_data f))); [lia|].
    rewrite <-!app_assoc, (drop_app_exact (MuxHeader_encode _))
      by (by autorewrite with rt_len).
    rewrite take_app_exact by done. by destruct f.
  - autorewrite with rt_len. lia.
  - apply Hwf.
Qed.

Lemma mux_decode_encode_witness :
  MuxFrame_decode ([1; 2; 3; 0; 7; 0; 0; 0; 10; 20; 30] ++ [99]) =
    Ok (Some (mkFrame 1 CMD_PSH 7 [10; 20; 30], 11%nat)).
Proof.
  apply (mux_decode_encode (mkFrame 1 CMD_PSH 7 [10; 20; 30])
           [1; 2; 3; 0; 7; 0; 0; 0; 10; 20; 30] [99]).
  - solve_frame_wf.
  - vm_compute. reflexivity.
Defined.

(** A proper prefix of an encoded frame is never mistaken for a frame:
    [decode] asks for more input, it neither fails nor returns a shorter
    frame. *)
Theorem mux_decode_prefix f w n :
  frame_wf f → MuxFrame_encode f = Ok w → (n < length w)%nat →
  MuxFrame_decode (take n w) = Ok None.
Proof.
  intros Hwf [Hl ->]%encode_Ok_inv Hn. autorewrite with rt_len in Hn.
  destruct (Nat.ltb_spec n HEADER_SIZE) as [Hs|Hs].
  - unfold MuxFrame_decode. autorewrite with rt_len.
    destruct (Nat.ltb_spec (n `min` (HEADER_SIZE + length (f_data f))) HEADER_SIZE); [done|lia].
  - assert (take HEADER_SIZE (take n (MuxHeader_encode (MuxFrame_header f) ++ f_data f))
            = MuxHeader_encode (MuxFrame_header f)) as Et.
    { rewrite take_take, Nat.min_l by lia. apply take_app_exact. by autorewrite with rt_len. }
    rewrite decode_known; rewrite ?Et, ?frame_header_decode by done.
    + rewrite wanted_frame by done. autorewrite with rt_len.
      by destruct (Nat.ltb_spec (n `min` (HEADER_SIZE + length (f_data f)))
                  (HEADER_SIZE + length (f_data f))); [|lia].
    + autorewrite with rt_len. lia.
    + apply Hwf.
Qed.

Lemma mux_decode_prefix_witness :
  MuxFrame_decode [1; 2; 3; 0; 7; 0; 0; 0; 10; 20] = Ok None.
Proof.
  apply (mux_decode_prefix (mkFrame 1 CMD_PSH 7 [10; 20; 30])
           [1; 2; 3; 0; 7; 0; 0; 0; 10; 20; 30] 10).
  - solve_frame_wf.
  - vm_compute. reflexivity.
  - cbn. lia.
Defined.

(** [verify] accepts exactly the version-1 configurations with consistent
    limits and keep-alive times; every other configuration is an error. *)
Theorem verify_iff c :
  config_wf c →
  verify c = Ok () ↔
    version c = VERSION_1
    ∧ (keep_alive_disabled c = false →
       0 < keep_alive_interval c ≤ keep_alive_timeout c)
    ∧ 0 < max_frame_size c ≤ MAX_FRAME_DATA
    ∧ 0 < max_stream_buffer c ≤ max_receive_buffer c.
Proof.
  intros [? ? ? ? ? ?]. unfold verify, VERSION_1, VERSION_2 in *.
  destruct (keep_alive_disabled c); cbn [negb andb];
    repeat case_goal; (split; [try discriminate|]); intros; destruct_and?; try done;
    try (exfalso; lia); repeat split; intros; try done; try lia.
Qed.

Lemma verify_iff_witness : verify MuxConfig_default = Ok ().
Proof.
  apply verify_iff.
  - constructor; vm_compute; repeat split; intros; discriminate.
  - vm_compute. repeat split; intros; congruence.
Defined.
