(* ===== verification/MuxQueue.v ===== *)
(** * The outbound frame queue of a smux session

    Models [WriteQueueState], [WriteQueue] and [writer_task] of src/mux.rs.
    The queue is a record, each method a function on it; a waker is the
    identity of the task it wakes and an operation that wakes tasks returns
    them. The queue, its writer task and the tasks that push frames form a
    transition system whose reachable states satisfy an accounting invariant:
    every frame ever pushed is retired, in flight or queued, in push order.
    The properties are the meaning of [poll_flushed], per-stream order on the
    wire, the byte bound that back-pressure enforces, and that a queued frame
    is on the wire once the writer has had two turns. *)

From stdpp Require Import base list option numbers strings.
From Stdlib Require Import ZArith Lia.
From S2P Require Import Prelude MuxFrame.

(** A task, as identified by [Waker::will_wake]. *)
Abbreviation task := nat.

(** ** State. [pushed] and [written] are [u64] counters of frames. *)

Record WriteQueue : Set := mkQueue {
  ctrl : list MuxFrame;
  data : list MuxFrame;
  data_bytes : Z;
  pushed : Z;
  written : Z;
  q_closed : bool;
  space_wakers : list task;
  flush_wakers : list task;
  ready : bool;  (* the permit of [ready: Notify] *)
  limit : Z
}.

Definition closed_err : io_error := IoError BrokenPipe "smux: session closed".

Definition WriteQueue_new (lim : Z) : WriteQueue :=
  mkQueue [] [] 0 0 0 false [] [] false lim.

(** [register]: at most one entry per task. *)
Definition register (wakers : list task) (cx : task) : list task :=
  if bool_decide (cx ∈ wakers) then wakers else wakers ++ [cx].

Definition push_ctrl (q : WriteQueue) (frame : MuxFrame) : bool * WriteQueue :=
  if q_closed q then (false, q)
  else (true,
    mkQueue (ctrl q ++ [frame]) (data q) (data_bytes q) (pushed q + 1) (written q)
      (q_closed q) (space_wakers q) (flush_wakers q) true (limit q)).

Definition force_push_data (q : WriteQueue) (frame : MuxFrame) : result io_error Z * WriteQueue :=
  if q_closed q then (Err closed_err, q)
  else (Ok (pushed q + 1),
    mkQueue (ctrl q) (data q ++ [frame]) (data_bytes q + zlen (f_data frame)) (pushed q + 1)
      (written q) (q_closed q) (space_wakers q) (flush_wakers q) true (limit q)).

Definition poll_reserve (q : WriteQueue) (cx : task) : poll (result io_error ()) * WriteQueue :=
  if q_closed q then (Ready (Err closed_err), q)
  else if data_bytes q <? limit q then (Ready (Ok ()), q)
  else (Pending,
    mkQueue (ctrl q) (data q) (data_bytes q) (pushed q) (written q) (q_closed q)
      (register (space_wakers q) cx) (flush_wakers q) (ready q) (limit q)).

Definition poll_flushed (q : WriteQueue) (cx : task) (seq : Z) :
    poll (result io_error ()) * WriteQueue :=
  if seq <=? written q then (Ready (Ok ()), q)
  else if q_closed q then (Ready (Err closed_err), q)
  else (Pending,
    mkQueue (ctrl q) (data q) (data_bytes q) (pushed q) (written q) (q_closed q)
      (space_wakers q) (register (flush_wakers q) cx) (ready q) (limit q)).

(** The batch, the tasks woken, and the queue afterwards. *)
Definition take_batch (q : WriteQueue) : option (list MuxFrame) * list task * WriteQueue :=
  match ctrl q, data q with
  | [], [] => (None, [], q)
  | _, _ =>
      (Some (ctrl q ++ data q), space_wakers q,
       mkQueue [] [] 0 (pushed q) (written q) (q_closed q) [] (flush_wakers q) (ready q) (limit q))
  end.

Definition mark_written (q : WriteQueue) (count : Z) : list task * WriteQueue :=
  (flush_wakers q,
   mkQueue (ctrl q) (data q) (data_bytes q) (pushed q) (written q + count) (q_closed q)
     (space_wakers q) [] (ready q) (limit q)).

Definition close (q : WriteQueue) : list task * WriteQueue :=
  if q_closed q then ([], q)
  else (space_wakers q ++ flush_wakers q,
    mkQueue (ctrl q) (data q) (data_bytes q) (pushed q) (written q) true [] [] true (limit q)).

Definition is_closed (q : WriteQueue) : bool := q_closed q.

(** ** The writer task

    [writer_task] alternates between waiting for a batch and writing it. *)

Inductive writer_phase : Set :=
| Waiting                        (* at [take_batch] / [ready.notified()] *)
| Writing (batch : list MuxFrame)  (* encoding, [write_all], [flush] *)
| Stopped.                       (* returned *)

(** One turn of the inner loop: take a batch, or stop when closed, or wait. *)
Definition writer_take (q : WriteQueue) : writer_phase * list task * WriteQueue :=
  match take_batch q with
  | (Some batch, woken, q') => (Writing batch, woken, q')
  | (None, woken, q') => if is_closed q' then (Stopped, woken, q') else (Waiting, woken, q')
  end.

(** The rest of the outer loop, for a transport on which [write_all] and
    [flush] succeed ([None]) or fail ([Some e]): the bytes handed to
    [write_all], the error the session fails with, the next phase and the
    queue. [SessionShared::fail] closes the queue. *)
Definition writer_write (q : WriteQueue) (batch : list MuxFrame) (io : option io_error) :
    bytes * option io_error * writer_phase * WriteQueue :=
  match encode_batch batch [] with
  | Err e => ([], Some e, Stopped, (close q).2)
  | Ok out =>
      match io with
      | Some e => (out, Some e, Stopped, (close q).2)
      | None => (out, None, Waiting, (mark_written q (zlen batch)).2)
      end
  end.

(** ** The system: queue, writer and pushing tasks

    [log] records every accepted frame in push order and [wire] every frame
    of a batch that was written and flushed; both are history variables.
    [reserved] counts the tasks between [poll_reserve] and [force_push_data]
    in [poll_write]; at most [threads] run there at once. *)

Record wsys : Set := mkWsys {
  ws_q : WriteQueue;
  ws_phase : writer_phase;
  ws_log : list MuxFrame;
  ws_wire : list MuxFrame;
  ws_bytes : bytes;
  ws_reserved : nat
}.

Definition wsys_init (lim : Z) : wsys := mkWsys (WriteQueue_new lim) Waiting [] [] [] 0.

Definition is_nop (f : MuxFrame) : bool := f_cmd f =? CMD_NOP.
Definition nops (l : list MuxFrame) : list MuxFrame := filter (λ f, is_nop f = true) l.
Definition non_nops (l : list MuxFrame) : list MuxFrame := filter (λ f, is_nop f = false) l.

Section System.
Context (threads : nat) (frame_size : Z).

Inductive wstep : wsys → wsys → Prop :=
| W_keepalive s f b q' :  (* [keepalive_task] *)
    is_nop f = true → f_data f = [] →
    push_ctrl (ws_q s) f = (b, q') →
    wstep s (mkWsys q' (ws_phase s) (if b then ws_log s ++ [f] else ws_log s)
               (ws_wire s) (ws_bytes s) (ws_reserved s))
| W_syn_fin s f r q' :  (* [open_stream], [send_fin] *)
    is_nop f = false → f_data f = [] →
    force_push_data (ws_q s) f = (r, q') →
    wstep s (mkWsys q' (ws_phase s) (if is_ok r then ws_log s ++ [f] else ws_log s)
               (ws_wire s) (ws_bytes s) (ws_reserved s))
| W_reserve s cx r q' :  (* the first half of [poll_write] *)
    (ws_reserved s < threads)%nat →
    poll_reserve (ws_q s) cx = (r, q') →
    wstep s (mkWsys q' (ws_phase s) (ws_log s) (ws_wire s) (ws_bytes s)
               (if decide (r = Ready (Ok ())) then S (ws_reserved s) else ws_reserved s))
| W_push s n f r q' :  (* the second half of [poll_write] *)
    ws_reserved s = S n →
    is_nop f = false → zlen (f_data f) ≤ frame_size →
    force_push_data (ws_q s) f = (r, q') →
    wstep s (mkWsys q' (ws_phase s) (if is_ok r then ws_log s ++ [f] else ws_log s)
               (ws_wire s) (ws_bytes s) n)
| W_flushed s cx seq r q' :  (* [poll_flush], [poll_shutdown] *)
    poll_flushed (ws_q s) cx seq = (r, q') →
    wstep s (mkWsys q' (ws_phase s) (ws_log s) (ws_wire s) (ws_bytes s) (ws_reserved s))
| W_take s p woken q' :
    ws_phase s = Waiting → writer_take (ws_q s) = (p, woken, q') →
    wstep s (mkWsys q' p (ws_log s) (ws_wire s) (ws_bytes s) (ws_reserved s))
| W_write s batch io out e p q' n :
    ws_phase s = Writing batch → writer_write (ws_q s) batch io = (out, e, p, q') →
    (e = None → n = length out) →  (* a failed write may stop anywhere *)
    wstep s (mkWsys q' p (ws_log s) (match e with Some _ => ws_wire s | None => ws_wire s ++ batch end)
               (ws_bytes s ++ take n out) (ws_reserved s))
| W_close s woken q' :  (* [SessionShared::fail] from another task *)
    close (ws_q s) = (woken, q') →
    wstep s (mkWsys q' (ws_phase s) (ws_log s) (ws_wire s) (ws_bytes s) (ws_reserved s)).

Inductive wreach (lim : Z) : wsys → Prop :=
| wreach_init : wreach lim (wsys_init lim)
| wreach_step s s' : wreach lim s → wstep s s' → wreach lim s'.

(** ** The invariant *)

Definition queued_bytes (l : list MuxFrame) : Z :=
  Z.of_nat (sum_list_with (λ f, length (f_data f)) l).

(** The log splits into the frames retired by the writer, those it holds and
    those queued; a batch and the queue list the keep-alives first. *)
Record wsys_inv (lim : Z) (s : wsys) : Prop := {
  wi_split : ∃ retired flying queued,
    ws_log s = retired ++ flying ++ queued
    ∧ ws_wire s ≡ₚ retired
    ∧ non_nops (ws_wire s) = non_nops retired
    ∧ (∀ batch, ws_phase s = Writing batch → batch = nops flying ++ non_nops flying)
    ∧ (ws_phase s = Waiting → flying = [])
    ∧ ctrl (ws_q s) = nops queued
    ∧ data (ws_q s) = non_nops queued
    ∧ written (ws_q s) = zlen retired;
  wi_pushed : pushed (ws_q s) = zlen (ws_log s);
  wi_bytes : data_bytes (ws_q s) = queued_bytes (data (ws_q s));
  wi_limit : limit (ws_q s) = lim;
  wi_reserved : (ws_reserved s ≤ threads)%nat;
  wi_bound : data_bytes (ws_q s) + Z.of_nat (ws_reserved s) * frame_size
               ≤ lim - 1 + Z.of_nat threads * frame_size
}.
End System.

(** ** Lemmas on the keep-alive / data split *)

Lemma nops_app l k : nops (l ++ k) = nops l ++ nops k.
Proof. apply filter_app. Qed.
Lemma non_nops_app l k : non_nops (l ++ k) = non_nops l ++ non_nops k.
Proof. apply filter_app. Qed.

Lemma nops_nil l : Forall (λ f, is_nop f = false) l → nops l = [].
Proof.
  induction 1 as [|f l Hf _ IH]; [done|]. unfold nops. rewrite filter_cons_False; [done|].
  by rewrite Hf.
Qed.
Lemma non_nops_nil l : Forall (λ f, is_nop f = true) l → non_nops l = [].
Proof.
  induction 1 as [|f l Hf _ IH]; [done|]. unfold non_nops. rewrite filter_cons_False; [done|].
  by rewrite Hf.
Qed.
Lemma nops_all l : Forall (λ f, is_nop f = true) (nops l).
Proof. apply Forall_forall. intros f [Hf _]%list_elem_of_filter. done. Qed.
Lemma non_nops_all l : Forall (λ f, is_nop f = false) (non_nops l).
Proof. apply Forall_forall. intros f [Hf _]%list_elem_of_filter. done. Qed.
Lemma non_nops_id l : Forall (λ f, is_nop f = false) l → non_nops l = l.
Proof.
  induction 1 as [|f l Hf _ IH]; [done|]. unfold non_nops in *.
  rewrite filter_cons_True by done. by rewrite IH.
Qed.

Lemma non_nops_batch l : non_nops (nops l ++ non_nops l) = non_nops l.
Proof.
  rewrite non_nops_app, (non_nops_nil (nops l)) by apply nops_all.
  apply non_nops_id, non_nops_all.
Qed.

Lemma batch_perm l : nops l ++ non_nops l ≡ₚ l.
Proof.
  induction l as [|f l IH]; [done|]. unfold nops, non_nops in *.
  rewrite !filter_cons. destruct (is_nop f) eqn:E; simpl.
  - by rewrite IH.
  - rewrite <-Permutation_middle. by rewrite IH.
Qed.

Lemma nops_snoc_nop l f : is_nop f = true → nops (l ++ [f]) = nops l ++ [f] ∧ non_nops (l ++ [f]) = non_nops l.
Proof.
  intros H. rewrite nops_app, non_nops_app. unfold nops, non_nops. rewrite !filter_cons, H.
  simpl. by rewrite app_nil_r.
Qed.
Lemma nops_snoc_data l f : is_nop f = false → nops (l ++ [f]) = nops l ∧ non_nops (l ++ [f]) = non_nops l ++ [f].
Proof.
  intros H. rewrite nops_app, non_nops_app. unfold nops, non_nops. rewrite !filter_cons, H.
  simpl. by rewrite app_nil_r.
Qed.

Lemma queued_bytes_app l k : queued_bytes (l ++ k) = queued_bytes l + queued_bytes k.
Proof. unfold queued_bytes. rewrite sum_list_with_app. lia. Qed.
Lemma queued_bytes_one f : queued_bytes [f] = zlen (f_data f).
Proof. unfold queued_bytes, zlen. simpl. lia. Qed.
Lemma queued_bytes_nonneg l : 0 ≤ queued_bytes l.
Proof. unfold queued_bytes. lia. Qed.

Section Invariant.
Context (threads : nat) (frame_size lim : Z) (Hfs : 0 ≤ frame_size) (Hlim : 0 < lim).
Abbreviation Inv := (wsys_inv threads frame_size lim).

Lemma wsys_inv_init : Inv (wsys_init lim).
Proof.
  constructor; cbn; try done; try nia. exists [], [], []. repeat split; try done.
Qed.

(** A step that leaves the ghost history, the frames and the counters alone. *)
Lemma inv_frame s q' n :
  Inv s →
  ctrl q' = ctrl (ws_q s) → data q' = data (ws_q s) → data_bytes q' = data_bytes (ws_q s) →
  pushed q' = pushed (ws_q s) → written q' = written (ws_q s) → limit q' = limit (ws_q s) →
  (n ≤ threads)%nat →
  data_bytes q' + Z.of_nat n * frame_size ≤ lim - 1 + Z.of_nat threads * frame_size →
  Inv (mkWsys q' (ws_phase s) (ws_log s) (ws_wire s) (ws_bytes s) n).
Proof.
  intros [Hsplit ? ? ? ? ?] Hc Hd Hb Hp Hw Hl Hn Hbd.
  constructor; cbn -[Z.mul]; rewrite ?Hc, ?Hd, ?Hp, ?Hl; try done; [|by rewrite Hb].
  destruct Hsplit as (r & f & u & ? & ? & ? & ? & ? & ? & ? & ?).
  exists r, f, u. rewrite ?Hc, ?Hd, ?Hw. done.
Qed.

Lemma inv_push_data s f q' r n :
  Inv s → is_nop f = false → force_push_data (ws_q s) f = (r, q') →
  (n ≤ threads)%nat →
  zlen (f_data f) + Z.of_nat n * frame_size ≤ Z.of_nat (ws_reserved s) * frame_size →
  Inv (mkWsys q' (ws_phase s) (if is_ok r then ws_log s ++ [f] else ws_log s)
         (ws_wire s) (ws_bytes s) n).
Proof.
  intros Hi Hf Hp Hn Hz. pose proof (zlen_nonneg (f_data f)).
  unfold force_push_data in Hp. case_hyp Hp; simplify_eq/=.
  { apply inv_frame; try done. pose proof (wi_bound _ _ _ _ Hi). lia. }
  destruct Hi as [Hsplit ? ? ? ? Hb].
  constructor; cbn -[Z.mul]; try done.
  - destruct Hsplit as (r & fl & u & Hlog & ? & ? & ? & ? & Hc & Hd & ?).
    exists r, fl, (u ++ [f]). destruct (nops_snoc_data u f Hf) as [-> ->].
    rewrite Hlog, Hd, <-!app_assoc. done.
  - rewrite zlen_app. change (zlen [f]) with 1. lia.
  - rewrite queued_bytes_app, queued_bytes_one. lia.
  - lia.
Qed.

Lemma inv_push_ctrl s f q' b :
  Inv s → is_nop f = true → push_ctrl (ws_q s) f = (b, q') →
  Inv (mkWsys q' (ws_phase s) (if b then ws_log s ++ [f] else ws_log s)
         (ws_wire s) (ws_bytes s) (ws_reserved s)).
Proof.
  intros Hi Hf Hp. unfold push_ctrl in Hp. case_hyp Hp; simplify_eq/=.
  { by apply inv_frame; destruct Hi. }
  destruct Hi as [Hsplit ? ? ? ? Hb].
  constructor; cbn -[Z.mul]; try done.
  - destruct Hsplit as (r & fl & u & Hlog & ? & ? & ? & ? & Hc & Hd & ?).
    exists r, fl, (u ++ [f]). destruct (nops_snoc_nop u f Hf) as [-> ->].
    rewrite Hlog, Hc, <-!app_assoc. done.
  - rewrite zlen_app. change (zlen [f]) with 1. lia.
Qed.

Lemma take_batch_Some q b w q' :
  take_batch q = (Some b, w, q') →
  b = ctrl q ++ data q ∧ ctrl q' = [] ∧ data q' = [] ∧ data_bytes q' = 0
  ∧ pushed q' = pushed q ∧ written q' = written q ∧ limit q' = limit q
  ∧ q_closed q' = q_closed q.
Proof. unfold take_batch. intros. repeat case_hyp H; by simplify_eq/=. Qed.

Lemma take_batch_None q w q' :
  take_batch q = (None, w, q') → q' = q ∧ ctrl q = [] ∧ data q = [].
Proof. unfold take_batch. intros. repeat case_hyp H; by simplify_eq/=. Qed.

Lemma inv_take s p w q' :
  Inv s → ws_phase s = Waiting → writer_take (ws_q s) = (p, w, q') →
  Inv (mkWsys q' p (ws_log s) (ws_wire s) (ws_bytes s) (ws_reserved s)).
Proof.
  intros Hi Hph Ht. destruct Hi as [Hsplit ? ? Hl ? Hb].
  destruct Hsplit as (r & fl & u & Hlog & Hw & Hn & Hbt & Hwait & Hc & Hd & Hwr).
  specialize (Hwait Hph). subst fl. unfold writer_take in Ht.
  destruct (take_batch (ws_q s)) as [[[b|] wk] q1] eqn:E.
  - injection Ht as <- <- <-. apply take_batch_Some in E as (-> & E1 & E2 & E3 & E4 & E5 & E6 & _).
    constructor; cbn -[Z.mul]; rewrite ?E2, ?E3, ?E4, ?E6; try done; [|nia].
    exists r, u, []. rewrite ?E1, ?E2, ?E5, app_nil_r. repeat split; try done.
    intros batch [= <-]. by rewrite Hc, Hd.
  - apply take_batch_None in E as (-> & E1 & E2).
    case_hyp Ht; injection Ht as <- <- <-; constructor; cbn -[Z.mul]; try done;
      exists r, [], u; repeat split; try done; by rewrite ?Hc, ?Hd.
Qed.

Lemma close_fields q w q' :
  close q = (w, q') →
  ctrl q' = ctrl q ∧ data q' = data q ∧ data_bytes q' = data_bytes q
  ∧ pushed q' = pushed q ∧ written q' = written q ∧ limit q' = limit q ∧ q_closed q' = true.
Proof. unfold close. intros. case_hyp H; simplify_eq/=; repeat split; done. Qed.

Lemma inv_write s batch io out e p q' bs :
  Inv s → ws_phase s = Writing batch → writer_write (ws_q s) batch io = (out, e, p, q') →
  Inv (mkWsys q' p (ws_log s) (match e with Some _ => ws_wire s | None => ws_wire s ++ batch end)
         bs (ws_reserved s)).
Proof.
  intros Hi Hph Ht. destruct Hi as [Hsplit ? ? ? ? Hb].
  destruct Hsplit as (r & fl & u & Hlog & Hw & Hn & Hbt & Hwait & Hc & Hd & Hwr).
  specialize (Hbt _ Hph). unfold writer_write in Ht.
  assert (∀ e' out', (out', Some e', Stopped, (close (ws_q s)).2) = (out, e, p, q') →
    Inv (mkWsys q' p (ws_log s) (match e with Some _ => ws_wire s | None => ws_wire s ++ batch end)
         bs (ws_reserved s))) as Hfail.
  { intros e' out' [= <- <- <- <-]. destruct (close (ws_q s)) as [wk q1] eqn:E.
    apply close_fields in E as (E1 & E2 & E3 & E4 & E5 & E6 & E7). cbn [snd].
    constructor; cbn -[Z.mul]; rewrite ?E1, ?E2, ?E3, ?E4, ?E6; try done.
    exists r, fl, u. rewrite ?E1, ?E2, ?E5. done. }
  destruct (encode_batch batch []); [|by eapply Hfail].
  destruct io; [by eapply Hfail|]. clear Hfail. injection Ht as <- <- <- <-.
  constructor; cbn -[Z.mul]; try done.
  subst batch. exists (r ++ fl), [], u.
  rewrite Hlog, !(non_nops_app _ fl), (non_nops_app _ (nops fl ++ _)), Hn, non_nops_batch.
  repeat split; try done.
  - by rewrite <-app_assoc.
  - by rewrite Hw, batch_perm.
  - rewrite zlen_app, Hwr, zlen_app.
    enough (zlen (nops fl) + zlen (non_nops fl) = zlen fl) by lia.
    rewrite <-zlen_app. unfold zlen. by rewrite (batch_perm fl).
Qed.

Lemma inv_step s s' : Inv s → wstep threads frame_size s s' → Inv s'.
Proof.
  intros Hi Hs. pose proof (wi_bound _ _ _ _ Hi) as Hb.
  pose proof (wi_reserved _ _ _ _ Hi) as Hr. pose proof (wi_limit _ _ _ _ Hi) as Hl.
  destruct Hs.
  - by eapply inv_push_ctrl.
  - eapply inv_push_data; try done. by rewrite H0.
  - unfold poll_reserve in H0. repeat case_hyp H0; injection H0 as <- <-;
      [rewrite decide_False by done|rewrite decide_True by done|rewrite decide_False by done];
      apply inv_frame; try done; zbool; nia.
  - eapply inv_push_data; try done; lia.
  - unfold poll_flushed in H. repeat case_hyp H; injection H as <- <-; by apply inv_frame.
  - by eapply inv_take.
  - by eapply inv_write.
  - apply close_fields in H as (? & ? & E & ? & ? & ? & ?). apply inv_frame; try done.
    by rewrite E.
Qed.

Lemma wreach_inv s : wreach threads frame_size lim s → Inv s.
Proof. induction 1; [apply wsys_inv_init|by eapply inv_step]. Qed.
End Invariant.

(** ** Further invariants, by rule induction *)

Section History.
Context (threads : nat) (frame_size lim : Z) (Hfs : 0 ≤ frame_size).
Abbreviation reach := (wreach threads frame_size lim).

(** Only bounded payloads are ever pushed. *)
Lemma wreach_sizes s : reach s → Forall (λ f, zlen (f_data f) ≤ frame_size) (ws_log s).
Proof.
  induction 1 as [|s s' _ IH Hs]; [constructor|].
  assert (∀ f : MuxFrame, f_data f = [] → zlen (f_data f) ≤ frame_size) as Hnil
    by (intros f ->; done).
  destruct Hs; cbn; try done.
  - destruct b; [|done]. apply Forall_app; auto.
  - destruct (is_ok r); [|done]. apply Forall_app; auto.
  - destruct (is_ok r); [|done]. apply Forall_app; auto.
Qed.

(** Until the writer stops, the transport has received exactly the encodings
    of the frames on [wire]. *)
Lemma wreach_bytes s :
  reach s → ws_phase s ≠ Stopped → ws_bytes s = concat (frame_bytes <$> ws_wire s).
Proof.
  intros Hr. pose proof Hr as Hr0. induction Hr0 as [|s s' Hr0 IH Hs]; [done|].
  specialize (IH Hr0). destruct Hs; cbn in *; auto.
  - intros _. apply IH. congruence.
  - intros Hp. unfold writer_write in H0.
    destruct (encode_batch batch []) as [o|] eqn:E; [|simplify_eq/=; done].
    destruct io; [simplify_eq/=; done|]. injection H0 as <- <- <- <-.
    rewrite H1, firstn_all, IH by (done || congruence).
    rewrite fmap_app, concat_app. f_equal.
    assert (Forall (λ f, zlen (f_data f) ≤ MAX_FRAME_DATA) batch) as Hb.
    { clear - E. revert o E. generalize ([] : bytes).
      induction batch as [|f l IHl]; intros b o E; [done|]. cbn in E.
      unfold MuxFrame_encode_into in E. case_hyp E; [done|]. zbool.
      constructor; [done|]. by eapply IHl. }
    rewrite encode_batch_ok in E by done. by injection E as <-.
Qed.

(** ** Properties *)

(** C26: [poll_flushed] keeps its promise: when it answers [Ready(Ok)] for a
    sequence number, every frame pushed up to it, keep-alives included, has
    been written to the transport and flushed. *)
Theorem poll_flushed_sound s cx seq q' :
  0 < lim → reach s → poll_flushed (ws_q s) cx seq = (Ready (Ok ()), q') →
  ∃ later, ws_wire s ≡ₚ take (Z.to_nat seq) (ws_log s) ++ later.
Proof.
  intros Hl Hr Hp. apply wreach_inv in Hr as [Hsplit _ _ _ _ _]; [|done..].
  destruct Hsplit as (r & fl & u & Hlog & Hw & _ & _ & _ & _ & _ & Hwr).
  unfold poll_flushed in Hp. case_hyp Hp; [|case_hyp Hp; done]. zbool.
  exists (drop (Z.to_nat seq) r). rewrite Hw, Hlog, take_app_le by (unfold zlen in *; lia).
  by rewrite take_drop.
Qed.

(** Data, SYN and FIN frames reach the wire in the order they were pushed:
    those of any stream arrive as a prefix of that stream's pushes. Keep-alives
    may overtake them. *)
Theorem wire_order s (sid : Z) :
  0 < lim → reach s →
  filter (λ f, f_sid f = sid) (non_nops (ws_wire s))
    `prefix_of` filter (λ f, f_sid f = sid) (non_nops (ws_log s)).
Proof.
  intros Hl Hr. apply wreach_inv in Hr as [Hsplit _ _ _ _ _]; [|done..].
  destruct Hsplit as (r & fl & u & Hlog & _ & Hn & _).
  rewrite Hn, Hlog, !non_nops_app, !filter_app. by apply prefix_app_r.
Qed.

(** Back-pressure bounds the payload bytes queued for sending: the limit,
    plus at most one frame for each task that can be inside [poll_write] at
    once, although SYN and FIN bypass the limit. *)
Theorem queue_bounded s :
  0 < lim → reach s →
  data_bytes (ws_q s) = queued_bytes (data (ws_q s))
  ∧ data_bytes (ws_q s) < lim + Z.of_nat threads * frame_size.
Proof.
  intros Hl Hr. apply wreach_inv in Hr as [_ _ Hb _ _ Hbd]; [|done..].
  split; [done|]. nia.
Qed.

(** The writer makes progress: from a reachable state in which it waits
    and something is queued, one turn takes everything queued, and a successful
    write puts every frame ever pushed on the wire and makes [poll_flushed]
    ready for every sequence number handed out. *)
Theorem writer_drains s :
  0 < lim → frame_size ≤ MAX_FRAME_DATA → reach s → ws_phase s = Waiting →
  ctrl (ws_q s) ++ data (ws_q s) ≠ [] →
  ∃ batch woken q1 q2 out,
    writer_take (ws_q s) = (Writing batch, woken, q1)
    ∧ writer_write q1 batch None = (out, None, Waiting, q2)
    ∧ ws_wire s ++ batch ≡ₚ ws_log s
    ∧ out = concat (frame_bytes <$> batch)
    ∧ ∀ seq cx, seq ≤ pushed (ws_q s) → poll_flushed q2 cx seq = (Ready (Ok ()), q2).
Proof.
  intros Hl Hmax Hr Hph Hne. pose proof (wreach_sizes s Hr) as Hsz.
  apply wreach_inv in Hr as [Hsplit Hp _ _ _ _]; [|done..].
  destruct Hsplit as (r & fl & u & Hlog & Hw & _ & _ & Hwait & Hc & Hd & Hwr).
  rewrite (Hwait Hph) in Hlog. cbn in Hlog.
  destruct (take_batch (ws_q s)) as [[[b|] wk] q1] eqn:E; cycle 1.
  { apply take_batch_None in E as (_ & Hc0 & Hd0). by rewrite Hc0, Hd0 in Hne. }
  pose proof E as E'. apply take_batch_Some in E as (-> & _ & _ & _ & Hp1 & Hw1 & _ & _).
  assert (ctrl (ws_q s) ++ data (ws_q s) ≡ₚ u) as Hb by (rewrite Hc, Hd; apply batch_perm).
  eexists _, _, q1, _, _. unfold writer_take. rewrite E'. split; [done|].
  unfold writer_write. rewrite encode_batch_ok; cycle 1.
  { rewrite Hb. rewrite Hlog in Hsz. apply Forall_app in Hsz as [_ Hu].
    eapply Forall_impl; [exact Hu|]. intros. cbv beta in *. lia. }
  split; [reflexivity|]. split; [by rewrite Hw, Hb, Hlog|]. split; [done|].
  intros seq cx Hs. unfold poll_flushed. cbn.
  destruct (Z.leb_spec seq (written q1 + zlen (ctrl (ws_q s) ++ data (ws_q s)))) as [|Hlt]; [done|].
  exfalso. assert (zlen (ctrl (ws_q s) ++ data (ws_q s)) = zlen u) as Hz
    by (unfold zlen; by rewrite Hb).
  rewrite Hlog, zlen_app in Hp. lia.
Qed.
End History.

(** ** Witnesses: a SYN, a PSH and a keep-alive pushed, then one writer turn *)

Definition demo_syn : MuxFrame := MuxFrame_new VERSION_1 CMD_SYN 3.
Definition demo_psh : MuxFrame := MuxFrame_with_data VERSION_1 CMD_PSH 3 [1; 2].
Definition demo_nop : MuxFrame := MuxFrame_new VERSION_1 CMD_NOP 0.

Definition demo_queue : WriteQueue :=
  mkQueue [demo_nop] [demo_syn; demo_psh] 2 3 0 false [] [] true 65536.
Definition demo_pushed : wsys :=
  mkWsys demo_queue Waiting [demo_syn; demo_psh; demo_nop] [] [] 0.
Definition demo_written : wsys :=
  mkWsys (mkQueue [] [] 0 3 3 false [] [] true 65536) Waiting
    [demo_syn; demo_psh; demo_nop] [demo_nop; demo_syn; demo_psh]
    (concat (frame_bytes <$> [demo_nop; demo_syn; demo_psh])) 0.

Definition demo_q1 : WriteQueue := (force_push_data (WriteQueue_new 65536) demo_syn).2.
Definition demo_q2 : WriteQueue := (force_push_data demo_q1 demo_psh).2.
Definition demo_s1 : wsys := mkWsys demo_q1 Waiting [demo_syn] [] [] 0.
Definition demo_s2 : wsys := mkWsys demo_q1 Waiting [demo_syn] [] [] 1.
Definition demo_s3 : wsys := mkWsys demo_q2 Waiting [demo_syn; demo_psh] [] [] 0.
Definition demo_s4 : wsys :=
  mkWsys (mkQueue [] [] 0 3 0 false [] [] true 65536) (Writing [demo_nop; demo_syn; demo_psh])
    [demo_syn; demo_psh; demo_nop] [] [] 0.

Lemma demo_pushed_reach : wreach 1 32768 65536 demo_pushed.
Proof.
  refine (wreach_step _ _ _ demo_s3 _ _
    (W_keepalive _ _ demo_s3 demo_nop true demo_queue eq_refl eq_refl eq_refl)).
  refine (wreach_step _ _ _ demo_s2 _ _
    (W_push _ _ demo_s2 0 demo_psh (Ok 2) demo_q2 eq_refl eq_refl _ eq_refl)); [|done].
  refine (wreach_step _ _ _ demo_s1 _ _
    (W_reserve _ _ demo_s1 7 (Ready (Ok ())) demo_q1 _ eq_refl)); [|vm_compute; lia].
  refine (wreach_step _ _ _ (wsys_init 65536) _ (wreach_init _ _ _)
    (W_syn_fin _ _ (wsys_init 65536) demo_syn (Ok 1) demo_q1 eq_refl eq_refl eq_refl)).
Qed.

Lemma demo_written_reach : wreach 1 32768 65536 demo_written.
Proof.
  refine (wreach_step _ _ _ demo_s4 _ _
    (W_write _ _ demo_s4 _ None _ None Waiting _ 26 eq_refl eq_refl (λ _, eq_refl))).
  exact (wreach_step _ _ _ demo_pushed demo_s4 demo_pushed_reach
    (W_take _ _ demo_pushed _ [] _ eq_refl eq_refl)).
Qed.

Lemma poll_flushed_sound_witness :
  ∃ later, ws_wire demo_written ≡ₚ take 2 (ws_log demo_written) ++ later.
Proof.
  apply (poll_flushed_sound 1 32768 65536 ltac:(lia) demo_written 0 2 (ws_q demo_written)).
  - lia.
  - apply demo_written_reach.
  - reflexivity.
Defined.

Lemma wire_order_witness :
  filter (λ f, f_sid f = 3) (non_nops (ws_wire demo_written))
    `prefix_of` filter (λ f, f_sid f = 3) (non_nops (ws_log demo_written)).
Proof. apply (wire_order 1 32768 65536 ltac:(lia)); [lia|apply demo_written_reach]. Defined.

Lemma queue_bounded_witness : data_bytes (ws_q demo_pushed) < 65536 + 1 * 32768.
Proof. apply (queue_bounded 1 32768 65536 ltac:(lia)); [lia|apply demo_pushed_reach]. Defined.

Lemma writer_drains_witness :
  ∃ batch woken q1 q2 out,
    writer_take demo_queue = (Writing batch, woken, q1)
    ∧ writer_write q1 batch None = (out, None, Waiting, q2)
    ∧ [] ++ batch ≡ₚ ws_log demo_pushed
    ∧ out = concat (frame_bytes <$> batch)
    ∧ ∀ seq cx, seq ≤ 3 → poll_flushed q2 cx seq = (Ready (Ok ()), q2).
Proof.
  apply (writer_drains 1 32768 65536 ltac:(lia) demo_pushed); try done.
  apply demo_pushed_reach.
Defined.
