(* ===== verification/MuxStream.v ===== *)
(** * The receive side of one smux stream

    Models [StreamState] and [StreamShared] of src/mux.rs and the copying
    loop of [MuxStream::poll_read]. The abstract view of a stream is the byte
    string still to be read ([pending]); the chunk queue with its read offset
    refines it, which the theorem on [read_loop] states. *)

From stdpp Require Import base list option numbers.
From Stdlib Require Import ZArith Lia.
From S2P Require Import Prelude MuxFrame MuxQueue.

Record StreamState : Set := mkStream {
  chunks : list bytes;
  head : nat;
  buffered : Z;
  fin : bool;
  dead : bool;
  read_waker : option task
}.

Record StreamShared : Set := mkShared { ss_id : Z; ss_state : StreamState }.

Definition StreamState_new : StreamState := mkStream [] 0 0 false false None.
Definition StreamShared_new (id : Z) : StreamShared := mkShared id StreamState_new.

(** Each operation returns the task its [read_waker] wakes. *)
Definition push_bytes (st : StreamState) (data : bytes) : option task * StreamState :=
  (read_waker st,
   mkStream (chunks st ++ [data]) (head st) (buffered st + zlen data) (fin st) (dead st) None).

Definition set_fin (st : StreamState) : option task * StreamState :=
  (read_waker st, mkStream (chunks st) (head st) (buffered st) true (dead st) None).

Definition set_dead (st : StreamState) : option task * StreamState :=
  (read_waker st, mkStream (chunks st) (head st) (buffered st) (fin st) true None).

(** The bytes discarded, which is the credit to refund. *)
Definition recycle (st : StreamState) : Z * StreamState :=
  (buffered st, mkStream [] 0 0 (fin st) (dead st) (read_waker st)).

(** The loop of [poll_read]: [room] is [buf.remaining()]. It returns the bytes
    put into the buffer and the state with [head], [buffered] and [chunks]
    advanced. *)
Fixpoint read_loop (cs : list bytes) (hd : nat) (buf : Z) (room : nat) :
    bytes * (list bytes * nat * Z) :=
  match room with
  | O => ([], (cs, hd, buf))
  | S _ =>
      match cs with
      | [] => ([], (cs, hd, buf))
      | front :: cs' =>
          let avail := drop hd front in
          let n := (length avail `min` room)%nat in
          if (hd + n =? length front)%nat
          then
            let '(out, st) := read_loop cs' 0 (buf - Z.of_nat n) (room - n) in
            (take n avail ++ out, st)
          else (take n avail, (cs, (hd + n)%nat, buf - Z.of_nat n))
      end
  end.

Definition take_bytes (st : StreamState) (room : nat) : bytes * StreamState :=
  let '(out, (cs, hd, buf)) := read_loop (chunks st) (head st) (buffered st) room in
  (out, mkStream cs hd buf (fin st) (dead st) (read_waker st)).

Definition set_read_waker (st : StreamState) (cx : task) : StreamState :=
  mkStream (chunks st) (head st) (buffered st) (fin st) (dead st) (Some cx).

(** ** The abstract view and the invariant *)

Definition pending (st : StreamState) : bytes := drop (head st) (concat (chunks st)).

(** The read offset lies inside the front chunk, no chunk is empty, and
    [buffered] counts the unread bytes. *)
Record stream_wf (st : StreamState) : Prop := {
  sw_chunks : Forall (λ c, c ≠ []) (chunks st);
  sw_head : match chunks st with [] => head st = 0%nat | c :: _ => (head st < length c)%nat end;
  sw_buffered : buffered st = zlen (pending st)
}.

Lemma stream_wf_new : stream_wf StreamState_new.
Proof. constructor; done. Qed.

Lemma push_bytes_pending st data :
  stream_wf st → pending (push_bytes st data).2 = pending st ++ data.
Proof.
  intros [_ Hh _]. unfold pending, push_bytes; cbn. rewrite concat_app. cbn. rewrite app_nil_r.
  apply drop_app_le. destruct (chunks st) as [|c cs]; [rewrite Hh; cbn; lia|].
  cbn. rewrite length_app. lia.
Qed.

Lemma push_bytes_wf st data : data ≠ [] → stream_wf st → stream_wf (push_bytes st data).2.
Proof.
  intros Hd Hw. constructor.
  - cbn. apply Forall_app. split; [apply Hw|by constructor].
  - pose proof (sw_head st Hw) as Hh. cbn. destruct (chunks st); cbn; [|done].
    rewrite Hh. destruct data; [done|]. cbn. lia.
  - rewrite push_bytes_pending, zlen_app by done. cbn. by rewrite (sw_buffered st Hw).
Qed.

Lemma set_fin_wf st : stream_wf st → stream_wf (set_fin st).2.
Proof. intros []. by constructor. Qed.
Lemma set_dead_wf st : stream_wf st → stream_wf (set_dead st).2.
Proof. intros []. by constructor. Qed.
Lemma recycle_wf st : stream_wf (recycle st).2.
Proof. by constructor. Qed.

Lemma set_read_waker_wf st cx : stream_wf st → stream_wf (set_read_waker st cx).
Proof. intros []. by constructor. Qed.

#[export] Hint Resolve set_read_waker_wf stream_wf_new push_bytes_wf set_fin_wf set_dead_wf recycle_wf : rt.

Lemma drop_take_zlen (l : bytes) n : zlen (drop n l) = zlen l - Z.of_nat (n `min` length l).
Proof. unfold zlen. rewrite length_drop. lia. Qed.

(** The loop takes [room] bytes off the front of the unread string. *)
Lemma read_loop_spec cs hd buf room :
  Forall (λ c, c ≠ []) cs →
  match cs with [] => hd = 0%nat | c :: _ => (hd < length c)%nat end →
  ∃ cs' hd' , read_loop cs hd buf room =
    (take room (drop hd (concat cs)),
     (cs', hd', buf - Z.of_nat (room `min` length (drop hd (concat cs)))))
  ∧ drop hd' (concat cs') = drop room (drop hd (concat cs))
  ∧ Forall (λ c, c ≠ []) cs'
  ∧ match cs' with [] => hd' = 0%nat | c :: _ => (hd' < length c)%nat end.
Proof.
  revert hd buf room. induction cs as [|front cs IH]; intros hd buf room Hne Hh.
  { exists [], hd. subst. destruct room; cbn; rewrite ?Z.sub_0_r; done. }
  apply Forall_cons_1 in Hne as [Hf Hne]. destruct room as [|room].
  { exists (front :: cs), hd. cbn [read_loop take]. rewrite drop_0, Nat.min_0_l.
    replace (buf - Z.of_nat 0) with buf by lia. repeat split; try done. by constructor. }
  cbn [read_loop]. set (R := S room) in *. set (n := (length (drop hd front) `min` R)%nat).
  assert (drop hd (concat (front :: cs)) = drop hd front ++ concat cs) as Ec
    by (cbn; apply drop_app_le; lia).
  rewrite Ec. destruct (Nat.eqb_spec (hd + n) (length front)) as [E|E].
  - assert (n = length (drop hd front)) as En by (rewrite length_drop; lia).
    assert (length (drop hd front) ≤ R)%nat as HR by (unfold n in En; lia).
    assert (match cs with [] => 0%nat = 0%nat | c :: _ => (0 < length c)%nat end) as Hh'.
    { destruct cs as [|c cs]; [done|]. apply Forall_cons_1 in Hne as [Hc _].
      destruct c; [done|cbn; lia]. }
    destruct (IH 0%nat (buf - Z.of_nat n) (R - n)%nat Hne Hh') as (cs' & hd' & Eq & Hp & H1 & H2).
    rewrite drop_0 in *. exists cs', hd'. rewrite Eq. repeat split; try done.
    + f_equal; [|f_equal].
      * rewrite take_app, En. rewrite firstn_all, (take_ge (drop hd front)) by lia. done.
      * rewrite length_app. lia.
    + rewrite Hp, drop_app, (drop_ge (drop hd front)) by lia. by rewrite En.
  - assert (n = R ∧ (R < length (drop hd front))%nat) as [-> HR]
      by (unfold n in *; rewrite length_drop in *; lia).
    exists (front :: cs), (hd + R)%nat. repeat split.
    + f_equal; [|f_equal].
      * by rewrite take_app_le by lia.
      * rewrite length_app. lia.
    + rewrite <-drop_drop, Ec. done.
    + by constructor.
    + rewrite length_drop in HR. lia.
Qed.

Lemma take_bytes_spec st room :
  stream_wf st →
  (take_bytes st room).1 = take room (pending st)
  ∧ pending (take_bytes st room).2 = drop room (pending st)
  ∧ stream_wf (take_bytes st room).2
  ∧ fin (take_bytes st room).2 = fin st
  ∧ dead (take_bytes st room).2 = dead st.
Proof.
  intros [Hc Hh Hb]. unfold take_bytes.
  destruct (read_loop_spec (chunks st) (head st) (buffered st) room Hc Hh)
    as (cs & hd & -> & Hp & Hne & Hhd). cbn [fst snd].
  repeat split; try done.
  change (buffered st - Z.of_nat (room `min` length (pending st)) = zlen (drop hd (concat cs))).
  rewrite Hp, Hb. unfold zlen. rewrite length_drop. unfold pending. lia.
Qed.

Lemma take_bytes_buffered st room :
  stream_wf st → buffered (take_bytes st room).2 = buffered st - zlen (take_bytes st room).1.
Proof.
  intros Hw. destruct (take_bytes_spec st room Hw) as (-> & Hp & Hw' & _).
  rewrite (sw_buffered _ Hw'), (sw_buffered _ Hw), Hp. unfold zlen.
  rewrite length_drop, length_take. lia.
Qed.
