(* ===== verification/MuxSession.v ===== *)
(** * A smux session

    Models [SessionShared], [MuxSession], [MuxStream] and the background tasks
    [reader_task], [deliver_accept] and [keepalive_task] of src/mux.rs. The
    [Arc<StreamShared>] shared by the session's table and a stream handle is a
    location of [heap]; a [MuxStream] holds its location, the table maps stream
    ids to locations. Wakers of a stream are not followed here: they are in
    MuxStream. *)

From stdpp Require Import base list option numbers gmap strings pretty.
From Stdlib Require Import ZArith Lia.
From S2P Require Import Prelude MuxFrame MuxQueue MuxStream.

Abbreviation loc := nat.

(** ** Stream handles *)

Record MuxStream : Set := mkMuxStream {
  ms_id : Z;
  ms_loc : loc;
  ms_version : Z;
  ms_frame_size : Z;
  ms_last_push : Z;
  ms_fin_sent : bool
}.

#[export] Instance MuxStream_eq_dec : EqDecision MuxStream.
Proof. solve_decision. Defined.

(** ** Session state *)

Record Session : Type := mkSession {
  config : MuxConfig;
  streams : gmap Z loc;
  heap : gmap loc StreamShared;
  fresh_loc : loc;
  next_stream_id : Z;
  go_away : bool;
  closed : bool;
  error_slot : option io_error;
  bucket : Z;
  bucket_permit : bool;  (* the permit of [bucket_notify: Notify] *)
  data_ready : bool;
  queue : WriteQueue;
  accept : list MuxStream;   (* the [mpsc] channel of accepted streams *)
  accept_closed : bool       (* its receiver was dropped *)
}.

(** Field updates. *)
Definition set_table (s : Session) (m : gmap Z loc) (h : gmap loc StreamShared) (n : loc) : Session :=
  mkSession (config s) m h n (next_stream_id s) (go_away s) (closed s) (error_slot s)
    (bucket s) (bucket_permit s) (data_ready s) (queue s) (accept s) (accept_closed s).
Definition set_ids (s : Session) (n : Z) (ga : bool) : Session :=
  mkSession (config s) (streams s) (heap s) (fresh_loc s) n ga (closed s) (error_slot s)
    (bucket s) (bucket_permit s) (data_ready s) (queue s) (accept s) (accept_closed s).
Definition set_life (s : Session) (c : bool) (e : option io_error) : Session :=
  mkSession (config s) (streams s) (heap s) (fresh_loc s) (next_stream_id s) (go_away s) c e
    (bucket s) (bucket_permit s) (data_ready s) (queue s) (accept s) (accept_closed s).
Definition set_bucket (s : Session) (b : Z) (p : bool) : Session :=
  mkSession (config s) (streams s) (heap s) (fresh_loc s) (next_stream_id s) (go_away s) (closed s)
    (error_slot s) b p (data_ready s) (queue s) (accept s) (accept_closed s).
Definition set_data_ready (s : Session) (b : bool) : Session :=
  mkSession (config s) (streams s) (heap s) (fresh_loc s) (next_stream_id s) (go_away s) (closed s)
    (error_slot s) (bucket s) (bucket_permit s) b (queue s) (accept s) (accept_closed s).
Definition set_queue (s : Session) (q : WriteQueue) : Session :=
  mkSession (config s) (streams s) (heap s) (fresh_loc s) (next_stream_id s) (go_away s) (closed s)
    (error_slot s) (bucket s) (bucket_permit s) (data_ready s) q (accept s) (accept_closed s).
Definition set_accept (s : Session) (l : list MuxStream) (c : bool) : Session :=
  mkSession (config s) (streams s) (heap s) (fresh_loc s) (next_stream_id s) (go_away s) (closed s)
    (error_slot s) (bucket s) (bucket_permit s) (data_ready s) (queue s) l c.

(** The state behind a handle's [Arc]. *)
#[export] Instance StreamShared_inhabited : Inhabited StreamShared :=
  populate (StreamShared_new 0).
Definition stream_at (s : Session) (l : loc) : StreamState := ss_state (heap s !!! l).
Definition with_state (sh : StreamShared) (st : StreamState) : StreamShared :=
  mkShared (ss_id sh) st.
Definition set_stream (s : Session) (l : loc) (st : StreamState) : Session :=
  set_table s (streams s) (alter (λ sh, with_state sh st) l (heap s)) (fresh_loc s).

(** ** [SessionShared] *)

Definition session_error (s : Session) : io_error := default closed_err (error_slot s).

Definition spend_tokens (s : Session) (n : Z) : Session :=
  set_bucket s (bucket s - n) (bucket_permit s).

Definition return_tokens (s : Session) (n : Z) : Session :=
  if n =? 0 then s
  else set_bucket s (bucket s + n)
         (if (bucket s <=? 0) && (0 <? bucket s + n) then true else bucket_permit s).

Definition kill (ls : list loc) (h : gmap loc StreamShared) : gmap loc StreamShared :=
  map_imap (λ l sh, Some (if bool_decide (l ∈ ls)
                          then with_state sh (set_dead (ss_state sh)).2 else sh)) h.

Definition fail (s : Session) (err : io_error) : Session :=
  let slot := match error_slot s with None => Some err | Some e => Some e end in
  if closed s then set_life s true slot
  else
    let s1 := set_life s true slot in
    let s2 := set_queue s1 (close (queue s1)).2 in
    let s3 := set_table s2 ∅ (kill (map_to_list (streams s2)).*2 (heap s2)) (fresh_loc s2) in
    set_bucket s3 (bucket s3) true.

Definition id_overflow : io_error := IoError Other "smux: stream id overflow, no more streams".

Definition next_id (s : Session) : result io_error Z * Session :=
  if go_away s then (Err id_overflow, s)
  else
    let sid := u32 (next_stream_id s + 2) in
    if sid =? sid mod 2 then (Err id_overflow, set_ids s sid true)
    else (Ok sid, set_ids s sid (go_away s)).

Definition remove_stream (s : Session) (sid : Z) : option loc * Session :=
  (streams s !! sid, set_table s (delete sid (streams s)) (heap s) (fresh_loc s)).

(** ** [MuxSession] *)

Definition session_init (c : MuxConfig) (is_client : bool) : Session :=
  mkSession c ∅ ∅ 0 (if is_client then 1 else 0) false false None (max_receive_buffer c) false
    false (WriteQueue_new (send_queue_limit c)) [] false.

Definition MuxSession_new (c : MuxConfig) (is_client : bool) : result io_error Session :=
  _ <-? verify c ;; Ok (session_init c is_client).

Definition MuxStream_new (s : Session) (id : Z) (l : loc) (last_push : Z) : MuxStream :=
  mkMuxStream id l (version (config s)) (max_frame_size (config s)) last_push false.

(** [Arc::new(StreamShared::new(sid))] inserted in the table. *)
Definition alloc_stream (s : Session) (sid : Z) : loc * Session :=
  (fresh_loc s,
   set_table s (<[sid := fresh_loc s]> (streams s))
     (<[fresh_loc s := StreamShared_new sid]> (heap s)) (S (fresh_loc s))).

Definition free_loc (s : Session) (l : loc) : Session :=
  set_table s (streams s) (delete l (heap s)) (fresh_loc s).

Definition open_stream (s : Session) : result io_error MuxStream * Session :=
  if closed s then (Err (session_error s), s)
  else
    match next_id s with
    | (Err e, s1) => (Err e, s1)
    | (Ok sid, s1) =>
        let '(l, s2) := alloc_stream s1 sid in
        match force_push_data (queue s2) (MuxFrame_new (version (config s2)) CMD_SYN sid) with
        | (Ok seq, q) => (Ok (MuxStream_new s2 sid l seq), set_queue s2 q)
        | (Err e, q) =>
            let '(_, s3) := remove_stream (set_queue s2 q) sid in (Err e, free_loc s3 l)
        end
    end.

(** [None]: the caller waits. [sender]: the reader task, which owns the sending
    end, has not returned. *)
Definition accept_stream (sender : bool) (s : Session) : option (option MuxStream * Session) :=
  match accept s with
  | h :: rest => Some (Some h, set_accept s rest (accept_closed s))
  | [] => if sender then None else Some (None, s)
  end.

Definition num_streams (s : Session) : nat := size (streams s).

Definition session_close (s : Session) : Session := fail s closed_err.

(** ** [MuxStream] *)

Definition stream_is_closed (s : Session) (h : MuxStream) : bool :=
  let st := stream_at s (ms_loc h) in fin st || dead st || closed s.

Definition with_push (h : MuxStream) (seq : Z) : MuxStream :=
  mkMuxStream (ms_id h) (ms_loc h) (ms_version h) (ms_frame_size h) seq (ms_fin_sent h).
Definition with_fin (h : MuxStream) : MuxStream :=
  mkMuxStream (ms_id h) (ms_loc h) (ms_version h) (ms_frame_size h) (ms_last_push h) true.

Definition send_fin (s : Session) (h : MuxStream) : MuxStream * Session :=
  if ms_fin_sent h then (h, s)
  else
    let h1 := with_fin h in
    match force_push_data (queue s) (MuxFrame_new (ms_version h) CMD_FIN (ms_id h)) with
    | (Ok seq, q) => (with_push h1 seq, set_queue s q)
    | (Err _, q) => (h1, set_queue s q)
    end.

(** The bytes put into the caller's buffer, whose [remaining()] is [room]. *)
Definition poll_read (s : Session) (h : MuxStream) (cx : task) (room : nat) :
    poll (result io_error bytes) * Session :=
  if (room =? 0)%nat then (Ready (Ok []), s)
  else
    let '(out, st1) := take_bytes (stream_at s (ms_loc h)) room in
    let s1 := set_stream s (ms_loc h) st1 in
    if (0 <? length out)%nat then (Ready (Ok out), return_tokens s1 (zlen out))
    else if fin st1 then (Ready (Ok []), s1)
    else if dead st1 || closed s1 then (Ready (Err (session_error s1)), s1)
    else (Pending, set_stream s1 (ms_loc h) (set_read_waker st1 cx)).

Definition closed_for_writing : io_error :=
  IoError BrokenPipe "smux: stream is closed for writing".

Definition poll_write (s : Session) (h : MuxStream) (cx : task) (buf : bytes) :
    poll (result io_error Z) * MuxStream * Session :=
  match buf with
  | [] => (Ready (Ok 0), h, s)
  | _ =>
      if ms_fin_sent h then (Ready (Err closed_for_writing), h, s)
      else if closed s then (Ready (Err (session_error s)), h, s)
      else if dead (stream_at s (ms_loc h)) then (Ready (Err (session_error s)), h, s)
      else
        match poll_reserve (queue s) cx with
        | (Pending, q) => (Pending, h, set_queue s q)
        | (Ready (Err e), q) => (Ready (Err e), h, set_queue s q)
        | (Ready (Ok _), q) =>
            let n := Z.min (zlen buf) (ms_frame_size h) in
            let frame := MuxFrame_with_data (ms_version h) CMD_PSH (ms_id h)
                           (take (Z.to_nat n) buf) in
            match force_push_data q frame with
            | (Ok seq, q') => (Ready (Ok n), with_push h seq, set_queue s q')
            | (Err e, q') => (Ready (Err e), h, set_queue s q')
            end
        end
  end.

Definition poll_flush (s : Session) (h : MuxStream) (cx : task) :
    poll (result io_error ()) * Session :=
  let '(r, q) := poll_flushed (queue s) cx (ms_last_push h) in (r, set_queue s q).

Definition poll_shutdown (s : Session) (h : MuxStream) (cx : task) :
    poll (result io_error ()) * MuxStream * Session :=
  if negb (ms_fin_sent h) && closed s then (Ready (Ok ()), with_fin h, s)
  else
    let '(h1, s1) := if ms_fin_sent h then (h, s) else send_fin s h in
    match poll_flushed (queue s1) cx (ms_last_push h1) with
    | (Ready (Err _), q) => (Ready (Ok ()), h1, set_queue s1 q)
    | (other, q) => (other, h1, set_queue s1 q)
    end.

(** [Drop for MuxStream]; the handle's [Arc] goes away with it. *)
Definition drop_stream (s : Session) (h : MuxStream) : Session :=
  let '(_, s1) := send_fin s h in
  match remove_stream s1 (ms_id h) with
  | (Some _, s2) =>
      let '(refund, st) := recycle (stream_at s2 (ms_loc h)) in
      free_loc (return_tokens (set_stream s2 (ms_loc h) st) refund) (ms_loc h)
  | (None, s2) => free_loc s2 (ms_loc h)
  end.

(** ** [reader_task] and [deliver_accept] *)

Inductive reader_phase : Set :=
| RReading                    (* at the top of the loop *)
| RParked                     (* in [bucket_notify.notified()] *)
| RDelivering (h : MuxStream)   (* in [deliver_accept] *)
| RHalted.                    (* returned *)

(** The [while shared.bucket.load() <= 0] test; [None]: the reader goes on. *)
Definition reader_gate (s : Session) : option reader_phase :=
  if bucket s <=? 0 then Some (if closed s then RHalted else RParked) else None.

(** Woken from [notified()]: the permit is consumed and [closed] looked at
    again. *)
Definition reader_wake (s : Session) : reader_phase * Session :=
  (if closed s then RHalted else RReading, set_bucket s (bucket s) false).

Definition early_eof : io_error := IoError UnexpectedEof "early eof".
Definition bad_version (v : Z) : io_error :=
  IoError InvalidData ("smux: invalid protocol version " +:+ pretty v).

(** A PSH payload for a stream found in the table. *)
Definition deliver_bytes (s : Session) (l : loc) (payload : bytes) : Session :=
  let s1 := spend_tokens s (zlen payload) in
  set_stream s1 l (push_bytes (stream_at s1 l) payload).2.

(** One iteration past the gate. [input] is what the transport still delivers
    before end of file; the result has the rest of it. *)
Definition reader_frame (s : Session) (input : bytes) : reader_phase * bytes * Session :=
  if (length input <? HEADER_SIZE)%nat then (RHalted, [], fail s early_eof)
  else
    let hdr := MuxHeader_decode (take HEADER_SIZE input) in
    let rest := drop HEADER_SIZE input in
    let s := set_data_ready s true in
    if negb (h_version hdr =? version (config s)) then
      (RHalted, rest, fail s (bad_version (h_version hdr)))
    else if h_cmd hdr =? CMD_NOP then (RReading, rest, s)
    else if h_cmd hdr =? CMD_SYN then
      match streams s !! h_sid hdr with
      | Some _ => (RReading, rest, s)
      | None =>
          let '(l, s1) := alloc_stream s (h_sid hdr) in
          (RDelivering (MuxStream_new s1 (h_sid hdr) l 0), rest, s1)
      end
    else if h_cmd hdr =? CMD_FIN then
      match streams s !! h_sid hdr with
      | Some l => (RReading, rest, set_stream s l (set_fin (stream_at s l)).2)
      | None => (RReading, rest, s)
      end
    else if h_cmd hdr =? CMD_PSH then
      let len := Z.to_nat (h_length hdr) in
      if (len =? 0)%nat then (RReading, rest, s)
      else if (length rest <? len)%nat then (RHalted, [], fail s early_eof)
      else
        let payload := take len rest in
        match streams s !! h_sid hdr with
        | Some l => (RReading, drop len rest, deliver_bytes s l payload)
        | None => (RReading, drop len rest, s)
        end
    else if h_cmd hdr =? CMD_UPD then
      if (length rest <? UPD_SIZE)%nat then (RHalted, [], fail s early_eof)
      else (RReading, drop UPD_SIZE rest, s)
    else (RHalted, rest, fail s (unknown_command (h_cmd hdr))).

(** One [try_send]; on a full channel the loop sleeps and tries again. *)
Definition deliver_accept (s : Session) (h : MuxStream) : reader_phase * Session :=
  if accept_closed s then (RHalted, drop_stream s h)
  else if zlen (accept s) <? DEFAULT_ACCEPT_BACKLOG
  then (RReading, set_accept s (accept s ++ [h]) (accept_closed s))
  else if closed s then (RHalted, drop_stream s h)
  else (RDelivering h, s).

(** The whole task on a finite input, stopping where it waits: parked for
    credit, or for room in the accept channel. A frame takes at most two turns
    and eight bytes, so [S (length input)] turns of each kind are enough. *)
Fixpoint reader_run (fuel : nat) (p : reader_phase) (s : Session) (input : bytes) :
    reader_phase * bytes * Session :=
  match fuel with
  | O => (p, input, s)
  | S fuel =>
      match p with
      | RReading =>
          match reader_gate s with
          | Some p' => (p', input, s)
          | None => let '(p', rest, s') := reader_frame s input in reader_run fuel p' s' rest
          end
      | RDelivering h =>
          match deliver_accept s h with
          | (RDelivering h', s') => (RDelivering h', input, s')
          | (p', s') => reader_run fuel p' s' input
          end
      | RParked | RHalted => (p, input, s)
      end
  end.

Definition reader_task (s : Session) (input : bytes) : reader_phase * bytes * Session :=
  reader_run (S (2 * length input)) RReading s input.

(** ** [keepalive_task]: one arm of the [select!] each, and whether the loop
    goes on. *)

Definition ping_tick (s : Session) : bool * Session :=
  match push_ctrl (queue s) (MuxFrame_new (version (config s)) CMD_NOP 0) with
  | (false, q) => (false, set_queue s q)
  | (true, q) =>
      let s1 := set_queue s q in
      let s2 := set_bucket s1 (bucket s1) true in
      (negb (closed s2), s2)
  end.

Definition keepalive_timeout_err : io_error := IoError TimedOut "smux: keepalive timeout".

Definition deadline_tick (s : Session) : bool * Session :=
  let s1 := set_data_ready s false in
  if negb (data_ready s) && (0 <? bucket s1)
  then (false, fail s1 keepalive_timeout_err)
  else (negb (closed s1), s1).

#[global] Arguments fail : simpl never.
#[global] Arguments drop_stream : simpl never.
#[global] Arguments return_tokens : simpl never.
