(* ===== verification/MuxCredit.v ===== *)
(** * Receive credit of a smux session

    The transition system of a session: the reader task, the keep-alive task
    and the application's calls interleave. The invariant accounts for the
    receive credit: what the bucket has lost is exactly what sits unread in
    the streams. It holds for a peer that opens streams with ids of its own
    parity, and for a reader whose table lookup and delivery of a PSH payload
    are not separated by the drop of that stream; [psh_race_leaks] shows what
    happens when they are. *)

From stdpp Require Import base list option numbers gmap strings.
From Stdlib Require Import ZArith Lia.
From S2P Require Import Prelude MuxFrame MuxQueue MuxStream MuxSession.

(** ** Unread bytes of all streams *)

Definition total_buffered (h : gmap loc StreamShared) : Z :=
  map_fold (λ _ sh acc, buffered (ss_state sh) + acc) 0 h.

Lemma total_insert h l sh :
  h !! l = None → total_buffered (<[l := sh]> h) = buffered (ss_state sh) + total_buffered h.
Proof. intros. unfold total_buffered. rewrite map_fold_insert_L; try done. intros. lia. Qed.

Lemma total_delete h l sh :
  h !! l = Some sh → total_buffered h = buffered (ss_state sh) + total_buffered (delete l h).
Proof. intros. unfold total_buffered. rewrite (map_fold_delete_L _ _ l sh h); try done. intros. lia. Qed.

Lemma total_alter h l f sh :
  h !! l = Some sh →
  total_buffered (alter f l h) =
    total_buffered h - buffered (ss_state sh) + buffered (ss_state (f sh)).
Proof.
  intros H. rewrite (total_delete h l sh H).
  rewrite (total_delete (alter f l h) l (f sh)) by (by rewrite lookup_alter_eq, H).
  rewrite delete_alter_eq. lia.
Qed.

Lemma total_nonneg h :
  (∀ l sh, h !! l = Some sh → 0 ≤ buffered (ss_state sh)) → 0 ≤ total_buffered h.
Proof.
  induction h as [|l sh h Hl IH] using map_ind; intros H; [done|].
  rewrite total_insert by done.
  assert (0 ≤ buffered (ss_state sh)) by (apply (H l); by rewrite lookup_insert_eq).
  assert (0 ≤ total_buffered h); [|lia]. apply IH. intros l' sh' Hl'. apply (H l').
  rewrite lookup_insert_ne; [done|]. congruence.
Qed.

(** ** The invariant *)

(** Own stream ids have this parity. *)
Definition parity (is_client : bool) : Z := if is_client then 1 else 0.

Record table_inv (s : Session) : Prop := {
  ti_table : ∀ sid l, streams s !! sid = Some l ↔
    ∃ sh, heap s !! l = Some sh ∧ ss_id sh = sid;
  ti_fresh : ∀ l sh, heap s !! l = Some sh → (l < fresh_loc s)%nat;
  ti_wf : ∀ l sh, heap s !! l = Some sh → stream_wf (ss_state sh)
}.

Record session_inv (is_client : bool) (s : Session) : Prop := {
  si_table : table_inv s;
  si_credit : bucket s + total_buffered (heap s) = max_receive_buffer (config s);
  si_floor : - u16_max < bucket s;
  si_ids : 0 ≤ next_stream_id s < 2 ^ 32 ∧ next_stream_id s mod 2 = parity is_client;
  si_own : go_away s = false →
    ∀ sid l, streams s !! sid = Some l → sid mod 2 = parity is_client → sid ≤ next_stream_id s
}.

(** A handle whose [Arc] is allocated, for the stream it names. *)
Definition handle_ok (s : Session) (h : MuxStream) : Prop :=
  ∃ sh, heap s !! ms_loc h = Some sh ∧ ss_id sh = ms_id h.

(** ** The transition system

    [m_app] are the handles the application holds. A step of the application
    uses one of them. *)

Record msys : Type := mkMsys {
  m_s : Session;
  m_reader : reader_phase;
  m_app : list MuxStream
}.

(** Every handle in the system. *)
Definition delivering (p : reader_phase) : list MuxStream :=
  match p with RDelivering h => [h] | _ => [] end.
Definition owned (m : msys) : list MuxStream :=
  delivering (m_reader m) ++ accept (m_s m) ++ m_app m.

Section Steps.
Context (is_client : bool).

(** The next frame is not a SYN for one of our own ids. *)
Definition peer_conforms (input : bytes) : Prop :=
  let hdr := MuxHeader_decode (take HEADER_SIZE input) in
  h_cmd hdr = CMD_SYN → h_sid hdr mod 2 ≠ parity is_client.

Inductive mstep : msys → msys → Prop :=
| M_gate m p :
    m_reader m = RReading → reader_gate (m_s m) = Some p →
    mstep m (mkMsys (m_s m) p (m_app m))
| M_wake m p s' :
    m_reader m = RParked → bucket_permit (m_s m) = true → reader_wake (m_s m) = (p, s') →
    mstep m (mkMsys s' p (m_app m))
| M_frame m input p rest s' :
    m_reader m = RReading → reader_gate (m_s m) = None →
    is_bytes input → peer_conforms input →
    reader_frame (m_s m) input = (p, rest, s') →
    mstep m (mkMsys s' p (m_app m))
| M_deliver m h p s' :
    m_reader m = RDelivering h → deliver_accept (m_s m) h = (p, s') →
    mstep m (mkMsys s' p (m_app m))
| M_accept m sender h s' :
    accept_stream sender (m_s m) = Some (Some h, s') →
    mstep m (mkMsys s' (m_reader m) (h :: m_app m))
| M_open m r s' :
    open_stream (m_s m) = (r, s') →
    mstep m (mkMsys s' (m_reader m) (match r with Ok h => h :: m_app m | Err _ => m_app m end))
| M_read m h cx room r s' :
    h ∈ m_app m → poll_read (m_s m) h cx room = (r, s') →
    mstep m (mkMsys s' (m_reader m) (m_app m))
| M_write m h rest cx buf r h' s' :
    m_app m ≡ₚ h :: rest → poll_write (m_s m) h cx buf = (r, h', s') →
    mstep m (mkMsys s' (m_reader m) (h' :: rest))
| M_flush m h cx r s' :
    h ∈ m_app m → poll_flush (m_s m) h cx = (r, s') →
    mstep m (mkMsys s' (m_reader m) (m_app m))
| M_shutdown m h rest cx r h' s' :
    m_app m ≡ₚ h :: rest → poll_shutdown (m_s m) h cx = (r, h', s') →
    mstep m (mkMsys s' (m_reader m) (h' :: rest))
| M_drop m h rest :
    m_app m ≡ₚ h :: rest →
    mstep m (mkMsys (drop_stream (m_s m) h) (m_reader m) rest)
| M_ping m b s' :
    ping_tick (m_s m) = (b, s') → mstep m (mkMsys s' (m_reader m) (m_app m))
| M_deadline m b s' :
    deadline_tick (m_s m) = (b, s') → mstep m (mkMsys s' (m_reader m) (m_app m))
| M_writer m q' :  (* the writer task changes only the queue, or fails *)
    mstep m (mkMsys (set_queue (m_s m) q') (m_reader m) (m_app m))
| M_fail m e :
    mstep m (mkMsys (fail (m_s m) e) (m_reader m) (m_app m)).

Inductive mreach (c : MuxConfig) : msys → Prop :=
| mreach_init : mreach c (mkMsys (session_init c is_client) RReading [])
| mreach_step m m' : mreach c m → mstep m m' → mreach c m'.

(** While the session is open the table is exact and every handle is live;
    handles are never shared. *)
Record msys_inv (m : msys) : Prop := {
  mi_session : session_inv is_client (m_s m);
  mi_owned : Forall (handle_ok (m_s m)) (owned m);
  mi_nodup : NoDup (ms_loc <$> owned m)
}.

(** A parked reader without a permit has nothing to do. *)
Definition wakeup_inv (m : msys) : Prop :=
  m_reader m = RParked → bucket_permit (m_s m) = false →
  bucket (m_s m) ≤ 0 ∧ closed (m_s m) = false.
End Steps.

(** ** Steps that leave the table, the credit and the ids alone *)

Record same_core (s s' : Session) : Prop := {
  sc_config : config s' = config s;
  sc_streams : streams s' = streams s;
  sc_heap : heap s' = heap s;
  sc_fresh : fresh_loc s' = fresh_loc s;
  sc_next : next_stream_id s' = next_stream_id s;
  sc_away : go_away s' = go_away s;
  sc_bucket : bucket s' = bucket s
}.

#[export] Instance same_core_preorder : PreOrder same_core.
Proof. split; [by constructor|]. intros a b c [] []. constructor; congruence. Qed.

Lemma same_core_inv ic s s' : same_core s s' → session_inv ic s → session_inv ic s'.
Proof.
  intros [E1 E2 E3 E4 E5 E6 E7] [[] ? ? ? ?]. constructor; [constructor|..];
    rewrite ?E1, ?E2, ?E3, ?E4, ?E5, ?E6, ?E7; done.
Qed.

Lemma same_core_handle s s' h : same_core s s' → handle_ok s h → handle_ok s' h.
Proof. intros [? ? E ? ? ? ?]. unfold handle_ok. by rewrite E. Qed.

Lemma core_queue s q : same_core s (set_queue s q).
Proof. by constructor. Qed.
Lemma core_accept s l c : same_core s (set_accept s l c).
Proof. by constructor. Qed.
Lemma core_data_ready s b : same_core s (set_data_ready s b).
Proof. by constructor. Qed.
Lemma core_permit s p : same_core s (set_bucket s (bucket s) p).
Proof. by constructor. Qed.
#[export] Hint Resolve core_queue core_accept core_data_ready core_permit : rt.

Lemma core_send_fin s h : same_core s (send_fin s h).2.
Proof. unfold send_fin. repeat case_goal; cbn; auto with rt; reflexivity. Qed.

Lemma send_fin_loc s h :
  ms_loc (send_fin s h).1 = ms_loc h ∧ ms_id (send_fin s h).1 = ms_id h.
Proof. unfold send_fin. repeat case_goal; done. Qed.

(** ** Table operations *)

Lemma set_stream_heap s l st sh :
  heap s !! l = Some sh → heap (set_stream s l st) = <[l := with_state sh st]> (heap s).
Proof.
  intros H. cbn. apply map_eq. intros i. rewrite lookup_alter, lookup_insert.
  case_decide; [|done]. subst. by rewrite H.
Qed.

Lemma stream_at_lookup s l sh : heap s !! l = Some sh → stream_at s l = ss_state sh.
Proof. intros H. unfold stream_at. by rewrite lookup_total_alt, H. Qed.

Lemma set_stream_handle s l st h : handle_ok s h → handle_ok (set_stream s l st) h.
Proof.
  intros (sh & H & Hid). unfold handle_ok. cbn. rewrite lookup_alter.
  case_decide; [|by eauto]. subst l. rewrite H. by exists (with_state sh st).
Qed.

Lemma set_stream_table s l st : stream_wf st → table_inv s → table_inv (set_stream s l st).
Proof.
  intros Hst [Ht Hf Hw]. constructor; cbn.
  - intros sid l'. rewrite Ht. rewrite lookup_alter. case_decide; [|done]. subst l'.
    split; [intros (sh & H & Hid); rewrite H; by exists (with_state sh st)|].
    intros (sh & H & Hid). destruct (heap s !! l) as [sh0|] eqn:E; [|done].
    simplify_eq/=. by exists sh0.
  - intros l' sh. rewrite lookup_alter. case_decide; [subst l'|by apply Hf].
    destruct (heap s !! l) as [sh0|] eqn:E; [|done]. intros _. by eapply Hf.
  - intros l' sh. rewrite lookup_alter. case_decide; [subst l'|by apply Hw].
    destruct (heap s !! l) as [sh0|] eqn:E; [|done]. intros [= <-]. done.
Qed.

Lemma alloc_table s sid :
  streams s !! sid = None → table_inv s → table_inv (alloc_stream s sid).2.
Proof.
  intros Hsid [Ht Hf Hw].
  assert (heap s !! fresh_loc s = None) as Hn.
  { destruct (heap s !! fresh_loc s) eqn:E; [|done]. apply Hf in E. lia. }
  constructor; cbn.
  - intros sid' l'. rewrite !lookup_insert. repeat case_decide; simplify_eq/=.
    + split; [by eexists|done].
    + split; [congruence|]. intros (sh & Hx & Hid).
      assert (streams s !! sid' = Some l') by (apply Ht; eauto). congruence.
    + split; [|intros (sh & [= <-] & Hid); done].
      intros (sh & Hx & _)%Ht. congruence.
    + apply Ht.
  - intros l' sh. rewrite lookup_insert. case_decide; [lia|]. intros Hx%Hf. lia.
  - intros l' sh. rewrite lookup_insert. case_decide; [|by apply Hw].
    intros [= <-]. apply stream_wf_new.
Qed.

Lemma alloc_handle s sid h :
  table_inv s → handle_ok s h →
  handle_ok (alloc_stream s sid).2 h ∧ ms_loc h ≠ fresh_loc s.
Proof.
  intros [_ Hf _] (sh & H & Hid). pose proof (Hf _ _ H). split; [|lia].
  exists sh. cbn. rewrite lookup_insert_ne by lia. done.
Qed.

Lemma alloc_credit s sid :
  table_inv s → total_buffered (heap (alloc_stream s sid).2) = total_buffered (heap s).
Proof.
  intros [_ Hf _]. cbn. rewrite total_insert; [done|].
  destruct (heap s !! fresh_loc s) eqn:E; [|done]. apply Hf in E. lia.
Qed.

Lemma handle_table s h : table_inv s → handle_ok s h → streams s !! ms_id h = Some (ms_loc h).
Proof. intros [Ht _ _] H. by apply Ht. Qed.

Lemma free_table s h :
  table_inv s → handle_ok s h →
  table_inv (free_loc (remove_stream s (ms_id h)).2 (ms_loc h)).
Proof.
  intros Hti Hh. pose proof (handle_table _ _ Hti Hh) as Hs. destruct Hti as [Ht Hf Hw].
  destruct Hh as (sh & Hl & Hid).
  constructor; cbn.
  - intros sid l. rewrite !lookup_delete. repeat case_decide; subst; try done.
    + split; [done|]. intros (? & ? & _). done.
    + split; [done|]. intros (sh' & H' & Hid').
      assert (streams s !! ms_id h = Some l) by (apply Ht; eauto). congruence.
    + split; [|intros (? & ? & _); done]. intros (sh' & H' & Hid')%Ht. congruence.
  - intros l sh'. rewrite lookup_delete. case_decide; [done|]. apply Hf.
  - intros l sh'. rewrite lookup_delete. case_decide; [done|]. apply Hw.
Qed.

Lemma return_tokens_bucket s n : bucket (return_tokens s n) = bucket s + n.
Proof. unfold return_tokens. case_goal; [zbool; lia|done]. Qed.

(** [return_tokens] changes the credit and nothing else of the core. *)
Lemma return_tokens_core s n :
  same_core (set_bucket s (bucket s + n) (bucket_permit s)) (return_tokens s n).
Proof.
  unfold return_tokens. case_goal; [|by constructor]. zbool. subst.
  constructor; cbn; try done. lia.
Qed.

(** ** Dropping a stream refunds what it had not read *)

Lemma drop_stream_core s h :
  table_inv s → handle_ok s h →
  ∃ sh, heap s !! ms_loc h = Some sh
  ∧ config (drop_stream s h) = config s
  ∧ streams (drop_stream s h) = delete (ms_id h) (streams s)
  ∧ heap (drop_stream s h) = delete (ms_loc h) (heap s)
  ∧ fresh_loc (drop_stream s h) = fresh_loc s
  ∧ next_stream_id (drop_stream s h) = next_stream_id s
  ∧ go_away (drop_stream s h) = go_away s
  ∧ bucket (drop_stream s h) = bucket s + buffered (ss_state sh).
Proof.
  intros Hti Hh. pose proof (handle_table _ _ Hti Hh) as Hs. destruct Hh as (sh & Hl & Hid).
  exists sh. split; [done|]. unfold drop_stream.
  pose proof (core_send_fin s h) as [E1 E2 E3 E4 E5 E6 E7].
  destruct (send_fin s h) as [h1 s1] eqn:Ef. cbn [snd fst] in *.
  unfold remove_stream. rewrite E2, Hs. unfold recycle. cbn [stream_at].
  set (s2 := set_table s1 _ _ _). assert (stream_at s2 (ms_loc h) = ss_state sh) as ->.
  { apply stream_at_lookup. cbn. by rewrite E3. }
  destruct (return_tokens_core (set_stream s2 (ms_loc h)
    (mkStream [] 0 0 (fin (ss_state sh)) (dead (ss_state sh)) (read_waker (ss_state sh))))
    (buffered (ss_state sh))) as [F1 F2 F3 F4 F5 F6 F7].
  unfold free_loc. cbn. cbn in *. rewrite F1, F2, F3, F4, F5, F6, F7.
  rewrite E1, E3, E4, E5, E6, E7. rewrite delete_alter_eq. done.
Qed.

Lemma table_inv_ext s s' :
  streams s' = streams s → heap s' = heap s → fresh_loc s' = fresh_loc s →
  table_inv s → table_inv s'.
Proof. intros E1 E2 E3 []. constructor; rewrite ?E1, ?E2, ?E3; done. Qed.

Lemma wf_buffered_nonneg st : stream_wf st → 0 ≤ buffered st.
Proof. intros [_ _ ->]. apply zlen_nonneg. Qed.

Lemma drop_inv ic s h :
  session_inv ic s → handle_ok s h → session_inv ic (drop_stream s h).
Proof.
  intros [Hti Hc Hfl Hi Ho] Hh.
  destruct (drop_stream_core s h Hti Hh) as (sh & Hl & E1 & E2 & E3 & E4 & E5 & E6 & E7).
  pose proof (wf_buffered_nonneg _ (ti_wf _ Hti _ _ Hl)) as Hnn.
  constructor; rewrite ?E1, ?E5, ?E6, ?E7.
  - eapply table_inv_ext; [..|apply (free_table s h Hti Hh)]; done.
  - rewrite E3. pose proof (total_delete _ _ _ Hl). lia.
  - lia.
  - done.
  - intros Hg sid l. rewrite E2. intros [_ Hs]%lookup_delete_Some. by eapply Ho.
Qed.

Lemma drop_handle s h h' :
  table_inv s → handle_ok s h → ms_loc h' ≠ ms_loc h →
  handle_ok s h' → handle_ok (drop_stream s h) h'.
Proof.
  intros Hti Hh Hne (sh' & Hl' & Hid').
  destruct (drop_stream_core s h Hti Hh) as (sh & _ & _ & _ & E3 & _).
  exists sh'. rewrite E3, lookup_delete_ne by congruence. done.
Qed.

(** Replacing a stream's state by one with [n] fewer unread bytes, with the
    bytes refunded. *)
Lemma set_stream_refund ic s l sh st n :
  session_inv ic s → heap s !! l = Some sh → stream_wf st → 0 ≤ n →
  buffered st = buffered (ss_state sh) - n →
  session_inv ic (return_tokens (set_stream s l st) n).
Proof.
  intros [Hti Hc Hfl Hi Ho] Hl Hst Hn Hb.
  eapply same_core_inv; [apply return_tokens_core|].
  constructor; cbn -[total_buffered set_stream]; try done.
  - eapply table_inv_ext; [..|apply (set_stream_table s l st Hst Hti)]; done.
  - cbn [set_stream set_table heap]. rewrite (total_alter _ _ _ sh) by done. cbn.
    cbn in Hc. lia.
  - cbn. lia.
Qed.

Lemma return_zero s : return_tokens s 0 = s.
Proof. done. Qed.

Lemma return_tokens_handle s n h : handle_ok s h → handle_ok (return_tokens s n) h.
Proof. intros H. by eapply same_core_handle; [apply return_tokens_core|]. Qed.

Lemma read_inv ic s h cx room r s' :
  session_inv ic s → handle_ok s h → poll_read s h cx room = (r, s') → session_inv ic s'.
Proof.
  intros Hs (sh & Hl & Hid) Hp. unfold poll_read in Hp.
  destruct (room =? 0)%nat; [by simplify_eq|].
  rewrite (stream_at_lookup _ _ _ Hl) in Hp.
  assert (stream_wf (ss_state sh)) as Hw by (eapply ti_wf; [apply Hs|done]).
  destruct (take_bytes_spec (ss_state sh) room Hw) as (_ & _ & Hw1 & _).
  pose proof (take_bytes_buffered (ss_state sh) room Hw) as Hb1.
  destruct (take_bytes (ss_state sh) room) as [out st1]. cbn [fst snd] in *.
  destruct (0 <? length out)%nat eqn:Eo.
  { injection Hp as <- <-. by eapply set_stream_refund; try done; apply zlen_nonneg. }
  assert (zlen out = 0) as Hz by (apply Nat.ltb_ge in Eo; unfold zlen; lia).
  assert (session_inv ic (set_stream s (ms_loc h) st1)) as Hset.
  { rewrite <-return_zero. eapply set_stream_refund; try done. lia. }
  repeat case_hyp Hp; injection Hp as <- <-; auto.
  rewrite <-return_zero. eapply set_stream_refund; [done| |auto with rt|lia|].
  - cbn. by rewrite lookup_alter_eq, Hl.
  - cbn. lia.
Qed.

Lemma read_handle s h cx room r s' h' :
  poll_read s h cx room = (r, s') → handle_ok s h' → handle_ok s' h'.
Proof.
  intros Hp Hh. unfold poll_read in Hp. repeat case_hyp Hp; simplify_eq/=;
    auto using set_stream_handle, return_tokens_handle.
Qed.

(** ** The reader *)

Lemma fail_closed s e : closed (fail s e) = true.
Proof. unfold fail. by case_goal. Qed.

Lemma alloc_inv ic s sid :
  session_inv ic s → streams s !! sid = None →
  (go_away s = false → sid mod 2 = parity ic → sid ≤ next_stream_id s) →
  session_inv ic (alloc_stream s sid).2.
Proof.
  intros [Hti Hc Hfl Hi Ho] Hn Hsid. constructor; try done.
  - by apply alloc_table.
  - rewrite alloc_credit by done. done.
  - cbn. intros Hg sid' l. rewrite lookup_insert. case_decide; [subst; auto|by eapply Ho].
Qed.

Lemma deliver_bytes_inv ic s l payload :
  session_inv ic s → (∃ sid, streams s !! sid = Some l) →
  payload ≠ [] → zlen payload ≤ u16_max → 0 < bucket s →
  session_inv ic (deliver_bytes s l payload).
Proof.
  intros [Hti Hc Hfl Hi Ho] [sid (sh & Hl & _)%(ti_table _ Hti)] Hne Hlen Hb.
  assert (stream_at s l = ss_state sh) as Es by (by apply stream_at_lookup).
  unfold deliver_bytes. change (stream_at (spend_tokens s (zlen payload)) l) with (stream_at s l).
  rewrite Es. pose proof (ti_wf _ Hti _ _ Hl) as Hw.
  constructor; cbn -[total_buffered set_stream push_bytes]; try done.
  - eapply table_inv_ext; [..|apply (set_stream_table s l (push_bytes (ss_state sh) payload).2)];
      auto with rt.
  - cbn [set_stream set_table heap spend_tokens set_bucket].
    rewrite (total_alter _ _ _ sh) by done. cbn. cbn in Hc. lia.
  - cbn. lia.
Qed.

Lemma deliver_bytes_handle s l payload h :
  handle_ok s h → handle_ok (deliver_bytes s l payload) h.
Proof. intros H. by apply set_stream_handle. Qed.

Lemma set_fin_inv ic s l sid :
  session_inv ic s → streams s !! sid = Some l →
  session_inv ic (set_stream s l (set_fin (stream_at s l)).2).
Proof.
  intros Hs Hl. pose proof (si_table _ _ Hs) as Hti. apply (ti_table _ Hti) in Hl as (sh & Hl & _).
  rewrite (stream_at_lookup _ _ _ Hl), <-return_zero.
  eapply set_stream_refund; try done; [|cbn; lia].
  apply set_fin_wf. by eapply ti_wf.
Qed.

Lemma header_length_bound input :
  is_bytes input → 0 ≤ h_length (MuxHeader_decode input) ≤ u16_max.
Proof.
  intros Hb. cbn.
  assert (∀ i, is_byte (input !!! i)) as Hi.
  { intros i. rewrite list_lookup_total_alt. destruct (input !! i) eqn:E; cbn;
      [|unfold is_byte; cbn; lia]. unfold is_bytes in Hb. rewrite Forall_lookup in Hb. eauto. }
  pose proof (Hi 2%nat). pose proof (Hi 3%nat). unfold is_byte, u16_max in *. lia.
Qed.

Lemma is_bytes_take l n : is_bytes l → is_bytes (take n l).
Proof. apply Forall_take. Qed.

(** One frame: the invariant is kept while the session stays open, no handle is
    lost, and a handle under delivery is new. *)
Lemma reader_frame_inv ic s input p rest s' :
  session_inv ic s → reader_gate s = None → is_bytes input → peer_conforms ic input →
  reader_frame s input = (p, rest, s') → closed s' = false →
  session_inv ic s' ∧ (∀ h, handle_ok s h → handle_ok s' h)
  ∧ accept s' = accept s
  ∧ (∀ h, p = RDelivering h → handle_ok s' h ∧ ms_loc h = fresh_loc s).
Proof.
  intros Hs Hg Hb Hp Hf Hc. unfold reader_gate in Hg. case_hyp Hg; [done|]. clear Hg. zbool.
  unfold reader_frame in Hf. case_hyp Hf.
  { simplify_eq. by rewrite fail_closed in Hc. }
  pose proof (header_length_bound _ (is_bytes_take _ HEADER_SIZE Hb)) as Hlen.
  unfold peer_conforms in Hp. set (hdr := MuxHeader_decode (take HEADER_SIZE input)) in *.
  set (s0 := set_data_ready s true) in *.
  assert (session_inv ic s0) as Hs0 by (eapply same_core_inv; [apply core_data_ready|done]).
  assert (∀ h, handle_ok s h → handle_ok s0 h) as Hh0
    by (intros h; apply same_core_handle, core_data_ready).
  assert (∀ e, closed (fail s0 e) = false → False) as Hfc by (intros e; by rewrite fail_closed).
  case_hyp Hf; [simplify_eq; by apply Hfc in Hc|].
  destruct (h_cmd hdr =? CMD_NOP); [simplify_eq; done|].
  destruct (h_cmd hdr =? CMD_SYN) eqn:Esyn.
  { destruct (streams s0 !! h_sid hdr) eqn:E; [simplify_eq; done|].
    destruct (alloc_stream s0 (h_sid hdr)) as [l s1] eqn:Ea.
    injection Hf as <- <- <-.
    assert (l = fresh_loc s ∧ s1 = (alloc_stream s0 (h_sid hdr)).2) as [-> ->]
      by (rewrite Ea; by injection Ea as <- _).
    zbool. clear Ea. split.
    - apply alloc_inv; try done. intros _ Hpar. by specialize (Hp Esyn).
    - split; [intros h Hh; apply (alloc_handle s0 (h_sid hdr)); [apply Hs0|auto]|].
      split; [done|]. intros h [= <-]. split; [|done].
      exists (StreamShared_new (h_sid hdr)). cbn. by rewrite lookup_insert_eq. }
  destruct (h_cmd hdr =? CMD_FIN).
  { destruct (streams s0 !! h_sid hdr) eqn:E; simplify_eq; [|done].
    split; [by eapply set_fin_inv|]. split; [|done]. intros h Hh. apply set_stream_handle. auto. }
  destruct (h_cmd hdr =? CMD_PSH).
  { destruct (Z.to_nat (h_length hdr) =? 0)%nat eqn:E0; [simplify_eq; done|].
    apply Nat.eqb_neq in E0.
    destruct (Nat.ltb_spec (length (drop HEADER_SIZE input)) (Z.to_nat (h_length hdr)));
      [simplify_eq; by apply Hfc in Hc|]. destruct (streams s0 !! h_sid hdr) eqn:E; simplify_eq; [|done].
    assert (length (take (Z.to_nat (h_length hdr)) (drop HEADER_SIZE input))
            = Z.to_nat (h_length hdr)) as El by (rewrite length_take; lia).
    split; [|split; [|done]]; [|intros h Hh; apply deliver_bytes_handle; auto].
    apply deliver_bytes_inv; eauto.
    - intros En. rewrite En in El. by rewrite <-El in E0.
    - unfold zlen. rewrite El. lia. }
  destruct (h_cmd hdr =? CMD_UPD).
  { case_hyp Hf; simplify_eq; [by apply Hfc in Hc|done]. }
  simplify_eq. by apply Hfc in Hc.
Qed.

(** ** Opening a stream *)

Lemma own_id_fresh ic s :
  session_inv ic s → go_away s = false →
  let sid := u32 (next_stream_id s + 2) in
  sid ≠ sid mod 2 →
  sid = next_stream_id s + 2 ∧ sid mod 2 = parity ic ∧ streams s !! sid = None.
Proof.
  intros [_ _ _ [Hr Hpar] Ho] Hg sid Hne. unfold sid, wrap in *.
  assert ((next_stream_id s + 2) mod 2 = parity ic) as Hp2.
  { rewrite <-Hpar. rewrite Z.add_mod, Z.mod_same, Z.add_0_r, Z.mod_mod by lia. done. }
  assert ((next_stream_id s + 2) mod 2 ^ 32 = next_stream_id s + 2) as E.
  { destruct (decide (next_stream_id s + 2 < 2 ^ 32)); [apply Z.mod_small; lia|].
    exfalso. apply Hne.
    replace ((next_stream_id s + 2) mod 2 ^ 32) with (next_stream_id s + 2 - 2 ^ 32)
      by (apply Z.mod_unique with 1; lia).
    symmetry. apply Z.mod_small. lia. }
  rewrite E in *. repeat split; try done.
  destruct (streams s !! (next_stream_id s + 2)) eqn:El; [|done].
  apply (Ho Hg) in El; [lia|done].
Qed.

Lemma next_id_inv ic s r s' :
  session_inv ic s → next_id s = (r, s') →
  session_inv ic s' ∧ heap s' = heap s ∧ accept s' = accept s ∧ fresh_loc s' = fresh_loc s
  ∧ (∀ sid, r = Ok sid → streams s' !! sid = None ∧ sid = next_stream_id s').
Proof.
  intros Hs Hn. unfold next_id in Hn. destruct (go_away s) eqn:Eg; [by simplify_eq|].
  pose proof Hs as [Hti Hc Hf [Hr Hp] Ho].
  assert (0 ≤ u32 (next_stream_id s + 2) < 2 ^ 32
          ∧ u32 (next_stream_id s + 2) mod 2 = parity ic) as Hids.
  { split; [apply wrap_range; lia|]. unfold wrap. rewrite <-Hp.
    change (2 ^ 32) with (2 * 2147483648).
    rewrite Z.mod_mod_divide by (exists 2147483648; lia).
    rewrite Z.add_mod, Z.mod_same, Z.add_0_r, Z.mod_mod by lia. done. }
  case_hyp Hn; injection Hn as <- <-; zbool.
  - split; [|by repeat split]. constructor; cbn; try done.
    by eapply table_inv_ext; [..|exact Hti].
  - destruct (own_id_fresh ic s Hs Eg) as (E & Epar & Hnone); [done|].
    split; [|repeat split; cbn; try done; congruence].
    constructor; cbn; try done; [by eapply table_inv_ext; [..|exact Hti]|]. intros _ sid l Hl Hsid.
    specialize (Ho Eg _ _ Hl Hsid). lia.
Qed.

Lemma open_inv ic s r s' :
  session_inv ic s → open_stream s = (r, s') →
  session_inv ic s' ∧ (∀ h, handle_ok s h → handle_ok s' h) ∧ accept s' = accept s
  ∧ (∀ h, r = Ok h → handle_ok s' h ∧ ms_loc h = fresh_loc s).
Proof.
  intros Hs Ho. unfold open_stream in Ho. destruct (closed s); [by simplify_eq|].
  destruct (next_id s) as [rn s1] eqn:En.
  destruct (next_id_inv ic s rn s1 Hs En) as (Hs1 & Hh1 & Ha1 & Hf1 & Hid).
  assert (∀ h, handle_ok s h → handle_ok s1 h) as Hok by (unfold handle_ok; by rewrite Hh1).
  destruct rn as [sid|e]; [|by simplify_eq]. destruct (Hid sid eq_refl) as [Hnone Hsid].
  destruct (alloc_stream s1 sid) as [l s2] eqn:Ea.
  assert (l = fresh_loc s1 ∧ s2 = (alloc_stream s1 sid).2) as [-> Es2]
    by (rewrite Ea; by injection Ea as <- _).
  assert (session_inv ic s2) as Hs2 by (subst s2; apply alloc_inv; try done; lia).
  assert (∀ h, handle_ok s h → handle_ok s2 h) as Hok2.
  { intros h Hh. subst s2. apply alloc_handle; [apply Hs1|auto]. }
  assert (heap s2 !! fresh_loc s1 = Some (StreamShared_new sid)
          ∧ streams s2 = <[sid := fresh_loc s1]> (streams s1)
          ∧ heap s2 = <[fresh_loc s1 := StreamShared_new sid]> (heap s1)
          ∧ accept s2 = accept s) as (Hl2 & Hst2 & Hheap2 & Ha2).
  { subst s2. cbn. by rewrite lookup_insert_eq. }
  unfold force_push_data in Ho. case_hyp Ho; injection Ho as <- <-.
  - set (h0 := MuxStream_new s2 sid (fresh_loc s1) 0).
    assert (handle_ok (set_queue s2 (queue s2)) h0) as Hh0 by (by eexists).
    assert (session_inv ic (set_queue s2 (queue s2))) as Hsq
      by (eapply same_core_inv; [apply core_queue|done]).
    destruct Hsq as [Hti Hc Hfl Hi Hown]. split; [|split; [|by split]].
    + constructor; try done.
      * apply (free_table _ h0 Hti Hh0).
      * pose proof (total_delete _ _ _ Hl2) as Ht. cbn in Ht, Hc |- *. lia.
      * cbn. intros Hg sid' l [_ Hl]%lookup_delete_Some. by eapply (Hown Hg).
    + intros h Hh. destruct (Hok2 h Hh) as (sh & Hl & Hi'). exists sh. cbn.
      destruct (alloc_handle s1 sid h (si_table _ _ Hs1) (Hok h Hh)) as [_ Hne].
      by rewrite lookup_delete_ne by congruence.
  - split; [eapply same_core_inv; [apply core_queue|done]|].
    split; [intros h Hh; eapply same_core_handle; [apply core_queue|auto]|].
    split; [done|]. intros h [= <-]. split; [by eexists|]. cbn. congruence.
Qed.

(** ** Handles *)

Definition hkey (h : MuxStream) : Z * loc := (ms_id h, ms_loc h).

Definition handles_ok (s : Session) (hs : list MuxStream) : Prop :=
  Forall (handle_ok s) hs ∧ NoDup (ms_loc <$> hs).

Lemma locs_of_keys (hs : list MuxStream) : ms_loc <$> hs = snd <$> (hkey <$> hs).
Proof. rewrite <-list_fmap_compose. done. Qed.

Lemma handles_sub s s' hs hs' :
  (∀ h, handle_ok s h → handle_ok s' h) → hkey <$> hs' ⊆+ hkey <$> hs →
  handles_ok s hs → handles_ok s' hs'.
Proof.
  intros Ht Hsub [Hf Hn]. split.
  - apply Forall_forall. intros h' Hin.
    assert (hkey h' ∈ hkey <$> hs) as (h & Ek & Hh)%list_elem_of_fmap.
    { eapply elem_of_submseteq; [|done]. by apply list_elem_of_fmap_2. }
    rewrite Forall_forall in Hf. specialize (Ht h (Hf h Hh)).
    unfold hkey in Ek. injection Ek as E1 E2. unfold handle_ok. by rewrite E1, E2.
  - rewrite locs_of_keys in *. destruct (submseteq_Permutation _ _ Hsub) as [k Hk].
    rewrite Hk, fmap_app in Hn. by apply NoDup_app in Hn as [? _].
Qed.

Lemma handles_add s s' hs h :
  table_inv s → (∀ h, handle_ok s h → handle_ok s' h) →
  handle_ok s' h → ms_loc h = fresh_loc s → handles_ok s hs → handles_ok s' (h :: hs).
Proof.
  intros Hti Ht Hh El [Hf Hn]. split.
  - constructor; [done|]. by eapply Forall_impl.
  - cbn. constructor; [|done]. rewrite El. intros (h' & E & Hin)%list_elem_of_fmap.
    rewrite Forall_forall in Hf. destruct (Hf h' Hin) as (sh & Hl & _).
    apply (ti_fresh _ Hti) in Hl. lia.
Qed.

Lemma handles_drop s h hs :
  table_inv s → handles_ok s (h :: hs) → handles_ok (drop_stream s h) hs.
Proof.
  intros Hti [[Hh Hf]%Forall_cons_1 Hn]. apply NoDup_cons in Hn as [Hnin Hn].
  split; [|done]. apply Forall_forall. intros h' Hin. rewrite Forall_forall in Hf.
  apply drop_handle; auto. intros E. apply Hnin. rewrite <-E. by apply list_elem_of_fmap_2.
Qed.

Lemma deliver_accept_inv ic s h hs p s' :
  session_inv ic s → handles_ok s (h :: accept s ++ hs) → deliver_accept s h = (p, s') →
  session_inv ic s' ∧ handles_ok s' (delivering p ++ accept s' ++ hs).
Proof.
  intros Hs Hok Hd.
  assert (accept (drop_stream s h) = accept s) as Hacc.
  { unfold drop_stream. destruct (send_fin s h) as [h1 s1] eqn:Ef.
    assert (accept s1 = accept s) as Ea
      by (unfold send_fin in Ef; repeat case_hyp Ef; by simplify_eq/=).
    unfold remove_stream. repeat case_goal; simplify_eq/=; try done.
    unfold return_tokens. by case_goal. }
  assert (session_inv ic (drop_stream s h)
          ∧ handles_ok (drop_stream s h) (accept (drop_stream s h) ++ hs)) as Hdrop.
  { rewrite Hacc. split.
    - apply drop_inv; [done|]. destruct Hok as [Hf _]. by inversion Hf.
    - apply handles_drop; [apply Hs|done]. }
  unfold deliver_accept in Hd. repeat case_hyp Hd; injection Hd as <- <-; try done.
  split; [eapply same_core_inv; [apply core_accept|done]|].
  eapply handles_sub; [|..|exact Hok].
  - intros. by eapply same_core_handle; [apply core_accept|].
  - cbn [delivering accept set_accept app]. rewrite <-app_assoc.
    apply Permutation_submseteq, fmap_Permutation. cbn [app]. by rewrite <-Permutation_middle.
Qed.

(** Operations that keep the core, the handles and the accept channel. *)
Lemma core_transfer ic m s' app' :
  msys_inv ic m → same_core (m_s m) s' → accept s' = accept (m_s m) →
  hkey <$> app' ⊆+ hkey <$> m_app m →
  msys_inv ic (mkMsys s' (m_reader m) app').
Proof.
  intros [Hs Hf Hn] Hc Ha Hk.
  assert (handles_ok s' (owned (mkMsys s' (m_reader m) app'))) as [? ?].
  { eapply handles_sub; [intros h; by eapply same_core_handle| |exact (conj Hf Hn)].
    unfold owned; cbn. rewrite Ha, !fmap_app. by repeat apply submseteq_skips_l. }
  constructor; [by eapply same_core_inv|done|done].
Qed.

Lemma perm_keys (l : list MuxStream) h rest h' :
  l ≡ₚ h :: rest → hkey h' = hkey h → hkey <$> h' :: rest ⊆+ hkey <$> l.
Proof. intros Hp Hk. rewrite Hp. cbn. by rewrite Hk. Qed.

Lemma poll_write_core s h cx buf r h' s' :
  poll_write s h cx buf = (r, h', s') →
  same_core s s' ∧ accept s' = accept s ∧ hkey h' = hkey h.
Proof.
  unfold poll_write. intros H. repeat case_hyp H; simplify_eq/=; repeat split; by auto with rt.
Qed.

Lemma poll_flush_core s h cx r s' :
  poll_flush s h cx = (r, s') → same_core s s' ∧ accept s' = accept s.
Proof. unfold poll_flush. intros H. repeat case_hyp H; simplify_eq/=; split; by auto with rt. Qed.

Lemma poll_shutdown_core s h cx r h' s' :
  poll_shutdown s h cx = (r, h', s') →
  same_core s s' ∧ accept s' = accept s ∧ hkey h' = hkey h.
Proof.
  unfold poll_shutdown, send_fin. intros H.
  repeat case_hyp H; simplify_eq/=; repeat split; by auto with rt.
Qed.

(** ** Every step keeps the invariant while the session is open *)

Lemma closed_mono_fail s e : closed (fail s e) = false → False.
Proof. by rewrite fail_closed. Qed.

Lemma step_inv ic m m' :
  msys_inv ic m → mstep ic m m' → closed (m_s m') = false → msys_inv ic m'.
Proof.
  intros Hi Hst Hc. pose proof Hi as [Hs Hf Hn].
  assert (handles_ok (m_s m) (owned m)) as Hok by done. clear Hf Hn.
  assert (∀ s' p app', session_inv ic s' → handles_ok s' (delivering p ++ accept s' ++ app') →
    msys_inv ic (mkMsys s' p app')) as Hmk by (intros s' p app' ? [? ?]; by constructor).
  unfold owned in Hok. destruct Hst; cbn [m_s] in Hc.
  - rewrite H in Hok. apply Hmk; [done|]. unfold reader_gate in H0.
    repeat case_hyp H0; simplify_eq; done.
  - rewrite H in Hok. injection H1 as <- <-. apply Hmk.
    + eapply same_core_inv; [apply core_permit|done].
    + eapply handles_sub; [intros h; apply same_core_handle, core_permit| |exact Hok].
      by destruct (closed (m_s m)).
  - rewrite H in Hok. destruct (reader_frame_inv _ _ _ _ _ _ Hs H0 H1 H2 H3 Hc)
      as (Hs' & Ht & Ha & Hd). apply Hmk; [done|]. rewrite Ha.
    destruct p; try (by eapply handles_sub; [exact Ht| |exact Hok]).
    destruct (Hd _ eq_refl). eapply handles_add; try done. apply Hs.
  - rewrite H in Hok. destruct (deliver_accept_inv ic _ _ (m_app m) _ _ Hs Hok H0). auto.
  - unfold accept_stream in H. repeat case_hyp H; simplify_eq/=.
    apply Hmk; [eapply same_core_inv; [apply core_accept|done]|].
    eapply handles_sub; [intros h'; apply same_core_handle, core_accept| |exact Hok].
    cbn [accept set_accept]. apply Permutation_submseteq, fmap_Permutation.
    by rewrite <-(Permutation_middle l).
  - destruct (open_inv _ _ _ _ Hs H) as (Hs' & Ht & Ha & Hnew). apply Hmk; [done|]. rewrite Ha.
    destruct r as [h|e]; [|by eapply handles_sub].
    destruct (Hnew h eq_refl).
    eapply handles_sub; [intros h' Hh'; exact Hh'| |eapply (handles_add (m_s m)); try done; apply Hs].
    apply Permutation_submseteq, fmap_Permutation. by rewrite !app_assoc, Permutation_middle.
  - assert (handle_ok (m_s m) h) as Hh.
    { destruct Hok as [Hf _]. rewrite Forall_forall in Hf. apply Hf. set_solver. }
    apply Hmk; [by eapply read_inv|].
    assert (accept s' = accept (m_s m)) as ->.
    { unfold poll_read, return_tokens in H0. repeat case_hyp H0; by simplify_eq/=. }
    eapply handles_sub; [intros h'; by eapply read_handle| |exact Hok]. done.
  - destruct (poll_write_core _ _ _ _ _ _ _ H0) as (? & ? & ?).
    eapply core_transfer; try done. by eapply perm_keys.
  - destruct (poll_flush_core _ _ _ _ _ H0). by eapply core_transfer.
  - destruct (poll_shutdown_core _ _ _ _ _ _ H0) as (? & ? & ?).
    eapply core_transfer; try done. by eapply perm_keys.
  - assert (handles_ok (m_s m) (h :: delivering (m_reader m) ++ accept (m_s m) ++ rest)) as Hok'.
    { eapply handles_sub; [intros h' Hh'; exact Hh'| |exact Hok].
      apply Permutation_submseteq, fmap_Permutation. rewrite H.
      by rewrite !app_assoc, Permutation_middle. }
    apply Hmk.
    + apply drop_inv; [done|]. destruct Hok' as [Hf _]. by inversion Hf.
    + assert (accept (drop_stream (m_s m) h) = accept (m_s m)) as ->.
      { unfold drop_stream, send_fin, remove_stream, return_tokens.
        repeat case_goal; simplify_eq/=; done. }
      apply handles_drop; [apply Hs|done].
  - unfold ping_tick, push_ctrl in H. eapply core_transfer; try done.
    + repeat case_hyp H; simplify_eq/=; auto with rt. by constructor.
    + repeat case_hyp H; by simplify_eq/=.
  - unfold deadline_tick in H. case_hyp H; simplify_eq/=; [by rewrite fail_closed in Hc|].
    eapply core_transfer; by auto with rt.
  - eapply core_transfer; by auto with rt.
  - by rewrite fail_closed in Hc.
Qed.

Lemma init_inv ic c :
  0 < max_receive_buffer c → msys_inv ic (mkMsys (session_init c ic) RReading []).
Proof.
  intros Hc. constructor; [|constructor..]. constructor.
  - constructor; cbn; try done. intros sid l. split; [done|]. by intros (sh & ? & _).
  - cbn. change (max_receive_buffer c + 0 = max_receive_buffer c). lia.
  - cbn. unfold u16_max. lia.
  - destruct ic; vm_compute; repeat split; congruence.
  - done.
Qed.

(** [closed] is never cleared. *)
Lemma drop_closed s h : closed (drop_stream s h) = closed s.
Proof.
  unfold drop_stream, send_fin, remove_stream, return_tokens.
  repeat case_goal; simplify_eq/=; done.
Qed.

Lemma reader_frame_closed s input p rest s' :
  reader_frame s input = (p, rest, s') → closed s = true → closed s' = true.
Proof.
  intros Hf Hc. unfold reader_frame, alloc_stream in Hf.
  repeat case_hyp Hf; simplify_eq/=; rewrite ?fail_closed; done.
Qed.

Lemma step_closed ic m m' : mstep ic m m' → closed (m_s m) = true → closed (m_s m') = true.
Proof.
  intros Hs Hc. destruct Hs; cbn; rewrite ?drop_closed, ?fail_closed; try done.
  - by injection H1 as <- <-.
  - by eapply reader_frame_closed.
  - unfold deliver_accept in H0. repeat case_hyp H0; simplify_eq/=; by rewrite ?drop_closed.
  - unfold accept_stream in H. repeat case_hyp H; by simplify_eq/=.
  - unfold open_stream in H. rewrite Hc in H. by simplify_eq.
  - unfold poll_read, return_tokens in H0. repeat case_hyp H0; by simplify_eq/=.
  - unfold poll_write in H0. repeat case_hyp H0; by simplify_eq/=.
  - unfold poll_flush in H0. repeat case_hyp H0; by simplify_eq/=.
  - unfold poll_shutdown, send_fin in H0. repeat case_hyp H0; by simplify_eq/=.
  - unfold ping_tick, push_ctrl in H. repeat case_hyp H; by simplify_eq/=.
  - unfold deadline_tick in H. repeat case_hyp H; simplify_eq/=; by rewrite ?fail_closed.
Qed.

Lemma step_config ic m m' : mstep ic m m' → config (m_s m') = config (m_s m).
Proof.
  assert (∀ s e, config (fail s e) = config s) as Hfail by (intros; unfold fail; by case_goal).
  assert (∀ s h, config (drop_stream s h) = config s) as Hdrop.
  { intros. unfold drop_stream, send_fin, remove_stream, return_tokens.
    repeat case_goal; simplify_eq/=; done. }
  intros Hs. destruct Hs; cbn; rewrite ?Hdrop, ?Hfail; try done.
  - by injection H1 as <- <-.
  - unfold reader_frame, alloc_stream in H3. repeat case_hyp H3; simplify_eq/=; by rewrite ?Hfail.
  - unfold deliver_accept in H0. repeat case_hyp H0; simplify_eq/=; by rewrite ?Hdrop.
  - unfold accept_stream in H. repeat case_hyp H; by simplify_eq/=.
  - unfold open_stream, next_id, alloc_stream, remove_stream in H. repeat case_hyp H; by simplify_eq/=.
  - unfold poll_read, return_tokens in H0. repeat case_hyp H0; by simplify_eq/=.
  - unfold poll_write in H0. repeat case_hyp H0; by simplify_eq/=.
  - unfold poll_flush in H0. repeat case_hyp H0; by simplify_eq/=.
  - unfold poll_shutdown, send_fin in H0. repeat case_hyp H0; by simplify_eq/=.
  - unfold ping_tick, push_ctrl in H. repeat case_hyp H; by simplify_eq/=.
  - unfold deadline_tick in H. repeat case_hyp H; simplify_eq/=; by rewrite ?Hfail.
Qed.

Lemma reach_config ic c m : mreach ic c m → config (m_s m) = c.
Proof. induction 1 as [|m m' _ IH Hst]; [done|]. by rewrite (step_config _ _ _ Hst). Qed.

Lemma reach_inv ic c m :
  0 < max_receive_buffer c → mreach ic c m → closed (m_s m) = false → msys_inv ic m.
Proof.
  intros Hc. induction 1 as [|m m' _ IH Hst]; intros Hcl; [by apply init_inv|].
  eapply step_inv; [apply IH|done|done].
  destruct (closed (m_s m)) eqn:E; [|done]. by rewrite (step_closed _ _ _ Hst E) in Hcl.
Qed.

(** ** No lost wake-ups *)

Definition wk (s : Session) : Prop :=
  bucket_permit s = false → bucket s ≤ 0 ∧ closed s = false.

Lemma wk_return s n : wk s → wk (return_tokens s n).
Proof.
  unfold wk, return_tokens. intros Hw. case_goal; [done|]. cbn. case_goal; [done|].
  zbool. intros Hp. destruct (Hw Hp). split; [|done]. lia.
Qed.

Lemma wk_fail s e : wk s → wk (fail s e).
Proof.
  unfold wk, fail. intros Hw. destruct (closed s) eqn:E; cbn; [|done].
  intros Hp. by destruct (Hw Hp).
Qed.

(** Operations that touch neither the permit, the credit nor [closed]. *)
Lemma wk_same s s' :
  bucket_permit s' = bucket_permit s → bucket s' = bucket s → closed s' = closed s →
  wk s → wk s'.
Proof. unfold wk. by intros -> -> ->. Qed.

Lemma wk_drop s h : wk s → wk (drop_stream s h).
Proof.
  intros Hw. unfold drop_stream. destruct (send_fin s h) as [h1 s1] eqn:Ef.
  assert (wk s1) as Hw1.
  { unfold send_fin in Ef. repeat case_hyp Ef; simplify_eq/=; by eapply wk_same. }
  unfold remove_stream. repeat case_goal; simplify_eq/=; [|by eapply wk_same].
  eapply wk_same; [..|apply wk_return]; try done.
Qed.

Lemma wk_step ic m m' :
  wk (m_s m) → mstep ic m m' → m_reader m = RParked → m_reader m' = RParked → wk (m_s m').
Proof.
  intros Hw Hs Hp Hp'. destruct Hs; cbn in *; try congruence; auto using wk_drop, wk_fail.
  - injection H1 as <- <-. by destruct (closed (m_s m)).
  - unfold accept_stream in H. repeat case_hyp H; simplify_eq/=; by eapply wk_same.
  - unfold open_stream, next_id, alloc_stream, remove_stream in H.
    repeat case_hyp H; simplify_eq/=; by eapply wk_same.
  - unfold poll_read in H0. repeat case_hyp H0; simplify_eq/=; try (by eapply wk_same).
    by apply wk_return.
  - unfold poll_write in H0. repeat case_hyp H0; simplify_eq/=; by eapply wk_same.
  - unfold poll_flush in H0. repeat case_hyp H0; simplify_eq/=; by eapply wk_same.
  - unfold poll_shutdown, send_fin in H0. repeat case_hyp H0; simplify_eq/=; by eapply wk_same.
  - unfold ping_tick, push_ctrl in H. repeat case_hyp H; simplify_eq/=; by eapply wk_same.
  - unfold deadline_tick in H. repeat case_hyp H; simplify_eq/=; [by apply wk_fail|by eapply wk_same].
Qed.

(** A step that parks the reader finds the bucket empty and the session open. *)
Lemma park_step ic m m' :
  mstep ic m m' → m_reader m ≠ RParked → m_reader m' = RParked → wk (m_s m').
Proof.
  intros Hs Hn Hp. destruct Hs; cbn in *; try congruence; try done.
  - unfold reader_gate in H0. repeat case_hyp H0; simplify_eq. zbool. done.
  - unfold reader_frame, alloc_stream in H3. repeat case_hyp H3; simplify_eq.
  - unfold deliver_accept in H0. repeat case_hyp H0; simplify_eq.
Qed.

(** ** Properties *)

Section Properties.
Context (is_client : bool) (c : MuxConfig) (Hrecv : 0 < max_receive_buffer c).


(** C27: No wake-up is lost: whenever the reader is parked without a stored
    permit, the bucket is empty and the session is open, so it is right to
    wait. *)
Theorem no_lost_wakeup m :
  mreach is_client c m → m_reader m = RParked → bucket_permit (m_s m) = false →
  bucket (m_s m) ≤ 0 ∧ closed (m_s m) = false.
Proof.
  intros Hr. change (m_reader m = RParked → wk (m_s m)).
  induction Hr as [|m m' _ IH Hst]; [done|]. intros Hp'.
  destruct (m_reader m) eqn:E; try (eapply park_step; [done|congruence|done]).
  by eapply wk_step; [apply IH| | |].
Qed.


(** The receive credit leaks when the drop of a stream falls between the
    reader's table lookup and its delivery of a PSH payload for that stream:
    the payload is charged to the bucket and nothing refunds it, although the
    session stays open. *)
Theorem psh_race_leaks m h rest payload :
  mreach is_client c m → closed (m_s m) = false → m_app m ≡ₚ h :: rest →
  let l := ms_loc h in
  let s' := deliver_bytes (drop_stream (m_s m) h) l payload in
  streams (m_s m) !! ms_id h = Some l
  ∧ closed s' = false
  ∧ streams s' !! ms_id h = None
  ∧ bucket s' + total_buffered (heap s') = max_receive_buffer c - zlen payload.
Proof.
  intros Hr Hcl Hp l s'. pose proof (reach_config _ _ _ Hr) as Hc.
  destruct (reach_inv _ _ _ Hrecv Hr Hcl) as [Hs Hf _]. rewrite Forall_forall in Hf.
  assert (handle_ok (m_s m) h) as Hh by (apply Hf; unfold owned; rewrite Hp; set_solver).
  pose proof (si_table _ _ Hs) as Hti.
  split; [by apply handle_table|].
  destruct (drop_stream_core _ _ Hti Hh) as (sh & Hl & _ & E2 & E3 & _ & _ & _ & E7).
  split; [cbn; by rewrite drop_closed|]. split; [cbn; by rewrite E2, lookup_delete_eq|].
  unfold s', deliver_bytes, set_stream. cbn -[total_buffered push_bytes stream_at].
  rewrite E3, E7.
  assert (∀ f, alter f l (delete l (heap (m_s m))) = delete l (heap (m_s m))) as ->.
  { intros f. apply map_eq. intros i. rewrite lookup_alter. case_decide; [|done].
    subst. by rewrite lookup_delete_eq. }
  pose proof (total_delete _ _ _ Hl) as Ht. pose proof (si_credit _ _ Hs) as Hcr.
  rewrite Hc in Hcr. fold l in Ht. lia.
Qed.
End Properties.

(** ** Witnesses: a server with two bytes of receive buffer accepts a stream
    and receives three bytes on it *)

Definition demo_config : MuxConfig := mkMuxConfig VERSION_1 true 0 0 8 2 1.
Definition demo_syn_bytes : bytes := frame_bytes (MuxFrame_new 1 CMD_SYN 3).
Definition demo_psh_bytes : bytes := frame_bytes (MuxFrame_with_data 1 CMD_PSH 3 [7; 8; 9]).

Definition demo_m0 : msys := mkMsys (session_init demo_config false) RReading [].
Definition demo_m1 : msys :=
  let '(p, _, s) := reader_frame (m_s demo_m0) demo_syn_bytes in mkMsys s p [].
Definition demo_handle : MuxStream := mkMuxStream 3 0 1 8 0 false.
Definition demo_m2 : msys :=
  let '(p, s) := deliver_accept (m_s demo_m1) demo_handle in mkMsys s p [].
Definition demo_m3 : msys :=
  mkMsys (set_accept (m_s demo_m2) [] false) RReading [demo_handle].
Definition demo_m4 : msys :=
  let '(p, _, s) := reader_frame (m_s demo_m3) demo_psh_bytes in mkMsys s p [demo_handle].
Definition demo_m5 : msys := mkMsys (m_s demo_m4) RParked [demo_handle].

Lemma demo_m4_reach : mreach false demo_config demo_m4.
Proof.
  refine (mreach_step _ _ demo_m3 _ _ (M_frame _ demo_m3 demo_psh_bytes RReading [] _
    eq_refl eq_refl _ _ eq_refl)); [|solve_bytes|intros E; vm_compute in E; discriminate].
  refine (mreach_step _ _ demo_m2 _ _ (M_accept _ demo_m2 true demo_handle _ eq_refl)).
  refine (mreach_step _ _ demo_m1 _ _ (M_deliver _ demo_m1 demo_handle RReading _ eq_refl eq_refl)).
  refine (mreach_step _ _ demo_m0 _ (mreach_init _ _) (M_frame _ demo_m0 demo_syn_bytes _ [] _
    eq_refl eq_refl _ _ eq_refl)); [solve_bytes|intros _; vm_compute; discriminate].
Qed.

Lemma demo_m5_reach : mreach false demo_config demo_m5.
Proof.
  exact (mreach_step _ _ demo_m4 _ demo_m4_reach (M_gate _ demo_m4 RParked eq_refl eq_refl)).
Qed.


Lemma no_lost_wakeup_witness : bucket (m_s demo_m5) ≤ 0.
Proof. apply (no_lost_wakeup false demo_config demo_m5 demo_m5_reach eq_refl eq_refl). Defined.


Lemma psh_race_leaks_witness :
  let s' := deliver_bytes (drop_stream (m_s demo_m4) demo_handle) 0 [5; 6] in
  closed s' = false ∧ streams s' !! 3 = None ∧ bucket s' + total_buffered (heap s') = 2 - 2.
Proof.
  apply (psh_race_leaks false demo_config ltac:(reflexivity) demo_m4 demo_handle [] [5; 6]
           demo_m4_reach eq_refl (Permutation_refl _)).
Defined.
