(* ===== verification/MuxTransfer.v ===== *)
(** * Stream ids, failure and end-to-end transfer of a smux session

    The reader task parses exactly what the frame codec writes; a stream's
    bytes arrive in order and its FIN is seen as a clean end of file even when
    the transport closes right after; ids follow smux's allocation to the last
    one; the first failure of a session is the one every later call reports. *)

From stdpp Require Import base list option numbers gmap strings.
From Stdlib Require Import ZArith Lia.
From S2P Require Import Prelude MuxFrame MuxQueue MuxStream MuxSession MuxCredit.

(** ** Id allocation *)

Fixpoint next_ids (k : nat) (s : Session) : Session :=
  match k with O => s | S k => next_ids k (next_id s).2 end.

Lemma next_ids_S k s : next_ids (S k) s = (next_id (next_ids k s)).2.
Proof. revert s. induction k as [|k IH]; intros s; [done|]. apply (IH (next_id s).2). Qed.

(** The last id is reached after [2^31 - 1] calls. *)
Definition max_streams : Z := 2 ^ 31 - 1.

Lemma next_ids_state c ic k :
  Z.of_nat k ≤ max_streams →
  next_stream_id (next_ids k (session_init c ic)) = parity ic + 2 * Z.of_nat k
  ∧ go_away (next_ids k (session_init c ic)) = false.
Proof.
  unfold max_streams. induction k as [|k IH]; intros Hk.
  { destruct ic; done. }
  destruct IH as [IHn IHg]; [lia|]. rewrite next_ids_S. unfold next_id. rewrite IHg, IHn.
  assert (u32 (parity ic + 2 * Z.of_nat k + 2) = parity ic + 2 * Z.of_nat (S k)) as ->.
  { rewrite wrap_small; [lia|]. destruct ic; unfold parity; lia. }
  destruct (Z.eqb_spec (parity ic + 2 * Z.of_nat (S k))
              ((parity ic + 2 * Z.of_nat (S k)) mod 2)) as [E|_]; [|done].
  pose proof (Z.mod_pos_bound (parity ic + 2 * Z.of_nat (S k)) 2). destruct ic; unfold parity in *; lia.
Qed.

Lemma next_ids_exhausted c ic k :
  max_streams < Z.of_nat k → go_away (next_ids k (session_init c ic)) = true.
Proof.
  induction k as [|k IH]; intros Hk; [unfold max_streams in Hk; lia|].
  rewrite next_ids_S. unfold next_id. destruct (decide (max_streams < Z.of_nat k)) as [Hlt|Hge].
  { rewrite (IH Hlt). cbn. by apply IH. }
  destruct (next_ids_state c ic k) as [-> ->]; [lia|].
  assert (Z.of_nat k = max_streams) as -> by lia. by destruct ic.
Qed.

(** ** The reader on encoded frames *)

(** A frame a version-1 peer sends; a stray UPD has its eight-byte payload. *)
Record wire_frame (s : Session) (f : MuxFrame) : Prop := {
  wr_wf : frame_wf f;
  wr_size : zlen (f_data f) ≤ MAX_FRAME_DATA;
  wr_version : f_version f = version (config s);
  wr_upd : f_cmd f = CMD_UPD → length (f_data f) = UPD_SIZE
}.

(** What a frame means to the session: the specification the byte-level
    reader implements. *)
Definition handle_frame (s : Session) (f : MuxFrame) : reader_phase * Session :=
  let s := set_data_ready s true in
  if f_cmd f =? CMD_SYN then
    match streams s !! f_sid f with
    | Some _ => (RReading, s)
    | None =>
        let '(l, s1) := alloc_stream s (f_sid f) in
        (RDelivering (MuxStream_new s1 (f_sid f) l 0), s1)
    end
  else if f_cmd f =? CMD_FIN then
    match streams s !! f_sid f with
    | Some l => (RReading, set_stream s l (set_fin (stream_at s l)).2)
    | None => (RReading, s)
    end
  else if f_cmd f =? CMD_PSH then
    match f_data f, streams s !! f_sid f with
    | _ :: _, Some l => (RReading, deliver_bytes s l (f_data f))
    | _, _ => (RReading, s)
    end
  else (RReading, s).

Lemma psh_frame_data (s : Session) (f : MuxFrame) (rest : bytes) :
  let len := length (f_data f) in
  (if (len =? 0)%nat then (RReading, f_data f ++ rest, s)
   else if (length (f_data f ++ rest) <? len)%nat then (RHalted, [], fail s early_eof)
   else match streams s !! f_sid f with
        | Some l => (RReading, drop len (f_data f ++ rest),
                     deliver_bytes s l (take len (f_data f ++ rest)))
        | None => (RReading, drop len (f_data f ++ rest), s)
        end) =
  (let '(p, s') := match f_data f, streams s !! f_sid f with
                   | _ :: _, Some l => (RReading, deliver_bytes s l (f_data f))
                   | _, _ => (RReading, s)
                   end in (p, rest, s')).
Proof.
  cbv zeta. destruct (f_data f) as [|b d] eqn:E; [done|].
  destruct (Nat.eqb_spec (length (b :: d)) 0) as [E0|_]; [discriminate E0|].
  destruct (Nat.ltb_spec (length ((b :: d) ++ rest)) (length (b :: d))) as [Hlt|_].
  { rewrite length_app in Hlt. lia. }
  rewrite take_app_exact, drop_app_exact by done. by destruct (streams s !! f_sid f).
Qed.

Lemma reader_frame_spec s f rest :
  wire_frame s f →
  reader_frame s (frame_bytes f ++ rest) =
    (let '(p, s') := handle_frame s f in (p, rest, s')).
Proof.
  intros [Hwf Hsz Hv Hu]. unfold frame_bytes. rewrite <-app_assoc. unfold reader_frame.
  rewrite take_app_exact, drop_app_exact by (by rewrite length_header_encode).
  rewrite frame_header_decode by done.
  destruct (Nat.ltb_spec (length (MuxHeader_encode (MuxFrame_header f) ++ f_data f ++ rest))
              HEADER_SIZE) as [Hlt|_].
  { rewrite length_app, length_header_encode in Hlt. lia. }
  cbv zeta. cbn [h_version h_cmd h_sid h_length MuxFrame_header].
  change (version (config (set_data_ready s true))) with (version (config s)).
  rewrite Hv, Z.eqb_refl. cbn [negb]. unfold handle_frame.
  pose proof (wf_cmd f Hwf) as Hc. unfold is_cmd in Hc.
  pose proof (wf_empty f Hwf) as He. unfold carries_data in He.
  rewrite frame_length_exact by done. unfold zlen. rewrite Nat2Z.id.
  assert (f_cmd f = CMD_SYN ∨ f_cmd f = CMD_FIN ∨ f_cmd f = CMD_PSH ∨ f_cmd f = CMD_NOP
          ∨ f_cmd f = CMD_UPD) as Hcases
    by (unfold CMD_SYN, CMD_FIN, CMD_PSH, CMD_NOP, CMD_UPD; lia).
  destruct Hcases as [E|[E|[E|[E|E]]]]; rewrite E in He |- *; cbn in He; cbn [Z.eqb CMD_NOP CMD_SYN CMD_FIN CMD_PSH CMD_UPD Pos.eqb].
  - rewrite He by done. cbn [app]. by destruct (streams _ !! f_sid f).
  - rewrite He by done. cbn [app]. by destruct (streams _ !! f_sid f).
  - apply psh_frame_data.
  - rewrite He by done. done.
  - specialize (Hu E). rewrite <-Hu.
    destruct (Nat.ltb_spec (length (f_data f ++ rest)) (length (f_data f))) as [Hlt|_].
    { rewrite length_app in Hlt. lia. }
    by rewrite drop_app_exact by done.
Qed.

(** ** Feeding a stream *)

Definition wire (fs : list MuxFrame) : bytes := concat (frame_bytes <$> fs).

Definition psh_frames (v sid : Z) (cs : list bytes) : list MuxFrame :=
  MuxFrame_with_data v CMD_PSH sid <$> cs.

(** A stream as its peer sends it: opened, written to, closed. *)
Definition stream_frames (v sid : Z) (cs : list bytes) : list MuxFrame :=
  MuxFrame_new v CMD_SYN sid :: psh_frames v sid cs ++ [MuxFrame_new v CMD_FIN sid].

Definition chunk_ok (d : bytes) : Prop := is_bytes d ∧ d ≠ [] ∧ zlen d ≤ MAX_FRAME_DATA.

(** Facts about the stream at [l] that the reader keeps while feeding it. *)
Record feeding (s0 s : Session) (sid : Z) (l : loc) (got : bytes) (credit : Z) : Prop := {
  fe_table : streams s !! sid = Some l;
  fe_heap : ∃ sh, heap s !! l = Some sh;
  fe_wf : stream_wf (stream_at s l);
  fe_pending : pending (stream_at s l) = got;
  fe_bucket : bucket s = credit;
  fe_config : config s = config s0;
  fe_accept : accept s = accept s0
}.

Lemma set_stream_at s l st sh : heap s !! l = Some sh → stream_at (set_stream s l st) l = st.
Proof.
  intros H. rewrite (stream_at_lookup _ _ (with_state sh st)); [done|].
  cbn. by rewrite lookup_alter_eq, H.
Qed.

Lemma feeding_push s0 s sid l got credit d :
  feeding s0 s sid l got credit → d ≠ [] →
  feeding s0 (deliver_bytes (set_data_ready s true) l d) sid l (got ++ d) (credit - zlen d).
Proof.
  intros [Ht [sh Hh] Hw Hp Hb Hc Ha] Hd. unfold deliver_bytes.
  set (s1 := spend_tokens (set_data_ready s true) (zlen d)).
  assert (heap s1 !! l = Some sh) as Hh1 by done.
  assert (stream_at s1 l = stream_at s l) as Es by done. rewrite Es.
  constructor; try done.
  - exists (with_state sh (push_bytes (stream_at s l) d).2). cbn. by rewrite lookup_alter_eq, Hh.
  - rewrite (set_stream_at _ _ _ sh) by done. by apply push_bytes_wf.
  - rewrite (set_stream_at _ _ _ sh) by done. by rewrite push_bytes_pending, Hp.
  - cbn. by rewrite Hb.
Qed.

Lemma wire_frame_psh s v sid d :
  is_byte v → 0 ≤ sid < 2 ^ 32 → version (config s) = v → chunk_ok d →
  wire_frame s (MuxFrame_with_data v CMD_PSH sid d).
Proof.
  intros Hv Hs Hc (Hb & Hne & Hl). by constructor.
Qed.

Lemma wire_frame_empty s v cmd sid :
  is_byte v → 0 ≤ sid < 2 ^ 32 → version (config s) = v → cmd = CMD_SYN ∨ cmd = CMD_FIN →
  wire_frame s (MuxFrame_new v cmd sid).
Proof.
  intros Hv Hs Hc Hcmd. constructor; try done.
  - constructor; cbn; try done; try (by constructor).
    unfold is_cmd. destruct Hcmd as [-> | ->]; unfold CMD_SYN, CMD_FIN; lia.
  - cbn. destruct Hcmd as [-> | ->]; done.
Qed.

Lemma run_one n s f rest p s' :
  0 < bucket s → wire_frame s f → handle_frame s f = (p, s') →
  reader_run (S n) RReading s (frame_bytes f ++ rest) = reader_run n p s' rest.
Proof.
  intros Hb Hf Hh. cbn [reader_run]. unfold reader_gate.
  destruct (Z.leb_spec (bucket s) 0); [lia|]. rewrite reader_frame_spec, Hh by done. done.
Qed.

Lemma run_psh s0 v sid l cs s got credit rest n :
  is_byte v → 0 ≤ sid < 2 ^ 32 → version (config s0) = v →
  Forall chunk_ok cs → feeding s0 s sid l got credit → zlen (concat cs) < credit →
  ∃ s', reader_run (length cs + n) RReading s (wire (psh_frames v sid cs) ++ rest)
          = reader_run n RReading s' rest
        ∧ feeding s0 s' sid l (got ++ concat cs) (credit - zlen (concat cs)).
Proof.
  intros Hv Hs Hver Hcs. revert s got credit. induction Hcs as [|d cs Hd _ IH]; intros s got credit Hf Hcr.
  { exists s. cbn [concat]. rewrite app_nil_r. change (zlen (@nil Z)) with 0. by rewrite Z.sub_0_r. }
  cbn [concat] in Hcr. rewrite zlen_app in Hcr. pose proof (zlen_nonneg d).
  pose proof (zlen_nonneg (concat cs)). pose proof Hd as (_ & Hne & _).
  destruct (IH (deliver_bytes (set_data_ready s true) l d) (got ++ d) (credit - zlen d))
    as (s' & Hrun & Hf'); [by apply feeding_push|lia|].
  exists s'. split.
  - unfold wire, psh_frames. rewrite !fmap_cons. cbn [concat length Nat.add].
    rewrite <-app_assoc, (run_one _ _ _ _ RReading (deliver_bytes (set_data_ready s true) l d)).
    + exact Hrun.
    + rewrite (fe_bucket _ _ _ _ _ _ Hf). lia.
    + apply wire_frame_psh; try done. by rewrite (fe_config _ _ _ _ _ _ Hf).
    + unfold handle_frame. cbn [f_cmd f_data f_sid MuxFrame_with_data].
      cbn [Z.eqb CMD_SYN CMD_FIN CMD_PSH Pos.eqb].
      change (streams (set_data_ready s true)) with (streams s).
      rewrite (fe_table _ _ _ _ _ _ Hf). by destruct d.
  - cbn [concat]. rewrite app_assoc, zlen_app. by rewrite Z.sub_add_distr.
Qed.

(** ** Failing a session *)

Lemma stream_at_kill s l ls h sh :
  heap s !! l = Some sh → h = kill ls (heap s) →
  ∃ sh', h !! l = Some sh' ∧ ss_id sh' = ss_id sh
    ∧ pending (ss_state sh') = pending (ss_state sh) ∧ fin (ss_state sh') = fin (ss_state sh)
    ∧ (stream_wf (ss_state sh) → stream_wf (ss_state sh'))
    ∧ (l ∈ ls → dead (ss_state sh') = true).
Proof.
  intros Hl ->. unfold kill. rewrite map_lookup_imap, Hl. cbn. case_bool_decide.
  - exists (with_state sh (set_dead (ss_state sh)).2).
    do 4 (split; [done|]). split; [apply set_dead_wf|done].
  - exists sh. do 5 (split; [done|]). done.
Qed.

Lemma fail_stream s e l sh :
  heap s !! l = Some sh →
  ∃ sh', heap (fail s e) !! l = Some sh'
    ∧ pending (ss_state sh') = pending (ss_state sh) ∧ fin (ss_state sh') = fin (ss_state sh)
    ∧ (stream_wf (ss_state sh) → stream_wf (ss_state sh')).
Proof.
  intros Hl. unfold fail. destruct (closed s); [by exists sh|].
  destruct (stream_at_kill s l (map_to_list (streams s)).*2 _ sh Hl eq_refl)
    as (sh' & Hl' & _ & Hp & Hf & Hw & _). by exists sh'.
Qed.

Lemma fail_accept s e : accept (fail s e) = accept s.
Proof. unfold fail. by case_goal. Qed.

(** ** Reading a finished stream *)

Lemma poll_read_fin s h cx room sh :
  heap s !! ms_loc h = Some sh → stream_wf (ss_state sh) → fin (ss_state sh) = true →
  (0 < room)%nat →
  ∃ s' sh', poll_read s h cx room = (Ready (Ok (take room (pending (ss_state sh)))), s')
    ∧ heap s' !! ms_loc h = Some sh' ∧ stream_wf (ss_state sh') ∧ fin (ss_state sh') = true
    ∧ pending (ss_state sh') = drop room (pending (ss_state sh)).
Proof.
  intros Hl Hw Hfin Hroom. unfold poll_read.
  destruct (Nat.eqb_spec room 0); [lia|]. rewrite (stream_at_lookup _ _ _ Hl).
  destruct (take_bytes_spec (ss_state sh) room Hw) as (Ho & Hp & Hw' & Hf & _).
  destruct (take_bytes (ss_state sh) room) as [out st1]. cbn [fst snd] in *. subst out.
  rewrite Hfin in Hf. rewrite Hf. set (s1 := set_stream s (ms_loc h) st1).
  assert (heap s1 !! ms_loc h = Some (with_state sh st1)) as Hl1
    by (cbn; by rewrite lookup_alter_eq, Hl).
  destruct (Nat.ltb_spec 0 (length (take room (pending (ss_state sh))))) as [_|Hz].
  - exists (return_tokens s1 (zlen (take room (pending (ss_state sh))))), (with_state sh st1).
    rewrite (sc_heap _ _ (return_tokens_core _ _)). done.
  - exists s1, (with_state sh st1).
    assert (take room (pending (ss_state sh)) = []) as -> by (apply length_zero_iff_nil; lia).
    done.
Qed.

(** The reader on an empty transport: end of file fails the session. *)
Lemma run_eof n s :
  0 < bucket s → reader_run (S n) RReading s [] = (RHalted, [], fail s early_eof).
Proof.
  intros Hb. cbn [reader_run]. unfold reader_gate.
  destruct (Z.leb_spec (bucket s) 0); [lia|]. cbn. by destruct n.
Qed.

Lemma length_wire fs : (8 * length fs ≤ length (wire fs))%nat.
Proof.
  induction fs as [|f fs IH]; [done|]. unfold wire in *. rewrite fmap_cons. cbn [concat length].
  assert (8 ≤ length (frame_bytes f))%nat.
  { unfold frame_bytes. rewrite length_app, length_header_encode. unfold HEADER_SIZE. lia. }
  rewrite length_app. lia.
Qed.

(** Accepting a SYN. *)
Lemma run_syn n s v sid rest :
  is_byte v → 0 ≤ sid < 2 ^ 32 → version (config s) = v → table_inv s →
  streams s !! sid = None → accept_closed s = false →
  zlen (accept s) < DEFAULT_ACCEPT_BACKLOG → 0 < bucket s →
  ∃ s2 h, reader_run (S (S n)) RReading s (frame_bytes (MuxFrame_new v CMD_SYN sid) ++ rest)
            = reader_run n RReading s2 rest
    ∧ ms_id h = sid ∧ accept s2 = accept s ++ [h] ∧ config s2 = config s
    ∧ feeding s2 s2 sid (ms_loc h) [] (bucket s).
Proof.
  intros Hv Hsid Hver Hti Hnone Hac Hlen Hb.
  set (s1 := (alloc_stream (set_data_ready s true) sid).2).
  set (h := MuxStream_new s1 sid (fresh_loc s) 0).
  exists (set_accept s1 (accept s ++ [h]) (accept_closed s)), h. split.
  - rewrite (run_one _ _ _ _ (RDelivering h) s1).
    + cbn [reader_run]. unfold deliver_accept.
      change (accept_closed s1) with (accept_closed s). change (accept s1) with (accept s).
      rewrite Hac. destruct (Z.ltb_spec (zlen (accept s)) DEFAULT_ACCEPT_BACKLOG); [done|lia].
    + done.
    + apply wire_frame_empty; auto.
    + unfold handle_frame. cbn [f_cmd f_sid MuxFrame_new Z.eqb CMD_SYN].
      change (streams (set_data_ready s true)) with (streams s). rewrite Hnone. done.
  - repeat (split; [done|]).
    assert (heap s1 !! fresh_loc s = Some (StreamShared_new sid)) as Hl
      by (cbn; by rewrite lookup_insert_eq).
    assert (stream_at (set_accept s1 (accept s ++ [h]) (accept_closed s)) (ms_loc h)
            = StreamState_new) as Es
      by exact (stream_at_lookup (set_accept s1 _ _) _ _ Hl).
    constructor; rewrite ?Es; auto with rt; cbn; try done.
    + by rewrite lookup_insert_eq.
    + by eexists.
Qed.

(** Finishing a stream: FIN and then end of file. *)
Lemma run_fin n s0 s v sid l got credit :
  is_byte v → 0 ≤ sid < 2 ^ 32 → version (config s0) = v →
  feeding s0 s sid l got credit → 0 < credit →
  ∃ s' sh, reader_run (S (S n)) RReading s (frame_bytes (MuxFrame_new v CMD_FIN sid))
             = (RHalted, [], s')
    ∧ accept s' = accept s0
    ∧ heap s' !! l = Some sh ∧ stream_wf (ss_state sh)
    ∧ fin (ss_state sh) = true ∧ pending (ss_state sh) = got.
Proof.
  intros Hv Hsid Hver [Ht [sh Hh] Hw Hp Hb Hc Ha] Hcr.
  set (s1 := set_data_ready s true).
  set (s4 := set_stream s1 l (set_fin (stream_at s1 l)).2).
  assert (heap s4 !! l = Some (with_state sh (set_fin (stream_at s1 l)).2)) as Hl4
    by (cbn; by rewrite lookup_alter_eq, Hh).
  destruct (fail_stream s4 early_eof _ _ Hl4) as (sh' & Hl' & Hp' & Hf' & Hw').
  exists (fail s4 early_eof), sh'. split.
  - rewrite <-(app_nil_r (frame_bytes _)), (run_one _ _ _ _ RReading s4).
    + apply run_eof. change (bucket s4) with (bucket s). lia.
    + lia.
    + apply wire_frame_empty; auto. congruence.
    + unfold handle_frame. cbn [f_cmd f_sid MuxFrame_new Z.eqb CMD_SYN CMD_FIN Pos.eqb].
      change (streams (set_data_ready s true)) with (streams s). by rewrite Ht.
  - rewrite fail_accept, Hp', Hf'. split; [done|]. split; [done|].
    split; [apply Hw'; by apply set_fin_wf|]. done.
Qed.

(** ** Properties *)

(** Stream ids follow smux's allocation exactly: the [k]-th stream a side
    opens gets id [parity + 2k], until [2^31 - 1] streams have been opened, after
    which every further open is refused; no id is handed out twice. *)
Theorem next_id_sequence c ic k :
  (next_id (next_ids k (session_init c ic))).1 =
    if Z.of_nat k <? max_streams then Ok (parity ic + 2 * (Z.of_nat k + 1))
    else Err id_overflow.
Proof.
  destruct (Z.ltb_spec (Z.of_nat k) max_streams) as [Hk|Hk].
  - destruct (next_ids_state c ic k) as [Hn Hg]; [lia|].
    destruct (next_ids_state c ic (S k)) as [Hn' Hg']; [lia|].
    rewrite next_ids_S in Hn', Hg'. unfold next_id in *. rewrite Hg in *.
    case_goal; [done|]. cbn in *. f_equal. lia.
  - destruct (decide (max_streams < Z.of_nat k)) as [Hlt|Heq].
    + pose proof (next_ids_exhausted c ic k Hlt) as Hg. unfold next_id. by rewrite Hg.
    + assert (Z.of_nat k = max_streams) as Ek by lia.
      destruct (next_ids_state c ic k) as [Hn Hg]; [lia|]. unfold next_id.
      rewrite Hg, Hn, Ek. by destruct ic.
Qed.

(** C25: the byte-level reader implements the frame-level specification: on an
    encoded frame it consumes exactly the frame's bytes and does to the session
    what [handle_frame] says. *)
Theorem reader_refines s f w rest :
  frame_wf f → MuxFrame_encode f = Ok w → f_version f = version (config s) →
  (f_cmd f = CMD_UPD → length (f_data f) = UPD_SIZE) →
  reader_frame s (w ++ rest) = (let '(p, s') := handle_frame s f in (p, rest, s')).
Proof.
  intros Hwf [Hl ->]%encode_Ok_inv Hv Hu. by apply reader_frame_spec.
Qed.


(** A session fails once: the first error is what every later operation
    reports, whoever fails it again; opening is refused, no stream is
    registered any more, each registered stream is dead, and what had arrived
    on it can still be read. *)
Theorem fail_once s e1 e2 :
  table_inv s → closed s = false → error_slot s = None →
  let s1 := fail s e1 in
  fail s1 e2 = s1
  ∧ open_stream s1 = (Err e1, s1)
  ∧ num_streams s1 = 0%nat
  ∧ is_closed (queue s1) = true
  ∧ (∀ sid l, streams s !! sid = Some l →
      dead (stream_at s1 l) = true ∧ pending (stream_at s1 l) = pending (stream_at s l))
  ∧ ∀ h cx buf, buf ≠ [] → ms_fin_sent h = false → poll_write s1 h cx buf = (Ready (Err e1), h, s1).
Proof.
  intros Hti Hc He s1.
  assert (closed s1 = true ∧ error_slot s1 = Some e1) as [Hc1 He1]
    by (unfold s1, fail; rewrite Hc, He; done).
  assert (session_error s1 = e1) as Hse by (unfold session_error; by rewrite He1).
  assert (fail s1 e2 = s1) as Hidem.
  { unfold fail at 1. rewrite Hc1, He1, <-Hc1, <-He1. by destruct s1. }
  split; [done|]. split; [unfold open_stream; by rewrite Hc1, Hse|].
  split; [unfold s1, fail; rewrite Hc; done|]. split.
  { unfold s1, fail. rewrite Hc. cbn. unfold is_closed, close. by case_goal. }
  split.
  - intros sid l Hl. pose proof Hl as (sh & Hh & _)%(ti_table _ Hti).
    destruct (stream_at_kill s l (map_to_list (streams s)).*2 (heap s1) sh Hh)
      as (sh' & Hl' & _ & Hp & _ & _ & Hd); [unfold s1, fail; by rewrite Hc|].
    rewrite (stream_at_lookup _ _ _ Hh), (stream_at_lookup _ _ _ Hl'). split; [|done].
    apply Hd. apply list_elem_of_fmap. exists (sid, l). split; [done|]. by apply elem_of_map_to_list.
  - intros h cx buf Hb Hf. unfold poll_write. rewrite Hf, Hc1, Hse. by destruct buf.
Qed.

(** ** Witnesses *)

Lemma demo_table : table_inv (session_init MuxConfig_default false).
Proof.
  constructor; cbn; try done. intros sid l. split; [done|]. by intros (sh & ? & _).
Qed.

Lemma reader_refines_witness :
  reader_frame (m_s demo_m3) ([1; 2; 3; 0; 3; 0; 0; 0; 7; 8; 9] ++ [1; 3])
  = (let '(p, s') := handle_frame (m_s demo_m3) (mkFrame 1 CMD_PSH 3 [7; 8; 9]) in (p, [1; 3], s')).
Proof.
  apply (reader_refines (m_s demo_m3) (mkFrame 1 CMD_PSH 3 [7; 8; 9])).
  - solve_frame_wf.
  - vm_compute. reflexivity.
  - reflexivity.
  - intros E. discriminate E.
Defined.


Lemma fail_once_witness :
  let s1 := fail (m_s demo_m4) keepalive_timeout_err in
  fail s1 closed_err = s1 ∧ open_stream s1 = (Err keepalive_timeout_err, s1)
  ∧ pending (stream_at s1 0) = [7; 8; 9].
Proof.
  destruct (fail_once (m_s demo_m4) keepalive_timeout_err closed_err) as (H1 & H2 & _ & _ & H3 & _).
  - apply (reach_inv false demo_config demo_m4); [reflexivity|apply demo_m4_reach|reflexivity].
  - reflexivity.
  - reflexivity.
  - split; [exact H1|]. split; [exact H2|].
    destruct (H3 3 0%nat eq_refl) as [_ H4]. rewrite H4. reflexivity.
Defined.
