(* ===== verification/Permissions.v ===== *)
(** * Access control: whitelist and blacklist rules

    Models src/permissions.rs: [split_host_port], the [go_glob] matcher,
    [PortRange], [PortSet], [StringSet], [Permissions] and [Can]. The matcher
    is proved equivalent to a declarative wildcard relation, the splitter is
    characterised completely, and [Can] is proved to be the policy its rules
    state, failing closed. *)

From stdpp Require Import base list option numbers strings sets.
From Stdlib Require Import ZArith Lia.
From S2P Require Import Prelude Text.

(** ** [split_host_port] *)

Inductive AddrError : Set :=
| MissingPort (addr : bytes)
| TooManyColons (addr : bytes)
| MissingRBracket (addr : bytes)
| UnexpectedLBracket (addr : bytes)
| UnexpectedRBracket (addr : bytes).

(** The two final checks, for the values of [host], [i], [j] and [k]. *)
Definition finish_split (hp : bytes) (host : bytes) (i j k : nat) : result AddrError (bytes * bytes) :=
  if contains_char ch_lbracket (drop j hp) then Err (UnexpectedLBracket hp)
  else if contains_char ch_rbracket (drop k hp) then Err (UnexpectedRBracket hp)
  else Ok (host, drop (i + 1) hp).

Definition split_host_port (hp : bytes) : result AddrError (bytes * bytes) :=
  match rfind_char ch_colon hp with
  | None => Err (MissingPort hp)
  | Some i =>
      if starts_with [ch_lbracket] hp then
        match find_char ch_rbracket hp with
        | None => Err (MissingRBracket hp)
        | Some e =>
            if (e + 1 =? length hp)%nat then Err (MissingPort hp)
            else if (e + 1 =? i)%nat then
              finish_split hp (drop 1 (take e hp)) i 1 (e + 1)
            else if bool_decide (hp !! (e + 1)%nat = Some ch_colon) then Err (TooManyColons hp)
            else Err (MissingPort hp)
        end
      else
        let host := take i hp in
        if contains_char ch_colon host then Err (TooManyColons hp)
        else finish_split hp host i 0 0
  end.

(** ** [go_glob] *)

(** The loop over the leading parts; [None] is [return false]. *)
Fixpoint glob_loop (leading_glob : bool) (i : nat) (parts : list bytes) (subj : bytes) :
    option bytes :=
  match parts with
  | [] => Some subj
  | part :: parts =>
      let idx := find_sub part subj in
      if (if (i =? 0)%nat then negb leading_glob && negb (bool_decide (idx = Some 0%nat))
          else bool_decide (idx = None))
      then None
      else
        let idx := default 0%nat idx in
        glob_loop leading_glob (S i) parts (drop (idx + length part) subj)
  end.

Definition go_glob (pattern subj : bytes) : bool :=
  match pattern with
  | [] => bool_decide (subj = pattern)
  | _ =>
      if bool_decide (pattern = [ch_star]) then true
      else
        let parts := split_char ch_star pattern in
        if (length parts =? 1)%nat then bool_decide (subj = pattern)
        else
          let leading_glob := starts_with [ch_star] pattern in
          let trailing_glob := ends_with [ch_star] pattern in
          let e := (length parts - 1)%nat in
          match glob_loop leading_glob 0 (take e parts) subj with
          | None => false
          | Some subj => trailing_glob || ends_with (parts !!! e) subj
          end
  end.

(** ** Ports *)

Inductive PermissionError : Set :=
| InvalidPort (s : bytes)
| EmptyPort
| EmptyString
| InvalidFormat (s : bytes).

Record PortRange : Set := mkPortRange { pr_min : Z; pr_max : Z }.

Definition ok_or {E A} (o : option A) (e : E) : result E A :=
  match o with Some a => Ok a | None => Err e end.

Definition PortRange_parse (s : bytes) : result PermissionError PortRange :=
  if bool_decide (s = [ch_star]) then Ok (mkPortRange 0 65535)
  else
    match split_once ch_minus s with
    | Some (min_str, max_str) =>
        mn <-? ok_or (parse_i64 min_str) (InvalidPort s) ;;
        mx <-? ok_or (parse_i64 max_str) (InvalidPort s) ;;
        Ok (mkPortRange (Z.max (Z.min mn mx) 0) (Z.min (Z.max mn mx) 65535))
    | None =>
        port <-? ok_or (parse_i64 s) (InvalidPort s) ;;
        if negb ((0 <=? port) && (port <=? 65535)) then Err (InvalidPort s)
        else Ok (mkPortRange port port)
    end.

Definition PortRange_contains (r : PortRange) (port : Z) : bool :=
  (pr_min r <=? port) && (port <=? pr_max r).

Definition PortRange_display (r : PortRange) : bytes :=
  if pr_min r =? pr_max r then show_int (pr_min r)
  else show_int (pr_min r) ++ [ch_minus] ++ show_int (pr_max r).

(** [iter.map(f).collect::<Result<Vec<_>, _>>()] *)
Fixpoint collect {E A B} (f : A → result E B) (l : list A) : result E (list B) :=
  match l with
  | [] => Ok []
  | a :: l => b <-? f a ;; bs <-? collect f l ;; Ok (b :: bs)
  end.

Abbreviation PortSet := (list PortRange).

Definition PortSet_parse (s : bytes) : result PermissionError PortSet :=
  match s with
  | [] => Err EmptyPort
  | _ => collect (λ r, PortRange_parse (trim r)) (split_char ch_comma s)
  end.

Definition PortSet_contains (ps : PortSet) (port : Z) : bool :=
  existsb (λ r, PortRange_contains r port) ps.

(** ** Rules *)

Abbreviation StringSet := (list bytes).

Definition StringSet_parse (s : bytes) : result PermissionError StringSet :=
  match s with
  | [] => Err EmptyString
  | _ => Ok (split_char ch_comma s)
  end.

Definition StringSet_contains (ss : StringSet) (subj : bytes) : bool :=
  existsb (λ p, go_glob p subj) ss.

Record Permission : Set := mkPermission {
  actions : StringSet;
  hosts : StringSet;
  ports : PortSet
}.

Abbreviation Permissions := (list Permission).

Definition Permission_parse (perm_str : bytes) : result PermissionError Permission :=
  match split_char ch_colon perm_str with
  | [p0; p1; p2] =>
      a <-? StringSet_parse p0 ;;
      h <-? StringSet_parse p1 ;;
      p <-? PortSet_parse p2 ;;
      Ok (mkPermission a h p)
  | _ => Err (InvalidFormat perm_str)
  end.

Definition Permissions_parse (s : bytes) : result PermissionError Permissions :=
  match s with
  | [] => Ok []
  | _ => collect Permission_parse (split_char ch_space s)
  end.

Definition Permissions_can (ps : Permissions) (action host : bytes) (port : Z) : bool :=
  existsb (λ p, StringSet_contains (actions p) action && StringSet_contains (hosts p) host
                && PortSet_contains (ports p) port) ps.

Definition default_port (addr : bytes) : bytes :=
  if negb (contains_char ch_colon addr) then addr ++ str ":80" else addr.

Definition Can (action addr : bytes) (whitelist blacklist : option Permissions) : bool :=
  match split_host_port (default_port addr) with
  | Err _ => false
  | Ok (host, port_str) =>
      match parse_u16 port_str with
      | None => false
      | Some port =>
          let wl_ok := match whitelist with None => true | Some w => Permissions_can w action host port end in
          let bl_ok := match blacklist with None => true | Some b => negb (Permissions_can b action host port) end in
          wl_ok && bl_ok
      end
  end.

(** ** Specifications *)

(** Wildcard matching: [*] stands for any string, every other character for
    itself. *)
Inductive glob : bytes → bytes → Prop :=
| glob_nil : glob [] []
| glob_char c p s : c ≠ ch_star → glob p s → glob (c :: p) (c :: s)
| glob_star p s t : glob p t → glob (ch_star :: p) (s ++ t).

(** A rule grants an action on a host and port. *)
Definition rule_grants (p : Permission) (action host : bytes) (port : Z) : Prop :=
  (∃ a, a ∈ actions p ∧ glob a action) ∧ (∃ h, h ∈ hosts p ∧ glob h host)
  ∧ ∃ r, r ∈ ports p ∧ pr_min r ≤ port ≤ pr_max r.

Definition granted (ps : Permissions) (action host : bytes) (port : Z) : Prop :=
  ∃ p, p ∈ ps ∧ rule_grants p action host port.

(** ** The matcher: greedy matching of parts *)

(** [rest_match qs t]: after a [*], the parts match [t], each anywhere, the
    last one at the end. *)
Fixpoint rest_match (qs : list bytes) (t : bytes) : Prop :=
  match qs with
  | [] => t = []
  | [q] => ∃ u, t = u ++ q
  | q :: qs => ∃ u v, t = u ++ q ++ v ∧ rest_match qs v
  end.

Definition parts_match (ps : list bytes) (s : bytes) : Prop :=
  match ps with
  | [] => False
  | [p] => s = p
  | p :: qs => ∃ t, s = p ++ t ∧ rest_match qs t
  end.

Lemma rest_match_cons q qs t :
  qs ≠ [] → rest_match (q :: qs) t ↔ ∃ u v, t = u ++ q ++ v ∧ rest_match qs v.
Proof. by destruct qs. Qed.

Lemma parts_match_cons p qs s :
  qs ≠ [] → parts_match (p :: qs) s ↔ ∃ t, s = p ++ t ∧ rest_match qs t.
Proof. by destruct qs. Qed.

(** What precedes a match can be absorbed by the [*] before it. *)
Lemma rest_match_absorb qs u t : qs ≠ [] → rest_match qs t → rest_match qs (u ++ t).
Proof.
  destruct qs as [|q [|q' qs]]; [done|..]; intros _.
  - intros [w ->]. exists (u ++ w). by rewrite app_assoc.
  - intros (w & v & -> & Hv). exists (u ++ w), v. by rewrite <-!app_assoc.
Qed.

Lemma glob_app_char p q s : ch_star ∉ p → glob (p ++ q) s ↔ ∃ t, s = p ++ t ∧ glob q t.
Proof.
  revert s. induction p as [|c p IH]; intros s Hn; cbn; [split; [by exists s|by intros (t & -> & ?)]|].
  assert (c ≠ ch_star ∧ ch_star ∉ p) as [Hc Hp] by set_solver. split.
  - intros Hg. inversion Hg; subst; [|done]. destruct (IH s0 Hp) as [(t & -> & Ht) _]; [done|].
    by exists t.
  - intros (t & -> & Ht). constructor; [done|]. apply IH; [done|]. by exists t.
Qed.

Lemma glob_star_iff p s : glob (ch_star :: p) s ↔ ∃ u v, s = u ++ v ∧ glob p v.
Proof.
  split.
  - intros Hg. inversion Hg; subst; [done|]. eauto.
  - intros (u & v & -> & Hv). by constructor.
Qed.

(** A pattern is its parts joined by [*]. *)
Definition join_parts (ps : list bytes) : bytes :=
  match ps with [] => [] | p :: ps => p ++ concat ((λ q, ch_star :: q) <$> ps) end.

Lemma glob_rest qs t :
  qs ≠ [] → Forall (λ q, ch_star ∉ q) qs →
  glob (concat ((λ q, ch_star :: q) <$> qs)) t ↔ rest_match qs t.
Proof.
  revert t. induction qs as [|q qs IH]; intros t Hne Hq; [done|]. inversion Hq; subst. clear Hne.
  rewrite fmap_cons. cbn [concat]. rewrite <-app_comm_cons, glob_star_iff.
  destruct (decide (qs = [])) as [->|Hne].
  - cbn. rewrite app_nil_r. split.
    + intros (u & v & -> & Hv). rewrite <-(app_nil_r q) in Hv. rewrite glob_app_char in Hv by done.
      destruct Hv as (w & -> & Hw). inversion Hw; subst. exists u. by rewrite app_nil_r.
    + intros [u ->]. exists u, q. split; [done|]. rewrite <-(app_nil_r q) at 1.
      apply glob_app_char; [done|]. exists []. rewrite app_nil_r. split; [done|constructor].
  - rewrite rest_match_cons by done. split.
    + intros (u & v & -> & Hv). apply glob_app_char in Hv as (w & -> & Hw); [|done].
      apply IH in Hw; [|done|done]. eauto.
    + intros (u & v & -> & Hv). exists u, (q ++ v). split; [done|].
      apply glob_app_char; [done|]. exists v. split; [done|]. by apply IH.
Qed.

Lemma glob_parts ps s :
  ps ≠ [] → Forall (λ q, ch_star ∉ q) ps → glob (join_parts ps) s ↔ parts_match ps s.
Proof.
  intros Hne Hq. destruct ps as [|p qs]; [done|]. inversion Hq; subst. cbn [join_parts].
  rewrite glob_app_char by done. destruct (decide (qs = [])) as [->|Hqs].
  - cbn. split.
    + intros (t & -> & Ht). inversion Ht; subst. by rewrite app_nil_r.
    + intros ->. exists []. rewrite app_nil_r. split; [done|constructor].
  - rewrite parts_match_cons by done. split.
    + intros (t & -> & Ht). exists t. split; [done|]. by apply glob_rest.
    + intros (t & -> & Ht). exists t. split; [done|]. by apply glob_rest.
Qed.

(** The loop past the first part takes the leftmost occurrence each time,
    which is enough. *)
Lemma glob_loop_rest lead i qs last subj :
  match glob_loop lead (S i) qs subj with
  | None => False
  | Some rest => ∃ u, rest = u ++ last
  end ↔ rest_match (qs ++ [last]) subj.
Proof.
  revert i subj. induction qs as [|q qs IH]; intros i subj; [done|].
  rewrite <-app_comm_cons, rest_match_cons by (by destruct qs).
  cbn [glob_loop Nat.eqb]. destruct (find_sub q subj) as [idx|] eqn:E.
  - rewrite bool_decide_eq_false_2 by done. change (default 0%nat (Some idx)) with idx. rewrite IH.
    apply find_sub_Some in E as ([t Ht] & Hl & Hmin). split.
    + intros Hr. exists (take idx subj), t. split; [done|].
      assert (drop (idx + length q) subj = t) as <-; [|done].
      rewrite Ht at 1. rewrite <-drop_drop, drop_app_exact by (rewrite length_take; lia).
      apply drop_app_length.
    + intros (u & v & -> & Hv). specialize (Hmin u v eq_refl).
      assert (drop (idx + length q) (u ++ q ++ v)
              = drop (idx + length q) (u ++ q) ++ v) as ->.
      { rewrite app_assoc. apply drop_app_le. rewrite length_app. lia. }
      apply rest_match_absorb; [by destruct qs|done].
  - rewrite bool_decide_eq_true_2 by done. split; [done|].
    intros (u & v & -> & _). by eapply find_sub_None.
Qed.

(** The first part must be a prefix, whether or not the pattern starts with
    [*] (then it is empty). *)
Lemma glob_loop_first lead p qs last subj :
  (lead = true → p = []) →
  match glob_loop lead 0 (p :: qs) subj with
  | None => False
  | Some rest => ∃ u, rest = u ++ last
  end ↔ ∃ t, subj = p ++ t ∧ rest_match (qs ++ [last]) t.
Proof.
  intros Hlead. cbn [glob_loop Nat.eqb].
  assert (find_sub p subj = Some 0%nat ↔ ∃ t, subj = p ++ t) as Hpre.
  { rewrite <-starts_with_spec. destruct subj; cbn; destruct (starts_with p _) eqn:E; try done.
    split; [|done]. by destruct (find_sub p subj). }
  destruct (decide (find_sub p subj = Some 0%nat)) as [E|E].
  - rewrite (bool_decide_eq_true_2 _ E), andb_false_r, E. cbn [default].
    apply Hpre in E as [t ->]. change (default 0%nat (Some 0%nat)) with 0%nat.
    rewrite Nat.add_0_l, drop_app_length, glob_loop_rest. split.
    + intros Ht. by exists t.
    + intros (t' & Ht' & Hr). apply app_inv_head in Ht'. by subst.
  - destruct lead.
    { exfalso. apply E, Hpre. rewrite Hlead by done. by exists subj. }
    rewrite (bool_decide_eq_false_2 _ E). cbn [negb andb]. split; [done|].
    intros (t & Ht & _). apply E, Hpre. by exists t.
Qed.

Lemma split_leading c s : starts_with [c] s = true → ∃ ps, split_char c s = [] :: ps.
Proof.
  intros [t ->]%starts_with_spec. cbn. rewrite Z.eqb_refl. by eexists.
Qed.

Lemma split_snoc c t : split_char c (t ++ [c]) = split_char c t ++ [[]].
Proof.
  induction t as [|b t IH]; cbn; [by rewrite Z.eqb_refl|]. rewrite IH.
  destruct (b =? c); [done|]. pose proof (split_char_nonempty c t).
  by destruct (split_char c t).
Qed.

(** The test on the parts, for a pattern with at least one [*]. *)
Lemma go_glob_parts pattern p mid last subj :
  split_char ch_star pattern = p :: mid ++ [last] →
  match glob_loop (starts_with [ch_star] pattern) 0 (p :: mid) subj with
  | None => false
  | Some rest => ends_with [ch_star] pattern || ends_with last rest
  end = true ↔ parts_match (p :: mid ++ [last]) subj.
Proof.
  intros Hs. rewrite parts_match_cons by (by destruct mid).
  rewrite <-(glob_loop_first (starts_with [ch_star] pattern)).
  - destruct (glob_loop _ 0 (p :: mid) subj) as [rest|]; [|done].
    rewrite orb_true_iff, (ends_with_spec last). split; [|by right]. intros [Ht|?]; [|done].
    apply ends_with_spec in Ht as [t ->]. rewrite split_snoc, app_comm_cons in Hs.
    apply app_inj_tail in Hs as [_ <-]. exists rest. by rewrite app_nil_r.
  - intros [ps Hps]%split_leading. congruence.
Qed.

Lemma split_multi c s :
  (length (split_char c s) ≠ 1)%nat → ∃ p mid last, split_char c s = p :: mid ++ [last].
Proof.
  intros Hl. pose proof (split_char_nonempty c s) as Hne.
  destruct (split_char c s) as [|p qs]; [done|].
  destruct (exists_last (l := qs)) as (mid & last & ->); [intros ->; by apply Hl|]. eauto.
Qed.

Lemma not_in_drop (c : Z) n l : c ∉ l → c ∉ drop n l.
Proof. intros H Hd. apply H. rewrite <-(take_drop n l). set_solver. Qed.

(** Shapes of addresses. *)
Lemma finish_split_Ok s host i j k h p :
  finish_split s host i j k = Ok (h, p) →
  (ch_lbracket ∉ drop j s) ∧ (ch_rbracket ∉ drop k s) ∧ h = host ∧ p = drop (i + 1) s.
Proof.
  unfold finish_split. repeat case_goal; intros; simplify_eq.
  by rewrite !contains_char_false in *.
Qed.

Lemma finish_split_intro s host i j k p :
  ch_lbracket ∉ drop j s → ch_rbracket ∉ drop k s → p = drop (i + 1) s →
  finish_split s host i j k = Ok (host, p).
Proof.
  intros Hl Hr ->. unfold finish_split.
  apply contains_char_false in Hl, Hr. by rewrite Hl, Hr.
Qed.

(** The bracketed address found by the indices is the bracketed shape. *)
Lemma bracket_split t e :
  (ch_lbracket :: t) !! e = Some ch_rbracket → (ch_lbracket :: t) !! (e + 1)%nat = Some ch_colon →
  ch_lbracket :: t = ch_lbracket :: drop 1 (take e (ch_lbracket :: t))
                       ++ ch_rbracket :: ch_colon :: drop (e + 1 + 1) (ch_lbracket :: t).
Proof.
  intros He Hc. destruct e as [|e]; [done|]. cbn in He, Hc |- *. f_equal. rewrite drop_0.
  rewrite <-(take_drop_middle t e ch_rbracket) at 1 by done. f_equal. f_equal.
  replace (e + 1 + 1)%nat with (S (S e)) by lia. replace (e + 1)%nat with (S e) in Hc by lia.
  by apply drop_S.
Qed.

(** ** Properties *)

Lemma go_glob_spec pattern subj : go_glob pattern subj = true ↔ glob pattern subj.
Proof.
  pose proof (split_char_nonempty ch_star pattern) as Hne.
  pose proof (split_char_pieces ch_star pattern) as Hpc.
  assert (glob pattern subj ↔ parts_match (split_char ch_star pattern) subj) as Hspec.
  { rewrite <-glob_parts by done. unfold join_parts. by rewrite <-split_char_join. }
  unfold go_glob. destruct pattern as [|c0 pat]; [rewrite Hspec; apply bool_decide_eq_true|].
  case_bool_decide as Hstar.
  { rewrite Hstar. split; [|done]. intros _. rewrite <-(app_nil_r subj). repeat constructor. }
  rewrite Hspec. destruct (Nat.eqb_spec (length (split_char ch_star (c0 :: pat))) 1) as [H1|H1].
  - pose proof (split_char_join ch_star (c0 :: pat)) as Hj.
    destruct (split_char ch_star (c0 :: pat)) as [|p [|]]; [done| |done].
    rewrite app_nil_r in Hj. rewrite bool_decide_eq_true, Hj. done.
  - destruct (split_multi _ _ H1) as (p & mid & last & Hs).
    rewrite Hs, <-(go_glob_parts (c0 :: pat) p mid last subj Hs). cbn [length]. rewrite length_app. cbn [length].
    replace (S (length mid + 1) - 1)%nat with (length (p :: mid)) by (cbn; lia).
    rewrite app_comm_cons, take_app_length.
    assert (((p :: mid) ++ [last]) !!! length (p :: mid) = last) as ->; [|done].
    rewrite list_lookup_total_alt, lookup_app_r, Nat.sub_diag by lia. done.
Qed.

(** The permission matcher is wildcard matching: [go_glob] accepts a
    subject exactly when the pattern, read with [*] for any string and every
    other character literally, matches it. *)
Theorem go_glob_iff pattern subj : go_glob pattern subj = true ↔ glob pattern subj.
Proof. apply go_glob_spec. Qed.

Lemma split_host_port_spec s h p :
  split_host_port s = Ok (h, p) ↔
    Forall (λ c, c ≠ ch_colon ∧ c ≠ ch_lbracket ∧ c ≠ ch_rbracket) p
    ∧ Forall (λ c, c ≠ ch_lbracket ∧ c ≠ ch_rbracket) h
    ∧ (s = h ++ ch_colon :: p ∧ Forall (λ c, c ≠ ch_colon) h
       ∨ s = ch_lbracket :: h ++ ch_rbracket :: ch_colon :: p).
Proof.
  rewrite !Forall_forall. unfold split_host_port. split.
  - destruct (rfind_char ch_colon s) as [i|] eqn:Ei; [|done].
    apply rfind_char_Some in Ei as [Hi Hlast].
    destruct (starts_with [ch_lbracket] s) eqn:Eb.
    + apply starts_with_spec in Eb as [t ->]. cbn [app] in *.
      destruct (find_char ch_rbracket _) as [e|] eqn:Ee; [|done].
      case_goal; [done|]. destruct (Nat.eqb_spec (e + 1) i) as [<-|]; [|case_goal; done].
      apply find_char_Some in Ee as [He Hfirst]. intros Hf.
      apply finish_split_Ok in Hf as (Hl & Hr & Eh & Ep).
      pose proof (bracket_split t e He Hi) as Hs. rewrite <-Eh, <-Ep in Hs.
      replace (S (e + 1)) with (e + 1 + 1)%nat in Hlast by lia. rewrite <-Ep in Hlast.
      assert (ch_rbracket ∉ p) by (rewrite Ep, <-drop_drop; by apply not_in_drop).
      assert (ch_rbracket ∉ h) by (rewrite Eh; by apply not_in_drop).
      rewrite Hs in Hl. cbn [drop] in Hl. rewrite drop_0 in Hl.
      split_and!; [set_solver..|by right].
    + destruct (contains_char ch_colon (take i s)) eqn:Ec; [done|]. intros Hf.
      apply finish_split_Ok in Hf as (Hl & Hr & -> & ->). rewrite !drop_0 in *.
      apply contains_char_false in Ec. replace (i + 1)%nat with (S i) by lia.
      rewrite <-(take_drop_middle s i ch_colon) in Hl, Hr by done.
      split_and!; [set_solver..|]. left. split; [by rewrite take_drop_middle|set_solver].
  - intros (Hp & Hh & [[-> Hc]| ->]).
    + rewrite (rfind_middle _ h p) by set_solver.
      destruct (starts_with [ch_lbracket] (h ++ ch_colon :: p)) eqn:Eb.
      { exfalso. apply starts_with_spec in Eb as [t Ht]. destruct h; [done|].
        cbn in Ht. injection Ht as -> _. set_solver. }
      rewrite take_app_length. assert (contains_char ch_colon h = false) as ->
        by (apply contains_char_false; set_solver).
      apply finish_split_intro; rewrite ?drop_0; [set_solver..|].
      by rewrite <-drop_drop, drop_app_length.
    + set (u := ch_lbracket :: h ++ [ch_rbracket]).
      assert (ch_lbracket :: h ++ ch_rbracket :: ch_colon :: p = u ++ ch_colon :: p) as Eu
        by (unfold u; cbn; by rewrite <-app_assoc).
      assert (find_char ch_rbracket (u ++ ch_colon :: p) = Some (S (length h))) as Ef.
      { rewrite <-Eu, app_comm_cons, find_middle; [done|]. set_solver. }
      rewrite Eu, (rfind_middle _ u p), Ef by set_solver.
      change (starts_with [ch_lbracket] (u ++ ch_colon :: p)) with true.
      assert (length u = S (length h + 1)) as Hu by (unfold u; cbn; by rewrite length_app).
      destruct (Nat.eqb_spec (S (length h) + 1) (length (u ++ ch_colon :: p))) as [E|_].
      { rewrite length_app, Hu in E. cbn [length] in E. lia. }
      destruct (Nat.eqb_spec (S (length h) + 1) (length u)) as [_|?]; [|rewrite Hu in *; lia].
      assert (drop 1 (take (S (length h)) (u ++ ch_colon :: p)) = h) as ->.
      { rewrite <-Eu. cbn [take drop]. by rewrite drop_0, take_app_length. }
      apply finish_split_intro.
      * rewrite <-Eu. cbn [drop]. rewrite drop_0. set_solver.
      * replace (S (length h) + 1)%nat with (length u) by (rewrite Hu; lia). rewrite drop_app_length. set_solver.
      * by rewrite <-drop_drop, drop_app_length.
Qed.

(** [split_host_port] accepts exactly two shapes of address and returns
    their parts: [host:port] without further colons or brackets, and
    [[host]:port], where only the host may hold colons. Anything else is an
    error. *)
Theorem split_host_port_iff s h p :
  split_host_port s = Ok (h, p) ↔
    Forall (λ c, c ≠ ch_colon ∧ c ≠ ch_lbracket ∧ c ≠ ch_rbracket) p
    ∧ Forall (λ c, c ≠ ch_lbracket ∧ c ≠ ch_rbracket) h
    ∧ (s = h ++ ch_colon :: p ∧ Forall (λ c, c ≠ ch_colon) h
       ∨ s = ch_lbracket :: h ++ ch_rbracket :: ch_colon :: p).
Proof. apply split_host_port_spec. Qed.

(** ** Port ranges *)

Lemma PortRange_contains_spec r port :
  PortRange_contains r port = true ↔ pr_min r ≤ port ≤ pr_max r.
Proof. unfold PortRange_contains. rewrite andb_true_iff, !Z.leb_le. done. Qed.

(** A port [0..65535] is in the range a rule's text parses to exactly
    when the text is [*], is that port's number, or is two numbers joined by
    [-] with the port between them in either order: clamping the bounds to
    [0..65535] neither adds nor loses a port, and a range wholly outside it
    (such as [70000-80000]) matches none. *)
Theorem port_range_exact s port :
  0 ≤ port ≤ 65535 →
  (∃ r, PortRange_parse s = Ok r ∧ PortRange_contains r port = true) ↔
  s = [ch_star] ∨ ((ch_minus ∉ s) ∧ parse_i64 s = Some port)
  ∨ ∃ a b lo hi, (ch_minus ∉ a) ∧ s = a ++ ch_minus :: b ∧ parse_i64 a = Some lo
                 ∧ parse_i64 b = Some hi ∧ Z.min lo hi ≤ port ≤ Z.max lo hi.
Proof.
  intros Hport. unfold PortRange_parse. destruct (decide (s = [ch_star])) as [->|Hs].
  { split; [by left|]. intros _. eexists. split; [done|]. apply PortRange_contains_spec. done. }
  rewrite bool_decide_eq_false_2 by done.
  destruct (split_once ch_minus s) as [[a b]|] eqn:E.
  - apply split_once_Some in E as E'. destruct E' as [Ha ->]. split.
    + intros (r & Hr & Hc). apply PortRange_contains_spec in Hc. right; right.
      exists a, b. destruct (parse_i64 a) as [lo|]; [|done]. destruct (parse_i64 b) as [hi|]; [|done].
      injection Hr as <-. cbn in Hc. exists lo, hi. split_and!; [done..|lia|lia].
    + intros [|[[Hn _]|(a' & b' & lo & hi & Ha' & Hs' & Hlo & Hhi & Hp)]]; [done|set_solver|].
      assert (split_once ch_minus (a ++ ch_minus :: b) = Some (a', b')) as E'
        by (by apply split_once_Some).
      rewrite E in E'. injection E' as -> ->. rewrite Hlo, Hhi. eexists. split; [done|].
      apply PortRange_contains_spec. cbn. lia.
  - apply split_once_None in E. split.
    + intros (r & Hr & Hc). apply PortRange_contains_spec in Hc. right; left. split; [done|].
      destruct (parse_i64 s) as [v|]; [|done]. cbn in Hr. case_hyp Hr; [done|].
      injection Hr as <-. cbn in Hc. f_equal. lia.
    + intros [|[[_ ->]|(a & b & lo & hi & _ & -> & _)]]; [done| |set_solver].
      cbn. case_goal; [zbool; lia|]. eexists. split; [done|]. apply PortRange_contains_spec. cbn. lia.
Qed.

Lemma port_range_exact_witness :
  ∃ r, PortRange_parse (str "99999-8080") = Ok r ∧ PortRange_contains r 65535 = true.
Proof.
  apply (port_range_exact (str "99999-8080") 65535); [lia|]. right; right.
  exists (str "99999"), (str "8080"), 99999, 8080.
  split_and!; [by apply (bool_decide_unpack _)|done..].
Defined.

Lemma show_int_no_sep n c : 0 ≤ n → is_digit c = false → c ∉ show_int n.
Proof.
  intros Hn Hc Hin. pose proof (show_int_digits n Hn) as Hd.
  rewrite Forall_forall in Hd. specialize (Hd _ Hin). congruence.
Qed.

(** Printing a non-empty port range and parsing it again gives the same
    range. *)
Theorem port_range_roundtrip r :
  0 ≤ pr_min r ≤ pr_max r → pr_max r ≤ 65535 → PortRange_parse (PortRange_display r) = Ok r.
Proof.
  destruct r as [mn mx]. cbn [pr_min pr_max]. intros Hmn Hmx.
  assert (∀ n, 0 ≤ n ≤ 65535 → parse_i64 (show_int n) = Some n) as Hps.
  { intros n Hn. apply parse_show_signed; unfold i64_min, i64_max; lia. }
  assert (∀ n t, 0 ≤ n → show_int n ++ t ≠ [ch_star]) as Hstar.
  { intros n t Hn E. pose proof (show_int_digits n Hn) as Hd.
    destruct (show_int_cons n Hn) as (d & ds & Es). rewrite Es in E, Hd.
    injection E as -> _. by inversion Hd. }
  unfold PortRange_display, PortRange_parse. cbn [pr_min pr_max].
  destruct (Z.eqb_spec mn mx) as [->|Hne].
  - rewrite bool_decide_eq_false_2 by (rewrite <-(app_nil_r (show_int mx)); apply Hstar; lia).
    rewrite (proj2 (split_once_None _ _)) by (apply show_int_no_sep; [lia|done]).
    rewrite Hps by lia. cbn. case_goal; [zbool; lia|done].
  - rewrite bool_decide_eq_false_2 by (apply Hstar; lia).
    rewrite (proj2 (split_once_Some _ _ (show_int mn) (show_int mx)))
      by (split; [apply show_int_no_sep; [lia|done]|done]).
    rewrite !Hps by lia. cbn. do 2 f_equal; lia.
Qed.

Lemma port_range_roundtrip_witness :
  PortRange_parse (PortRange_display (mkPortRange 80 8080)) = Ok (mkPortRange 80 8080).
Proof. apply (port_range_roundtrip (mkPortRange 80 8080)); cbn; lia. Defined.

(** ** The policy *)

Lemma Permissions_can_spec ps action host port :
  Permissions_can ps action host port = true ↔ granted ps action host port.
Proof.
  unfold Permissions_can, granted, rule_grants, StringSet_contains, PortSet_contains.
  rewrite existsb_exists. f_equiv. intros p. rewrite <-list_elem_of_In, !andb_true_iff, !existsb_exists.
  setoid_rewrite PortRange_contains_spec. setoid_rewrite go_glob_spec.
  setoid_rewrite <-list_elem_of_In. tauto.
Qed.

(** C7: [Can] allows an action on an address exactly when the address (with
    [:80] appended when it has no colon) splits into a host and a port number
    that fits 16 bits, some whitelist rule grants it if there is a whitelist,
    and no blacklist rule grants it if there is a blacklist; in every other
    case, a malformed address included, the action is refused. *)
Theorem can_policy action addr wl bl :
  Can action addr wl bl = true ↔
  ∃ host p port, split_host_port (default_port addr) = Ok (host, p) ∧ parse_u16 p = Some port
    ∧ (∀ w, wl = Some w → granted w action host port)
    ∧ (∀ b, bl = Some b → ¬ granted b action host port).
Proof.
  unfold Can. destruct (split_host_port _) as [[host p]|]; [|naive_solver].
  destruct (parse_u16 p) as [port|] eqn:Ep; [|naive_solver].
  assert ((match wl with None => true | Some w => Permissions_can w action host port end) = true
          ↔ ∀ w, wl = Some w → granted w action host port) as Hw.
  { destruct wl as [w|]; [|naive_solver]. rewrite Permissions_can_spec. naive_solver. }
  assert ((match bl with None => true | Some b => negb (Permissions_can b action host port) end) = true
          ↔ ∀ b, bl = Some b → ¬ granted b action host port) as Hb.
  { destruct bl as [b|]; [|naive_solver].
    rewrite negb_true_iff, <-not_true_iff_false, Permissions_can_spec. naive_solver. }
  rewrite andb_true_iff, Hw, Hb. naive_solver.
Qed.
