(* ===== verification/Duration.v ===== *)
(** * Durations

    Models the two duration parsers: [parse_go_duration] of src/auth.rs and
    [parse_duration] of src/node.rs. Their arithmetic is IEEE binary64, given
    by the Standard Library's executable specification of floating point;
    a [Duration] is its number of nanoseconds. *)

From stdpp Require Import base list option numbers strings.
From Stdlib Require Import ZArith Lia SpecFloat.
From S2P Require Import Prelude Text.

(** ** Binary64 *)

Definition f64 : Set := spec_float.
Definition f64_mul : f64 → f64 → f64 := SFmul 53 1024.
Definition f64_add : f64 → f64 → f64 := SFadd 53 1024.

(** [m / 10^k], correctly rounded. *)
Definition f64_ratio (m : Z) (k : nat) : f64 :=
  match m, 10 ^ Z.of_nat k with
  | Z.pos p, Z.pos q => SFdiv 53 1024 (S754_finite false p 0) (S754_finite false q 0)
  | _, _ => S754_zero false
  end.
Definition f64_of_Z (m : Z) : f64 := f64_ratio m 0.

(** [s.parse::<f64>()] for a text of digits and dots. *)
Definition parse_f64 (s : bytes) : option f64 :=
  match split_char ch_dot s with
  | [i] => (λ m, f64_of_Z m) <$> parse_digits i
  | [i; f] => (λ m, f64_ratio m (length f)) <$> parse_digits (i ++ f)
  | _ => None
  end.

Definition f64_is_finite (x : f64) : bool :=
  match x with S754_infinity _ | S754_nan => false | _ => true end.

Definition f64_lt (x y : f64) : bool :=
  match SFcompare x y with Some Lt => true | _ => false end.

(** [x as u64]: truncated towards zero, saturated, 0 for a NaN. *)
Definition f64_as_u64 (x : f64) : Z :=
  match x with
  | S754_finite false m e => Z.min (Z.shiftl (Z.pos m) e) u64_max
  | S754_infinity false => u64_max
  | _ => 0
  end.

(** ** Units *)

Definition micro_sign : bytes := [194; 181; 115].
Definition greek_mu : bytes := [206; 188; 115].
Definition ns_s : Z := 1000000000.

(** A number character of a duration. *)
Definition is_num (c : Z) : bool := is_digit c || (c =? ch_dot).

Definition prefix_len (p : Z → bool) (s : bytes) : nat :=
  default (length s) (find_pred p s).

(** ** [parse_go_duration] *)

(** The unit at the start of [rest], in nanoseconds, and its length. *)
Definition go_unit (rest : bytes) : option (f64 * nat) :=
  if starts_with (str "ns") rest then Some (f64_of_Z 1, 2%nat)
  else if starts_with (str "us") rest then Some (f64_of_Z 1000, 2%nat)
  else if starts_with micro_sign rest then Some (f64_of_Z 1000, length micro_sign)
  else if starts_with greek_mu rest then Some (f64_of_Z 1000, length greek_mu)
  else if starts_with (str "ms") rest then Some (f64_of_Z 1000000, 2%nat)
  else if starts_with (str "s") rest then Some (f64_of_Z ns_s, 1%nat)
  else if starts_with (str "m") rest then Some (f64_mul (f64_of_Z 60) (f64_of_Z ns_s), 1%nat)
  else if starts_with (str "h") rest then Some (f64_mul (f64_of_Z 3600) (f64_of_Z ns_s), 1%nat)
  else None.

(** One turn of the loop: the rest of the text and the new total. *)
Definition go_turn (rest : bytes) (total : f64) : option (bytes * f64) :=
  let num_len := prefix_len (λ c, negb (is_num c)) rest in
  if (num_len =? 0)%nat then None
  else
    let num_str := take num_len rest in
    if bool_decide (num_str = [ch_dot]) || (1 <? length (filter (.= ch_dot) num_str))%nat then None
    else
      match parse_f64 num_str with
      | None => None
      | Some value =>
          let rest := drop num_len rest in
          match go_unit rest with
          | None => None
          | Some (unit_nanos, unit_len) =>
              Some (drop unit_len rest, f64_add total (f64_mul value unit_nanos))
          end
      end.

(** The loop, on a fuel of the length of the text: every turn consumes some. *)
Fixpoint go_loop (fuel : nat) (rest : bytes) (total : f64) : option f64 :=
  match rest with
  | [] => Some total
  | _ =>
      match fuel with
      | O => None
      | S fuel =>
          match go_turn rest total with
          | None => None
          | Some (rest', total') => go_loop fuel rest' total'
          end
      end
  end.

Definition parse_go_duration (s : bytes) : option Z :=
  let '(neg, rest) :=
    match strip_prefix [ch_minus] s with
    | Some r => (true, r)
    | None => (false, default s (strip_prefix [ch_plus] s))
    end in
  if bool_decide (rest = [ch_zero]) then Some 0
  else
    match rest with
    | [] => None
    | _ =>
        match go_loop (length rest) rest (S754_zero false) with
        | None => None
        | Some total =>
            if neg && f64_lt (S754_zero false) total then None
            else Some (f64_as_u64 total)
        end
    end.

(** ** [parse_duration] *)

Definition node_unit (u : bytes) : option f64 :=
  if bool_decide (u = str "ns") then Some (f64_of_Z 1)
  else if bool_decide (u = str "us") || bool_decide (u = micro_sign) || bool_decide (u = greek_mu)
  then Some (f64_of_Z 1000)
  else if bool_decide (u = str "ms") then Some (f64_of_Z 1000000)
  else if bool_decide (u = str "s") then Some (f64_of_Z ns_s)
  else if bool_decide (u = str "m") then Some (f64_of_Z (60 * ns_s))
  else if bool_decide (u = str "h") then Some (f64_of_Z (3600 * ns_s))
  else None.

(** One turn: every component is truncated to nanoseconds on its own. *)
Definition node_turn (rest : bytes) (total : Z) : option (bytes * Z) :=
  let num_len := prefix_len (λ c, negb (is_num c)) rest in
  if (num_len =? 0)%nat then None
  else
    match parse_f64 (take num_len rest) with
    | None => None
    | Some value =>
        let rest := drop num_len rest in
        let unit_len := prefix_len is_digit rest in
        if (unit_len =? 0)%nat then None
        else
          match node_unit (take unit_len rest) with
          | None => None
          | Some nanos_per_unit =>
              let nanos := f64_mul value nanos_per_unit in
              if negb (f64_is_finite nanos) || f64_lt nanos (S754_zero false) then None
              else Some (drop unit_len rest, total + f64_as_u64 nanos)
          end
    end.

Fixpoint node_loop (fuel : nat) (rest : bytes) (total : Z) : option Z :=
  match rest with
  | [] => Some total
  | _ =>
      match fuel with
      | O => None
      | S fuel =>
          match node_turn rest total with
          | None => None
          | Some (rest', total') => node_loop fuel rest' total'
          end
      end
  end.

(** The flag [saw_unit] is false only for an empty rest, that is for a lone
    sign. *)
Definition parse_duration (s : bytes) : option Z :=
  let s := trim s in
  match s with
  | [] => None
  | _ =>
      match parse_u64 s with
      | Some n => Some (n * ns_s)
      | None =>
          let '(negative, rest) :=
            match strip_prefix [ch_minus] s with
            | Some r => (true, r)
            | None => (false, default s (strip_prefix [ch_plus] s))
            end in
          if bool_decide (rest = [ch_zero]) then Some 0
          else
            match rest with
            | [] => None
            | _ => total ← node_loop (length rest) rest 0; Some (if negative : bool then 0 else total)
            end
      end
  end.

(** ** Termination: a turn consumes text, so the fuel is enough *)

Lemma prefix_len_le p s : (prefix_len p s ≤ length s)%nat.
Proof.
  unfold prefix_len. destruct (find_pred p s) eqn:E; cbn; [|lia].
  apply find_pred_Some in E as (u & c & v & -> & <- & _). rewrite length_app. cbn. lia.
Qed.

Lemma go_turn_shorter rest total rest' total' :
  go_turn rest total = Some (rest', total') → (length rest' < length rest)%nat.
Proof.
  unfold go_turn. pose proof (prefix_len_le (λ c, negb (is_num c)) rest) as Hl.
  destruct (Nat.eqb_spec (prefix_len (λ c, negb (is_num c)) rest) 0); [done|].
  repeat (case_goal; try done). intros [= <- <-]. rewrite !length_drop. lia.
Qed.

Lemma node_turn_shorter rest total rest' total' :
  node_turn rest total = Some (rest', total') → (length rest' < length rest)%nat.
Proof.
  unfold node_turn. pose proof (prefix_len_le (λ c, negb (is_num c)) rest) as Hl.
  destruct (Nat.eqb_spec (prefix_len (λ c, negb (is_num c)) rest) 0); [done|].
  repeat (case_goal; try done). intros [= <- <-]. rewrite !length_drop. lia.
Qed.

Lemma go_loop_fuel fuel fuel' rest total :
  (length rest ≤ fuel)%nat → (length rest ≤ fuel')%nat → go_loop fuel rest total = go_loop fuel' rest total.
Proof.
  revert fuel' rest total. induction fuel as [|fuel IH]; intros fuel' rest total H1 H2.
  { destruct rest; cbn in H1; [by destruct fuel'|lia]. }
  destruct rest as [|b rest]; [by destruct fuel'|]. destruct fuel' as [|fuel']; [cbn in H2; lia|].
  cbn [go_loop]. destruct (go_turn (b :: rest) total) as [[rest' total']|] eqn:E; [|done].
  apply go_turn_shorter in E. apply IH; lia.
Qed.

Example go_duration_examples :
  parse_go_duration (str "2h45m") = Some 9900000000000
  ∧ parse_go_duration (str "1.5h") = Some 5400000000000
  ∧ parse_go_duration (str "300ms") = Some 300000000
  ∧ parse_go_duration (str "-1s") = None ∧ parse_go_duration (str "10") = None
  ∧ parse_duration (str "10") = Some 10000000000
  ∧ parse_duration (str "-1m30s") = Some 0.
Proof. vm_compute. done. Qed.
