(* ===== verification/Node.v ===== *)
(** * Proxy nodes

    Models src/node.rs: the [Node] record, its failure marker, the URL
    helpers and the accessors. The [url] crate is the parameter [url_parse];
    [Arc<FailMarker>] is a location in a store of markers, so that a clone of
    a node shares its marker; [Arc<Bypass>] is a location likewise. *)

From stdpp Require Import base list option numbers strings gmap sets.
From Stdlib Require Import ZArith Lia.
From S2P Require Import Prelude Text Duration.

(** ** [FailMarker] *)

Record FailMarker : Set := mkMarker { fail_time : Z; fail_count : Z }.

Definition FailMarker_new : FailMarker := mkMarker 0 0.
Definition FailMarker_mark (now : Z) (m : FailMarker) : FailMarker :=
  mkMarker now (u32 (fail_count m + 1)).
Definition FailMarker_reset (m : FailMarker) : FailMarker := mkMarker 0 0.

(** The heap of markers behind the [Arc]s. *)
Abbreviation Markers := (gmap nat FailMarker).
Definition marker_at (ms : Markers) (l : nat) : FailMarker := default FailMarker_new (ms !! l).

(** ** [Node] *)

Inductive ParseNodeError : Type :=
| PNEmpty
| PNInvalidUrl
| PNInvalid (s : bytes).

Record Node : Type := mkNode {
  id : Z;
  addr : bytes;
  host : bytes;
  protocol : bytes;
  transport : bytes;
  remote : bytes;
  user : option (bytes * option bytes);
  values : gmap bytes bytes;
  marker : nat;
  bypass : option nat
}.

(** [Node::default()], whose fresh marker is the location [l]. *)
Definition Node_default (l : nat) : Node := mkNode 0 [] [] [] [] [] None ∅ l None.

Definition mark_dead (now : Z) (n : Node) (ms : Markers) : Markers :=
  <[marker n := FailMarker_mark now (marker_at ms (marker n))]> ms.
Definition reset_dead (n : Node) (ms : Markers) : Markers :=
  <[marker n := FailMarker_reset (marker_at ms (marker n))]> ms.

(** ** Schemes *)

Definition transports : list bytes :=
  str <$> ["tls"; "mtls"; "http2"; "h2"; "h2c"; "ws"; "mws"; "wss"; "mwss"; "kcp"; "ssh";
           "quic"; "ohttp"; "otls"; "obfs4"; "tcp"; "udp"; "rtcp"; "rudp"; "tun"; "tap";
           "ftcp"; "dns"; "redu"; "redirectu"; "vsock"; "ssu"]%string.

Definition normalize_transport (t : bytes) : bytes :=
  if bool_decide (t = str "https") then str "tls"
  else if bool_decide (t ∈ transports) then
    if bool_decide (t = str "ssu") then str "udp" else t
  else str "tcp".

Definition protocols : list bytes :=
  str <$> ["http"; "http2"; "socks4"; "socks4a"; "ss"; "ssu"; "sni"; "tcp"; "udp"; "rtcp";
           "rudp"; "direct"; "remote"; "forward"; "red"; "redirect"; "redu"; "redirectu";
           "tun"; "tap"; "ftcp"; "dns"; "dot"; "doh"; "relay"]%string.

Definition normalize_protocol (p : bytes) : bytes :=
  if bool_decide (p = str "https") then str "http"
  else if bool_decide (p = str "socks") || bool_decide (p = str "socks5") then str "socks5"
  else if bool_decide (p = str "ss2") then str "ss"
  else if bool_decide (p ∈ protocols) then p
  else [].

(** The protocol and transport of a scheme, before normalisation. *)
Definition split_scheme (scheme : bytes) : bytes * bytes :=
  match split_char ch_plus scheme with
  | [p; t] => (p, t)
  | p :: _ => (p, p)
  | [] => ([], [])
  end.

(** The scheme [Display] writes for a protocol and transport. *)
Definition display_scheme (protocol transport : bytes) : bytes :=
  if bool_decide (protocol = []) then
    if bool_decide (transport = []) || bool_decide (transport = str "tcp") then str "auto"
    else str "auto+" ++ transport
  else if bool_decide (protocol = transport) || bool_decide (transport = str "tcp")
          || bool_decide (transport = []) then protocol
  else protocol ++ [ch_plus] ++ transport.

Definition Node_display (n : Node) : bytes :=
  display_scheme (protocol n) (transport n) ++ str "://" ++ addr n.

(** ** The authority of a URL *)

Definition is_auth_end (c : Z) : bool := (c =? ch_slash) || (c =? 63) || (c =? ch_hash).

(** Where the authority starts and ends. *)
Definition auth_span (s : bytes) : option (nat * nat) :=
  match find_sub (str "://") s with
  | None => None
  | Some i =>
      let auth_start := (i + 3)%nat in
      Some (auth_start,
            match find_pred is_auth_end (drop auth_start s) with
            | Some j => (auth_start + j)%nat
            | None => length s
            end)
  end.

Definition raw_host_port (s : bytes) : option bytes :=
  match auth_span s with
  | None => None
  | Some (auth_start, auth_end) =>
      let authority := take (auth_end - auth_start) (drop auth_start s) in
      Some match rfind_char ch_at authority with
           | Some i => drop (i + 1) authority
           | None => authority
           end
  end.

Definition SENTINEL : bytes := str "0.0.0.0".

Definition insert_sentinel_host (s : bytes) : bytes * bool :=
  match auth_span s with
  | None => (s, false)
  | Some (auth_start, auth_end) =>
      let authority := take (auth_end - auth_start) (drop auth_start s) in
      let host_start := match rfind_char ch_at authority with Some i => (i + 1)%nat | None => 0%nat end in
      let hostport := drop host_start authority in
      if negb (bool_decide (hostport = [])) && negb (starts_with [ch_colon] hostport) then (s, false)
      else (take (auth_start + host_start) s ++ SENTINEL ++ drop (auth_start + host_start) s, true)
  end.

(** ** Accessors *)

Definition parse_go_bool (s : bytes) : option bool :=
  if bool_decide (s ∈ str <$> ["1"; "t"; "T"; "TRUE"; "true"; "True"]%string) then Some true
  else if bool_decide (s ∈ str <$> ["0"; "f"; "F"; "FALSE"; "false"; "False"]%string) then Some false
  else None.

Definition Node_get (n : Node) (key : bytes) : option bytes := values n !! key.
Definition get_bool (n : Node) (key : bytes) : bool :=
  default false (values n !! key ≫= parse_go_bool).
Definition get_int (n : Node) (key : bytes) : Z :=
  default 0 (values n !! key ≫= parse_i64).

Definition get_duration (n : Node) (key : bytes) : Z :=
  match values n !! key with
  | Some v => default 0 (parse_duration v)
  | None => 0
  end.

Definition bind_addr (n : Node) : bytes :=
  match strip_prefix [ch_colon] (addr n) with
  | Some port => str "0.0.0.0:" ++ port
  | None => addr n
  end.

(** ** [Node::parse] *)

(** What the [url] crate gives for a parsed URL. *)
Record Url : Type := mkUrl {
  u_scheme : bytes;
  u_host_str : option bytes;
  u_path : bytes;
  u_username : bytes;
  u_password : option bytes;
  u_query_pairs : list (bytes * bytes)
}.

(** [trim_matches('/')] *)
Fixpoint trim_slashes (s : bytes) : bytes :=
  match s with
  | [] => []
  | c :: s' => if c =? ch_slash then trim_slashes s' else s
  end.
Definition trim_matches_slash (s : bytes) : bytes :=
  reverse (trim_slashes (reverse (trim_slashes s))).

Section parse.
Variable url_parse : bytes → option Url.

(** The parsed node, whose fresh marker is the location [l]. A later value of
    a repeated query key replaces the earlier one. *)
Definition Node_parse (l : nat) (s : bytes) : result ParseNodeError Node :=
  let s := trim s in
  match s with
  | [] => Err PNEmpty
  | _ =>
      let s := match find_sub (str "://") s with
               | None => str "auto://" ++ s
               | Some _ => s
               end in
      let '(sentinel_url, _) := insert_sentinel_host s in
      match url_parse sentinel_url with
      | None => Err PNInvalidUrl
      | Some u =>
          let addr := match raw_host_port s with
                      | Some hp => hp
                      | None => default [] (u_host_str u)
                      end in
          let user := match u_username u with
                      | [] => None
                      | name => Some (name, u_password u)
                      end in
          let values := foldl (λ m kv, <[kv.1 := kv.2]> m) ∅ (u_query_pairs u) in
          let '(p, t) := split_scheme (u_scheme u) in
          Ok (mkNode 0 addr addr (normalize_protocol p) (normalize_transport t)
                     (trim_matches_slash (u_path u)) user values l None)
      end
  end.
End parse.

(** ** The sentinel host *)

(** A URL cut at its [://], its userinfo, its host and port, and the rest. *)
Record url_shape (pre ui hp post : bytes) : Prop := {
  us_scheme : find_sub (str "://") (pre ++ str "://" ++ []) = Some (length pre);
  us_auth : Forall (λ c, is_auth_end c = false) (ui ++ hp);
  us_ui : ui = [] ∨ ∃ w, ui = w ++ [ch_at];
  us_hp : ch_at ∉ hp;
  us_post : post = [] ∨ ∃ c v, post = c :: v ∧ is_auth_end c = true
}.

Definition url_text (pre ui hp post : bytes) : bytes := pre ++ str "://" ++ ui ++ hp ++ post.

Lemma authority_shape (pre ui hp post : bytes) :
  take (length pre + 3 + length (ui ++ hp) - (length pre + 3)) (drop (length pre + 3) (url_text pre ui hp post))
  = ui ++ hp.
Proof.
  unfold url_text. rewrite <-drop_drop, drop_app_length.
  change 3%nat with (length (str "://")) at 3. rewrite drop_app_length, app_assoc.
  rewrite Nat.add_comm, Nat.add_sub. apply take_app_length.
Qed.

Lemma auth_span_shape pre ui hp post :
  url_shape pre ui hp post →
  auth_span (url_text pre ui hp post)
  = Some ((length pre + 3)%nat, (length pre + 3 + length (ui ++ hp))%nat).
Proof.
  intros [Hs Ha _ _ Hp]. unfold auth_span. unfold url_text at 1.
  rewrite (find_sub_prefix _ _ _ (ui ++ hp ++ post) _ Hs eq_refl). do 2 f_equal.
  assert (drop (length pre + 3) (url_text pre ui hp post) = (ui ++ hp) ++ post) as ->.
  { unfold url_text. rewrite <-drop_drop, drop_app_length.
    change 3%nat with (length (str "://")). by rewrite drop_app_length, app_assoc. }
  destruct Hp as [->|(c & v & -> & Hc)].
  - rewrite app_nil_r, find_pred_all by done. unfold url_text. rewrite !length_app. cbn. lia.
  - by rewrite find_pred_middle.
Qed.

Lemma rfind_at_shape ui hp :
  (ui = [] ∨ ∃ w, ui = w ++ [ch_at]) → ch_at ∉ hp →
  match rfind_char ch_at (ui ++ hp) with Some i => (i + 1)%nat | None => 0%nat end = length ui.
Proof.
  intros [->|[w ->]] Hh.
  - rewrite app_nil_l, (proj2 (rfind_char_None ch_at hp)); done.
  - rewrite <-app_assoc. cbn. rewrite rfind_middle by done. by rewrite length_app.
Qed.

Lemma raw_host_port_shape pre ui hp post :
  url_shape pre ui hp post → raw_host_port (url_text pre ui hp post) = Some hp.
Proof.
  intros Hs. unfold raw_host_port. rewrite auth_span_shape, authority_shape by done.
  pose proof (rfind_at_shape ui hp (us_ui _ _ _ _ Hs) (us_hp _ _ _ _ Hs)) as Hr.
  destruct (rfind_char ch_at (ui ++ hp)).
  - by rewrite Hr, drop_app_length.
  - destruct ui; done.
Qed.

Lemma insert_sentinel_shape pre ui hp post :
  url_shape pre ui hp post →
  insert_sentinel_host (url_text pre ui hp post)
  = if negb (bool_decide (hp = [])) && negb (starts_with [ch_colon] hp)
    then (url_text pre ui hp post, false)
    else (url_text pre ui (SENTINEL ++ hp) post, true).
Proof.
  intros Hs. unfold insert_sentinel_host. rewrite auth_span_shape, authority_shape by done.
  rewrite (rfind_at_shape ui hp (us_ui _ _ _ _ Hs) (us_hp _ _ _ _ Hs)), drop_app_length.
  case_goal; [done|]. f_equal.
  assert (url_text pre ui hp post = (pre ++ str "://" ++ ui) ++ hp ++ post) as ->
    by (unfold url_text; by rewrite <-!app_assoc).
  assert ((length pre + 3 + length ui)%nat = length (pre ++ str "://" ++ ui)) as ->
    by (rewrite !length_app; cbn; lia).
  rewrite take_app_length, drop_app_length. unfold url_text. by rewrite <-!app_assoc.
Qed.

Lemma split_at_last (c : Z) (s : bytes) :
  ∃ u v, s = u ++ v ∧ (u = [] ∨ ∃ w, u = w ++ [c]) ∧ c ∉ v.
Proof.
  destruct (rfind_char c s) as [i|] eqn:E.
  - apply rfind_char_Some in E as [Hi Hn]. exists (take (S i) s), (drop (S i) s).
    rewrite take_drop. split_and!; [done| |done]. right. exists (take i s). by apply take_S_r.
  - apply rfind_char_None in E. exists [], s. split_and!; [done|by left|done].
Qed.

Lemma raw_host_port_inv s hp :
  raw_host_port s = Some hp → ∃ pre ui post, s = url_text pre ui hp post ∧ url_shape pre ui hp post.
Proof.
  intros Hr. assert (∃ pre ui hp' post, s = url_text pre ui hp' post ∧ url_shape pre ui hp' post)
    as (pre & ui & hp' & post & -> & Hs).
  - unfold raw_host_port, auth_span in Hr.
    destruct (find_sub (str "://") s) as [i|] eqn:Es; [|done]. clear Hr.
    destruct (find_sub_Some _ _ _ Es) as ([t Ht] & Hl & _). set (pre := take i s) in *.
    assert (length pre = i) as Hpre by (unfold pre; rewrite length_take; lia).
    assert (find_sub (str "://") (pre ++ str "://" ++ []) = Some (length pre)) as Hpr.
    { rewrite Ht in Es. by apply (find_sub_prefix _ _ t [] i). }
    assert (∃ auth post, t = auth ++ post ∧ Forall (λ c, is_auth_end c = false) auth
              ∧ (post = [] ∨ ∃ c v, post = c :: v ∧ is_auth_end c = true))
      as (auth & post & -> & Ha & Hp).
    { destruct (find_pred is_auth_end t) as [j|] eqn:Ej.
      - apply find_pred_Some in Ej as (u & c & v & -> & _ & Hc & Hu). exists u, (c :: v). eauto 10.
      - apply find_pred_None in Ej. exists t, []. rewrite app_nil_r. eauto. }
    destruct (split_at_last ch_at auth) as (ui & hp' & -> & Hui & Hhp).
    exists pre, ui, hp', post. split; [|done]. unfold url_text. by rewrite (app_assoc ui).
  - rewrite raw_host_port_shape in Hr by done. injection Hr as ->. by exists pre, ui, post.
Qed.

Lemma sentinel_ok : Forall (λ c, is_auth_end c = false) SENTINEL ∧ ch_at ∉ SENTINEL.
Proof.
  split; [repeat constructor|]. intros Hin. apply list_elem_of_In in Hin. vm_compute in Hin.
  intuition discriminate.
Qed.

(** The sentinel host is inserted exactly when the authority names no
    host, it is the only change to the URL (scheme, userinfo, port, path and
    query stay byte for byte), and the authority read back has it in front of
    what was written there, so the URL the parser sees always has a host. *)
Theorem sentinel_transparent s hp :
  raw_host_port s = Some hp →
  ∃ pre post, s = pre ++ hp ++ post
    ∧ ((hp ≠ [] ∧ starts_with [ch_colon] hp = false ∧ insert_sentinel_host s = (s, false))
       ∨ ((hp = [] ∨ starts_with [ch_colon] hp = true)
          ∧ insert_sentinel_host s = (pre ++ SENTINEL ++ hp ++ post, true)
          ∧ raw_host_port (pre ++ SENTINEL ++ hp ++ post) = Some (SENTINEL ++ hp))).
Proof.
  intros Hr. destruct sentinel_ok as [Hse Hsn]. destruct (raw_host_port_inv s hp Hr) as (pre & ui & post & -> & Hs).
  assert (∀ h, url_text pre ui h post = (pre ++ str "://" ++ ui) ++ h ++ post) as Ht
    by (intros h; unfold url_text; by rewrite <-!app_assoc).
  exists (pre ++ str "://" ++ ui), post. split; [apply Ht|].
  rewrite insert_sentinel_shape by done. case_bool_decide as He; cbn [negb andb].
  - right. subst. split_and!; [by left|by rewrite Ht|].
    rewrite (app_assoc SENTINEL), <-Ht. apply raw_host_port_shape.
    destruct Hs as [H1 H2 H3 H4 H5]. rewrite app_nil_r in H2. split; [done| |done| |done].
    + rewrite app_nil_r, Forall_app. done.
    + by rewrite app_nil_r.
  - destruct (starts_with [ch_colon] hp) eqn:Ec; cbn [negb]; [right|by left].
    split_and!; [by right|by rewrite Ht, <-(app_assoc SENTINEL)|].
    rewrite (app_assoc SENTINEL), <-Ht. apply raw_host_port_shape.
    destruct Hs as [H1 H2 H3 H4 H5]. apply Forall_app in H2 as [H2 H2'].
    split; [done| |done| |done].
    + rewrite !Forall_app. done.
    + rewrite not_elem_of_app. done.
Qed.

Lemma sentinel_transparent_witness :
  insert_sentinel_host (str "http://u:p@:80/x") = (str "http://u:p@0.0.0.0:80/x", true)
  ∧ ∃ pre post, str "http://u:p@:80/x" = pre ++ str ":80" ++ post
      ∧ raw_host_port (pre ++ SENTINEL ++ str ":80" ++ post) = Some (SENTINEL ++ str ":80").
Proof.
  split; [reflexivity|].
  destruct (sentinel_transparent (str "http://u:p@:80/x") (str ":80") eq_refl)
    as (pre & post & E & [(_ & H & _)|(_ & _ & H)]); [discriminate H|by exists pre, post].
Defined.

(** ** Printed nodes *)

(** The protocols and transports a parsed node can have. *)
Definition norm_protocols : list bytes := [] :: str "socks5" :: protocols.
Definition norm_transports : list bytes := normalize_transport <$> transports.

Lemma normalize_protocol_in p : normalize_protocol p ∈ norm_protocols.
Proof.
  unfold normalize_protocol, norm_protocols. destruct (bool_decide (p = str "https")).
  { apply (bool_decide_unpack _). by vm_compute. }
  destruct (_ || _); [set_solver|]. destruct (bool_decide (p = str "ss2")).
  { apply (bool_decide_unpack _). by vm_compute. }
  case_bool_decide; set_solver.
Qed.

Lemma normalize_transport_in t : normalize_transport t ∈ norm_transports.
Proof.
  unfold normalize_transport at 1. case_bool_decide; [apply (bool_decide_unpack _); by vm_compute|].
  case_bool_decide; [|apply (bool_decide_unpack _); by vm_compute].
  case_bool_decide; [apply (bool_decide_unpack _); by vm_compute|].
  unfold norm_transports. apply list_elem_of_fmap. exists t. split; [|done]. unfold normalize_transport.
  rewrite bool_decide_eq_false_2, bool_decide_eq_true_2, bool_decide_eq_false_2 by done. done.
Qed.

(** What holds of every pair of them, by evaluation. *)
Definition scheme_ok (p t : bytes) : bool :=
  bool_decide (find_sub (str "://") (display_scheme p t ++ str "://" ++ []) = Some (length (display_scheme p t)))
  && (bool_decide (t = str "tcp" ∧ normalize_transport p ≠ str "tcp")
      || (let '(p', t') := split_scheme (display_scheme p t) in
          bool_decide (normalize_protocol p' = p ∧ normalize_transport t' = t))).

Lemma scheme_table p t : p ∈ norm_protocols → t ∈ norm_transports → scheme_ok p t = true.
Proof.
  intros Hp Ht.
  assert (forallb (λ p, forallb (scheme_ok p) norm_transports) norm_protocols = true) as H
    by (vm_compute; reflexivity).
  rewrite forallb_forall in H. specialize (H p (proj1 (list_elem_of_In _ _) Hp)).
  rewrite forallb_forall in H. by apply H, list_elem_of_In.
Qed.

Lemma find_sub_is_Some p u t : ∃ i, find_sub p (u ++ p ++ t) = Some i.
Proof. destruct (find_sub p (u ++ p ++ t)) eqn:E; [eauto|]. by eapply find_sub_None in E. Qed.

Lemma raw_host_port_Some s i : find_sub (str "://") s = Some i → is_Some (raw_host_port s).
Proof. intros E. unfold raw_host_port, auth_span. rewrite E. eauto. Qed.

(** A parsed node's address holds no delimiter, and its protocol and
    transport are normalised. *)
Lemma Node_parse_fields url_parse l s n :
  Node_parse url_parse l s = Ok n →
  Forall (λ c, is_auth_end c = false) (addr n) ∧ ch_at ∉ addr n
  ∧ protocol n ∈ norm_protocols ∧ transport n ∈ norm_transports.
Proof.
  unfold Node_parse. destruct (trim s) as [|b r]; [done|].
  set (s' := match find_sub _ (b :: r) with None => _ | Some _ => _ end).
  assert (is_Some (raw_host_port s')) as [hp Hhp].
  { unfold s'. destruct (find_sub (str "://") (b :: r)) eqn:E; [by eapply raw_host_port_Some|].
    destruct (find_sub_is_Some (str "://") (str "auto") (b :: r)) as [i Hi].
    by apply raw_host_port_Some in Hi. }
  rewrite Hhp. destruct (insert_sentinel_host s') as [su ?]. destruct (url_parse su) as [u|]; [|done].
  destruct (split_scheme (u_scheme u)) as [p t]. intros [= <-]. cbn.
  apply raw_host_port_inv in Hhp as (pre & ui & post & _ & [_ Ha _ Hat _]).
  apply Forall_app in Ha as [_ Ha].
  split_and!; [done..|apply normalize_protocol_in|apply normalize_transport_in].
Qed.

(** Printing a parsed node and parsing the text again gives a node with
    the same address, protocol and transport, provided the URL library
    accepts the printed text and reads its scheme, and unless the transport
    is plain [tcp] while the protocol implies another transport (such as
    [udp+tcp], printed as [udp]). *)
Theorem node_display_parse url_parse l l' s n u :
  Node_parse url_parse l s = Ok n →
  (transport n = str "tcp" → normalize_transport (protocol n) = str "tcp") →
  trim (Node_display n) = Node_display n →
  url_parse (fst (insert_sentinel_host (Node_display n))) = Some u →
  u_scheme u = display_scheme (protocol n) (transport n) →
  ∃ n', Node_parse url_parse l' (Node_display n) = Ok n' ∧ addr n' = addr n
        ∧ protocol n' = protocol n ∧ transport n' = transport n.
Proof.
  intros Hp Htcp Htrim Hu Hsc. apply Node_parse_fields in Hp as (Ha & Hat & Hpr & Htr).
  pose proof (scheme_table _ _ Hpr Htr) as Hok. unfold scheme_ok in Hok.
  apply andb_true_iff in Hok as [Hf Hok]. apply bool_decide_eq_true in Hf.
  rewrite bool_decide_eq_false_2 in Hok by tauto. cbn [orb] in Hok.
  assert (Node_display n = url_text (display_scheme (protocol n) (transport n)) [] (addr n) []) as Ed
    by (unfold url_text; cbn [app]; by rewrite app_nil_r).
  assert (url_shape (display_scheme (protocol n) (transport n)) [] (addr n) []) as Hs
    by (split; [done|done|by left|done|by left]).
  pose proof (raw_host_port_shape _ _ _ _ Hs) as Hraw. rewrite <-Ed in Hraw.
  unfold Node_parse. rewrite Htrim.
  destruct (find_sub_is_Some (str "://") (display_scheme (protocol n) (transport n)) (addr n)) as [i Hi].
  change (find_sub (str "://") (Node_display n) = Some i) in Hi.
  destruct (Node_display n) as [|b r] eqn:En; [done|]. rewrite Hi, Hraw.
  destruct (insert_sentinel_host (b :: r)) as [su ?]. cbn [fst] in Hu. rewrite Hu, Hsc.
  destruct (split_scheme _) as [p t]. apply bool_decide_eq_true in Hok as [<- <-].
  eexists. split; [reflexivity|]. done.
Qed.

Lemma node_display_parse_witness :
  let url_parse (b : bytes) := Some (mkUrl (take (default 0%nat (find_sub (str "://") b)) b) None [] [] None []) in
  ∃ n', Node_parse url_parse 1 (str "http+tls://:443") = Ok n' ∧ addr n' = str ":443"
        ∧ protocol n' = str "http" ∧ transport n' = str "tls".
Proof.
  intros url_parse.
  apply (node_display_parse url_parse 0 1 (str "https://:443")
           (mkNode 0 (str ":443") (str ":443") (str "http") (str "tls") [] None ∅ 0 None)
           (mkUrl (str "http+tls") None [] [] None []));
    vm_compute; done.
Defined.
