(* ===== verification/Selector.v ===== *)
(** * Node selection

    Models src/selector.rs and the [NodeGroup] of src/node.rs. The trait
    objects [dyn Filter], [dyn Strategy] and [dyn NodeSelector] are inductive
    types with one constructor per implementation in the source, carrying the
    implementation's state. The clock and the random index are arguments:
    [clock f k] is the [k]-th reading of [SystemTime::now] (in seconds) by the
    [f]-th filter, and [gen_range len] an index below [len]. *)

From stdpp Require Import base list option numbers strings gmap sets sorting.
From Stdlib Require Import ZArith Lia.
From S2P Require Import Prelude Text Node.

Inductive SelectError : Set := NoneAvailable.

(** ** Strategies *)

Inductive Strategy : Set :=
| RoundStrategy (counter : Z)
| RandomStrategy
| FifoStrategy.

(** [nodes[n as usize % nodes.len()]], on a non-empty list. *)
Definition nth_mod (fresh : nat) (nodes : list Node) (n : Z) : Node :=
  default (Node_default fresh) (nodes !! Z.to_nat (n mod zlen nodes)).

(** [fresh] is the marker location of [Node::default()]. *)
Definition Strategy_apply (fresh : nat) (gen_range : nat → nat) (s : Strategy) (nodes : list Node) :
    Node * Strategy :=
  match nodes with
  | [] => (Node_default fresh, s)
  | n0 :: _ =>
      match s with
      | RoundStrategy c => (nth_mod fresh nodes c, RoundStrategy (u64 (c + 1)))
      | RandomStrategy => (default (Node_default fresh) (nodes !! gen_range (length nodes)), s)
      | FifoStrategy => (n0, s)
      end
  end.

Definition new_strategy (name : bytes) : Strategy :=
  if bool_decide (name = str "random") then RandomStrategy
  else if bool_decide (name = str "fifo") then FifoStrategy
  else RoundStrategy 0.

(** ** Filters *)

Record PingEntry : Set := mkPing { latency_ms : Z; expires_at : Z }.
Abbreviation Results := (gmap Z PingEntry).

(** Durations are in nanoseconds. *)
Definition secs : Z := 1000000000.
Definition as_secs (d : Z) : Z := d / secs.
Definition DEFAULT_MAX_FAILS : Z := 1.
Definition DEFAULT_FAIL_TIMEOUT : Z := 30 * secs.
Definition DEFAULT_PING_TIMEOUT : Z := 3 * secs.

Inductive Filter : Type :=
| InvalidFilter
| FailFilter (max_fails fail_timeout : Z)
| FastestFilter (top_count : nat) (ping_timeout : Z) (results : Results).

Definition FailFilter_new (max_fails fail_timeout : Z) : Filter :=
  FailFilter (if max_fails =? 0 then DEFAULT_MAX_FAILS else max_fails)
             (if fail_timeout =? 0 then DEFAULT_FAIL_TIMEOUT else fail_timeout).

Definition FastestFilter_new (ping_timeout : Z) (top_count : nat) : Filter :=
  FastestFilter top_count (if ping_timeout =? 0 then DEFAULT_PING_TIMEOUT else ping_timeout) ∅.

(** [InvalidFilter]: the port after the last colon is a number in [1..65535]. *)
Definition valid_port (n : Node) : bool :=
  match rfind_char ch_colon (addr n) with
  | Some idx => match parse_u16 (drop (idx + 1) (addr n)) with
                | Some port => 0 <? port
                | None => false
                end
  | None => false
  end.

(** [FailFilter]: [now] and the failure time are both non-negative, so their
    difference fits [i64]. *)
Definition fail_keeps (ms : Markers) (now max_fails fail_timeout : Z) (n : Node) : bool :=
  let m := marker_at ms (marker n) in
  (fail_count m <? max_fails) || (to_signed 64 (as_secs fail_timeout) <=? now - fail_time m).

(** [latency_of]: the cached latency, the updated cache, and whether a probe
    is started. *)
Definition latency_of (now : Z) (results : Results) (n : Node) : Z * Results * bool :=
  let entry := results !! id n in
  let stale := match entry with Some e => expires_at e <? now | None => true end in
  let lat := match entry with Some e => latency_ms e | None => 0 end in
  (lat, if stale then <[id n := mkPing lat (now + 5)]> results else results, stale).

Definition set_latency (now : Z) (results : Results) (node_id lat : Z) : Results :=
  <[node_id := mkPing lat (now + 300)]> results.

(** The end of the task [spawn_probe] starts: [elapsed] is the time of the
    connect in milliseconds, [None] when it failed or timed out, and [jitter]
    the whole part of [120.0 * random()]. *)
Definition probe_done (now ping_timeout : Z) (elapsed : option Z) (jitter : Z) (results : Results)
    (node_id : Z) : Results :=
  let lat := match elapsed with Some ms => ms | None => ping_timeout / 1000000 end in
  <[node_id := mkPing lat (now + (300 - jitter))]> results.

(** [nodes.iter().map(|n| (self.latency_of(n), n.clone()))], with the probes
    started. *)
Fixpoint score (now : nat → Z) (results : Results) (nodes : list Node) :
    list (Z * Node) * Results * list (Z * bytes) :=
  match nodes with
  | [] => ([], results, [])
  | n :: ns =>
      let '(lat, r1, stale) := latency_of (now 0%nat) results n in
      let '(sc, r2, probes) := score (λ k, now (S k)) r1 ns in
      ((lat, n) :: sc, r2, if stale : bool then (id n, addr n) :: probes else probes)
  end.

(** The stable [sort_by_key(|(latency, _)| *latency)]. *)
Fixpoint insert_by (x : Z * Node) (l : list (Z * Node)) : list (Z * Node) :=
  match l with
  | [] => [x]
  | y :: l' => if x.1 <=? y.1 then x :: l else y :: insert_by x l'
  end.
Definition sort_by_key (l : list (Z * Node)) : list (Z * Node) := foldr insert_by [] l.

(** One [filter.filter(&nodes)]: the nodes kept, the filter's state and the
    probes started. *)
Definition Filter_filter (ms : Markers) (now : nat → Z) (f : Filter) (nodes : list Node) :
    list Node * Filter * list (Z * bytes) :=
  match f with
  | InvalidFilter => (filter (λ n, valid_port n = true) nodes, f, [])
  | FailFilter mf ft =>
      if (length nodes <=? 1)%nat then (nodes, f, [])
      else (filter (λ n, fail_keeps ms (now 0%nat) mf ft n = true) nodes, f, [])
  | FastestFilter top pt results =>
      if (top =? 0)%nat then (nodes, f, [])
      else
        let '(scored, results', probes) := score now results nodes in
        (take top (sort_by_key scored).*2, FastestFilter top pt results', probes)
  end.

(** ** Selectors *)

Inductive NodeSelector : Type :=
| DefaultSelector (counter : Z)
| FilterSelector (filters : list Filter) (strategy : Strategy).

Definition with_filters (strategy : bytes) (max_fails fail_timeout : Z) (fastest_count : nat) :
    NodeSelector :=
  FilterSelector
    ([InvalidFilter; FailFilter_new max_fails fail_timeout]
       ++ if (0 <? fastest_count)%nat then [FastestFilter_new DEFAULT_PING_TIMEOUT fastest_count] else [])
    (new_strategy strategy).

Definition with_fail_filter (strategy : bytes) (max_fails fail_timeout : Z) : NodeSelector :=
  with_filters strategy max_fails fail_timeout 0.

(** The loop over the filters; [None] is the early return of the error. The
    filters already run keep their new state. *)
Fixpoint run_filters (ms : Markers) (clock : nat → nat → Z) (fs : list Filter) (cand : list Node) :
    option (list Node) * list Filter * list (Z * bytes) :=
  match fs with
  | [] => (Some cand, [], [])
  | f :: fs =>
      let '(cand, f', p1) := Filter_filter ms (clock 0%nat) f cand in
      match cand with
      | [] => (None, f' :: fs, p1)
      | _ => let '(r, fs', p2) := run_filters ms (λ k, clock (S k)) fs cand in (r, f' :: fs', p1 ++ p2)
      end
  end.

Section select.
Context (fresh : nat) (ms : Markers) (clock : nat → nat → Z) (gen_range : nat → nat).

Definition select (sel : NodeSelector) (nodes : list Node) :
    result SelectError Node * NodeSelector * list (Z * bytes) :=
  match sel with
  | DefaultSelector c =>
      match nodes with
      | [] => (Err NoneAvailable, sel, [])
      | _ => (Ok (nth_mod fresh nodes c), DefaultSelector (u64 (c + 1)), [])
      end
  | FilterSelector fs st =>
      match run_filters ms clock fs nodes with
      | (None, fs', p) => (Err NoneAvailable, FilterSelector fs' st, p)
      | (Some cand, fs', p) =>
          let '(n, st') := Strategy_apply fresh gen_range st cand in (Ok n, FilterSelector fs' st', p)
      end
  end.
End select.

(** ** [NodeGroup] *)

Record NodeGroup : Type := mkGroup {
  g_id : Z;
  g_nodes : list Node;
  g_selector : option NodeSelector
}.

Definition NodeGroup_new (nodes : list Node) : NodeGroup := mkGroup 0 nodes (Some (DefaultSelector 0)).
Definition add_node (n : Node) (g : NodeGroup) : NodeGroup :=
  mkGroup (g_id g) (g_nodes g ++ [n]) (g_selector g).
Definition get_node (g : NodeGroup) (i : nat) : option Node := g_nodes g !! i.
Definition set_selector (s : NodeSelector) (g : NodeGroup) : NodeGroup :=
  mkGroup (g_id g) (g_nodes g) (Some s).

Definition next (fresh : nat) (ms : Markers) (clock : nat → nat → Z) (gen_range : nat → nat)
    (g : NodeGroup) : result SelectError Node * NodeGroup * list (Z * bytes) :=
  match g_nodes g with
  | [] => (Err NoneAvailable, g, [])
  | nodes =>
      match g_selector g with
      | Some s =>
          let '(r, s', p) := select fresh ms clock gen_range s nodes in
          (r, mkGroup (g_id g) nodes (Some s'), p)
      | None => (Err NoneAvailable, g, [])
      end
  end.

(** ** Round robin *)

(** The results of [k] calls of [next] in a row. *)
Fixpoint nexts (fresh : nat) (ms : Markers) (clock : nat → nat → Z) (gen_range : nat → nat)
    (k : nat) (g : NodeGroup) : list (result SelectError Node) :=
  match k with
  | O => []
  | S k => let '(r, g', _) := next fresh ms clock gen_range g in
           r :: nexts fresh ms clock gen_range k g'
  end.

Lemma nth_mod_lookup fresh nodes c :
  nodes ≠ [] → nodes !! Z.to_nat (c mod zlen nodes) = Some (nth_mod fresh nodes c).
Proof.
  intros Hne. unfold nth_mod. destruct (nodes !! _) as [n|] eqn:E; [done|].
  apply lookup_ge_None in E. unfold zlen in E.
  assert (0 < Z.of_nat (length nodes)) by (destruct nodes; [done|cbn; lia]).
  pose proof (Z.mod_pos_bound c (Z.of_nat (length nodes))). lia.
Qed.

Lemma next_default fresh ms clock gen_range gid nodes c :
  nodes ≠ [] →
  next fresh ms clock gen_range (mkGroup gid nodes (Some (DefaultSelector c)))
  = (Ok (nth_mod fresh nodes c), mkGroup gid nodes (Some (DefaultSelector (u64 (c + 1)))), []).
Proof. by destruct nodes. Qed.

Lemma nexts_default fresh ms clock gen_range k gid nodes c :
  nodes ≠ [] → 0 ≤ c → c + Z.of_nat k ≤ 2 ^ 64 →
  nexts fresh ms clock gen_range k (mkGroup gid nodes (Some (DefaultSelector c)))
  = (λ j, Ok (nth_mod fresh nodes (c + Z.of_nat j))) <$> seq 0 k.
Proof.
  intros Hne. revert c. induction k as [|k IH]; intros c Hc Hk; [done|].
  cbn [nexts seq fmap list_fmap]. rewrite next_default by done. rewrite Z.add_0_r. f_equal.
  destruct k as [|k']; [done|].
  rewrite (wrap_small 64) by lia. rewrite IH by lia. rewrite <-fmap_S_seq, <-list_fmap_compose.
  apply list_fmap_ext. intros i j _. cbn [compose]. unfold compose. do 2 f_equal. lia.
Qed.

Lemma rotation_lookup {A} (l : list A) (c : Z) j :
  0 ≤ c → (j < length l)%nat →
  (drop (Z.to_nat (c mod zlen l)) l ++ take (Z.to_nat (c mod zlen l)) l) !! j
  = l !! Z.to_nat ((c + Z.of_nat j) mod zlen l).
Proof.
  intros Hc Hj. unfold zlen. set (n := Z.of_nat (length l)).
  pose proof (Z.mod_pos_bound c n ltac:(lia)) as Hr. set (r := c mod n) in *.
  assert ((c + Z.of_nat j) mod n = (r + Z.of_nat j) mod n) as -> by (unfold r; by rewrite Zplus_mod_idemp_l).
  destruct (decide (j < length l - Z.to_nat r)%nat) as [Hlt|Hge].
  - rewrite lookup_app_l by (rewrite length_drop; lia). rewrite lookup_drop.
    rewrite Z.mod_small by lia. f_equal. lia.
  - rewrite lookup_app_r by (rewrite length_drop; lia). rewrite length_drop.
    replace ((r + Z.of_nat j) mod n) with (r + Z.of_nat j - n)
      by (apply (Z.mod_unique_pos _ _ 1); lia).
    rewrite lookup_take_lt by lia. f_equal. lia.
Qed.

(** A group with the default selector is fair: as many consecutive
    selections as it has nodes return every node once, in the order of the
    list, starting from the node the counter points at. *)
Theorem round_robin_fair fresh ms clock gen_range gid nodes c :
  nodes ≠ [] → 0 ≤ c → c + zlen nodes ≤ 2 ^ 64 →
  nexts fresh ms clock gen_range (length nodes) (mkGroup gid nodes (Some (DefaultSelector c)))
  = Ok <$> (drop (Z.to_nat (c mod zlen nodes)) nodes ++ take (Z.to_nat (c mod zlen nodes)) nodes).
Proof.
  intros Hne Hc Hb. rewrite nexts_default by done. apply list_eq. intros j.
  rewrite !list_lookup_fmap. destruct (decide (j < length nodes)%nat) as [Hj|Hj].
  - rewrite lookup_seq_lt, rotation_lookup by done. cbn [fmap option_fmap option_map].
    by rewrite (nth_mod_lookup fresh).
  - rewrite lookup_seq_ge, (lookup_ge_None_2 (_ ++ _)); [done| |lia].
    rewrite length_app, length_drop, length_take. lia.
Qed.

Lemma round_robin_fair_witness :
  let a := mkNode 1 (str "a:1") (str "a:1") [] [] [] None ∅ 1 None in
  let b := mkNode 2 (str "b:1") (str "b:1") [] [] [] None ∅ 2 None in
  nexts 0 ∅ (λ _ _, 0) (λ _, 0%nat) 2 (mkGroup 0 [a; b] (Some (DefaultSelector 3))) = [Ok b; Ok a].
Proof. intros a b. apply (round_robin_fair 0 ∅ (λ _ _, 0) (λ _, 0%nat) 0 [a; b] 3); done. Defined.

(** ** The fastest filter *)

(** The latency a cache holds for a node; an unmeasured one counts as 0. *)
Definition cached (results : Results) (n : Node) : Z :=
  match results !! id n with Some e => latency_ms e | None => 0 end.

Lemma latency_of_spec now results n lat r' stale :
  latency_of now results n = (lat, r', stale) → lat = cached results n ∧ ∀ m, cached r' m = cached results m.
Proof.
  unfold latency_of, cached. intros [= <- <- _]. split; [done|]. intros m.
  destruct (match results !! id n with Some e => expires_at e <? now | None => true end); [|done].
  destruct (decide (id m = id n)) as [->|Hne].
  - by rewrite lookup_insert_eq.
  - by rewrite lookup_insert_ne.
Qed.

(** The scores are the cached latencies, and refreshing keeps them. *)
Lemma score_spec now results nodes sc r' p :
  score now results nodes = (sc, r', p) →
  sc = (λ n, (cached results n, n)) <$> nodes ∧ ∀ m, cached r' m = cached results m.
Proof.
  revert now results sc r' p. induction nodes as [|n ns IH]; intros now results sc r' p; cbn [score].
  { by intros [= <- <- _]. }
  destruct (latency_of (now 0%nat) results n) as [[lat r1] stale] eqn:E1.
  destruct (score (λ k, now (S k)) r1 ns) as [[sc2 r2] p2] eqn:E2.
  intros [= <- <- _].
  apply latency_of_spec in E1 as [-> H1]. apply IH in E2 as [-> H2]. split.
  - rewrite fmap_cons. f_equal. apply list_fmap_ext. intros i m _. by rewrite H1.
  - intros m. by rewrite H2.
Qed.

Lemma insert_by_perm x l : insert_by x l ≡ₚ x :: l.
Proof.
  induction l as [|y l IH]; cbn; [done|]. case_goal; [done|]. rewrite IH. apply Permutation_swap.
Qed.

Lemma sort_perm l : sort_by_key l ≡ₚ l.
Proof. induction l as [|x l IH]; cbn; [done|]. by rewrite insert_by_perm, IH. Qed.

Lemma insert_by_sorted x l :
  StronglySorted (λ a b, a.1 ≤ b.1) l → StronglySorted (λ a b, a.1 ≤ b.1) (insert_by x l).
Proof.
  induction 1 as [|y l Hs IH Hy]; cbn; [repeat constructor|].
  case_goal; zbool.
  - constructor; [by constructor|]. constructor; [done|]. eapply Forall_impl; [exact Hy|]. cbn. lia.
  - constructor; [done|]. rewrite insert_by_perm. constructor; [lia|done].
Qed.

Lemma sort_sorted l : StronglySorted (λ a b, a.1 ≤ b.1) (sort_by_key l).
Proof. induction l as [|x l IH]; cbn; [constructor|]. by apply insert_by_sorted. Qed.

(** The sort is stable: entries with the same key keep their order. *)
Lemma insert_by_stable v x l :
  filter (λ a, a.1 = v) (insert_by x l) = filter (λ a, a.1 = v) (x :: l).
Proof.
  induction l as [|y l IH]; cbn [insert_by]; [done|]. case_goal; [done|]. zbool.
  rewrite (filter_cons _ y), IH, !filter_cons. repeat case_decide; try done. lia.
Qed.

Lemma sort_stable v l : filter (λ a, a.1 = v) (sort_by_key l) = filter (λ a, a.1 = v) l.
Proof.
  induction l as [|x l IH]; [done|]. cbn [sort_by_key foldr]. fold (sort_by_key l).
  by rewrite insert_by_stable, !filter_cons, IH.
Qed.

(** Keys that are a function of the node commute with the sort. *)
Lemma scored_keys {K : Node → Z} sc nodes :
  sc ≡ₚ (λ n, (K n, n)) <$> nodes → sc = (λ n, (K n, n)) <$> sc.*2.
Proof.
  intros Hp. rewrite <-list_fmap_compose. rewrite <-(list_fmap_id sc) at 1.
  apply list_fmap_ext. intros i [k n] Hi%list_elem_of_lookup_2. rewrite Hp in Hi.
  apply list_elem_of_fmap in Hi as (m & [= -> ->] & _). done.
Qed.

Lemma filter_scored (K : Node → Z) (v : Z) (l : list Node) :
  filter (λ a, a.1 = v) ((λ n, (K n, n)) <$> l) = (λ n, (K n, n)) <$> filter (λ n, K n = v) l.
Proof.
  induction l as [|n l IH]; [done|]. rewrite fmap_cons, !filter_cons. cbn [fst].
  case_decide; [by rewrite fmap_cons, IH|done].
Qed.

Lemma fastest_filter_spec ms now top pt results nodes :
  (top ≠ 0)%nat →
  ∃ sorted results' probes,
    Filter_filter ms now (FastestFilter top pt results) nodes
      = (take top sorted, FastestFilter top pt results', probes)
    ∧ StronglySorted (λ a b, cached results a ≤ cached results b) sorted
    ∧ (∀ v, filter (λ n, cached results n = v) sorted = filter (λ n, cached results n = v) nodes)
    ∧ sorted ≡ₚ nodes
    ∧ ∀ n, cached results' n = cached results n.
Proof.
  intros Htop. cbn [Filter_filter]. destruct (Nat.eqb_spec top 0) as [|_]; [done|].
  destruct (score now results nodes) as [[sc r'] p] eqn:E. apply score_spec in E as [-> Hr].
  set (K := cached results). set (l := (λ n, (K n, n)) <$> nodes).
  pose proof (sort_perm l) as Hp. pose proof (scored_keys (K := K) _ _ Hp) as Hk.
  exists (sort_by_key l).*2, r', p. split_and!; [done| | | |done].
  - pose proof (sort_sorted l) as Hs. rewrite Hk in Hs. clear -Hs.
    induction ((sort_by_key l).*2) as [|a m IH]; [constructor|]. inversion Hs as [|? ? H1 H2]; subst.
    constructor; [by apply IH|]. by rewrite Forall_fmap in H2.
  - intros v. pose proof (sort_stable v l) as Hs. rewrite Hk, filter_scored in Hs.
    unfold l in Hs. rewrite filter_scored in Hs. fold l in Hs.
    apply (f_equal (fmap snd)) in Hs. rewrite <-!list_fmap_compose in Hs. unfold compose in Hs. cbn in Hs.
    by rewrite !list_fmap_id in Hs.
  - rewrite Hp. unfold l. rewrite <-list_fmap_compose. unfold compose. cbn. by rewrite list_fmap_id.
Qed.

(** The fastest filter keeps the [top_count] lowest-latency nodes: its
    answer is a prefix of a reordering of the nodes in which latencies (as
    cached before the call, 0 when unmeasured) never decrease and nodes of
    equal latency keep their order; it never changes a cached latency, only
    when a measurement expires. *)
Theorem fastest_filter_best ms now top pt results nodes :
  (top ≠ 0)%nat →
  ∃ sorted results' probes,
    Filter_filter ms now (FastestFilter top pt results) nodes
      = (take top sorted, FastestFilter top pt results', probes)
    ∧ StronglySorted (λ a b, cached results a ≤ cached results b) sorted
    ∧ (∀ v, filter (λ n, cached results n = v) sorted = filter (λ n, cached results n = v) nodes)
    ∧ sorted ≡ₚ nodes
    ∧ ∀ n, cached results' n = cached results n.
Proof. apply fastest_filter_spec. Qed.

Lemma fastest_filter_best_witness :
  let a := mkNode 1 (str "a:1") (str "a:1") [] [] [] None ∅ 1 None in
  let b := mkNode 2 (str "b:1") (str "b:1") [] [] [] None ∅ 2 None in
  let results := {[1 := mkPing 90 1000; 2 := mkPing 20 1000]} in
  ∃ sorted, (Filter_filter ∅ (λ _, 5) (FastestFilter 1 0 results) [a; b]).1.1 = take 1 sorted
            ∧ sorted ≡ₚ [a; b].
Proof.
  intros a b results.
  destruct (fastest_filter_best ∅ (λ _, 5) 1 0 results [a; b]) as (sorted & r' & p & E & _ & _ & Hp & _);
    [discriminate|].
  exists sorted. split; [by rewrite E|done].
Defined.

(** ** The failure-aware selector *)

(** The selectors [with_filters] builds, in any state they can reach. *)
Definition fail_selector (max_fails fail_timeout : Z) (sel : NodeSelector) : Prop :=
  ∃ fast st, sel = FilterSelector ([InvalidFilter; FailFilter max_fails fail_timeout] ++ fast) st
    ∧ (fast = [] ∨ ∃ top pt results, (top ≠ 0)%nat ∧ fast = [FastestFilter top pt results]).

Lemma with_filters_shape strategy mf ft top :
  mf ≠ 0 → ft ≠ 0 → fail_selector mf ft (with_filters strategy mf ft top).
Proof.
  intros Hm Hf. unfold with_filters, FailFilter_new.
  destruct (Z.eqb_spec mf 0); [done|]. destruct (Z.eqb_spec ft 0); [done|].
  eexists _, _. split; [reflexivity|]. destruct top as [|top]; cbn; [by left|right].
  by eexists (S top), _, _.
Qed.

(** The nodes it may choose from: those with a valid port, less the ones that
    failed too often too recently, unless a single one is left. *)
Definition eligible (ms : Markers) (now mf ft : Z) (nodes : list Node) : list Node :=
  let valid := filter (λ n, valid_port n = true) nodes in
  if (length valid <=? 1)%nat then valid else filter (λ n, fail_keeps ms now mf ft n = true) valid.

Lemma Strategy_apply_in fresh gen_range st nodes :
  (∀ k, (0 < k)%nat → (gen_range k < k)%nat) → nodes ≠ [] →
  (Strategy_apply fresh gen_range st nodes).1 ∈ nodes.
Proof.
  intros Hg Hne. destruct nodes as [|n0 ns]; [done|]. cbn [Strategy_apply]. destruct st as [c| |].
  - eapply list_elem_of_lookup_2. apply nth_mod_lookup. done.
  - cbn [fst]. destruct (lookup_lt_is_Some_2 (n0 :: ns) (gen_range (length (n0 :: ns)))) as [x Hx].
    { apply Hg. cbn. lia. }
    rewrite Hx. cbn. by eapply list_elem_of_lookup_2.
  - cbn [fst]. set_solver.
Qed.

(** What the filters of such a selector leave. *)
Lemma run_fail_filters ms clock mf ft fast nodes :
  (fast = [] ∨ ∃ top pt results, (top ≠ 0)%nat ∧ fast = [FastestFilter top pt results]) →
  let cand := eligible ms (clock 1%nat 0%nat) mf ft nodes in
  ∃ r fast' p, run_filters ms clock ([InvalidFilter; FailFilter mf ft] ++ fast) nodes
      = (r, [InvalidFilter; FailFilter mf ft] ++ fast', p)
    ∧ (fast' = [] ∨ ∃ top pt results, (top ≠ 0)%nat ∧ fast' = [FastestFilter top pt results])
    ∧ match r with
      | None => cand = []
      | Some l => l ≠ [] ∧ ∀ n, n ∈ l → n ∈ cand
      end.
Proof.
  intros Hfast cand. unfold cand, eligible. cbn [app run_filters Filter_filter].
  set (valid := filter _ nodes). destruct valid as [|v vs] eqn:Ev; [by eexists _, fast, _|].
  rewrite <-Ev. set (l := if (length valid <=? 1)%nat then _ else filter _ valid).
  assert ((if (length valid <=? 1)%nat then (valid, FailFilter mf ft, @nil (Z * bytes))
           else (filter (λ n, fail_keeps ms (clock 1%nat 0%nat) mf ft n = true) valid, FailFilter mf ft, []))
          = (l, FailFilter mf ft, [])) as -> by (unfold l; by destruct (_ <=? _)%nat).
  destruct l as [|x xs] eqn:El; [by eexists _, fast, _|]. rewrite <-El.
  destruct Hfast as [->|(top & pt & results & Htop & ->)].
  { eexists (Some l), [], []. split_and!; [reflexivity|by left|by rewrite El|done]. }
  destruct (fastest_filter_spec ms (clock 2%nat) top pt results l Htop)
    as (sorted & r' & p & E & _ & _ & Hp & _).
  cbn [run_filters]. rewrite E. destruct (take top sorted) as [|y ys] eqn:Et.
  { exfalso. rewrite El in Hp. destruct sorted as [|z zs]; [by apply Permutation_nil_cons in Hp|].
    by destruct top. }
  rewrite <-Et. eexists (Some (take top sorted)), [_], _.
  split_and!; [reflexivity|right; by eexists _, _, _| |].
  - by rewrite Et.
  - intros n Hn. rewrite <-Hp. by eapply subseteq_take.
Qed.

Lemma fail_selector_step fresh ms clock gen_range mf ft sel nodes :
  fail_selector mf ft sel → (∀ k, (0 < k)%nat → (gen_range k < k)%nat) →
  let '(r, sel', _) := select fresh ms clock gen_range sel nodes in
  fail_selector mf ft sel'
  ∧ match r with
    | Ok n => n ∈ eligible ms (clock 1%nat 0%nat) mf ft nodes
    | Err NoneAvailable => eligible ms (clock 1%nat 0%nat) mf ft nodes = []
    end.
Proof.
  intros (fast & st & -> & Hf) Hg. cbn [select].
  destruct (run_fail_filters ms clock mf ft fast nodes Hf) as (r & fast' & p & E & Hf' & Hr).
  rewrite E. destruct r as [l|].
  - destruct Hr as [Hne Hin]. pose proof (Strategy_apply_in fresh gen_range st l Hg Hne) as Ha.
    destruct (Strategy_apply _ _ st l) as [n st']. split; [by exists fast', st'|]. by apply Hin.
  - split; [by exists fast', st|done].
Qed.

Lemma eligible_two ms now mf ft nodes n k r :
  n ∈ nodes → valid_port n = true → k ∈ nodes → valid_port k = true → n ≠ k →
  r ∈ eligible ms now mf ft nodes ↔
  r ∈ nodes ∧ valid_port r = true ∧ fail_keeps ms now mf ft r = true.
Proof.
  intros Hn Hvn Hk Hvk Hne. unfold eligible. set (valid := filter _ nodes).
  assert (n ∈ valid ∧ k ∈ valid) as [Hn' Hk'] by (unfold valid; rewrite !list_elem_of_filter; done).
  destruct (Nat.leb_spec (length valid) 1) as [Hl|_].
  - exfalso. destruct valid as [|x [|y l]]; [set_solver| |cbn in Hl; lia].
    apply Hne. apply list_elem_of_singleton in Hn', Hk'. congruence.
  - unfold valid. rewrite !list_elem_of_filter. tauto.
Qed.

(** ** What an eligible node is *)

(** The address ends in a port number from 1 to 65535. *)
Definition good_port (n : Node) : Prop :=
  ∃ h p port, addr n = h ++ ch_colon :: p ∧ (ch_colon ∉ p) ∧ parse_u16 p = Some port ∧ 0 < port.

(** Not failed too often, or not recently. *)
Definition alive (ms : Markers) (now mf ft : Z) (n : Node) : Prop :=
  fail_count (marker_at ms (marker n)) < mf
  ∨ to_signed 64 (as_secs ft) ≤ now - fail_time (marker_at ms (marker n)).

(** The only node of the group with a good port. *)
Definition lone (nodes : list Node) (n : Node) : Prop :=
  ∃ l1 l2, nodes = l1 ++ n :: l2 ∧ Forall (λ m, ¬ good_port m) (l1 ++ l2).

Definition eligible_node (ms : Markers) (now mf ft : Z) (nodes : list Node) (n : Node) : Prop :=
  n ∈ nodes ∧ good_port n ∧ (alive ms now mf ft n ∨ lone nodes n).

Lemma valid_port_spec n : valid_port n = true ↔ good_port n.
Proof.
  unfold valid_port, good_port. split.
  - destruct (rfind_char ch_colon (addr n)) as [i|] eqn:E; [|done].
    apply rfind_char_Some in E as [Hi Hn]. destruct (parse_u16 _) as [port|] eqn:Ep; [|done]. intros Hport.
    rewrite Nat.add_1_r in Ep. zbool. exists (take i (addr n)), (drop (S i) (addr n)), port.
    split_and!; [by rewrite take_drop_middle|done..].
  - intros (h & p & port & -> & Hn & Hp & Hport). rewrite rfind_middle by done.
    rewrite <-drop_drop, drop_app_length. cbn [drop]. rewrite drop_0, Hp. by apply Z.ltb_lt.
Qed.

Lemma fail_keeps_spec ms now mf ft n : fail_keeps ms now mf ft n = true ↔ alive ms now mf ft n.
Proof. unfold fail_keeps, alive. by rewrite orb_true_iff, Z.ltb_lt, Z.leb_le. Qed.

Lemma filter_lone nodes n :
  filter (λ m, valid_port m = true) nodes = [n] ↔ lone nodes n ∧ good_port n.
Proof.
  unfold lone. split.
  - intros E. induction nodes as [|m nodes IH]; [done|]. rewrite filter_cons in E. case_decide as Hm.
    + injection E as -> E. split; [|by apply valid_port_spec]. exists [], nodes. split; [done|]. cbn.
      apply Forall_forall. intros x Hx Hg%valid_port_spec.
      assert (x ∈ filter (λ m, valid_port m = true) nodes) as Hin by (by apply list_elem_of_filter).
      rewrite E in Hin. set_solver.
    + destruct (IH E) as [(l1 & l2 & -> & Hl) Hg]. split; [|done]. exists (m :: l1), l2. split; [done|].
      constructor; [|done]. by rewrite <-valid_port_spec.
  - intros [(l1 & l2 & -> & Hl) Hg]. apply Forall_app in Hl as [H1 H2].
    assert (∀ l, Forall (λ m, ¬ good_port m) l → filter (λ m, valid_port m = true) l = []) as Hno.
    { induction 1 as [|m l Hm Hl IH]; [done|]. rewrite filter_cons_False by (by rewrite valid_port_spec). done. }
    rewrite filter_app, filter_cons_True, !Hno by (done || by apply valid_port_spec). done.
Qed.

Lemma eligible_spec ms now mf ft nodes n :
  n ∈ eligible ms now mf ft nodes ↔ eligible_node ms now mf ft nodes n.
Proof.
  unfold eligible, eligible_node. set (valid := filter _ nodes).
  assert (∀ m, m ∈ valid ↔ good_port m ∧ m ∈ nodes) as Hv
    by (intros m; unfold valid; by rewrite list_elem_of_filter, valid_port_spec).
  destruct (Nat.leb_spec (length valid) 1) as [Hl|Hl].
  - destruct valid as [|v [|]] eqn:E; [set_solver| |cbn in Hl; lia].
    split.
    + intros ->%list_elem_of_singleton. apply filter_lone in E as [Hlone Hg]. set_solver.
    + intros (Hin & Hg & _). apply Hv. done.
  - rewrite list_elem_of_filter, Hv, fail_keeps_spec. split; [tauto|]. intros (Hin & Hg & [Ha|Hlone]); [done|].
    exfalso. assert (valid = [n]) as E by (apply filter_lone; done). rewrite E in Hl. cbn in Hl. lia.
Qed.

(** A selector built by [with_filters] returns an eligible node of the
    group whenever there is one: a node with a port from 1 to 65535 that,
    unless it is the only such node, has failed fewer than [max_fails] times
    or not within [fail_timeout]; it reports [NoneAvailable] only when no
    node is eligible, and stays such a selector. *)
Theorem fail_selector_select fresh ms clock gen_range mf ft sel nodes :
  fail_selector mf ft sel → (∀ k, (0 < k)%nat → (gen_range k < k)%nat) →
  let '(r, sel', _) := select fresh ms clock gen_range sel nodes in
  fail_selector mf ft sel'
  ∧ match r with
    | Ok n => eligible_node ms (clock 1%nat 0%nat) mf ft nodes n
    | Err NoneAvailable => ∀ n, ¬ eligible_node ms (clock 1%nat 0%nat) mf ft nodes n
    end.
Proof.
  intros Hs Hg. pose proof (fail_selector_step fresh ms clock gen_range mf ft sel nodes Hs Hg) as H.
  destruct (select _ _ _ _ _ _) as [[r sel'] p]. destruct H as [Hsel H]. split; [done|].
  destruct r as [n|[]]; [by apply eligible_spec|]. intros n Hn. apply eligible_spec in Hn. rewrite H in Hn. set_solver.
Qed.

Lemma fail_selector_select_witness :
  let a := mkNode 1 (str "a:1") (str "a:1") [] [] [] None ∅ 1 None in
  let b := mkNode 2 (str "b:0") (str "b:0") [] [] [] None ∅ 2 None in
  let '(r, _, _) := select 0 ∅ (λ _ _, 100) (λ _, 0%nat) (with_filters (str "random") 1 secs 1) [b; a] in
  r = Ok a ∧ match r with
             | Ok n => eligible_node ∅ 100 1 secs [b; a] n
             | Err NoneAvailable => ∀ n, ¬ eligible_node ∅ 100 1 secs [b; a] n
             end.
Proof.
  intros a b.
  assert (fail_selector 1 secs (with_filters (str "random") 1 secs 1)) as Hs
    by (apply with_filters_shape; discriminate).
  pose proof (fail_selector_select 0 ∅ (λ _ _, 100) (λ _, 0%nat) 1 secs _ [b; a] Hs (λ k H, H)) as H.
  destruct (select 0 ∅ _ _ _ _) as [[r sel'] p] eqn:E. split; [|apply H].
  vm_compute in E. by injection E as <- _ _.
Defined.

Lemma fail_keeps_marked ms t now mf ft n :
  let m := marker_at ms (marker n) in
  0 ≤ fail_count m → fail_count m + 1 < 2 ^ 32 → mf ≤ fail_count m + 1 →
  as_secs ft < 2 ^ 63 → 0 ≤ as_secs ft → now - t < as_secs ft →
  ∀ k, marker k = marker n → fail_keeps (mark_dead t n ms) now mf ft k = false.
Proof.
  intros m Hc Hw Hmf Hft Hft0 Hnow k Hk. unfold fail_keeps, mark_dead, marker_at. rewrite Hk, lookup_insert_eq.
  cbn [default fail_count fail_time]. fold (marker_at ms (marker n)). fold m. cbn.
  rewrite wrap_small by lia. unfold to_signed. destruct (Z.ltb_spec (as_secs ft) (2 ^ (64 - 1))); [|lia].
  apply orb_false_iff. rewrite Z.ltb_ge, Z.leb_gt. lia.
Qed.

Lemma fail_keeps_other ms t now mf ft n k :
  marker k ≠ marker n → fail_keeps (mark_dead t n ms) now mf ft k = fail_keeps ms now mf ft k.
Proof. intros Hk. unfold fail_keeps, mark_dead, marker_at. by rewrite lookup_insert_ne. Qed.

(** Failover: once a node has been marked dead often enough, and until
    its timeout has passed, a selection picks a node with another failure
    marker, as long as one such node is alive; the marker is shared by all
    clones of the node, so marking the clone a selection returned is enough. *)
Theorem failover fresh ms clock gen_range mf ft sel nodes n k t :
  fail_selector mf ft sel → (∀ k, (0 < k)%nat → (gen_range k < k)%nat) →
  n ∈ nodes → good_port n →
  0 ≤ fail_count (marker_at ms (marker n)) → fail_count (marker_at ms (marker n)) + 1 < 2 ^ 32 →
  mf ≤ fail_count (marker_at ms (marker n)) + 1 →
  0 ≤ as_secs ft < 2 ^ 63 → clock 1%nat 0%nat - t < as_secs ft →
  k ∈ nodes → good_port k → marker k ≠ marker n → alive ms (clock 1%nat 0%nat) mf ft k →
  ∃ r, (select fresh (mark_dead t n ms) clock gen_range sel nodes).1.1 = Ok r
       ∧ r ∈ nodes ∧ good_port r ∧ marker r ≠ marker n ∧ alive ms (clock 1%nat 0%nat) mf ft r.
Proof.
  intros Hsel Hg Hn Hvn%valid_port_spec Hc Hw Hmf Hft Hnow Hk Hvk%valid_port_spec Hne Hak%fail_keeps_spec.
  pose proof (fail_selector_step fresh (mark_dead t n ms) clock gen_range mf ft sel nodes Hsel Hg) as Hs.
  set (now := clock 1%nat 0%nat) in *.
  assert (∀ r, r ∈ eligible (mark_dead t n ms) now mf ft nodes ↔
               r ∈ nodes ∧ valid_port r = true ∧ fail_keeps (mark_dead t n ms) now mf ft r = true) as Hel.
  { intros r. apply eligible_two with n k; try done. by intros ->. }
  destruct (select _ _ _ _ _ _) as [[[r|[]] sel'] p]; destruct Hs as [_ Hs]; cbn.
  - exists r. apply Hel in Hs as (Hr & Hv & Hkeep). rewrite <-valid_port_spec, <-fail_keeps_spec.
    split_and!; [done..| |].
    + intros Hm. rewrite fail_keeps_marked in Hkeep by (done || lia). done.
    + rewrite fail_keeps_other in Hkeep; [done|]. intros Hm.
      rewrite fail_keeps_marked in Hkeep by (done || lia). done.
  - exfalso. assert (k ∈ eligible (mark_dead t n ms) now mf ft nodes) as Hin; [|rewrite Hs in Hin; set_solver].
    apply Hel. by rewrite fail_keeps_other.
Qed.

Lemma failover_witness :
  let a := mkNode 1 (str "a:1") (str "a:1") [] [] [] None ∅ 1 None in
  let b := mkNode 2 (str "b:1") (str "b:1") [] [] [] None ∅ 2 None in
  ∃ r, (select 0 (mark_dead 95 a ∅) (λ _ _, 100) (λ _, 0%nat) (with_filters (str "fifo") 1 (30 * secs) 0) [a; b]).1.1
         = Ok r ∧ marker r ≠ marker a.
Proof.
  intros a b.
  destruct (failover 0 ∅ (λ _ _, 100) (λ _, 0%nat) 1 (30 * secs) (with_filters (str "fifo") 1 (30 * secs) 0)
              [a; b] a b 95) as (r & H1 & _ & _ & H2 & _); [..|by exists r].
  - by apply with_filters_shape.
  - done.
  - set_solver.
  - by apply valid_port_spec.
  - done.
  - done.
  - done.
  - done.
  - done.
  - set_solver.
  - by apply valid_port_spec.
  - done.
  - by apply fail_keeps_spec.
Defined.
