(* ===== verification/Reload.v ===== *)
(** * Live reloading

    Models src/reload.rs: the [Reloader] and [Stoppable] traits as a class of
    operations and their laws, and [period_reload] as a loop of ticks proved
    against the class; and the reading of a configuration file line by line.
    The users, hosts and bypass tables are its instances. *)

From stdpp Require Import base list option numbers strings sets.
From Stdlib Require Import ZArith Lia.
From S2P Require Import Prelude Text Utf8.

(** ** Readers and lines *)

(** A reader: the bytes it yields and the error it ends with, if any. *)
Record Reader : Set := mkReader { r_data : bytes; r_err : option io_error }.

Definition not_utf8 : io_error := IoError InvalidData "stream did not contain valid UTF-8".

Definition check_utf8 (s : bytes) : result io_error bytes := if utf8_ok s then Ok s else Err not_utf8.

(** A line that ended in a newline loses a carriage return before it. *)
Definition strip_cr (s : bytes) : bytes :=
  if ends_with [ch_cr] s then take (length s - 1) s else s.

(** [BufReader::new(reader).lines()]: what it yields up to its first error. *)
Fixpoint lines_of (err : option io_error) (pieces : list bytes) : list (result io_error bytes) :=
  match pieces with
  | [] => []
  | [p] => match err with
           | Some e => [Err e]
           | None => match p with [] => [] | _ => [check_utf8 p] end
           end
  | p :: ps => (s <-? check_utf8 p ;; Ok (strip_cr s)) :: lines_of err ps
  end.
Definition buf_lines (r : Reader) : list (result io_error bytes) :=
  lines_of (r_err r) (split_char ch_lf (r_data r)).

(** [for line in buf.lines() { let line = line?; ... }] *)
Fixpoint for_lines {A} (f : A → bytes → A) (ls : list (result io_error bytes)) (acc : A) : result io_error A :=
  match ls with
  | [] => Ok acc
  | Ok l :: ls => for_lines f ls (f acc l)
  | Err e :: _ => Err e
  end.

(** [split_line_ref] of src/auth.rs: the fields of a line, comments removed. *)
Definition split_line_ref (line : bytes) : list bytes :=
  let line := match find_char ch_hash line with Some idx => take idx line | None => line end in
  filter (λ s, s ≠ []) (trim <$> (split_char ch_tab line ≫= split_char ch_space)).

(** ** Text files of fields *)

(** A field: visible ASCII, so also with [#] in it. *)
Definition is_field (s : bytes) : Prop := s ≠ [] ∧ Forall (λ b, 33 ≤ b ≤ 126) s.

Lemma ws_len_visible b s : 33 ≤ b ≤ 126 → ws_len (b :: s) = 0%nat.
Proof.
  intros Hb. unfold ws_len.
  assert (b ≠ 9 ∧ b ≠ 10 ∧ b ≠ 11 ∧ b ≠ 12 ∧ b ≠ 13 ∧ b ≠ 32 ∧ b ≠ 194 ∧ b ≠ 225 ∧ b ≠ 226 ∧ b ≠ 227) as H
    by lia. destruct H as (? & ? & ? & ? & ? & ? & ? & ? & ? & ?).
  destruct b as [|p|p]; [done| |done]. do 8 (destruct p as [p|p|]; try done).
Qed.

Lemma ws_len_ascii s : Forall (λ b, 0 ≤ b ≤ 126) s → (ws_len s ≤ 1)%nat.
Proof.
  intros Hs. destruct s as [|b s]; [cbn; lia|]. inversion Hs; subst. unfold ws_len.
  destruct b as [|p|p]; [lia| |lia]. do 8 (destruct p as [p|p|]; try (cbn; lia)).
Qed.

Definition is_ascii (b : Z) : Prop := 0 ≤ b ≤ 126.

(** Text that starts and ends with a visible character is not trimmed. *)
Lemma trim_visible b s c :
  33 ≤ b ≤ 126 → 33 ≤ c ≤ 126 → Forall is_ascii (b :: s ++ [c]) → trim (b :: s ++ [c]) = b :: s ++ [c].
Proof.
  intros Hb Hc Ha. unfold trim, trim_start. cbn [length trim_start_fuel]. rewrite ws_len_visible by done.
  unfold trim_end. cbn [length trim_end_fuel].
  assert (ws_end_len (b :: s ++ [c]) = 0%nat) as ->; [|done].
  assert (∀ k, (ws_len (drop k (b :: s ++ [c])) ≤ 1)%nat) as Hk
    by (intros k; apply ws_len_ascii; by apply Forall_drop).
  unfold ws_end_len.
  assert (drop (length (b :: s ++ [c]) - 1) (b :: s ++ [c]) = [c]) as E.
  { change (b :: s ++ [c]) with ((b :: s) ++ [c]). rewrite length_app, Nat.add_sub. apply drop_app_length. }
  rewrite E, (ws_len_visible c) by done. cbn [Nat.eqb].
  pose proof (Hk (length (b :: s ++ [c]) - 2)%nat) as H2. pose proof (Hk (length (b :: s ++ [c]) - 3)%nat) as H3.
  destruct (Nat.eqb_spec (ws_len (drop (length (b :: s ++ [c]) - 2) (b :: s ++ [c]))) 2); [lia|].
  destruct (Nat.eqb_spec (ws_len (drop (length (b :: s ++ [c]) - 3) (b :: s ++ [c]))) 3); [lia|]. done.
Qed.

(** Text between two fields, in one of three shapes. *)
Lemma trim_single b : 33 ≤ b ≤ 126 → trim [b] = [b].
Proof.
  intros Hb. unfold trim, trim_start. cbn [length trim_start_fuel]. rewrite ws_len_visible by done.
  unfold trim_end. cbn [length trim_end_fuel]. unfold ws_end_len. cbn [length Nat.sub drop].
  by rewrite ws_len_visible.
Qed.

Lemma field_ascii s : is_field s → Forall is_ascii s.
Proof. intros [_ Hs]. eapply Forall_impl; [exact Hs|]. unfold is_ascii. cbn. lia. Qed.

(** A field followed by text that ends in a field is not trimmed. *)
Lemma trim_fields u t p :
  is_field u → is_field p → Forall is_ascii t → trim (u ++ t ++ p) = u ++ t ++ p.
Proof.
  intros Hu Hp Ht. destruct (field_ascii u Hu) as [|b u' Hb Hu']; [by destruct Hu|].
  destruct Hu as [_ Hu]. inversion Hu; subst.
  destruct Hp as [Hpne Hp]. destruct (exists_last Hpne) as (p' & c & ->).
  apply Forall_app in Hp as [Hp' Hc]. inversion Hc; subst.
  replace ((b :: u') ++ t ++ p' ++ [c]) with (b :: (u' ++ t ++ p') ++ [c]) by (cbn; by rewrite <-!app_assoc).
  apply trim_visible; [done..|]. constructor; [done|]. rewrite !Forall_app. split_and!; [done|done| |].
  - eapply Forall_impl; [exact Hp'|]. unfold is_ascii. cbn. lia.
  - repeat constructor; lia.
Qed.

Lemma trim_field s : is_field s → trim s = s.
Proof.
  intros Hs. destruct s as [|b [|b' s']]; [by destruct Hs| |].
  - apply trim_single. destruct Hs as [_ Hs]. by inversion Hs.
  - destruct Hs as [_ Hs]. inversion Hs as [|? ? Hb Hs']; subst.
    assert (is_field [b] ∧ is_field (b' :: s')) as [H1 H2] 
      by (split; (split; [done|]); [by apply Forall_singleton|done]).
    by apply (trim_fields [b] [] (b' :: s')).
Qed.

Lemma field_not_in s c : is_field s → ¬ (33 ≤ c ≤ 126) → c ∉ s.
Proof. intros [_ Hs] Hc Hin. rewrite Forall_forall in Hs. by apply Hs in Hin. Qed.

Lemma utf8_ok_ascii s : Forall is_ascii s → utf8_ok s = true.
Proof.
  unfold utf8_ok. induction 1 as [|b s Hb Hs IH]; [done|]. cbn. unfold is_ascii in Hb.
  destruct (Z.ltb_spec b 128); [done|lia].
Qed.

(** A file of lines is read back line by line. *)
Lemma lines_file ls :
  Forall (λ l, Forall is_ascii l ∧ (ch_lf ∉ l) ∧ ch_cr ∉ l) ls →
  buf_lines (mkReader (concat ((λ l, l ++ [ch_lf]) <$> ls)) None) = Ok <$> ls.
Proof.
  intros Hl. unfold buf_lines. cbn [r_data r_err].
  induction Hl as [|l ls (Ha & Hlf & Hcr) Hl IH]; [done|]. rewrite fmap_cons. cbn [concat].
  rewrite <-app_assoc. cbn [app]. rewrite split_char_app by done.
  cbn [lines_of]. destruct (split_char ch_lf _) eqn:E; [by apply split_char_nonempty in E|].
  rewrite fmap_cons, IH. f_equal. unfold check_utf8. rewrite utf8_ok_ascii by done.
  cbn [rbind]. unfold strip_cr. f_equal.
  destruct (ends_with [ch_cr] l) eqn:Ee; [|done]. exfalso.
  apply ends_with_spec in Ee as [t ->]. set_solver.
Qed.

(** The fields of a line, separated by single spaces. *)
Definition join_fields (fs : list bytes) : bytes :=
  match fs with
  | [] => []
  | f :: fs => f ++ concat ((λ g, ch_space :: g) <$> fs)
  end.

Lemma split_join_fields fs :
  fs ≠ [] → Forall (λ f, ch_space ∉ f) fs → split_char ch_space (join_fields fs) = fs.
Proof.
  destruct fs as [|f fs]; [done|]. intros _ Hf. cbn [join_fields]. revert f Hf.
  induction fs as [|g fs IH]; intros f Hf; inversion Hf; subst.
  - cbn. rewrite app_nil_r. by apply split_char_no_sep.
  - rewrite fmap_cons. cbn [concat app]. rewrite split_char_app by done. f_equal. by apply IH.
Qed.

Lemma join_fields_no c fs : c ≠ ch_space → Forall (λ f, c ∉ f) fs → c ∉ join_fields fs.
Proof.
  intros Hc. destruct fs as [|f fs]; [set_solver|]. cbn [join_fields]. intros Hf.
  inversion Hf as [|? ? Hcf Hfs]; subst. rewrite not_elem_of_app. split; [done|]. clear Hf Hcf.
  induction Hfs as [|g fs Hg Hfs IH]; cbn; set_solver.
Qed.

Lemma join_fields_ascii fs : Forall is_field fs → Forall is_ascii (join_fields fs).
Proof.
  destruct fs as [|f fs]; [constructor|]. cbn [join_fields]. intros Hf.
  inversion Hf as [|? ? Hff Hfs]; subst. apply Forall_app. split; [by apply field_ascii|]. clear Hf Hff.
  induction Hfs as [|g fs Hg Hfs IH]; cbn; [constructor|]. constructor; [unfold is_ascii, ch_space; lia|].
  apply Forall_app. split; [by apply field_ascii|done].
Qed.

(** [split_line_ref] reads the fields of such a line back. *)
Lemma split_line_ref_fields fs :
  fs ≠ [] → Forall is_field fs → Forall (λ f, ch_hash ∉ f) fs → split_line_ref (join_fields fs) = fs.
Proof.
  intros Hne Hf Hh. unfold split_line_ref.
  assert (∀ c, ¬ (33 ≤ c ≤ 126) → Forall (λ f, c ∉ f) fs) as Hno.
  { intros c Hc. eapply Forall_impl; [exact Hf|]. intros f Hff. by apply field_not_in. }
  rewrite (proj2 (find_char_None ch_hash (join_fields fs))) by (apply join_fields_no; done).
  rewrite split_char_no_sep by (apply join_fields_no; [done|apply Hno; unfold ch_tab; lia]).
  cbn [mbind list_bind]. rewrite app_nil_r, split_join_fields; [|done|apply Hno; unfold ch_space; lia].
  assert (trim <$> fs = fs) as ->.
  { rewrite <-(list_fmap_id fs) at 2. apply list_fmap_ext. intros i f Hi%list_elem_of_lookup_2.
    rewrite Forall_forall in Hf. by apply trim_field, Hf. }
  clear Hne Hh Hno. induction Hf as [|f fs [Hff _] Hf IH]; [done|]. by rewrite filter_cons_True, IH.
Qed.

(** ** The interface *)

(** [Reloader] and [Stoppable]. A period is in nanoseconds. *)
Class Reloader (T : Type) := {
  reload : Reader → T → result io_error () * T;
  period : T → Z;
  stop : T → T;
  stopped : T → bool
}.

Class ReloaderLaws (T : Type) `{Reloader T} : Prop := {
  stop_stopped t : stopped (stop t) = true;
  stopped_period t : stopped t = true → period t = 0;
  stopped_reload r t : stopped t = true → reload r t = (Ok tt, t);
  (** An error leaves the table as it was. *)
  reload_err r t e t' : reload r t = (Err e, t') → t' = t;
  (** A successful reload replaces everything: the old table is irrelevant. *)
  reload_ok r t1 t1' t2 : stopped t1 = false → stopped t2 = false → reload r t1 = (Ok tt, t1') →
                          reload r t2 = (Ok tt, t1');
  reload_running r t t' : stopped t = false → reload r t = (Ok tt, t') → stopped t' = false
}.

(** ** [period_reload] *)

Definition one_second : Z := 1000000000.

(** What a tick finds on disk: the modification time (0 for the epoch) and
    the file. *)
Record Disk : Set := mkDisk { d_modified : result io_error Z; d_open : result io_error Reader }.

Inductive TickResult (T : Type) : Type :=
| TReturn (r : result io_error ()) (t : T)
| TSleep (dur : Z) (last_mod : Z) (t : T).
Arguments TReturn {T} r t.
Arguments TSleep {T} dur last_mod t.

Section period_reload.
Context {T : Type} `{Reloader T}.

(** One turn of the loop, up to the sleep. *)
Definition tick (d : Disk) (last_mod : Z) (t : T) : TickResult T :=
  let p := period t in
  if p =? 0 then TReturn (Ok tt) t
  else
    match d_modified d with
    | Err e => TReturn (Err e) t
    | Ok mod_time =>
        let sleep_dur := if p <? one_second then one_second else p in
        if negb (last_mod =? 0) && negb (mod_time =? last_mod) then
          match d_open d with
          | Err e => TReturn (Err e) t
          | Ok f => TSleep sleep_dur mod_time (snd (reload f t))
          end
        else TSleep sleep_dur mod_time t
    end.

Fixpoint ticks (ds : list Disk) (last_mod : Z) (t : T) : TickResult T :=
  match ds with
  | [] => TSleep 0 last_mod t
  | d :: ds => match tick d last_mod t with
               | TSleep _ last_mod' t' => ticks ds last_mod' t'
               | TReturn r t' => TReturn r t'
               end
  end.

(** [period_reload], on what the disk holds at its successive turns. *)
Definition period_reload (config_file : bytes) (ds : list Disk) (t : T) : TickResult T :=
  match config_file with
  | [] => TReturn (Ok tt) t
  | _ => ticks ds 0 t
  end.
End period_reload.

(** ** Tracking the file *)

Section tracking.
Context {T : Type} `{ReloaderLaws T}.

(** [t] is what loading [f] gives. *)
Definition loaded (f : Reader) (t : T) : Prop :=
  stopped t = false ∧ ∃ t0, stopped t0 = false ∧ reload f t0 = (Ok tt, t).

(** The versions of the file a run sees: modification time and content. *)
Definition disk_of (v : Z * Reader) : Disk := mkDisk (Ok v.1) (Ok v.2).

Lemma loaded_reload f t t' : loaded f t → stopped t' = false → reload f t' = (Ok tt, t).
Proof. intros [_ (t0 & Hs & Hr)] Ht. exact (reload_ok f t0 t t' Hs Ht Hr). Qed.

Lemma tick_loaded v f m t :
  m ≠ 0 → loaded f t → (v.1 = m → v.2 = f) → (∃ t', loaded v.2 t') →
  match tick (disk_of v) m t with
  | TReturn r t' => r = Ok tt ∧ period t' = 0 ∧ loaded f t'
  | TSleep d m' t' => one_second ≤ d ∧ m' = v.1 ∧ loaded v.2 t'
  end.
Proof.
  intros Hm Hl Hsame [t1 Ht1]. unfold tick, disk_of. cbn [d_modified d_open].
  destruct (Z.eqb_spec (period t) 0) as [Hp|Hp]; [done|].
  destruct (Z.eqb_spec m 0) as [|_]; [done|]. cbn [negb andb].
  assert (one_second ≤ if period t <? one_second then one_second else period t) as Hd
    by (destruct (Z.ltb_spec (period t) one_second); lia).
  destruct (Z.eqb_spec v.1 m) as [Heq|Hne]; cbn [negb].
  - split_and!; [done..|]. by rewrite Hsame.
  - rewrite (loaded_reload _ _ t Ht1) by apply Hl. done.
Qed.

Lemma ticks_loaded vs f m t :
  m ≠ 0 → loaded f t → Forall (λ v, v.1 ≠ 0 ∧ ∃ t', loaded v.2 t') vs →
  (∀ v w, v ∈ (m, f) :: vs → w ∈ (m, f) :: vs → v.1 = w.1 → v.2 = w.2) →
  match ticks (disk_of <$> vs) m t with
  | TReturn r t' => r = Ok tt ∧ period t' = 0 ∧ ∃ v, v ∈ (m, f) :: vs ∧ loaded v.2 t'
  | TSleep _ m' t' => ∃ v, last ((m, f) :: vs) = Some v ∧ m' = v.1 ∧ loaded v.2 t'
  end.
Proof.
  revert f m t. induction vs as [|v vs IH]; intros f m t Hm Hl Hvs Hsame.
  { cbn. by exists (m, f). }
  inversion Hvs as [|? ? [Hv0 Hvl] Hvs']; subst. rewrite fmap_cons. cbn [ticks].
  pose proof (tick_loaded v f m t Hm Hl) as Ht.
  destruct (tick (disk_of v) m t) as [r t'|d m' t'].
  - destruct Ht as (-> & Hp & Hl'); [|done|].
    + intros Heq. apply (Hsame v (m, f)); [set_solver..|done].
    + split_and!; [done..|]. exists (m, f). split; [set_solver|done].
  - destruct Ht as (_ & -> & Hl'); [|done|].
    { intros Heq. apply (Hsame v (m, f)); [set_solver..|done]. }
    destruct v as [vm vf]. specialize (IH vf vm t' Hv0 Hl' Hvs').
    cbn [fst snd] in *. destruct (ticks _ vm t') as [r t''|? m'' t''].
    + destruct IH as (-> & Hp & w & Hw & Hlw); [intros x y Hx Hy; apply Hsame; set_solver|].
      split_and!; [done..|]. exists w. set_solver.
    + apply IH. intros x y Hx Hy. apply Hsame; set_solver.
Qed.

(** For every table that keeps the reloader contract: as long as
    [period_reload] runs, the table in use after a turn is what loading the
    file as it is at that turn gives, and it returns only because the table
    in use, loaded from a version of the file it has seen, asks for no
    reloading. (The table was loaded from the file's first version, versions
    parse, and different contents have different modification times.) *)
Theorem period_reload_tracks config_file v0 vs t :
  config_file ≠ [] → loaded v0.2 t →
  Forall (λ v, v.1 ≠ 0 ∧ ∃ t' : T, loaded v.2 t') (v0 :: vs) →
  (∀ v w, v ∈ v0 :: vs → w ∈ v0 :: vs → v.1 = w.1 → v.2 = w.2) →
  match period_reload config_file (disk_of <$> v0 :: vs) t with
  | TReturn r t' => r = Ok tt ∧ period t' = 0 ∧ ∃ v, v ∈ v0 :: vs ∧ loaded v.2 t'
  | TSleep _ m' t' => ∃ v, last (v0 :: vs) = Some v ∧ m' = v.1 ∧ loaded v.2 t'
  end.
Proof.
  intros Hc Hl Hvs Hsame. destruct v0 as [m f]. inversion Hvs as [|? ? [Hm _] Hvs']; subst.
  unfold period_reload. destruct config_file as [|b cf]; [done|]. clear Hc.
  rewrite fmap_cons. cbn [ticks]. unfold tick at 1. cbn [d_modified disk_of fst snd].
  destruct (Z.eqb_spec (period t) 0) as [Hp|Hp].
  - split_and!; [done..|]. exists (m, f). split; [set_solver|done].
  - cbn. by apply ticks_loaded.
Qed.
End tracking.
