(* ===== verification/IpAddr.v ===== *)
(** * IP addresses

    The Standard Library behaviour the program relies on when it parses an
    [IpAddr] from text: dotted quads without leading zeros, and IPv6 groups
    with at most one [::] and an optional trailing dotted quad. A parser reads
    a value off the front of the text and returns the rest. *)

From stdpp Require Import base list option numbers strings sets.
From Stdlib Require Import ZArith Lia.
From S2P Require Import Prelude Text.

Inductive IpAddr : Set :=
| V4 (octets : list Z)
| V6 (segments : list Z).

#[export] Instance IpAddr_eq_dec : EqDecision IpAddr.
Proof. solve_decision. Defined.

(** ** Reading *)

Definition read_char (c : Z) (s : bytes) : option bytes :=
  match s with b :: s => if b =? c then Some s else None | [] => None end.

Definition hex_digit (c : Z) : option Z :=
  if is_digit c then Some (c - 48)
  else if (97 <=? c) && (c <=? 102) then Some (c - 87)
  else if (65 <=? c) && (c <=? 70) then Some (c - 55)
  else None.

Definition digit_of (radix c : Z) : option Z :=
  match hex_digit c with Some d => if d <? radix then Some d else None | None => None end.

(** The digits of a number: its value, how many there are, and the rest;
    [None] when there are more than [max_digits] or the value exceeds [bound]. *)
Fixpoint read_digits (radix bound : Z) (room : nat) (acc : Z) (s : bytes) : option (Z * nat * bytes) :=
  match s with
  | [] => Some (acc, 0%nat, [])
  | c :: s' =>
      match digit_of radix c with
      | None => Some (acc, 0%nat, s)
      | Some d =>
          let v := acc * radix + d in
          if bound <? v then None
          else match room with
               | O => None
               | S room =>
                   match read_digits radix bound room v s' with
                   | Some (v', n, rest) => Some (v', S n, rest)
                   | None => None
                   end
               end
      end
  end.

Definition read_number (radix : Z) (max_digits : nat) (bound : Z) (allow_zero_prefix : bool) (s : bytes) :
    option (Z * bytes) :=
  match read_digits radix bound max_digits 0 s with
  | None => None
  | Some (v, n, rest) =>
      if (n =? 0)%nat then None
      else if negb allow_zero_prefix && starts_with [ch_zero] s && (1 <? n)%nat then None
      else Some (v, rest)
  end.

(** [read_separator]: the separator is read before every item but the first. *)
Definition read_separator {A} (sep : Z) (index : nat) (inner : bytes → option (A * bytes)) (s : bytes) :
    option (A * bytes) :=
  if (index =? 0)%nat then inner s
  else match read_char sep s with Some s => inner s | None => None end.

Definition read_octet : bytes → option (Z * bytes) := read_number 10 3 255 false.

Fixpoint read_octets (n index : nat) (s : bytes) : option (list Z * bytes) :=
  match n with
  | O => Some ([], s)
  | S n =>
      match read_separator ch_dot index read_octet s with
      | None => None
      | Some (o, s) =>
          match read_octets n (S index) s with
          | Some (os, s) => Some (o :: os, s)
          | None => None
          end
      end
  end.

Definition read_ipv4_addr (s : bytes) : option (list Z * bytes) := read_octets 4 0 s.

(** [read_groups] into [limit] slots, from slot [i]: the groups read, whether
    they end in a dotted quad, and the rest. *)
Fixpoint read_groups (limit i : nat) (s : bytes) : list Z * bool * bytes :=
  match limit with
  | O => ([], false, s)
  | S limit' =>
      let v4 := if (1 <=? limit')%nat then read_separator ch_colon i read_ipv4_addr s else None in
      match v4 with
      | Some ([a; b; c; d], s') => ([a * 256 + b; c * 256 + d], true, s')
      | _ =>
          match read_separator ch_colon i (read_number 16 4 65535 true) s with
          | Some (g, s') =>
              let '(gs, v4, s'') := read_groups limit' (S i) s' in (g :: gs, v4, s'')
          | None => ([], false, s)
          end
      end
  end.

Definition read_ipv6_addr (s : bytes) : option (list Z * bytes) :=
  let '(head, head_ipv4, s1) := read_groups 8 0 s in
  if (length head =? 8)%nat then Some (head, s1)
  else if head_ipv4 then None
  else
    match read_char ch_colon s1 with
    | None => None
    | Some s2 =>
        match read_char ch_colon s2 with
        | None => None
        | Some s3 =>
            let '(tail, _, s4) := read_groups (8 - (length head + 1)) 0 s3 in
            Some (head ++ replicate (8 - length head - length tail) 0 ++ tail, s4)
        end
    end.

(** [s.parse::<IpAddr>()]: an address and nothing after it. *)
Definition parse_ip (s : bytes) : option IpAddr :=
  match read_ipv4_addr s with
  | Some (os, rest) => if bool_decide (rest = []) then Some (V4 os) else None
  | None =>
      match read_ipv6_addr s with
      | Some (gs, []) => Some (V6 gs)
      | _ => None
      end
  end.

Definition show_ipv4 (os : list Z) : bytes :=
  match os with
  | [a; b; c; d] => show_int a ++ [ch_dot] ++ show_int b ++ [ch_dot] ++ show_int c ++ [ch_dot] ++ show_int d
  | _ => []
  end.

Example parse_ip_examples :
  parse_ip (str "192.168.0.1") = Some (V4 [192; 168; 0; 1])
  ∧ parse_ip (str "192.168.00.1") = None ∧ parse_ip (str "256.1.1.1") = None
  ∧ parse_ip (str "1.2.3") = None ∧ parse_ip (str "1.2.3.4.5") = None
  ∧ parse_ip (str "::1") = Some (V6 [0; 0; 0; 0; 0; 0; 0; 1])
  ∧ parse_ip (str "2001:db8::ff00:42:8329") = Some (V6 [8193; 3512; 0; 0; 0; 65280; 66; 33577])
  ∧ parse_ip (str "::ffff:1.2.3.4") = Some (V6 [0; 0; 0; 0; 0; 65535; 258; 772])
  ∧ parse_ip (str "1:2:3:4:5:6:7:8") = Some (V6 [1; 2; 3; 4; 5; 6; 7; 8])
  ∧ parse_ip (str "1:2:3:4:5:6:7") = None ∧ parse_ip (str "1::2::3") = None.
Proof. vm_compute. done. Qed.

(** ** Round trip of dotted quads *)

Lemma read_octet_show a t :
  0 ≤ a ≤ 255 → (t = [] ∨ ∃ t', t = ch_dot :: t') → read_octet (show_int a ++ t) = Some (a, t).
Proof.
  intros Ha Ht. assert (In a (seqZ 0 256)) as Hin by (apply list_elem_of_In, elem_of_seqZ; lia).
  clear Ha. destruct Ht as [->|[t' ->]]; vm_compute in Hin;
    repeat (destruct Hin as [<-|Hin]; [vm_compute; reflexivity|]); destruct Hin.
Qed.

Lemma read_ipv4_show os :
  length os = 4%nat → Forall (λ o, 0 ≤ o ≤ 255) os → read_ipv4_addr (show_ipv4 os) = Some (os, []).
Proof.
  intros Hl Ho. destruct os as [|a [|b [|c [|d [|]]]]]; try done. clear Hl.
  repeat match goal with H : Forall _ (_ :: _) |- _ => inversion H; subst; clear H end.
  unfold read_ipv4_addr, show_ipv4, read_octets, read_separator. cbn [Nat.eqb app].
  rewrite read_octet_show by eauto. cbn [read_char]. rewrite Z.eqb_refl.
  rewrite read_octet_show by eauto. cbn [read_char]. rewrite Z.eqb_refl.
  rewrite read_octet_show by eauto. cbn [read_char]. rewrite Z.eqb_refl.
  rewrite <-(app_nil_r (show_int d)), read_octet_show by eauto. done.
Qed.

Lemma parse_show_ipv4 os :
  length os = 4%nat → Forall (λ o, 0 ≤ o ≤ 255) os → parse_ip (show_ipv4 os) = Some (V4 os).
Proof. intros Hl Ho. unfold parse_ip. rewrite read_ipv4_show by done. by rewrite bool_decide_eq_true_2. Qed.

Lemma show_ipv4_chars os :
  Forall (λ o, 0 ≤ o) os → Forall (λ c, c = ch_dot ∨ is_digit c = true) (show_ipv4 os).
Proof.
  intros Ho. destruct os as [|a [|b [|c [|d [|]]]]]; try constructor.
  repeat match goal with H : Forall _ (_ :: _) |- _ => inversion H; subst; clear H end.
  assert (∀ n, 0 ≤ n → Forall (λ c, c = ch_dot ∨ is_digit c = true) (show_int n)) as Hd.
  { intros n Hn. eapply Forall_impl; [by apply show_int_digits|]. tauto. }
  unfold show_ipv4. rewrite !Forall_app. auto 20.
Qed.

(** [s.parse::<Ipv4Addr>()] and [s.parse::<Ipv6Addr>()]. *)
Definition parse_ipv4 (s : bytes) : option (list Z) :=
  match read_ipv4_addr s with Some (os, []) => Some os | _ => None end.
Definition parse_ipv6 (s : bytes) : option (list Z) :=
  match read_ipv6_addr s with Some (gs, []) => Some gs | _ => None end.

(** ** IPv6 text *)

Definition hex_char (d : Z) : Z := if d <? 10 then 48 + d else 87 + d.

(** The format [{:x}] of a [u16]. *)
Definition show_hex16 (g : Z) : bytes :=
  if g <? 16 then [hex_char g]
  else if g <? 256 then [hex_char (g / 16); hex_char (g mod 16)]
  else if g <? 4096 then [hex_char (g / 256); hex_char (g / 16 mod 16); hex_char (g mod 16)]
  else [hex_char (g / 4096); hex_char (g / 256 mod 16); hex_char (g / 16 mod 16); hex_char (g mod 16)].

(** The first longest run of zero segments, as its start and length. *)
Fixpoint zero_span (i : nat) (segs : list Z) (current longest : nat * nat) : nat * nat :=
  match segs with
  | [] => longest
  | s :: segs =>
      if s =? 0 then
        let current := if (current.2 =? 0)%nat then (i, 1%nat) else (current.1, S current.2) in
        zero_span (S i) segs current (if (longest.2 <? current.2)%nat then current else longest)
      else zero_span (S i) segs (0%nat, 0%nat) longest
  end.

Definition show_tail (gs : list Z) : bytes := concat ((λ g, ch_colon :: show_hex16 g) <$> gs).
Definition show_groups (gs : list Z) : bytes :=
  match gs with [] => [] | g :: gs => show_hex16 g ++ show_tail gs end.

(** [Ipv6Addr::to_string]: an IPv4-mapped address ends in a dotted quad, and a
    run of two or more zero segments is written [::]. *)
Definition show_ipv6 (segs : list Z) : bytes :=
  if bool_decide (take 6 segs = [0; 0; 0; 0; 0; 65535]) then
    match drop 6 segs with
    | [ab; cd] => str "::ffff:" ++ show_ipv4 [ab / 256; ab mod 256; cd / 256; cd mod 256]
    | _ => []
    end
  else
    let '(start, len) := zero_span 0 segs (0%nat, 0%nat) (0%nat, 0%nat) in
    if (1 <? len)%nat then show_groups (take start segs) ++ [ch_colon; ch_colon] ++ show_groups (drop (start + len) segs)
    else show_groups segs.

Definition show_ip (a : IpAddr) : bytes :=
  match a with V4 os => show_ipv4 os | V6 gs => show_ipv6 gs end.

Example show_ipv6_examples :
  show_ipv6 [0; 0; 0; 0; 0; 0; 0; 1] = str "::1" ∧ show_ipv6 [0; 0; 0; 0; 0; 0; 0; 0] = str "::"
  ∧ show_ipv6 [8193; 3512; 0; 0; 0; 65280; 66; 33577] = str "2001:db8::ff00:42:8329"
  ∧ show_ipv6 [1; 0; 0; 2; 0; 0; 0; 3] = str "1:0:0:2::3"
  ∧ show_ipv6 [1; 0; 2; 3; 4; 5; 6; 7] = str "1:0:2:3:4:5:6:7"
  ∧ show_ipv6 [0; 0; 0; 0; 0; 65535; 258; 772] = str "::ffff:1.2.3.4".
Proof. vm_compute. done. Qed.

(** ** Round trip of IPv6 text *)

Definition stops (radix : Z) (t : bytes) : Prop := match t with [] => True | c :: _ => digit_of radix c = None end.
Definition group_end (t : bytes) : Prop := t = [] ∨ ∃ t', t = ch_colon :: t'.

Lemma group_end_stops radix t : group_end t → stops radix t.
Proof. by intros [->|[t' ->]]. Qed.

Lemma hex_digit_char d : 0 ≤ d < 16 → hex_digit (hex_char d) = Some d.
Proof.
  intros Hd. assert (d ∈ seqZ 0 16) as Hin by (apply elem_of_seqZ; lia). clear Hd. apply list_elem_of_In in Hin.
  vm_compute in Hin. repeat (destruct Hin as [<-|Hin]; [done|]). done.
Qed.

Lemma digit_of_hex d : 0 ≤ d < 16 → digit_of 16 (hex_char d) = Some d.
Proof. intros Hd. unfold digit_of. rewrite hex_digit_char by done. by destruct (Z.ltb_spec d 16); [|lia]. Qed.

Lemma hex_char_not d : 0 ≤ d < 16 → hex_char d ≠ ch_dot ∧ hex_char d ≠ ch_colon.
Proof. intros Hd. unfold hex_char, ch_dot, ch_colon. destruct (Z.ltb_spec d 10); lia. Qed.

Lemma read_digits_hex bound room acc d s :
  0 ≤ d < 16 → acc * 16 + d ≤ bound →
  read_digits 16 bound (S room) acc (hex_char d :: s)
  = match read_digits 16 bound room (acc * 16 + d) s with Some (v, n, rest) => Some (v, S n, rest) | None => None end.
Proof.
  intros Hd Hb. cbn [read_digits]. rewrite digit_of_hex by done.
  by destruct (Z.ltb_spec bound (acc * 16 + d)); [lia|].
Qed.

Lemma read_digits_stop radix bound room acc t : stops radix t → read_digits radix bound room acc t = Some (acc, 0%nat, t).
Proof. intros Ht. destruct t as [|c t]; destruct room; cbn in *; by rewrite ?Ht. Qed.

Lemma read_hex g t : 0 ≤ g ≤ 65535 → stops 16 t → read_number 16 4 65535 true (show_hex16 g ++ t) = Some (g, t).
Proof.
  intros Hg Ht. unfold read_number, show_hex16.
  assert (∀ a, 0 ≤ a mod 16 < 16) as Hm by (intros; apply Z.mod_pos_bound; lia).
  pose proof (Z.div_mod g 16). pose proof (Z.div_mod (g / 16) 16). pose proof (Z.div_mod (g / 16 / 16) 16).
  assert (g / 256 = g / 16 / 16) as E1 by (rewrite Z.div_div by lia; done).
  assert (g / 4096 = g / 16 / 16 / 16) as E2 by (rewrite !Z.div_div by lia; done).
  rewrite E1, E2. pose proof (Hm g). pose proof (Hm (g / 16)). pose proof (Hm (g / 16 / 16)).
  destruct (Z.ltb_spec g 16); [|destruct (Z.ltb_spec g 256); [|destruct (Z.ltb_spec g 4096)]];
    cbn [app]; repeat (rewrite read_digits_hex by lia); rewrite read_digits_stop by done;
    cbn [Nat.eqb negb andb]; repeat f_equal; lia.
Qed.

(** Where reading digits stops. *)
Lemma read_digits_rest radix bound room acc u t v n rest :
  stops radix t → read_digits radix bound room acc (u ++ t) = Some (v, n, rest) →
  ∃ w, w `suffix_of` u ∧ rest = w ++ t.
Proof.
  intros Ht. revert room acc v n rest. induction u as [|c u IH]; intros room acc v n rest H.
  { cbn [app] in H. rewrite read_digits_stop in H by done. simplify_eq. exists []. by split. }
  destruct room; cbn [app read_digits] in H; destruct (digit_of radix c);
    try (simplify_eq; exists (c :: u); by split); destruct (bound <? _); try done.
  destruct (read_digits _ _ _ _ (u ++ t)) as [[[v' n'] rest']|] eqn:E; [|done]. simplify_eq.
  apply IH in E as (w & Hw & ->). exists w. split; [|done]. by apply suffix_cons_r.
Qed.

Lemma read_ipv4_not u t : ch_dot ∉ u → group_end t → read_ipv4_addr (u ++ t) = None.
Proof.
  intros Hu Ht. unfold read_ipv4_addr. cbn [read_octets read_separator Nat.eqb].
  destruct (read_octet (u ++ t)) as [[o rest]|] eqn:E; [|done].
  assert (read_char ch_dot rest = None) as Hr; [|unfold read_separator; cbn [Nat.eqb]; by rewrite Hr].
  unfold read_octet, read_number in E. destruct (read_digits _ _ _ _ _) as [[[v n] rest']|] eqn:Ed; [|done].
  repeat case_hyp E; simplify_eq.
  apply read_digits_rest in Ed as (w & [u' ->] & ->); [|by apply group_end_stops].
  destruct w as [|c w]; cbn [app read_char]; [by destruct Ht as [->|[t' ->]]|].
  destruct (Z.eqb_spec c ch_dot) as [->|]; [|done]. destruct Hu. apply elem_of_app. right. by left.
Qed.

Lemma show_hex16_no_dot g : 0 ≤ g ≤ 65535 → (ch_dot ∉ show_hex16 g) ∧ (ch_colon ∉ show_hex16 g).
Proof.
  intros Hg. assert (∀ a, 0 ≤ a mod 16 < 16) as Hm by (intros; apply Z.mod_pos_bound; lia).
  assert (Forall (λ c, c ≠ ch_dot ∧ c ≠ ch_colon) (show_hex16 g)) as Hall.
  { unfold show_hex16. repeat case_goal; zbool; repeat constructor; apply hex_char_not; try apply Hm;
      try (split; [apply Z.div_pos; lia|apply Z.div_lt_upper_bound; lia]); lia. }
  rewrite Forall_forall in Hall. split; intros Hin; by apply Hall in Hin as [].
Qed.

Lemma show_tail_end gs t : group_end t → group_end (show_tail gs ++ t).
Proof. intros Ht. destruct gs; [done|]. right. by eexists. Qed.

(** Text after the last group: nothing, or the [::] of a zero run. *)
Definition run_or_end (t : bytes) : Prop := t = [] ∨ ∃ t', t = ch_colon :: ch_colon :: t'.

Lemma run_group_end t : run_or_end t → group_end t.
Proof. intros [->|[t' ->]]; [by left|right; by eexists]. Qed.

Lemma read_tail gs limit i t :
  Forall (λ g, 0 ≤ g ≤ 65535) gs → run_or_end t → (length gs ≤ limit)%nat →
  read_groups limit (S i) (show_tail gs ++ t) = (gs, false, t).
Proof.
  intros Hg Ht. revert limit i. induction Hg as [|g gs Hg Hgs IH]; intros [|limit] i Hl; cbn in Hl; try lia; [done| |].
  { cbn [app show_tail fmap list_fmap concat read_groups read_separator Nat.eqb].
    destruct Ht as [->|[t' ->]]; cbn; by destruct limit. }
  unfold show_tail. rewrite fmap_cons. cbn [concat]. fold (show_tail gs). rewrite <-app_assoc.
  assert (group_end (show_tail gs ++ t)) as He by (by apply show_tail_end, run_group_end).
  cbn [read_groups read_separator Nat.eqb app read_char]. rewrite Z.eqb_refl.
  rewrite read_ipv4_not by (done || by apply show_hex16_no_dot).
  rewrite read_hex by (done || by apply group_end_stops). rewrite IH by lia. by destruct limit.
Qed.

Lemma read_show_groups gs limit t :
  Forall (λ g, 0 ≤ g ≤ 65535) gs → run_or_end t → (length gs ≤ limit)%nat →
  read_groups limit 0 (show_groups gs ++ t) = (gs, false, t).
Proof.
  intros Hg Ht Hl. destruct gs as [|g gs]; destruct limit as [|limit]; cbn in Hl; try lia; [done|..].
  { cbn [show_groups app read_groups read_separator Nat.eqb]. destruct Ht as [->|[t' ->]]; cbn; by destruct limit. }
  inversion Hg as [|? ? Hg1 Hg2]; subst. cbn [show_groups]. rewrite <-app_assoc.
  assert (group_end (show_tail gs ++ t)) as He by (by apply show_tail_end, run_group_end).
  cbn [read_groups read_separator Nat.eqb].
  rewrite read_ipv4_not by (done || by apply show_hex16_no_dot).
  rewrite read_hex by (done || by apply group_end_stops). rewrite read_tail by (done || lia). by destruct limit.
Qed.

(** The run found is a run of zeros. *)
Lemma zero_span_spec segs pre current longest start len :
  (current.2 = 0%nat ∨ current.1 + current.2 = length pre)%nat →
  (current.1 + current.2 ≤ length pre)%nat → (longest.1 + longest.2 ≤ length pre)%nat →
  take current.2 (drop current.1 (pre ++ segs)) = replicate current.2 0 →
  take longest.2 (drop longest.1 (pre ++ segs)) = replicate longest.2 0 →
  zero_span (length pre) segs current longest = (start, len) →
  (start + len ≤ length (pre ++ segs))%nat ∧ take len (drop start (pre ++ segs)) = replicate len 0.
Proof.
  revert pre current longest. induction segs as [|s segs IH]; intros pre cur lon Hc Hcl Hll Hcz Hlz H; cbn [zero_span] in H.
  { subst lon. rewrite length_app. cbn in *. split; [lia|done]. }
  assert (pre ++ s :: segs = (pre ++ [s]) ++ segs) as E by (by rewrite <-app_assoc).
  assert (S (length pre) = length (pre ++ [s])) as El by (rewrite length_app; cbn; lia).
  rewrite E in *. destruct (Z.eqb_spec s 0) as [->|Hs].
  - set (cur' := if (cur.2 =? 0)%nat then (length pre, 1%nat) else (cur.1, S cur.2)) in *.
    assert ((cur'.1 + cur'.2 = length (pre ++ [0%Z]))%nat
      ∧ take cur'.2 (drop cur'.1 ((pre ++ [0]) ++ segs)) = replicate cur'.2 0) as [Hc' Hcz'].
    { unfold cur'. destruct (Nat.eqb_spec cur.2 0) as [Ez|Ez]; cbn [fst snd].
      - rewrite <-El. split; [lia|]. by rewrite <-app_assoc, drop_app_length.
      - destruct Hc as [?|Hc]; [done|]. rewrite <-El. split; [lia|].
        rewrite <-app_assoc in *. rewrite drop_app_le in * by lia.
        assert (take cur.2 (drop cur.1 pre ++ [0] ++ segs) = drop cur.1 pre) as Et
          by (apply take_app_exact; rewrite length_drop; lia).
        rewrite Et in Hcz. rewrite Hcz. rewrite replicate_S_end.
        rewrite app_assoc, take_app_exact; [done|]. rewrite length_app, length_replicate. cbn. lia. }
    rewrite El in H. eapply IH; [| | | |..|exact H]; [by right|lia| |done|];
      destruct (Nat.ltb_spec lon.2 cur'.2); try done; lia.
  - rewrite El in H. eapply IH; [| | | |..|exact H]; cbn; [by left|lia|lia|done|done].
Qed.

(** [Ipv6Addr]'s text parses back to it. *)
Lemma read_show_ipv6 gs :
  length gs = 8%nat → Forall (λ g, 0 ≤ g ≤ 65535) gs → read_ipv6_addr (show_ipv6 gs) = Some (gs, []).
Proof.
  intros Hl Hg. unfold show_ipv6. case_bool_decide as Hm.
  - pose proof (take_drop 6 gs) as Egs. rewrite Hm in Egs. rewrite <-Egs in Hg, Hl. cbn [app] in *. rewrite <-Egs at 2.
    destruct (drop 6 gs) as [|ab [|cd [|? ?]]]; try done. clear Hl Hm Egs.
    repeat match goal with H : Forall _ (_ :: _) |- _ => inversion H; subst; clear H end.
    assert (∀ x, 0 ≤ x ≤ 65535 → 0 ≤ x / 256 ≤ 255 ∧ 0 ≤ x mod 256 ≤ 255 ∧ x / 256 * 256 + x mod 256 = x) as Hx.
    { intros x Hx. pose proof (Z.div_mod x 256). pose proof (Z.mod_pos_bound x 256).
      assert (x / 256 < 256) by (apply Z.div_lt_upper_bound; lia). assert (0 ≤ x / 256) by (apply Z.div_pos; lia). lia. }
    pose proof (Hx ab ltac:(done)) as (? & ? & Eab). pose proof (Hx cd ltac:(done)) as (? & ? & Ecd).
    set (q := [ab / 256; ab mod 256; cd / 256; cd mod 256]).
    assert (read_ipv4_addr (show_ipv4 q) = Some (q, [])) as Hq by (apply read_ipv4_show; [done|]; unfold q; by auto).
    change (str "::ffff:" ++ show_ipv4 q) with ([ch_colon; ch_colon] ++ show_hex16 65535 ++ ch_colon :: show_ipv4 q).
    unfold read_ipv6_addr. pose proof (read_show_groups [] 8 ([ch_colon; ch_colon] ++ show_hex16 65535 ++ ch_colon :: show_ipv4 q)
      ltac:(done) ltac:(right; by eexists) ltac:(cbn; lia)) as E0.
    cbn [show_groups app] in E0. cbn [app]. rewrite E0. cbn [length Nat.eqb read_char]. rewrite Z.eqb_refl.
    cbn [read_char]. rewrite Z.eqb_refl. change (8 - (0 + 1))%nat with 7%nat.
    cbn [read_groups read_separator Nat.eqb Nat.leb].
    rewrite read_ipv4_not; [|by apply show_hex16_no_dot|right; by eexists].
    rewrite read_hex; [|lia|done]. cbn [read_groups read_separator Nat.eqb Nat.leb read_char]. rewrite Z.eqb_refl, Hq.
    cbn. by rewrite Eab, Ecd.
  - destruct (zero_span 0 gs (0%nat, 0%nat) (0%nat, 0%nat)) as [start len] eqn:Ez.
    apply (zero_span_spec gs []) in Ez as [Hlen Hz]; [|cbn; by auto..]. cbn [app] in *.
    destruct (Nat.ltb_spec 1 len) as [H1|H1].
    + assert (gs = take start gs ++ replicate len 0 ++ drop (start + len) gs) as Egs.
      { rewrite <-Hz, <-drop_drop, take_drop, take_drop. done. }
      assert (Forall (λ g, 0 ≤ g ≤ 65535) (take start gs)) by (by apply Forall_take).
      assert (Forall (λ g, 0 ≤ g ≤ 65535) (drop (start + len) gs)) by (by apply Forall_drop).
      assert (length (take start gs) = start) as Els by (rewrite length_take; lia).
      assert (length (drop (start + len) gs) = 8 - start - len)%nat as Eld by (rewrite length_drop; lia).
      unfold read_ipv6_addr. rewrite read_show_groups; [|done|right; by eexists|lia]. rewrite Els.
      destruct (Nat.eqb_spec start 8); [lia|]. cbn [app read_char]. rewrite Z.eqb_refl. cbn [read_char]. rewrite Z.eqb_refl.
      rewrite <-(app_nil_r (show_groups (drop _ _))), read_show_groups; [|done|by left|lia].
      rewrite Eld. replace (8 - start - (8 - start - len))%nat with len by lia. by rewrite <-Egs.
    + unfold read_ipv6_addr. rewrite <-(app_nil_r (show_groups gs)), read_show_groups; [|done|by left|lia].
      by rewrite Hl.
Qed.

(** An IPv6 text begins with a group or with [::], not with a dotted quad. *)
Lemma show_ipv6_front gs :
  length gs = 8%nat → Forall (λ g, 0 ≤ g ≤ 65535) gs →
  ∃ u t, show_ipv6 gs = u ++ t ∧ (ch_dot ∉ u) ∧ group_end t.
Proof.
  intros Hl Hg. unfold show_ipv6. case_bool_decide as Hm.
  { assert (length (drop 6 gs) = 2%nat) as Hd by (rewrite length_drop; lia).
    destruct (drop 6 gs) as [|ab [|cd [|? ?]]]; try done.
    eexists [], _. split; [reflexivity|]. split; [apply not_elem_of_nil|right; by eexists]. }
  assert (∀ gs' t, Forall (λ g, 0 ≤ g ≤ 65535) gs' → group_end t →
    ∃ u t', show_groups gs' ++ t = u ++ t' ∧ (ch_dot ∉ u) ∧ group_end t') as Hgr.
  { intros gs' t Hgs Ht. destruct gs' as [|g gs']; [exists [], t; split_and!; [done|apply not_elem_of_nil|done]|].
    inversion Hgs; subst. exists (show_hex16 g), (show_tail gs' ++ t). cbn [show_groups]. rewrite <-app_assoc.
    split_and!; [done|by apply show_hex16_no_dot|by apply show_tail_end]. }
  destruct (zero_span 0 gs _ _) as [start len]. destruct (1 <? len)%nat.
  - apply Hgr; [by apply Forall_take|right; by eexists].
  - rewrite <-(app_nil_r (show_groups gs)). apply Hgr; [done|by left].
Qed.

Definition ip_ok (a : IpAddr) : Prop :=
  match a with
  | V4 os => length os = 4%nat ∧ Forall (λ o, 0 ≤ o ≤ 255) os
  | V6 gs => length gs = 8%nat ∧ Forall (λ g, 0 ≤ g ≤ 65535) gs
  end.

Lemma parse_ipv4_show os : ip_ok (V4 os) → parse_ipv4 (show_ipv4 os) = Some os.
Proof. intros [Hl Ho]. unfold parse_ipv4. by rewrite read_ipv4_show. Qed.

Lemma parse_ipv6_show gs :
  ip_ok (V6 gs) → parse_ipv4 (show_ipv6 gs) = None ∧ parse_ipv6 (show_ipv6 gs) = Some gs.
Proof.
  intros [Hl Hg]. unfold parse_ipv4, parse_ipv6. rewrite read_show_ipv6 by done. split; [|done].
  destruct (show_ipv6_front gs Hl Hg) as (u & t & -> & Hu & Ht). by rewrite read_ipv4_not.
Qed.

(** Every address's text parses back to it. *)
Lemma parse_show_ip a : ip_ok a → parse_ip (show_ip a) = Some a.
Proof.
  destruct a as [os|gs]; intros Ha; cbn [show_ip].
  - destruct Ha. by apply parse_show_ipv4.
  - pose proof (parse_ipv6_show gs Ha) as [H4 H6]. unfold parse_ip, parse_ipv4, parse_ipv6 in *.
    destruct Ha as [Hl Hg]. destruct (show_ipv6_front gs Hl Hg) as (u & t & E & Hu & Ht).
    destruct (read_ipv6_addr _) as [[gs' [|]]|]; simplify_eq. rewrite E, read_ipv4_not by done. done.
Qed.

(** ** The characters of an address *)

Definition ip_char (c : Z) : Prop := is_digit c = true ∨ 97 ≤ c ≤ 102 ∨ c = ch_dot ∨ c = ch_colon.

Lemma hex_char_ip d : 0 ≤ d < 16 → ip_char (hex_char d).
Proof.
  intros Hd. unfold ip_char, hex_char, is_digit. destruct (Z.ltb_spec d 10); [left|right; left; lia].
  apply andb_true_iff. rewrite !Z.leb_le. lia.
Qed.

Lemma show_hex16_chars g : 0 ≤ g ≤ 65535 → Forall ip_char (show_hex16 g).
Proof.
  intros Hg. assert (∀ a, 0 ≤ a mod 16 < 16) as Hm by (intros; apply Z.mod_pos_bound; lia).
  unfold show_hex16. repeat case_goal; zbool; repeat (apply Forall_cons_2; [apply hex_char_ip|]); try apply Forall_nil_2;
    try apply Hm;
    try (split; [apply Z.div_pos; lia|apply Z.div_lt_upper_bound; lia]); lia.
Qed.

Lemma show_groups_chars gs : Forall (λ g, 0 ≤ g ≤ 65535) gs → Forall ip_char (show_groups gs).
Proof.
  intros Hg. assert (∀ gs, Forall (λ g, 0 ≤ g ≤ 65535) gs → Forall ip_char (show_tail gs)) as Ht.
  { induction 1 as [|g gs' Hg1 Hg2 IH]; [constructor|]. unfold show_tail. rewrite fmap_cons. cbn [concat].
    apply Forall_cons_2; [by right; right; right|]. apply Forall_app. by split; [apply show_hex16_chars|]. }
  destruct Hg; [constructor|]. cbn [show_groups]. apply Forall_app. by split; [apply show_hex16_chars|apply Ht].
Qed.

Lemma show_ipv4_ip_chars os : Forall (λ o, 0 ≤ o) os → Forall ip_char (show_ipv4 os).
Proof.
  intros Ho. eapply Forall_impl; [by apply show_ipv4_chars|]. intros c [->|?]; [right; right; by left|by left].
Qed.

Lemma show_ip_chars a : ip_ok a → Forall ip_char (show_ip a).
Proof.
  destruct a as [os|gs]; intros [Hl Hg]; cbn [show_ip].
  { apply show_ipv4_ip_chars. eapply Forall_impl; [exact Hg|]. cbn. lia. }
  unfold show_ipv6. case_bool_decide as Hm.
  - apply Forall_drop with (n := 6%nat) in Hg. destruct (drop 6 gs) as [|ab [|cd [|? ?]]]; try apply Forall_nil_2.
    repeat match goal with H : Forall _ (_ :: _) |- _ => inversion H; subst; clear H end.
    apply Forall_app. split; [|apply show_ipv4_ip_chars].
    + assert (Forall (λ c, is_digit c = true ∨ 97 ≤ c ≤ 102 ∨ c = ch_dot ∨ c = ch_colon) (str "::ffff:")) as Hs; [|done].
      vm_compute str. repeat (apply Forall_cons_2; [(right; right; by right) || (right; left; lia)|]). constructor.
    + repeat constructor; try (apply Z.div_pos; lia); apply Z.mod_pos_bound; lia.
  - destruct (zero_span 0 gs _ _) as [start len]. destruct (1 <? len)%nat; [|by apply show_groups_chars].
    repeat (apply Forall_app; split); [by apply show_groups_chars, Forall_take| |by apply show_groups_chars, Forall_drop].
    repeat (apply Forall_cons_2; [right; right; by right|]). constructor.
Qed.

(** An IPv6 text has a colon, a dotted quad has none. *)
Lemma show_ipv4_no_colon os : ip_ok (V4 os) → ch_colon ∉ show_ipv4 os.
Proof.
  intros [Hl Ho] Hin. assert (Forall (λ o, 0 ≤ o) os) as H0 by (eapply Forall_impl; [exact Ho|cbn; lia]).
  apply show_ipv4_chars in H0. rewrite Forall_forall in H0. by apply H0 in Hin as [].
Qed.

Lemma show_ipv6_colon gs : length gs = 8%nat → ch_colon ∈ show_ipv6 gs.
Proof.
  intros Hl. unfold show_ipv6. case_bool_decide.
  { assert (length (drop 6 gs) = 2%nat) as Hd by (rewrite length_drop; lia).
    destruct (drop 6 gs) as [|ab [|cd [|? ?]]]; try done. by left. }
  destruct (zero_span 0 gs _ _) as [start len]. destruct (1 <? len)%nat.
  - apply elem_of_app. right. by left.
  - destruct gs as [|g [|g' gs]]; try done. cbn [show_groups]. apply elem_of_app. right.
    unfold show_tail. rewrite fmap_cons. by left.
Qed.

(** ** Octets of an IPv6 address *)

Fixpoint segs_octets (gs : list Z) : bytes :=
  match gs with [] => [] | g :: gs => g / 256 :: g mod 256 :: segs_octets gs end.
Fixpoint octets_segs (os : bytes) : list Z :=
  match os with a :: b :: os => a * 256 + b :: octets_segs os | _ => [] end.

Lemma segs_octets_back gs : octets_segs (segs_octets gs) = gs.
Proof.
  induction gs as [|g gs IH]; [done|]. cbn. rewrite IH. f_equal. pose proof (Z.div_mod g 256). lia.
Qed.

Lemma length_segs_octets gs : length (segs_octets gs) = (2 * length gs)%nat.
Proof. induction gs as [|g gs IH]; cbn; [done|]. rewrite IH. lia. Qed.

Lemma octets_segs_ok os :
  length os = 16%nat → is_bytes os → ip_ok (V6 (octets_segs os)) ∧ segs_octets (octets_segs os) = os.
Proof.
  intros Hl Ho. do 16 (destruct os as [|? os]; [done|]). destruct os; [|done]. clear Hl.
  repeat match goal with H : is_bytes (_ :: _) |- _ => inversion H; subst; clear H
         | H : Forall is_byte (_ :: _) |- _ => inversion H; subst; clear H end.
  unfold is_byte in *. assert (∀ a b, 0 ≤ a < 256 → 0 ≤ b < 256 → (a * 256 + b) / 256 = a ∧ (a * 256 + b) mod 256 = b) as Hd.
  { intros a b Ha Hb. split; [symmetry; apply Z.div_unique with b; lia|symmetry; apply Z.mod_unique with a; lia]. }
  split; [split; [done|]; repeat constructor; lia|]. cbn [octets_segs segs_octets].
  repeat match goal with |- context [(?a * 256 + ?b) / 256] => destruct (Hd a b) as [-> ->]; [lia|lia|] end. done.
Qed.
