(* ===== verification/Auth.v ===== *)
(** * Users

    Models src/auth.rs: the secrets file and [LocalAuthenticator]. (Its
    duration parser is in the file on durations, [split_line_ref] in the one
    on reloading.) *)

From stdpp Require Import base list option numbers strings gmap sets.
From Stdlib Require Import ZArith Lia.
From S2P Require Import Prelude Text Duration Reload.

(** ** The secrets file *)

Definition replace_tabs (s : bytes) : bytes := (λ c, if c =? ch_tab then ch_space else c) <$> s.

Definition split_auth_line (line : bytes) : list bytes :=
  match line with
  | [] => []
  | _ =>
      let line := trim (replace_tabs line) in
      if starts_with [ch_hash] line then []
      else filter (λ s, s ≠ []) (trim <$> split_char ch_space line)
  end.

(** ** [LocalAuthenticator] *)

Record LocalAuthenticator : Type := mkAuth {
  kvs : gmap bytes bytes;
  auth_period : Z;
  auth_stopped : bool
}.

Definition LocalAuthenticator_new (m : gmap bytes bytes) : LocalAuthenticator := mkAuth m 0 false.
Definition auth_add (k v : bytes) (a : LocalAuthenticator) : LocalAuthenticator :=
  mkAuth (<[k := v]> (kvs a)) (auth_period a) (auth_stopped a).

(** One line of the file. *)
Definition auth_line (acc : gmap bytes bytes * Z) (line : bytes) : gmap bytes bytes * Z :=
  let '(m, p) := acc in
  match split_auth_line line with
  | [] => acc
  | k :: rest =>
      if bool_decide (k = str "reload") then
        match rest with
        | d :: _ => (m, default 0 (parse_go_duration d))
        | [] => acc
        end
      else (<[k := default [] (head rest)]> m, p)
  end.

Definition auth_reload (r : Reader) (a : LocalAuthenticator) : result io_error () * LocalAuthenticator :=
  if auth_stopped a then (Ok tt, a)
  else
    match for_lines auth_line (buf_lines r) (∅, 0) with
    | Err e => (Err e, a)
    | Ok (m, p) => (Ok tt, mkAuth m p (auth_stopped a))
    end.

Definition auth_get_period (a : LocalAuthenticator) : Z := if auth_stopped a then 0 else auth_period a.
Definition auth_stop (a : LocalAuthenticator) : LocalAuthenticator := mkAuth (kvs a) (auth_period a) true.

#[export] Instance auth_reloader : Reloader LocalAuthenticator := {
  reload := auth_reload;
  period := auth_get_period;
  stop := auth_stop;
  stopped := auth_stopped
}.

Definition authenticate (a : LocalAuthenticator) (user password : bytes) : bool :=
  if bool_decide (kvs a = ∅) then true
  else
    match kvs a !! user with
    | Some v => bool_decide (v = []) || bool_decide (password = v)
    | None => false
    end.

(** ** The reloader contract *)

#[export] Instance auth_reloader_laws : ReloaderLaws LocalAuthenticator.
Proof.
  split; cbn.
  - done.
  - intros t Hs. unfold auth_get_period. by rewrite Hs.
  - intros r t Hs. unfold auth_reload. by rewrite Hs.
  - intros r t e t'. unfold auth_reload. repeat case_goal; intros [= ]; congruence.
  - intros r t1 t1' t2 H1 H2. unfold auth_reload. rewrite H1, H2. by repeat case_goal.
  - intros r t t' Hs. unfold auth_reload. rewrite Hs. repeat case_goal; intros [= <-]. done.
Qed.

(** ** Round trip of the secrets file *)

(** A user line; the password is optional. *)
Definition user_line (e : bytes * option bytes) : bytes :=
  e.1 ++ match e.2 with Some p => ch_space :: p | None => [] end.

Definition user_ok (e : bytes * option bytes) : Prop :=
  is_field e.1 ∧ starts_with [ch_hash] e.1 = false ∧ e.1 ≠ str "reload"
  ∧ match e.2 with Some p => is_field p | None => True end.

Definition secrets_file (users : list (bytes * option bytes)) : bytes :=
  concat ((λ e, user_line e ++ [ch_lf]) <$> users).

(** The table the users make; a later line replaces an earlier one. *)
Definition users_map (users : list (bytes * option bytes)) : gmap bytes bytes :=
  foldl (λ m e, <[e.1 := default [] e.2]> m) ∅ users.

Lemma replace_tabs_id s : ch_tab ∉ s → replace_tabs s = s.
Proof.
  intros Hs. unfold replace_tabs. rewrite <-(list_fmap_id s) at 2. apply list_fmap_ext.
  intros i c Hi%list_elem_of_lookup_2. destruct (Z.eqb_spec c ch_tab); [by subst|done].
Qed.

Lemma user_line_ascii e : user_ok e → Forall is_ascii (user_line e).
Proof.
  intros (Hu & _ & _ & Hp). unfold user_line. apply Forall_app. split; [by apply field_ascii|].
  destruct e.2; [|constructor]. constructor; [unfold is_ascii, ch_space; lia|by apply field_ascii].
Qed.

Lemma user_line_no e c : user_ok e → ¬ (33 ≤ c ≤ 126) → c ≠ ch_space → c ∉ user_line e.
Proof.
  intros (Hu & _ & _ & Hp) Hc Hs. unfold user_line. rewrite not_elem_of_app. split; [by apply field_not_in|].
  destruct e.2 as [p|]; [|set_solver]. pose proof (field_not_in p c Hp Hc). set_solver.
Qed.

Lemma split_user_line e :
  user_ok e → split_auth_line (user_line e) = e.1 :: match e.2 with Some p => [p] | None => [] end.
Proof.
  intros He. pose proof (user_line_no e ch_tab He) as Htab.
  assert (trim (replace_tabs (user_line e)) = user_line e) as Htrim.
  { rewrite replace_tabs_id by (apply Htab; unfold ch_tab, ch_space; lia).
    destruct He as (Hu & _ & _ & Hp). unfold user_line. destruct e.2 as [p|].
    - apply (trim_fields e.1 [ch_space] p); [done..|]. repeat constructor; unfold ch_space; lia.
    - rewrite app_nil_r. by apply trim_field. }
  destruct He as (Hu & Hh & _ & Hp).
  assert (starts_with [ch_hash] (user_line e) = false) as Hsw.
  { unfold user_line. destruct e.1 as [|b u]; [by destruct Hu|]. done. }
  unfold split_auth_line. destruct (user_line e) as [|b l] eqn:El.
  { unfold user_line in El. destruct Hu as [Hu _]. by destruct e.1. }
  rewrite Htrim, Hsw, <-El. unfold user_line.
  assert (∀ f, is_field f → ch_space ∉ f) as Hns by (intros f Hf; apply field_not_in; [done|unfold ch_space; lia]).
  destruct e.2 as [p|].
  - rewrite split_char_app, split_char_no_sep by auto. cbn [fmap list_fmap].
    rewrite !trim_field by done. destruct Hu, Hp. by rewrite !filter_cons_True, filter_nil by done.
  - rewrite app_nil_r, split_char_no_sep by auto. cbn [fmap list_fmap]. rewrite trim_field by done.
    destruct Hu. by rewrite filter_cons_True, filter_nil by done.
Qed.

Lemma auth_line_user e m p : user_ok e → auth_line (m, p) (user_line e) = (<[e.1 := default [] e.2]> m, p).
Proof.
  intros He. unfold auth_line. rewrite split_user_line by done. destruct He as (_ & _ & Hr & _).
  rewrite bool_decide_eq_false_2 by done. by destruct e.2.
Qed.

Lemma lines_secrets users :
  Forall user_ok users → buf_lines (mkReader (secrets_file users) None) = (Ok ∘ user_line) <$> users.
Proof.
  intros Hu. rewrite list_fmap_compose. unfold secrets_file.
  rewrite (list_fmap_compose user_line (λ l, l ++ [ch_lf])). apply lines_file.
  rewrite Forall_fmap. eapply Forall_impl; [exact Hu|]. intros e He.
  split_and!; [by apply user_line_ascii|apply user_line_no; [done|unfold ch_lf, ch_cr, ch_space; lia..]..].
Qed.

Lemma for_lines_users users acc :
  Forall user_ok users →
  for_lines auth_line ((Ok ∘ user_line) <$> users) acc
  = Ok (foldl (λ m e, <[e.1 := default [] e.2]> m) acc.1 users, acc.2).
Proof.
  intros Hu. revert acc. induction Hu as [|e users He Hu IH]; intros [m p]; [done|].
  rewrite fmap_cons. cbn [for_lines compose]. by rewrite auth_line_user, IH.
Qed.

(** Writing users to a secrets file and loading it gives exactly those
    credentials: afterwards a login succeeds if and only if the file is
    empty, or the user's last line has no password or this very password
    (passwords with [#] in them included). *)
Theorem secrets_roundtrip users a u p :
  Forall user_ok users → auth_stopped a = false →
  ∃ a', auth_reload (mkReader (secrets_file users) None) a = (Ok tt, a')
    ∧ kvs a' = users_map users
    ∧ (authenticate a' u p = true ↔
       users = [] ∨ users_map users !! u = Some [] ∨ users_map users !! u = Some p).
Proof.
  intros Hu Hs. unfold auth_reload. rewrite Hs, lines_secrets, for_lines_users by done. cbn [fst snd].
  eexists. split_and!; [done..|]. unfold authenticate. cbn [kvs]. fold (users_map users).
  case_bool_decide as He.
  - split; [|done]. intros _. left. destruct users as [|e us] using rev_ind; [done|].
    exfalso. unfold users_map in He. rewrite foldl_app in He. cbn [foldl] in He. by apply insert_non_empty in He.
  - assert (users ≠ []) by (by intros ->).
    destruct (users_map users !! u) as [v|]; [|naive_solver].
    rewrite orb_true_iff, !bool_decide_eq_true. naive_solver.
Qed.

Lemma secrets_roundtrip_witness :
  ∃ a', auth_reload (mkReader (str "admin s3cr3t#pass
guest
") None) (LocalAuthenticator_new ∅) = (Ok tt, a')
    ∧ authenticate a' (str "admin") (str "s3cr3t#pass") = true.
Proof.
  destruct (secrets_roundtrip [(str "admin", Some (str "s3cr3t#pass")); (str "guest", None)]
              (LocalAuthenticator_new ∅) (str "admin") (str "s3cr3t#pass")) as (a' & H1 & _ & H2).
  - repeat constructor; try done; vm_compute; congruence.
  - reflexivity.
  - exists a'. split; [exact H1|]. apply H2. right; right. vm_compute. reflexivity.
Defined.

(** The users table under [period_reload]: a file that changes once. *)
Lemma period_reload_tracks_witness :
  let f (s : string) := mkReader (str s) None in
  let v0 := (10, f "reload 5s
bob pw
") in
  let v1 := (20, f "reload 5s
eve pw
") in
  let t := snd (auth_reload v0.2 (LocalAuthenticator_new ∅)) in
  match period_reload (str "users") (disk_of <$> [v0; v1]) t with
  | TReturn r t' => r = Ok tt ∧ period t' = 0 ∧ ∃ v, v ∈ [v0; v1] ∧ loaded v.2 t'
  | TSleep _ m' t' => ∃ v, last [v0; v1] = Some v ∧ m' = v.1 ∧ loaded v.2 t'
  end.
Proof.
  intros f v0 v1 t. apply (period_reload_tracks (str "users") v0 [v1] t).
  - discriminate.
  - split; [reflexivity|]. exists (LocalAuthenticator_new ∅). split; reflexivity.
  - assert (∀ v : Z * Reader, v ∈ [v0; v1] → ∃ t' : LocalAuthenticator, loaded v.2 t') as Hl.
    { intros v Hv. exists (snd (auth_reload v.2 (LocalAuthenticator_new ∅))).
      rewrite !elem_of_cons, elem_of_nil in Hv. destruct Hv as [->|[->|[]]];
        (split; [reflexivity|]; exists (LocalAuthenticator_new ∅); split; reflexivity). }
    repeat constructor; try discriminate; apply Hl; set_solver.
  - intros v w Hv Hw. rewrite !elem_of_cons, elem_of_nil in Hv, Hw.
    destruct Hv as [->|[->|[]]], Hw as [->|[->|[]]]; intros E; first [reflexivity|discriminate E].
Defined.
