(* ===== verification/Hosts.v ===== *)
(** * The static host table

    Models src/hosts.rs. A clone of [Hosts] shares the table behind an [Arc],
    so the table itself is the state. *)

From stdpp Require Import base list option numbers strings sets.
From Stdlib Require Import ZArith Lia.
From S2P Require Import Prelude Text Duration Reload IpAddr.

Record Host : Set := mkHost { ip : IpAddr; hostname : bytes; aliases : list bytes }.

Record Hosts : Set := mkHosts {
  table : list Host;
  hosts_period : Z;
  hosts_stopped : bool
}.

Definition Hosts_new (hs : list Host) : Hosts := mkHosts hs 0 false.
Definition add_host (h : Host) (t : Hosts) : Hosts :=
  mkHosts (table t ++ [h]) (hosts_period t) (hosts_stopped t).
Definition add_hosts (hs : list Host) (t : Hosts) : Hosts :=
  mkHosts (table t ++ hs) (hosts_period t) (hosts_stopped t).

(** [lookup] *)
Fixpoint find_alias (host : bytes) (l : list bytes) : bool :=
  match l with [] => false | a :: l => if bool_decide (a = host) then true else find_alias host l end.

Fixpoint lookup_in (host : bytes) (hs : list Host) : option IpAddr :=
  match hs with
  | [] => None
  | h :: hs =>
      if bool_decide (hostname h = host) then Some (ip h)
      else if find_alias host (aliases h) then Some (ip h)
      else lookup_in host hs
  end.

Definition hosts_lookup (t : Hosts) (host : bytes) : option IpAddr :=
  match host with [] => None | _ => lookup_in host (table t) end.

(** One line of the file. *)
Definition hosts_line (acc : list Host * Z) (line : bytes) : list Host * Z :=
  let '(hs, p) := acc in
  match split_line_ref line with
  | f0 :: f1 :: rest =>
      if bool_decide (f0 = str "reload") then (hs, default 0 (parse_go_duration f1))
      else match parse_ip f0 with
           | Some a => (hs ++ [mkHost a f1 rest], p)
           | None => acc
           end
  | _ => acc
  end.

Definition hosts_reload (r : Reader) (t : Hosts) : result io_error () * Hosts :=
  if hosts_stopped t then (Ok tt, t)
  else
    match for_lines hosts_line (buf_lines r) ([], 0) with
    | Err e => (Err e, t)
    | Ok (hs, p) => (Ok tt, mkHosts hs p (hosts_stopped t))
    end.

Definition hosts_get_period (t : Hosts) : Z := if hosts_stopped t then 0 else hosts_period t.
Definition hosts_stop (t : Hosts) : Hosts := mkHosts (table t) (hosts_period t) true.

#[export] Instance hosts_reloader : Reloader Hosts := {
  reload := hosts_reload;
  period := hosts_get_period;
  stop := hosts_stop;
  stopped := hosts_stopped
}.

#[export] Instance hosts_reloader_laws : ReloaderLaws Hosts.
Proof.
  split; cbn.
  - done.
  - intros t Hs. unfold hosts_get_period. by rewrite Hs.
  - intros r t Hs. unfold hosts_reload. by rewrite Hs.
  - intros r t e t'. unfold hosts_reload. repeat case_goal; intros [= ]; congruence.
  - intros r t1 t1' t2 H1 H2. unfold hosts_reload. rewrite H1, H2. by repeat case_goal.
  - intros r t t' Hs. unfold hosts_reload. rewrite Hs. repeat case_goal; intros [= <-]. done.
Qed.

(** [parse_hosts]: [file] is what opening the path gives. *)
Definition parse_hosts (path : bytes) (file : option Reader) : option Hosts :=
  match path with
  | [] => None
  | _ => match file with
         | None => None
         | Some f => Some (snd (hosts_reload f (Hosts_new [])))
         end
  end.

(** ** Lookup *)

(** An entry answers for a name. *)
Definition answers (host : bytes) (h : Host) : Prop := hostname h = host ∨ host ∈ aliases h.

Lemma find_alias_spec host l : find_alias host l = true ↔ host ∈ l.
Proof.
  induction l as [|a l IH]; cbn; [set_solver|]. case_bool_decide as E; [set_solver|]. rewrite IH. set_solver.
Qed.

Lemma lookup_in_first host hs a :
  lookup_in host hs = Some a ↔
  ∃ l1 h l2, hs = l1 ++ h :: l2 ∧ Forall (λ h', ¬ answers host h') l1 ∧ answers host h ∧ ip h = a.
Proof.
  induction hs as [|h hs IH]; cbn.
  { split; [done|]. intros (l1 & h & l2 & E & _). by destruct l1. }
  assert ((if bool_decide (hostname h = host) then Some (ip h)
           else if find_alias host (aliases h) then Some (ip h) else lookup_in host hs)
          = if bool_decide (answers host h) then Some (ip h) else lookup_in host hs) as ->.
  { unfold answers. repeat case_bool_decide; try tauto; destruct (find_alias host (aliases h)) eqn:E;
      try done; apply find_alias_spec in E || apply not_true_iff_false in E; rewrite ?find_alias_spec in *; tauto. }
  case_bool_decide as Ha.
  - split.
    + intros [= <-]. by exists [], h, hs.
    + intros (l1 & h' & l2 & E & Hl & Ha' & <-). destruct l1 as [|x l1]; [by injection E as -> ->|].
      injection E as -> ->. by inversion Hl.
  - rewrite IH. split.
    + intros (l1 & h' & l2 & -> & Hl & Ha' & <-). exists (h :: l1), h', l2. split_and!; [done| |done..].
      by constructor.
    + intros (l1 & h' & l2 & E & Hl & Ha' & <-). destruct l1 as [|x l1]; [by injection E as -> ->|].
      injection E as -> ->. inversion Hl; subst. by exists l1, h', l2.
Qed.

(** ** Round trip of the hosts file *)

(** An entry of the file: a dotted quad, a name and its aliases. *)
Definition entry_ok (h : Host) : Prop :=
  match ip h with
  | V4 os => length os = 4%nat ∧ Forall (λ o, 0 ≤ o ≤ 255) os
  | V6 _ => False
  end ∧ Forall (λ f, is_field f ∧ ch_hash ∉ f) (hostname h :: aliases h).

Definition entry_fields (h : Host) : list bytes :=
  match ip h with V4 os => show_ipv4 os | V6 _ => [] end :: hostname h :: aliases h.

Definition hosts_file (hs : list Host) : bytes :=
  concat ((λ l, l ++ [ch_lf]) <$> (join_fields ∘ entry_fields <$> hs)).

Lemma show_ipv4_field os :
  length os = 4%nat → Forall (λ o, 0 ≤ o ≤ 255) os → is_field (show_ipv4 os) ∧ ch_hash ∉ show_ipv4 os.
Proof.
  intros Hl Ho. assert (Forall (λ c, c = ch_dot ∨ is_digit c = true) (show_ipv4 os)) as Hc.
  { apply show_ipv4_chars. eapply Forall_impl; [exact Ho|]. cbn. lia. }
  pose proof (parse_show_ipv4 os Hl Ho) as Hp. split.
  - split; [by intros E; rewrite E in Hp|]. eapply Forall_impl; [exact Hc|].
    unfold is_digit, ch_dot. cbn. intros b [->|[? ?]%andb_true_iff]; zbool; lia.
  - intros Hin. rewrite Forall_forall in Hc. by destruct (Hc _ Hin).
Qed.

Lemma entry_fields_ok h :
  entry_ok h → Forall is_field (entry_fields h) ∧ Forall (λ f, ch_hash ∉ f) (entry_fields h).
Proof.
  intros [Hip Hf]. unfold entry_fields. destruct (ip h) as [os|]; [|done]. destruct Hip as [Hl Ho].
  destruct (show_ipv4_field os Hl Ho). split; (constructor; [done|]); (eapply Forall_impl; [exact Hf|]); by intros ? [].
Qed.

Lemma hosts_line_entry h hs p :
  entry_ok h → hosts_line (hs, p) (join_fields (entry_fields h)) = (hs ++ [h], p).
Proof.
  intros He. destruct (entry_fields_ok h He) as [H1 H2]. unfold hosts_line.
  rewrite split_line_ref_fields by done. destruct He as [Hip _]. unfold entry_fields in *.
  destruct h as [[os|] name al]; [|done]. cbn [ip hostname aliases] in *. destruct Hip as [Hl Ho].
  rewrite bool_decide_eq_false_2; [by rewrite parse_show_ipv4|].
  intros E. pose proof (parse_show_ipv4 os Hl Ho) as Hp. by rewrite E in Hp.
Qed.

Lemma lines_hosts hs :
  Forall entry_ok hs → buf_lines (mkReader (hosts_file hs) None) = Ok <$> (join_fields ∘ entry_fields <$> hs).
Proof.
  intros Hh. apply lines_file. rewrite Forall_fmap. eapply Forall_impl; [exact Hh|]. intros h He.
  destruct (entry_fields_ok h He) as [H1 H2]. unfold compose. split_and!; [by apply join_fields_ascii|..];
    (apply join_fields_no; [done|]); (eapply Forall_impl; [exact H1|]); intros f Hf; apply field_not_in;
    done || unfold ch_lf, ch_cr; lia.
Qed.

Lemma for_lines_entries hs l p :
  Forall entry_ok hs →
  for_lines hosts_line (Ok <$> (join_fields ∘ entry_fields <$> hs)) (l, p) = Ok (l ++ hs, p).
Proof.
  intros Hh. revert l. induction Hh as [|h hs He Hh IH]; intros l; [by rewrite app_nil_r|].
  rewrite !fmap_cons. cbn [for_lines]. unfold compose at 2. rewrite hosts_line_entry, IH by done.
  by rewrite <-app_assoc.
Qed.

(** Loading a hosts file makes exactly its entries the table, and a
    lookup answers with the address of the first entry whose name or alias is
    the host asked for, and with nothing when there is none. *)
Theorem hosts_roundtrip hs t host a :
  Forall entry_ok hs → hosts_stopped t = false →
  ∃ t', hosts_reload (mkReader (hosts_file hs) None) t = (Ok tt, t')
    ∧ table t' = hs
    ∧ (hosts_lookup t' host = Some a ↔
       host ≠ [] ∧ ∃ l1 h l2, hs = l1 ++ h :: l2 ∧ Forall (λ h', ¬ answers host h') l1
                              ∧ answers host h ∧ ip h = a).
Proof.
  intros Hh Hs. unfold hosts_reload. rewrite Hs, lines_hosts, for_lines_entries by done.
  eexists. split_and!; [done..|]. unfold hosts_lookup. cbn [table app].
  destruct host as [|b host]; [naive_solver|]. rewrite lookup_in_first. naive_solver.
Qed.

Lemma hosts_roundtrip_witness :
  let h := mkHost (V4 [10; 0; 0; 7]) (str "db") [str "db.local"] in
  ∃ t', hosts_reload (mkReader (str "10.0.0.7 db db.local
") None) (Hosts_new []) = (Ok tt, t')
        ∧ hosts_lookup t' (str "db.local") = Some (V4 [10; 0; 0; 7]).
Proof.
  intros h. destruct (hosts_roundtrip [h] (Hosts_new []) (str "db.local") (V4 [10; 0; 0; 7]))
    as (t' & H1 & _ & H2).
  - repeat constructor; vm_compute; try discriminate; intros Hin; apply list_elem_of_In in Hin;
      vm_compute in Hin; intuition discriminate.
  - reflexivity.
  - exists t'. split; [exact H1|]. apply H2. split; [discriminate|]. exists [], h, [].
    split_and!; [reflexivity|constructor|right; apply list_elem_of_In; left; reflexivity|reflexivity].
Defined.
