(* ===== verification/Bypass.v ===== *)
(** * Bypass rules

    Models src/bypass.rs. The [ipnet] crate (networks in CIDR notation) and
    the [glob_match] crate are the section's variables; the trait object
    [dyn Matcher] is an inductive type with the source's three
    implementations. *)

From stdpp Require Import base list option numbers strings sets.
From Stdlib Require Import ZArith Lia.
From S2P Require Import Prelude Text Duration Reload IpAddr Permissions.

Definition parse_bool (s : bytes) : option bool :=
  if bool_decide (s ∈ str <$> ["1"; "t"; "T"; "TRUE"; "true"; "True"]%string) then Some true
  else if bool_decide (s ∈ str <$> ["0"; "f"; "F"; "FALSE"; "false"; "False"]%string) then Some false
  else None.

Definition strip_port (addr : bytes) : bytes :=
  match split_host_port addr with
  | Ok (host, port) =>
      if negb (bool_decide (host = [])) && negb (bool_decide (port = [])) then
        match parse_i64 port with
        | Some p => if 0 <? p then host else addr
        | None => addr
        end
      else addr
  | Err _ => addr
  end.

Section bypass.
Context {IpNet : Type} (parse_net : bytes → option IpNet) (net_contains : IpNet → IpAddr → bool)
        (glob_match : bytes → bytes → bool).

Inductive Matcher : Type :=
| IpMatcher (ip : IpAddr)
| CidrMatcher (net : IpNet)
| DomainMatcher (pattern plain : bytes).

Definition DomainMatcher_new (pattern : bytes) : Matcher :=
  match strip_prefix [ch_dot] pattern with
  | Some stripped => DomainMatcher ([ch_star; ch_dot] ++ stripped) stripped
  | None => DomainMatcher pattern pattern
  end.

Definition new_matcher (pattern : bytes) : option Matcher :=
  match pattern with
  | [] => None
  | _ =>
      match parse_ip pattern with
      | Some ip => Some (IpMatcher ip)
      | None =>
          match parse_net pattern with
          | Some net => Some (CidrMatcher net)
          | None => Some (DomainMatcher_new pattern)
          end
      end
  end.

Definition match_value (m : Matcher) (v : bytes) : bool :=
  match m with
  | IpMatcher ip => match parse_ip v with Some ip' => bool_decide (ip = ip') | None => false end
  | CidrMatcher net => match parse_ip v with Some ip => net_contains net ip | None => false end
  | DomainMatcher pattern plain => bool_decide (v = plain) || glob_match pattern v
  end.

Record Bypass : Type := mkBypass {
  matchers : list Matcher;
  reversed : bool;
  bypass_period : Z;
  bypass_stopped : bool
}.

Definition Bypass_new (rev : bool) (ms : list Matcher) : Bypass := mkBypass ms rev 0 false.
Definition from_patterns (rev : bool) (patterns : list bytes) : Bypass :=
  Bypass_new rev (omap new_matcher patterns).
Definition add_matchers (ms : list Matcher) (b : Bypass) : Bypass :=
  mkBypass (matchers b ++ ms) (reversed b) (bypass_period b) (bypass_stopped b).

Definition contains (b : Bypass) (addr : bytes) : bool :=
  match addr with
  | [] => false
  | _ =>
      let host := strip_port addr in
      match matchers b with
      | [] => false
      | ms =>
          let matched := existsb (λ m, match_value m host) ms in
          negb (reversed b) && matched || reversed b && negb matched
      end
  end.

(** One line of the file. *)
Definition bypass_line (acc : list Matcher * bool * Z) (line : bytes) : list Matcher * bool * Z :=
  let '(ms, rev, p) := acc in
  match split_line_ref line with
  | [] => acc
  | f0 :: rest =>
      if bool_decide (f0 = str "reload") then
        match rest with d :: _ => (ms, rev, default 0 (parse_go_duration d)) | [] => acc end
      else if bool_decide (f0 = str "reverse") then
        match rest with v :: _ => (ms, default false (parse_bool v), p) | [] => acc end
      else match new_matcher f0 with Some m => (ms ++ [m], rev, p) | None => acc end
  end.

Definition bypass_reload (r : Reader) (b : Bypass) : result io_error () * Bypass :=
  if bypass_stopped b then (Ok tt, b)
  else
    match for_lines bypass_line (buf_lines r) ([], false, 0) with
    | Err e => (Err e, b)
    | Ok (ms, rev, p) => (Ok tt, mkBypass ms rev p (bypass_stopped b))
    end.

Definition bypass_get_period (b : Bypass) : Z := if bypass_stopped b then 0 else bypass_period b.
Definition bypass_stop (b : Bypass) : Bypass :=
  mkBypass (matchers b) (reversed b) (bypass_period b) true.

#[export] Instance bypass_reloader : Reloader Bypass := {
  reload := bypass_reload;
  period := bypass_get_period;
  stop := bypass_stop;
  stopped := bypass_stopped
}.

#[export] Instance bypass_reloader_laws : ReloaderLaws Bypass.
Proof.
  split; cbn.
  - done.
  - intros t Hs. unfold bypass_get_period. by rewrite Hs.
  - intros r t Hs. unfold bypass_reload. by rewrite Hs.
  - intros r t e t'. unfold bypass_reload. repeat case_goal; intros [= ]; congruence.
  - intros r t1 t1' t2 H1 H2. unfold bypass_reload. rewrite H1, H2. by repeat case_goal.
  - intros r t t' Hs. unfold bypass_reload. rewrite Hs. repeat case_goal; intros [= <-]. done.
Qed.

(** ** The port does not matter *)

(** A port that is stripped: a positive number. *)
Definition port_text (p : bytes) : Prop := ∃ n, 0 < n ≤ i64_max ∧ p = show_int n.

Lemma port_text_chars p : port_text p → p ≠ [] ∧ Forall (λ c, c ≠ ch_colon ∧ c ≠ ch_lbracket ∧ c ≠ ch_rbracket) p.
Proof.
  intros (n & Hn & ->). destruct (show_int_cons n) as (d & ds & E); [lia|]. split; [by rewrite E|].
  eapply Forall_impl; [apply show_int_digits; lia|]. cbn. intros c Hc. unfold is_digit in Hc.
  unfold ch_colon, ch_lbracket, ch_rbracket. zbool. lia.
Qed.

Lemma strip_port_split addr h p :
  split_host_port addr = Ok (h, p) → h ≠ [] → port_text p → strip_port addr = h.
Proof.
  intros Hs Hh Hp. unfold strip_port. rewrite Hs. destruct (port_text_chars p Hp) as [Hne _].
  rewrite !bool_decide_eq_false_2 by done. cbn [negb andb]. destruct Hp as (n & Hn & ->).
  unfold parse_i64. rewrite parse_show_signed; [|lia|done]. destruct (Z.ltb_spec 0 n); [done|lia].
Qed.

(** The decision on a bare host. *)
Definition host_bypassed (b : Bypass) (h : bytes) : Prop :=
  matchers b ≠ [] ∧ (reversed b = false ↔ ∃ m, m ∈ matchers b ∧ match_value m h = true).

Lemma contains_host b addr :
  addr ≠ [] → contains b addr = true ↔ host_bypassed b (strip_port addr).
Proof.
  intros Ha. unfold contains, host_bypassed. destruct addr as [|c addr]; [done|]. clear Ha.
  destruct (matchers b) as [|m ms] eqn:Em; [naive_solver|]. rewrite <-Em.
  assert (existsb (λ m, match_value m (strip_port (c :: addr))) (matchers b) = true ↔
          ∃ m, m ∈ matchers b ∧ match_value m (strip_port (c :: addr)) = true) as Hex.
  { rewrite existsb_exists. by setoid_rewrite list_elem_of_In. }
  assert (matchers b ≠ []) by (by rewrite Em).
  destruct (existsb _ _) eqn:E; destruct (reversed b); cbn; naive_solver.
Qed.

Lemma filter_none (c : Z) (l : bytes) : Forall (λ b, b ≠ c) l → filter (.= c) l = [].
Proof. induction 1 as [|b l Hb Hl IH]; [done|]. by rewrite filter_cons_False, IH. Qed.

(** A bypass answers for [host:port], [[host]:port] and a bare IPv6
    literal as it does for the host alone: the port is ignored, the brackets
    of an IPv6 address are removed, and the answer is that some rule matches
    the host, inverted for a reversed bypass; without rules nothing is
    bypassed. *)
Theorem bypass_host_port b h p :
  h ≠ [] → Forall (λ c, c ≠ ch_lbracket ∧ c ≠ ch_rbracket) h → port_text p →
  (contains b (ch_lbracket :: h ++ ch_rbracket :: ch_colon :: p) = true ↔ host_bypassed b h)
  ∧ (ch_colon ∉ h → contains b (h ++ ch_colon :: p) = true ↔ host_bypassed b h)
  ∧ (length (filter (.= ch_colon) h) ≠ 1%nat → contains b h = true ↔ host_bypassed b h).
Proof.
  intros Hne Hh Hp. destruct (port_text_chars p Hp) as [_ Hpc]. split_and!.
  - rewrite contains_host by done. erewrite strip_port_split; [done| |done|done].
    apply split_host_port_spec. eauto.
  - intros Hc. rewrite contains_host by (by destruct h). erewrite strip_port_split; [done| |done|done].
    apply split_host_port_spec. split_and!; [done..|]. left. split; [done|].
    rewrite Forall_forall. intros c Hin ->. done.
  - intros Hc. rewrite contains_host by done. enough (strip_port h = h) as -> by done.
    unfold strip_port. destruct (split_host_port h) as [[h' p']|] eqn:E; [|done]. exfalso.
    apply split_host_port_spec in E as (Hp' & Hh' & [[-> Hcol]| ->]).
    + apply Hc. rewrite filter_app, filter_cons_True by done.
      rewrite (filter_none ch_colon h'), (filter_none ch_colon p'); [done| |done].
      eapply Forall_impl; [exact Hp'|]. by intros c [? _].
    + inversion Hh as [|? ? [? _]]; subst. done.
Qed.
End bypass.

Arguments Matcher : clear implicits.
Arguments Bypass : clear implicits.

(** The hypotheses hold, for instance, of [::1] and port 443 under a rule for
    that address. *)
Lemma bypass_host_port_witness :
  let parse_net (_ : bytes) := @None Empty_set in
  let net_contains (_ : Empty_set) (_ : IpAddr) := false in
  let glob_match (_ _ : bytes) := false in
  let b := from_patterns parse_net false [str "::1"] in
  (contains net_contains glob_match b (str "[::1]:443") = true ↔ host_bypassed net_contains glob_match b (str "::1"))
  ∧ (contains net_contains glob_match b (str "::1") = true ↔ host_bypassed net_contains glob_match b (str "::1")).
Proof.
  intros parse_net net_contains glob_match b.
  destruct (bypass_host_port parse_net net_contains glob_match b (str "::1") (str "443")) as (H1 & _ & H3).
  - discriminate.
  - repeat constructor; discriminate.
  - exists 443. split; [split; [reflexivity|discriminate]|reflexivity].
  - split; [exact H1|]. apply H3. discriminate.
Defined.
