(* ===== verification/KcpCrypt.v ===== *)
(** * KCP packet checksums and ciphers

    Models the CRC tables, TEA, XTEA, the CFB mode and [Crypt] of src/kcp.rs.
    PBKDF2, Salsa20 and the block ciphers of the RustCrypto crates are
    parameters; the trait [BlockEnc] is a record of operations with its
    contract as a class, which TEA and XTEA are proved to keep. *)

From stdpp Require Import base list option numbers strings sets.
From Stdlib Require Import ZArith Lia.
From S2P Require Import Prelude.

(** ** CRC-32 *)

Definition u32_ones : Z := 4294967295.

(** One bit of the table's inner loop. *)
Definition crc_bit (poly crc : Z) : Z :=
  if Z.land crc 1 =? 0 then Z.shiftr crc 1 else Z.lxor (Z.shiftr crc 1) poly.

Definition crc_table (poly : Z) : list Z := (λ i, Nat.iter 8 (crc_bit poly) i) <$> seqZ 0 256.

Definition CRC32_IEEE : list Z := crc_table 3988292384.
Definition CRC32_CASTAGNOLI : list Z := crc_table 2197175160.

Definition crc_byte (table : list Z) (crc b : Z) : Z :=
  Z.lxor (table !!! Z.to_nat (Z.land (Z.lxor crc b) 255)) (Z.shiftr crc 8).

Definition crc32 (table : list Z) (data : bytes) : Z :=
  Z.lxor (foldl (crc_byte table) u32_ones data) u32_ones.

Definition crc32_ieee (data : bytes) : Z := crc32 CRC32_IEEE data.

Definition rotate_right (x n : Z) : Z := Z.lor (Z.shiftr x n) (u32 (Z.shiftl x (32 - n))).

Definition crc32c_masked (data : bytes) : Z :=
  u32 (rotate_right (crc32 CRC32_CASTAGNOLI data) 15 + 2726488792).

(** The reference: the checksum one bit at a time, with no table. *)
Definition crc32_bitwise (poly : Z) (data : bytes) : Z :=
  Z.lxor (foldl (λ crc b, Nat.iter 8 (crc_bit poly) (Z.lxor crc b)) u32_ones data) u32_ones.

(** ** Block ciphers *)

Record BlockEnc : Type := mkBlockEnc {
  block_size : nat;
  encrypt_block : bytes → bytes
}.

(** What CFB relies on: a block fits the 16-byte buffers and is replaced by a
    block. *)
Class BlockEncOk (b : BlockEnc) : Prop := {
  block_size_bound : (0 < block_size b ≤ 16)%nat;
  encrypt_block_length x : length x = block_size b → length (encrypt_block b x) = block_size b
}.

Definition be32 (l : bytes) : Z := from_be (take 4 l).

(** The four words of a key. *)
Definition key_words (key : bytes) : list Z := (λ i, be32 (drop (i * 4) key)) <$> seq 0 4.

Definition TEA_DELTA : Z := 2654435769.

Definition tea_mix (v sum ka kb : Z) : Z :=
  Z.lxor (Z.lxor (u32 (u32 (Z.shiftl v 4) + ka)) (u32 (v + sum))) (u32 (Z.shiftr v 5 + kb)).

Fixpoint tea_rounds (k : list Z) (n : nat) (v0 v1 sum : Z) : Z * Z :=
  match n with
  | O => (v0, v1)
  | S n =>
      let sum := u32 (sum + TEA_DELTA) in
      let v0 := u32 (v0 + tea_mix v1 sum (k !!! 0%nat) (k !!! 1%nat)) in
      let v1 := u32 (v1 + tea_mix v0 sum (k !!! 2%nat) (k !!! 3%nat)) in
      tea_rounds k n v0 v1 sum
  end.

Definition Tea_encrypt (k : list Z) (rounds : nat) (block : bytes) : bytes :=
  let '(v0, v1) := tea_rounds k (rounds / 2) (be32 block) (be32 (drop 4 block)) 0 in
  to_be 4 v0 ++ to_be 4 v1.

Definition Tea_new (key : bytes) : BlockEnc := mkBlockEnc 8 (Tea_encrypt (key_words key) 16).

(** The key schedule, two entries per turn. *)
Fixpoint xtea_schedule (k : list Z) (n : nat) (sum : Z) : list Z :=
  match n with
  | O => []
  | S n =>
      let sum' := u32 (sum + TEA_DELTA) in
      u32 (sum + k !!! Z.to_nat (Z.land sum 3))
        :: u32 (sum' + k !!! Z.to_nat (Z.land (Z.shiftr sum' 11) 3)) :: xtea_schedule k n sum'
  end.

Definition xtea_mix (v t : Z) : Z := Z.lxor (u32 (Z.lxor (u32 (Z.shiftl v 4)) (Z.shiftr v 5) + v)) t.

Fixpoint xtea_rounds (table : list Z) (v0 v1 : Z) : Z * Z :=
  match table with
  | ta :: tb :: table =>
      let v0 := u32 (v0 + xtea_mix v1 ta) in
      let v1 := u32 (v1 + xtea_mix v0 tb) in
      xtea_rounds table v0 v1
  | _ => (v0, v1)
  end.

Definition Xtea_encrypt (table : list Z) (block : bytes) : bytes :=
  let '(v0, v1) := xtea_rounds table (be32 block) (be32 (drop 4 block)) in
  to_be 4 v0 ++ to_be 4 v1.

Definition Xtea_new (key : bytes) : BlockEnc :=
  mkBlockEnc 8 (Xtea_encrypt (xtea_schedule (key_words key) 32 0)).

(** ** Packet ciphers *)

Fixpoint xor_in_place (buf table : bytes) : bytes :=
  match buf, table with
  | b :: buf, t :: table => Z.lxor b t :: xor_in_place buf table
  | _, _ => buf
  end.

Definition INITIAL_VECTOR : bytes :=
  [167; 115; 79; 156; 18; 172; 27; 1; 164; 21; 242; 193; 252; 120; 230; 107].

(** The loop over the full blocks and the tail; [tbl] is the current
    keystream block. *)
Fixpoint cfb_enc_loop (block : BlockEnc) (full : nat) (tbl buf : bytes) : bytes :=
  match full with
  | O => xor_in_place buf tbl
  | S full =>
      let c := xor_in_place (take (block_size block) buf) tbl in
      c ++ cfb_enc_loop block full (encrypt_block block c) (drop (block_size block) buf)
  end.

Definition cfb_encrypt (block : BlockEnc) (buf : bytes) : bytes :=
  cfb_enc_loop block (length buf / block_size block)
    (encrypt_block block (take (block_size block) INITIAL_VECTOR)) buf.

Fixpoint cfb_dec_loop (block : BlockEnc) (full : nat) (tbl buf : bytes) : bytes :=
  match full with
  | O => xor_in_place buf tbl
  | S full =>
      let c := take (block_size block) buf in
      xor_in_place c tbl ++ cfb_dec_loop block full (encrypt_block block c) (drop (block_size block) buf)
  end.

Definition cfb_decrypt (block : BlockEnc) (buf : bytes) : bytes :=
  cfb_dec_loop block (length buf / block_size block)
    (encrypt_block block (take (block_size block) INITIAL_VECTOR)) buf.

(** [CryptKind] *)
Inductive Crypt : Type :=
| CryptNone
| CryptXor (table : bytes)
| CryptSalsa20 (key : bytes)
| CryptCfb (block : BlockEnc).

Definition KEY_ROUNDS : Z := 4096.
Definition KEY_LEN : nat := 32.
Definition MTU_LIMIT : nat := 1500.
Definition KCP_SALT : bytes := str "kcp-go".
Definition SALT_XOR : bytes := str "sH3CIVoF#rWLtJo6".

Section crypt.
(** [salsa20 key nonce n]: the first [n] keystream bytes. [pbkdf2 password
    salt rounds n]: [n] derived bytes. [new_cipher name key]: the RustCrypto
    cipher, if it accepts the key's length. *)
Context (salsa20 : bytes → bytes → nat → bytes) (pbkdf2 : bytes → bytes → Z → nat → bytes)
        (new_cipher : string → bytes → option BlockEnc).

Definition salsa20_apply (key buf : bytes) : bytes :=
  if (length buf <=? 8)%nat then buf
  else take 8 buf ++ xor_in_place (drop 8 buf) (salsa20 key (take 8 buf) (length buf - 8)).

Definition encrypt (c : Crypt) (buf : bytes) : bytes :=
  match c with
  | CryptNone => buf
  | CryptXor table => xor_in_place buf table
  | CryptSalsa20 key => salsa20_apply key buf
  | CryptCfb block => cfb_encrypt block buf
  end.

Definition decrypt (c : Crypt) (buf : bytes) : bytes :=
  match c with
  | CryptNone => buf
  | CryptXor table => xor_in_place buf table
  | CryptSalsa20 key => salsa20_apply key buf
  | CryptCfb block => cfb_decrypt block buf
  end.

(** A cipher of the crates; the error names the cipher that rejected its key. *)
Definition rc (name : string) (key : bytes) : result string Crypt :=
  match new_cipher name key with Some b => Ok (CryptCfb b) | None => Err name end.

Definition Crypt_new (key crypt salt : bytes) : result string Crypt :=
  let pass := pbkdf2 key salt KEY_ROUNDS KEY_LEN in
  let named (s : string) := bool_decide (crypt = str s) in
  if named "none"%string then Ok CryptNone
  else if named "xor"%string then Ok (CryptXor (pbkdf2 pass SALT_XOR 32 MTU_LIMIT))
  else if named "salsa20"%string then Ok (CryptSalsa20 pass)
  else if named "sm4"%string then rc "sm4" (take 16 pass)
  else if named "tea"%string then Ok (CryptCfb (Tea_new (take 16 pass)))
  else if named "xtea"%string then Ok (CryptCfb (Xtea_new (take 16 pass)))
  else if named "aes-128"%string then rc "aes-128" (take 16 pass)
  else if named "aes-192"%string then rc "aes-192" (take 24 pass)
  else if named "blowfish"%string then rc "blowfish" pass
  else if named "twofish"%string then rc "twofish" pass
  else if named "cast5"%string then rc "cast5" (take 16 pass)
  else if named "3des"%string then rc "3des" (take 24 pass)
  else rc "aes" pass.
End crypt.

Definition CryptOk (c : Crypt) : Prop :=
  match c with CryptCfb b => BlockEncOk b | _ => True end.

(** ** The table is the bitwise checksum *)

(** Bits above the lowest do not take part in a step, they only move. *)
Lemma crc_bit_split poly a b : 0 ≤ b → crc_bit poly (Z.lxor a (2 * b)) = Z.lxor (crc_bit poly a) b.
Proof.
  intros Hb. unfold crc_bit.
  assert (Z.land (Z.lxor a (2 * b)) 1 = Z.land a 1) as ->.
  { change 1 with (Z.ones 1). rewrite !Z.land_ones by lia. change (2 ^ 1) with 2.
    rewrite <-!Z.bit0_mod, Z.lxor_spec, Z.testbit_even_0, xorb_false_r. done. }
  assert (Z.shiftr (Z.lxor a (2 * b)) 1 = Z.lxor (Z.shiftr a 1) b) as ->.
  { rewrite Z.shiftr_lxor. f_equal. rewrite Z.shiftr_div_pow2 by lia. change (2 ^ 1) with 2.
    by rewrite Z.mul_comm, Z.div_mul. }
  case_goal; [done|]. rewrite !Z.lxor_assoc. f_equal. apply Z.lxor_comm.
Qed.

Lemma crc_bits_split poly k a b :
  0 ≤ b → Nat.iter k (crc_bit poly) (Z.lxor a (2 ^ Z.of_nat k * b)) = Z.lxor (Nat.iter k (crc_bit poly) a) b.
Proof.
  revert a b. induction k as [|k IH]; intros a b Hb; [by rewrite Z.mul_1_l|].
  rewrite !Nat.iter_succ.
  replace (2 ^ Z.of_nat (S k) * b) with (2 ^ Z.of_nat k * (2 * b))
    by (rewrite Nat2Z.inj_succ, Z.pow_succ_r by lia; ring).
  rewrite IH by lia. by apply crc_bit_split.
Qed.

(** A table lookup does eight bits at once. *)
Lemma crc_byte_table poly crc b :
  0 ≤ crc → 0 ≤ b < 256 → crc_byte (crc_table poly) crc b = Nat.iter 8 (crc_bit poly) (Z.lxor crc b).
Proof.
  intros Hc Hb. unfold crc_byte, crc_table. set (x := Z.lxor crc b).
  assert (0 ≤ x) as Hx by (apply Z.lxor_nonneg; lia).
  change 255 with (Z.ones 8). rewrite Z.land_ones by lia.
  pose proof (Z.mod_pos_bound x (2 ^ 8) ltac:(lia)) as Hm.
  assert (Z.shiftr crc 8 = x / 2 ^ 8) as ->.
  { rewrite <-Z.shiftr_div_pow2 by lia. unfold x. rewrite Z.shiftr_lxor, (Z.shiftr_div_pow2 b) by lia.
    rewrite (Z.div_small b) by lia. by rewrite Z.lxor_0_r. }
  rewrite list_lookup_total_alt, list_lookup_fmap, lookup_seqZ_lt by lia.
  cbn [fmap option_fmap option_map default id]. rewrite Z.add_0_l, Z2Nat.id by lia. unfold id.
  rewrite <-crc_bits_split by (apply Z.div_pos; lia). f_equal.
  rewrite <-Z.add_nocarry_lxor.
  - rewrite Z.add_comm. symmetry. apply Z.div_mod. lia.
  - apply Z.bits_inj'. intros n Hn. rewrite Z.land_spec, Z.bits_0, Z.mul_comm.
    change (Z.of_nat 8) with 8. destruct (Z.lt_ge_cases n 8).
    + rewrite Z.mul_pow2_bits_low by done. apply andb_false_r.
    + rewrite Z.mod_pow2_bits_high by lia. done.
Qed.

Lemma crc_bit_nonneg poly c : 0 ≤ poly → 0 ≤ c → 0 ≤ crc_bit poly c.
Proof.
  intros Hp Hc. unfold crc_bit. assert (0 ≤ Z.shiftr c 1) by (by apply Z.shiftr_nonneg).
  case_goal; [done|]. apply Z.lxor_nonneg. lia.
Qed.

(** The table-driven CRC-32 of every packet and every snappy chunk is
    the bit-by-bit checksum with the same polynomial. *)
Theorem crc32_table_correct poly data :
  0 ≤ poly → is_bytes data → crc32 (crc_table poly) data = crc32_bitwise poly data.
Proof.
  intros Hp Hd. unfold crc32, crc32_bitwise. f_equal.
  assert (0 ≤ u32_ones) as H0 by done. revert H0. generalize u32_ones as c.
  induction Hd as [|b data Hb Hd IH]; intros c Hc; [done|]. cbn [foldl].
  rewrite crc_byte_table by done. apply IH.
  assert (∀ k, 0 ≤ Nat.iter k (crc_bit poly) (Z.lxor c b)) as H; [|apply H].
  intros k. unfold is_byte in Hb. induction k as [|k IHk]; [apply Z.lxor_nonneg; lia|]. by apply crc_bit_nonneg.
Qed.

Lemma crc32_table_correct_witness :
  crc32_ieee (str "123456789") = 3421780262 ∧ crc32_bitwise 3988292384 (str "123456789") = 3421780262.
Proof.
  assert (crc32_ieee (str "123456789") = 3421780262) as E by (vm_compute; reflexivity).
  split; [exact E|]. rewrite <-(crc32_table_correct 3988292384 (str "123456789")); [exact E|lia|].
  repeat constructor; discriminate.
Defined.

(** ** Decryption undoes encryption *)

#[export] Instance Tea_ok key : BlockEncOk (Tea_new key).
Proof.
  split; [cbn; lia|]. intros x _. cbn [Tea_new encrypt_block block_size]. unfold Tea_encrypt.
  destruct (tea_rounds _ _ _ _ _). rewrite length_app, !length_to_be. done.
Qed.

#[export] Instance Xtea_ok key : BlockEncOk (Xtea_new key).
Proof.
  split; [cbn; lia|]. intros x _. cbn [Xtea_new encrypt_block block_size]. unfold Xtea_encrypt.
  destruct (xtea_rounds _ _ _). rewrite length_app, !length_to_be. done.
Qed.

Lemma length_xor buf t : length (xor_in_place buf t) = length buf.
Proof. revert t. induction buf as [|b buf IH]; intros [|x t]; cbn; auto. Qed.

Lemma xor_involutive buf t : xor_in_place (xor_in_place buf t) t = buf.
Proof.
  revert t. induction buf as [|b buf IH]; intros [|x t]; cbn; [done..|].
  by rewrite IH, Z.lxor_assoc, Z.lxor_nilpotent, Z.lxor_0_r.
Qed.

Lemma length_cfb_enc block full tbl buf : length (cfb_enc_loop block full tbl buf) = length buf.
Proof.
  revert tbl buf. induction full as [|full IH]; intros tbl buf; cbn; [apply length_xor|].
  by rewrite length_app, IH, length_xor, length_take, length_drop; lia.
Qed.

Lemma cfb_loop_inverse block full tbl buf :
  (full * block_size block ≤ length buf)%nat →
  cfb_dec_loop block full tbl (cfb_enc_loop block full tbl buf) = buf.
Proof.
  revert tbl buf. induction full as [|full IH]; intros tbl buf Hl; cbn; [apply xor_involutive|].
  set (c := xor_in_place (take (block_size block) buf) tbl).
  assert (length c = block_size block) as Hc by (unfold c; rewrite length_xor, length_take; lia).
  rewrite take_app_exact, drop_app_exact, IH by (done || (rewrite length_drop; lia)).
  unfold c. by rewrite xor_involutive, take_drop.
Qed.

Lemma length_salsa20 salsa20 key buf : length (salsa20_apply salsa20 key buf) = length buf.
Proof.
  unfold salsa20_apply. case_goal; [done|]. rewrite length_app, length_xor, length_take, length_drop.
  apply Nat.leb_gt in Heqb. lia.
Qed.

Lemma salsa20_involutive salsa20 key buf :
  salsa20_apply salsa20 key (salsa20_apply salsa20 key buf) = buf.
Proof.
  unfold salsa20_apply at 1. rewrite length_salsa20. unfold salsa20_apply.
  destruct (Nat.leb_spec (length buf) 8) as [|Hl]; [done|].
  assert (length (take 8 buf) = 8%nat) by (rewrite length_take; lia).
  by rewrite take_app_exact, drop_app_exact, xor_involutive, take_drop.
Qed.

Lemma encrypt_length salsa20 c buf : length (encrypt salsa20 c buf) = length buf.
Proof.
  destruct c; cbn; [done|apply length_xor|apply length_salsa20|apply length_cfb_enc].
Qed.

Lemma decrypt_encrypt_id salsa20 c buf :
  CryptOk c → decrypt salsa20 c (encrypt salsa20 c buf) = buf.
Proof.
  destruct c as [|table|key|block]; cbn; intros Hc.
  - done.
  - apply xor_involutive.
  - apply salsa20_involutive.
  - unfold cfb_decrypt, cfb_encrypt. rewrite length_cfb_enc. apply cfb_loop_inverse.
    destruct Hc as [Hbs _]. rewrite Nat.mul_comm. apply Nat.Div0.mul_div_le.
Qed.

(** Every packet cipher that can be configured is undone by its
    decryption, for every packet length, without padding: the cipher
    [Crypt::new] builds preserves the packet's length and [decrypt] after
    [encrypt] is the identity (the crates' block ciphers being block ciphers
    of at most 16 bytes). *)
Theorem crypt_roundtrip salsa20 pbkdf2 new_cipher key name salt c buf :
  (∀ n k b, new_cipher n k = Some b → BlockEncOk b) →
  Crypt_new pbkdf2 new_cipher key name salt = Ok c →
  length (encrypt salsa20 c buf) = length buf ∧ decrypt salsa20 c (encrypt salsa20 c buf) = buf.
Proof.
  intros Hnew Hc. split; [apply encrypt_length|]. apply decrypt_encrypt_id.
  assert (∀ n k, rc new_cipher n k = Ok c → CryptOk c) as Hrc.
  { intros n k. unfold rc. destruct (new_cipher n k) eqn:E; [|done]. intros [= <-]. by eapply Hnew. }
  unfold Crypt_new in Hc. cbv beta zeta in Hc.
  repeat (match type of Hc with context [if bool_decide ?P then _ else _] => destruct (bool_decide P) end;
          [lazymatch type of Hc with
           | rc _ _ _ = _ => exact (Hrc _ _ Hc)
           | Ok (CryptCfb (Tea_new _)) = _ => injection Hc as <-; apply Tea_ok
           | Ok (CryptCfb (Xtea_new _)) = _ => injection Hc as <-; apply Xtea_ok
           | _ => injection Hc as <-; exact I
           end|]).
  exact (Hrc _ _ Hc).
Qed.

Lemma crypt_roundtrip_witness :
  let c := CryptCfb (Tea_new (take 16 (replicate 32 7))) in
  let salsa20 (_ _ : bytes) (n : nat) := replicate n 0 in
  length (encrypt salsa20 c (str "thirteen byte")) = 13%nat
  ∧ decrypt salsa20 c (encrypt salsa20 c (str "thirteen byte")) = str "thirteen byte".
Proof.
  intros c salsa20.
  apply (crypt_roundtrip salsa20 (λ _ _ _ n, replicate n 7) (λ _ _, None) (str "key") (str "tea") KCP_SALT c
           (str "thirteen byte")); [discriminate|reflexivity].
Defined.
