(* ===== verification/KcpFrame.v ===== *)
(** * KCP datagrams

    Models [PacketFramer], [packet_unframe], [packet_unframe_fec] and
    [peek_conv] of src/kcp.rs: nonce, checksum, FEC header and cipher around
    the segments of the ARQ core. Datagrams are proved to be read back as the
    segments written, and the shards of an encoder to be numbered on its
    decoder's grid. *)

From stdpp Require Import base list option numbers strings sets.
From Stdlib Require Import ZArith Lia.
From S2P Require Import Prelude KcpCrypt KcpFec.

Record PacketFramer : Type := mkFramer {
  f_crypt : Crypt;
  f_fec : option FecEncoder;
  f_queue : list bytes
}.

Section frame.
(** [IKCP_OVERHEAD] is the [kcp] crate's segment header size. *)
Context (IKCP_OVERHEAD : nat).
Context (salsa20 : bytes → bytes → nat → bytes)
        (rs_encode : nat → nat → list bytes → option (list bytes))
        (rs_reconstruct : nat → nat → list (option bytes) → option (list (option bytes))).

(** [seal]; [nonce] is the random bytes drawn. *)
Definition seal (c : Crypt) (nonce pkt : bytes) : bytes :=
  let pkt := splice 0 nonce pkt in
  let checksum := crc32_ieee (drop CRYPT_HEADER_SIZE pkt) in
  encrypt salsa20 c (splice NONCE_SIZE (to_le 4 checksum) pkt).

Definition header_len (f : PacketFramer) : nat :=
  CRYPT_HEADER_SIZE + match f_fec f with Some _ => FEC_HEADER_SIZE_PLUS2 | None => 0 end.

(** The datagrams of one [write] before they are sealed: the data packet and
    the parity packets that complete a group. *)
Definition frame (header : nat) (fec : option FecEncoder) (segments : bytes) :
    bytes * list bytes * option FecEncoder :=
  let pkt := replicate header 0 ++ segments in
  match fec with
  | None => (pkt, [], None)
  | Some e =>
      let '(h, e) := mark_data (2 + length segments) e in
      let pkt := splice CRYPT_HEADER_SIZE h pkt in
      let '(parity, e) := push rs_encode pkt (CRYPT_HEADER_SIZE + FEC_HEADER_SIZE) e in
      (pkt, parity, Some e)
  end.

(** [write]: [nonces k] are the random bytes of the [k]-th packet. *)
Definition write (nonces : nat → bytes) (segments : bytes) (f : PacketFramer) : PacketFramer :=
  let '(pkt, parity, fec) := frame (header_len f) (f_fec f) segments in
  mkFramer (f_crypt f) fec
    (f_queue f ++ imap (λ k p, seal (f_crypt f) (nonces k) p) (pkt :: parity)).

(** The decrypted packet, if it is long enough and its checksum is right. *)
Definition open_packet (c : Crypt) (buf : bytes) : option bytes :=
  if (length buf <? CRYPT_HEADER_SIZE)%nat then None
  else
    let buf := decrypt salsa20 c buf in
    let expected := le32 (drop NONCE_SIZE buf) in
    if crc32_ieee (drop CRYPT_HEADER_SIZE buf) =? expected then Some buf else None.

(** The segments [packet_unframe] finds (the bytes of the range it returns). *)
Definition packet_unframe (c : Crypt) (buf : bytes) : option bytes :=
  buf ← open_packet c buf;
  segments ← fec_strip (drop CRYPT_HEADER_SIZE buf);
  if (length segments <? IKCP_OVERHEAD)%nat then None else Some segments.

(** The segments of a FEC payload that are long enough to be used. *)
Definition usable (payload : bytes) : list bytes :=
  match fec_payload_segments payload with
  | Some segments => if (IKCP_OVERHEAD <=? length segments)%nat then [segments] else []
  | None => []
  end.

Definition packet_unframe_fec (now : Z) (c : Crypt) (buf : bytes) (decoder : option FecDecoder) :
    list bytes * option FecDecoder :=
  match decoder with
  | None => (match packet_unframe c buf with Some s => [s] | None => [] end, None)
  | Some dec =>
      match open_packet c buf with
      | None => ([], decoder)
      | Some buf =>
          let body := drop CRYPT_HEADER_SIZE buf in
          match fec_flag body with
          | None => (if (IKCP_OVERHEAD <=? length body)%nat then [body] else [], decoder)
          | Some flag =>
              let payload := drop FEC_HEADER_SIZE body in
              let own := if flag =? TYPE_DATA then usable payload else [] in
              let '(recovered, dec) := decode rs_reconstruct now (le32 body) flag payload dec in
              (own ++ (recovered ≫= usable), Some dec)
          end
      end
  end.

Definition peek_conv (segments : bytes) : option (Z * Z) :=
  if (length segments <? IKCP_OVERHEAD)%nat then None
  else Some (le32 segments, le32 (drop IKCP_SN_OFFSET segments)).

(** ** Checksums *)

Lemma lxor_range n a b : 0 ≤ n → 0 ≤ a < 2 ^ n → 0 ≤ b < 2 ^ n → 0 ≤ Z.lxor a b < 2 ^ n.
Proof.
  intros Hn Ha Hb. assert (0 ≤ Z.lxor a b) as H0 by (apply Z.lxor_nonneg; lia). split; [done|].
  destruct (decide (Z.lxor a b = 0)) as [->|Hne]; [lia|].
  apply Z.log2_lt_pow2; [lia|]. eapply Z.le_lt_trans; [apply Z.log2_lxor; lia|].
  destruct (decide (n = 0)) as [->|Hn0]; [assert (a = 0 ∧ b = 0) as [-> ->] by lia; done|].
  apply Z.max_lub_lt; (destruct (decide (0 < a)); destruct (decide (0 < b)));
    try (apply Z.log2_lt_pow2; lia); rewrite Z.log2_nonpos by lia; lia.
Qed.

Lemma crc32_ieee_range data : 0 ≤ crc32_ieee data < 2 ^ 32.
Proof.
  unfold crc32_ieee, crc32. apply lxor_range; [done| |done].
  assert (0 ≤ u32_ones < 2 ^ 32) as H0 by done. revert H0. generalize u32_ones as c.
  induction data as [|b data IH]; intros c Hc; [done|]. cbn [foldl]. apply IH. unfold crc_byte.
  apply lxor_range; [done| |].
  - assert (Forall (λ x, 0 ≤ x < 2 ^ 32) CRC32_IEEE) as Ht.
    { apply Forall_forall. intros x Hx. apply list_elem_of_In in Hx.
      assert (forallb (λ x, (0 <=? x) && (x <? 2 ^ 32)) CRC32_IEEE = true) as Hall by (vm_compute; reflexivity).
      rewrite forallb_forall in Hall. apply Hall in Hx. zbool. lia. }
    change 255 with (Z.ones 8). rewrite Z.land_ones by done.
    pose proof (Z.mod_pos_bound (Z.lxor c b) (2 ^ 8) ltac:(done)) as Hm.
    assert (length CRC32_IEEE = 256%nat) as Hlen by (vm_compute; reflexivity).
    destruct (lookup_lt_is_Some_2 CRC32_IEEE (Z.to_nat (Z.lxor c b mod 2 ^ 8))) as [x Hx]; [lia|].
    rewrite (list_lookup_total_correct _ _ _ Hx). rewrite Forall_forall in Ht.
    by apply Ht, list_elem_of_lookup_2 with (Z.to_nat (Z.lxor c b mod 2 ^ 8)).
  - rewrite Z.shiftr_div_pow2 by done. split; [apply Z.div_pos; lia|].
    apply Z.le_lt_trans with c; [|lia]. apply Z.div_le_upper_bound; lia.
Qed.

(** ** Opening what was sealed *)

Lemma splice_0 (new l : bytes) : splice 0 new l = new ++ drop (length new) l.
Proof. done. Qed.

Lemma open_sealed c nonce pkt :
  CryptOk c → length nonce = NONCE_SIZE → (CRYPT_HEADER_SIZE ≤ length pkt)%nat →
  ∃ buf, open_packet c (seal c nonce pkt) = Some buf ∧ drop CRYPT_HEADER_SIZE buf = drop CRYPT_HEADER_SIZE pkt.
Proof.
  intros Hc Hn Hl. unfold NONCE_SIZE, CRYPT_HEADER_SIZE in *. unfold seal. rewrite splice_0, Hn.
  set (p1 := nonce ++ drop 16 pkt).
  assert (drop CRYPT_HEADER_SIZE p1 = drop 20 pkt) as E1.
  { unfold p1, CRYPT_HEADER_SIZE. change 20%nat with (16 + 4)%nat at 1. rewrite <-drop_drop.
    rewrite drop_app_exact by done. by rewrite drop_drop. }
  rewrite E1. set (crc := crc32_ieee (drop 20 pkt)).
  assert (length p1 = length pkt) as El by (unfold p1; rewrite length_app, length_drop; lia).
  set (p2 := splice NONCE_SIZE (to_le 4 crc) p1).
  assert (p2 = nonce ++ to_le 4 crc ++ drop 20 pkt) as E2.
  { unfold p2, splice, NONCE_SIZE. rewrite length_to_le. cbn [Nat.add].
    unfold CRYPT_HEADER_SIZE in E1. rewrite E1. unfold p1. by rewrite take_app_exact by done. }
  assert (drop 20 p2 = drop 20 pkt) as E3.
  { rewrite E2, app_assoc, drop_app_exact; [done|]. rewrite length_app, length_to_le. lia. }
  exists p2. split; [|done]. unfold open_packet. rewrite encrypt_length.
  assert (length p2 = length pkt) as El2.
  { rewrite E2, !length_app, length_to_le, length_drop. lia. }
  destruct (Nat.ltb_spec (length p2) CRYPT_HEADER_SIZE) as [Hlt|_]; [unfold CRYPT_HEADER_SIZE in Hlt; lia|].
  rewrite decrypt_encrypt_id by done. unfold CRYPT_HEADER_SIZE. rewrite E3. fold crc.
  assert (le32 (drop NONCE_SIZE p2) = crc) as ->.
  { rewrite E2, drop_app_exact by done. unfold le32. rewrite take_app_exact by (by rewrite length_to_le).
    apply from_to_le. apply crc32_ieee_range. }
  by rewrite Z.eqb_refl.
Qed.

(** ** The packets of a write *)

Lemma length_splice pos (new l : bytes) :
  (pos + length new ≤ length l)%nat → length (splice pos new l) = length l.
Proof. intros H. unfold splice. rewrite !length_app, length_take, length_drop. lia. Qed.

(** The header of a packet whose FEC header starts with [h]. *)
Lemma drop_splice (h l : bytes) :
  (CRYPT_HEADER_SIZE + length h ≤ length l)%nat →
  drop CRYPT_HEADER_SIZE (splice CRYPT_HEADER_SIZE h l) = h ++ drop (CRYPT_HEADER_SIZE + length h) l.
Proof. intros H. unfold splice. rewrite drop_app_exact; [done|]. rewrite length_take. lia. Qed.

(** A FEC header is recognised and its sequence number and flag read back. *)
Lemma fec_flag_header seqid flag rest :
  flag = TYPE_DATA ∨ flag = TYPE_PARITY →
  fec_flag (to_le 4 seqid ++ to_le 2 flag ++ rest) = Some flag.
Proof.
  intros Hf. unfold fec_flag.
  assert ((length (to_le 4 seqid ++ to_le 2 flag ++ rest) <? FEC_HEADER_SIZE)%nat = false) as ->.
  { apply Nat.ltb_ge. rewrite !length_app, !length_to_le. unfold FEC_HEADER_SIZE. lia. }
  assert (le16 (drop 4 (to_le 4 seqid ++ to_le 2 flag ++ rest)) = flag) as ->.
  { rewrite drop_app_exact by (by rewrite length_to_le). unfold le16.
    rewrite take_app_exact by (by rewrite length_to_le). apply from_to_le.
    destruct Hf as [-> | ->]; done. }
  destruct Hf as [-> | ->]; done.
Qed.

Lemma parity_packets_headers max bodies e out e' :
  (CRYPT_HEADER_SIZE + FEC_HEADER_SIZE ≤ max)%nat →
  parity_packets max (CRYPT_HEADER_SIZE + FEC_HEADER_SIZE) bodies e = (out, e') →
  Forall (λ p, (CRYPT_HEADER_SIZE ≤ length p)%nat
               ∧ ∃ s rest, drop CRYPT_HEADER_SIZE p = to_le 4 s ++ to_le 2 TYPE_PARITY ++ rest) out.
Proof.
  intros Hm. revert e out e'. induction bodies as [|b bodies IH]; intros e out e'; cbn [parity_packets].
  { intros [= <- <-]. constructor. }
  unfold mark_parity at 1. destruct (parity_packets _ _ bodies _) as [ps e1] eqn:E.
  intros [<- <-]%pair_eq.
  constructor; [|by eapply IH]. clear IH E.
  set (q := splice (CRYPT_HEADER_SIZE + FEC_HEADER_SIZE) b (replicate max 0)).
  assert (CRYPT_HEADER_SIZE + 6 ≤ length q)%nat as Hq.
  { unfold q, splice. rewrite length_app, length_take, length_replicate. unfold FEC_HEADER_SIZE in *. lia. }
  assert (length (to_le 4 (e_next e) ++ to_le 2 TYPE_PARITY) = 6%nat) as H6
    by (by rewrite length_app, !length_to_le).
  change (CRYPT_HEADER_SIZE + FEC_HEADER_SIZE - FEC_HEADER_SIZE)%nat with CRYPT_HEADER_SIZE.
  split; [rewrite length_splice; lia|]. rewrite drop_splice by lia. rewrite <-app_assoc. eauto.
Qed.

Lemma push_headers pkt e out e' :
  (CRYPT_HEADER_SIZE + FEC_HEADER_SIZE ≤ length pkt)%nat →
  push rs_encode pkt (CRYPT_HEADER_SIZE + FEC_HEADER_SIZE) e = (out, e') →
  Forall (λ p, (CRYPT_HEADER_SIZE ≤ length p)%nat
               ∧ ∃ s rest, drop CRYPT_HEADER_SIZE p = to_le 4 s ++ to_le 2 TYPE_PARITY ++ rest) out.
Proof.
  intros Hl. unfold push. cbn [e_cache e_datashard e_max_size e_parityshard].
  case_goal; [by intros [= <- <-]; constructor|].
  destruct (rs_encode _ _ _) as [shards|]; [|by intros [= <- <-]; constructor].
  destruct (parity_packets _ _ _ _) as [ps e1] eqn:E. intros [= <- <-].
  eapply parity_packets_headers; [|exact E]. lia.
Qed.

(** The data packet of a write carries the segments behind its header. *)
Lemma frame_data f segments pkt parity fec :
  frame (header_len f) (f_fec f) segments = (pkt, parity, fec) →
  (CRYPT_HEADER_SIZE ≤ length pkt)%nat
  ∧ drop CRYPT_HEADER_SIZE pkt
    = match f_fec f with
      | None => segments
      | Some e => to_le 4 (e_next e) ++ to_le 2 TYPE_DATA
                    ++ to_le 2 (u16 (Z.of_nat (2 + length segments))) ++ segments
      end
  ∧ Forall (λ p, (CRYPT_HEADER_SIZE ≤ length p)%nat
                 ∧ ∃ s rest, drop CRYPT_HEADER_SIZE p = to_le 4 s ++ to_le 2 TYPE_PARITY ++ rest) parity.
Proof.
  unfold frame, header_len. destruct (f_fec f) as [e|]; cbn [mark_data].
  - set (h := to_le 4 (e_next e) ++ to_le 2 TYPE_DATA ++ to_le 2 (u16 (Z.of_nat (2 + length segments)))).
    assert (length h = 8%nat) as Hh by (unfold h; by rewrite !length_app, !length_to_le).
    set (z := replicate (CRYPT_HEADER_SIZE + FEC_HEADER_SIZE_PLUS2) 0).
    assert (length z = (CRYPT_HEADER_SIZE + 8)%nat) as Hz by (unfold z; by rewrite length_replicate).
    destruct (push _ _ _ _) as [ps e1] eqn:E. intros [[<- <-]%pair_eq _]%pair_eq.
    assert (length (splice CRYPT_HEADER_SIZE h (z ++ segments)) = (CRYPT_HEADER_SIZE + 8 + length segments)%nat) as Hp.
    { rewrite length_splice; rewrite length_app; lia. }
    split_and!; [lia| |].
    + rewrite drop_splice by (rewrite length_app; lia). rewrite drop_app_exact by lia. unfold h.
      by rewrite <-!app_assoc.
    + eapply push_headers; [|exact E]. rewrite Hp. unfold FEC_HEADER_SIZE. lia.
  - intros [[<- <-]%pair_eq _]%pair_eq. rewrite Nat.add_0_r. split_and!; [|by rewrite drop_app_exact|constructor].
    rewrite length_app, length_replicate. lia.
Qed.

(** What a framer sends, the receiver reads back: a write of segments
    (at least one KCP header long, and, without FEC, not starting like a FEC
    shard) queues first one datagram that [packet_unframe] turns into exactly
    those segments, under every cipher and nonce and with or without FEC, and
    then only parity datagrams, which [packet_unframe] ignores. *)
Theorem frame_roundtrip nonces segments f :
  CryptOk (f_crypt f) → (∀ k, length (nonces k) = NONCE_SIZE) →
  (IKCP_OVERHEAD ≤ length segments)%nat → (f_fec f = None → fec_flag segments = None) →
  ∃ pkt parity, f_queue (write nonces segments f) = f_queue f ++ pkt :: parity
    ∧ packet_unframe (f_crypt f) pkt = Some segments
    ∧ Forall (λ p, packet_unframe (f_crypt f) p = None) parity.
Proof.
  intros Hc Hn Hl Hf. unfold write.
  destruct (frame (header_len f) (f_fec f) segments) as [[pkt parity] fec] eqn:E.
  apply frame_data in E as (Hp & Hd & Hpar). cbn [imap f_queue].
  eexists _, _. split; [reflexivity|]. split.
  - unfold packet_unframe. destruct (open_sealed (f_crypt f) (nonces 0%nat) pkt Hc (Hn _) Hp) as (buf & -> & Hb).
    cbn [mbind option_bind]. rewrite Hb, Hd. unfold fec_strip. destruct (f_fec f) as [e|].
    + rewrite fec_flag_header by (by left). rewrite Z.eqb_refl. cbn [andb].
      set (h := to_le 4 (e_next e) ++ to_le 2 TYPE_DATA ++ to_le 2 (u16 (Z.of_nat (2 + length segments)))).
      assert (to_le 4 (e_next e) ++ to_le 2 TYPE_DATA ++ to_le 2 (u16 (Z.of_nat (2 + length segments))) ++ segments
              = h ++ segments) as -> by (unfold h; by rewrite <-!app_assoc).
      assert (length h = FEC_HEADER_SIZE_PLUS2) as Hh by (unfold h; by rewrite !length_app, !length_to_le).
      destruct (Nat.leb_spec FEC_HEADER_SIZE_PLUS2 (length (h ++ segments))) as [_|Hlt];
        [|rewrite length_app in Hlt; lia].
      rewrite drop_app_exact by done. cbn [mbind option_bind].
      destruct (Nat.ltb_spec (length segments) IKCP_OVERHEAD); [lia|done].
    + rewrite Hf by done. cbn [mbind option_bind]. destruct (Nat.ltb_spec (length segments) IKCP_OVERHEAD); [lia|done].
  - apply Forall_lookup. intros i p Hi. rewrite list_lookup_imap in Hi. apply fmap_Some in Hi as (q & Hq & ->).
    rewrite Forall_lookup in Hpar. destruct (Hpar _ _ Hq) as (Hql & s & rest & Hqd). unfold packet_unframe.
    destruct (open_sealed (f_crypt f) (nonces (S i)) q Hc (Hn _) Hql) as (buf & E & Hb).
    unfold compose. rewrite E. cbn [mbind option_bind]. rewrite Hb, Hqd. unfold fec_strip.
    by rewrite fec_flag_header by (by right).
Qed.

(** ** The grid of sequence numbers *)

(** The packets of successive writes, before they are sealed. *)
Fixpoint frames (e : FecEncoder) (writes : list bytes) : list bytes :=
  match writes with
  | [] => []
  | segments :: writes =>
      let '(pkt, parity, fec) := frame (CRYPT_HEADER_SIZE + FEC_HEADER_SIZE_PLUS2) (Some e) segments in
      pkt :: parity ++ match fec with Some e => frames e writes | None => [] end
  end.

(** The sequence number and flag in a packet. *)
Definition shard_id (p : bytes) : Z * Z :=
  (le32 (drop CRYPT_HEADER_SIZE p), le16 (drop (CRYPT_HEADER_SIZE + 4) p)).

(** The identity of the [j]-th packet of an encoder. *)
Definition grid_id (d : nat) (size paws j : Z) : Z * Z :=
  (j mod paws, if j mod size <? Z.of_nat d then TYPE_DATA else TYPE_PARITY).

(** The encoder after [j] packets. *)
Record enc_inv (d p : nat) (j : Z) (e : FecEncoder) : Prop := {
  ei_d : e_datashard e = d;
  ei_p : e_parityshard e = p;
  ei_j : 0 ≤ j;
  ei_paws : e_paws e = u32_max / Z.of_nat (d + p) * Z.of_nat (d + p);
  ei_next : e_next e = j mod e_paws e;
  ei_cache : Z.of_nat (length (e_cache e)) = j mod Z.of_nat (d + p);
  ei_room : (length (e_cache e) < d)%nat
}.

Lemma shard_id_header p s flag rest :
  0 ≤ s < 2 ^ 32 → 0 ≤ flag < 2 ^ 16 → drop CRYPT_HEADER_SIZE p = to_le 4 s ++ to_le 2 flag ++ rest →
  shard_id p = (s, flag).
Proof.
  intros Hs Hf E. unfold shard_id. rewrite <-drop_drop, E. f_equal.
  - unfold le32. rewrite take_app_exact by (by rewrite length_to_le). by apply from_to_le.
  - rewrite drop_app_exact by (by rewrite length_to_le). unfold le16.
    rewrite take_app_exact by (by rewrite length_to_le). by apply from_to_le.
Qed.

Lemma parity_packets_seq max bodies e out e' :
  (CRYPT_HEADER_SIZE + FEC_HEADER_SIZE ≤ max)%nat → 0 ≤ e_next e < e_paws e →
  parity_packets max (CRYPT_HEADER_SIZE + FEC_HEADER_SIZE) bodies e = (out, e') →
  length out = length bodies
  ∧ e_next e' = (e_next e + zlen bodies) mod e_paws e
  ∧ e_paws e' = e_paws e ∧ e_datashard e' = e_datashard e ∧ e_parityshard e' = e_parityshard e
  ∧ ∀ k p, out !! k = Some p →
      ∃ rest, drop CRYPT_HEADER_SIZE p
              = to_le 4 ((e_next e + Z.of_nat k) mod e_paws e) ++ to_le 2 TYPE_PARITY ++ rest.
Proof.
  intros Hm. revert e out e'. induction bodies as [|b bodies IH]; intros e out e' He; cbn [parity_packets].
  { intros [<- <-]%pair_eq. unfold zlen. cbn [length]. rewrite Z.add_0_r, Z.mod_small by done.
    split_and!; [done..|]. intros k p. by rewrite lookup_nil. }
  unfold mark_parity at 1. set (e1 := mkEncoder ((e_next e + 1) mod e_paws e) _ _ _ _ _).
  destruct (parity_packets _ _ bodies e1) as [ps e2] eqn:E. intros [<- <-]%pair_eq.
  apply IH in E as (Hlen & Hnext & Hp & Hd & Hpp & Hk); [|cbn; apply Z.mod_pos_bound; lia].
  cbn [e1 e_next e_paws e_datashard e_parityshard] in *.
  rewrite Zplus_mod_idemp_l in Hnext.
  split_and!; [cbn; lia| |done..|].
  { rewrite Hnext. f_equal. unfold zlen. cbn [length]. lia. }
  intros [|k] p.
  - cbn [lookup list_lookup]. intros Hl. apply Some_inj in Hl as <-. rewrite Z.add_0_r, Z.mod_small by done.
    set (q := splice (CRYPT_HEADER_SIZE + FEC_HEADER_SIZE) b (replicate max 0)).
    assert (CRYPT_HEADER_SIZE + 6 ≤ length q)%nat as Hq.
    { unfold q, splice. rewrite length_app, length_take, length_replicate. unfold FEC_HEADER_SIZE in *. lia. }
    assert (length (to_le 4 (e_next e) ++ to_le 2 TYPE_PARITY) = 6%nat) as H6
      by (by rewrite length_app, !length_to_le).
    change (CRYPT_HEADER_SIZE + FEC_HEADER_SIZE - FEC_HEADER_SIZE)%nat with CRYPT_HEADER_SIZE.
    rewrite drop_splice by lia. rewrite <-app_assoc. eauto.
  - cbn [lookup list_lookup]. intros Hl. apply Hk in Hl as [rest ->]. exists rest. f_equal. f_equal.
    rewrite Zplus_mod_idemp_l. f_equal. lia.
Qed.

(** What the codec promises: equal-sized shards are encoded, data shards
    first, into as many shards of the same size. *)
Definition rs_encodes (d p : nat) : Prop :=
  ∀ n shards, (0 < n)%nat → length shards = (d + p)%nat → Forall (λ s, length s = n) shards →
    ∃ out, rs_encode d p shards = Some out ∧ length out = (d + p)%nat.

Lemma mod_step j m : 0 < m → (j + 1) mod m = if m <=? j mod m + 1 then 0 else j mod m + 1.
Proof.
  intros Hm. pose proof (Z.mod_pos_bound j m Hm) as Hb. rewrite <-(Zplus_mod_idemp_l j 1 m).
  destruct (Z.leb_spec m (j mod m + 1)).
  - replace (j mod m + 1) with m by lia. apply Z.mod_same. lia.
  - apply Z.mod_small. lia.
Qed.

Lemma mod_offset j k m : 0 < m → 0 ≤ k → j mod m + k < m → (j + k) mod m = j mod m + k.
Proof.
  intros Hm Hk Hlt. rewrite <-Zplus_mod_idemp_l. apply Z.mod_small.
  pose proof (Z.mod_pos_bound j m). lia.
Qed.

Lemma length_zero_pad n l : length (zero_pad n l) = n.
Proof. unfold zero_pad. rewrite length_app, length_take, length_replicate. lia. Qed.

Section grid.
Context (d p : nat) (Hd : (0 < d)%nat) (Hp : (0 < p)%nat) (Hsize : Z.of_nat (d + p) ≤ u32_max)
        (Hrs : rs_encodes d p).

Lemma paws_pos : 0 < u32_max / Z.of_nat (d + p) * Z.of_nat (d + p) ≤ u32_max.
Proof.
  assert (1 ≤ u32_max / Z.of_nat (d + p)) by (apply Z.div_le_lower_bound; lia).
  pose proof (Z.mul_div_le u32_max (Z.of_nat (d + p))). nia.
Qed.

(** Recording a data packet: a group's parity follows its last one. *)
Lemma push_grid j e pkt out e' :
  (CRYPT_HEADER_SIZE + FEC_HEADER_SIZE < length pkt)%nat →
  e_datashard e = d → e_parityshard e = p →
  e_paws e = u32_max / Z.of_nat (d + p) * Z.of_nat (d + p) → 0 ≤ j → e_next e = (j + 1) mod e_paws e →
  Z.of_nat (length (e_cache e)) = j mod Z.of_nat (d + p) → (length (e_cache e) < d)%nat →
  push rs_encode pkt (CRYPT_HEADER_SIZE + FEC_HEADER_SIZE) e = (out, e') →
  enc_inv d p (j + 1 + zlen out) e'
  ∧ ∀ k q, out !! k = Some q → shard_id q = grid_id d (Z.of_nat (d + p)) (e_paws e) (j + 1 + Z.of_nat k).
Proof.
  intros Hl Ed Ep Ew Hj En Ec Hc. pose proof paws_pos as Hw. rewrite <-Ew in Hw. unfold push.
  cbn [e_cache e_datashard e_max_size e_parityshard]. rewrite Ed, Ep, length_app. cbn [length].
  destruct (Nat.ltb_spec (length (e_cache e) + 1) d) as [Hlt|Hge].
  - intros [<- <-]%pair_eq. unfold zlen. cbn [length]. rewrite Z.add_0_r. split; [|intros k q; by rewrite lookup_nil].
    split; cbn [e_datashard e_parityshard e_paws e_next e_cache]; try done; try lia.
    + rewrite length_app. cbn [length]. rewrite mod_offset by lia. lia.
    + rewrite length_app. cbn [length]. lia.
  - set (max := Nat.max (e_max_size e) (length pkt)).
    set (shards := _ ++ replicate p _).
    destruct (Hrs (max - (CRYPT_HEADER_SIZE + FEC_HEADER_SIZE))%nat shards) as (enc & -> & Hen).
    + unfold max. lia.
    + unfold shards. rewrite length_app, length_fmap, length_app, length_replicate. cbn [length]. lia.
    + unfold shards. apply Forall_app. split.
      * apply Forall_fmap, Forall_true. intros x. apply length_zero_pad.
      * apply Forall_replicate. apply length_replicate.
    + set (e0 := mkEncoder _ _ _ _ _ _).
      destruct (parity_packets max _ (drop d enc) e0) as [ps e1] eqn:E. intros [<- <-]%pair_eq.
      apply parity_packets_seq in E as (Hlen & Hn & Hpaws & Hed & Hep & Hids);
        [|unfold max; lia|cbn; rewrite En; apply Z.mod_pos_bound; lia].
      cbn [e0 e_next e_paws e_datashard e_parityshard] in *.
      assert (length (drop d enc) = p) as Hdl by (rewrite length_drop; lia).
      unfold zlen in *. rewrite Hdl in Hlen, Hn. rewrite Hlen.
      assert (j mod Z.of_nat (d + p) = Z.of_nat d - 1) as Hjm by lia.
      split.
      * split; cbn [clear_cache e_datashard e_parityshard e_paws e_next e_cache]; try done; try lia; try congruence.
        { rewrite Hn, Hpaws, En, Zplus_mod_idemp_l. done. }
        { cbn [length]. rewrite <-(Z.add_assoc j), <-Zplus_mod_idemp_l, Hjm.
          replace (Z.of_nat d - 1 + (1 + Z.of_nat p)) with (Z.of_nat (d + p)) by lia.
          by rewrite Z.mod_same by lia. }
      * intros k q Hq. pose proof (lookup_lt_Some _ _ _ Hq) as Hk. destruct (Hids _ _ Hq) as [rest Hr].
        rewrite En, Zplus_mod_idemp_l in Hr. unfold grid_id.
        assert ((j + 1 + Z.of_nat k) mod Z.of_nat (d + p) = Z.of_nat d + Z.of_nat k) as ->.
        { rewrite <-Z.add_assoc, mod_offset by lia. lia. }
        destruct (Z.ltb_spec (Z.of_nat d + Z.of_nat k) (Z.of_nat d)); [lia|].
        eapply shard_id_header; [|done|exact Hr].
        pose proof (Z.mod_pos_bound (j + 1 + Z.of_nat k) (e_paws e)). unfold u32_max in *. lia.
Qed.

Lemma frame_grid j e segments :
  enc_inv d p j e →
  ∃ pkt parity e', frame (CRYPT_HEADER_SIZE + FEC_HEADER_SIZE_PLUS2) (Some e) segments = (pkt, parity, Some e')
    ∧ shard_id pkt = grid_id d (Z.of_nat (d + p)) (e_paws e) j
    ∧ enc_inv d p (j + 1 + zlen parity) e'
    ∧ ∀ k q, parity !! k = Some q → shard_id q = grid_id d (Z.of_nat (d + p)) (e_paws e) (j + 1 + Z.of_nat k).
Proof.
  intros [Ed Ep Hj Ew En Ec Hc]. pose proof paws_pos as Hw. rewrite <-Ew in Hw.
  destruct (frame (CRYPT_HEADER_SIZE + FEC_HEADER_SIZE_PLUS2) (Some e) segments) as [[pkt parity] fec] eqn:E.
  pose proof (frame_data (mkFramer CryptNone (Some e) []) segments pkt parity fec E) as (_ & Hdr & _).
  pose proof (Z.mod_pos_bound j (e_paws e) ltac:(lia)) as Hjm. cbn [f_fec] in Hdr.
  assert (shard_id pkt = grid_id d (Z.of_nat (d + p)) (e_paws e) j) as Hid.
  { unfold grid_id. rewrite <-Ec. destruct (Z.ltb_spec (Z.of_nat (length (e_cache e))) (Z.of_nat d)); [|lia].
    eapply shard_id_header; [unfold u32_max in *; lia|done|]. rewrite Hdr, En. done. }
  unfold frame in E. cbn [mark_data] in E. set (pk := splice _ _ _) in E.
  destruct (push _ _ _ _) as [ps e1] eqn:Epush. apply pair_eq in E as [E <-]. apply pair_eq in E as [<- <-].
  eapply (push_grid j) in Epush as [Hinv Hids]; try done.
  - exists pk, ps, e1. done.
  - unfold pk, FEC_HEADER_SIZE, FEC_HEADER_SIZE_PLUS2.
    rewrite length_splice; rewrite !length_app, length_replicate; [lia|]. rewrite !length_to_le. lia.
  - cbn [e_next e_paws]. rewrite wrap_small by (rewrite En; unfold u32_max in *; lia). rewrite En. symmetry.
    apply mod_step. lia.
Qed.

Lemma frames_grid writes j e i pkt :
  enc_inv d p j e → frames e writes !! i = Some pkt →
  shard_id pkt = grid_id d (Z.of_nat (d + p)) (e_paws e) (j + Z.of_nat i).
Proof.
  revert j e i. induction writes as [|segments writes IH]; intros j e i He; cbn [frames]; [done|].
  destruct (frame_grid j e segments He) as (pkt' & parity & e' & -> & Hid & Hinv & Hids).
  assert (e_paws e' = e_paws e) as Ew by (rewrite (ei_paws _ _ _ _ Hinv), (ei_paws _ _ _ _ He); done).
  destruct i as [|i]; cbn [lookup list_lookup].
  - intros Hl. apply Some_inj in Hl as <-. by rewrite Z.add_0_r.
  - intros Hl. apply lookup_app_Some in Hl as [Hl|[Hge Hl]].
    + rewrite (Hids _ _ Hl). f_equal. lia.
    + rewrite (IH _ _ _ Hinv Hl), Ew. f_equal. unfold zlen. lia.
Qed.
End grid.

(** The shards an encoder numbers lie on the decoder's grid for ever:
    its [j]-th packet (data and parity counted) has sequence number [j]
    modulo [paws], a multiple of the group size below [2^32], and is a data
    shard exactly when that number's place in its group is below the number
    of data shards; so groups stay aligned when the sequence wraps. *)
Theorem shard_grid rs_new d p e writes j pkt :
  FecEncoder_new rs_new d p = Some e → Z.of_nat (d + p) ≤ u32_max → rs_encodes d p →
  frames e writes !! j = Some pkt →
  let size := Z.of_nat (d + p) in
  let paws := u32_max / size * size in
  let '(seqid, flag) := shard_id pkt in
  seqid = Z.of_nat j mod paws ∧ 0 < paws ≤ u32_max
  ∧ flag = if seqid mod size <? Z.of_nat d then TYPE_DATA else TYPE_PARITY.
Proof.
  intros Hnew Hsize Hrs Hl size paws. unfold FecEncoder_new in Hnew.
  destruct (Nat.eqb_spec d 0) as [|Hd]; [done|]. destruct (Nat.eqb_spec p 0) as [|Hp]; [done|].
  cbn [orb] in Hnew. destruct (rs_new d p); [|done]. apply Some_inj in Hnew as <-.
  pose proof (paws_pos d p ltac:(lia) ltac:(lia) Hsize) as Hw. fold size paws in Hw.
  eapply (frames_grid d p ltac:(lia) ltac:(lia) Hsize Hrs writes 0) in Hl.
  - rewrite Hl. cbn [e_paws grid_id]. rewrite <-Nat2Z.inj_add. fold size. fold paws. rewrite Z.add_0_l.
    split_and!; [done|lia|lia|]. rewrite (Z.mod_mod_divide _ paws size); [done|].
    apply Z.divide_factor_r.
  - split; cbn [e_datashard e_parityshard e_paws e_next e_cache length]; try done; lia.
Qed.
End frame.

Lemma frame_roundtrip_witness :
  let f := mkFramer (CryptXor (replicate 64 90)) None [] in
  let segments := replicate 24 81 in
  ∃ pkt parity, f_queue (write (λ _ _ n, replicate n 0) (λ _ _ _, None) (λ _, replicate 16 3) segments f) = pkt :: parity
    ∧ packet_unframe 24 (λ _ _ n, replicate n 0) (f_crypt f) pkt = Some segments.
Proof.
  intros f segments.
  destruct (frame_roundtrip 24 (λ _ _ n, replicate n 0) (λ _ _ _, None) (λ _, replicate 16 3) segments f)
    as (pkt & parity & H1 & H2 & _).
  - exact I.
  - intros k. reflexivity.
  - vm_compute. repeat constructor.
  - intros _. vm_compute. reflexivity.
  - exists pkt, parity. split; [exact H1|exact H2].
Defined.

Lemma shard_grid_witness :
  let rs_encode (_ _ : nat) (shards : list bytes) := Some shards in
  ∃ e pkt, FecEncoder_new (λ _ _, true) 2 1 = Some e
    ∧ frames rs_encode e [str "a"; str "b"; str "c"] !! 3%nat = Some pkt
    ∧ shard_id pkt = (3, TYPE_DATA)
    ∧ (let '(seqid, flag) := shard_id pkt in seqid = 3 mod (u32_max / 3 * 3)).
Proof.
  intros rs_encode. eexists _, _. split; [reflexivity|]. split; [vm_compute; reflexivity|].
  split; [vm_compute; reflexivity|].
  match goal with |- let '(_, _) := shard_id ?p in _ =>
    pose proof (shard_grid rs_encode (λ _ _, true) 2 1 _ [str "a"; str "b"; str "c"] 3 p eq_refl) as H end.
  destruct H as [H _].
  - discriminate.
  - intros n shards _ Hl _. exists shards. split; [reflexivity|exact Hl].
  - vm_compute. reflexivity.
  - exact H.
Defined.
