(* ===== verification/KcpRecover.v ===== *)
(** * Recovery of lost shards

    Proves of the FEC decoder of src/kcp.rs that any [datashard] shards of a
    group, in any order, are enough to rebuild every data shard of the group
    that was lost, given what the Reed-Solomon codec promises. *)

From stdpp Require Import base list option numbers strings sets sorting.
From Stdlib Require Import ZArith Lia.
From S2P Require Import Prelude KcpFec.

(** ** Sorted windows *)

Lemma sorted_split L i :
  StronglySorted lt L → i ∉ L →
  ∃ L1 L2, L = L1 ++ L2 ∧ Forall (λ j, j < i)%nat L1 ∧ Forall (λ j, i < j)%nat L2.
Proof.
  induction 1 as [|j L Hs IH Hj]; intros Hi; [by exists [], []|].
  assert (i ≠ j ∧ i ∉ L) as [Hne Hi'] by set_solver.
  destruct (decide (j < i)%nat) as [Hlt|Hge].
  - destruct (IH Hi') as (L1 & L2 & -> & H1 & H2). exists (j :: L1), L2. split_and!; [done| |done]. by constructor.
  - exists [], (j :: L). split_and!; [done|constructor|]. constructor; [lia|].
    eapply Forall_impl; [exact Hj|]. cbn. lia.
Qed.

Lemma sorted_insert L1 L2 i :
  StronglySorted lt (L1 ++ L2) → Forall (λ j, j < i)%nat L1 → Forall (λ j, i < j)%nat L2 →
  StronglySorted lt (L1 ++ i :: L2).
Proof.
  induction L1 as [|j L1 IH]; cbn; intros Hs H1 H2; [by constructor|].
  inversion Hs as [|? ? Hs' Hj]; subst. inversion H1; subst. constructor; [by apply IH|].
  apply Forall_app in Hj as [Hj1 Hj2]. apply Forall_app. split; [done|]. by constructor.
Qed.

Lemma sorted_length L i k :
  StronglySorted lt L → Forall (λ j, k ≤ j < i)%nat L → (k ≤ i)%nat → (length L + k ≤ i)%nat.
Proof.
  intros Hs. revert k. induction Hs as [|j L Hs IH Hj]; intros k Hk Hki; [cbn; lia|].
  inversion Hk as [|? ? Hb Hk']; subst. specialize (IH (S j)). cbn [length].
  assert (length L + S j ≤ i)%nat; [|lia]. apply IH; [|lia].
  rewrite Forall_forall in *. intros x Hx. specialize (Hj x Hx). specialize (Hk' x Hx). lia.
Qed.

Lemma sorted_NoDup L : StronglySorted lt L → NoDup L.
Proof.
  induction 1 as [|j L Hs IH Hj]; constructor; [|done]. intros Hin. rewrite Forall_forall in Hj.
  specialize (Hj j Hin). lia.
Qed.

Lemma seq_diff_small a b : - 2 ^ 31 ≤ a - b < 2 ^ 31 → seq_diff a b = a - b.
Proof.
  intros H. unfold seq_diff, to_signed, wrap. change (2 ^ (32 - 1)) with (2 ^ 31).
  destruct (decide (0 ≤ a - b)).
  - rewrite Z.mod_small by lia. destruct (Z.ltb_spec (a - b) (2 ^ 31)); lia.
  - rewrite <-(Z_mod_plus_full (a - b) 1). rewrite Z.mod_small by lia.
    destruct (Z.ltb_spec (a - b + 1 * 2 ^ 32) (2 ^ 31)); lia.
Qed.

(** What the codec promises: any [d] of the shards of an encoded group give
    its data shards back. *)
Definition rs_recovers (rs_encode : nat → nat → list bytes → option (list bytes))
    (rs_reconstruct : nat → nat → list (option bytes) → option (list (option bytes))) (d p : nat) : Prop :=
  ∀ n data parity shards present,
    (0 < n)%nat → length data = d → length parity = p → Forall (λ s, length s = n) (data ++ parity) →
    rs_encode d p (data ++ replicate p (replicate n 0)) = Some (data ++ parity) →
    length shards = (d + p)%nat →
    (∀ i s, shards !! i = Some (Some s) → (data ++ parity) !! i = Some s) →
    NoDup present → (d ≤ length present)%nat → (∀ i, i ∈ present → ∃ s, shards !! i = Some (Some s)) →
    ∃ out, rs_reconstruct d p shards = Some out ∧ ∀ i, (i < d)%nat → out !! i = Some (data !! i).

Section recover.
Context (rs_encode : nat → nat → list bytes → option (list bytes))
        (rs_reconstruct : nat → nat → list (option bytes) → option (list (option bytes))).
Context (d p n : nat) (base t0 : Z) (ps parity : list bytes).
Context (Hd : (0 < d)%nat) (Hp : (0 < p)%nat) (Hn : (0 < n)%nat).

Let size : nat := (d + p)%nat.

Context (Hsmall : Z.of_nat (d + p) < 2 ^ 31) (Hbase : base mod Z.of_nat (d + p) = 0)
        (Hb0 : 0 ≤ base) (Hb1 : base + Z.of_nat (d + p) ≤ 2 ^ 32).
(** The flag and payload of the [i]-th shard of the group. *)
Definition shard_flag (i : nat) : Z := if (i <? d)%nat then TYPE_DATA else TYPE_PARITY.
Definition shard_payload (i : nat) : bytes := (ps ++ parity) !!! i.

(** The window holds the shards [L] of the group, none received before [t0]. *)
Definition window : list nat → list FecElement → Prop :=
  Forall2 (λ i e, fe_seqid e = base + Z.of_nat i ∧ fe_flag e = shard_flag i
                  ∧ fe_data e = shard_payload i ∧ t0 ≤ fe_at e).

Lemma diff_in_group i j :
  (i < size)%nat → (j < size)%nat → seq_diff (base + Z.of_nat i) (base + Z.of_nat j) = Z.of_nat i - Z.of_nat j.
Proof. intros Hi Hj. unfold size in *. rewrite seq_diff_small; lia. Qed.

Lemma find_slot_window L1 L2 rx i :
  window (L1 ++ L2) rx → Forall (λ j, j < size)%nat (L1 ++ L2) → (i < size)%nat →
  Forall (λ j, j < i)%nat L1 → Forall (λ j, i < j)%nat L2 →
  find_slot (base + Z.of_nat i) (reverse rx) = Some (length L1).
Proof.
  intros Hw Hs Hi H1 H2. apply Forall2_app_inv_l in Hw as (rx1 & rx2 & Hw1 & Hw2 & ->).
  apply Forall_app in Hs as [Hs1 Hs2]. rewrite reverse_app.
  assert (find_slot (base + Z.of_nat i) (reverse rx1) = Some (length L1)) as Hf.
  { destruct L1 as [|j L1 _] using rev_ind; [by apply Forall2_nil_inv_l in Hw1 as ->|].
    apply Forall2_app_inv_l in Hw1 as (rxa & rxb & Hwa & Hwb & ->).
    inversion Hwb as [|? e ? ? (He & _) Hnil]; subst. inversion Hnil; subst.
    rewrite reverse_snoc. cbn [find_slot]. rewrite He.
    apply Forall_app in H1 as [_ H1]. inversion H1; subst. apply Forall_app in Hs1 as [_ Hs1]. inversion Hs1; subst.
    destruct (Z.eqb_spec (base + Z.of_nat j) (base + Z.of_nat i)); [lia|].
    rewrite diff_in_group by done. destruct (Z.ltb_spec 0 (Z.of_nat i - Z.of_nat j)); [|lia].
    rewrite length_reverse, length_app. cbn. rewrite <-(Forall2_length _ _ _ Hwa). f_equal. lia. }
  clear Hw1 H1 Hs1. revert rx2 Hw2 H2 Hs2. induction L2 as [|j L2 IH] using rev_ind; intros rx2 Hw2 H2 Hs2.
  { by apply Forall2_nil_inv_l in Hw2 as ->. }
  apply Forall2_app_inv_l in Hw2 as (rxa & rxb & Hwa & Hwb & ->).
  inversion Hwb as [|? e ? ? (He & _) Hnil]; subst. inversion Hnil; subst.
  apply Forall_app in H2 as [H2 H2']. inversion H2'; subst. apply Forall_app in Hs2 as [Hs2 Hs2']. inversion Hs2'; subst.
  rewrite reverse_snoc. cbn [app find_slot]. rewrite He.
  destruct (Z.eqb_spec (base + Z.of_nat j) (base + Z.of_nat i)); [lia|].
  rewrite diff_in_group by done. destruct (Z.ltb_spec 0 (Z.of_nat i - Z.of_nat j)); [lia|]. by apply IH.
Qed.

(** The scan of a window that holds only shards of the group. *)
Lemma scan_window L rx k sc :
  window L rx → Forall (λ j, j < size)%nat L →
  (sc_num_shard sc = 0%nat → k = 0%nat) → sc_first sc = 0%nat →
  scan (Z.of_nat size) base (base + Z.of_nat size - 1) k rx sc
  = mkScan (foldl (λ sh i, <[i := Some (shard_payload i)]> sh) (sc_shards sc) L)
           (sc_num_shard sc + length L) (sc_num_data sc + length (filter (λ i, i < d)%nat L)) 0
           (foldl (λ m i, Nat.max m (length (shard_payload i))) (sc_maxlen sc) L).
Proof.
  intros Hw. revert k sc. induction Hw as [|i e L rx (Hs & Hf & Hdt & _) Hw IH]; intros k sc Hsz Hk Hfirst.
  { cbn. rewrite !Nat.add_0_r. destruct sc; cbn in *; by subst. }
  inversion Hsz as [|? ? Hi Hsz']; subst. cbn [scan]. rewrite Hs.
  replace (base + Z.of_nat size - 1) with (base + Z.of_nat (size - 1)) by lia.
  rewrite diff_in_group by lia. destruct (Z.ltb_spec 0 (Z.of_nat i - Z.of_nat (size - 1))); [lia|].
  replace (seq_diff (base + Z.of_nat i) base) with (Z.of_nat i)
    by (rewrite <-(Z.add_0_r base) at 2; change 0 with (Z.of_nat 0); rewrite diff_in_group; lia).
  destruct (Z.leb_spec 0 (Z.of_nat i)); [|lia].
  replace (base + Z.of_nat (size - 1)) with (base + Z.of_nat size - 1) by lia.
  rewrite IH; cbn [sc_shards sc_num_shard sc_num_data sc_first sc_maxlen foldl]; [|done|done|].
  - assert ((base + Z.of_nat i) mod Z.of_nat size = Z.of_nat i) as ->.
    { rewrite <-Zplus_mod_idemp_l. unfold size in *. rewrite Hbase, Z.mod_small by lia. done. }
    rewrite Nat2Z.id, Hdt, Hf, filter_cons. unfold shard_flag.
    destruct (Nat.ltb_spec i d) as [Hlt|Hge]; cbn [length].
    + rewrite decide_True by done. cbn. f_equal; lia.
    + rewrite decide_False by lia. cbn. f_equal; lia.
  - destruct (Nat.eqb_spec (sc_num_shard sc) 0); [by apply Hk|done].
Qed.

(** ** What the scan collects *)

Definition slots (L : list nat) : list (option bytes) :=
  foldl (λ sh i, <[i := Some (shard_payload i)]> sh) (replicate size None) L.

Lemma slots_from L (sh : list (option bytes)) i :
  foldl (λ sh i, <[i := Some (shard_payload i)]> sh) sh L !! i
  = if decide (i ∈ L ∧ (i < length sh)%nat) then Some (Some (shard_payload i)) else sh !! i.
Proof.
  revert sh. induction L as [|j L IH]; intros sh; cbn [foldl].
  { rewrite decide_False; [done|]. set_solver. }
  rewrite IH, length_insert. destruct (decide (i = j)) as [->|Hne].
  - destruct (decide (j < length sh)%nat) as [Hlt|Hge].
    + rewrite list_lookup_insert_eq by done. rewrite (decide_True (P := j ∈ j :: L ∧ _)) by set_solver.
      by destruct (decide (j ∈ L ∧ _)).
    + rewrite list_insert_ge by lia. by rewrite !decide_False by tauto.
  - rewrite list_lookup_insert_ne by done. apply decide_ext. set_solver.
Qed.

Lemma length_slots L : length (slots L) = size.
Proof.
  unfold slots. generalize (replicate size (@None bytes)) as sh, (length_replicate size (@None bytes)).
  induction L as [|j L IH]; intros sh Hl; [done|]. cbn. apply IH. by rewrite length_insert.
Qed.

Lemma slots_lookup L i :
  Forall (λ j, j < size)%nat L → (i < size)%nat →
  slots L !! i = Some (if decide (i ∈ L) then Some (shard_payload i) else None).
Proof.
  intros HL Hi. unfold slots. rewrite slots_from, length_replicate, lookup_replicate_2 by done.
  repeat case_decide; tauto.
Qed.

Lemma maxlen_window L m :
  (m ≤ n)%nat → (∀ i, i ∈ L → (length (shard_payload i) ≤ n)%nat) →
  (m = n ∨ ∃ i, i ∈ L ∧ length (shard_payload i) = n) →
  foldl (λ m i, Nat.max m (length (shard_payload i))) m L = n.
Proof.
  revert m. induction L as [|j L IH]; intros m Hm Hall Hex; cbn [foldl]; [set_solver|].
  assert (length (shard_payload j) ≤ n)%nat by set_solver.
  apply IH; [lia|set_solver|]. destruct Hex as [->|(i & [->|Hi]%elem_of_cons & Hl)]; [left; lia|left; lia|].
  right. eauto.
Qed.

(** ** One shard arrives *)

Lemma insert_window L rx i now flag data :
  window L rx → StronglySorted lt L → Forall (λ j, j < size)%nat L → i ∉ L → (i < size)%nat →
  t0 ≤ now → flag = shard_flag i → data = shard_payload i →
  ∃ pos L', find_slot (base + Z.of_nat i) (reverse rx) = Some pos ∧ (pos ≤ i)%nat
    ∧ window L' (take pos rx ++ mkEl (base + Z.of_nat i) flag data now :: drop pos rx)
    ∧ StronglySorted lt L' ∧ L' ≡ₚ i :: L.
Proof.
  intros Hw Hs HL Hi Hsz Hnow -> ->. destruct (sorted_split L i Hs Hi) as (L1 & L2 & -> & H1 & H2).
  exists (length L1), (L1 ++ i :: L2). split_and!.
  - by eapply find_slot_window.
  - assert (StronglySorted lt L1) as Hs1.
    { clear -Hs. induction L1 as [|j L1 IH]; [constructor|]. inversion Hs as [|? ? Hs' Hj]; subst.
      apply Forall_app in Hj as [Hj _]. constructor; auto. }
    assert (length L1 + 0 ≤ i)%nat; [|lia]. apply sorted_length; [done| |lia].
    eapply Forall_impl; [exact H1|]. cbn. lia.
  - apply Forall2_app_inv_l in Hw as (rx1 & rx2 & Hw1 & Hw2 & ->).
    rewrite (Forall2_length _ _ _ Hw1), take_app_length, drop_app_length.
    apply Forall2_app; [done|]. by constructor.
  - by apply sorted_insert.
  - by rewrite Permutation_middle.
Qed.

Definition dec_of (rx : list FecElement) : FecDecoder := mkDecoder d p size (3 * size) rx.

Lemma not_expired rx L now : window L rx → now ≤ t0 + 60 * 1000000000 → expired now rx = 0%nat.
Proof.
  intros Hw Hnow. destruct Hw as [|i e L rx (_ & _ & _ & Hat) Hw]; [done|]. cbn [expired].
  destruct (Z.ltb_spec (60 * 1000000000) (now - fe_at e)); [lia|done].
Qed.

(** The group is looked at once it has [d] shards. *)
Lemma decode_group_window L rx i pos :
  window L rx → Forall (λ j, j < size)%nat L → (i < size)%nat → (pos ≤ i)%nat →
  (0 < length L ≤ size)%nat →
  decode_group rs_reconstruct (dec_of rx) (base + Z.of_nat i) pos rx
  = if (d <=? length L)%nat then
      let maxlen := foldl (λ m i, Nat.max m (length (shard_payload i))) 0%nat L in
      if (length (filter (λ i, i < d)%nat L) =? d)%nat then (free_range 0 (length L) rx, [])
      else (free_range 0 (length L) rx,
            match rs_reconstruct d p (pad_shard maxlen <$> slots L) with
            | Some shards => take_recovered d (slots L) shards
            | None => []
            end)
    else (rx, []).
Proof.
  intros Hw HL Hi Hpos Hlen. unfold decode_group. cbn [dec_of d_shard_size d_datashard d_parityshard].
  assert ((base + Z.of_nat i) mod Z.of_nat size = Z.of_nat i) as Em.
  { rewrite <-Zplus_mod_idemp_l. unfold size in *. rewrite Hbase, Z.mod_small by lia. done. }
  rewrite Em, Nat2Z.id. replace (pos - i)%nat with 0%nat by lia. rewrite Nat.add_0_l, drop_0, Nat.sub_0_r.
  pose proof (Forall2_length _ _ _ Hw) as Hl.
  replace (Nat.min (size - 1) (length rx - 1)) with (length rx - 1)%nat by lia.
  replace (length rx - 1 + 1)%nat with (length L) by lia. cbn [Nat.leb andb].
  replace (base + Z.of_nat i - Z.of_nat i) with base by lia.
  rewrite (wrap_small 32) by (unfold size in *; lia).
  destruct (Nat.leb_spec d (length L)); [|done].
  rewrite take_ge by lia. rewrite (scan_window L rx) by done.
  cbn [sc_shards sc_num_shard sc_num_data sc_first sc_maxlen]. rewrite !Nat.add_0_l. fold (slots L).
  case_goal; [done|]. destruct (Nat.leb_spec d (length L)); [done|lia].
Qed.

(** The decoder fed with shards of the group, each with its arrival time. *)
Fixpoint receive (arrivals : list (Z * nat)) (dec : FecDecoder) : list bytes * FecDecoder :=
  match arrivals with
  | [] => ([], dec)
  | (now, i) :: arrivals =>
      let '(out, dec) := decode rs_reconstruct now (base + Z.of_nat i) (shard_flag i) (shard_payload i) dec in
      let '(outs, dec) := receive arrivals dec in
      (out ++ outs, dec)
  end.

Lemma zero_pad_full (l : bytes) : length l = n → zero_pad n l = l.
Proof. intros H. unfold zero_pad. rewrite H, Nat.sub_diag, take_ge by lia. apply app_nil_r. Qed.

Lemma decode_incomplete L rx now i :
  window L rx → StronglySorted lt L → Forall (λ j, j < size)%nat L → i ∉ L → (i < size)%nat →
  (S (length L) < d)%nat → t0 ≤ now ≤ t0 + 60 * 1000000000 →
  ∃ rx' L', decode rs_reconstruct now (base + Z.of_nat i) (shard_flag i) (shard_payload i) (dec_of rx)
            = ([], dec_of rx')
    ∧ window L' rx' ∧ StronglySorted lt L' ∧ L' ≡ₚ i :: L.
Proof.
  intros Hw Hs HL Hi Hsz Hlen Hnow.
  destruct (insert_window L rx i now _ _ Hw Hs HL Hi Hsz (proj1 Hnow) eq_refl eq_refl)
    as (pos & L' & Hf & Hpos & Hw' & Hs' & Hp').
  unfold decode. cbn [d_rx dec_of]. rewrite Hf. set (rx' := take pos rx ++ _) in *.
  assert (length L' = S (length L)) as Hl' by (by rewrite Hp').
  fold (dec_of rx). change (decode_group rs_reconstruct (dec_of rx)) with (decode_group rs_reconstruct (dec_of rx')).
  rewrite (decode_group_window L' rx' i pos); [|done|rewrite Hp'; by constructor|done|done|unfold size; lia].
  rewrite Hl'. destruct (Nat.leb_spec d (S (length L))); [lia|].
  pose proof (Forall2_length _ _ _ Hw') as Hrl. cbn [d_rxlimit d_datashard d_parityshard d_shard_size dec_of].
  destruct (Nat.ltb_spec (3 * size) (length rx')); [unfold size in *; lia|].
  rewrite (not_expired rx' L' now) by (done || lia). exists rx', L'. done.
Qed.

Section group.
Context (Hps : length ps = d) (Hpl : Forall (λ x, length x ≤ n)%nat ps)
        (Hpar : length parity = p) (Hparl : Forall (λ x, length x = n) parity)
        (Henc : rs_encode d p ((zero_pad n <$> ps) ++ replicate p (replicate n 0))
                = Some ((zero_pad n <$> ps) ++ parity))
        (Hrs : rs_recovers rs_encode rs_reconstruct d p).

Lemma payload_lookup i : (i < size)%nat → (ps ++ parity) !! i = Some (shard_payload i).
Proof. intros Hi. apply list_lookup_lookup_total_lt. rewrite length_app. unfold size in Hi. lia. Qed.

Lemma payload_length i : (i < size)%nat → (length (shard_payload i) ≤ n)%nat.
Proof.
  intros Hi. apply payload_lookup in Hi. apply list_elem_of_lookup_2 in Hi.
  apply elem_of_app in Hi as [Hi|Hi].
  - rewrite Forall_forall in Hpl. by apply Hpl.
  - rewrite Forall_forall in Hparl. by rewrite (Hparl _ Hi).
Qed.

Lemma payload_parity i : (d ≤ i < size)%nat → length (shard_payload i) = n.
Proof.
  intros Hi. pose proof (payload_lookup i (proj2 Hi)) as Hl. rewrite lookup_app_r in Hl by lia.
  rewrite Forall_lookup in Hparl. by eapply Hparl.
Qed.

Lemma padded_group : (zero_pad n <$> ps) ++ parity = zero_pad n <$> (ps ++ parity).
Proof.
  rewrite fmap_app. f_equal. rewrite <-(list_fmap_id parity) at 1. apply list_fmap_ext.
  intros i x Hx. rewrite Forall_lookup in Hparl. symmetry. by eapply zero_pad_full, Hparl.
Qed.

(** The codec rebuilds the data shards from the slots of any [d] shards. *)
Lemma reconstruct_slots L :
  NoDup L → Forall (λ j, j < size)%nat L → (d ≤ length L)%nat →
  ∃ out, rs_reconstruct d p (pad_shard n <$> slots L) = Some out
    ∧ ∀ i, (i < d)%nat → out !! i = Some (Some (zero_pad n (shard_payload i))).
Proof.
  intros Hnd HL Hl.
  destruct (Hrs n (zero_pad n <$> ps) parity (pad_shard n <$> slots L) L) as (out & Ho & Hout); try done.
  - by rewrite length_fmap.
  - rewrite padded_group. apply Forall_fmap, Forall_true. intros x. unfold compose.
    unfold zero_pad. rewrite length_app, length_take, length_replicate. lia.
  - rewrite length_fmap. apply length_slots.
  - intros i s. rewrite list_lookup_fmap. destruct (decide (i < size)%nat) as [Hi|Hi].
    + rewrite slots_lookup by done. case_decide; [|done]. intros [= <-].
      rewrite padded_group, list_lookup_fmap, payload_lookup by done. done.
    + rewrite lookup_ge_None_2; [done|]. rewrite length_slots. lia.
  - intros i Hi. rewrite Forall_forall in HL. specialize (HL i Hi) as Hsz. rewrite list_lookup_fmap.
    rewrite slots_lookup by (done || by apply Forall_forall). rewrite decide_True by done. cbn. eauto.
  - exists out. split; [done|]. intros i Hi. rewrite Hout by done. f_equal.
    rewrite list_lookup_fmap. pose proof (payload_lookup i) as Hpi. rewrite lookup_app_l in Hpi by lia.
    by rewrite Hpi by (unfold size; lia).
Qed.

Lemma recovered_slots L out :
  Forall (λ j, j < size)%nat L →
  (∀ i, (i < d)%nat → out !! i = Some (Some (zero_pad n (shard_payload i)))) →
  take_recovered d (slots L) out = (λ i, zero_pad n (shard_payload i)) <$> filter (λ i, i ∉ L) (seq 0 d).
Proof.
  intros HL Hout. unfold take_recovered.
  assert (Forall (λ i, i < d)%nat (seq 0 d)) as Hseq by (apply Forall_forall; intros i; rewrite elem_of_seq; lia).
  induction Hseq as [|i l Hi Hl IH]; [done|]. cbn [omap list_omap]. rewrite filter_cons.
  rewrite (list_lookup_total_correct (slots L) i _ (slots_lookup L i HL ltac:(unfold size; lia))).
  rewrite (list_lookup_total_correct out i _ (Hout i Hi)).
  destruct (decide (i ∈ L)) as [Hin|Hnin].
  - rewrite decide_False by tauto. apply IH.
  - rewrite decide_True by done. rewrite fmap_cons. f_equal. apply IH.
Qed.

Lemma filter_missing L : (∃ i, i ∈ L ∧ (d ≤ i)%nat) → length L = d → length (filter (λ i, i < d)%nat L) ≠ d.
Proof.
  intros (i & Hi & Hge) Hl. apply list_elem_of_split in Hi as (L1 & L2 & ->).
  rewrite filter_app, filter_cons_False by lia. rewrite length_app in *. cbn [length] in Hl.
  pose proof (length_filter (λ i, i < d)%nat L1). pose proof (length_filter (λ i, i < d)%nat L2). lia.
Qed.

Lemma decode_complete L rx now i :
  window L rx → StronglySorted lt L → Forall (λ j, j < size)%nat L → i ∉ L → (i < size)%nat →
  S (length L) = d → (∃ j, j ∈ i :: L ∧ (d ≤ j)%nat) → t0 ≤ now ≤ t0 + 60 * 1000000000 →
  decode rs_reconstruct now (base + Z.of_nat i) (shard_flag i) (shard_payload i) (dec_of rx)
  = ((λ i, zero_pad n (shard_payload i)) <$> filter (λ j, j ∉ i :: L) (seq 0 d), dec_of []).
Proof.
  intros Hw Hs HL Hi Hsz Hlen Hex Hnow.
  destruct (insert_window L rx i now _ _ Hw Hs HL Hi Hsz (proj1 Hnow) eq_refl eq_refl)
    as (pos & L' & Hf & Hpos & Hw' & Hs' & Hp').
  unfold decode. cbn [d_rx dec_of]. rewrite Hf. set (rx' := take pos rx ++ _) in *.
  assert (length L' = d) as Hl' by (by rewrite Hp').
  assert (Forall (λ j, j < size)%nat L') as HL' by (rewrite Hp'; by constructor).
  assert (∃ j, j ∈ L' ∧ (d ≤ j)%nat) as Hex' by (destruct Hex as (j & Hj & ?); exists j; by rewrite Hp').
  fold (dec_of rx). change (decode_group rs_reconstruct (dec_of rx)) with (decode_group rs_reconstruct (dec_of rx')).
  rewrite (decode_group_window L' rx' i pos) by (done || unfold size; lia).
  destruct (Nat.leb_spec d (length L')); [|lia]. cbv zeta.
  destruct (Nat.eqb_spec (length (filter (λ i, i < d)%nat L')) d) as [Hc|_];
    [exfalso; by eapply filter_missing|].
  rewrite maxlen_window; [|lia|intros j Hj; apply payload_length; rewrite Forall_forall in HL'; by apply HL'|].
  2: { right. destruct Hex' as (j & Hj & Hge). exists j. split; [done|]. apply payload_parity.
       rewrite Forall_forall in HL'. specialize (HL' j Hj). lia. }
  destruct (reconstruct_slots L' (sorted_NoDup _ Hs') HL' ltac:(lia)) as (out & -> & Hout).
  rewrite recovered_slots by done.
  pose proof (Forall2_length _ _ _ Hw') as Hrl.
  assert (free_range 0 (length L') rx' = []) as ->.
  { unfold free_range. rewrite Nat.add_0_l, Hrl, Nat.min_id. destruct (Nat.ltb_spec 0 (length rx')); [|lia].
    by rewrite drop_all. }
  cbn [d_rxlimit d_datashard d_parityshard d_shard_size dec_of length expired].
  destruct (Nat.ltb_spec (3 * size) 0); [lia|]. cbn [Nat.ltb Nat.leb]. f_equal. f_equal.
  apply list_filter_iff. intros j. by rewrite Hp'.
Qed.

Lemma receive_window L rx arrivals :
  window L rx → StronglySorted lt L → Forall (λ j, j < size)%nat L →
  NoDup (L ++ arrivals.*2) → Forall (λ a, (a.2 < size)%nat ∧ t0 ≤ a.1 ≤ t0 + 60 * 1000000000) arrivals →
  (length L + length arrivals = d)%nat → arrivals ≠ [] → (∃ j, j ∈ L ++ arrivals.*2 ∧ (d ≤ j)%nat) →
  receive arrivals (dec_of rx)
  = ((λ i, zero_pad n (shard_payload i)) <$> filter (λ j, j ∉ L ++ arrivals.*2) (seq 0 d), dec_of []).
Proof.
  revert L rx. induction arrivals as [|[now i] arrivals IH]; intros L rx Hw Hs HL Hnd Ha Hlen Hne Hex; [done|].
  apply Forall_cons in Ha as [[Hi Hnow] Ha']. cbn [fst snd] in *. cbn [receive].
  rewrite fmap_cons in *. cbn [snd] in *.
  assert (L ++ i :: arrivals.*2 ≡ₚ i :: L ++ arrivals.*2) as Hperm by (by rewrite Permutation_middle).
  rewrite Hperm in Hnd. apply NoDup_cons in Hnd as [Hni Hnd']. apply not_elem_of_app in Hni as [HiL Hia].
  destruct arrivals as [|a arrivals].
  - rewrite (decode_complete L rx) by (done || (cbn in Hlen; lia) || (destruct Hex as (j & Hj & ?); exists j; set_solver)).
    cbn [receive]. rewrite app_nil_r. f_equal. f_equal. apply list_filter_iff. intros j.
    rewrite Hperm. cbn. by rewrite app_nil_r.
  - destruct (decode_incomplete L rx now i Hw Hs HL HiL ltac:(lia)) as (rx' & L' & -> & Hw' & Hs' & Hp');
      [cbn in Hlen; lia|done|].
    rewrite (IH L' rx'); [|done|done|rewrite Hp'; constructor; [lia|done]|rewrite Hp'; constructor; [by apply not_elem_of_app|done]|done| |done|].
    + cbn [app]. f_equal. f_equal. apply list_filter_iff. intros j. by rewrite Hperm, Hp'.
    + rewrite Hp'. cbn in *. lia.
    + destruct Hex as (j & Hj & Hge). exists j. split; [|done]. rewrite Hp'. by rewrite Hperm in Hj.
Qed.
End group.
End recover.

(** ** The theorem *)

(** The payload of a data shard: its size, the size field included, and the
    segments. *)
Definition data_payload (segments : bytes) : bytes :=
  to_le 2 (u16 (Z.of_nat (2 + length segments))) ++ segments.

Lemma payload_segments n s :
  (2 + length s ≤ n)%nat → Z.of_nat (2 + length s) < 2 ^ 16 →
  fec_payload_segments (zero_pad n (data_payload s)) = Some s.
Proof.
  intros Hn Hs. unfold zero_pad, data_payload, fec_payload_segments.
  assert (length (to_le 2 (u16 (Z.of_nat (2 + length s))) ++ s) = 2 + length s)%nat as Hl
    by (by rewrite length_app, length_to_le).
  rewrite take_ge, Hl by lia. set (pad := replicate _ 0). rewrite <-app_assoc.
  assert (le16 (to_le 2 (u16 (Z.of_nat (2 + length s))) ++ s ++ pad) = Z.of_nat (2 + length s)) as ->.
  { unfold le16. rewrite take_app_exact by (by rewrite length_to_le).
    rewrite wrap_small by lia. apply from_to_le. cbn [Nat.mul Z.of_nat Z.mul]. lia. }
  rewrite Nat2Z.id. rewrite !length_app, length_to_le.
  destruct (Nat.ltb_spec (2 + (length s + length pad)) 2); [lia|].
  destruct (Nat.ltb_spec (2 + length s) 2); [lia|].
  destruct (Nat.ltb_spec (2 + (length s + length pad)) (2 + length s)); [lia|]. cbn [orb]. f_equal.
  rewrite (app_assoc _ s pad), take_app_exact by (rewrite length_app, length_to_le; lia).
  by rewrite drop_app_exact by (by rewrite length_to_le).
Qed.


(** ** A codec that keeps the promise: two data shards and their exclusive or *)

Definition xor2 (a b : bytes) : bytes := zip_with Z.lxor a b.

Definition xor_encode (d p : nat) (shards : list bytes) : option (list bytes) :=
  match shards with
  | [a; b; _] => Some [a; b; xor2 a b]
  | _ => None
  end.

Definition xor_reconstruct (d p : nat) (shards : list (option bytes)) : option (list (option bytes)) :=
  match shards with
  | [Some a; Some b; c] => Some [Some a; Some b; c]
  | [None; Some b; Some c] => Some [Some (xor2 b c); Some b; Some c]
  | [Some a; None; Some c] => Some [Some a; Some (xor2 a c); Some c]
  | _ => None
  end.

Lemma xor2_cancel a b : length a = length b → xor2 a (xor2 a b) = b.
Proof.
  revert b. induction a as [|x a IH]; intros [|y b] Hl; try done. cbn. f_equal; [|apply IH; cbn in Hl; lia].
  by rewrite <-Z.lxor_assoc, Z.lxor_nilpotent, Z.lxor_0_l.
Qed.

Lemma xor2_comm a b : xor2 a b = xor2 b a.
Proof. revert b. induction a as [|x a IH]; intros [|y b]; cbn; [done..|]. by rewrite IH, Z.lxor_comm. Qed.

Lemma xor_recovers : rs_recovers xor_encode xor_reconstruct 2 1.
Proof.
  intros n data parity shards present Hn Hd Hp Hlen Henc Hsh Hok Hnd Hpl Hpres.
  destruct data as [|a [|b [|]]]; try done. destruct parity as [|c [|]]; try done.
  cbn in Henc. injection Henc as Hc.
  apply Forall_cons in Hlen as [Ha Hlen]. apply Forall_cons in Hlen as [Hb _].
  destruct shards as [|oa [|ob [|oc [|]]]]; try done.
  assert (∀ i, i ∈ present → (i < 3)%nat ∧ [oa; ob; oc] !! i ≠ Some None) as Hpr.
  { intros i Hi. destruct (Hpres i Hi) as [s Hs]. split; [by apply lookup_lt_Some in Hs|congruence]. }
  assert (∀ x : nat, (∀ i, i ∈ present → i = x) → False) as Hone.
  { intros x Hx. destruct present as [|i [|j present]]; [cbn in Hpl; lia..|].
    apply NoDup_cons in Hnd as [Hni _]. apply Hni. rewrite (Hx i), (Hx j); set_solver. }
  assert (∀ s, oa = Some s → s = a) as Ea by (intros s ->; by specialize (Hok 0%nat s eq_refl) as [= ->]).
  assert (∀ s, ob = Some s → s = b) as Eb by (intros s ->; by specialize (Hok 1%nat s eq_refl) as [= ->]).
  assert (∀ s, oc = Some s → s = c) as Ec by (intros s ->; by specialize (Hok 2%nat s eq_refl) as [= ->]).
  destruct oa as [a'|], ob as [b'|], oc as [c'|];
    rewrite ?(Ea _ eq_refl), ?(Eb _ eq_refl), ?(Ec _ eq_refl) in *;
    try (let single k := (exfalso; apply (Hone k); intros i Hi; destruct (Hpr i Hi) as [H3 HN];
                        destruct i as [|[|[|]]]; cbn in HN; done || lia) in
         first [solve [single 0%nat] | solve [single 1%nat] | solve [single 2%nat]]).
  all: eexists; split; [reflexivity|]; intros [|[|i]] Hi; [| |lia]; cbn; try done; subst c.
  - by rewrite xor2_cancel by congruence.
  - by rewrite (xor2_comm a b), xor2_cancel by congruence.
Qed.

