(* ===== verification/Snappy.v ===== *)
(** * Snappy framing

    Models [SnappyStream] of src/kcp.rs, the compression layer between smux
    and KCP. The [snap] crate's raw compressor and decompressor are
    parameters; the transport below is the list of its answers to
    [poll_write] and the pieces in which its bytes arrive. The layer is proved
    to deliver exactly the bytes accepted for writing. *)

From stdpp Require Import base list option numbers strings sets.
From Stdlib Require Import ZArith Lia.
From S2P Require Import Prelude AsyncIo KcpCrypt.

Definition SNAPPY_MAGIC : bytes := [255; 6; 0; 0; 115; 78; 97; 80; 112; 89].
Definition SNAPPY_MAX_BLOCK : Z := 65536.
Definition SNAPPY_MAX_CHUNK : Z := SNAPPY_MAX_BLOCK + 4.

(** Numbers formatted into a message are left out. *)
Definition invalid (msg : string) : io_error := IoError InvalidData msg.

(** ** The reading side *)

(** The fields of [SnappyStream] that reading uses. *)
Record SnappyReader : Set := mkReaderS {
  in_buf : bytes; dec : bytes; dec_pos : nat; saw_magic : bool; read_eof : bool }.

Definition new_reader : SnappyReader := mkReaderS [] [] 0 false false.

Inductive Step : Set :=
| NeedMore
| StepErr (e : io_error) (r : SnappyReader)
| StepOk (r : SnappyReader).

Section snappy.
Context (compress : bytes → option bytes) (decompress : bytes → result io_error bytes).

(** What the body of a chunk of a kind adds to [dec], and [saw_magic] after it. *)
Definition chunk_body (kind : Z) (body : bytes) (saw : bool) : result io_error (bytes * bool) :=
  if kind =? 0 then
    if (length body <? 4)%nat then Err (invalid "snappy: compressed chunk has no checksum")
    else
      let want := from_le (take 4 body) in
      plain <-? decompress (drop 4 body) ;;
      if SNAPPY_MAX_BLOCK <? zlen plain then Err (invalid "snappy: block larger than the format allows")
      else if negb (crc32c_masked plain =? want) then Err (invalid "snappy: chunk checksum mismatch")
      else Ok (plain, saw)
  else if kind =? 1 then
    if (length body <? 4)%nat then Err (invalid "snappy: uncompressed chunk has no checksum")
    else
      let want := from_le (take 4 body) in
      let plain := drop 4 body in
      if negb (crc32c_masked plain =? want) then Err (invalid "snappy: chunk checksum mismatch")
      else Ok (plain, saw)
  else if kind =? 255 then
    if bool_decide (body = drop 4 SNAPPY_MAGIC) then Ok ([], true)
    else Err (invalid "snappy: bad stream identifier")
  else if kind <=? 127 then Err (invalid "snappy: reserved chunk type")
  else Ok ([], saw).

(** One turn of the loop of [decode_chunks]. *)
Definition decode_step (r : SnappyReader) : Step :=
  match in_buf r with
  | kind :: l0 :: l1 :: l2 :: _ =>
      let len := from_le [l0; l1; l2] in
      if (kind <=? 1) && (SNAPPY_MAX_CHUNK <? len)
      then StepErr (invalid "snappy: chunk exceeds the format's limit") r
      else if zlen (in_buf r) <? 4 + len then NeedMore
      else
        let n := Z.to_nat len in
        let body := take n (drop 4 (in_buf r)) in
        let rest := drop (4 + n) (in_buf r) in
        match chunk_body kind body (saw_magic r) with
        | Err e => StepErr e (mkReaderS rest (dec r) (dec_pos r) (saw_magic r) (read_eof r))
        | Ok (plain, saw) =>
            let r' := mkReaderS rest (dec r ++ plain) (dec_pos r) saw (read_eof r) in
            if negb saw && negb (kind =? 255)
            then StepErr (invalid "snappy: data before the stream identifier") r'
            else StepOk r'
        end
  | _ => NeedMore
  end.

(** [decode_chunks]; a turn consumes four bytes or more, so the length of
    [in_buf] is fuel enough. *)
Fixpoint decode_loop (fuel : nat) (progress : bool) (r : SnappyReader) : result io_error bool * SnappyReader :=
  match fuel with
  | O => (Ok progress, r)
  | S fuel =>
      match decode_step r with
      | NeedMore => (Ok progress, r)
      | StepErr e r' => (Err e, r')
      | StepOk r' => decode_loop fuel true r'
      end
  end.
Definition decode_chunks (r : SnappyReader) : result io_error bool * SnappyReader :=
  decode_loop (S (length (in_buf r))) false r.

(** [poll_read] with [room] bytes of space in the caller's buffer: the bytes
    put there, the reader, and the answers of the transport not yet used. *)
Fixpoint SnappyStream_poll_read (room : nat) (answers : list ReadAnswer) (r : SnappyReader) :
    poll (result io_error bytes) * SnappyReader * list ReadAnswer :=
  if (dec_pos r <? length (dec r))%nat then
    let n := Nat.min room (length (dec r) - dec_pos r) in
    let pos := (dec_pos r + n)%nat in
    let r' :=
      if (pos =? length (dec r))%nat then mkReaderS (in_buf r) [] 0 (saw_magic r) (read_eof r)
      else mkReaderS (in_buf r) (dec r) pos (saw_magic r) (read_eof r) in
    (Ready (Ok (take n (drop (dec_pos r) (dec r)))), r', answers)
  else if read_eof r then (Ready (Ok []), r, answers)
  else
    match answers with
    | [] => (Pending, r, [])
    | RPending :: answers => (Pending, r, answers)
    | RErr e :: answers => (Ready (Err e), r, answers)
    | RData [] :: answers =>
        (Ready (Ok []), mkReaderS (in_buf r) (dec r) (dec_pos r) (saw_magic r) true, answers)
    | RData piece :: answers =>
        match decode_chunks (mkReaderS (in_buf r ++ piece) (dec r) (dec_pos r) (saw_magic r) (read_eof r)) with
        | (Err e, r) => (Ready (Err e), r, answers)
        | (Ok _, r) => SnappyStream_poll_read room answers r
        end
    end.

(** ** The writing side *)

Definition encode_chunk (src : bytes) : bytes :=
  let checksum := crc32c_masked src in
  let raw := (1, src) in
  let '(kind, body) :=
    match compress src with
    | Some c => if (length c <? length src - length src / 8)%nat then (0, c) else raw
    | None => raw
    end in
  kind :: take 3 (to_le 4 (u32 (4 + zlen body))) ++ to_le 4 checksum ++ body.

(** The fields of [SnappyStream] that writing uses. *)
Record SnappyWriter : Set := mkWriter { w_out : OutBuf; wrote_magic : bool }.

Definition new_writer : SnappyWriter := mkWriter new_out false.

Definition stopped_accepting : io_error := IoError WriteZero "snappy: the transport stopped accepting bytes".

(** [poll_drain], and the answers of the transport not yet used. *)
Definition poll_drain (answers : list Answer) (w : SnappyWriter) :
    poll (result io_error ()) * SnappyWriter * list Answer :=
  let '(p, o, answers) := flush_out stopped_accepting answers (w_out w) in (p, mkWriter o (wrote_magic w), answers).

(** The part of [poll_write] that queues a block. *)
Definition queue_block (src : bytes) (w : SnappyWriter) : SnappyWriter :=
  mkWriter (queue ((if wrote_magic w then [] else SNAPPY_MAGIC) ++ encode_chunk src) (w_out w)) true.

Definition SnappyStream_poll_write (answers : list Answer) (buf : bytes) (w : SnappyWriter) :
    poll (result io_error nat) * SnappyWriter :=
  match buf with
  | [] => (Ready (Ok 0%nat), w)
  | _ =>
      match poll_drain answers w with
      | (Ready (Err e), w, _) => (Ready (Err e), w)
      | (_, w, answers) =>
          if 4 * SNAPPY_MAX_BLOCK <? zlen (out (w_out w)) - Z.of_nat (out_pos (w_out w)) then (Pending, w)
          else
            let n := Nat.min (length buf) (Z.to_nat SNAPPY_MAX_BLOCK) in
            let '(_, w, _) := poll_drain answers (queue_block (take n buf) w) in
            (Ready (Ok n), w)
      end
  end.

(** [poll_flush] and [poll_shutdown], with the transport's answer [inner] to
    the same call. *)
Definition SnappyStream_poll_flush (answers : list Answer) (inner : poll (result io_error ())) (w : SnappyWriter) :
    poll (result io_error ()) * SnappyWriter :=
  match poll_drain answers w with
  | (Ready (Ok tt), w, _) => (inner, w)
  | (other, w, _) => (other, w)
  end.

Definition SnappyStream_poll_shutdown (answers : list Answer) (inner : poll (result io_error ())) (w : SnappyWriter) :
    poll (result io_error ()) * SnappyWriter :=
  match poll_drain answers w with
  | (Ready (Ok tt), w, _) => (inner, w)
  | (other, w, _) => (other, w)
  end.

(** The calls of the writing side, with what the transport answers to each. *)
Inductive WriteOp : Set :=
| OpWrite (answers : list Answer) (buf : bytes)
| OpFlush (answers : list Answer) (inner : poll (result io_error ()))
| OpShutdown (answers : list Answer) (inner : poll (result io_error ())).

(** The writer after a call, and the bytes the caller was told were accepted. *)
Definition write_op (o : WriteOp) (w : SnappyWriter) : bytes * SnappyWriter :=
  match o with
  | OpWrite answers buf =>
      match SnappyStream_poll_write answers buf w with
      | (Ready (Ok n), w) => (take n buf, w)
      | (_, w) => ([], w)
      end
  | OpFlush answers inner => ([], (SnappyStream_poll_flush answers inner w).2)
  | OpShutdown answers inner => ([], (SnappyStream_poll_shutdown answers inner w).2)
  end.

Fixpoint write_ops (ops : list WriteOp) (w : SnappyWriter) : bytes * SnappyWriter :=
  match ops with
  | [] => ([], w)
  | o :: ops =>
      let '(a, w) := write_op o w in
      let '(b, w) := write_ops ops w in
      (a ++ b, w)
  end.

(** Polls of the reading side, one for each space offered: the outcomes, the
    reader and the answers left. *)
Fixpoint read_polls (rooms : list nat) (answers : list ReadAnswer) (r : SnappyReader) :
    list (poll (result io_error bytes)) * SnappyReader * list ReadAnswer :=
  match rooms with
  | [] => ([], r, answers)
  | room :: rooms =>
      let '(p, r, answers) := SnappyStream_poll_read room answers r in
      let '(ps, r, answers) := read_polls rooms answers r in
      (p :: ps, r, answers)
  end.

(** ** Chunks round-trip *)

(** What the crate promises, and the range of its bytes. *)
Context (Hsnap : ∀ src c, compress src = Some c → decompress c = Ok src).

Inductive unit_ : Set := UMagic | UData (src : bytes).

Definition enc (u : unit_) : bytes :=
  match u with UMagic => SNAPPY_MAGIC | UData src => encode_chunk src end.
Definition plain (u : unit_) : bytes := match u with UMagic => [] | UData src => src end.
Definition unit_ok (u : unit_) : Prop := zlen (plain u) ≤ SNAPPY_MAX_BLOCK.

(** The units a reader that has or has not seen the identifier can be sent. *)
Definition readable (saw : bool) (us : list unit_) : Prop :=
  saw = true ∨ us = [] ∨ ∃ us', us = UMagic :: us'.

(** The encoded form of a chunk: kind, length, checksum and body. *)
Lemma encode_chunk_shape src :
  zlen src ≤ SNAPPY_MAX_BLOCK →
  ∃ kind body l0 l1 l2,
    encode_chunk src = kind :: l0 :: l1 :: l2 :: to_le 4 (crc32c_masked src) ++ body
    ∧ from_le [l0; l1; l2] = 4 + zlen body ∧ zlen body ≤ SNAPPY_MAX_BLOCK
    ∧ ((kind = 0 ∧ decompress body = Ok src) ∨ (kind = 1 ∧ body = src)).
Proof.
  intros Hs. unfold encode_chunk. set (kb := match compress src with Some _ => _ | None => _ end).
  assert (zlen kb.2 ≤ SNAPPY_MAX_BLOCK ∧ ((kb.1 = 0 ∧ decompress kb.2 = Ok src) ∨ (kb.1 = 1 ∧ kb.2 = src)))
    as [Hb Hk].
  { unfold kb. destruct (compress src) as [c|] eqn:Ec; [|by split; [|right]].
    destruct (Nat.ltb_spec (length c) (length src - length src / 8)); [|by split; [|right]].
    cbn [fst snd]. split; [unfold zlen in *; lia|]. left. split; [done|]. by apply Hsnap. }
  destruct kb as [kind body]. cbn [fst snd] in *. exists kind, body.
  set (x := u32 (4 + zlen body)). eexists _, _, _. split; [reflexivity|].
  assert (x = 4 + zlen body) as Ex by (unfold x; apply wrap_small; unfold zlen, SNAPPY_MAX_BLOCK in *; lia).
  split; [|done]. change (from_le (take 3 (to_le 4 x)) = 4 + zlen body).
  change (take 3 (to_le 4 x)) with (to_le 3 x). rewrite from_to_le; [done|]. rewrite Ex.
  unfold zlen, SNAPPY_MAX_BLOCK in *. cbn. lia.
Qed.

Lemma crc32c_masked_range src : 0 ≤ crc32c_masked src < 2 ^ 32.
Proof. unfold crc32c_masked. by apply wrap_range. Qed.

(** A whole unit at the front is decoded. *)
Lemma decode_step_unit u rest d pos saw eof :
  unit_ok u → (saw = true ∨ u = UMagic) →
  decode_step (mkReaderS (enc u ++ rest) d pos saw eof) = StepOk (mkReaderS rest (d ++ plain u) pos true eof).
Proof.
  intros Hu Hsaw. destruct u as [|src].
  { cbn [enc plain]. unfold decode_step. cbn [in_buf SNAPPY_MAGIC app].
    change (from_le [6; 0; 0]) with 6. cbn [Z.leb]. unfold zlen. cbn [length].
    destruct (Z.ltb_spec (Z.of_nat (S (S (S (S (S (S (S (S (S (S (length rest)))))))))))) (4 + 6)); [lia|].
    cbn. reflexivity. }
  destruct Hsaw as [-> |]; [|done].
  destruct (encode_chunk_shape src Hu) as (kind & body & l0 & l1 & l2 & Ee & El & Hb & Hk).
  cbn [enc plain]. rewrite Ee. unfold decode_step. cbn [in_buf app]. rewrite El.
  pose proof (length_to_le 4 (crc32c_masked src)) as H4.
  assert (kind <= 1) as Hk1 by (destruct Hk as [[-> _]|[-> _]]; lia).
  assert ((kind <=? 1) && (SNAPPY_MAX_CHUNK <? 4 + zlen body) = false) as ->.
  { apply andb_false_iff. right. apply Z.ltb_ge. unfold SNAPPY_MAX_CHUNK. lia. }
  set (b := to_le 4 (crc32c_masked src) ++ body).
  assert (length b = 4 + length body)%nat as Hbl by (unfold b; rewrite length_app; lia).
  destruct (Z.ltb_spec (zlen (kind :: l0 :: l1 :: l2 :: b ++ rest)) (4 + (4 + zlen body))) as [Hlt|_].
  { unfold zlen in Hlt. cbn [length] in Hlt. rewrite length_app in Hlt. lia. }
  assert (Z.to_nat (4 + zlen body) = length b) as -> by (unfold zlen; lia).
  cbn [drop Nat.add]. rewrite !drop_0, take_app_length, drop_app_length.
  assert (from_le (take 4 b) = crc32c_masked src ∧ drop 4 b = body) as [Ec Ed].
  { unfold b. rewrite take_app_exact, drop_app_exact by done. split; [|done].
    apply from_to_le, crc32c_masked_range. }
  cbn [saw_magic dec dec_pos read_eof]. assert (chunk_body kind b true = Ok (src, true)) as ->.
  { unfold chunk_body. rewrite Ec, Ed. destruct (Nat.ltb_spec (length b) 4); [lia|].
    destruct Hk as [[-> Hd]|[-> ->]]; cbn [Z.eqb].
    - rewrite Hd. cbn [rbind]. unfold unit_ok in Hu. cbn [plain] in Hu.
      destruct (Z.ltb_spec SNAPPY_MAX_BLOCK (zlen src)); [lia|]. by rewrite Z.eqb_refl.
    - by rewrite Z.eqb_refl. }
  done.
Qed.

(** A proper prefix of a unit waits for more. *)
Lemma decode_step_partial u part rest d pos saw eof :
  unit_ok u → part ++ rest = enc u → rest ≠ [] → decode_step (mkReaderS part d pos saw eof) = NeedMore.
Proof.
  intros Hu E Hne. unfold decode_step. cbn [in_buf].
  assert (∃ kind l0 l1 l2 b, enc u = kind :: l0 :: l1 :: l2 :: b ∧ from_le [l0; l1; l2] = zlen b
            ∧ ((kind ≤ 1 ∧ zlen b ≤ SNAPPY_MAX_CHUNK) ∨ 1 < kind)) as (kind & l0 & l1 & l2 & b & Ee & El & Hk).
  { destruct u as [|src]; [by exists 255, 6, 0, 0, [115; 78; 97; 80; 112; 89]; split_and!; [..|right]|].
    destruct (encode_chunk_shape src Hu) as (kind & body & l0 & l1 & l2 & Ee & El & Hb & Hk).
    eexists _, _, _, _, _. split; [exact Ee|]. unfold zlen in *. rewrite length_app, length_to_le.
    unfold SNAPPY_MAX_CHUNK. split; [lia|left]. destruct Hk as [[-> _]|[-> _]]; lia. }
  rewrite Ee in E. destruct part as [|k' [|a0 [|a1 [|a2 part]]]]; try done.
  cbn [app] in E. injection E as -> -> -> -> E. rewrite El.
  assert (zlen part < zlen b) as Hlt.
  { unfold zlen. rewrite <-E, length_app. destruct rest; [done|]. cbn [length]. lia. }
  destruct (Z.leb_spec kind 1); cbn [andb].
  - destruct (Z.ltb_spec SNAPPY_MAX_CHUNK (zlen b)); [lia|].
    destruct (Z.ltb_spec (zlen (kind :: l0 :: l1 :: l2 :: part)) (4 + zlen b)) as [|Hge]; [done|].
    unfold zlen in *. cbn [length] in Hge. lia.
  - destruct (Z.ltb_spec (zlen (kind :: l0 :: l1 :: l2 :: part)) (4 + zlen b)) as [|Hge]; [done|].
    unfold zlen in *. cbn [length] in Hge. lia.
Qed.

Lemma length_enc u : unit_ok u → (4 ≤ length (enc u))%nat.
Proof.
  intros Hu. destruct u as [|src]; [cbn; lia|].
  destruct (encode_chunk_shape src Hu) as (? & ? & ? & ? & ? & E & _). cbn [enc]. rewrite E. cbn. lia.
Qed.

Definition chunks_wire (us : list unit_) : bytes := concat (enc <$> us).
Definition text (us : list unit_) : bytes := concat (plain <$> us).

(** Decoding a prefix of the wire form decodes its whole units and keeps the
    beginning of the next. *)
Lemma decode_loop_units us part rest d pos saw eof progress fuel :
  Forall unit_ok us → readable saw us → part ++ rest = chunks_wire us → (length part < fuel)%nat →
  ∃ done todo progress', us = done ++ todo ∧ readable (saw || negb (bool_decide (done = []))) todo
    ∧ decode_loop fuel progress (mkReaderS part d pos saw eof)
      = (Ok progress', mkReaderS (drop (length (chunks_wire done)) part) (d ++ text done) pos
                         (saw || negb (bool_decide (done = []))) eof)
    ∧ (length (chunks_wire done) ≤ length part)%nat
    ∧ (rest = [] → todo = []).
Proof.
  revert us part d saw progress. induction fuel as [|fuel IH]; intros us part d saw progress Hu Hr E Hf; [lia|].
  destruct us as [|u us].
  { exists [], [], progress. apply app_eq_nil in E as [-> ->]. cbn. rewrite app_nil_r, orb_false_r. done. }
  inversion Hu as [|? ? Hu1 Hu2]; subst. unfold chunks_wire in E. rewrite fmap_cons in E. cbn [concat] in E.
  fold (chunks_wire us) in E. cbn [decode_loop].
  assert (saw = true ∨ u = UMagic) as Hsaw
    by (destruct Hr as [?|[?|(us' & [= ? ?])]]; [by left|done|by right]).
  destruct (decide (length (enc u) ≤ length part)%nat) as [Hle|Hgt].
  - assert (part = enc u ++ drop (length (enc u)) part) as Ep.
    { rewrite <-(take_drop (length (enc u)) part) at 1. f_equal.
      rewrite <-(take_app_le _ rest), E by done. apply take_app_length. }
    set (part' := drop (length (enc u)) part) in *.
    rewrite Ep, decode_step_unit by done.
    pose proof (length_enc u Hu1) as H4.
    destruct (IH us part' (d ++ plain u) true true Hu2 (or_introl eq_refl)) as (dn & td & pr & -> & Hrd & Hdl & Hl & Hrest).
    { rewrite Ep, <-app_assoc in E. by apply app_inv_head in E. }
    { rewrite Ep, length_app in Hf. lia. }
    exists (u :: dn), td, pr. rewrite bool_decide_eq_false_2 by done. cbn [negb]. rewrite orb_true_r.
    split_and!; [done|by left| | |done].
    + rewrite Hdl. cbn [orb]. f_equal. unfold chunks_wire, text. rewrite !fmap_cons. cbn [concat].
      rewrite length_app, <-drop_drop, drop_app_length, app_assoc. done.
    + unfold chunks_wire. rewrite fmap_cons. cbn [concat]. rewrite !length_app. fold (chunks_wire dn). lia.
  - exists [], (u :: us), progress. rewrite bool_decide_eq_true_2 by done. cbn [negb]. rewrite orb_false_r.
    assert (∃ r, part ++ r = enc u ∧ r ≠ []) as (r & Er & Hne).
    { exists (drop (length part) (enc u)). split.
      - rewrite <-(take_drop (length part) (enc u)) at 2. f_equal.
        rewrite <-(take_app_le (enc u) (chunks_wire us)), <-E by lia. by rewrite take_app_length.
      - intros Hn. apply (f_equal length) in Hn. rewrite length_drop in Hn. cbn in Hn. lia. }
    rewrite (decode_step_partial u part r) by done. cbn. rewrite drop_0, app_nil_r.
    split_and!; [done..|lia|]. intros ->. rewrite app_nil_r in E. exfalso. apply Hgt. rewrite E, length_app. lia.
Qed.

(** ** The writing side keeps every accepted byte *)

Record writer_inv (us : list unit_) (w : SnappyWriter) : Prop := {
  wi_wire : sent (w_out w) ++ unsent (w_out w) = chunks_wire us;
  wi_pos : out_ok (w_out w);
  wi_units : Forall unit_ok us;
  wi_readable : readable false us;
  wi_magic : wrote_magic w = negb (bool_decide (us = [])) }.

Lemma wire_app us vs : chunks_wire (us ++ vs) = chunks_wire us ++ chunks_wire vs.
Proof. unfold chunks_wire. by rewrite fmap_app, concat_app. Qed.
Lemma text_app us vs : text (us ++ vs) = text us ++ text vs.
Proof. unfold text. by rewrite fmap_app, concat_app. Qed.

Lemma flush_drain answers inner w : (SnappyStream_poll_flush answers inner w).2 = (poll_drain answers w).1.2.
Proof. unfold SnappyStream_poll_flush. by destruct (poll_drain answers w) as [[[|[[]|e]] w'] ?]. Qed.
Lemma shutdown_drain answers inner w : (SnappyStream_poll_shutdown answers inner w).2 = (poll_drain answers w).1.2.
Proof. unfold SnappyStream_poll_shutdown. by destruct (poll_drain answers w) as [[[|[[]|e]] w'] ?]. Qed.

Lemma drain_inv us answers w p w' answers' :
  writer_inv us w → poll_drain answers w = (p, w', answers') → writer_inv us w'.
Proof.
  intros [] H. unfold poll_drain in H. destruct (flush_out _ _ _) as [[p1 o] a1] eqn:Ef. simplify_eq.
  apply flush_out_spec in Ef as (E & ? & _ & _); [|done]. split; cbn; congruence || done.
Qed.

Lemma queue_inv us src w :
  writer_inv us w → zlen src ≤ SNAPPY_MAX_BLOCK →
  ∃ vs, text vs = src ∧ writer_inv (us ++ vs) (queue_block src w).
Proof.
  intros [Hwire Hpos Hu Hr Hm] Hs. exists ((if wrote_magic w then [] else [UMagic]) ++ [UData src]).
  split; [destruct (wrote_magic w); unfold text; cbn; by rewrite app_nil_r|].
  destruct (queue_spec ((if wrote_magic w then [] else SNAPPY_MAGIC) ++ encode_chunk src) (w_out w) Hpos)
    as (Eq & Hpos' & _).
  split; cbn [w_out wrote_magic queue_block].
  - rewrite Eq, wire_app, <-Hwire. f_equal. rewrite wire_app.
    destruct (wrote_magic w); unfold chunks_wire; cbn; by rewrite ?app_nil_r.
  - done.
  - apply Forall_app. split; [done|]. apply Forall_app. split; [|by apply Forall_singleton].
    destruct (wrote_magic w); constructor; done.
  - right; right. destruct Hr as [?|[-> |(us' & ->)]]; [done| |by eexists].
    rewrite Hm. by eexists.
  - rewrite bool_decide_eq_false_2; [done|]. by destruct us, (wrote_magic w).
Qed.

Lemma write_op_inv us o w a w' :
  writer_inv us w → write_op o w = (a, w') → ∃ vs, writer_inv (us ++ vs) w' ∧ text vs = a.
Proof.
  intros Hw H. destruct o as [answers buf|answers inner|answers inner]; cbn [write_op] in H.
  2,3: rewrite ?flush_drain, ?shutdown_drain in H; destruct (poll_drain answers w) as [[p w1] a1] eqn:Ed;
    simplify_eq/=; exists []; rewrite app_nil_r; eauto using drain_inv.
  assert (∀ w0, writer_inv us w0 → ∃ vs, writer_inv (us ++ vs) w0 ∧ text vs = []) as Hstay
    by (intros w0 Hw0; exists []; by rewrite app_nil_r).
  assert (0 ≤ SNAPPY_MAX_BLOCK) by done.
  unfold SnappyStream_poll_write in H. destruct buf as [|x buf]; [simplify_eq/=; by apply Hstay|].
  set (src := x :: buf) in *. destruct (poll_drain answers w) as [[p0 w0] a0] eqn:Ed.
  pose proof (drain_inv _ _ _ _ _ _ Hw Ed) as Hw0.
  destruct p0 as [|[[]|e]]; [..|simplify_eq; by apply Hstay].
  all: destruct (Z.ltb_spec (4 * SNAPPY_MAX_BLOCK) (zlen (out (w_out w0)) - Z.of_nat (out_pos (w_out w0))));
    [simplify_eq; by apply Hstay|].
  all: destruct (poll_drain a0 _) as [[p1 w1] a1] eqn:El; simplify_eq;
    destruct (queue_inv us (take (Nat.min (length src) (Z.to_nat SNAPPY_MAX_BLOCK)) src) w0 Hw0) as (vs & Et & Hq);
    [unfold zlen; rewrite length_take; lia|eauto using drain_inv].
Qed.

Lemma write_ops_inv ops us w a w' :
  writer_inv us w → write_ops ops w = (a, w') → ∃ vs, writer_inv (us ++ vs) w' ∧ text vs = a.
Proof.
  revert us w a. induction ops as [|o ops IH]; intros us w a Hw H; cbn [write_ops] in H.
  { simplify_eq. exists []. by rewrite app_nil_r. }
  destruct (write_op o w) as [a1 w1] eqn:E1. destruct (write_ops ops w1) as [a2 w2] eqn:E2. simplify_eq.
  destruct (write_op_inv _ _ _ _ _ Hw E1) as (vs1 & Hw1 & <-).
  destruct (IH _ _ _ Hw1 E2) as (vs2 & Hw2 & <-).
  exists (vs1 ++ vs2). rewrite app_assoc, text_app. done.
Qed.

(** ** The reading side delivers what was decoded *)

(** [seen] are the bytes taken from the transport, [o] those delivered. *)
Record reader_inv (us : list unit_) (seen o : bytes) (r : SnappyReader) (dn td : list unit_) : Prop := {
  ri_units : us = dn ++ td;
  ri_in : in_buf r = drop (length (chunks_wire dn)) seen;
  ri_len : (length (chunks_wire dn) ≤ length seen)%nat;
  ri_pos : (dec_pos r ≤ length (dec r))%nat;
  ri_dec : o ++ drop (dec_pos r) (dec r) = text dn;
  ri_readable : readable (saw_magic r) td;
  ri_whole : seen = chunks_wire us → td = [] }.

Lemma wire_drop us dn td seen later :
  us = dn ++ td → (length (chunks_wire dn) ≤ length seen)%nat → seen ++ later = chunks_wire us →
  drop (length (chunks_wire dn)) seen ++ later = chunks_wire td.
Proof.
  intros -> Hl E. rewrite <-drop_app_le, E, wire_app by done. by rewrite drop_app_length.
Qed.

(** A piece from the transport is decoded without error. *)
Lemma decode_piece us seen o r dn td piece later :
  Forall unit_ok us → reader_inv us seen o r dn td → seen ++ piece ++ later = chunks_wire us →
  ∃ progress dn' td' r',
    decode_chunks (mkReaderS (in_buf r ++ piece) (dec r) (dec_pos r) (saw_magic r) (read_eof r)) = (Ok progress, r')
    ∧ reader_inv us (seen ++ piece) o r' dn' td' ∧ read_eof r' = read_eof r.
Proof.
  intros Hu [Hus Hin Hlen Hpos Hdec Hrd Hwh] E.
  pose proof (wire_drop us dn td seen (piece ++ later) Hus Hlen E) as Ew.
  rewrite <-Hin, app_assoc in Ew. subst us. apply Forall_app in Hu as [_ Hu].
  unfold decode_chunks. cbn [in_buf].
  destruct (decode_loop_units td (in_buf r ++ piece) later (dec r) (dec_pos r) (saw_magic r) (read_eof r)
    false (S (length (in_buf r ++ piece))) Hu Hrd Ew) as (d1 & t1 & pr & -> & Hrd1 & Hdl & Hl1 & Hend); [lia|].
  eexists pr, (dn ++ d1), t1, _. split; [exact Hdl|]. split; [|done].
  split; cbn [in_buf dec dec_pos saw_magic].
  - by rewrite app_assoc.
  - rewrite Hin, wire_app, length_app, <-drop_drop. by rewrite (drop_app_le seen) by done.
  - rewrite wire_app, !length_app. rewrite Hin, length_app, length_drop in Hl1. lia.
  - rewrite length_app. lia.
  - rewrite drop_app_le, app_assoc, Hdec, text_app by done. done.
  - done.
  - intros Es. apply Hend. rewrite app_assoc, Es in E. rewrite <-(app_nil_r (chunks_wire _)) in E at 2.
    by apply app_inv_head in E.
Qed.

Definition undelivered (r : SnappyReader) : bytes := drop (dec_pos r) (dec r).

(** Handing decoded bytes to the caller. *)
Lemma deliver_inv us seen o r dn td n :
  reader_inv us seen o r dn td → (dec_pos r + n ≤ length (dec r))%nat →
  reader_inv us seen (o ++ take n (undelivered r))
    (if (dec_pos r + n =? length (dec r))%nat then mkReaderS (in_buf r) [] 0 (saw_magic r) (read_eof r)
     else mkReaderS (in_buf r) (dec r) (dec_pos r + n) (saw_magic r) (read_eof r)) dn td.
Proof.
  intros [Hus Hin Hlen Hpos Hdec Hrd Hwh] Hn. unfold undelivered.
  destruct (Nat.eqb_spec (dec_pos r + n) (length (dec r))); split; cbn; try done; try lia;
    rewrite <-Hdec, <-app_assoc; f_equal.
  - rewrite take_ge, app_nil_r by (rewrite length_drop; lia). done.
  - by rewrite <-drop_drop, take_drop.
Qed.

(** One poll of the reading side. *)
Lemma poll_read_inv us room answers seen o r dn td lost p r' answers' :
  Forall unit_ok us → reader_inv us seen o r dn td → seen ++ received answers ++ lost = chunks_wire us →
  SnappyStream_poll_read room answers r = (p, r', answers') →
  ∃ seen' dn' td', reader_inv us seen' (o ++ poll_bytes p) r' dn' td'
    ∧ seen' ++ received answers' ++ lost = chunks_wire us
    ∧ (∀ e, p = Ready (Err e) → RErr e ∈ answers) ∧ answers' ⊆ answers.
Proof.
  intros Hu. revert seen r dn td. induction answers as [|a answers IH]; intros seen r dn td Hr E H;
    cbn [SnappyStream_poll_read] in H;
    (destruct (Nat.ltb_spec (dec_pos r) (length (dec r))) as [Hlt|Hge]; [|destruct (read_eof r) eqn:Heof]).
  1,4: simplify_eq; exists seen, dn, td; split_and!; [|done..]; apply deliver_inv; [done|lia].
  1-3: simplify_eq; exists seen, dn, td; cbn [poll_bytes]; rewrite app_nil_r; by split_and!.
  assert (received (a :: answers) = answer_bytes a ++ received answers) as Er by done.
  rewrite Er in E. destruct a as [|e|[|x piece]].
  1-3: simplify_eq; exists seen, dn, td; cbn [poll_bytes]; rewrite app_nil_r;
    split_and!; [by destruct Hr|done|intros; simplify_eq; by left|set_solver].
  - cbn [answer_bytes] in E. rewrite <-app_assoc in E.
    destruct (decode_piece us seen o r dn td (x :: piece) (received answers ++ lost) Hu Hr E)
      as (pr & dn' & td' & r1 & Ed & Hr1 & He1).
    rewrite Heof in Ed. rewrite Ed in H.
    eapply IH in H as (s2 & d2 & t2 & ? & ? & Herr & Hsub); [|exact Hr1|by rewrite <-app_assoc].
    exists s2, d2, t2. split_and!; [done..|intros; right; by apply Herr|set_solver].
Qed.

Lemma decode_loop_eof fuel progress r :
  read_eof (decode_loop fuel progress r).2 = read_eof r.
Proof.
  revert progress r. induction fuel as [|fuel IH]; intros progress r; [done|]. cbn [decode_loop].
  destruct (decode_step r) as [|e r'|r'] eqn:Es; [done|..]; rewrite ?IH; cbn [snd];
    unfold decode_step in Es; repeat case_hyp Es; by simplify_eq.
Qed.

(** A poll with space delivers a byte or uses an answer, unless there is
    nothing left to do. *)
Lemma poll_read_progress room answers r p r' answers' :
  (0 < room)%nat → read_eof r = false → RData [] ∉ answers → SnappyStream_poll_read room answers r = (p, r', answers') →
  read_eof r' = false ∧ (length answers' ≤ length answers)%nat
  ∧ (poll_bytes p = [] → (length answers' < length answers)%nat ∨ (answers = [] ∧ undelivered r = [])).
Proof.
  intros Hroom. revert r. induction answers as [|a answers IH]; intros r Heof Hno H; cbn [SnappyStream_poll_read] in H;
    rewrite Heof in H; destruct (Nat.ltb_spec (dec_pos r) (length (dec r))) as [Hlt|Hge].
  1,3: simplify_eq; split_and!; [by case_match|done|]; cbn [poll_bytes]; intros Hn; exfalso;
    apply (f_equal length) in Hn; rewrite length_take, length_drop in Hn; cbn in Hn; lia.
  { simplify_eq. split_and!; [done..|]. right. split; [done|]. by apply drop_ge. }
  destruct a as [|e|[|x piece]]; [simplify_eq; cbn; by auto with lia..|by destruct Hno; left|].
  destruct (decode_chunks _) as [[b|e] r1] eqn:Ed; apply (f_equal (λ z, read_eof z.2)) in Ed;
    unfold decode_chunks in Ed; rewrite decode_loop_eof in Ed; cbn in Ed.
  - apply IH in H as (? & ? & ?); [|done|by intros ?; apply Hno; right]. split_and!; [done|cbn; lia|]. left. cbn. lia.
  - simplify_eq. cbn. split_and!; [done|lia|]. left. lia.
Qed.

(** Any number of polls. *)
Lemma read_polls_inv us rooms answers seen o r dn td lost ps r' answers' :
  Forall unit_ok us → reader_inv us seen o r dn td → seen ++ received answers ++ lost = chunks_wire us →
  read_polls rooms answers r = (ps, r', answers') →
  ∃ seen' dn' td', reader_inv us seen' (o ++ delivered ps) r' dn' td'
    ∧ seen' ++ received answers' ++ lost = chunks_wire us ∧ (∀ e, Ready (Err e) ∈ ps → RErr e ∈ answers).
Proof.
  intros Hu. revert answers seen o r dn td ps.
  induction rooms as [|room rooms IH]; intros answers seen o r dn td ps Hr E H; cbn [read_polls] in H.
  { simplify_eq. exists seen, dn, td. cbn. rewrite app_nil_r. split_and!; [done..|]. by intros ? ?%elem_of_nil. }
  destruct (SnappyStream_poll_read room answers r) as [[p r1] a1] eqn:E1.
  destruct (read_polls rooms a1 r1) as [[ps2 r2] a2] eqn:E2. simplify_eq.
  destruct (poll_read_inv _ _ _ _ _ _ _ _ _ _ _ _ Hu Hr E E1) as (s1 & d1 & t1 & Hr1 & Ew1 & He1 & Hs1).
  destruct (IH _ _ _ _ _ _ _ Hr1 Ew1 E2) as (s2 & d2 & t2 & Hr2 & Ew2 & He2).
  exists s2, d2, t2. unfold delivered in *. cbn [fmap list_fmap concat]. rewrite app_assoc. split_and!; [done..|].
  intros e [Hp|?]%elem_of_cons; [by apply He1|by apply Hs1, He2].
Qed.

Lemma reader_inv_prefix us seen o r dn td : reader_inv us seen o r dn td → o `prefix_of` text us.
Proof.
  intros [-> _ _ _ Hd _ _]. rewrite text_app, <-Hd, <-app_assoc. by apply prefix_app_r.
Qed.

(** Polls enough for every byte and every answer deliver everything. *)
Lemma read_polls_all us rooms answers seen o r dn td ps r' answers' :
  Forall unit_ok us → reader_inv us seen o r dn td → seen ++ received answers = chunks_wire us →
  read_eof r = false → RData [] ∉ answers → Forall (λ room, 0 < room)%nat rooms →
  (length (text us) + length answers ≤ length o + length rooms)%nat →
  read_polls rooms answers r = (ps, r', answers') → o ++ delivered ps = text us.
Proof.
  intros Hu. revert answers seen o r dn td ps.
  induction rooms as [|room rooms IH]; intros answers seen o r dn td ps Hr E He Hno Hrooms Hk H;
    pose proof (reader_inv_prefix _ _ _ _ _ _ Hr) as Hpre.
  { cbn in H. simplify_eq. rewrite app_nil_r. apply prefix_length_eq; [done|]. cbn in Hk. lia. }
  destruct (decide (o = text us)) as [->|Hne].
  { rewrite <-(app_nil_r (received _)) in E.
    destruct (read_polls_inv _ _ _ _ _ _ _ _ _ _ _ _ Hu Hr E H) as (s2 & d2 & t2 & Hr2 & _ & _).
    apply reader_inv_prefix in Hr2. symmetry. apply prefix_length_eq; [by eexists|by apply prefix_length]. }
  inversion Hrooms as [|? ? Hroom Hrooms']; subst. cbn [read_polls] in H.
  destruct (SnappyStream_poll_read room answers r) as [[p r1] a1] eqn:E1.
  destruct (read_polls rooms a1 r1) as [[ps2 r2] a2] eqn:E2. simplify_eq.
  destruct (poll_read_progress _ _ _ _ _ _ Hroom He Hno E1) as (He1 & Hl1 & Hp).
  rewrite <-(app_nil_r (received _)) in E.
  destruct (poll_read_inv _ _ _ _ _ _ _ _ _ _ _ _ Hu Hr E E1) as (s1 & d1 & t1 & Hr1 & Ew1 & _ & Hs1).
  rewrite app_nil_r in Ew1. unfold delivered. cbn [fmap list_fmap concat]. rewrite app_assoc.
  eapply (IH a1 s1 (o ++ poll_bytes p) r1); [done..| |done| |done].
  - intros Hin. by apply Hno, Hs1.
  - rewrite length_app. cbn [length] in Hk. destruct (poll_bytes p) as [|x b] eqn:Eb; [|cbn; lia].
    destruct (Hp eq_refl) as [Hlt|[-> Hd]]; [cbn; lia|]. exfalso. apply Hne.
    assert (seen = chunks_wire us) as Es by (rewrite <-E; cbn; by rewrite !app_nil_r).
    destruct Hr as [-> _ _ _ Hdec _ Hwh]. rewrite (Hwh Es), app_nil_r, <-Hdec. fold (undelivered r). by rewrite Hd, app_nil_r.
Qed.
End snappy.

(** What is read on one side of a snappy stream is what was accepted for
    writing on the other. Take any sequence of writes, flushes and shutdowns
    of a new stream, whatever the transport answers to them, and any polls of a new
    stream that receives, in any pieces, a beginning of the bytes sent. What
    the polls deliver is a beginning of the bytes the writer accepted; they
    report an error only where the transport did, so no chunk is ever
    refused; and when every byte was sent and received, as many polls as there
    are accepted bytes and transport answers, each with space, deliver all of
    it. *)
Theorem snappy_transfer compress decompress ops a w answers lost rooms ps r rest :
  (∀ src c, compress src = Some c → decompress c = Ok src) →
  write_ops compress ops new_writer = (a, w) →
  received answers ++ lost = sent (w_out w) →
  read_polls decompress rooms answers new_reader = (ps, r, rest) →
  delivered ps `prefix_of` a
  ∧ (∀ e, Ready (Err e) ∈ ps → RErr e ∈ answers)
  ∧ (unsent (w_out w) = [] → lost = [] → RData [] ∉ answers → Forall (λ room, 0 < room)%nat rooms →
     (length a + length answers ≤ length rooms)%nat → delivered ps = a).
Proof.
  intros Hsnap Hw Hs Hr.
  destruct (write_ops_inv compress ops [] new_writer a w) as (us & [Hwire _ Hu Hrd _] & Ha); [|done|].
  { split; try done; [unfold out_ok; cbn; lia|by right; left]. }
  rewrite app_nil_l in *. subst a.
  assert (reader_inv compress us [] [] new_reader [] us) as Hr0.
  { split; try done. intros Hn. destruct us as [|u us]; [done|]. exfalso. apply (f_equal length) in Hn.
    inversion Hu as [|? ? Hu1 _]; subst. apply (length_enc compress decompress Hsnap) in Hu1.
    unfold chunks_wire in Hn. rewrite fmap_cons in Hn. cbn in Hn. rewrite length_app in Hn. lia. }
  assert ([] ++ received answers ++ lost ++ unsent (w_out w) = chunks_wire compress us) as Hrw
    by (cbn; by rewrite (app_assoc (received answers)), Hs).
  destruct (read_polls_inv _ _ Hsnap _ _ _ _ _ _ _ _ _ _ _ _ Hu Hr0 Hrw Hr) as (? & ? & ? & Hi & _ & He).
  split_and!; [by apply reader_inv_prefix in Hi|done|].
  intros Hun -> Hno Hrooms Hk. rewrite Hun, app_nil_r in Hrw.
  by eapply (read_polls_all _ _ Hsnap _ _ _ _ [] _ _ _ _ _ _ Hu Hr0 Hrw).
Qed.

(** A toy compressor for the witness: blocks of zeros by their length. *)
Definition toy_compress (src : bytes) : option bytes :=
  if bool_decide (src = replicate (length src) 0) then Some [zlen src] else None.
Definition toy_decompress (c : bytes) : result io_error bytes :=
  match c with [n] => Ok (replicate (Z.to_nat n) 0) | _ => Err (invalid "toy") end.

Definition toy_ops : list WriteOp :=
  [OpWrite [ATake 7] [1; 2; 3]; OpWrite [APending; ATake 5] (replicate 20 0); OpFlush [ATake 1000] (Ready (Ok tt))].
Definition toy_text : bytes := [1; 2; 3] ++ replicate 20 0.
Definition toy_first : bytes := SNAPPY_MAGIC ++ [1; 7; 0].
Definition toy_second : bytes := [0; 57; 205; 192; 134; 1; 2; 3; 0; 5; 0; 0; 98; 100; 0; 79; 20].

Lemma toy_ops_run : write_ops toy_compress toy_ops new_writer = (toy_text, mkWriter (mkOut [] 0 (toy_first ++ toy_second)) true).
Proof. by vm_compute. Qed.

Lemma snappy_transfer_witness :
  delivered (read_polls toy_decompress (replicate 26 2%nat) [RData toy_first; RPending; RData toy_second]
    new_reader).1.1 = toy_text.
Proof.
  destruct (read_polls _ _ _ _) as [[ps r] rest] eqn:Er.
  apply (snappy_transfer toy_compress toy_decompress toy_ops toy_text _ _ [] _ ps r rest) with (2 := toy_ops_run) (4 := Er).
  - intros src c. unfold toy_compress. case_bool_decide as Hz; [|done]. intros [= <-]. cbn.
    unfold zlen. by rewrite Nat2Z.id, <-Hz.
  - reflexivity.
  - reflexivity.
  - reflexivity.
  - rewrite !not_elem_of_cons. split_and!; [done..|apply not_elem_of_nil].
  - apply Forall_replicate. lia.
  - vm_compute. lia.
Defined.

(** ** The backlog of the writing side *)

Section backlog.
Context (compress : bytes → option bytes).

Lemma length_encode_chunk src : (length (encode_chunk compress src) ≤ 8 + length src)%nat.
Proof.
  unfold encode_chunk. destruct (compress src) as [c|]; [destruct (Nat.ltb_spec (length c) (length src - length src / 8))|];
    cbn [length]; rewrite !length_app, length_take, !length_to_le; lia.
Qed.

Definition backlog_ok (w : SnappyWriter) : Prop :=
  out_ok (w_out w) ∧ zlen (unsent (w_out w)) ≤ 4 * SNAPPY_MAX_BLOCK + 10 + 8 + SNAPPY_MAX_BLOCK.

Lemma drain_backlog answers w p w' answers' :
  backlog_ok w → poll_drain answers w = (p, w', answers') → backlog_ok w'.
Proof.
  intros [Hp Hb] H. unfold poll_drain in H. destruct (flush_out _ _ _) as [[p1 o] a1] eqn:Ef. simplify_eq.
  apply flush_out_spec in Ef as (_ & ? & ? & _); [|done]. split; [done|]. unfold zlen in *. cbn. lia.
Qed.

Lemma queue_backlog src w :
  out_ok (w_out w) → zlen (out (w_out w)) - Z.of_nat (out_pos (w_out w)) ≤ 4 * SNAPPY_MAX_BLOCK →
  zlen src ≤ SNAPPY_MAX_BLOCK → backlog_ok (queue_block compress src w).
Proof.
  intros Hp Hb Hs. pose proof (length_encode_chunk src) as Hl. unfold queue_block.
  destruct (queue_spec ((if wrote_magic w then [] else SNAPPY_MAGIC) ++ encode_chunk compress src) (w_out w) Hp)
    as (_ & Hp' & Hlen). split; [done|]. cbn [w_out]. unfold zlen in *. rewrite Hlen.
  unfold unsent. rewrite length_drop, length_app. destruct (wrote_magic w); cbn [length SNAPPY_MAGIC]; lia.
Qed.

Lemma write_op_backlog o w : backlog_ok w → backlog_ok (write_op compress o w).2.
Proof.
  intros Hw. assert (0 ≤ SNAPPY_MAX_BLOCK) by done. destruct o as [answers buf|answers inner|answers inner];
    cbn [write_op].
  2,3: cbn [snd]; rewrite ?flush_drain, ?shutdown_drain; destruct (poll_drain answers w) as [[p w1] a1] eqn:E;
    by eapply drain_backlog.
  unfold SnappyStream_poll_write. destruct buf as [|x buf]; [done|]. set (src := x :: buf).
  destruct (poll_drain answers w) as [[p0 w0] a0] eqn:Ed. pose proof (drain_backlog _ _ _ _ _ Hw Ed) as Hw0.
  destruct p0 as [|[[]|e]]; [..|done].
  all: destruct (Z.ltb_spec (4 * SNAPPY_MAX_BLOCK) (zlen (out (w_out w0)) - Z.of_nat (out_pos (w_out w0)))); [done|].
  all: destruct (poll_drain a0 _) as [[p1 w1] a1] eqn:El; eapply drain_backlog, El; apply queue_backlog;
    [apply Hw0|done|unfold zlen; rewrite length_take; lia].
Qed.
End backlog.

(** The bytes waiting for the transport stay below six blocks. Whatever
    is written, whatever the transport answers and whatever the compressor
    returns, at most four blocks, an identifier and one chunk are queued: a
    caller that never flushes cannot queue more. *)
Theorem snappy_backlog compress ops :
  zlen (unsent (w_out (write_ops compress ops new_writer).2)) ≤ 4 * SNAPPY_MAX_BLOCK + 10 + 8 + SNAPPY_MAX_BLOCK.
Proof.
  assert (∀ w, backlog_ok w → backlog_ok (write_ops compress ops w).2) as H.
  { induction ops as [|o ops IH]; intros w Hw; [done|]. cbn [write_ops].
    pose proof (write_op_backlog compress o w Hw) as H1. destruct (write_op compress o w) as [a1 w1].
    specialize (IH w1 H1). by destruct (write_ops compress ops w1) as [a2 w2]. }
  apply H. split; [unfold out_ok; cbn; lia|done].
Qed.

(** ** The buffer itself is not bounded *)

(** A one-byte write to a transport that takes [taken] bytes, once the caller
    has been let in. *)
Definition write_one (waiting : bool) (taken : nat) : WriteOp :=
  OpWrite ((if waiting then [APending] else []) ++ [ATake taken]) [0].

Section growth.
Context (compress : bytes → option bytes).
Let chunk : bytes := encode_chunk compress [0].

Lemma drain_take k o :
  (0 < k)%nat → (out_pos o + k < length (out o))%nat →
  flush_out stopped_accepting [ATake k] o
  = (Pending, mkOut (out o) (out_pos o + k) (sent o ++ take k (unsent o)), []).
Proof.
  intros H0 Hk. cbn [flush_out]. destruct (Nat.ltb_spec (out_pos o) (length (out o))); [|lia].
  rewrite Nat.min_l by lia. destruct (Nat.eqb_spec k 0); [lia|]. cbn [out out_pos].
  by destruct (Nat.ltb_spec (out_pos o + k) (length (out o))); [|lia].
Qed.

Lemma write_one_step (waiting : bool) k w :
  poll_drain ((if waiting then [APending] else []) ++ [ATake k]) w
    = ((if waiting then Pending else Ready (Ok tt)), w, [ATake k]) →
  (length (out (w_out w)) ≤ out_pos (w_out w) + 1)%nat → (0 < k)%nat →
  let out' := out (w_out w) ++ (if wrote_magic w then [] else SNAPPY_MAGIC) ++ chunk in
  (out_pos (w_out w) + k + 1 = length out')%nat →
  ∃ s, write_op compress (write_one waiting k) w = ([0], mkWriter (mkOut out' (out_pos (w_out w) + k) s) true).
Proof.
  intros Hd Hl H0 out' Hk.
  assert (Nat.min (length [0%Z]) (Z.to_nat SNAPPY_MAX_BLOCK) = 1)%nat as Hn
    by (cbn [length]; unfold SNAPPY_MAX_BLOCK; lia).
  unfold write_one, write_op, SnappyStream_poll_write. rewrite Hn, Hd. change (take 1 [0]) with [0].
  destruct (Z.ltb_spec (4 * SNAPPY_MAX_BLOCK) (zlen (out (w_out w)) - Z.of_nat (out_pos (w_out w))));
    [unfold zlen, SNAPPY_MAX_BLOCK in *; lia|].
  unfold poll_drain. cbn [w_out queue_block].
  rewrite drain_take by (cbn [out out_pos queue]; fold chunk; fold out'; lia). destruct waiting; by eexists.
Qed.

Lemma chunk_pos : (0 < length chunk)%nat.
Proof. unfold chunk, encode_chunk. case_match; cbn; lia. Qed.

(** Writes that leave one byte waiting each. *)
Lemma writes_grow n w :
  wrote_magic w = true → (out_pos (w_out w) + 1 = length (out (w_out w)))%nat →
  let '(a, w') := write_ops compress (replicate n (write_one true (length chunk))) w in
  length a = n ∧ (out_pos (w_out w') + 1 = length (out (w_out w')))%nat
  ∧ (n + length (out (w_out w)) ≤ length (out (w_out w')))%nat.
Proof.
  revert w. induction n as [|n IH]; intros w Hm Hp; [done|]. cbn [replicate write_ops]. pose proof chunk_pos.
  destruct (write_one_step true (length chunk) w) as [s E]; [|lia|lia|rewrite Hm, length_app; cbn; lia|].
  { unfold poll_drain. cbn [app flush_out].
    destruct (Nat.ltb_spec (out_pos (w_out w)) (length (out (w_out w)))); [|lia]. by destruct w as [[] ?]. }
  rewrite E, Hm. cbn [app]. set (w1 := mkWriter _ _).
  specialize (IH w1 eq_refl). destruct (write_ops compress _ w1) as [a2 w2].
  cbn [out out_pos w1 w_out] in IH. rewrite length_app in IH. cbn. destruct IH as (? & ? & ?); [lia|]. split_and!; lia.
Qed.
End growth.

(** The drained beginning of the buffer is released only when the buffer
    empties, so a transport that always leaves a byte waiting lets it grow
    without bound: for every size there are writes, each accepted, after which
    the buffer is larger although one byte waits. *)
Theorem snappy_out_grows compress n :
  ∃ ops, let '(a, w) := write_ops compress ops new_writer in
    length a = length ops ∧ length (unsent (w_out w)) = 1%nat ∧ (n ≤ length (out (w_out w)))%nat.
Proof.
  set (len := length (encode_chunk compress [0])).
  exists (write_one false (9 + len) :: replicate n (write_one true len)). cbn [write_ops].
  destruct (write_one_step compress false (9 + len) new_writer) as [s ->]; [done|cbn; lia|lia|cbn; lia|].
  set (w1 := mkWriter _ _). pose proof (writes_grow compress n w1 eq_refl) as H.
  fold len in H. destruct (write_ops compress _ w1) as [a2 w2]. destruct H as (Ha & Hp & Hl); [cbn; lia|].
  unfold unsent. rewrite length_drop. cbn [length app]. rewrite length_replicate. split_and!; lia.
Qed.
