(* ===== verification/Conn.v ===== *)
(** * Connections and protocol conversations

    What the protocol handlers and connectors share. A connection is the bytes
    its peer will send, how they arrive, and the bytes written to it; the async
    code of a handshake is a state-passing function that reads with
    [read_exact] or [read] and writes with [write_all], and stops at the first
    error as [?] does. Models [ProxyConn] of src/conn.rs and the errors and
    options of src/handler.rs and src/chain.rs. *)

From stdpp Require Import base list option numbers strings sets.
From Stdlib Require Import ZArith Lia.
From S2P Require Import Prelude Text Utf8 Permissions.

(** ** Errors *)

Inductive ChainError : Set :=
| EmptyChain
| Timeout
| ChainIo (e : io_error)
| ProxyError (msg : bytes).

Inductive HandlerError : Set :=
| Io (e : io_error)
| Proxy (msg : bytes)
| AuthFailed
| Forbidden
| ChainFailed (e : ChainError).

#[export] Instance ChainError_eq_dec : EqDecision ChainError.
Proof. solve_decision. Defined.
#[export] Instance HandlerError_eq_dec : EqDecision HandlerError.
Proof. solve_decision. Defined.

(** ** Connections *)

(** [prefix] from [prefix_pos] on is what was read ahead; [rx] is what the peer
    is still to send, in pieces of the sizes [cuts] (then in pieces as large as
    asked for), and [rx_end] the error that ends it, if it is not a clean close.
    [tx] is what was written; [tx_left] bounds the writes that succeed. *)
Record Conn : Set := mkConn {
  prefix : bytes; rx : bytes; cuts : list nat; rx_end : option io_error;
  tx : bytes; tx_left : option nat }.

(** A connection whose peer sends [r] and then closes, and takes every write. *)
Definition talk (r t : bytes) : Conn := mkConn [] r [] None t None.

Definition early_eof : io_error := IoError UnexpectedEof "early eof".
Definition broken_pipe : io_error := IoError BrokenPipe "broken pipe".

Definition conv (E A : Type) : Type := Conn → result E A * Conn.

Definition cret {E A} (a : A) : conv E A := λ c, (Ok a, c).
Definition cfail {E A} (e : E) : conv E A := λ c, (Err e, c).
Definition cbind {E A B} (m : conv E A) (k : A → conv E B) : conv E B :=
  λ c, match m c with (Ok a, c) => k a c | (Err e, c) => (Err e, c) end.
(** [map_err]. *)
Definition cmap_err {E F A} (f : E → F) (m : conv E A) : conv F A :=
  λ c, match m c with (Ok a, c) => (Ok a, c) | (Err e, c) => (Err (f e), c) end.
Definition clift {E A} (r : result E A) : conv E A := λ c, (r, c).

Notation "x <~ m ;; k" := (cbind m (λ x, k)) (at level 100, m at next level, right associativity) : rt_scope.
Notation "m ;;! k" := (cbind m (λ _, k)) (at level 100, right associativity) : rt_scope.

(** [read]: what was read ahead first, then one piece from the peer; nothing
    at the end of the stream. *)
Definition read (n : nat) : conv io_error bytes := λ c,
  match prefix c with
  | _ :: _ => (Ok (take n (prefix c)), mkConn (drop n (prefix c)) (rx c) (cuts c) (rx_end c) (tx c) (tx_left c))
  | [] =>
      match rx c, rx_end c with
      | [], Some e => (Err e, c)
      | [], None => (Ok [], c)
      | _, _ =>
          let '(k, cuts') := match cuts c with [] => (n, []) | k :: ks => (Nat.min n (S k), ks) end in
          (Ok (take k (rx c)), mkConn [] (drop k (rx c)) cuts' (rx_end c) (tx c) (tx_left c))
      end
  end.

(** What is still to be read. *)
Definition incoming (c : Conn) : bytes := prefix c ++ rx c.

(** [read_exact], which takes what there is when there is too little. *)
Definition read_exact (n : nat) : conv io_error bytes := λ c,
  if (n <=? length (incoming c))%nat then
    (Ok (take n (incoming c)),
     mkConn (drop n (prefix c)) (drop (n - length (prefix c)) (rx c)) (cuts c) (rx_end c) (tx c) (tx_left c))
  else (Err (default early_eof (rx_end c)), mkConn [] [] (cuts c) (rx_end c) (tx c) (tx_left c)).

Definition write_all (b : bytes) : conv io_error () := λ c,
  match tx_left c with
  | Some O => (Err broken_pipe, c)
  | Some (S n) => (Ok tt, mkConn (prefix c) (rx c) (cuts c) (rx_end c) (tx c ++ b) (Some n))
  | None => (Ok tt, mkConn (prefix c) (rx c) (cuts c) (rx_end c) (tx c ++ b) None)
  end.

(** [ProxyConn::unread]. *)
Definition unread (b : bytes) (c : Conn) : Conn :=
  match b with
  | [] => c
  | _ => mkConn (b ++ prefix c) (rx c) (cuts c) (rx_end c) (tx c) (tx_left c)
  end.

(** [ProxyConn::peek]: pieces are read until [n] bytes are buffered or the
    stream ends; a piece has at least one byte, so [n] turns are enough. *)
Fixpoint peek_loop (fuel n : nat) (c : Conn) : result io_error () * Conn :=
  match fuel with
  | O => (Ok tt, c)
  | S fuel =>
      if (n <=? length (prefix c))%nat then (Ok tt, c)
      else
        match read (n - length (prefix c)) (mkConn [] (rx c) (cuts c) (rx_end c) (tx c) (tx_left c)) with
        | (Err e, c') => (Err e, mkConn (prefix c) (rx c') (cuts c') (rx_end c') (tx c') (tx_left c'))
        | (Ok [], c') => (Ok tt, mkConn (prefix c) (rx c') (cuts c') (rx_end c') (tx c') (tx_left c'))
        | (Ok b, c') => peek_loop fuel n (mkConn (prefix c ++ b) (rx c') (cuts c') (rx_end c') (tx c') (tx_left c'))
        end
  end.
Definition peek (n : nat) : conv io_error bytes := λ c,
  match peek_loop (S n) n c with
  | (Ok _, c) => (Ok (take n (prefix c)), c)
  | (Err e, c) => (Err e, c)
  end.

(** The handlers' [?] on an I/O call. *)
Definition h_read (n : nat) : conv HandlerError bytes := cmap_err Io (read_exact n).
Definition h_write (b : bytes) : conv HandlerError () := cmap_err Io (write_all b).

(** ** Options of a handler *)

(** The fields of [HandlerOptions] the modelled handlers use. A trait object is
    its method: the authenticator is its [authenticate], the bypass its
    [contains]. [users] are the listener's inline credentials. *)
Record HandlerOptions : Type := mkOptions {
  users : list (bytes * option bytes);
  authenticator : option (bytes → bytes → bool);
  whitelist : option Permissions;
  blacklist : option Permissions;
  bypass : option (bytes → bool);
  retries : nat;
  timeout : Z;
}.

Definition requires_auth (o : HandlerOptions) : bool :=
  match users o, authenticator o with [], None => false | _, _ => true end.

Definition may (action : string) (o : HandlerOptions) (target : bytes) : bool :=
  Can (str action) target (whitelist o) (blacklist o).

Definition bypassed (o : HandlerOptions) (target : bytes) : bool :=
  match bypass o with Some b => b target | None => false end.

(** ** Reading and writing *)

Lemma read_exact_ok n c :
  (n ≤ length (incoming c))%nat →
  read_exact n c = (Ok (take n (incoming c)),
    mkConn (drop n (prefix c)) (drop (n - length (prefix c)) (rx c)) (cuts c) (rx_end c) (tx c) (tx_left c)).
Proof. intros Hn. unfold read_exact. by destruct (Nat.leb_spec n (length (incoming c))); [|lia]. Qed.

Lemma incoming_drop n c :
  drop n (prefix c) ++ drop (n - length (prefix c)) (rx c) = drop n (incoming c).
Proof. unfold incoming. by rewrite drop_app. Qed.

(** What [read_exact] takes and leaves. *)
Lemma read_exact_inv n c b c' :
  read_exact n c = (Ok b, c') →
  incoming c = b ++ incoming c' ∧ length b = n ∧ tx c' = tx c ∧ tx_left c' = tx_left c ∧ rx_end c' = rx_end c.
Proof.
  unfold read_exact. destruct (Nat.leb_spec n (length (incoming c))); [|done]. intros [= <- <-].
  split_and!; try done; [|rewrite length_take; lia].
  rewrite <-(take_drop n (incoming c)) at 1. f_equal. by rewrite <-incoming_drop.
Qed.

Lemma read_exact_talk n a b t : length a = n → read_exact n (talk (a ++ b) t) = (Ok a, talk b t).
Proof.
  intros <-. rewrite read_exact_ok by (cbn; rewrite length_app; lia). cbn.
  by rewrite take_app_length, Nat.sub_0_r, drop_app_length, drop_nil.
Qed.

Lemma write_all_talk b r t : write_all b (talk r t) = (Ok tt, talk r (t ++ b)).
Proof. done. Qed.

Lemma h_read_talk n a b t : length a = n → h_read n (talk (a ++ b) t) = (Ok a, talk b t).
Proof. intros H. unfold h_read, cmap_err. by rewrite read_exact_talk. Qed.

Lemma h_write_talk b r t : h_write b (talk r t) = (Ok tt, talk r (t ++ b)).
Proof. done. Qed.

Lemma cbind_ok {E A B} (m : conv E A) (k : A → conv E B) c a c' : m c = (Ok a, c') → cbind m k c = k a c'.
Proof. intros H. unfold cbind. by rewrite H. Qed.

Lemma cbind_ret {E A B} (a : A) (k : A → conv E B) c : cbind (cret a) k c = k a c.
Proof. done. Qed.

Lemma cbind_inv {E A B} (m : conv E A) (k : A → conv E B) c r c' :
  cbind m k c = (r, c') →
  (∃ a c1, m c = (Ok a, c1) ∧ k a c1 = (r, c')) ∨ (∃ e, m c = (Err e, c') ∧ r = Err e).
Proof. unfold cbind. destruct (m c) as [[a|e] c1]; [left; eauto|]. intros [= <- <-]. right. eauto. Qed.

Lemma cbind_assoc {E A B C} (m : conv E A) (k : A → conv E B) (l : B → conv E C) c :
  cbind (cbind m k) l c = cbind m (λ a, cbind (k a) l) c.
Proof. unfold cbind. by destruct (m c) as [[a|e] c1]. Qed.

(** A conversation keeps to its connection: it only takes from what comes in
    and only adds to what went out. *)
Class Convo {E A} (m : conv E A) : Prop :=
  convo c r c' : m c = (r, c') → (∃ b, incoming c = b ++ incoming c') ∧ tx c `prefix_of` tx c'.

#[export] Instance convo_ret {E A} (a : A) : Convo (cret (E := E) a).
Proof. intros c r c' [= <- <-]. split; [by exists []|done]. Qed.
#[export] Instance convo_fail {E A} (e : E) : Convo (cfail (A := A) e).
Proof. intros c r c' [= <- <-]. split; [by exists []|done]. Qed.
#[export] Instance convo_lift {E A} (x : result E A) : Convo (clift x).
Proof. intros c r c' [= <- <-]. split; [by exists []|done]. Qed.
#[export] Instance convo_bind {E A B} (m : conv E A) (k : A → conv E B) :
  Convo m → (∀ a, Convo (k a)) → Convo (cbind m k).
Proof.
  intros Hm Hk c r c' H. apply cbind_inv in H as [(a & c1 & H1 & H2)|(e & H1 & _)]; [|by eapply Hm].
  apply Hm in H1 as [[b1 E1] P1]. apply Hk in H2 as [[b2 E2] P2]. split; [|by etrans].
  exists (b1 ++ b2). by rewrite E1, E2, app_assoc.
Qed.
#[export] Instance convo_map_err {E F A} (f : E → F) (m : conv E A) : Convo m → Convo (cmap_err f m).
Proof. intros Hm c r c' H. unfold cmap_err in H. destruct (m c) as [[a|e] c1] eqn:E1; simplify_eq; by eapply Hm. Qed.
#[export] Instance convo_read_exact n : Convo (read_exact n).
Proof.
  intros c r c' H. unfold read_exact in H. destruct (n <=? length (incoming c))%nat; simplify_eq; cbn.
  - split; [|done]. exists (take n (incoming c)). rewrite <-(take_drop n (incoming c)) at 1. f_equal.
    by rewrite <-incoming_drop.
  - split; [|done]. exists (incoming c). cbn. by rewrite app_nil_r.
Qed.
#[export] Instance convo_write_all b : Convo (write_all b).
Proof.
  intros c r c' H. unfold write_all in H. destruct (tx_left c) as [[|n]|]; simplify_eq; cbn;
    (split; [by exists []|]); done || by eexists.
Qed.
#[export] Instance convo_read n : Convo (read n).
Proof.
  intros c r c' H. unfold read in H. destruct (prefix c) as [|x p] eqn:Ep.
  - destruct (rx c) as [|y l] eqn:Er.
    { destruct (rx_end c); simplify_eq; (split; [by exists []|done]). }
    assert (∃ k ks, (Ok (take k (rx c)), mkConn [] (drop k (rx c)) ks (rx_end c) (tx c) (tx_left c)) = (r, c'))
      as (k & ks & Hk) by (rewrite Er; destruct (cuts c); destruct (rx_end c); eauto).
    simplify_eq. split; [|done]. exists (take k (rx c)). unfold incoming. rewrite Ep. cbn. by rewrite take_drop.
  - simplify_eq. split; [|done]. exists (take n (x :: p)). unfold incoming. rewrite Ep. cbn [prefix rx].
    by rewrite app_assoc, take_drop.
Qed.
#[export] Instance convo_if {E A} (b : bool) (m k : conv E A) : Convo m → Convo k → Convo (if b then m else k).
Proof. by destruct b. Qed.
#[export] Instance convo_h_read n : Convo (h_read n).
Proof. apply _. Qed.
#[export] Instance convo_h_write b : Convo (h_write b).
Proof. apply _. Qed.

(** Peeking takes nothing: the bytes seen are the first of those to be read,
    [n] of them unless the stream is shorter. *)
Lemma peek_loop_spec fuel n c c' :
  (n ≤ fuel + length (prefix c))%nat → rx_end c = None → peek_loop (S fuel) n c = (Ok tt, c') →
  incoming c' = incoming c ∧ tx c' = tx c ∧ prefix c `prefix_of` prefix c'
  ∧ (length (prefix c') < n → rx c' = [])%nat.
Proof.
  revert c. induction fuel as [|fuel IH]; intros c Hf He H.
  - cbn [peek_loop] in H. destruct (Nat.leb_spec n (length (prefix c))); [|lia]. simplify_eq. split_and!; try done. lia.
  - remember (S fuel) as f eqn:Ef. cbn [peek_loop] in H. subst f.
    destruct (Nat.leb_spec n (length (prefix c))); [simplify_eq; split_and!; try done; lia|].
    unfold read in H. cbn [prefix rx rx_end cuts] in H. rewrite He in H. destruct (rx c) as [|x l] eqn:Er.
    { simplify_eq. unfold incoming. cbn. rewrite Er. by split_and!. }
    set (kc := match cuts c with [] => _ | _ => _ end) in H. destruct kc as [k ks] eqn:Ek.
    assert (0 < k)%nat as Hk.
    { unfold kc in Ek. destruct (cuts c); simplify_eq; lia. }
    destruct (take k (x :: l)) as [|y b] eqn:Et; [by destruct k; [lia|]|]. cbn [rx cuts rx_end tx tx_left] in H.
    apply IH in H as (E & Ht & Hp & Hl); [|cbn; rewrite length_app; cbn; lia|done]. cbn in *.
    split_and!; [|done| |done].
    + rewrite E. unfold incoming. cbn. by rewrite Er, <-app_assoc, <-Et, take_drop.
    + etrans; [|exact Hp]. by eexists.
Qed.
