(* ===== verification/Socks5Addr.v ===== *)
(** * SOCKS5 addresses and datagrams

    The address codec of src/socks5.rs: [encode_address], [read_address],
    [skip_address], [join_host_port], [parse_address], the reply writer and the
    UDP datagram header. Hosts are text; a host that is an IP literal travels
    as its octets and comes back in canonical form. *)

From stdpp Require Import base list option numbers strings sets.
From Stdlib Require Import ZArith Lia.
From S2P Require Import Prelude Text Utf8 IpAddr Permissions Conn.

Definition SOCKS5_VERSION : Z := 5.
Definition ATYP_IPV4 : Z := 1.
Definition ATYP_DOMAIN : Z := 3.
Definition ATYP_IPV6 : Z := 4.

Definition join_host_port (host : bytes) (port : Z) : bytes :=
  if contains_char ch_colon host then [ch_lbracket] ++ host ++ [ch_rbracket; ch_colon] ++ show_int port
  else host ++ [ch_colon] ++ show_int port.

Definition parse_address (addr : bytes) : result HandlerError (bytes * Z) :=
  match split_host_port addr with
  | Err _ => Err (Proxy (str "invalid address: " ++ addr))
  | Ok (host, port_str) =>
      match parse_u16 port_str with
      | None => Err (Proxy (str "invalid port: " ++ port_str))
      | Some port => Ok (host, port)
      end
  end.

Definition encode_address (host : bytes) (port : Z) : bytes :=
  (match parse_ipv4 host with
   | Some os => ATYP_IPV4 :: os
   | None =>
       match parse_ipv6 host with
       | Some gs => ATYP_IPV6 :: segs_octets gs
       | None => ATYP_DOMAIN :: u8 (zlen host) :: host
       end
   end) ++ to_be 2 port.

Definition read_address (atyp : Z) : conv HandlerError (bytes * Z) :=
  host <~ (if atyp =? ATYP_IPV4 then addr <~ h_read 4 ;; cret (show_ipv4 addr)
            else if atyp =? ATYP_DOMAIN then
              len <~ h_read 1 ;;
              domain <~ h_read (Z.to_nat (from_be len)) ;;
              cret (from_utf8_lossy domain)
            else if atyp =? ATYP_IPV6 then addr <~ h_read 16 ;; cret (show_ipv6 (octets_segs addr))
            else cfail (Proxy (str "unsupported atyp: " ++ show_int atyp))) ;;
  port_buf <~ h_read 2 ;;
  cret (host, from_be port_buf).

Definition skip_address (atyp : Z) : conv HandlerError () :=
  if atyp =? ATYP_IPV4 then h_read 6 ;;! cret tt
  else if atyp =? ATYP_DOMAIN then len <~ h_read 1 ;; h_read (Z.to_nat (from_be len) + 2) ;;! cret tt
  else if atyp =? ATYP_IPV6 then h_read 18 ;;! cret tt
  else cret tt.

(** What [send_reply] writes: a name that is no IP literal is sent as zeros. *)
Definition reply_bytes (rep : Z) (addr : bytes) (port : Z) : bytes :=
  [SOCKS5_VERSION; rep; 0]
  ++ (match parse_ipv4 addr with
      | Some os => ATYP_IPV4 :: os
      | None =>
          match parse_ipv6 addr with
          | Some gs => ATYP_IPV6 :: segs_octets gs
          | None => [ATYP_IPV4; 0; 0; 0; 0]
          end
      end) ++ to_be 2 port.

Definition send_reply (rep : Z) (addr : bytes) (port : Z) : conv HandlerError () :=
  h_write (reply_bytes rep addr port).

Definition unspecified : bytes := str "0.0.0.0".

(** ** UDP datagrams *)

(** [parse_udp_datagram]: fragment number, host, port and where the data begin. *)
Definition parse_udp_datagram (b : bytes) : option (Z * bytes * Z * nat) :=
  match b with
  | _ :: _ :: frag :: atyp :: ((first :: _) as rest) =>
      let host :=
        if atyp =? ATYP_IPV4 then
          if (length rest <? 4)%nat then None else Some (show_ipv4 (take 4 rest), 8%nat)
        else if atyp =? ATYP_DOMAIN then
          let len := Z.to_nat first in
          if (len =? 0)%nat || (length b <? 5 + len)%nat then None
          else Some (from_utf8_lossy (take len (drop 5 b)), (5 + len)%nat)
        else if atyp =? ATYP_IPV6 then
          if (length rest <? 16)%nat then None else Some (show_ipv6 (octets_segs (take 16 rest)), 20%nat)
        else None in
      match host with
      | None => None
      | Some (h, i) =>
          if (length b <? i + 2)%nat then None
          else Some (frag, h, from_be (take 2 (drop i b)), (i + 2)%nat)
      end
  | _ => None
  end.

Record SocketAddr : Set := mkAddr { sa_ip : IpAddr; sa_port : Z }.

#[export] Instance SocketAddr_eq_dec : EqDecision SocketAddr.
Proof. solve_decision. Defined.

(** [SocketAddr::to_string]. *)
Definition show_addr (a : SocketAddr) : bytes :=
  match sa_ip a with
  | V4 os => show_ipv4 os ++ [ch_colon] ++ show_int (sa_port a)
  | V6 gs => [ch_lbracket] ++ show_ipv6 gs ++ [ch_rbracket; ch_colon] ++ show_int (sa_port a)
  end.

Definition encode_udp_datagram (addr : SocketAddr) (data : bytes) : bytes :=
  [0; 0; 0] ++ encode_address (show_ip (sa_ip addr)) (sa_port addr) ++ data.

(** ** Canonical hosts *)

(** The form in which the peer sees a host. *)
Definition canon (host : bytes) : bytes :=
  match parse_ipv4 host with
  | Some os => show_ipv4 os
  | None => match parse_ipv6 host with Some gs => show_ipv6 gs | None => host end
  end.

(** Hosts that can be sent: IP literals, and text, not empty, of at most 255
    bytes. *)
Definition name_ok (host : bytes) : Prop :=
  utf8_ok host = true ∧ is_bytes host ∧ host ≠ [] ∧ (length host ≤ 255)%nat.
Definition host_ok (host : bytes) : Prop :=
  name_ok host ∨ is_Some (parse_ipv4 host) ∨ is_Some (parse_ipv6 host).

Definition port_ok (port : Z) : Prop := 0 ≤ port ≤ u16_max.

(** A test for [host_ok]. *)
Lemma host_ok_dec_intro host :
  (utf8_ok host && forallb (λ x, (0 <=? x) && (x <? 256)) host && negb (length host =? 0)%nat
   && (length host <=? 255)%nat) = true → host_ok host.
Proof.
  rewrite !andb_true_iff, forallb_forall, negb_true_iff, Nat.eqb_neq, Nat.leb_le. intros [[[Hu Hb] Hz] Hl].
  left. split_and!; [done| |by intros ->|done]. apply Forall_forall. intros x Hx.
  apply list_elem_of_In, Hb, andb_true_iff in Hx as [?%Z.leb_le ?%Z.ltb_lt]. unfold is_byte. lia.
Qed.

(** Values read by the address parsers are in range. *)
Lemma read_digits_range radix bound room acc s v n rest :
  0 ≤ acc ≤ bound → 0 ≤ radix → read_digits radix bound room acc s = Some (v, n, rest) → 0 ≤ v ≤ bound.
Proof.
  intros Ha Hr. revert room acc v n rest Ha. induction s as [|c s IH]; intros room acc v n rest Ha H.
  { destruct room; cbn in H; by simplify_eq. }
  assert (∀ d, digit_of radix c = Some d → 0 ≤ d) as Hd.
  { intros d. unfold digit_of, hex_digit, is_digit. repeat case_goal; intros; simplify_eq; zbool; lia. }
  destruct room; cbn [read_digits] in H; destruct (digit_of radix c) as [d|] eqn:Ed; simplify_eq; try done;
    destruct (Z.ltb_spec bound (acc * radix + d)); try done.
  destruct (read_digits _ _ _ _ s) as [[[v' n'] r']|] eqn:E; [|done]. simplify_eq.
  apply IH in E; [done|]. specialize (Hd d eq_refl). nia.
Qed.

Lemma read_number_range radix md bound z s v rest :
  0 ≤ bound → 0 ≤ radix → read_number radix md bound z s = Some (v, rest) → 0 ≤ v ≤ bound.
Proof.
  intros Hb Hr. unfold read_number. destruct (read_digits _ _ _ _ _) as [[[v' n] r]|] eqn:E; [|done].
  repeat case_goal; intros; simplify_eq. eapply read_digits_range; [|done|exact E]. lia.
Qed.

Lemma read_octets_range n i s os rest :
  read_octets n i s = Some (os, rest) → length os = n ∧ Forall (λ o, 0 ≤ o ≤ 255) os.
Proof.
  revert i s os rest. induction n as [|n IH]; intros i s os rest H; cbn [read_octets] in H; [by simplify_eq|].
  destruct (read_separator _ _ _ s) as [[o s1]|] eqn:Es; [|done].
  destruct (read_octets n (S i) s1) as [[os' s2]|] eqn:Eo; [|done]. simplify_eq.
  apply IH in Eo as [Hl Ho]. cbn. split; [lia|]. constructor; [|done].
  unfold read_separator in Es. repeat case_hyp Es; try done; apply read_number_range in Es; lia.
Qed.

Lemma parse_ipv4_ok s os : parse_ipv4 s = Some os → ip_ok (V4 os).
Proof.
  unfold parse_ipv4. destruct (read_ipv4_addr s) as [[os' [|]]|] eqn:E; intros; simplify_eq.
  by apply read_octets_range in E.
Qed.

Lemma read_groups_range limit i s gs v4 rest :
  read_groups limit i s = (gs, v4, rest) → (length gs ≤ limit)%nat ∧ Forall (λ g, 0 ≤ g ≤ 65535) gs.
Proof.
  revert i s gs v4 rest. induction limit as [|limit IH]; intros i s gs v4 rest H; cbn [read_groups] in H; [by simplify_eq|].
  set (q := if (1 <=? limit)%nat then _ else None) in H.
  assert (∀ os s', q = Some (os, s') → (1 ≤ limit)%nat ∧ length os = 4%nat ∧ Forall (λ o, 0 ≤ o ≤ 255) os) as Hq.
  { intros os s' Hq. unfold q in Hq. destruct (Nat.leb_spec 1 limit); [|done].
    unfold read_separator in Hq. repeat case_hyp Hq; try done; apply read_octets_range in Hq; naive_solver. }
  clearbody q. assert (∀ gs v4 rest, match read_separator ch_colon i (read_number 16 4 65535 true) s with
      | Some (g, s') => let '(gs, v4, s'') := read_groups limit (S i) s' in (g :: gs, v4, s'')
      | None => ([], false, s) end = (gs, v4, rest) → (length gs ≤ S limit)%nat ∧ Forall (λ g, 0 ≤ g ≤ 65535) gs) as Hn.
  { intros gs' v4' rest' Hn. clear H.
    destruct (read_separator ch_colon i (read_number 16 4 65535 true) s) as [[g s']|] eqn:Es;
      [|simplify_eq; cbn; split; [lia|done]].
    destruct (read_groups limit (S i) s') as [[gs1 v1] s1] eqn:Eg. simplify_eq. apply IH in Eg as [Hl Hg].
    cbn. split; [lia|]. constructor; [|done]. unfold read_separator in Es. repeat case_hyp Es; try done;
      apply read_number_range in Es; lia. }
  destruct q as [[os s']|] eqn:Eq; [|by apply Hn in H]. destruct (Hq _ _ eq_refl) as (H1 & Hl & Ho).
  destruct os as [|a [|b [|c [|d [|? ?]]]]]; try done. simplify_eq.
  repeat match goal with H : Forall _ (_ :: _) |- _ => inversion H; subst; clear H end.
  cbn. split; [lia|]. repeat constructor; lia.
Qed.

Lemma read_ipv6_range s gs rest : read_ipv6_addr s = Some (gs, rest) → ip_ok (V6 gs).
Proof.
  unfold read_ipv6_addr. destruct (read_groups 8 0 s) as [[hd v4] s1] eqn:Eh.
  apply read_groups_range in Eh as [Hl Hg].
  destruct (Nat.eqb_spec (length hd) 8).
  { intros; simplify_eq. by split. }
  destruct v4; [done|]. destruct (read_char ch_colon s1) as [s2|]; [|done].
  destruct (read_char ch_colon s2) as [s3|]; [|done].
  destruct (read_groups (8 - (length hd + 1)) 0 s3) as [[tl v] s4] eqn:Et.
  apply read_groups_range in Et as [Hl2 Hg2]. intros; simplify_eq.
  split; [rewrite !length_app, length_replicate; lia|]. rewrite !Forall_app. split_and!; [done| |done].
  apply Forall_replicate. lia.
Qed.

Lemma parse_ipv6_ok s gs : parse_ipv6 s = Some gs → ip_ok (V6 gs).
Proof.
  unfold parse_ipv6. destruct (read_ipv6_addr s) as [[gs' [|]]|] eqn:E; intros; simplify_eq. by eapply read_ipv6_range.
Qed.

(** ** The codec *)

Lemma from_be_one x : from_be [x] = x.
Proof. cbn. lia. Qed.

Lemma from_be_port port : port_ok port → from_be (to_be 2 port) = port.
Proof. intros Hp. apply from_to_be. unfold port_ok, u16_max in Hp. cbn. lia. Qed.

(** The body of an encoded address, by type, and what reading it gives. *)
Inductive addr_body : bytes → Z → bytes → bytes → Prop :=
| body_v4 os : ip_ok (V4 os) → addr_body (show_ipv4 os) ATYP_IPV4 [] os
| body_v6 gs : ip_ok (V6 gs) → addr_body (show_ipv6 gs) ATYP_IPV6 [] (segs_octets gs)
| body_domain host : name_ok host → addr_body host ATYP_DOMAIN [zlen host] host.

Lemma encode_address_body host port :
  host_ok host →
  ∃ atyp len b, addr_body (canon host) atyp len b ∧ encode_address host port = atyp :: len ++ b ++ to_be 2 port.
Proof.
  intros Hh. unfold encode_address, canon. destruct (parse_ipv4 host) as [os|] eqn:E4.
  { exists ATYP_IPV4, [], os. split; [|done]. constructor. by eapply parse_ipv4_ok. }
  destruct (parse_ipv6 host) as [gs|] eqn:E6.
  { exists ATYP_IPV6, [], (segs_octets gs). split; [|done]. constructor. by eapply parse_ipv6_ok. }
  destruct Hh as [Hh|[[? ?]|[? ?]]]; [|congruence..].
  exists ATYP_DOMAIN, [zlen host], host. split; [by constructor|].
  destruct Hh as (_ & _ & _ & Hl). unfold wrap. rewrite Z.mod_small; [done|]. unfold zlen. lia.
Qed.

Lemma addr_body_len h atyp len b :
  addr_body h atyp len b →
  (atyp = ATYP_IPV4 ∧ len = [] ∧ length b = 4%nat) ∨ (atyp = ATYP_IPV6 ∧ len = [] ∧ length b = 16%nat)
  ∨ (atyp = ATYP_DOMAIN ∧ len = [zlen b] ∧ (0 < length b ≤ 255)%nat).
Proof.
  intros [os [Hl _]|gs [Hl _]|host (_ & _ & Hne & Hl)]; [by left|right; left|right; right].
  - by rewrite length_segs_octets, Hl.
  - split_and!; [done..| |lia]. destruct host; [done|]. cbn. lia.
Qed.

Lemma zlen_to_nat {A} (l : list A) : Z.to_nat (zlen l) = length l.
Proof. unfold zlen. by rewrite Nat2Z.id. Qed.

(** What [encode_address] writes, [read_address] reads back in canonical form
    and [skip_address] skips, leaving what follows. *)
Lemma read_encoded_address host port rest t :
  host_ok host → port_ok port →
  ∃ atyp body, encode_address host port = atyp :: body
    ∧ read_address atyp (talk (body ++ rest) t) = (Ok (canon host, port), talk rest t)
    ∧ skip_address atyp (talk (body ++ rest) t) = (Ok tt, talk rest t).
Proof.
  intros Hh Hp. destruct (encode_address_body host port Hh) as (atyp & len & b & Hb & ->).
  eexists _, _. split; [reflexivity|]. rewrite <-!app_assoc. unfold read_address, skip_address.
  pose proof (addr_body_len _ _ _ _ Hb) as Hlen. pose proof (length_to_be 2 port) as Hl2.
  destruct Hlen as [(-> & -> & Hl)|[(-> & -> & Hl)|(-> & -> & Hl)]]; cbn [app Z.eqb ATYP_IPV4 ATYP_DOMAIN ATYP_IPV6 Pos.eqb].
  - split.
    + rewrite cbind_assoc, (cbind_ok _ _ _ b (talk (to_be 2 port ++ rest) t)) by (by apply h_read_talk).
      rewrite cbind_ret, (cbind_ok _ _ _ (to_be 2 port) (talk rest t)) by (by apply h_read_talk).
      rewrite from_be_port by done. unfold cret.
      inversion Hb; subst; done.
    + rewrite (app_assoc b). erewrite cbind_ok; [|apply h_read_talk; rewrite length_app; lia]. done.
  - split.
    + rewrite cbind_assoc, (cbind_ok _ _ _ b (talk (to_be 2 port ++ rest) t)) by (by apply h_read_talk).
      rewrite cbind_ret, (cbind_ok _ _ _ (to_be 2 port) (talk rest t)) by (by apply h_read_talk).
      rewrite from_be_port by done. unfold cret.
      inversion Hb; subst. by rewrite segs_octets_back.
    + rewrite (app_assoc b). erewrite cbind_ok; [|apply h_read_talk; rewrite length_app; lia]. done.
  - change (zlen b :: b ++ to_be 2 port ++ rest) with ([zlen b] ++ b ++ to_be 2 port ++ rest).
    split.
    + rewrite cbind_assoc, (cbind_ok _ _ _ [zlen b] (talk (b ++ to_be 2 port ++ rest) t)) by (by apply h_read_talk).
      rewrite from_be_one, zlen_to_nat, cbind_assoc, (cbind_ok _ _ _ b (talk (to_be 2 port ++ rest) t)) by (by apply h_read_talk).
      rewrite cbind_ret, (cbind_ok _ _ _ (to_be 2 port) (talk rest t)) by (by apply h_read_talk).
      rewrite from_be_port by done. unfold cret.
      inversion Hb as [| |? Hho]; subst. destruct Hho as [Hu _]. by rewrite lossy_valid.
    + rewrite (cbind_ok _ _ _ [zlen b] (talk (b ++ to_be 2 port ++ rest) t)) by (by apply h_read_talk).
      rewrite from_be_one, zlen_to_nat, (app_assoc b).
      erewrite cbind_ok; [|apply h_read_talk; rewrite length_app; lia]. done.
Qed.

(** A datagram's header is read back, with or without data behind it. *)
Lemma parse_encoded_datagram r0 r1 frag host port data :
  host_ok host → port_ok port →
  parse_udp_datagram (r0 :: r1 :: frag :: encode_address host port ++ data)
  = Some (frag, canon host, port, 3 + length (encode_address host port))%nat.
Proof.
  intros Hh Hp. destruct (encode_address_body host port Hh) as (atyp & len & b & Hb & ->).
  pose proof (addr_body_len _ _ _ _ Hb) as Hlen. pose proof (length_to_be 2 port) as Hl2.
  destruct Hlen as [(-> & -> & Hl)|[(-> & -> & Hl)|(-> & -> & Hl)]].
  - assert (canon host = show_ipv4 b) as -> by (by inversion Hb). rewrite <-(from_be_port port) at 2 by done.
    clear Hb Hh Hp. do 4 (destruct b as [|? b]; [done|]). destruct b; [|done].
    by destruct (to_be 2 port) as [|p0 [|p1 [|]]].
  - assert (canon host = show_ipv6 (octets_segs b)) as -> by (inversion Hb; subst; by rewrite segs_octets_back).
    rewrite <-(from_be_port port) at 2 by done.
    clear Hb Hh Hp. do 16 (destruct b as [|? b]; [done|]). destruct b; [|done].
    by destruct (to_be 2 port) as [|p0 [|p1 [|]]].
  - cbn [parse_udp_datagram app Z.eqb Pos.eqb ATYP_IPV4 ATYP_DOMAIN ATYP_IPV6]. rewrite zlen_to_nat.
    destruct (Nat.eqb_spec (length b) 0); [lia|]. cbn [orb]. rewrite <-!app_assoc.
    destruct (Nat.ltb_spec (length (r0 :: r1 :: frag :: ATYP_DOMAIN :: zlen b :: b ++ to_be 2 port ++ data)) (5 + length b)) as [Hlt|_].
    { cbn [length] in Hlt. rewrite !length_app in Hlt. lia. }
    destruct (Nat.ltb_spec (length (r0 :: r1 :: frag :: ATYP_DOMAIN :: zlen b :: b ++ to_be 2 port ++ data)) (5 + length b + 2)) as [Hlt|_].
    { cbn [length] in Hlt. rewrite !length_app in Hlt. lia. }
    cbn [drop Nat.add]. rewrite drop_0, take_app_length, drop_app_length, take_app_exact, from_be_port by done.
    inversion Hb as [| |? Hho]; subst. destruct Hho as [Hu _]. rewrite lossy_valid by done.
    f_equal. f_equal. cbn [length]. rewrite length_app. lia.
Qed.

Lemma read_groups_v4 l s a b c d r :
  read_ipv4_addr s = Some ([a; b; c; d], r) → read_groups (S (S l)) 0 s = ([a * 256 + b; c * 256 + d], true, r).
Proof. intros H. cbn [read_groups read_separator Nat.eqb Nat.leb]. by rewrite H. Qed.

(** A canonical host is the same address. *)
Lemma canon_same host : parse_ip (canon host) = parse_ip host.
Proof.
  unfold canon. destruct (parse_ipv4 host) as [os|] eqn:E4.
  { pose proof (parse_ipv4_ok _ _ E4) as Hok. apply parse_show_ip in Hok as E. cbn [show_ip] in E. rewrite E. unfold parse_ipv4 in E4. unfold parse_ip.
    destruct (read_ipv4_addr host) as [[os' [|]]|]; simplify_eq. done. }
  destruct (parse_ipv6 host) as [gs|] eqn:E6; [|done].
  pose proof (parse_ipv6_ok _ _ E6) as Hok. apply parse_show_ip in Hok as Es. cbn [show_ip] in Es. rewrite Es. unfold parse_ip.
  destruct (read_ipv4_addr host) as [[os r]|] eqn:E; unfold parse_ipv6 in E6.
  - pose proof E as Er. apply read_octets_range in Er as [Hl _]. destruct os as [|a [|b [|c [|d [|? ?]]]]]; try done.
    unfold read_ipv6_addr in E6. by rewrite (read_groups_v4 6 _ _ _ _ _ _ E) in E6.
  - destruct (read_ipv6_addr host) as [[gs' [|]]|]; by simplify_eq.
Qed.

Lemma show_ip_host_ok ip : ip_ok ip → host_ok (show_ip ip).
Proof.
  intros Hok. right. destruct ip; cbn [show_ip]; [left; rewrite parse_ipv4_show by done; eauto|right].
  destruct (parse_ipv6_show _ Hok) as [_ ->]. eauto.
Qed.

Lemma canon_show_ip ip : ip_ok ip → canon (show_ip ip) = show_ip ip.
Proof.
  intros Hok. unfold canon. destruct ip; cbn [show_ip]; [by rewrite parse_ipv4_show|].
  by destruct (parse_ipv6_show _ Hok) as [-> ->].
Qed.

(** ** Joining and splitting *)

(** A host that survives [join_host_port]: no brackets. *)
Definition joinable (host : bytes) : Prop := (ch_lbracket ∉ host) ∧ (ch_rbracket ∉ host).

Lemma show_port_chars port :
  port_ok port → Forall (λ c, c ≠ ch_colon ∧ c ≠ ch_lbracket ∧ c ≠ ch_rbracket) (show_int port).
Proof.
  intros Hp. eapply Forall_impl; [apply show_int_digits; unfold port_ok in Hp; lia|].
  intros c Hd. split_and!; intros ->; done.
Qed.

Lemma split_join host port :
  joinable host → port_ok port → split_host_port (join_host_port host port) = Ok (host, show_int port).
Proof.
  intros [Hlb Hrb] Hp. apply split_host_port_spec. unfold join_host_port. split_and!; [by apply show_port_chars|..].
  - apply Forall_forall. intros c Hc. split; intros ->; done.
  - destruct (contains_char ch_colon host) eqn:Ec; [by right|left]. split; [done|].
    apply contains_char_false in Ec. apply Forall_forall. intros c Hc ->. done.
Qed.

(** An address put together by [join_host_port] is taken apart again. *)
Lemma parse_join host port :
  joinable host → port_ok port → parse_address (join_host_port host port) = Ok (host, port).
Proof.
  intros Hh Hp. unfold parse_address. rewrite split_join by done. unfold parse_u16.
  by rewrite parse_show_unsigned by (unfold port_ok in Hp; lia).
Qed.

Lemma ip_char_joinable s : Forall ip_char s → joinable s.
Proof.
  intros Hs. rewrite Forall_forall in Hs. unfold ip_char in Hs.
  split; intros Hin; apply Hs in Hin as [?|[?|[?|?]]]; done || (unfold ch_lbracket, ch_rbracket in *; lia).
Qed.

Lemma canon_joinable host : joinable host → joinable (canon host).
Proof.
  intros Hh. unfold canon. destruct (parse_ipv4 host) as [os|] eqn:E4.
  { apply ip_char_joinable, (show_ip_chars (V4 os)). by eapply parse_ipv4_ok. }
  destruct (parse_ipv6 host) as [gs|] eqn:E6; [|done].
  apply ip_char_joinable, (show_ip_chars (V6 gs)). by eapply parse_ipv6_ok.
Qed.

(** [SocketAddr]'s text is its IP and port joined. *)
Lemma show_addr_join a :
  ip_ok (sa_ip a) → show_addr a = join_host_port (show_ip (sa_ip a)) (sa_port a).
Proof.
  intros Ha. unfold show_addr, join_host_port. destruct (sa_ip a) as [os|gs]; cbn [show_ip].
  - destruct (contains_char ch_colon (show_ipv4 os)) eqn:E; [|done]. apply contains_char_spec in E.
    by apply show_ipv4_no_colon in E.
  - destruct (contains_char ch_colon (show_ipv6 gs)) eqn:E; [done|]. apply contains_char_false in E.
    destruct E. apply show_ipv6_colon, Ha.
Qed.

(** ** Names of 256 bytes and more

    The length byte of a name is its length modulo 256: of a longer name the
    peer reads a beginning, takes the bytes that follow for the port, and finds
    the rest of the name where the next message should be. *)
Lemma long_name_split host port t :
  parse_ipv4 host = None → parse_ipv6 host = None → is_bytes host → 
  (256 ≤ length host < 510)%nat →
  ∃ body p left, encode_address host port = ATYP_DOMAIN :: body ∧ left ≠ []
    ∧ read_address ATYP_DOMAIN (talk body t)
      = (Ok (from_utf8_lossy (take (length host - 256) host), p), talk left t).
Proof.
  intros H4 H6 Hb Hl. unfold encode_address. rewrite H4, H6.
  assert (u8 (zlen host) = zlen host - 256) as Hu.
  { unfold wrap. symmetry. apply Z.mod_unique with 1; unfold zlen; lia. }
  set (n := (length host - 256)%nat).
  assert (Z.to_nat (zlen host - 256) = n) as En by (unfold zlen, n; lia).
  assert (host = take n host ++ take 2 (drop n host) ++ drop 2 (drop n host)) as Eh by (by rewrite !take_drop).
  assert (∃ w, w = host ++ to_be 2 port) as [w Ew] by eauto. rewrite Hu.
  exists ([zlen host - 256] ++ w), (from_be (take 2 (drop n host))), (drop 2 (drop n host) ++ to_be 2 port).
  split; [by rewrite Ew|].
  split; [intros Hn; apply (f_equal length) in Hn; rewrite length_app, length_to_be in Hn; cbn in Hn; lia|].
  unfold read_address. cbn [Z.eqb ATYP_IPV4 ATYP_DOMAIN Pos.eqb]. rewrite cbind_assoc.
  rewrite (cbind_ok _ _ _ [zlen host - 256] (talk w t)) by (by apply h_read_talk).
  rewrite from_be_one, En, cbind_assoc. subst w. rewrite Eh at 1. rewrite <-!app_assoc.
  rewrite (cbind_ok _ _ _ (take n host) (talk (take 2 (drop n host) ++ drop 2 (drop n host) ++ to_be 2 port) t))
    by (apply h_read_talk; rewrite length_take; lia).
  rewrite cbind_ret. erewrite cbind_ok; [|apply h_read_talk; rewrite length_take, length_drop; lia]. done.
Qed.

(** ** IPv6 without brackets *)

Lemma colons_unique (a b c d : bytes) :
  a ++ ch_colon :: b = c ++ ch_colon :: d → ch_colon ∉ c → ch_colon ∉ d → ch_colon ∉ a.
Proof.
  intros E Hc Hd Ha. apply list_elem_of_split in Ha as (a1 & a2 & ->). revert c E Hc. induction a1 as [|x a1 IH]; intros [|y c] E Hc.
  - injection E as E. apply Hd. rewrite <-E. apply elem_of_app. right. by left.
  - injection E as Ey E. apply Hc. rewrite Ey. by left.
  - injection E as _ E. apply Hd. rewrite <-E, <-app_assoc. apply elem_of_app. right. by left.
  - injection E as _ E. apply not_elem_of_cons in Hc as [_ Hc]. by eapply IH.
Qed.

(** An IPv6 address and a port without brackets have too many colons for the
    permission check. *)
Lemma can_ipv6_unbracketed (action : string) o gs port :
  ip_ok (V6 gs) → may action o (show_ipv6 gs ++ [ch_colon] ++ show_int port) = false.
Proof.
  intros Hok. unfold may, Can, default_port. destruct (contains_char ch_colon _) eqn:Ec.
  2: { apply contains_char_false in Ec. destruct Ec. apply elem_of_app. right. by left. }
  cbn [negb]. destruct (split_host_port _) as [[h p]|] eqn:Es; [exfalso|done].
  pose proof (show_ipv6_colon gs (proj1 Hok)) as Hin.
  apply split_host_port_spec in Es as (Hp & _ & [[E Hh]|E]).
  - rewrite Forall_forall in Hh, Hp. eapply colons_unique; [exact E| | |exact Hin].
    + intros Hc. by apply Hh in Hc.
    + intros Hc. by apply Hp in Hc as [? _].
  - assert (ch_lbracket ∉ show_ipv6 gs) as Hlb by apply (ip_char_joinable _ (show_ip_chars (V6 gs) Hok)).
    destruct (show_ipv6 gs) as [|x l]; [by apply elem_of_nil in Hin|]. cbn in E. injection E as -> _. by apply Hlb; left.
Qed.
