(* ===== verification/Socks5Tunnel.v ===== *)
(** * UDP over a SOCKS5 stream

    Models [Socks5UdpTunnelConn] of src/socks5.rs: datagrams framed over the
    control connection, the length of the data in the reserved field. The read
    side is a [Machine] of AsyncIo.v; the write side queues whole frames. Sent
    datagrams are proved to arrive whole, in order and with their addresses. *)

From stdpp Require Import base list option numbers strings pretty sets.
From Stdlib Require Import ZArith Lia.
From S2P Require Import Prelude Text Utf8 IpAddr AsyncIo Conn Socks5Addr.

Definition UDP_TUN_MAX_PAYLOAD : nat := Z.to_nat u16_max.
Definition UDP_TUN_HEAD_LEN : nat := 5.

(** ** Reading *)

Inductive TunnelReadState : Set :=
| Head
| Body (hlen dlen : nat)
| Eof.

Definition bad_address_type (other : Z) : io_error :=
  IoError Other ("socks5: bad address type in UDP tunnel frame: " +:+ pretty other).
Definition malformed_address : io_error := IoError Other "socks5: malformed address in UDP tunnel frame".
Definition truncated_datagram : io_error := IoError UnexpectedEof "socks5: truncated UDP tunnel datagram".

(** [read_need]. *)
Definition tunnel_need (s : TunnelReadState) : nat :=
  match s with Head => UDP_TUN_HEAD_LEN | Body hlen dlen => hlen + dlen | Eof => 0 end.

(** The header length a frame's first five bytes announce. *)
Definition header_len (atyp first : Z) : option nat :=
  if atyp =? ATYP_IPV4 then Some 10%nat
  else if atyp =? ATYP_IPV6 then Some 22%nat
  else if atyp =? ATYP_DOMAIN then Some (7 + Z.to_nat first)%nat
  else None.

(** The two arms of [poll_datagram] on a full buffer; [Head] is given the five
    bytes it asked for. *)
Definition tunnel_advance (s : TunnelReadState) (b : bytes) : Advance TunnelReadState (bytes * Z) :=
  match s with
  | Head =>
      match b with
      | r0 :: r1 :: _ :: atyp :: first :: _ =>
          match header_len atyp first with
          | Some hlen => AdvNext (Body hlen (Z.to_nat (from_be [r0; r1]))) b None
          | None => AdvErr (bad_address_type atyp) Head b
          end
      | _ => AdvErr (bad_address_type 0) Head b
      end
  | Body hlen dlen =>
      match parse_udp_datagram (take hlen b) with
      | None => AdvErr malformed_address Head []
      | Some (frag, host, port, _) =>
          if negb (frag =? 0) then AdvNext Head [] None
          else AdvNext Head [] (Some ((host, port), take dlen (drop hlen b)))
      end
  | Eof => AdvNext Eof [] None
  end.

Definition tunnel_at_eof (s : TunnelReadState) (b : bytes) : result io_error TunnelReadState :=
  match s, b with Head, [] => Ok Eof | _, _ => Err truncated_datagram end.

Definition tunnel_machine : Machine TunnelReadState (bytes * Z) :=
  mkMachine tunnel_need (λ _, false) (λ s, match s with Eof => true | _ => false end) tunnel_advance tunnel_at_eof.

(** [Socks5UdpTunnelConn]: the read side, the write side, the destination
    stamped on [AsyncWrite] datagrams and the address the server reported. *)
Record Tunnel : Type := mkTunnel {
  t_read : Framed TunnelReadState (bytes * Z); t_out : OutBuf; taddr : bytes * Z; bound_addr : option bytes }.

Definition with_taddr (a : bytes * Z) (bound : option bytes) : Tunnel :=
  mkTunnel (mkFramed Head [] [] 0 ([], 0)) new_out a bound.
Definition tunnel_server : Tunnel := with_taddr (unspecified, 0) None.
Definition tunnel_client (a : bytes * Z) (bound : bytes) : Tunnel := with_taddr a (Some bound).

Definition set_read (r : Framed TunnelReadState (bytes * Z)) (t : Tunnel) : Tunnel :=
  mkTunnel r (t_out t) (taddr t) (bound_addr t).
Definition set_out (o : OutBuf) (t : Tunnel) : Tunnel := mkTunnel (t_read t) o (taddr t) (bound_addr t).

(** [poll_datagram]: [Ok true] once a datagram is in hand. *)
Definition poll_datagram (answers : list ReadAnswer) (t : Tunnel) :
    poll (result io_error bool) * Tunnel * list ReadAnswer :=
  let '(p, r, answers) := poll_frame tunnel_machine answers (t_read t) in
  (match p with
   | Pending => Pending
   | Ready (Err e) => Ready (Err e)
   | Ready (Ok InHand) => Ready (Ok true)
   | Ready (Ok _) => Ready (Ok false)
   end, set_read r t, answers).

Definition poll_recv_from (answers : list ReadAnswer) (t : Tunnel) :
    poll (result io_error (option (bytes * bytes * Z))) * Tunnel * list ReadAnswer :=
  match poll_datagram answers t with
  | (Pending, t, answers) => (Pending, t, answers)
  | (Ready (Err e), t, answers) => (Ready (Err e), t, answers)
  | (Ready (Ok false), t, answers) => (Ready (Ok None), t, answers)
  | (Ready (Ok true), t, answers) =>
      let r := t_read t in
      (Ready (Ok (Some (remaining r, (tag r).1, (tag r).2))),
       set_read (mkFramed (read_state r) (read_buf r) [] 0 (tag r)) t, answers)
  end.

Definition Tunnel_poll_read (room : nat) (answers : list ReadAnswer) (t : Tunnel) :
    poll (result io_error bytes) * Tunnel * list ReadAnswer :=
  let '(p, r, answers) := framed_read tunnel_machine room answers (t_read t) in (p, set_read r t, answers).

(** ** Writing *)

Definition encode_udp_tunnel_datagram (host : bytes) (port : Z) (data : bytes) : bytes :=
  to_be 2 (u16 (zlen data)) ++ [0] ++ encode_address host port ++ data.

Definition datagram_too_large : io_error := IoError Other "socks5: datagram exceeds the tunnel maximum".

Definition queue_datagram (host : bytes) (port : Z) (data : bytes) (t : Tunnel) : result io_error Tunnel :=
  if (UDP_TUN_MAX_PAYLOAD <? length data)%nat then Err datagram_too_large
  else Ok (set_out (queue (encode_udp_tunnel_datagram host port data) (t_out t)) t).

(** [poll_flush_out]. *)
Definition tunnel_flush (answers : list Answer) (t : Tunnel) : poll (result io_error ()) * Tunnel * list Answer :=
  let '(p, o, answers) := flush_out write_zero answers (t_out t) in (p, set_out o t, answers).

(** The flush awaited by an [async] function, which is polled again whenever
    the transport is ready; [Pending] when it never is again. *)
Definition tunnel_flush_await (answers : list Answer) (t : Tunnel) :=
  tunnel_flush (filter (.≠ APending) answers) t.

Definition send_to (answers : list Answer) (data host : bytes) (port : Z) (t : Tunnel) :
    poll (result io_error ()) * Tunnel :=
  match tunnel_flush_await answers t with
  | (Ready (Ok _), t, answers) =>
      match queue_datagram host port data t with
      | Err e => (Ready (Err e), t)
      | Ok t => let '(p, t, _) := tunnel_flush_await answers t in (p, t)
      end
  | (p, t, _) => (p, t)
  end.

Definition Tunnel_poll_write (answers : list Answer) (buf : bytes) (t : Tunnel) :
    poll (result io_error nat) * Tunnel :=
  match buf with
  | [] => (Ready (Ok 0%nat), t)
  | _ =>
      match tunnel_flush answers t with
      | (Pending, t, _) => (Pending, t)
      | (Ready (Err e), t, _) => (Ready (Err e), t)
      | (Ready (Ok _), t, answers) =>
          match queue_datagram (taddr t).1 (taddr t).2 buf t with
          | Err e => (Ready (Err e), t)
          | Ok t => let '(_, t, _) := tunnel_flush answers t in (Ready (Ok (length buf)), t)
          end
      end
  end.

(** [poll_flush] and [poll_shutdown], with the transport's answer [inner] to
    the same call. *)
Definition Tunnel_poll_flush (answers : list Answer) (inner : poll (result io_error ())) (t : Tunnel) :
    poll (result io_error ()) * Tunnel :=
  match tunnel_flush answers t with
  | (Ready (Ok _), t, _) => (inner, t)
  | (p, t, _) => (p, t)
  end.
Definition Tunnel_poll_shutdown (answers : list Answer) (inner : poll (result io_error ())) (t : Tunnel) :
    poll (result io_error ()) * Tunnel :=
  match tunnel_flush answers t with
  | (Ready (Ok _), t, _) => (inner, t)
  | (p, t, _) => (p, t)
  end.

(** ** The machine reads what is sent *)

Record Datagram : Set := mkDgram { d_host : bytes; d_port : Z; d_data : bytes }.

Definition dgram_ok (d : Datagram) : Prop :=
  host_ok (d_host d) ∧ port_ok (d_port d) ∧ (length (d_data d) ≤ UDP_TUN_MAX_PAYLOAD)%nat.

Lemma dgram_ok_intro d :
  host_ok (d_host d) → ((0 <=? d_port d) && (d_port d <=? u16_max) && (zlen (d_data d) <=? u16_max)) = true → dgram_ok d.
Proof.
  intros Hh H. rewrite !andb_true_iff, !Z.leb_le in H. split_and!; [done|unfold port_ok; lia|].
  unfold UDP_TUN_MAX_PAYLOAD, zlen in *. lia.
Qed.

Definition dgram_bytes (d : Datagram) : bytes := encode_udp_tunnel_datagram (d_host d) (d_port d) (d_data d).

(** The datagram as its receiver sees it. *)
Definition dgram_frame (d : Datagram) : option ((bytes * Z) * bytes) :=
  Some ((canon (d_host d), d_port d), d_data d).

#[export] Instance tunnel_machine_ok : MachineOk tunnel_machine.
Proof.
  refine {| good := λ s, match s with Body h _ => (0 < h)%nat | _ => True end;
            rank := λ s, match s with Head => 1 | _ => 0 end%nat |}.
  - intros []; lia.
  - intros s b s' kept o Hg H. cbn in H. destruct s as [|h d|]; cbn in H; [| |by simplify_eq].
    + unfold header_len in H. repeat case_hyp H; simplify_eq; lia.
    + repeat case_hyp H; by simplify_eq.
  - intros s b s' kept o Hg _ He Hl H. cbn in *. destruct s as [|h d|]; cbn in *; [| |done].
    + repeat case_hyp H; simplify_eq. cbn in *. unfold UDP_TUN_HEAD_LEN in *. lia.
    + repeat case_hyp H; simplify_eq; cbn; lia.
  - intros s b s' kept o Hl H. cbn in *. destruct s as [|h d|]; cbn in *; [| |by simplify_eq].
    + unfold header_len in H. repeat case_hyp H; simplify_eq; cbn in *; unfold UDP_TUN_HEAD_LEN in *; lia.
    + repeat case_hyp H; simplify_eq; cbn; lia.
  - done.
  - done.
Defined.

(** The header of an encoded datagram announces its own length. *)
Lemma header_len_encode host port :
  host_ok host →
  ∃ atyp first l, encode_address host port = atyp :: first :: l
    ∧ header_len atyp first = Some (3 + length (encode_address host port))%nat.
Proof.
  intros Hh. destruct (encode_address_body host port Hh) as (atyp & len & b & Hb & ->).
  pose proof (addr_body_len _ _ _ _ Hb) as Hlen. pose proof (length_to_be 2 port) as Hl2.
  destruct Hlen as [(-> & -> & Hl)|[(-> & -> & Hl)|(-> & -> & Hl)]].
  - destruct b as [|x b]; [done|]. eexists _, x, _. split; [reflexivity|]. cbn in *. rewrite length_app. f_equal. cbn. lia.
  - destruct b as [|x b]; [done|]. eexists _, x, _. split; [reflexivity|]. cbn in *. rewrite length_app. f_equal. cbn. lia.
  - eexists _, _, _. split; [reflexivity|]. unfold header_len. cbn [Z.eqb ATYP_IPV4 ATYP_IPV6 ATYP_DOMAIN Pos.eqb].
    rewrite zlen_to_nat. cbn [length app]. rewrite length_app. f_equal. lia.
Qed.

Lemma parse_datagram d rest :
  dgram_ok d →
  parse tunnel_machine Head (dgram_bytes d ++ rest) = add_frame (dgram_frame d) (parse tunnel_machine Head rest).
Proof.
  intros (Hh & Hp & Hl). destruct d as [host port data]. cbn [d_host d_port d_data] in *.
  unfold dgram_bytes, dgram_frame, encode_udp_tunnel_datagram. cbn [d_host d_port d_data].
  assert (u16 (zlen data) = zlen data) as Hu.
  { apply wrap_small. unfold UDP_TUN_MAX_PAYLOAD, u16_max in Hl. unfold zlen. lia. }
  rewrite Hu. destruct (header_len_encode host port Hh) as (atyp & first & l & Ea & Ehl).
  pose proof (parse_encoded_datagram) as Hpd.
  destruct (to_be 2 (zlen data)) as [|r0 [|r1 [|? ?]]] eqn:Er; try (by apply (f_equal length) in Er; rewrite length_to_be in Er).
  assert (from_be [r0; r1] = zlen data) as Hlen.
  { rewrite <-Er. apply from_to_be. unfold UDP_TUN_MAX_PAYLOAD, u16_max in Hl. unfold zlen. cbn. lia. }
  specialize (Hpd r0 r1 0 host port [] Hh Hp). rewrite app_nil_r in Hpd.
  set (hdr := r0 :: r1 :: 0 :: encode_address host port) in *.
  set (hlen := (3 + length (encode_address host port))%nat) in *.
  assert (length hdr = hlen) as Ehdr by done.
  assert (([r0; r1] ++ [0] ++ encode_address host port ++ data) ++ rest = hdr ++ data ++ rest) as ->.
  { unfold hdr. cbn. by rewrite <-!app_assoc. }
  assert (∃ l', hdr = [r0; r1; 0; atyp; first] ++ l') as [l' Ehd] by (exists l; unfold hdr; by rewrite Ea).
  erewrite (parse_step tunnel_machine Head (hdr ++ data ++ rest) (Body hlen (length data)) [r0; r1; 0; atyp; first] None);
    [|done|done|done|..].
  2: { rewrite length_app, Ehdr. cbn. unfold UDP_TUN_HEAD_LEN, hlen. rewrite Ea. cbn. lia. }
  2: { rewrite Ehd, <-app_assoc. cbn [need tunnel_machine tunnel_need UDP_TUN_HEAD_LEN]. rewrite take_app_exact by done.
       cbn [advance tunnel_machine tunnel_advance]. by rewrite Ehl, Hlen, zlen_to_nat. }
  rewrite Ehd at 1. rewrite <-app_assoc. cbn [need tunnel_machine tunnel_need UDP_TUN_HEAD_LEN].
  rewrite drop_app_exact by done. rewrite app_assoc, <-Ehd.
  erewrite (parse_step tunnel_machine (Body hlen (length data)) (hdr ++ data ++ rest) Head [] (Some ((canon host, port), data)));
    [|cbn; unfold hlen; lia|done|done|..].
  2: { cbn. rewrite !length_app. lia. }
  2: { cbn [need tunnel_machine tunnel_need]. rewrite app_assoc, take_app_exact by (rewrite length_app; lia).
       cbn [advance tunnel_machine tunnel_advance]. rewrite take_app_exact, Hpd by done. cbn [Z.eqb negb].
       by rewrite drop_app_exact, take_ge by done. }
  cbn [need tunnel_machine tunnel_need]. rewrite app_assoc, drop_app_exact by (rewrite length_app; lia).
  unfold add_frame. by cbn.
Qed.

Definition dgrams_wire (ds : list Datagram) : bytes := concat (dgram_bytes <$> ds).
Definition dgrams_seen (ds : list Datagram) : list ((bytes * Z) * bytes) :=
  concat ((λ d, frame_list (dgram_frame d)) <$> ds).

Lemma parse_dgrams ds :
  Forall dgram_ok ds → parse tunnel_machine Head (dgrams_wire ds) = mkParsed (dgrams_seen ds) Head [] None.
Proof.
  intros Hd. rewrite <-(app_nil_r (dgrams_wire ds)). unfold dgrams_wire.
  rewrite (parse_frames tunnel_machine dgram_bytes dgram_frame).
  - rewrite (parse_stop tunnel_machine Head []) by (right; right; cbn; unfold UDP_TUN_HEAD_LEN; lia).
    cbn [p_frames p_state p_rest p_err]. by rewrite app_nil_r.
  - intros d r Hin. apply parse_datagram. by eapply Forall_forall in Hd.
Qed.

(** ** Sending *)

(** An operation of the sending side, with what the transport answers to it. *)
Inductive TunnelOp : Set :=
| OpSendTo (answers : list Answer) (host : bytes) (port : Z) (data : bytes)
| OpWrite (answers : list Answer) (buf : bytes)
| OpFlush (answers : list Answer) (inner : poll (result io_error ()))
| OpShutdown (answers : list Answer) (inner : poll (result io_error ())).

Definition tunnel_op (op : TunnelOp) (t : Tunnel) : Tunnel :=
  match op with
  | OpSendTo answers host port data => (send_to answers data host port t).2
  | OpWrite answers buf => (Tunnel_poll_write answers buf t).2
  | OpFlush answers inner => (Tunnel_poll_flush answers inner t).2
  | OpShutdown answers inner => (Tunnel_poll_shutdown answers inner t).2
  end.

Definition tunnel_ops (ops : list TunnelOp) (t : Tunnel) : Tunnel := foldl (λ t op, tunnel_op op t) t ops.

(** The datagram an operation accepts: a send whose first flush came through,
    of a size that fits. *)
Definition accepted (op : TunnelOp) (t : Tunnel) : list Datagram :=
  match op with
  | OpSendTo answers host port data =>
      match tunnel_flush_await answers t with
      | (Ready (Ok _), _, _) => if (UDP_TUN_MAX_PAYLOAD <? length data)%nat then [] else [mkDgram host port data]
      | _ => []
      end
  | OpWrite answers buf =>
      match (Tunnel_poll_write answers buf t).1, buf with
      | Ready (Ok _), _ :: _ => [mkDgram (taddr t).1 (taddr t).2 buf]
      | _, _ => []
      end
  | _ => []
  end.

Fixpoint all_accepted (ops : list TunnelOp) (t : Tunnel) : list Datagram :=
  match ops with
  | [] => []
  | op :: ops => accepted op t ++ all_accepted ops (tunnel_op op t)
  end.

(** Every address an operation names is one that can be encoded. *)
Definition op_ok (t : Tunnel) (op : TunnelOp) : Prop :=
  match op with
  | OpSendTo _ host port _ => host_ok host ∧ port_ok port
  | OpWrite _ _ => host_ok (taddr t).1 ∧ port_ok (taddr t).2
  | _ => True
  end.

(** What was sent and what is still to be sent. *)
Definition stream (t : Tunnel) : bytes := sent (t_out t) ++ unsent (t_out t).

Lemma tunnel_flush_spec answers t p t' answers' :
  out_ok (t_out t) → tunnel_flush answers t = (p, t', answers') →
  stream t' = stream t ∧ out_ok (t_out t') ∧ taddr t' = taddr t
  ∧ (p = Ready (Ok tt) → unsent (t_out t') = []).
Proof.
  unfold tunnel_flush. intros Ho H. destruct (flush_out write_zero answers (t_out t)) as [[q o] a] eqn:E. simplify_eq.
  apply flush_out_spec in E as (E & Ho' & _ & Hd); [|done]. split_and!; try done. naive_solver.
Qed.

Lemma queue_datagram_spec host port data t t' :
  out_ok (t_out t) → queue_datagram host port data t = Ok t' →
  stream t' = stream t ++ dgram_bytes (mkDgram host port data) ∧ out_ok (t_out t') ∧ taddr t' = taddr t
  ∧ (length data ≤ UDP_TUN_MAX_PAYLOAD)%nat.
Proof.
  unfold queue_datagram. intros Ho H. destruct (Nat.ltb_spec UDP_TUN_MAX_PAYLOAD (length data)); [done|]. simplify_eq.
  destruct (queue_spec (encode_udp_tunnel_datagram host port data) _ Ho) as (E & Ho' & _). by split_and!.
Qed.

(** Each operation adds whole datagrams, those it accepts, to the stream. *)
Lemma tunnel_op_stream op t :
  out_ok (t_out t) →
  let t' := tunnel_op op t in
  stream t' = stream t ++ dgrams_wire (accepted op t) ∧ out_ok (t_out t') ∧ taddr t' = taddr t
  ∧ (op_ok t op → Forall dgram_ok (accepted op t)).
Proof.
  intros Ho. destruct op as [answers host port data|answers buf|answers inner|answers inner];
    cbn [tunnel_op accepted op_ok].
  - unfold send_to, tunnel_flush_await. set (l := filter _ answers).
    destruct (tunnel_flush l t) as [[p t1] a1] eqn:E1. destruct (tunnel_flush_spec _ _ _ _ _ Ho E1) as (S1 & O1 & T1 & _).
    destruct p as [|[u|e]]; cbn [snd]; try (rewrite app_nil_r; by split_and!).
    destruct (queue_datagram host port data t1) as [t2|e] eqn:E2.
    + destruct (queue_datagram_spec _ _ _ _ _ O1 E2) as (S2 & O2 & T2 & L2).
      set (l2 := filter _ a1). destruct (tunnel_flush l2 t2) as [[p3 t3] a3] eqn:E3.
      destruct (tunnel_flush_spec _ _ _ _ _ O2 E3) as (S3 & O3 & T3 & _). cbn [snd].
      destruct (Nat.ltb_spec UDP_TUN_MAX_PAYLOAD (length data)); [lia|]. unfold dgrams_wire. cbn [fmap list_fmap concat].
      rewrite app_nil_r, S3, S2, S1. split_and!; [done..|congruence|]. intros [Hh Hp].
      apply Forall_singleton. exact (conj Hh (conj Hp L2)).
    + unfold queue_datagram in E2. destruct (UDP_TUN_MAX_PAYLOAD <? length data)%nat; [|done]. cbn [snd].
      rewrite app_nil_r. by split_and!.
  - unfold Tunnel_poll_write. destruct buf as [|x buf]; [cbn [fst snd]; rewrite app_nil_r; by split_and!|].
    set (b := x :: buf) in *. destruct (tunnel_flush answers t) as [[p t1] a1] eqn:E1.
    destruct (tunnel_flush_spec _ _ _ _ _ Ho E1) as (S1 & O1 & T1 & _).
    destruct p as [|[u|e]]; cbn [fst snd]; try (rewrite app_nil_r; by split_and!).
    destruct (queue_datagram (taddr t1).1 (taddr t1).2 b t1) as [t2|e] eqn:E2.
    + destruct (queue_datagram_spec _ _ _ _ _ O1 E2) as (S2 & O2 & T2 & L2).
      destruct (tunnel_flush a1 t2) as [[p3 t3] a3] eqn:E3.
      destruct (tunnel_flush_spec _ _ _ _ _ O2 E3) as (S3 & O3 & T3 & _). cbn [fst snd].
      unfold dgrams_wire. cbn [fmap list_fmap concat].
      rewrite app_nil_r, S3, S2, S1, T1. split_and!; [done..|congruence|]. intros [Hh Hp].
      apply Forall_singleton. exact (conj Hh (conj Hp L2)).
    + cbn [fst snd]. rewrite app_nil_r. by split_and!.
  - unfold Tunnel_poll_flush. destruct (tunnel_flush answers t) as [[p t1] a1] eqn:E1.
    destruct (tunnel_flush_spec _ _ _ _ _ Ho E1) as (S1 & O1 & T1 & _). rewrite app_nil_r.
    destruct p as [|[u|e]]; by split_and!.
  - unfold Tunnel_poll_shutdown. destruct (tunnel_flush answers t) as [[p t1] a1] eqn:E1.
    destruct (tunnel_flush_spec _ _ _ _ _ Ho E1) as (S1 & O1 & T1 & _). rewrite app_nil_r.
    destruct p as [|[u|e]]; by split_and!.
Qed.

(** A send does not touch the read side, and one that succeeds was accepted. *)
Lemma send_to_read answers data host port t p t' :
  send_to answers data host port t = (p, t') → t_read t' = t_read t.
Proof.
  unfold send_to, tunnel_flush_await, tunnel_flush, queue_datagram. intros H.
  destruct (flush_out _ _ _) as [[[|[]] o1] a1]; simplify_eq; try done.
  destruct (_ <? _)%nat; simplify_eq; [done|]. cbn [t_out set_out] in H. destruct (flush_out _ _ _) as [[q o2] a2]. by simplify_eq.
Qed.

Lemma send_to_accepted answers data host port t t' :
  send_to answers data host port t = (Ready (Ok tt), t') →
  accepted (OpSendTo answers host port data) t = [mkDgram host port data].
Proof.
  unfold send_to. cbn [accepted]. intros H. destruct (tunnel_flush_await answers t) as [[[|[]] t1] a1]; simplify_eq.
  unfold queue_datagram in H. by destruct (_ <? _)%nat.
Qed.

Lemma dgrams_wire_app ds ds' : dgrams_wire (ds ++ ds') = dgrams_wire ds ++ dgrams_wire ds'.
Proof. unfold dgrams_wire. by rewrite fmap_app, concat_app. Qed.

Lemma tunnel_ops_stream ops t :
  out_ok (t_out t) → Forall (op_ok t) ops →
  stream (tunnel_ops ops t) = stream t ++ dgrams_wire (all_accepted ops t) ∧ Forall dgram_ok (all_accepted ops t).
Proof.
  revert t. induction ops as [|op ops IH]; intros t Ho Hops; cbn [tunnel_ops foldl all_accepted].
  { by rewrite app_nil_r. }
  inversion Hops as [|? ? Hop Hops']; subst. destruct (tunnel_op_stream op t Ho) as (E & Ho' & Et & Hd).
  destruct (IH (tunnel_op op t) Ho') as [E2 Hd2].
  { eapply Forall_impl; [exact Hops'|]. intros o. unfold op_ok. by rewrite Et. }
  unfold tunnel_ops in E2. rewrite E2, E, dgrams_wire_app, app_assoc. split; [done|].
  apply Forall_app. split; [by apply Hd|done].
Qed.

(** ** Receiving *)

(** Polls of [recv_from], one after the other. *)
Fixpoint recvs (n : nat) (answers : list ReadAnswer) (t : Tunnel) :
    list (poll (result io_error (option (bytes * bytes * Z)))) * Tunnel * list ReadAnswer :=
  match n with
  | O => ([], t, answers)
  | S n =>
      let '(p, t, answers) := poll_recv_from answers t in
      let '(ps, t, answers) := recvs n answers t in
      (p :: ps, t, answers)
  end.

Definition got (p : poll (result io_error (option (bytes * bytes * Z)))) : list ((bytes * Z) * bytes) :=
  match p with Ready (Ok (Some (d, h, port))) => [((h, port), d)] | _ => [] end.
Definition all_got ps : list ((bytes * Z) * bytes) := concat (got <$> ps).

(** The datagrams still to be received. *)
Definition to_come (answers : list ReadAnswer) (t : Tunnel) : list ((bytes * Z) * bytes) :=
  in_hand (t_read t) ++ p_frames (ahead tunnel_machine answers (t_read t)).

(** A stream of well-formed frames whose end is not in sight. *)
Record receiving (answers : list ReadAnswer) (t : Tunnel) : Prop := {
  rc_fits : fits tunnel_machine (t_read t);
  rc_open : RData [] ∉ answers;
  rc_err : p_err (ahead tunnel_machine answers (t_read t)) = None;
  rc_state : p_state (ahead tunnel_machine answers (t_read t)) ≠ Eof }.

Lemma poll_recv_inv answers t p t' answers' :
  receiving answers t → poll_recv_from answers t = (p, t', answers') →
  receiving answers' t' ∧ to_come answers t = got p ++ to_come answers' t'
  ∧ (∀ e, RErr e ∈ answers' → RErr e ∈ answers)
  ∧ match p with
    | Ready (Ok (Some _)) => (length answers' ≤ length answers)%nat
    | Ready (Ok None) => False
    | Ready (Err e) => RErr e ∈ answers ∧ (length answers' < length answers)%nat
    | Pending => to_come answers' t' = [] ∧ answers' = [] ∨ (length answers' < length answers)%nat
    end.
Proof.
  intros [Hf Hn He Hs] H. unfold poll_recv_from, poll_datagram in H.
  destruct (poll_frame tunnel_machine answers (t_read t)) as [[p1 r] a1] eqn:Ep.
  destruct (poll_frame_inv tunnel_machine _ _ _ _ _ Hf Hn He Ep) as [[Hf1 Hn1 Hfr Hst _ He1 Hl1 Her1] Hp].
  assert (receiving a1 (set_read r t)) as Hr1 by (split; try done; cbn [t_read set_read]; congruence).
  assert (to_come answers t = to_come a1 (set_read r t)) as Htc by exact Hfr.
  destruct p1 as [|[[]|e]]; simplify_eq.
  - destruct Hp as (Hi & Hb & Ha). split_and!; try done. destruct Ha as [->|?]; [left|by right].
    assert (answers' = []) as -> by (destruct answers'; [done|cbn in Hl1; lia]). split; [|done].
    unfold to_come. cbn [t_read set_read]. rewrite Hi. unfold ahead. cbn [received fmap list_fmap concat].
    rewrite app_nil_r, parse_stop; [done|]. by right; right.
  - cbn [t_read set_read] in *. unfold in_hand in Hp. destruct (remaining r) as [|x d] eqn:Er; [done|]. rewrite <-Er.
    split_and!; try done.
    + destruct Hf1 as (_ & ? & ?). split; try done.
      unfold ahead in *. cbn [t_read set_read read_state read_buf] in *. by rewrite <-Hst.
    + rewrite Htc. unfold to_come, in_hand. cbn [t_read set_read]. rewrite Er.
      unfold got, remaining. cbn [plain plain_pos drop app]. by destruct (tag r).
  - destruct Hp as [Hi Hend]. destruct Hs. rewrite Hst. unfold ahead. rewrite parse_stop by (by right; left).
    cbn [p_state]. by destruct (read_state r).
  - destruct Hp as [Hi Hraw]. done.
  - destruct Hp as (Hi & ? & ?). by split_and!.
Qed.

Lemma recvs_inv n answers t ps t' answers' :
  receiving answers t → recvs n answers t = (ps, t', answers') →
  to_come answers t = all_got ps ++ to_come answers' t'
  ∧ (∀ e, Ready (Err e) ∈ ps → RErr e ∈ answers) ∧ (Ready (Ok None) ∉ ps)
  ∧ ((length (to_come answers t) + length answers ≤ n)%nat → to_come answers' t' = []).
Proof.
  revert answers t ps. induction n as [|n IH]; intros answers t ps Hr H; cbn [recvs] in H.
  { simplify_eq. split_and!; [done|by intros ? ?%elem_of_nil|by intros ?%elem_of_nil|].
    intros Hl. destruct (to_come answers' t'); [done|cbn in Hl; lia]. }
  destruct (poll_recv_from answers t) as [[p t1] a1] eqn:E1. destruct (recvs n a1 t1) as [[ps2 t2] a2] eqn:E2. simplify_eq.
  destruct (poll_recv_inv _ _ _ _ _ Hr E1) as (Hr1 & Hc & Her & Hp).
  destruct (IH _ _ _ Hr1 E2) as (Hc2 & Her2 & Hno & Hall). split_and!.
  - rewrite Hc, Hc2, app_assoc. done.
  - intros e [Heq|Hin]%elem_of_cons; [rewrite <-Heq in Hp; by destruct Hp|by apply Her, Her2].
  - intros [Heq|Hin]%elem_of_cons; [by rewrite <-Heq in Hp|done].
  - intros Hlen. rewrite Hc, length_app in Hlen. destruct p as [|[[[[d h] port]|]|e]]; cbn [got length] in Hlen; try done.
    + destruct Hp as [[Hz ->]|?]; [|apply Hall; lia]. rewrite Hz in Hc2. symmetry in Hc2.
      by apply app_eq_nil in Hc2 as [_ ->].
    + apply Hall. lia.
    + apply Hall. destruct Hp. lia.
Qed.

(** The start of a stream of frames is received without failure. *)
Lemma receiving_fresh ds w answers a bound :
  Forall dgram_ok ds → dgrams_wire ds = received answers ++ w → RData [] ∉ answers →
  receiving answers (with_taddr a bound) ∧ to_come answers (with_taddr a bound) `prefix_of` dgrams_seen ds
  ∧ (w = [] → to_come answers (with_taddr a bound) = dgrams_seen ds).
Proof.
  intros Hd Ew Hn. pose proof (parse_dgrams ds Hd) as Hp. rewrite Ew in Hp.
  assert (p_err (parse tunnel_machine Head (received answers)) = None) as He
    by (eapply (parse_no_err tunnel_machine); [done|by rewrite Hp]).
  pose proof Hp as Hp2. rewrite (parse_app tunnel_machine) in Hp2 by done. cbv zeta in Hp2. injection Hp2 as Hfr Hst _ _.
  unfold to_come, with_taddr. cbn [t_read]. split_and!.
  - split; unfold ahead; cbn [t_read read_state read_buf app]; [by split_and!; cbn; try lia|done..|].
    intros Hs. rewrite Hs in Hst. by rewrite parse_stop in Hst by (by right; left).
  - unfold ahead. cbn [in_hand remaining plain plain_pos read_state read_buf app drop]. by eexists.
  - intros ->. unfold ahead. cbn [in_hand remaining plain plain_pos read_state read_buf app drop].
    rewrite app_nil_r in Hp. by rewrite Hp.
Qed.

(** C17: UDP over SOCKS5: of the datagrams a sender accepts, by [send_to] or by
    writing, whatever its transport takes and when, the receiver gets in order
    the first ones, each whole, with its port and its host in canonical form,
    however the bytes are cut; all of them once all bytes are taken and enough
    polls are made. Empty datagrams are not reported. Only errors of the
    transport are seen, and no end of stream. *)
Theorem tunnel_transfer a bound a' bound' ops answers w n ps t' answers' :
  let s := tunnel_ops ops (with_taddr a bound) in
  let ds := all_accepted ops (with_taddr a bound) in
  Forall (op_ok (with_taddr a bound)) ops →
  sent (t_out s) = received answers ++ w → RData [] ∉ answers →
  recvs n answers (with_taddr a' bound') = (ps, t', answers') →
  all_got ps `prefix_of` dgrams_seen ds
  ∧ (∀ e, Ready (Err e) ∈ ps → RErr e ∈ answers) ∧ (Ready (Ok None) ∉ ps)
  ∧ (w = [] → unsent (t_out s) = [] → (length (dgrams_seen ds) + length answers ≤ n)%nat →
     all_got ps = dgrams_seen ds).
Proof.
  intros s ds Hops Hsent Hn Hrun.
  destruct (tunnel_ops_stream ops (with_taddr a bound)) as [Estream Hds]; [unfold out_ok; cbn; lia|done|]. fold s ds in Estream, Hds.
  unfold stream in Estream. cbn in Estream. rewrite Hsent, <-app_assoc in Estream. symmetry in Estream.
  destruct (receiving_fresh ds _ answers a' bound' Hds Estream Hn) as (Hr & Hpre & Hfull).
  destruct (recvs_inv _ _ _ _ _ _ Hr Hrun) as (Hc & He & Hno & Hall). split_and!; [|done..|].
  - etrans; [|exact Hpre]. rewrite Hc. by eexists.
  - intros -> Hu Hlen. rewrite Hu in Hfull. specialize (Hfull eq_refl). rewrite Hfull in Hall, Hc.
    rewrite (Hall Hlen), app_nil_r in Hc. done.
Qed.

Lemma tunnel_transfer_witness :
  let t0 := with_taddr (str "a.b", 80) None in
  let ops := [OpWrite [ATake 3; APending] [7; 8];
              OpSendTo [APending; ATake 100; ATake 100] (str "1.2.3.4") 53 [9]; OpFlush [] (Ready (Ok tt))] in
  let wire := sent (t_out (tunnel_ops ops t0)) in
  let '(ps, _, _) := recvs 6 [RData (take 4 wire); RPending; RData (drop 4 wire)] tunnel_server in
  all_got ps = [((str "a.b", 80), [7; 8]); ((str "1.2.3.4", 53), [9])].
Proof.
  intros t0 ops wire. set (answers := [RData (take 4 wire); RPending; RData (drop 4 wire)]).
  destruct (recvs 6 answers tunnel_server) as [[ps t'] a'] eqn:E.
  destruct (tunnel_transfer (str "a.b", 80) None (unspecified, 0) None ops answers [] 6 ps t' a') as (_ & _ & _ & Hall);
    [| | |exact E|rewrite Hall; [|reflexivity|..]].
  - repeat constructor; try (apply host_ok_dec_intro); by vm_compute.
  - by vm_compute.
  - unfold answers. rewrite !not_elem_of_cons. split_and!; [by vm_compute..|apply not_elem_of_nil].
  - by vm_compute.
  - by vm_compute.
  - vm_compute. lia.
Defined.
