(* ===== verification/Effects.v ===== *)
(** * What a handler does to the network

    A handler owns the connection of its client and acts on the network: it
    dials targets through the chain, connects, listens, binds UDP sockets and
    splices connections. An [act] is a step of a handler: it passes the client's
    connection and the trace of these actions along and stops at the first
    error, as [?] does. What the operating system, TLS and the chain answer is
    the handler's environment, a parameter ([Env]). *)

From stdpp Require Import base list option numbers strings sets.
From Stdlib Require Import ZArith Lia.
From S2P Require Import Prelude Text IpAddr Conn Socks5Addr.

Inductive Event : Set :=
| Dialled (target : bytes)
| Connected (addr : bytes)
| Listened (addr : bytes)
| BoundUdp (addr : SocketAddr)
| SentUdp (data : bytes) (addr : SocketAddr)
| AnsweredUdp (data : bytes) (addr : SocketAddr)
| Health (node : bytes) (alive : bool)
| Spliced (client other : Conn).

Record World : Set := mkWorld { w_conn : Conn; w_trace : list Event }.

Definition act (A : Type) : Type := World → result HandlerError A * World.

Definition aret {A} (a : A) : act A := λ w, (Ok a, w).
Definition afail {A} (e : HandlerError) : act A := λ w, (Err e, w).
Definition abind {A B} (m : act A) (k : A → act B) : act B :=
  λ w, match m w with (Ok a, w) => k a w | (Err e, w) => (Err e, w) end.
Definition alift {A} (r : result HandlerError A) : act A := λ w, (r, w).

(** A conversation with the client. *)
Definition say {A} (m : conv HandlerError A) : act A :=
  λ w, let '(r, c) := m (w_conn w) in (r, mkWorld c (w_trace w)).

Definition emit (ev : Event) : act () := λ w, (Ok tt, mkWorld (w_conn w) (w_trace w ++ [ev])).
Definition the_conn : act Conn := λ w, (Ok (w_conn w), w).
Definition set_conn (c : Conn) : act () := λ w, (Ok tt, mkWorld c (w_trace w)).

(** [transport]: the client and the other end are joined; what either sends
    from now on goes to the other. The handlers ignore how it ends. *)
Definition splice (other : Conn) : act () := λ w, emit (Spliced (w_conn w) other) w.

Notation "x <- m ;; k" := (abind m (λ x, k)) (at level 100, m at next level, right associativity) : rt_scope.
Notation "m ;;; k" := (abind m (λ _, k)) (at level 100, right associativity) : rt_scope.

Lemma abind_ok {A B} (m : act A) (k : A → act B) w a w' : m w = (Ok a, w') → abind m k w = k a w'.
Proof. intros H. unfold abind. by rewrite H. Qed.

Lemma abind_err {A B} (m : act A) (k : A → act B) w e w' : m w = (Err e, w') → abind m k w = (Err e, w').
Proof. intros H. unfold abind. by rewrite H. Qed.

Lemma abind_inv {A B} (m : act A) (k : A → act B) w r w' :
  abind m k w = (r, w') →
  (∃ a w1, m w = (Ok a, w1) ∧ k a w1 = (r, w')) ∨ (∃ e, m w = (Err e, w') ∧ r = Err e).
Proof. unfold abind. destruct (m w) as [[a|e] w1]; [left; eauto|]. intros [= <- <-]. right. eauto. Qed.

Lemma say_ok {A} (m : conv HandlerError A) c tr r c' : m c = (r, c') → say m (mkWorld c tr) = (r, mkWorld c' tr).
Proof. intros H. unfold say. cbn. by rewrite H. Qed.

(** ** What a step may do

    [Allows P m]: every event that [m] adds to the trace satisfies [P]. *)
Class Allows {A} (P : Event → Prop) (m : act A) : Prop :=
  allows w r w' : m w = (r, w') → ∃ evs, w_trace w' = w_trace w ++ evs ∧ Forall P evs.

Section allows.
Context (P : Event → Prop).

#[export] Instance allows_ret {A} (a : A) : Allows P (aret a).
Proof. intros w r w' [= <- <-]. exists []. by rewrite app_nil_r. Qed.
#[export] Instance allows_fail {A} (e : HandlerError) : Allows P (afail (A := A) e).
Proof. intros w r w' [= <- <-]. exists []. by rewrite app_nil_r. Qed.
#[export] Instance allows_lift {A} (x : result HandlerError A) : Allows P (alift x).
Proof. intros w r w' [= <- <-]. exists []. by rewrite app_nil_r. Qed.
#[export] Instance allows_say {A} (m : conv HandlerError A) : Allows P (say m).
Proof. intros w r w' H. unfold say in H. destruct (m _). simplify_eq. exists []. by rewrite app_nil_r. Qed.
#[export] Instance allows_the_conn : Allows P the_conn.
Proof. intros w r w' [= <- <-]. exists []. by rewrite app_nil_r. Qed.
#[export] Instance allows_set_conn c : Allows P (set_conn c).
Proof. intros w r w' [= <- <-]. exists []. by rewrite app_nil_r. Qed.
Lemma allows_emit ev : P ev → Allows P (emit ev).
Proof. intros Hp w r w' [= <- <-]. exists [ev]. split; [done|]. by constructor. Qed.
Lemma allows_splice c : (∀ a, P (Spliced a c)) → Allows P (splice c).
Proof. intros Hp w r w' H. by eapply (allows_emit (Spliced (w_conn w) c)). Qed.
#[export] Instance allows_bind {A B} (m : act A) (k : A → act B) :
  Allows P m → (∀ a, Allows P (k a)) → Allows P (abind m k).
Proof.
  intros Hm Hk w r w' H. apply abind_inv in H as [(a & w1 & H1 & H2)|(e & H1 & _)]; [|by eapply Hm].
  apply Hm in H1 as (e1 & E1 & P1). apply Hk in H2 as (e2 & E2 & P2).
  exists (e1 ++ e2). by rewrite E2, E1, app_assoc, Forall_app.
Qed.
#[export] Instance allows_if {A} (b : bool) (m k : act A) : Allows P m → Allows P k → Allows P (if b then m else k).
Proof. by destruct b. Qed.
End allows.
