(* ===== verification/Socks5Udp.v ===== *)
(** * UDP relays of the SOCKS5 handler

    The two datagram loops of [Socks5Handler] in src/socks5.rs: [transport_udp],
    the relay of a UDP association, and [tunnel_server_udp], the server of UDP
    over the control connection; with [udp_dst_allowed] and [resolve_udp_addr].
    A loop is run on the events [select!] hands it, in their order. *)

From stdpp Require Import base list option numbers strings sets.
From Stdlib Require Import ZArith Lia.
From S2P Require Import Prelude Text Utf8 IpAddr AsyncIo Permissions Conn Socks5Addr Socks5Tunnel Effects.

Definition UDP_BUFFER_SIZE : nat := Z.to_nat (64 * 1024).

Section relay.
(** The options, and [lookup_host]: the addresses of a name, none when the
    lookup fails. *)
Context (o : HandlerOptions) (lookup_host : bytes → Z → list SocketAddr).

Definition udp_dst_allowed (dst : bytes) : bool :=
  if negb (may "udp" o dst) then false else negb (bypassed o dst).

Definition resolve_udp_addr (host : bytes) (port : Z) : option SocketAddr :=
  match parse_ip host with
  | Some ip => Some (mkAddr ip port)
  | None => head (lookup_host host port)
  end.

(** Where a datagram for [host:port] goes, if it may: both the name as written
    and the address it resolves to are checked. The two loops share these lines. *)
Definition udp_route (host : bytes) (port : Z) : option SocketAddr :=
  let dst := join_host_port host port in
  if negb (udp_dst_allowed dst) then None
  else
    match resolve_udp_addr host port with
    | None => None
    | Some raddr =>
        let resolved := show_addr raddr in
        if negb (bool_decide (resolved = dst)) && negb (udp_dst_allowed resolved) then None else Some raddr
    end.

(** ** The relay of an association *)

(** A datagram at the relay socket or at the peer socket, with the outcome of
    the send it leads to, or a failed receive. *)
Inductive UdpEv : Set :=
| FromClient (b : bytes) (laddr : SocketAddr) (sending : result io_error ())
| FromPeer (b : bytes) (raddr : SocketAddr) (sending : result io_error ())
| RecvFailed (e : io_error).

(** One turn of the loop: the client kept, or the error that ends it, and what
    was sent. *)
Definition transport_udp_turn (client_addr : option SocketAddr) (ev : UdpEv) :
    result io_error (option SocketAddr) * list Event :=
  match ev with
  | RecvFailed e => (Err e, [])
  | FromClient b laddr sending =>
      let client_addr := match client_addr with None => Some laddr | Some a => Some a end in
      if negb (bool_decide (client_addr = Some laddr)) then (Ok client_addr, [])
      else
        let rbuf := take UDP_BUFFER_SIZE b in
        match parse_udp_datagram rbuf with
        | None => (Ok client_addr, [])
        | Some (frag, host, port, off) =>
            if negb (frag =? 0) then (Ok client_addr, [])
            else
              match udp_route host port with
              | None => (Ok client_addr, [])
              | Some raddr =>
                  (match sending with Ok _ => Ok client_addr | Err e => Err e end,
                   [SentUdp (drop off rbuf) raddr])
              end
        end
  | FromPeer b raddr sending =>
      match client_addr with
      | None => (Ok None, [])
      | Some caddr =>
          if bypassed o (show_addr raddr) then (Ok (Some caddr), [])
          else
            (match sending with Ok _ => Ok (Some caddr) | Err e => Err e end,
             [AnsweredUdp (encode_udp_datagram raddr (take UDP_BUFFER_SIZE b)) caddr])
      end
  end.

(** [transport_udp]: the turns until an error; [None] while it would go on. *)
Fixpoint transport_udp_loop (client_addr : option SocketAddr) (evs : list UdpEv) :
    option io_error * list Event :=
  match evs with
  | [] => (None, [])
  | ev :: evs =>
      match transport_udp_turn client_addr ev with
      | (Err e, out) => (Some e, out)
      | (Ok client_addr, out) =>
          let '(r, outs) := transport_udp_loop client_addr evs in (r, out ++ outs)
      end
  end.
Definition transport_udp (evs : list UdpEv) : option io_error * list Event := transport_udp_loop None evs.

(** ** The server of a tunnel *)

(** [recv_from] on the tunnel is polled, with the outcome of the send it leads
    to; a datagram at the socket, with what the tunnel's transport answers to
    the writes it leads to; or a failed receive. *)
Inductive TunnelEv : Set :=
| TunnelReady (sending : result io_error ())
| PeerReady (b : bytes) (raddr : SocketAddr) (writes : list Answer)
| PeerFailed (e : io_error).

Inductive Turn : Type :=
| Going (t : Tunnel) (answers : list ReadAnswer)
| Done (r : result io_error ()) (t : Tunnel)
| Stuck (t : Tunnel).

Definition tunnel_server_turn (ev : TunnelEv) (answers : list ReadAnswer) (t : Tunnel) : Turn * list Event :=
  match ev with
  | TunnelReady sending =>
      match poll_recv_from answers t with
      | (Pending, t, answers) => (Going t answers, [])
      | (Ready (Err e), t, _) => (Done (Err e) t, [])
      | (Ready (Ok None), t, _) => (Done (Ok tt) t, [])
      | (Ready (Ok (Some (data, host, port))), t, answers) =>
          match udp_route host port with
          | None => (Going t answers, [])
          | Some raddr =>
              (match sending with Ok _ => Going t answers | Err e => Done (Err e) t end, [SentUdp data raddr])
          end
      end
  | PeerReady b raddr writes =>
      if bypassed o (show_addr raddr) then (Going t answers, [])
      else
        match send_to writes (take UDP_BUFFER_SIZE b) (show_ip (sa_ip raddr)) (sa_port raddr) t with
        | (Ready (Ok _), t) => (Going t answers, [])
        | (Ready (Err e), t) => (Done (Err e) t, [])
        | (Pending, t) => (Stuck t, [])
        end
  | PeerFailed e => (Done (Err e) t, [])
  end.

(** [tunnel_server_udp]: [Stuck] when the client stops reading for good. *)
Fixpoint tunnel_server_udp (evs : list TunnelEv) (answers : list ReadAnswer) (t : Tunnel) : Turn * list Event :=
  match evs with
  | [] => (Going t answers, [])
  | ev :: evs =>
      match tunnel_server_turn ev answers t with
      | (Going t answers, out) =>
          let '(r, outs) := tunnel_server_udp evs answers t in (r, out ++ outs)
      | (stop, out) => (stop, out)
      end
  end.

(** ** Where datagrams may go *)

(** A route needs both checks to pass. *)
Lemma udp_route_spec host port a :
  udp_route host port = Some a ↔
  resolve_udp_addr host port = Some a
  ∧ udp_dst_allowed (join_host_port host port) = true ∧ udp_dst_allowed (show_addr a) = true.
Proof.
  unfold udp_route. destruct (udp_dst_allowed (join_host_port host port)) eqn:E1; cbn [negb].
  2: { split; [done|]. by intros (_ & ? & _). }
  destruct (resolve_udp_addr host port) as [b|]; [|split; [done|]; by intros [? _]].
  assert (udp_dst_allowed (show_addr b) = false → show_addr b ≠ join_host_port host port) as Hne.
  { intros H Heq. rewrite Heq in H. congruence. }
  case_bool_decide as Eb; cbn [negb andb]; destruct (udp_dst_allowed (show_addr b)) eqn:E2; cbn [negb];
    try (by destruct (Hne eq_refl)).
  1,2: split; [intros [= <-]; by split_and!|by intros [[= <-] _]].
  split; [done|]. intros ([= ->] & _ & ?). congruence.
Qed.

Lemma udp_dst_allowed_spec dst :
  udp_dst_allowed dst = true ↔ may "udp" o dst = true ∧ bypassed o dst = false.
Proof using o. unfold udp_dst_allowed. destruct (may "udp" o dst), (bypassed o dst); cbn; split; by try intros []. Qed.

(** What the loops do to the network: they send where it is allowed. *)
Definition udp_ok (ev : Event) : Prop :=
  match ev with
  | SentUdp _ dst => udp_dst_allowed (show_addr dst) = true
  | AnsweredUdp _ _ => True
  | _ => False
  end.

Lemma route_udp_ok host port data a : udp_route host port = Some a → Forall udp_ok [SentUdp data a].
Proof. intros (_ & _ & H)%udp_route_spec. by apply Forall_singleton. Qed.

Lemma transport_udp_ok client evs : Forall udp_ok (transport_udp_loop client evs).2.
Proof.
  revert client. induction evs as [|ev evs IH]; intros client; cbn [transport_udp_loop]; [constructor|].
  assert (Forall udp_ok (transport_udp_turn client ev).2) as Ht.
  { destruct ev as [b a s|b src s|e]; cbn [transport_udp_turn snd]; [| |constructor].
    - destruct (negb _); [constructor|]. destruct (parse_udp_datagram _) as [[[[frag host] port] off]|]; [|constructor].
      destruct (negb _); [constructor|]. destruct (udp_route host port) eqn:Er; [by eapply route_udp_ok|constructor].
    - destruct client; [|constructor]. destruct (bypassed _ _); [constructor|by apply Forall_singleton]. }
  destruct (transport_udp_turn client ev) as [[c|e] out]; [|done].
  specialize (IH c). destruct (transport_udp_loop c evs). cbn in *. by apply Forall_app.
Qed.

Definition tunnel_ok (ev : Event) : Prop := match ev with SentUdp _ _ => udp_ok ev | _ => False end.

Lemma tunnel_server_ok evs answers t : Forall tunnel_ok (tunnel_server_udp evs answers t).2.
Proof.
  revert answers t. induction evs as [|ev evs IH]; intros answers t; cbn [tunnel_server_udp]; [constructor|].
  assert (Forall tunnel_ok (tunnel_server_turn ev answers t).2) as Ht.
  { destruct ev as [s|b src w|e]; cbn [tunnel_server_turn]; [| |constructor].
    - destruct (poll_recv_from answers t) as [[[|[[[[d h] p]|]|]] t1] a1]; try constructor.
      destruct (udp_route h p) eqn:Er; [|constructor]. apply (route_udp_ok _ _ d) in Er.
      inversion Er; subst. by constructor.
    - destruct (bypassed _ _); [constructor|]. destruct (send_to _ _ _ _ _) as [[|[|]] ?]; constructor. }
  destruct (tunnel_server_turn ev answers t) as [[t1 a1|r t1|t1] out]; [|done..].
  specialize (IH a1 t1). destruct (tunnel_server_udp evs a1 t1). cbn in *. by apply Forall_app.
Qed.

(** ** What an association relays *)

(** What one event leads to when the association is [owner]'s. *)
Definition relayed (owner : SocketAddr) (ev : UdpEv) : list Event :=
  match ev with
  | FromClient b a _ =>
      match parse_udp_datagram (take UDP_BUFFER_SIZE b) with
      | Some (0, host, port, off) =>
          if bool_decide (a = owner) then
            match udp_route host port with
            | Some dst => [SentUdp (drop off (take UDP_BUFFER_SIZE b)) dst]
            | None => []
            end
          else []
      | _ => []
      end
  | FromPeer b src _ =>
      if bypassed o (show_addr src) then []
      else [AnsweredUdp (encode_udp_datagram src (take UDP_BUFFER_SIZE b)) owner]
  | RecvFailed _ => []
  end.

Lemma turn_relayed owner ev :
  let '(r, out) := transport_udp_turn (Some owner) ev in
  out = relayed owner ev ∧ (∀ c, r = Ok c → c = Some owner).
Proof.
  destruct ev as [b a s|b src s|e]; cbn [transport_udp_turn relayed]; [| |done].
  - destruct (decide (a = owner)) as [->|Hne].
    + rewrite !bool_decide_true by done. cbn [negb].
      destruct (parse_udp_datagram (take UDP_BUFFER_SIZE b)) as [[[[frag host] port] off]|]; [|naive_solver].
      destruct frag; cbn [Z.eqb negb]; try naive_solver.
      destruct (udp_route host port); [|naive_solver]. destruct s; naive_solver.
    + rewrite !bool_decide_false by congruence. cbn [negb]. split; [|naive_solver].
      destruct (parse_udp_datagram _) as [[[[[] ?] ?] ?]|]; done.
  - destruct (bypassed o (show_addr src)); [naive_solver|]. destruct s; naive_solver.
Qed.

Lemma loop_relayed owner evs r out :
  transport_udp_loop (Some owner) evs = (r, out) →
  ∃ used rest, evs = used ++ rest ∧ (r = None → rest = []) ∧ out = concat (relayed owner <$> used).
Proof.
  revert out. induction evs as [|ev evs IH]; intros out H; cbn [transport_udp_loop] in H.
  { simplify_eq. by exists [], []. }
  pose proof (turn_relayed owner ev) as Ht. destruct (transport_udp_turn (Some owner) ev) as [[c|e] o1].
  - destruct Ht as [-> Hc]. specialize (Hc c eq_refl) as ->.
    destruct (transport_udp_loop (Some owner) evs) as [r2 o2]. simplify_eq.
    destruct (IH _ eq_refl) as (used & rest & -> & Hr & ->). by exists (ev :: used), rest.
  - destruct Ht as [-> _]. simplify_eq. exists [ev], evs. split_and!; [done..|]. cbn. by rewrite app_nil_r.
Qed.

(** Before the first datagram of a client, nothing is sent to anyone. *)
Definition quiet (ev : UdpEv) : Prop := match ev with FromPeer _ _ _ => True | _ => False end.

Lemma loop_quiet pre evs : Forall quiet pre → transport_udp_loop None (pre ++ evs) = transport_udp_loop None evs.
Proof.
  induction 1 as [|[| |] pre Hq _ IH]; try done. cbn [app transport_udp_loop transport_udp_turn]. rewrite IH.
  by destruct (transport_udp_loop None evs).
Qed.

Lemma loop_first b owner s evs :
  transport_udp_loop None (FromClient b owner s :: evs) = transport_udp_loop (Some owner) (FromClient b owner s :: evs).
Proof. done. Qed.

Lemma relayed_sent owner ev data dst :
  SentUdp data dst ∈ relayed owner ev →
  ∃ b s host port off, ev = FromClient b owner s
    ∧ parse_udp_datagram (take UDP_BUFFER_SIZE b) = Some (0, host, port, off)
    ∧ data = drop off (take UDP_BUFFER_SIZE b) ∧ udp_route host port = Some dst.
Proof.
  destruct ev as [b a s|b src s|e]; cbn [relayed]; [| |by intros ?%elem_of_nil].
  - destruct (parse_udp_datagram _) as [[[[[] host] port] off]|] eqn:Ep; try (by intros ?%elem_of_nil).
    case_bool_decide; [|by intros ?%elem_of_nil]. destruct (udp_route host port) eqn:Er; [|by intros ?%elem_of_nil].
    intros ?%list_elem_of_singleton. simplify_eq. by eexists _, _, _, _, _.
  - destruct (bypassed _ _); [by intros ?%elem_of_nil|]. by intros ?%list_elem_of_singleton.
Qed.

Lemma relayed_answered owner ev data c :
  AnsweredUdp data c ∈ relayed owner ev →
  c = owner ∧ ∃ b src s, ev = FromPeer b src s ∧ bypassed o (show_addr src) = false
    ∧ data = encode_udp_datagram src (take UDP_BUFFER_SIZE b).
Proof.
  destruct ev as [b a s|b src s|e]; cbn [relayed]; [| |by intros ?%elem_of_nil].
  - destruct (parse_udp_datagram _) as [[[[[] host] port] off]|] eqn:Ep; try (by intros ?%elem_of_nil).
    case_bool_decide; [|by intros ?%elem_of_nil]. destruct (udp_route host port) eqn:Er; [|by intros ?%elem_of_nil].
    by intros ?%list_elem_of_singleton.
  - destruct (bypassed _ _) eqn:Eb; [by intros ?%elem_of_nil|]. intros ?%list_elem_of_singleton. simplify_eq. split; [done|].
    by eexists _, _, _.
Qed.
End relay.

(** ** What the server of a tunnel forwards *)

Section tunnel_server.
Context (o : HandlerOptions) (lookup_host : bytes → Z → list SocketAddr).

(** What becomes of a datagram read from the tunnel. *)
Definition forwarded (d : (bytes * Z) * bytes) : option Event :=
  SentUdp d.2 <$> udp_route o lookup_host d.1.1 d.1.2.

(** The datagrams the world sends back, those of bypassed addresses apart. *)
Definition returned (ev : TunnelEv) : option Datagram :=
  match ev with
  | PeerReady b src _ =>
      if bypassed o (show_addr src) then None
      else Some (mkDgram (show_ip (sa_ip src)) (sa_port src) (take UDP_BUFFER_SIZE b))
  | _ => None
  end.

Definition is_ready (ev : TunnelEv) : bool := match ev with TunnelReady _ => true | _ => false end.
Definition turn_tunnel (u : Turn) : Tunnel := match u with Going t _ | Done _ t | Stuck t => t end.

(** One turn takes at most one datagram from the tunnel and queues at most one. *)
Lemma tunnel_turn_inv ev answers t u out :
  receiving answers t → out_ok (t_out t) →
  tunnel_server_turn o lookup_host ev answers t = (u, out) →
  out_ok (t_out (turn_tunnel u))
  ∧ (∃ back, back `prefix_of` option_list (returned ev) ∧ stream (turn_tunnel u) = stream t ++ dgrams_wire back
       ∧ (∀ t' a', u = Going t' a' → back = option_list (returned ev)))
  ∧ ∃ seen, seen `prefix_of` to_come answers t ∧ out = omap forwarded seen
      ∧ ∀ t' a', u = Going t' a' →
          receiving a' t' ∧ to_come answers t = seen ++ to_come a' t' ∧ (length a' ≤ length answers)%nat
          ∧ (is_ready ev = true → seen = [] → (length a' < length answers)%nat ∨ to_come a' t' = []).
Proof.
  intros Hr Ho H. destruct ev as [s|b src w|e]; cbn [tunnel_server_turn returned is_ready option_list] in *.
  - destruct (poll_recv_from answers t) as [[p t1] a1] eqn:Ep.
    assert (t_out t1 = t_out t) as Et.
    { unfold poll_recv_from, poll_datagram in Ep. destruct (poll_frame _ _ _) as [[[|[[]|?]] ?] ?]; by simplify_eq. }
    assert (stream t1 = stream t ++ dgrams_wire []) as Es by (unfold stream; by rewrite Et, app_nil_r).
    destruct (poll_recv_inv _ _ _ _ _ Hr Ep) as (Hr1 & Hc & _ & Hp).
    assert (∀ u', turn_tunnel u' = t1 → out_ok (t_out (turn_tunnel u')) ∧
      (∃ back, back `prefix_of` [] ∧ stream (turn_tunnel u') = stream t ++ dgrams_wire back
       ∧ (∀ t' a', u' = Going t' a' → back = []))) as Hw.
    { intros u' ->. rewrite Et. split; [done|]. by exists []. }
    destruct p as [|[[[[d h] port]|]|e]]; simplify_eq.
    + split_and!; [by apply Hw..|]. exists []. split_and!; [apply prefix_nil|done|]. intros ? ? [= <- <-].
      split_and!; [done|done|by destruct Hp as [[Hz ->]|?]; cbn; lia|].
      intros _ _. destruct Hp as [[Hz _]|?]; [by right|by left].
    + assert (length a1 ≤ length answers)%nat as Hl by exact Hp. clear Hp.
      cbn [got app] in Hc.
      destruct (udp_route o lookup_host h port) as [ra|] eqn:Er.
      * assert (turn_tunnel u = t1 ∧ out = [SentUdp d ra] ∧ (∀ t' a', u = Going t' a' → t' = t1 ∧ a' = a1)) as (Hu & -> & Hg).
        { destruct s; simplify_eq; split_and!; try done. by intros ? ? [= <- <-]. }
        split_and!; [by apply Hw..|]. exists [((h, port), d)]. split_and!.
        -- rewrite Hc. by exists (to_come a1 t1).
        -- cbn. unfold forwarded. cbn. by rewrite Er.
        -- intros t' a' E. destruct (Hg _ _ E) as [-> ->]. by split_and!.
      * simplify_eq. split_and!; [by apply Hw..|]. exists [((h, port), d)]. split_and!.
        -- rewrite Hc. by exists (to_come a1 t1).
        -- cbn. unfold forwarded. cbn. by rewrite Er.
        -- intros t' a' [= <- <-]. by split_and!.
    + done.
    + split_and!; [by apply Hw..|]. exists []. by split_and!; [apply prefix_nil|..].
  - assert (∀ v, t_read (turn_tunnel v) = t_read t → (∀ t' a', v = Going t' a' → a' = answers) →
      ∃ seen, seen `prefix_of` to_come answers t ∧ [] = omap forwarded seen
      ∧ ∀ t' a', v = Going t' a' →
          receiving a' t' ∧ to_come answers t = seen ++ to_come a' t' ∧ (length a' ≤ length answers)%nat
          ∧ (false = true → seen = [] → (length a' < length answers)%nat ∨ to_come a' t' = [])) as Hs.
    { intros v Ev Ha. exists []. split_and!; [apply prefix_nil|done|]. intros t' a' ->. specialize (Ha _ _ eq_refl) as ->.
      cbn in Ev. unfold to_come. rewrite Ev. split_and!; try done. destruct Hr. by split; rewrite ?Ev. }
    destruct (bypassed o (show_addr src)); simplify_eq.
    { split_and!; [done| |by apply Hs; [|intros ? ? [= _ <-]]]. exists []. split_and!; [done|by rewrite app_nil_r|done]. }
    revert H. generalize (take UDP_BUFFER_SIZE b) as data, (show_ip (sa_ip src)) as host, (sa_port src) as port.
    intros data host port H. destruct (tunnel_op_stream (OpSendTo w host port data) t Ho) as (Es & Ho' & _ & _).
    cbn [tunnel_op] in Es, Ho'.
    destruct (send_to w data host port t) as [p t1] eqn:Ep. cbn [snd] in Es, Ho'.
    assert (t_read t1 = t_read t) as Er by (by eapply send_to_read).
    assert (turn_tunnel u = t1 ∧ out = [] ∧ (∀ t' a', u = Going t' a' → a' = answers ∧ p = Ready (Ok tt))) as (Eu & -> & Hg).
    { destruct p as [|[[]|e]]; simplify_eq; split_and!; try done. by intros ? ? [= _ <-]. }
    rewrite Eu. split_and!; [done| |apply Hs; [by rewrite Eu|naive_solver]].
    exists (accepted (OpSendTo w host port data) t). split_and!; [|done|].
    + cbn [accepted]. destruct (tunnel_flush_await w t) as [[[|[]] ?] ?]; try apply prefix_nil.
      destruct (_ <? _)%nat; [apply prefix_nil|done].
    + intros t' a' E. apply Hg in E as [_ ->]. by eapply send_to_accepted.
  - simplify_eq. cbn. split_and!; [done|exists []; by rewrite app_nil_r|]. exists []. by split_and!; [apply prefix_nil|..].
Qed.

Lemma tunnel_server_inv evs answers t u out :
  receiving answers t → out_ok (t_out t) →
  tunnel_server_udp o lookup_host evs answers t = (u, out) →
  (∃ back, back `prefix_of` omap returned evs ∧ stream (turn_tunnel u) = stream t ++ dgrams_wire back
     ∧ (∀ t' a', u = Going t' a' → back = omap returned evs))
  ∧ ∃ seen, seen `prefix_of` to_come answers t ∧ out = omap forwarded seen
      ∧ ∀ t' a', u = Going t' a' →
          (length (to_come answers t) + length answers ≤ length (filter is_ready evs))%nat → seen = to_come answers t.
Proof.
  revert answers t u out. induction evs as [|ev evs IH]; intros answers t u out Hr Ho H; cbn [tunnel_server_udp] in H.
  { simplify_eq. split; [exists []; by rewrite app_nil_r|]. exists []. split_and!; [apply prefix_nil|done|].
    intros _ _ _ Hl. by destruct (to_come answers t); [|cbn in Hl; lia]. }
  destruct (tunnel_server_turn o lookup_host ev answers t) as [u1 o1] eqn:E1.
  destruct (tunnel_turn_inv _ _ _ _ _ Hr Ho E1) as (Ho1 & (b1 & Pb1 & S1 & F1) & s1 & Ps1 & -> & G1).
  assert (∀ k, omap returned (ev :: k) = option_list (returned ev) ++ omap returned k) as Eom
    by (intros k; cbn; by destruct (returned ev)).
  destruct u1 as [t1 a1|r1 t1|t1]; simplify_eq.
  2,3: split; [exists b1; rewrite Eom; split_and!; [by apply prefix_app_r|done..]|by exists s1].
  destruct (tunnel_server_udp o lookup_host evs a1 t1) as [u2 o2] eqn:E2. simplify_eq. cbn [turn_tunnel] in *.
  destruct (G1 _ _ eq_refl) as (Hr1 & Hc & Hl & Hprog). specialize (F1 _ _ eq_refl) as ->.
  destruct (IH _ _ _ _ Hr1 Ho1 E2) as ((b2 & Pb2 & S2 & F2) & s2 & Ps2 & -> & G2).
  split.
  - exists (option_list (returned ev) ++ b2). rewrite Eom, dgrams_wire_app, app_assoc, <-S1. split_and!; [by apply prefix_app|done|].
    intros t' a' E. by rewrite (F2 _ _ E).
  - exists (s1 ++ s2). rewrite Hc, omap_app. split_and!; [by apply prefix_app|done|].
    intros t' a' E Hlen. f_equal. destruct (decide (to_come a1 t1 = [])) as [Hz|Hz].
    { rewrite Hz in Ps2 |- *. by apply prefix_nil_inv in Ps2. }
    apply (G2 _ _ E). rewrite length_app in Hlen. rewrite filter_cons in Hlen.
    destruct (decide (is_ready ev)) as [Hrd|Hrd]; cbn in Hlen; [|lia].
    destruct s1 as [|x s1]; [|cbn in Hlen; lia]. apply Is_true_true in Hrd.
    destruct (Hprog Hrd eq_refl); [lia|done].
Qed.
End tunnel_server.


(** The server of a tunnel, on datagrams [ds] framed by the client, however the
    bytes are cut: the datagrams are taken in order and each is sent on where
    [udp_route] allows, so only to destinations that pass the permissions and
    the bypass rules as written and as resolved; what comes back from addresses
    that are not bypassed is framed whole and in order towards the client. With
    enough polls and no failure nothing is left out either way. *)
Theorem tunnel_server_relays o lookup_host ds answers w evs u out :
  Forall dgram_ok ds → dgrams_wire ds = received answers ++ w → RData [] ∉ answers →
  tunnel_server_udp o lookup_host evs answers tunnel_server = (u, out) →
  (∃ seen, seen `prefix_of` dgrams_seen ds ∧ out = omap (forwarded o lookup_host) seen
     ∧ (∀ t' a', u = Going t' a' → w = [] →
          (length (dgrams_seen ds) + length answers ≤ length (filter is_ready evs))%nat → seen = dgrams_seen ds))
  ∧ (∀ data dst, SentUdp data dst ∈ out → ∃ host port, ((host, port), data) ∈ dgrams_seen ds
       ∧ resolve_udp_addr lookup_host host port = Some dst
       ∧ udp_dst_allowed o (join_host_port host port) = true ∧ udp_dst_allowed o (show_addr dst) = true)
  ∧ (∃ back, back `prefix_of` omap (returned o) evs ∧ stream (turn_tunnel u) = dgrams_wire back
       ∧ (∀ t' a', u = Going t' a' → back = omap (returned o) evs)).
Proof.
  intros Hd Ew Hn H. destruct (receiving_fresh ds w answers (unspecified, 0) None Hd Ew Hn) as (Hr & Hpre & Hfull).
  destruct (tunnel_server_inv _ _ _ _ _ _ _ Hr (Nat.le_0_l 0) H) as (Hback & seen & Hs & -> & Hall).
  assert (seen `prefix_of` dgrams_seen ds) as Hs2 by (by etrans).
  split_and!; [exists seen; split_and!; [done..|]| |done].
  - intros t' a' Hu -> Hl. specialize (Hfull eq_refl). rewrite Hfull in Hall. by eapply Hall.
  - intros data dst (((host & port) & d) & Hin & Hf)%list_elem_of_omap. unfold forwarded in Hf. cbn [fst snd] in Hf.
    destruct (udp_route o lookup_host host port) as [a|] eqn:Er; [|done]. simplify_eq/=.
    apply udp_route_spec in Er as (? & ? & ?). exists host, port. split_and!; try done.
    destruct Hs2 as [k ->]. apply elem_of_app. by left.
Qed.

(** ** On concrete traffic *)

(** No permissions and no authentication, one bypassed address. *)
Definition demo_options (bypassed_addr : bytes) : HandlerOptions :=
  mkOptions [] None None None (Some (λ a, bool_decide (a = bypassed_addr))) 0 0.
Definition demo_addr (n port : Z) : SocketAddr := mkAddr (V4 [10; 0; 0; n]) port.


Lemma tunnel_server_relays_witness :
  let o := demo_options (str "10.0.0.9:53") in
  let ds := [mkDgram (str "10.0.0.7") 53 [1; 2]; mkDgram (str "10.0.0.9") 53 [5]] in
  let answers := [RData (take 7 (dgrams_wire ds)); RPending; RData (drop 7 (dgrams_wire ds))] in
  let evs := [TunnelReady (Ok tt); TunnelReady (Ok tt); PeerReady [3] (demo_addr 7 53) [ATake 99; ATake 99];
              TunnelReady (Ok tt); TunnelReady (Ok tt); TunnelReady (Ok tt)] in
  let '(u, out) := tunnel_server_udp o (λ _ _, []) evs answers tunnel_server in
  out = [SentUdp [1; 2] (demo_addr 7 53)] ∧ stream (turn_tunnel u) = dgrams_wire [mkDgram (str "10.0.0.7") 53 [3]].
Proof.
  intros o ds answers evs.
  destruct (tunnel_server_udp o (λ _ _, []) evs answers tunnel_server) as [u out] eqn:E.
  assert (∃ t a, u = Going t a) as (t & a & Hu).
  { destruct u as [t a|r t|t]; [by exists t, a|..]; apply (f_equal (λ x, match x.1 with Going _ _ => true | _ => false end)) in E;
      by vm_compute in E. }
  destruct (tunnel_server_relays o (λ _ _, []) ds answers [] evs u out) as ((seen & _ & -> & Hall) & _ & (back & _ & Hs & Hb));
    [| | |exact E|].
  - repeat apply Forall_cons_2; try apply Forall_nil_2; (apply dgram_ok_intro; [apply host_ok_dec_intro|]; by vm_compute).
  - by vm_compute.
  - unfold answers. rewrite !not_elem_of_cons. split_and!; [by vm_compute..|apply not_elem_of_nil].
  - rewrite Hs, (Hall t a Hu eq_refl), (Hb t a Hu) by (vm_compute; lia).
    split; [vm_compute; reflexivity|]. vm_compute. reflexivity.
Defined.
