(* ===== verification/Socks5.v ===== *)
(** * SOCKS5

    The client ([Socks5Connector]) and the server ([Socks5Handler]) of
    src/socks5.rs. Either side of a handshake is a conversation over its
    connection (Conn.v); the handler's requests act on the network (Effects.v)
    through an environment. The two sides are proved to understand each other,
    and the handler to act only for clients and targets it may serve. *)

From stdpp Require Import base list option numbers strings sets.
From Stdlib Require Import ZArith Lia.
From S2P Require Import Prelude Text Utf8 IpAddr AsyncIo Permissions Conn Socks5Addr Socks5Tunnel Effects Socks5Udp.

Definition METHOD_NO_AUTH : Z := 0.
Definition METHOD_USER_PASS : Z := 2.
Definition METHOD_TLS : Z := 128.
Definition METHOD_TLS_AUTH : Z := 130.
Definition METHOD_NO_ACCEPTABLE : Z := 255.

Definition CMD_CONNECT : Z := 1.
Definition CMD_BIND : Z := 2.
Definition CMD_UDP_ASSOCIATE : Z := 3.
Definition CMD_MUX_BIND : Z := 242.
Definition CMD_UDP_TUN : Z := 243.

Definition REP_SUCCESS : Z := 0.
Definition REP_GENERAL_FAILURE : Z := 1.
Definition REP_NOT_ALLOWED : Z := 2.
Definition REP_HOST_UNREACHABLE : Z := 4.
Definition REP_CMD_NOT_SUPPORTED : Z := 7.

Definition proxy_error (msg : string) : HandlerError := Proxy (str msg).

(** ** The client *)

Definition Credentials : Set := bytes * option bytes.

(** The methods a client offers, and the message that logs it in. *)
Definition greeting (user : option Credentials) : bytes :=
  let methods := match user with Some _ => [METHOD_NO_AUTH; METHOD_USER_PASS] | None => [METHOD_NO_AUTH] end in
  [SOCKS5_VERSION; u8 (zlen methods)] ++ methods.

Definition auth_request (user : Credentials) : bytes :=
  let p := default [] (user.2) in
  [1; u8 (zlen (user.1))] ++ user.1 ++ [u8 (zlen p)] ++ p.

Definition login (user : option Credentials) : conv HandlerError () :=
  match user with
  | None => cfail AuthFailed
  | Some u =>
      h_write (auth_request u) ;;!
      auth_resp <~ h_read 2 ;;
      if nth 1 auth_resp 0 =? 0 then cret tt else cfail AuthFailed
  end.

(** [Socks5Connector::connect]. *)
Definition connect (user : option Credentials) (address : bytes) : conv HandlerError () :=
  h_write (greeting user) ;;!
  resp <~ h_read 2 ;;
  if negb (nth 0 resp 0 =? SOCKS5_VERSION) then cfail (proxy_error "invalid SOCKS5 version") else
  (if nth 1 resp 0 =? METHOD_USER_PASS then login user
   else if nth 1 resp 0 =? METHOD_NO_ACCEPTABLE then cfail (proxy_error "no acceptable method")
   else cret tt) ;;!
  hp <~ clift (parse_address address) ;;
  h_write ([SOCKS5_VERSION; CMD_CONNECT; 0] ++ encode_address hp.1 hp.2) ;;!
  reply <~ h_read 4 ;;
  if negb (nth 1 reply 0 =? REP_SUCCESS)
  then cfail (Proxy (str "SOCKS5 connect failed: code " ++ show_int (nth 1 reply 0))) else
  skip_address (nth 3 reply 0).

(** [socks5_method_handshake]. *)
Definition socks5_method_handshake (user : option Credentials) : conv HandlerError () :=
  h_write (greeting user) ;;!
  resp <~ h_read 2 ;;
  if negb (nth 0 resp 0 =? SOCKS5_VERSION) then cfail (proxy_error "invalid SOCKS5 version") else
  if nth 1 resp 0 =? METHOD_NO_AUTH then cret tt
  else if nth 1 resp 0 =? METHOD_USER_PASS then login user
  else cfail (proxy_error "no acceptable method").

(** [Socks5Connector::udp_tunnel]. *)
Definition udp_tunnel (user : option Credentials) (bind_addr : bytes) (target : option bytes) :
    conv HandlerError Tunnel :=
  socks5_method_handshake user ;;!
  hp <~ clift (parse_address bind_addr) ;;
  h_write ([SOCKS5_VERSION; CMD_UDP_TUN; 0] ++ encode_address hp.1 hp.2) ;;!
  head <~ h_read 4 ;;
  if negb (nth 0 head 0 =? SOCKS5_VERSION) then cfail (proxy_error "invalid SOCKS5 version") else
  if negb (nth 1 head 0 =? REP_SUCCESS)
  then cfail (Proxy (str "socks5 UDP tunnel failure: code " ++ show_int (nth 1 head 0))) else
  bound <~ read_address (nth 3 head 0) ;;
  taddr <~ (match target with Some t => clift (parse_address t) | None => cret (unspecified, 0) end) ;;
  cret (tunnel_client taddr (join_host_port bound.1 bound.2)).

(** ** The server *)

(** A node of the chain, as far as the handler looks at it. *)
Record Hop : Set := mkHop { hop_addr : bytes; hop_protocol : bytes; hop_user : option Credentials }.

(** What decides a pending BIND: a peer, a failed accept, or the client. *)
Inductive BindEv : Set :=
| Peer (pconn : Conn) (praddr : SocketAddr)
| AcceptFailed (e : io_error)
| Closed.

(** What the handler's surroundings answer. [dial timeout target i] is the
    chain's [dial_with_options] at attempt [i], with the chain's own timeout or
    another; [last_node] is [None] for an empty chain;
    [tcp_connect] is [None] when it times out; the inner result of a bind is
    what [local_addr] answers; [mux_peers] are the accepted connections with the
    streams opened for them, until [mux_end]; [tunnel_reads] is how the bytes of
    a tunnel arrive. *)
Record Env : Type := mkEnv {
  dial : option Z → bytes → nat → result ChainError Conn;
  chain_retries : nat;
  last_node : option Hop;
  tcp_connect : bytes → option (result io_error Conn);
  tcp_bind : bytes → result io_error (result io_error SocketAddr);
  bind_event : BindEv;
  udp_bind : SocketAddr → result io_error (result io_error SocketAddr);
  local_addr : option SocketAddr;
  lookup_host : bytes → Z → list SocketAddr;
  tls_acceptor : result bytes ();
  tls_accept : Conn → result bytes Conn;
  mux_client : result io_error ();
  mux_peers : list (Conn * Conn);
  mux_end : io_error;
  udp_events : list UdpEv;
  tunnel_events : list TunnelEv;
  tunnel_reads : bytes → list ReadAnswer;
}.

Section handler.
Context (o : HandlerOptions) (env : Env).

Definition reply (rep : Z) (addr : bytes) (port : Z) : act () := say (send_reply rep addr port).
(** The reply without an address. *)
Definition reply_code (rep : Z) : act () := reply rep unspecified 0.

Definition authenticate (user password : bytes) : bool :=
  match authenticator o with Some auth => auth user password | None => true end.

(** [dial_setup]'s number of tries. *)
Definition dial_tries : nat :=
  if (0 <? retries o)%nat then retries o else if (0 <? chain_retries env)%nat then chain_retries env else 1%nat.

(** The timeout it sets, if not the chain's own. *)
Definition dial_timeout_option : option Z := if 0 <? timeout o then Some (timeout o) else None.

Fixpoint dial_loop (n i : nat) (target : bytes) (last_err : ChainError) : act (result ChainError Conn) :=
  match n with
  | O => aret (Err last_err)
  | S n =>
      emit (Dialled target) ;;;
      match dial env dial_timeout_option target i with
      | Ok cc => aret (Ok cc)
      | Err e => dial_loop n (S i) target e
      end
  end.
Definition dial_target (target : bytes) : act (result ChainError Conn) := dial_loop dial_tries 0 target EmptyChain.

Definition handle_connect (target : bytes) : act () :=
  if negb (may "tcp" o target) then reply_code REP_NOT_ALLOWED ;;; afail Forbidden else
  if bypassed o target then reply_code REP_NOT_ALLOWED else
  r <- dial_target target ;;
  match r with
  | Ok cc => reply_code REP_SUCCESS ;;; splice cc
  | Err e => reply_code REP_HOST_UNREACHABLE ;;; afail (ChainFailed e)
  end.

(** The request replayed onto the last node of the chain. *)
Definition forward_request (cmd : Z) (target : bytes) (cc : Conn) : act () :=
  hp <- alift (parse_address target) ;;
  match h_write ([SOCKS5_VERSION; cmd; 0] ++ encode_address hp.1 hp.2) cc with
  | (Ok _, cc) => splice cc
  | (Err e, _) => afail e
  end.

(** The connection to the last node, refused to the client when there is none. *)
Definition connect_node (node : Hop) (timed_out : string) : act Conn :=
  emit (Connected (hop_addr node)) ;;;
  match tcp_connect env (hop_addr node) with
  | Some (Ok cc) => aret cc
  | Some (Err e) => reply_code REP_GENERAL_FAILURE ;;; afail (Io e)
  | None => reply_code REP_GENERAL_FAILURE ;;; afail (proxy_error timed_out)
  end.

Definition node_handshake (node : Hop) (cc : Conn) : act Conn :=
  match socks5_method_handshake (hop_user node) cc with
  | (Ok _, cc) => aret cc
  | (Err e, _) => reply_code REP_GENERAL_FAILURE ;;; afail e
  end.

(** The address advertised for a socket: its port, under the IP the client
    reached. *)
Definition advertised_ip (bound : SocketAddr) : IpAddr :=
  match local_addr env with Some a => sa_ip a | None => sa_ip bound end.

Definition bind_listener (addr : bytes) : act SocketAddr :=
  emit (Listened addr) ;;;
  match tcp_bind env addr with
  | Err e => reply_code REP_GENERAL_FAILURE ;;; afail (Io e)
  | Ok (Err e) => afail (Io e)
  | Ok (Ok bound) => aret bound
  end.

Definition bind_on (addr : bytes) : act () :=
  bound <- bind_listener addr ;;
  reply REP_SUCCESS (show_ip (advertised_ip bound)) (sa_port bound) ;;;
  match bind_event env with
  | Peer pconn praddr => reply REP_SUCCESS (show_ip (sa_ip praddr)) (sa_port praddr) ;;; splice pconn
  | AcceptFailed e => afail (Io e)
  | Closed => aret tt
  end.

Definition handle_bind (target : bytes) : act () :=
  match last_node env with
  | None =>
      if negb (may "rtcp" o target) then reply_code REP_NOT_ALLOWED ;;; afail Forbidden
      else bind_on target
  | Some node =>
      cc <- connect_node node "bind: chain dial timeout" ;;
      cc <- (if bool_decide (hop_protocol node = str "socks5") then node_handshake node cc else aret cc) ;;
      forward_request CMD_BIND target cc
  end.

(** The accept loop of [handle_mux_bind]: each peer is joined with a stream. *)
Fixpoint mux_loop (peers : list (Conn * Conn)) : act () :=
  match peers with
  | [] => afail (Io (mux_end env))
  | (peer_conn, stream) :: peers => emit (Spliced peer_conn stream) ;;; mux_loop peers
  end.

Definition handle_mux_bind (target : bytes) : act () :=
  match last_node env with
  | Some _ =>
      reply_code REP_CMD_NOT_SUPPORTED ;;; afail (proxy_error "socks5 mbind through a chain is not implemented")
  | None =>
      if negb (may "rtcp" o target) then reply_code REP_NOT_ALLOWED ;;; afail Forbidden else
      bound <- bind_listener target ;;
      reply REP_SUCCESS (show_ip (advertised_ip bound)) (sa_port bound) ;;;
      match mux_client env with
      | Err e => afail (Io e)
      | Ok _ => mux_loop (mux_peers env)
      end
  end.

Fixpoint emits (evs : list Event) : act () :=
  match evs with [] => aret tt | ev :: evs => emit ev ;;; emits evs end.

Definition unspecified_v4 : IpAddr := V4 [0; 0; 0; 0].
Definition unspecified_v6 : IpAddr := V6 [0; 0; 0; 0; 0; 0; 0; 0].

(** The association ends with the control connection or with an error of the
    relay; [udp_events] are those before that. *)
Definition handle_udp_relay (target : bytes) : act () :=
  if negb (may "udp" o target) then reply_code REP_NOT_ALLOWED ;;; afail Forbidden else
  let local_ip := match local_addr env with Some a => sa_ip a | None => unspecified_v4 end in
  emit (BoundUdp (mkAddr local_ip 0)) ;;;
  match udp_bind env (mkAddr local_ip 0) with
  | Err e => reply_code REP_GENERAL_FAILURE ;;; afail (Io e)
  | Ok (Err e) => afail (Io e)
  | Ok (Ok relay_addr) =>
      reply REP_SUCCESS (show_ip (sa_ip relay_addr)) (sa_port relay_addr) ;;;
      let peer_bind := mkAddr (match local_ip with V4 _ => unspecified_v4 | V6 _ => unspecified_v6 end) 0 in
      emit (BoundUdp peer_bind) ;;;
      match udp_bind env peer_bind with
      | Err e => afail (Io e)
      | Ok _ => emits (transport_udp o (lookup_host env) (udp_events env)).2
      end
  end.

Definition handle_udp_tunnel (target : bytes) : act () :=
  match last_node env with
  | Some node =>
      cc <- connect_node node "udp-tun: chain dial timeout" ;;
      cc <- node_handshake node cc ;;
      forward_request CMD_UDP_TUN target cc
  | None =>
      if negb (may "rudp" o target) then reply_code REP_NOT_ALLOWED ;;; afail Forbidden else
      hp <- alift (parse_address target) ;;
      let bind_sa := default (mkAddr unspecified_v4 0) (resolve_udp_addr (lookup_host env) hp.1 hp.2) in
      emit (BoundUdp bind_sa) ;;;
      match udp_bind env bind_sa with
      | Err e => reply_code REP_GENERAL_FAILURE ;;; afail (Io e)
      | Ok (Err e) => afail (Io e)
      | Ok (Ok bound) =>
          reply REP_SUCCESS (show_ip (advertised_ip bound)) (sa_port bound) ;;;
          c <- the_conn ;;
          let '(u, out) :=
            tunnel_server_udp o (lookup_host env) (tunnel_events env) (tunnel_reads env (incoming c)) tunnel_server in
          set_conn (mkConn (prefix c) (rx c) (cuts c) (rx_end c) (tx c ++ sent (t_out (turn_tunnel u))) (tx_left c)) ;;;
          emits out
      end
  end.

(** The method the server picks among those the client offers. *)
Definition requires_login : bool := match authenticator o with Some _ => true | None => false end.

Definition offered (m : Z) (methods : bytes) : bool := existsb (Z.eqb m) methods.

Definition select_method (methods : bytes) : Z :=
  let method := if offered METHOD_TLS methods then METHOD_TLS else METHOD_NO_AUTH in
  if requires_login then (if method =? METHOD_TLS then METHOD_TLS_AUTH else METHOD_USER_PASS) else method.

Definition read_greeting : conv HandlerError bytes :=
  ver <~ h_read 1 ;;
  if negb (nth 0 ver 0 =? SOCKS5_VERSION)
  then cfail (Proxy (str "unsupported SOCKS version: " ++ show_int (nth 0 ver 0))) else
  nmethods <~ h_read 1 ;;
  h_read (Z.to_nat (nth 0 nmethods 0)).

(** The user name and password a client sends. *)
Definition read_credentials : conv HandlerError (bytes * bytes) :=
  h_read 1 ;;!
  ulen <~ h_read 1 ;;
  uname <~ h_read (Z.to_nat (nth 0 ulen 0)) ;;
  plen <~ h_read 1 ;;
  passwd <~ h_read (Z.to_nat (nth 0 plen 0)) ;;
  cret (uname, passwd).

Definition check_login : conv HandlerError () :=
  up <~ read_credentials ;;
  if authenticate (from_utf8_lossy up.1) (from_utf8_lossy up.2) then h_write [1; 0]
  else h_write [1; 1] ;;! cfail AuthFailed.

(** The socket replaced by a TLS session over it. *)
Definition accept_tls : act () :=
  alift (match tls_acceptor env with Ok _ => Ok tt | Err e => Err (Proxy (str "socks5 tls: " ++ e)) end) ;;;
  c <- the_conn ;;
  match tls_accept env c with
  | Ok c => set_conn c
  | Err e => afail (Proxy (str "socks5 tls handshake: " ++ e))
  end.

Definition negotiate : act () :=
  methods <- say read_greeting ;;
  let method := select_method methods in
  if requires_login && negb (offered METHOD_USER_PASS methods) && negb (offered METHOD_TLS methods)
  then say (h_write [SOCKS5_VERSION; METHOD_NO_ACCEPTABLE]) ;;; afail AuthFailed else
  say (h_write [SOCKS5_VERSION; method]) ;;;
  (if (method =? METHOD_TLS) || (method =? METHOD_TLS_AUTH) then accept_tls else aret tt) ;;;
  (if (method =? METHOD_USER_PASS) || (method =? METHOD_TLS_AUTH) then say check_login else aret tt).

(** The request: its command and its target. *)
Definition read_request : conv HandlerError (Z * bytes) :=
  req_header <~ h_read 4 ;;
  if negb (nth 0 req_header 0 =? SOCKS5_VERSION) then cfail (proxy_error "invalid version in request") else
  hp <~ read_address (nth 3 req_header 0) ;;
  cret (nth 1 req_header 0, join_host_port hp.1 hp.2).

Definition dispatch (cmd : Z) (target : bytes) : act () :=
  if cmd =? CMD_CONNECT then handle_connect target
  else if cmd =? CMD_BIND then handle_bind target
  else if cmd =? CMD_MUX_BIND then handle_mux_bind target
  else if cmd =? CMD_UDP_ASSOCIATE then handle_udp_relay target
  else if cmd =? CMD_UDP_TUN then handle_udp_tunnel target
  else
    reply_code REP_CMD_NOT_SUPPORTED ;;;
    afail (Proxy (str "unsupported command: " ++ show_int cmd)).

(** [Socks5Handler::handle]. *)
Definition handle : act () :=
  negotiate ;;;
  rq <- say read_request ;;
  dispatch rq.1 rq.2.

(** ** Safety *)

(** What may be done for a request: the actions each command is allowed. *)
Definition action_ok (cmd : Z) (target : bytes) (ev : Event) : Prop :=
  match ev with
  | Dialled t => cmd = CMD_CONNECT ∧ t = target ∧ may "tcp" o target = true ∧ bypassed o target = false
  | Connected a => (cmd = CMD_BIND ∨ cmd = CMD_UDP_TUN) ∧ ∃ node, last_node env = Some node ∧ a = hop_addr node
  | Listened a => (cmd = CMD_BIND ∨ cmd = CMD_MUX_BIND) ∧ a = target ∧ may "rtcp" o target = true ∧ last_node env = None
  | BoundUdp _ =>
      cmd = CMD_UDP_ASSOCIATE ∧ may "udp" o target = true
      ∨ cmd = CMD_UDP_TUN ∧ may "rudp" o target = true ∧ last_node env = None
  | SentUdp _ dst =>
      (cmd = CMD_UDP_ASSOCIATE ∨ cmd = CMD_UDP_TUN) ∧ may "udp" o (show_addr dst) = true
      ∧ bypassed o (show_addr dst) = false
  | AnsweredUdp _ _ => cmd = CMD_UDP_ASSOCIATE ∧ may "udp" o target = true
  | Health _ _ => False
  | Spliced _ _ => True
  end.

Lemma allows_dial_loop P n i target e : P (Dialled target) → Allows P (dial_loop n i target e).
Proof.
  intros Hd. revert i e. induction n as [|n IH]; intros i e; cbn [dial_loop]; [apply _|].
  apply allows_bind; [by apply allows_emit|]. intros _. destruct (dial env _ _ _); [apply _|apply IH].
Qed.

Section allowed.
Context (cmd : Z) (target : bytes).
Abbreviation fine := (Allows (action_ok cmd target)).

Lemma fine_emits evs : Forall (action_ok cmd target) evs → fine (emits evs).
Proof. induction 1; cbn [emits]; [apply _|]. apply allows_bind; [by apply allows_emit|done]. Qed.

Lemma fine_splice c : fine (splice c).
Proof. by apply allows_splice. Qed.

Lemma fine_connect_node node msg :
  action_ok cmd target (Connected (hop_addr node)) → fine (connect_node node msg).
Proof.
  intros H. apply allows_bind; [by apply allows_emit|]. intros _. destruct (tcp_connect env _) as [[|]|]; apply _.
Qed.

Lemma fine_node_handshake node cc : fine (node_handshake node cc).
Proof. unfold node_handshake. destruct (socks5_method_handshake _ _) as [[] ?]; apply _. Qed.

Lemma fine_forward c cc : fine (forward_request c target cc).
Proof.
  apply allows_bind; [apply _|]. intros hp. destruct (h_write _ _) as [[] ?]; [apply fine_splice|apply _].
Qed.

Lemma fine_bind_listener : action_ok cmd target (Listened target) → fine (bind_listener target).
Proof.
  intros H. apply allows_bind; [by apply allows_emit|]. intros _. destruct (tcp_bind env _) as [[|]|]; apply _.
Qed.

Lemma fine_mux_loop peers : fine (mux_loop peers).
Proof.
  induction peers as [|[p s] peers IH]; cbn [mux_loop]; [apply _|]. apply allows_bind; [by apply allows_emit|done].
Qed.
End allowed.

Lemma udp_ok_action cmd target ev :
  (cmd = CMD_UDP_ASSOCIATE ∧ may "udp" o target = true)
  ∨ (cmd = CMD_UDP_TUN ∧ match ev with AnsweredUdp _ _ => False | _ => True end) →
  udp_ok o ev → action_ok cmd target ev.
Proof.
  intros Hc Hu. destruct ev; cbn in Hu |- *; try done.
  - apply udp_dst_allowed_spec in Hu as [? ?]. split_and!; [|done..]. destruct Hc as [[? _]|[? _]]; auto.
  - destruct Hc as [?|[_ ?]]; done.
Qed.

#[local] Existing Instances fine_splice fine_node_handshake fine_forward fine_mux_loop.

(** Whatever the request, only the actions its command is allowed are taken. *)
Lemma dispatch_allowed cmd target : Allows (action_ok cmd target) (dispatch cmd target).
Proof.
  unfold dispatch. repeat (case_match; [match goal with H : (_ =? _) = true |- _ => apply Z.eqb_eq in H; subst cmd end|]); [..|by apply _].
  - unfold handle_connect. destruct (may "tcp" o target) eqn:Em; [|apply _]. destruct (bypassed o target) eqn:Eb; [apply _|].
    apply allows_bind; [by apply allows_dial_loop|]. intros []; apply _.
  - unfold handle_bind. destruct (last_node env) as [node|] eqn:En.
    + apply allows_bind; [apply fine_connect_node; cbn; eauto|]. intros cc. apply _.
    + destruct (may "rtcp" o target) eqn:Em; [|apply _]. apply allows_bind; [apply fine_bind_listener; cbn; eauto|].
      intros bound. apply allows_bind; [apply _|]. intros _. destruct (bind_event env); apply _.
  - unfold handle_mux_bind. destruct (last_node env) eqn:En; [apply _|].
    destruct (may "rtcp" o target) eqn:Em; [|apply _]. apply allows_bind; [apply fine_bind_listener; cbn; eauto|].
    intros bound. apply allows_bind; [apply _|]. intros _. destruct (mux_client env); apply _.
  - unfold handle_udp_relay. destruct (may "udp" o target) eqn:Em; [|apply _]. cbn [negb].
    apply allows_bind; [apply allows_emit; cbn; eauto|]. intros _. destruct (udp_bind env _) as [[a|]|]; [|apply _..].
    apply allows_bind; [apply _|]. intros _. apply allows_bind; [apply allows_emit; cbn; eauto|]. intros _.
    destruct (udp_bind env _) as [_|]; [|apply _]. apply fine_emits.
    eapply Forall_impl; [apply transport_udp_ok|]. intros ev. apply udp_ok_action. by left.
  - unfold handle_udp_tunnel. destruct (last_node env) as [node|] eqn:En.
    + apply allows_bind; [apply fine_connect_node; cbn; eauto|]. intros cc. apply _.
    + destruct (may "rudp" o target) eqn:Em; [|apply _]. cbn [negb]. apply allows_bind; [apply _|]. intros hp.
      apply allows_bind; [apply allows_emit; cbn; eauto|]. intros _. destruct (udp_bind env _) as [[a|]|]; [|apply _..].
      apply allows_bind; [apply _|]. intros _. apply allows_bind; [apply _|]. intros c.
      destruct (tunnel_server_udp _ _ _ _ _) as [u out] eqn:E. apply allows_bind; [apply _|]. intros _.
      apply fine_emits.
      pose proof (tunnel_server_ok o (lookup_host env) (tunnel_events env) (tunnel_reads env (incoming c)) tunnel_server) as Hok.
      rewrite E in Hok. eapply Forall_impl; [exact Hok|]. intros ev Hev. apply udp_ok_action; by destruct ev; auto.
Qed.

(** Negotiating does nothing to the network. *)
Lemma negotiate_silent P : Allows P negotiate.
Proof.
  unfold negotiate, accept_tls. apply allows_bind; [apply _|]. intros ms. cbv zeta. destruct (_ && _ && _); [apply _|].
  apply allows_bind; [apply _|]. intros _. apply allows_bind; [|intros _; apply _].
  destruct (_ || _); [|apply _]. apply allows_bind; [apply _|]. intros _. apply allows_bind; [apply _|]. intros c.
  destruct (tls_accept env c); apply _.
Qed.

(** The connection the credentials are read from: the client's, or the TLS
    session over it. *)
Definition session_of (c c0 : Conn) : Prop :=
  ∃ cx, (∃ g, incoming c = g ++ incoming cx) ∧ (c0 = cx ∨ tls_accept env cx = Ok c0).

(** The credentials that were accepted, where they are required. *)
Definition logged_in (c c1 : Conn) : Prop :=
  ∀ auth, authenticator o = Some auth →
  ∃ c0 v l k u p, session_of c c0
    ∧ incoming c0 = [v; l] ++ u ++ [k] ++ p ++ incoming c1
    ∧ length u = Z.to_nat l ∧ length p = Z.to_nat k
    ∧ auth (from_utf8_lossy u) (from_utf8_lossy p) = true.

Lemma h_read_inv n c b c' : h_read n c = (Ok b, c') → incoming c = b ++ incoming c' ∧ length b = n.
Proof.
  unfold h_read, cmap_err. destruct (read_exact n c) as [[b1|] c1] eqn:E; intros; simplify_eq.
  apply read_exact_inv in E as (? & ? & _). done.
Qed.

Lemma h_write_incoming b c r c' : h_write b c = (r, c') → incoming c' = incoming c.
Proof. unfold h_write, cmap_err, write_all. destruct (tx_left c) as [[]|]; intros; by simplify_eq. Qed.

Lemma check_login_inv c c' :
  check_login c = (Ok tt, c') →
  ∃ v l k u p, incoming c = [v; l] ++ u ++ [k] ++ p ++ incoming c'
    ∧ length u = Z.to_nat l ∧ length p = Z.to_nat k
    ∧ authenticate (from_utf8_lossy u) (from_utf8_lossy p) = true.
Proof.
  intros H. apply cbind_inv in H as [(up & c1 & H1 & H2)|(? & _ & ?)]; [|done].
  destruct (authenticate _ _) eqn:Ea; [|by apply cbind_inv in H2 as [(? & ? & _ & ?)|(? & _ & ?)]].
  apply h_write_incoming in H2 as ->. unfold read_credentials in H1.
  repeat (apply cbind_inv in H1 as [(? & ? & ?%h_read_inv & H1)|(? & _ & ?)]; [|done]).
  unfold cret in H1. simplify_eq. destruct_and!.
  repeat match goal with H : length ?l = 1%nat |- _ => destruct l as [|? [|? ?]]; try done; clear H end.
  cbn [nth] in *. cbn [fst snd] in Ea. eexists _, _, _, _, _. refine (conj _ (conj _ (conj _ Ea))); [|done..].
  repeat match goal with H : incoming _ = _ |- _ => rewrite H; clear H end. done.
Qed.

Lemma negotiate_login c tr w' : negotiate (mkWorld c tr) = (Ok tt, w') → logged_in c (w_conn w').
Proof.
  intros H auth Hauth. unfold negotiate in H.
  apply abind_inv in H as [(ms & w1 & H1 & H)|(? & _ & ?)]; [|done].
  assert (requires_login = true) as Hreq by (unfold requires_login; by rewrite Hauth).
  cbv zeta in H. destruct (_ && _ && _).
  { by apply abind_inv in H as [(? & ? & _ & ?)|(? & _ & ?)]. }
  apply abind_inv in H as [(? & w2 & H2 & H)|(? & _ & ?)]; [|done].
  assert (∃ g, incoming c = g ++ incoming (w_conn w2)) as Hg.
  { unfold say in H1, H2. cbn [w_conn] in H1. destruct (read_greeting c) as [r1 c1] eqn:E1. simplify_eq.
    cbn [w_conn] in H2. destruct (h_write _ c1) as [r2 c2] eqn:E2. simplify_eq. cbn [w_conn].
    apply h_write_incoming in E2 as ->. assert (Convo read_greeting) as Hc.
    { unfold read_greeting. apply convo_bind; [apply _|]. intros v. destruct (negb _); apply _. }
    by apply Hc in E1 as [? _]. }
  assert ((select_method ms =? METHOD_USER_PASS) || (select_method ms =? METHOD_TLS_AUTH) = true) as Hm.
  { unfold select_method. rewrite Hreq. by destruct (offered METHOD_TLS ms). }
  apply abind_inv in H as [([] & w3 & H3 & H)|(? & _ & ?)]; [|done]. rewrite Hm in H.
  assert (session_of c (w_conn w3)) as Hs.
  { exists (w_conn w2). split; [done|]. destruct (_ || _); [|by left; unfold aret in H3; simplify_eq].
    unfold accept_tls in H3. apply abind_inv in H3 as [([] & w4 & H4 & H3)|(? & _ & ?)]; [|done].
    unfold alift in H4. simplify_eq. unfold abind, the_conn in H3. right.
    destruct (tls_accept env (w_conn w4)) eqn:Et; [|done]. unfold set_conn in H3. by simplify_eq. }
  unfold say in H. destruct (check_login (w_conn w3)) as [r4 c4] eqn:E4. simplify_eq. cbn [w_conn].
  apply check_login_inv in E4 as (v & l & k & u & p & E & Hu & Hp & Ha). unfold authenticate in Ha. rewrite Hauth in Ha.
  by exists (w_conn w3), v, l, k, u, p.
Qed.
End handler.

Lemma socks5_safe_run o env c r w :
  handle o env (mkWorld c []) = (r, w) →
  w_trace w = []
  ∨ ∃ c1 cmd target c2, logged_in o env c c1 ∧ read_request c1 = (Ok (cmd, target), c2)
      ∧ Forall (action_ok o env cmd target) (w_trace w).
Proof.
  intros H. apply abind_inv in H as [([] & w1 & H1 & H)|(e & H1 & ->)].
  2: { left. apply (negotiate_silent o env (λ _, False)) in H1 as (evs & E & Hf). rewrite E. cbn.
       by destruct evs; [|inversion Hf]. }
  assert (w_trace w1 = []) as Et.
  { apply (negotiate_silent o env (λ _, False)) in H1 as (evs & E & Hf). rewrite E. by destruct evs; [|inversion Hf]. }
  apply negotiate_login in H1 as Hl. unfold abind, say in H.
  destruct (read_request (w_conn w1)) as [[[cmd target]|e] c2] eqn:Er; simplify_eq; cbn [w_trace]; [|by left].
  right. exists (w_conn w1), cmd, target, c2. split_and!; [done..|].
  apply dispatch_allowed in H as (evs & E & Hf). cbn [w_trace] in E. by rewrite E, Et.
Qed.


(** ** The two sides understand each other *)

(** Credentials that can be sent: text of at most 255 bytes. *)
Definition text_ok (s : bytes) : Prop := utf8_ok s = true ∧ is_bytes s ∧ (length s ≤ 255)%nat.
Definition creds_ok (user : Credentials) : Prop := text_ok user.1 ∧ text_ok (default [] user.2).

Lemma len_byte (s : bytes) : (length s ≤ 255)%nat → u8 (zlen s) = zlen s.
Proof. intros H. apply wrap_small. unfold zlen. cbn. lia. Qed.

(** One read or write of a conversation over [talk]. *)
Ltac talk_step :=
  match goal with
  | |- context [cbind (h_write ?b) _ (talk ?r ?t)] => rewrite (cbind_ok _ _ _ tt (talk r (t ++ b))) by apply h_write_talk
  | |- context [cbind (h_read 1) _ (talk (?x :: ?b) ?t)] =>
      rewrite (cbind_ok _ _ _ [x] (talk b t)) by (apply (h_read_talk 1 [x]); done)
  | |- context [cbind (h_read 2) _ (talk (?x :: ?y :: ?b) ?t)] =>
      rewrite (cbind_ok _ _ _ [x; y] (talk b t)) by (apply (h_read_talk 2 [x; y]); done)
  | |- context [cbind (h_read 4) _ (talk (?x :: ?y :: ?z :: ?v :: ?b) ?t)] =>
      rewrite (cbind_ok _ _ _ [x; y; z; v] (talk b t)) by (apply (h_read_talk 4 [x; y; z; v]); done)
  | |- context [cbind (h_read ?n) _ (talk (?a ++ ?b) ?t)] =>
      rewrite (cbind_ok _ _ _ a (talk b t)) by (apply (h_read_talk n a); done || lia)
  end; cbn [nth Z.eqb Pos.eqb SOCKS5_VERSION REP_SUCCESS METHOD_NO_AUTH METHOD_USER_PASS METHOD_NO_ACCEPTABLE negb].

Lemma read_greeting_talk user rest t :
  read_greeting (talk (greeting user ++ rest) t)
  = (Ok (match user with Some _ => [METHOD_NO_AUTH; METHOD_USER_PASS] | None => [METHOD_NO_AUTH] end), talk rest t).
Proof.
  unfold read_greeting. destruct user as [u|]; unfold greeting; cbn [app]; do 2 talk_step;
    [apply (h_read_talk _ [METHOD_NO_AUTH; METHOD_USER_PASS])|apply (h_read_talk _ [METHOD_NO_AUTH])]; done.
Qed.

Lemma read_credentials_talk user rest t :
  creds_ok user → read_credentials (talk (auth_request user ++ rest) t) = (Ok (user.1, default [] user.2), talk rest t).
Proof.
  intros [(_ & _ & Hu) (_ & _ & Hp)]. unfold read_credentials, auth_request. rewrite !len_byte by done.
  rewrite <-!app_assoc. cbn [app].
  do 2 talk_step. rewrite zlen_to_nat. talk_step. talk_step. rewrite zlen_to_nat. by talk_step.
Qed.

Lemma check_login_talk o user rest t :
  creds_ok user → authenticate o user.1 (default [] user.2) = true →
  check_login o (talk (auth_request user ++ rest) t) = (Ok tt, talk rest (t ++ [1; 0])).
Proof.
  intros Hc Ha. unfold check_login. erewrite cbind_ok; [|by apply read_credentials_talk]. cbn [fst snd].
  destruct Hc as [(Hu & Hbu & _) (Hp & Hbp & _)]. by rewrite !lossy_valid, Ha by done.
Qed.

Definition request_bytes (cmd : Z) (host : bytes) (port : Z) : bytes :=
  [SOCKS5_VERSION; cmd; 0] ++ encode_address host port.

Lemma read_request_talk cmd host port rest t :
  host_ok host → port_ok port →
  read_request (talk (request_bytes cmd host port ++ rest) t) = (Ok (cmd, join_host_port (canon host) port), talk rest t).
Proof.
  intros Hh Hp. destruct (read_encoded_address host port rest t Hh Hp) as (atyp & body & E & Hr & _).
  unfold read_request, request_bytes. rewrite E. cbn [app]. talk_step. cbn [Z.eqb SOCKS5_VERSION Pos.eqb negb].
  erewrite cbind_ok; [|exact Hr]. done.
Qed.

(** The reply is read to its end. *)
Lemma skip_reply_talk rep addr port :
  ∃ atyp body, reply_bytes rep addr port = [SOCKS5_VERSION; rep; 0; atyp] ++ body
    ∧ ∀ rest t, skip_address atyp (talk (body ++ rest) t) = (Ok tt, talk rest t).
Proof.
  unfold reply_bytes. pose proof (length_to_be 2 port) as Hl2.
  destruct (parse_ipv4 addr) as [os|] eqn:E4; [|destruct (parse_ipv6 addr) as [gs|] eqn:E6].
  - apply parse_ipv4_ok in E4 as [Hl _]. exists ATYP_IPV4, (os ++ to_be 2 port). split; [done|]. intros rest t.
    unfold skip_address. cbn [Z.eqb ATYP_IPV4 Pos.eqb]. erewrite cbind_ok; [|apply h_read_talk; rewrite length_app; lia]. done.
  - apply parse_ipv6_ok in E6 as [Hl _]. exists ATYP_IPV6, (segs_octets gs ++ to_be 2 port). split; [done|]. intros rest t.
    unfold skip_address. cbn [Z.eqb ATYP_IPV4 ATYP_IPV6 ATYP_DOMAIN Pos.eqb].
    erewrite cbind_ok; [|apply h_read_talk; rewrite length_app, length_segs_octets; lia]. done.
  - exists ATYP_IPV4, ([0; 0; 0; 0] ++ to_be 2 port). split; [done|]. intros rest t.
    unfold skip_address. cbn [Z.eqb ATYP_IPV4 Pos.eqb]. erewrite cbind_ok; [|apply h_read_talk; rewrite length_app; cbn; lia]. done.
Qed.

(** The client's login suits the server: nothing is required, or the client has
    credentials that are accepted. *)
Definition auth_suits (o : HandlerOptions) (user : option Credentials) : Prop :=
  match authenticator o with
  | None => True
  | Some auth => ∃ u, user = Some u ∧ creds_ok u ∧ auth u.1 (default [] u.2) = true
  end.

(** What each side says to log the client in. *)
Definition client_login (o : HandlerOptions) (user : option Credentials) : bytes :=
  match authenticator o, user with Some _, Some u => auth_request u | _, _ => [] end.
Definition server_login (o : HandlerOptions) : bytes :=
  match authenticator o with
  | Some _ => [SOCKS5_VERSION; METHOD_USER_PASS; 1; 0]
  | None => [SOCKS5_VERSION; METHOD_NO_AUTH]
  end.

Lemma negotiate_talk o env user rest tr :
  auth_suits o user →
  negotiate o env (mkWorld (talk (greeting user ++ client_login o user ++ rest) []) tr)
  = (Ok tt, mkWorld (talk rest (server_login o)) tr).
Proof.
  intros Hs. unfold negotiate. erewrite abind_ok; [|apply say_ok, read_greeting_talk]. cbv zeta.
  unfold auth_suits, client_login, server_login in *. destruct (authenticator o) as [auth|] eqn:Ea.
  - destruct Hs as (u & -> & Hc & Hau).
    assert (requires_login o = true) as Hr by (unfold requires_login; by rewrite Ea).
    unfold select_method. rewrite Hr. cbn [offered existsb Z.eqb METHOD_USER_PASS METHOD_NO_AUTH METHOD_TLS Pos.eqb orb andb negb].
    erewrite abind_ok; [|apply say_ok, h_write_talk].
    cbn [Z.eqb METHOD_USER_PASS METHOD_NO_AUTH METHOD_TLS METHOD_TLS_AUTH Pos.eqb orb].
    erewrite abind_ok; [|reflexivity]. apply say_ok. erewrite check_login_talk; [done|done|].
    unfold authenticate. by rewrite Ea.
  - assert (requires_login o = false) as Hr by (unfold requires_login; by rewrite Ea).
    unfold select_method. rewrite Hr. cbn [andb].
    erewrite abind_ok; [|apply say_ok, h_write_talk]. by destruct user.
Qed.

Lemma login_talk u rest t :
  login (Some u) (talk ([1; 0] ++ rest) t) = (Ok tt, talk rest (t ++ auth_request u)).
Proof. unfold login. cbn [app]. do 2 talk_step. done. Qed.

(** The client's side of a CONNECT, by the server's reply code. *)
Lemma connect_talk o user address host port rep rest :
  auth_suits o user → parse_address address = Ok (host, port) →
  connect user address (talk (server_login o ++ reply_bytes rep unspecified 0 ++ rest) [])
  = (if rep =? REP_SUCCESS then Ok tt else Err (Proxy (str "SOCKS5 connect failed: code " ++ show_int rep)),
     talk (if rep =? REP_SUCCESS then rest else drop 4 (reply_bytes rep unspecified 0) ++ rest)
       (greeting user ++ client_login o user ++ request_bytes CMD_CONNECT host port)).
Proof.
  intros Hs Hpa. unfold connect. destruct (skip_reply_talk rep unspecified 0) as (atyp & body & Er & Hskip).
  assert (∀ t : bytes, t = greeting user ++ client_login o user →
    (hp <~ clift (parse_address address) ;;
     h_write ([SOCKS5_VERSION; CMD_CONNECT; 0] ++ encode_address hp.1 hp.2) ;;!
     reply <~ h_read 4 ;;
     if negb (nth 1 reply 0 =? REP_SUCCESS)
     then cfail (Proxy (str "SOCKS5 connect failed: code " ++ show_int (nth 1 reply 0))) else
     skip_address (nth 3 reply 0)) (talk (reply_bytes rep unspecified 0 ++ rest) t)
    = (if rep =? REP_SUCCESS then Ok tt else Err (Proxy (str "SOCKS5 connect failed: code " ++ show_int rep)),
       talk (if rep =? REP_SUCCESS then rest else drop 4 (reply_bytes rep unspecified 0) ++ rest)
         (greeting user ++ client_login o user ++ request_bytes CMD_CONNECT host port))) as Hreq.
  { intros t ->. rewrite Hpa. erewrite cbind_ok; [|reflexivity]. cbn [fst snd]. rewrite Er. cbn [app]. talk_step. talk_step.
    cbn [drop]. rewrite drop_0. destruct (rep =? REP_SUCCESS); cbn [negb]; by rewrite ?Hskip, <-app_assoc. }
  unfold auth_suits, server_login in *. destruct (authenticator o) as [auth|] eqn:Ea.
  - destruct Hs as (u & -> & Hc & Hau). cbn [app]. do 2 talk_step.
    erewrite cbind_ok; [|apply (login_talk u)]. apply Hreq. unfold client_login. by rewrite Ea.
  - cbn [app]. do 2 talk_step. erewrite cbind_ok; [|reflexivity]. apply Hreq. unfold client_login. rewrite Ea. by rewrite app_nil_r.
Qed.

(** How a CONNECT ends: the attempts made, and the connection or last error. *)
Fixpoint dialling (o : HandlerOptions) (env : Env) (n i : nat) (target : bytes) (last_err : ChainError) :
    nat * result ChainError Conn :=
  match n with
  | O => (0%nat, Err last_err)
  | S n =>
      match dial env (dial_timeout_option o) target i with
      | Ok cc => (1%nat, Ok cc)
      | Err e => let '(k, r) := dialling o env n (S i) target e in (S k, r)
      end
  end.

Lemma dial_loop_run o env n i target e c tr :
  dial_loop o env n i target e (mkWorld c tr)
  = (Ok (dialling o env n i target e).2,
     mkWorld c (tr ++ replicate (dialling o env n i target e).1 (Dialled target))).
Proof.
  revert i e tr. induction n as [|n IH]; intros i e tr; cbn [dial_loop dialling]; [by rewrite app_nil_r|].
  erewrite abind_ok; [|reflexivity]. destruct (dial env _ target i) as [cc|e']; [done|]. cbn [w_conn w_trace].
  rewrite IH. destruct (dialling o env n (S i) target e'). cbn [fst snd replicate]. by rewrite <-app_assoc.
Qed.

(** What the server answers to a CONNECT, returns, and does. *)
Definition connect_outcome (o : HandlerOptions) (env : Env) (target : bytes) (c : Conn) :
    Z * result HandlerError () * list Event :=
  if negb (may "tcp" o target) then (REP_NOT_ALLOWED, Err Forbidden, [])
  else if bypassed o target then (REP_NOT_ALLOWED, Ok tt, [])
  else
    let '(k, r) := dialling o env (dial_tries o env) 0 target EmptyChain in
    match r with
    | Ok cc => (REP_SUCCESS, Ok tt, replicate k (Dialled target) ++ [Spliced c cc])
    | Err e => (REP_HOST_UNREACHABLE, Err (ChainFailed e), replicate k (Dialled target))
    end.

Lemma handle_connect_talk o env target rest t :
  let rep := (connect_outcome o env target (talk rest t)).1.1 in
  let c' := talk rest (t ++ reply_bytes rep unspecified 0) in
  handle_connect o env target (mkWorld (talk rest t) [])
  = let '(_, r, tr) := connect_outcome o env target c' in (r, mkWorld c' tr).
Proof.
  cbv zeta. unfold handle_connect, connect_outcome, reply_code, reply, send_reply.
  destruct (may "tcp" o target); cbn [negb]; [|done]. destruct (bypassed o target); [done|].
  erewrite abind_ok; [|apply dial_loop_run]. cbn [app].
  by destruct (dialling o env (dial_tries o env) 0 target EmptyChain) as [k [cc|e]].
Qed.

(** The exchange of [socks5_connect_exchange] below. *)
Lemma connect_exchange o env user address host port up down :
  auth_suits o user → parse_address address = Ok (host, port) → host_ok host → port_ok port →
  let target := join_host_port (canon host) port in
  ∃ c2s s2c, ∀ rep r tr, connect_outcome o env target (talk up s2c) = (rep, r, tr) →
    handle o env (mkWorld (talk (c2s ++ up) []) []) = (r, mkWorld (talk up s2c) tr)
    ∧ ∃ left, connect user address (talk (s2c ++ down) [])
        = (if rep =? REP_SUCCESS then Ok tt else Err (Proxy (str "SOCKS5 connect failed: code " ++ show_int rep)),
           talk left c2s)
      ∧ (rep = REP_SUCCESS → left = down).
Proof.
  intros Hs Hpa Hh Hp target.
  set (c2s := greeting user ++ client_login o user ++ request_bytes CMD_CONNECT host port).
  set (rep0 := (connect_outcome o env target (talk up (server_login o))).1.1).
  exists c2s, (server_login o ++ reply_bytes rep0 unspecified 0). intros rep r tr Ho.
  assert (rep = rep0) as ->.
  { unfold rep0. unfold connect_outcome in *. destruct (negb _); [by simplify_eq|]. destruct (bypassed _ _); [by simplify_eq|].
    destruct (dialling _ _ _ _ _ _) as [k [|]]; by simplify_eq. }
  split.
  - unfold handle. unfold c2s. rewrite <-!app_assoc. erewrite abind_ok; [|by apply negotiate_talk].
    erewrite abind_ok; [|apply say_ok; by apply read_request_talk]. cbn [fst snd]. fold target.
    unfold dispatch. cbn [Z.eqb CMD_CONNECT Pos.eqb]. rewrite handle_connect_talk. fold rep0. by rewrite Ho.
  - rewrite <-app_assoc, (connect_talk o user address host port) by done. eexists. split; [reflexivity|]. by intros ->.
Qed.

(** C2: a client and a server that speak to each other: the bytes each writes are
    the bytes the other reads. When the client's login suits the server, the
    server sees the address the client asked for, its host in canonical form,
    and what it decides is what the client is told: the client returns [Ok]
    exactly when the target was dialled, with the tunnelled bytes of either
    direction untouched, and fails with the server's code when the target is
    refused or cannot be reached. *)
Theorem socks5_connect_exchange o env user address host port up down :
  auth_suits o user → parse_address address = Ok (host, port) → host_ok host → port_ok port →
  let target := join_host_port (canon host) port in
  ∃ c2s s2c, ∀ rep r tr, connect_outcome o env target (talk up s2c) = (rep, r, tr) →
    handle o env (mkWorld (talk (c2s ++ up) []) []) = (r, mkWorld (talk up s2c) tr)
    ∧ ∃ left, connect user address (talk (s2c ++ down) [])
        = (if rep =? REP_SUCCESS then Ok tt else Err (Proxy (str "SOCKS5 connect failed: code " ++ show_int rep)),
           talk left c2s)
      ∧ (rep = REP_SUCCESS → left = down).
Proof. apply connect_exchange. Qed.

(** A client without the credentials the server wants: both sides fail, the
    client with the right error, and nothing is done on the network. *)
Theorem socks5_login_refused o env user address auth up down :
  authenticator o = Some auth →
  (∀ u, user = Some u → creds_ok u ∧ auth u.1 (default [] u.2) = false) →
  ∃ c2s s2c,
    (∃ c, handle o env (mkWorld (talk (c2s ++ up) []) []) = (Err AuthFailed, mkWorld c []) ∧ tx c = s2c)
    ∧ ∃ c, connect user address (talk (s2c ++ down) [])
        = (Err (match user with Some _ => AuthFailed | None => proxy_error "no acceptable method" end), c)
      ∧ tx c = c2s.
Proof.
  intros Ha Hu. assert (requires_login o = true) as Hr by (unfold requires_login; by rewrite Ha).
  unfold handle, negotiate, connect. destruct user as [u|].
  - destruct (Hu u eq_refl) as [Hc Hf]. exists (greeting (Some u) ++ auth_request u), [SOCKS5_VERSION; METHOD_USER_PASS; 1; 1]. split.
    + eexists. split.
      * rewrite <-app_assoc. apply abind_err. erewrite abind_ok; [|apply say_ok, read_greeting_talk]. cbv zeta.
        unfold select_method. rewrite Hr.
        cbn [offered existsb Z.eqb METHOD_USER_PASS METHOD_NO_AUTH METHOD_TLS Pos.eqb orb andb negb].
        erewrite abind_ok; [|apply say_ok, h_write_talk].
        cbn [Z.eqb METHOD_USER_PASS METHOD_NO_AUTH METHOD_TLS METHOD_TLS_AUTH Pos.eqb orb].
        erewrite abind_ok; [|reflexivity]. apply say_ok. unfold check_login.
        erewrite cbind_ok; [|by apply read_credentials_talk]. cbn [fst snd].
        destruct Hc as [(Hu1 & Hb1 & _) (Hp1 & Hb2 & _)]. rewrite !lossy_valid by done.
        unfold authenticate. rewrite Ha, Hf. by talk_step.
      * done.
    + eexists. split.
      * cbn [app]. do 2 talk_step. unfold login. rewrite cbind_assoc. talk_step. rewrite cbind_assoc. talk_step. done.
      * cbn [tx talk]. done.
  - exists (greeting None), [SOCKS5_VERSION; METHOD_NO_ACCEPTABLE]. split.
    + eexists. split.
      * apply abind_err. erewrite abind_ok; [|apply say_ok, read_greeting_talk]. cbv zeta. rewrite Hr.
        cbn [offered existsb Z.eqb METHOD_USER_PASS METHOD_NO_AUTH METHOD_TLS Pos.eqb orb andb negb].
        erewrite abind_ok; [|apply say_ok, h_write_talk]. done.
      * done.
    + eexists. split; [cbn [app]; by do 2 talk_step|done].
Qed.

(** A reply with an IP address is an encoded address. *)
Lemma reply_bytes_ip rep ip port :
  ip_ok ip → reply_bytes rep (show_ip ip) port = [SOCKS5_VERSION; rep; 0] ++ encode_address (show_ip ip) port.
Proof.
  intros Hok. unfold reply_bytes, encode_address. destruct ip; cbn [show_ip].
  - by rewrite parse_ipv4_show.
  - by destruct (parse_ipv6_show _ Hok) as [-> ->].
Qed.

Lemma handshake_talk o user rest :
  auth_suits o user →
  socks5_method_handshake user (talk (server_login o ++ rest) []) = (Ok tt, talk rest (greeting user ++ client_login o user)).
Proof.
  intros Hs. unfold socks5_method_handshake, auth_suits, server_login, client_login in *.
  destruct (authenticator o) as [auth|] eqn:Ea.
  - destruct Hs as (u & -> & Hc & Hau). cbn [app]. do 2 talk_step. by apply (login_talk u).
  - cbn [app]. do 2 talk_step. by rewrite app_nil_r.
Qed.

Lemma udp_tunnel_talk o user bind_addr host port ip bport rest :
  auth_suits o user → parse_address bind_addr = Ok (host, port) → ip_ok ip → port_ok bport →
  udp_tunnel user bind_addr None (talk (server_login o ++ reply_bytes REP_SUCCESS (show_ip ip) bport ++ rest) [])
  = (Ok (tunnel_client (unspecified, 0) (join_host_port (show_ip ip) bport)),
     talk rest (greeting user ++ client_login o user ++ request_bytes CMD_UDP_TUN host port)).
Proof.
  intros Hs Hpa Hip Hbp. unfold udp_tunnel. erewrite cbind_ok; [|by apply handshake_talk]. rewrite Hpa.
  erewrite cbind_ok; [|reflexivity]. cbn [fst snd]. rewrite reply_bytes_ip by done.
  destruct (read_encoded_address (show_ip ip) bport rest
    (greeting user ++ client_login o user ++ request_bytes CMD_UDP_TUN host port)) as (atyp & body & E & Hr & _);
    [by apply show_ip_host_ok|done|].
  rewrite E. cbn [app]. talk_step. talk_step. rewrite <-app_assoc. unfold request_bytes in Hr. cbn [app] in Hr.
  erewrite cbind_ok; [|exact Hr]. rewrite canon_show_ip by done. done.
Qed.

(** Opening a UDP tunnel, both sides at once: the server binds where it was
    asked to, by the address as it resolves it; the client learns the address
    the server advertises; and the datagram relay runs on the bytes the client
    sends after its request, with nothing of them lost or added. *)
Theorem socks5_udp_tunnel_exchange o env user bind_addr host port bound up down :
  auth_suits o user → parse_address bind_addr = Ok (host, port) → host_ok host → port_ok port →
  joinable host → last_node env = None →
  let target := join_host_port (canon host) port in
  let bind_sa := default (mkAddr unspecified_v4 0) (resolve_udp_addr (lookup_host env) (canon host) port) in
  let ip := advertised_ip env bound in
  may "rudp" o target = true → udp_bind env bind_sa = Ok (Ok bound) → ip_ok ip → port_ok (sa_port bound) →
  let relay := tunnel_server_udp o (lookup_host env) (tunnel_events env) (tunnel_reads env up) tunnel_server in
  ∃ c2s s2c,
    handle o env (mkWorld (talk (c2s ++ up) []) [])
      = (Ok tt, mkWorld (talk up (s2c ++ sent (t_out (turn_tunnel relay.1)))) (BoundUdp bind_sa :: relay.2))
    ∧ udp_tunnel user bind_addr None (talk (s2c ++ down) [])
      = (Ok (tunnel_client (unspecified, 0) (join_host_port (show_ip ip) (sa_port bound))), talk down c2s).
Proof.
  intros Hs Hpa Hh Hp Hj Hn target bind_sa ip Hm Hb Hip Hbp relay.
  exists (greeting user ++ client_login o user ++ request_bytes CMD_UDP_TUN host port),
    (server_login o ++ reply_bytes REP_SUCCESS (show_ip ip) (sa_port bound)). split.
  - unfold handle. rewrite <-!app_assoc. erewrite abind_ok; [|by apply negotiate_talk].
    erewrite abind_ok; [|apply say_ok; by apply read_request_talk]. cbn [fst snd]. fold target.
    unfold dispatch. cbn [Z.eqb CMD_CONNECT CMD_BIND CMD_MUX_BIND CMD_UDP_ASSOCIATE CMD_UDP_TUN Pos.eqb].
    unfold handle_udp_tunnel. rewrite Hn, Hm. cbn [negb].
    erewrite abind_ok; [|unfold alift, target; rewrite parse_join by (done || by apply canon_joinable); reflexivity].
    cbn [fst snd]. fold bind_sa. erewrite abind_ok; [|reflexivity]. cbn [w_conn w_trace app]. rewrite Hb.
    erewrite abind_ok; [|apply say_ok, h_write_talk]. erewrite abind_ok; [|reflexivity]. cbn [w_conn w_trace].
    change (incoming (talk up _)) with up. fold relay. destruct relay as [u out] eqn:Erel. cbn [fst snd].
    erewrite abind_ok; [|reflexivity]. cbn [w_trace].
    assert (∀ c tr, emits out (mkWorld c tr) = (Ok tt, mkWorld c (tr ++ out))) as Hem.
    { clear. induction out as [|ev out IH]; intros c tr; cbn [emits]; [by rewrite app_nil_r|].
      erewrite abind_ok; [|reflexivity]. cbn [w_conn w_trace]. rewrite IH, <-app_assoc. done. }
    rewrite Hem. unfold talk. cbn. by rewrite <-app_assoc.
  - rewrite <-app_assoc. by apply udp_tunnel_talk.
Qed.

(** ** On a concrete server *)

(** A server with one user, that bypasses one target. *)
Definition demo_server : HandlerOptions :=
  mkOptions [] (Some (λ u p, bool_decide (u = str "bob" ∧ p = str "pw"))) None None
    (Some (λ a, bool_decide (a = str "10.0.0.9:80"))) 2 0.
Definition demo_user : option Credentials := Some (str "bob", Some (str "pw")).

(** Its surroundings: the second attempt to dial succeeds. *)
Definition demo_env : Env :=
  mkEnv (λ _ _ i, match i with O => Err Timeout | _ => Ok (talk [42] []) end) 0 None (λ _, None)
    (λ _, Err broken_pipe) Closed (λ a, Ok (Ok (mkAddr (sa_ip a) 4053))) (Some (demo_addr 1 1080)) (λ _ _, [])
    (Ok tt) (λ _, Err []) (Ok tt) [] broken_pipe [] [TunnelReady (Ok tt)] (λ b, [RData b]).

Definition demo_hello : bytes :=
  greeting demo_user ++ auth_request (str "bob", Some (str "pw")) ++ request_bytes CMD_CONNECT (str "example.org") 443.

Lemma demo_creds : creds_ok (str "bob", Some (str "pw")).
Proof. split; (split_and!; [by vm_compute| |vm_compute; lia]); repeat constructor; by vm_compute. Qed.


Lemma socks5_connect_exchange_witness :
  ∃ c2s s2c, handle demo_server demo_env (mkWorld (talk (c2s ++ [7]) []) [])
      = (Ok tt, mkWorld (talk [7] s2c)
           [Dialled (str "example.org:443"); Dialled (str "example.org:443"); Spliced (talk [7] s2c) (talk [42] [])])
    ∧ connect demo_user (str "example.org:443") (talk (s2c ++ [8]) []) = (Ok tt, talk [8] c2s).
Proof.
  destruct (socks5_connect_exchange demo_server demo_env demo_user (str "example.org:443") (str "example.org") 443 [7] [8])
    as (c2s & s2c & H).
  - eexists. split_and!; [done|exact demo_creds|by vm_compute].
  - by vm_compute.
  - by apply host_ok_dec_intro.
  - vm_compute. by split.
  - exists c2s, s2c. edestruct H as [H1 (left & H2 & H3)]; [reflexivity|]. rewrite (H3 eq_refl) in H2.
    split; [exact H1|exact H2].
Defined.

Lemma socks5_login_refused_witness :
  ∃ c2s s2c,
    (∃ c, handle demo_server demo_env (mkWorld (talk (c2s ++ []) []) []) = (Err AuthFailed, mkWorld c []) ∧ tx c = s2c)
    ∧ ∃ c, connect (Some (str "bob", None)) (str "a:1") (talk (s2c ++ []) []) = (Err AuthFailed, c) ∧ tx c = c2s.
Proof.
  apply (socks5_login_refused demo_server demo_env (Some (str "bob", None)) (str "a:1") _ [] [] eq_refl).
  intros u [= <-]. split; [|by vm_compute].
  split; (split_and!; [by vm_compute| |vm_compute; lia]); repeat constructor; by vm_compute.
Defined.

Lemma socks5_udp_tunnel_exchange_witness :
  let wire := dgrams_wire [mkDgram (str "10.0.0.7") 53 [1; 2]] in
  ∃ c2s s2c w,
    handle demo_server demo_env (mkWorld (talk (c2s ++ wire) []) []) = (Ok tt, w)
    ∧ w_trace w = [BoundUdp (mkAddr unspecified_v4 0); SentUdp [1; 2] (demo_addr 7 53)]
    ∧ ∃ t, udp_tunnel demo_user (str "0.0.0.0:0") None (talk (s2c ++ [8]) []) = (Ok t, talk [8] c2s)
        ∧ bound_addr t = Some (str "10.0.0.1:4053").
Proof.
  intros wire.
  destruct (socks5_udp_tunnel_exchange demo_server demo_env demo_user (str "0.0.0.0:0") unspecified 0
    (mkAddr unspecified_v4 4053) wire [8]) as (c2s & s2c & H1 & H2).
  - eexists. split_and!; [done|exact demo_creds|by vm_compute].
  - by vm_compute.
  - by apply host_ok_dec_intro.
  - vm_compute. by split.
  - split; apply (bool_decide_unpack _); by vm_compute.
  - done.
  - by vm_compute.
  - by vm_compute.
  - split; [done|]. repeat constructor; lia.
  - vm_compute. by split.
  - exists c2s, s2c. eexists. split_and!; [exact H1|by vm_compute|]. eexists. split; [exact H2|by vm_compute].
Defined.
