(* ===== verification/Socks4.v ===== *)
(** * SOCKS4 and SOCKS4a

    The clients and the server of src/socks4.rs. The user id and the domain of
    a request are read byte by byte up to a zero byte. As for SOCKS5, the two
    sides are proved to understand each other and the server to act only as it
    may; it has no authentication. *)

From stdpp Require Import base list option numbers strings sets.
From Stdlib Require Import ZArith Lia.
From S2P Require Import Prelude Text Utf8 IpAddr Permissions Conn Socks5Addr Effects Socks5.

Module Socks4.

Definition SOCKS4_VERSION : Z := 4.
Definition CMD_CONNECT : Z := 1.
Definition CMD_BIND : Z := 2.
Definition REP_GRANTED : Z := 90.
Definition REP_REJECTED : Z := 91.

(** [parse_address]: everything after the last colon is the port. *)
Definition parse_address (addr : bytes) : result HandlerError (bytes * Z) :=
  match rfind_char ch_colon addr with
  | None => Err (Proxy (str "invalid address: " ++ addr))
  | Some i =>
      let port_str := drop (S i) addr in
      match parse_u16 port_str with
      | None => Err (Proxy (str "invalid port: " ++ port_str))
      | Some port => Ok (take i addr, port)
      end
  end.

Definition reply_bytes (code : Z) (addr : bytes) (port : Z) : bytes :=
  [0; code] ++ to_be 2 port ++ default [0; 0; 0; 0] (parse_ipv4 addr).
Definition send_reply (code : Z) (addr : bytes) (port : Z) : conv HandlerError () :=
  h_write (reply_bytes code addr port).

(** ** The clients *)

(** The name in which a SOCKS4a request asks for resolution by the server. *)
Definition named_request (cmd : Z) (host : bytes) (port : Z) : bytes :=
  [SOCKS4_VERSION; cmd] ++ to_be 2 port ++ [0; 0; 0; 1] ++ [0] ++ host ++ [0].
Definition plain_request (cmd : Z) (octets : bytes) (port : Z) : bytes :=
  [SOCKS4_VERSION; cmd] ++ to_be 2 port ++ octets ++ [0].

(** The answer to a request; [what] names the client in its error. *)
Definition read_grant (what : string) : conv HandlerError () :=
  resp <~ h_read 8 ;;
  if negb (nth 1 resp 0 =? REP_GRANTED)
  then cfail (Proxy (str what ++ str " connect rejected: code " ++ show_int (nth 1 resp 0))) else
  cret tt.

(** [Socks4Connector::connect]. *)
Definition connect4 (address : bytes) : conv HandlerError () :=
  hp <~ clift (parse_address address) ;;
  ip <~ clift (match parse_ipv4 hp.1 with
               | Some ip => Ok ip
               | None => Err (proxy_error "SOCKS4 requires IPv4 address")
               end) ;;
  h_write (plain_request CMD_CONNECT ip hp.2) ;;!
  read_grant "SOCKS4".

(** [Socks4aConnector::connect]. *)
Definition connect4a (address : bytes) : conv HandlerError () :=
  hp <~ clift (parse_address address) ;;
  h_write (match parse_ipv4 hp.1 with
           | Some ip => plain_request CMD_CONNECT ip hp.2
           | None => named_request CMD_CONNECT hp.1 hp.2
           end) ;;!
  read_grant "SOCKS4a".

(** ** The server *)

(** The loop that reads up to a zero byte; every turn reads a byte, so a turn
    more than there are bytes is enough. *)
Fixpoint read_nul_fuel (fuel : nat) (acc : bytes) : conv HandlerError bytes :=
  match fuel with
  | O => cfail (Io early_eof)
  | S fuel =>
      b <~ h_read 1 ;;
      if nth 0 b 0 =? 0 then cret acc else read_nul_fuel fuel (acc ++ b)
  end.
Definition read_nul : conv HandlerError bytes := λ c, read_nul_fuel (S (length (incoming c))) [] c.

Record Request : Set := mkRequest { r_cmd : Z; r_target : bytes; r_socks4a : bool }.

Definition read_request : conv HandlerError Request :=
  ver <~ h_read 1 ;;
  if negb (nth 0 ver 0 =? SOCKS4_VERSION)
  then cfail (Proxy (str "unsupported SOCKS version: " ++ show_int (nth 0 ver 0))) else
  cmd <~ h_read 1 ;;
  port_buf <~ h_read 2 ;;
  ip_buf <~ h_read 4 ;;
  read_nul ;;!
  let is_socks4a :=
    (nth 0 ip_buf 0 =? 0) && (nth 1 ip_buf 0 =? 0) && (nth 2 ip_buf 0 =? 0) && negb (nth 3 ip_buf 0 =? 0) in
  host <~ (if is_socks4a then domain <~ read_nul ;; cret (from_utf8_lossy domain) else cret (show_ipv4 ip_buf)) ;;
  cret (mkRequest (nth 0 cmd 0) (host ++ [ch_colon] ++ show_int (from_be port_buf)) is_socks4a).

Section handler.
Context (o : HandlerOptions) (env : Env).

Definition reply (code : Z) (addr : bytes) (port : Z) : act () := say (send_reply code addr port).
Definition reply_code (code : Z) : act () := reply code unspecified 0.

Definition handle_connect (target : bytes) : act () :=
  if negb (may "tcp" o target) then reply_code REP_REJECTED ;;; afail Forbidden else
  if bypassed o target then reply_code REP_REJECTED else
  r <- dial_target o env target ;;
  match r with
  | Ok cc => reply_code REP_GRANTED ;;; splice cc
  | Err e => reply_code REP_REJECTED ;;; afail (ChainFailed e)
  end.

(** Replies carry IPv4 addresses only. *)
Definition ip4_text (ip : IpAddr) : bytes := match ip with V4 os => show_ipv4 os | V6 _ => unspecified end.

Definition socks4_bind_on (addr : bytes) : act () :=
  emit (Listened addr) ;;;
  match tcp_bind env addr with
  | Err e => reply_code REP_REJECTED ;;; afail (Io e)
  | Ok (Err e) => afail (Io e)
  | Ok (Ok bound) =>
      reply REP_GRANTED (ip4_text (advertised_ip env bound)) (sa_port bound) ;;;
      match bind_event env with
      | Peer pconn praddr => reply REP_GRANTED (ip4_text (sa_ip praddr)) (sa_port praddr) ;;; splice pconn
      | AcceptFailed e => afail (Io e)
      | Closed => aret tt
      end
  end.

Definition handle_bind (target : bytes) (is_socks4a : bool) : act () :=
  if negb (may "rtcp" o target) then reply_code REP_REJECTED ;;; afail Forbidden else
  match last_node env with
  | None => socks4_bind_on target
  | Some node =>
      emit (Connected (hop_addr node)) ;;;
      match tcp_connect env (hop_addr node) with
      | Some (Err e) => reply_code REP_REJECTED ;;; afail (Io e)
      | None => reply_code REP_REJECTED ;;; afail (proxy_error "bind: chain dial timeout")
      | Some (Ok cc) =>
          hp <- alift (parse_address target) ;;
          let req :=
            if is_socks4a then named_request CMD_BIND hp.1 hp.2
            else plain_request CMD_BIND (default [0; 0; 0; 0] (parse_ipv4 hp.1)) hp.2 in
          match h_write req cc with
          | (Ok _, cc) => splice cc
          | (Err e, _) => afail e
          end
      end
  end.

Definition dispatch (rq : Request) : act () :=
  if r_cmd rq =? CMD_CONNECT then handle_connect (r_target rq)
  else if r_cmd rq =? CMD_BIND then handle_bind (r_target rq) (r_socks4a rq)
  else
    reply_code REP_REJECTED ;;;
    afail (Proxy (str "unsupported SOCKS4 command: " ++ show_int (r_cmd rq))).

Definition handle : act () := rq <- say read_request ;; dispatch rq.

(** ** Safety *)

Definition action_ok (rq : Request) (ev : Event) : Prop :=
  match ev with
  | Dialled t =>
      r_cmd rq = CMD_CONNECT ∧ t = r_target rq ∧ may "tcp" o t = true ∧ bypassed o t = false
  | Listened a => r_cmd rq = CMD_BIND ∧ a = r_target rq ∧ may "rtcp" o a = true ∧ last_node env = None
  | Connected a =>
      r_cmd rq = CMD_BIND ∧ may "rtcp" o (r_target rq) = true ∧ ∃ node, last_node env = Some node ∧ a = hop_addr node
  | Spliced _ _ => True
  | _ => False
  end.

Lemma dispatch4_allowed rq : Allows (action_ok rq) (dispatch rq).
Proof.
  assert (∀ c, Allows (action_ok rq) (splice c)) as Hsp by (intros; by apply allows_splice).
  unfold dispatch. repeat (case_match; [match goal with H : (_ =? _) = true |- _ => apply Z.eqb_eq in H end|]); [..|apply _].
  - unfold handle_connect. destruct (may "tcp" o (r_target rq)) eqn:Em; [|apply _].
    destruct (bypassed o (r_target rq)) eqn:Eb; [apply _|].
    apply allows_bind; [by apply allows_dial_loop|]. intros []; apply _.
  - unfold handle_bind. destruct (may "rtcp" o (r_target rq)) eqn:Em; [|apply _]. cbn [negb].
    destruct (last_node env) as [node|] eqn:En.
    + apply allows_bind; [apply allows_emit; cbn; eauto 6|]. intros _. destruct (tcp_connect env _) as [[cc|]|]; [|apply _..].
      apply allows_bind; [apply _|]. intros hp. cbv zeta. destruct (h_write _ cc) as [[] ?]; apply _.
    + apply allows_bind; [by apply allows_emit|]. intros _. destruct (tcp_bind env _) as [[b|]|]; [|apply _..].
      apply allows_bind; [apply _|]. intros _. destruct (bind_event env); apply _.
Qed.
End handler.

(** ** The two sides understand each other *)

Lemma read_nul_fuel_talk fuel acc s rest t :
  0 ∉ s → (length s < fuel)%nat → read_nul_fuel fuel acc (talk (s ++ 0 :: rest) t) = (Ok (acc ++ s), talk rest t).
Proof.
  revert fuel acc. induction s as [|x s IH]; intros [|fuel] acc Hn Hf; cbn in Hf; try lia; cbn [read_nul_fuel app];
    talk_step.
  - by rewrite app_nil_r.
  - apply not_elem_of_cons in Hn as [Hx Hn]. destruct (Z.eqb_spec x 0); [congruence|].
    rewrite IH, <-app_assoc by (done || lia). done.
Qed.

Lemma read_nul_talk s rest t : 0 ∉ s → read_nul (talk (s ++ 0 :: rest) t) = (Ok s, talk rest t).
Proof. intros Hn. unfold read_nul. apply read_nul_fuel_talk; [done|]. cbn. rewrite length_app. cbn. lia. Qed.

(** An address that stands for a name: 0.0.0.x with x not zero. *)
Definition means_name (os : bytes) : bool :=
  (nth 0 os 0 =? 0) && (nth 1 os 0 =? 0) && (nth 2 os 0 =? 0) && negb (nth 3 os 0 =? 0).

(** Hosts a SOCKS4a client can ask for. *)
Definition host4_ok (host : bytes) : Prop :=
  match parse_ipv4 host with
  | Some os => means_name os = false
  | None => utf8_ok host = true ∧ is_bytes host ∧ 0 ∉ host
  end.
Definition seen4 (host : bytes) : bytes :=
  match parse_ipv4 host with Some os => show_ipv4 os | None => host end.
Definition target4 (host : bytes) (port : Z) : bytes := seen4 host ++ [ch_colon] ++ show_int port.

Lemma read_plain_talk cmd os port rest t :
  length os = 4%nat → port_ok port → means_name os = false →
  read_request (talk (plain_request cmd os port ++ rest) t)
  = (Ok (mkRequest cmd (show_ipv4 os ++ [ch_colon] ++ show_int port) false), talk rest t).
Proof.
  intros Hl Hp Hm. unfold read_request, plain_request, SOCKS4_VERSION. rewrite <-!app_assoc. cbn [app]. do 2 talk_step.
  pose proof (length_to_be 2 port). talk_step. talk_step.
  rewrite (cbind_ok _ _ _ [] (talk rest t)) by (apply (read_nul_talk []), not_elem_of_nil).
  unfold means_name in Hm. rewrite Hm, from_be_port by done. done.
Qed.

Lemma read_named_talk cmd host port rest t :
  port_ok port → utf8_ok host = true → is_bytes host → 0 ∉ host →
  read_request (talk (named_request cmd host port ++ rest) t)
  = (Ok (mkRequest cmd (host ++ [ch_colon] ++ show_int port) true), talk rest t).
Proof.
  intros Hp Hu Hb Hn. unfold read_request, named_request, SOCKS4_VERSION. rewrite <-!app_assoc. cbn [app]. do 2 talk_step.
  pose proof (length_to_be 2 port). talk_step. talk_step.
  rewrite (cbind_ok _ _ _ [] (talk (host ++ 0 :: rest) t)) by (apply (read_nul_talk []), not_elem_of_nil).
  cbn [Z.eqb andb negb]. rewrite cbind_assoc.
  rewrite (cbind_ok _ _ _ host (talk rest t)) by (by apply read_nul_talk).
  rewrite cbind_ret, lossy_valid, from_be_port by done. done.
Qed.

(** What a client writes, by the kind of host. *)
Definition request4 (host : bytes) (port : Z) : bytes :=
  match parse_ipv4 host with
  | Some ip => plain_request CMD_CONNECT ip port
  | None => named_request CMD_CONNECT host port
  end.

Lemma read_request4_talk host port rest t :
  host4_ok host → port_ok port →
  ∃ b, read_request (talk (request4 host port ++ rest) t) = (Ok (mkRequest CMD_CONNECT (target4 host port) b), talk rest t).
Proof.
  unfold host4_ok, request4, target4, seen4. intros Hh Hp. destruct (parse_ipv4 host) as [os|] eqn:E.
  - exists false. apply parse_ipv4_ok in E as [Hl _]. by apply read_plain_talk.
  - exists true. destruct Hh as (? & ? & ?). by apply read_named_talk.
Qed.

(** The server's code for the outcome of a CONNECT. *)
Definition code_of (rep : Z) : Z := if rep =? REP_SUCCESS then REP_GRANTED else REP_REJECTED.

Lemma handle_connect_talk4 o env target rest t :
  let code := code_of (connect_outcome o env target (talk rest t)).1.1 in
  let c' := talk rest (t ++ reply_bytes code unspecified 0) in
  handle_connect o env target (mkWorld (talk rest t) [])
  = let '(_, r, tr) := connect_outcome o env target c' in (r, mkWorld c' tr).
Proof.
  cbv zeta. unfold handle_connect, connect_outcome, reply_code, reply, send_reply.
  destruct (may "tcp" o target); cbn [negb]; [|done]. destruct (bypassed o target); [done|].
  erewrite abind_ok; [|apply dial_loop_run]. cbn [app].
  by destruct (dialling o env (dial_tries o env) 0 target EmptyChain) as [k [cc|e]].
Qed.

Lemma read_grant_talk what code rest t :
  read_grant what (talk (reply_bytes code unspecified 0 ++ rest) t)
  = (if code =? REP_GRANTED then Ok tt else Err (Proxy (str what ++ str " connect rejected: code " ++ show_int code)),
     talk rest t).
Proof.
  unfold read_grant. rewrite (cbind_ok _ _ _ (reply_bytes code unspecified 0) (talk rest t)) by (by apply h_read_talk).
  change (nth 1 (reply_bytes code unspecified 0) 0) with code. by destruct (code =? REP_GRANTED).
Qed.

End Socks4.

(** A SOCKS4a client, or a SOCKS4 client asked for an IPv4 literal, against the
    server: the bytes each writes are the bytes the other reads; the server
    decides about the address the client asked for, and the client succeeds
    exactly when the server dialled the target, with the tunnelled bytes of
    either direction untouched. (An address 0.0.0.x cannot be asked for: it is
    how SOCKS4a announces a name.) *)
Theorem socks4_exchange o env address host port up down :
  Socks4.parse_address address = Ok (host, port) → Socks4.host4_ok host → port_ok port →
  ∃ c2s s2c, ∀ rep r tr, connect_outcome o env (Socks4.target4 host port) (talk up s2c) = (rep, r, tr) →
    Socks4.handle o env (mkWorld (talk (c2s ++ up) []) []) = (r, mkWorld (talk up s2c) tr)
    ∧ (∃ res, Socks4.connect4a address (talk (s2c ++ down) []) = (res, talk down c2s)
         ∧ (res = Ok tt ↔ rep = REP_SUCCESS))
    ∧ (is_Some (parse_ipv4 host) →
       ∃ res, Socks4.connect4 address (talk (s2c ++ down) []) = (res, talk down c2s)
         ∧ (res = Ok tt ↔ rep = REP_SUCCESS)).
Proof.
  intros Hpa Hh Hp. set (target := Socks4.target4 host port).
  set (code := Socks4.code_of (connect_outcome o env target (talk up [])).1.1).
  exists (Socks4.request4 host port), (Socks4.reply_bytes code unspecified 0). intros rep r tr Ho.
  assert (code = Socks4.code_of rep) as Ec.
  { unfold code. f_equal. unfold connect_outcome in *. destruct (negb _); [by simplify_eq|]. destruct (bypassed _ _); [by simplify_eq|].
    destruct (dialling _ _ _ _ _ _) as [k [|]]; by simplify_eq. }
  assert (code = Socks4.REP_GRANTED ↔ rep = REP_SUCCESS) as Hcode.
  { rewrite Ec. unfold Socks4.code_of. destruct (Z.eqb_spec rep REP_SUCCESS); split; done. }
  assert (∀ what, ∃ res, Socks4.read_grant what (talk (Socks4.reply_bytes code unspecified 0 ++ down) (Socks4.request4 host port))
    = (res, talk down (Socks4.request4 host port)) ∧ (res = Ok tt ↔ rep = REP_SUCCESS)) as Hgrant.
  { intros what. eexists. rewrite Socks4.read_grant_talk. split; [reflexivity|]. rewrite <-Hcode.
    destruct (Z.eqb_spec code Socks4.REP_GRANTED); split; done. }
  split_and!.
  - unfold Socks4.handle. destruct (Socks4.read_request4_talk host port up [] Hh Hp) as [b Hr].
    erewrite abind_ok; [|apply say_ok; exact Hr].
    unfold Socks4.dispatch. cbn [Socks4.r_cmd Socks4.r_target Z.eqb Socks4.CMD_CONNECT Pos.eqb].
    rewrite Socks4.handle_connect_talk4. fold target code. cbn [app]. by rewrite Ho.
  - unfold Socks4.connect4a. rewrite Hpa. erewrite cbind_ok; [|reflexivity]. cbn [fst snd].
    fold (Socks4.request4 host port). talk_step. apply Hgrant.
  - intros [ip Hip]. unfold Socks4.connect4. rewrite Hpa. erewrite cbind_ok; [|reflexivity]. cbn [fst snd].
    rewrite Hip. erewrite cbind_ok; [|reflexivity]. unfold Socks4.request4 in *. rewrite Hip in *. talk_step. apply Hgrant.
Qed.

Lemma socks4_exchange_witness :
  ∃ c2s s2c, Socks4.handle demo_server demo_env (mkWorld (talk (c2s ++ [7]) []) [])
      = (Ok tt, mkWorld (talk [7] s2c)
           [Dialled (str "example.org:443"); Dialled (str "example.org:443"); Spliced (talk [7] s2c) (talk [42] [])])
    ∧ Socks4.connect4a (str "example.org:443") (talk (s2c ++ [8]) []) = (Ok tt, talk [8] c2s).
Proof.
  destruct (socks4_exchange demo_server demo_env (str "example.org:443") (str "example.org") 443 [7] [8]) as (c2s & s2c & H).
  - by vm_compute.
  - split_and!; [by vm_compute|repeat constructor; by vm_compute|]. apply (bool_decide_unpack _). by vm_compute.
  - vm_compute. by split.
  - exists c2s, s2c. edestruct H as (H1 & (res & H2 & H3) & _); [reflexivity|]. split; [exact H1|].
    rewrite H2. by rewrite (proj2 H3).
Defined.
