(* ===== verification/Relay.v ===== *)
(** * The relay protocol

    Models src/relay.rs: [RelayConn], the data framing with its deferred
    handshake (a [Machine] of AsyncIo.v on the read side); the request of
    [RelayConnector] and its parser; and [RelayHandler]. In TCP mode the bytes
    after the handshake pass through; in UDP mode every datagram has a two-byte
    length. *)

From stdpp Require Import base list option numbers strings pretty sets.
From Stdlib Require Import ZArith Lia.
From S2P Require Import Prelude Text Utf8 IpAddr AsyncIo Permissions Conn Socks5Addr Effects Socks5.

Module Relay.

Definition RELAY_VERSION1 : Z := 1.
Definition RELAY_STATUS_OK : Z := 0.
Definition RELAY_STATUS_BAD_REQUEST : Z := 1.
Definition RELAY_STATUS_UNAUTHORIZED : Z := 2.
Definition RELAY_STATUS_FORBIDDEN : Z := 3.
Definition RELAY_STATUS_SERVICE_UNAVAILABLE : Z := 5.
Definition RELAY_FLAG_UDP : Z := 128.
Definition FEATURE_USER_AUTH : Z := 1.
Definition FEATURE_ADDR : Z := 2.
Definition RELAY_HEADER_LEN : nat := 4.
Definition RELAY_DGRAM_LEN_SIZE : nat := 2.
Definition RELAY_MAX_DATAGRAM : Z := 65535.

Definition relay_status_text (status : Z) : string :=
  match status with
  | 0 => "ok"
  | 1 => "bad request"
  | 2 => "unauthorized"
  | 3 => "forbidden"
  | 4 => "timeout"
  | 5 => "service unavailable"
  | 6 => "host unreachable"
  | 7 => "network unreachable"
  | _ => "unknown status"
  end.

(** ** Reading *)

Inductive ReadState : Set :=
| Response
| ResponseFeatures (n : nat)
| Raw
| Length
| Payload (n : nat)
| Eof.

(** [read_need]. *)
Definition relay_need (s : ReadState) : nat :=
  match s with
  | Response => RELAY_HEADER_LEN
  | ResponseFeatures n => n
  | Length => RELAY_DGRAM_LEN_SIZE
  | Payload n => n
  | Raw | Eof => 0
  end.

(** [enter_data_phase]. *)
Definition data_phase (udp : bool) : ReadState := if udp then Length else Raw.

Definition bad_version : io_error := IoError Other "relay: bad version".
Definition status_error (status : Z) : io_error := IoError Other ("relay: " +:+ relay_status_text status).
Definition no_response : io_error := IoError UnexpectedEof "relay: connection closed before the server response".
Definition truncated : io_error := IoError UnexpectedEof "relay: truncated datagram".

Definition relay_advance (udp : bool) (s : ReadState) (b : bytes) : Advance ReadState () :=
  match s with
  | Response =>
      if negb (nth 0 b 0 =? RELAY_VERSION1) then AdvErr bad_version Response []
      else if negb (nth 1 b 0 =? RELAY_STATUS_OK) then AdvErr (status_error (nth 1 b 0)) Response []
      else
        let fea_len := Z.to_nat (from_be [nth 2 b 0; nth 3 b 0]) in
        if (0 <? fea_len)%nat then AdvNext (ResponseFeatures fea_len) [] None
        else AdvNext (data_phase udp) [] None
  | ResponseFeatures _ => AdvNext (data_phase udp) [] None
  | Length =>
      let dlen := Z.to_nat (from_be [nth 0 b 0; nth 1 b 0]) in
      if (dlen =? 0)%nat then AdvNext Length [] None else AdvNext (Payload dlen) [] None
  | Payload _ => AdvNext Length [] (Some (tt, b))
  | Raw | Eof => AdvNext s [] None
  end.

Definition relay_at_eof (s : ReadState) (b : bytes) : result io_error ReadState :=
  match s, b with
  | Response, _ | ResponseFeatures _, _ => Err no_response
  | _, [] => Ok Eof
  | _, _ => Err truncated
  end.

Definition relay_machine (udp : bool) : Machine ReadState () :=
  mkMachine relay_need (λ s, match s with Raw => true | _ => false end)
    (λ s, match s with Eof => true | _ => false end) (relay_advance udp) relay_at_eof.

(** [RelayConn]. *)
Record RelayConn : Type := mkRelay {
  udp : bool; r_read : Framed ReadState (); pending_header : bytes; r_out : OutBuf }.

Definition response_header (status : Z) : bytes := [RELAY_VERSION1; status; 0; 0].
Definition new_read (s : ReadState) : Framed ReadState () := mkFramed s [] [] 0 tt.

Definition relay_client (udp : bool) : RelayConn := mkRelay udp (new_read Response) [] new_out.
Definition relay_server (udp : bool) (status : Z) : RelayConn :=
  mkRelay udp (new_read (data_phase udp)) (response_header status) new_out.

Definition relay_poll_read (room : nat) (answers : list ReadAnswer) (c : RelayConn) :
    poll (result io_error bytes) * RelayConn * list ReadAnswer :=
  let '(p, r, answers) := framed_read (relay_machine (udp c)) room answers (r_read c) in
  (p, mkRelay (udp c) r (pending_header c) (r_out c), answers).

(** ** Writing *)

Definition set_out (o : OutBuf) (c : RelayConn) : RelayConn := mkRelay (udp c) (r_read c) (pending_header c) o.

Definition queue_pending_header (c : RelayConn) : RelayConn :=
  mkRelay (udp c) (r_read c) [] (queue (pending_header c) (r_out c)).

Definition relay_flush (answers : list Answer) (c : RelayConn) : poll (result io_error ()) * RelayConn * list Answer :=
  let '(p, o, answers) := flush_out write_zero answers (r_out c) in (p, set_out o c, answers).

Definition datagram_error (n : nat) : io_error :=
  IoError Other ("relay: datagram of " +:+ pretty n +:+ " bytes exceeds the " +:+ pretty RELAY_MAX_DATAGRAM +:+ "-byte maximum").

(** The transport's own [poll_write], for bytes that pass through. *)
Definition pass_write (answers : list Answer) (buf : bytes) (c : RelayConn) : poll (result io_error nat) * RelayConn :=
  match answers with
  | [] | APending :: _ => (Pending, c)
  | AErr e :: _ => (Ready (Err e), c)
  | ATake n :: _ =>
      let n := Nat.min n (length buf) in
      (Ready (Ok n), set_out (mkOut (out (r_out c)) (out_pos (r_out c)) (sent (r_out c) ++ take n buf)) c)
  end.

Definition relay_poll_write (answers : list Answer) (buf : bytes) (c : RelayConn) :
    poll (result io_error nat) * RelayConn :=
  match buf with
  | [] => (Ready (Ok 0%nat), c)
  | _ =>
      if udp c && (RELAY_MAX_DATAGRAM <? zlen buf) then (Ready (Err (datagram_error (length buf))), c)
      else
        match relay_flush answers c with
        | (Pending, c, _) => (Pending, c)
        | (Ready (Err e), c, _) => (Ready (Err e), c)
        | (Ready (Ok _), c, answers) =>
            match udp c, pending_header c with
            | false, [] => pass_write answers buf c
            | u, _ =>
                let c := queue_pending_header c in
                let c := if u then set_out (queue (to_be 2 (u16 (zlen buf))) (r_out c)) c else c in
                let c := set_out (queue buf (r_out c)) c in
                let '(_, c, _) := relay_flush answers c in
                (Ready (Ok (length buf)), c)
            end
        end
  end.

(** [poll_flush] and [poll_shutdown], with the transport's answer to the same
    call. *)
Definition relay_poll_flush (answers : list Answer) (inner : poll (result io_error ())) (c : RelayConn) :
    poll (result io_error ()) * RelayConn :=
  match relay_flush answers (queue_pending_header c) with
  | (Ready (Ok _), c, _) => (inner, c)
  | (p, c, _) => (p, c)
  end.
Definition relay_poll_shutdown (answers : list Answer) (inner : poll (result io_error ())) (c : RelayConn) :
    poll (result io_error ()) * RelayConn :=
  match relay_flush answers (queue_pending_header c) with
  | (Ready (Ok _), c, _) => (inner, c)
  | (p, c, _) => (p, c)
  end.

#[global] Instance relay_machine_ok udp : MachineOk (relay_machine udp).
Proof.
  refine {| good := λ s, match s with ResponseFeatures n | Payload n => (0 < n)%nat | _ => True end;
            rank := λ _, 0%nat |}.
  - lia.
  - intros s b s' kept o Hg H. destruct s; cbn [relay_machine advance relay_advance] in H; repeat case_hyp H; simplify_eq;
      try done; try (by destruct udp); try (by apply Nat.ltb_lt);
      match goal with E : (_ =? _)%nat = false |- _ => apply Nat.eqb_neq in E; lia end.
  - intros s b s' kept o Hg Hr He Hl H. destruct s; cbn [relay_machine advance relay_advance] in H;
      repeat case_hyp H; simplify_eq; cbn in *; unfold RELAY_HEADER_LEN, RELAY_DGRAM_LEN_SIZE in *; try lia; done.
  - intros s b s' kept o Hl H. destruct s; cbn [relay_machine advance relay_advance] in H;
      repeat case_hyp H; simplify_eq; cbn; lia.
  - by intros [].
  - by intros [].
Defined.

(** ** Operations of the writing side *)

Inductive RelayOp : Set :=
| OpWrite (answers : list Answer) (buf : bytes)
| OpFlush (answers : list Answer) (inner : poll (result io_error ()))
| OpShutdown (answers : list Answer) (inner : poll (result io_error ())).

Definition relay_op (op : RelayOp) (c : RelayConn) : RelayConn :=
  match op with
  | OpWrite answers buf => (relay_poll_write answers buf c).2
  | OpFlush answers inner => (relay_poll_flush answers inner c).2
  | OpShutdown answers inner => (relay_poll_shutdown answers inner c).2
  end.
Definition relay_ops (ops : list RelayOp) (c : RelayConn) : RelayConn := foldl (λ c op, relay_op op c) c ops.

(** What a write accepts: a whole datagram, or as many bytes as it says. *)
Definition accepted (op : RelayOp) (c : RelayConn) : list bytes :=
  match op with
  | OpWrite answers buf =>
      match (relay_poll_write answers buf c).1, buf with
      | Ready (Ok n), _ :: _ => [take n buf]
      | _, _ => []
      end
  | _ => []
  end.
Fixpoint all_accepted (ops : list RelayOp) (c : RelayConn) : list bytes :=
  match ops with [] => [] | op :: ops => accepted op c ++ all_accepted ops (relay_op op c) end.

Definition chunk (udp : bool) (b : bytes) : bytes := if udp then to_be 2 (zlen b) ++ b else b.
Definition wire (udp : bool) (bs : list bytes) : bytes := concat (chunk udp <$> bs).
Definition stream (c : RelayConn) : bytes := sent (r_out c) ++ unsent (r_out c).

Definition fits_wire (udp : bool) (b : bytes) : Prop := udp = true → b ≠ [] ∧ zlen b ≤ RELAY_MAX_DATAGRAM.

Lemma relay_wire_app u bs bs' : wire u (bs ++ bs') = wire u bs ++ wire u bs'.
Proof. unfold wire. by rewrite fmap_app, concat_app. Qed.

Lemma relay_flush_spec answers c p c' answers' :
  out_ok (r_out c) → relay_flush answers c = (p, c', answers') →
  stream c' = stream c ∧ out_ok (r_out c') ∧ udp c' = udp c ∧ pending_header c' = pending_header c
  ∧ (p = Ready (Ok tt) → out (r_out c') = [] ∧ unsent (r_out c') = []).
Proof.
  unfold relay_flush. intros Ho H. destruct (flush_out write_zero answers (r_out c)) as [[q o] a] eqn:E. simplify_eq.
  apply flush_out_spec in E as (E & Ho' & _ & Hd); [|done]. by split_and!.
Qed.

Lemma relay_queue b c :
  out_ok (r_out c) →
  stream (set_out (queue b (r_out c)) c) = stream c ++ b ∧ out_ok (r_out (set_out (queue b (r_out c)) c)).
Proof. intros Ho. destruct (queue_spec b _ Ho) as (E & ? & _). by split. Qed.

(** The bytes of a connection: its header, once written, and then the chunks. *)
Record carries (u : bool) (h : bytes) (c : RelayConn) (bs : list bytes) : Prop := {
  ca_ok : out_ok (r_out c);
  ca_udp : udp c = u;
  ca_all : pending_header c ++ stream c = h ++ wire u bs;
  ca_first : pending_header c = [] ∨ (stream c = [] ∧ bs = []) }.

Lemma carries_header u h c bs : carries u h c bs → carries u h (queue_pending_header c) bs ∧ stream (queue_pending_header c) = h ++ wire u bs.
Proof.
  intros [Ho Hu Ha Hf]. destruct (queue_spec (pending_header c) _ Ho) as (E & Ho' & _).
  assert (stream (queue_pending_header c) = h ++ wire u bs) as Es.
  { unfold stream, queue_pending_header. cbn [r_out]. rewrite E. fold (stream c). rewrite <-Ha.
    destruct Hf as [Hz|[Hz _]]; rewrite Hz; [by rewrite app_nil_r|]. cbn. by rewrite app_nil_r. }
  split; [|done]. by split; [..|left].
Qed.

Lemma carries_flush u h c bs answers p c' answers' :
  carries u h c bs → relay_flush answers c = (p, c', answers') → carries u h c' bs.
Proof.
  intros [Ho Hu Ha Hf] H. destruct (relay_flush_spec _ _ _ _ _ Ho H) as (Es & Ho' & Eu & Ep & _).
  split; [done|congruence|by rewrite Ep, Es|by rewrite Ep, Es].
Qed.

Lemma carries_put u h c bs b :
  carries u h c bs → pending_header c = [] → fits_wire u b →
  let c' := if u then set_out (queue (to_be 2 (u16 (zlen b))) (r_out c)) c else c in
  carries u h (set_out (queue b (r_out c')) c') (bs ++ [b]).
Proof.
  intros Hc Hp Hfb. pose proof (ca_ok _ _ _ _ Hc) as Ho. pose proof (ca_all _ _ _ _ Hc) as Ha.
  pose proof (ca_udp _ _ _ _ Hc) as Hu. rewrite Hp in Ha. cbn [app] in Ha. cbv zeta. destruct u.
  - destruct (relay_queue (to_be 2 (u16 (zlen b))) c Ho) as [S3 O3].
    destruct (relay_queue b _ O3) as [S4 O4]. split; [exact O4|done| |by left].
    rewrite S4, S3, Ha, relay_wire_app. cbn [pending_header set_out app]. rewrite Hp. cbn [app].
    rewrite <-!app_assoc. do 2 f_equal. unfold wire, chunk. cbn [fmap list_fmap concat]. rewrite app_nil_r.
    do 2 f_equal. apply wrap_small. destruct (Hfb eq_refl) as [_ Hz]. unfold RELAY_MAX_DATAGRAM, zlen in *. lia.
  - destruct (relay_queue b c Ho) as [S4 O4]. split; [exact O4|done| |by left].
    rewrite S4, Ha, relay_wire_app. cbn [pending_header set_out]. rewrite Hp. cbn [app]. rewrite <-app_assoc. do 2 f_equal.
    unfold wire. cbn. by rewrite app_nil_r.
Qed.

Lemma relay_op_carries u h op c bs :
  carries u h c bs → carries u h (relay_op op c) (bs ++ accepted op c) ∧ Forall (fits_wire u) (accepted op c).
Proof.
  intros Hc. destruct op as [answers buf|answers inner|answers inner]; cbn [relay_op accepted].
  - unfold relay_poll_write. destruct buf as [|x buf]; [cbn [fst snd]; by rewrite app_nil_r|]. set (b := x :: buf) in *.
    pose proof (ca_udp _ _ _ _ Hc) as Hu. rewrite Hu.
    destruct (u && (RELAY_MAX_DATAGRAM <? zlen b)) eqn:Esz; [cbn [fst snd]; by rewrite app_nil_r|].
    destruct (relay_flush answers c) as [[p c1] a1] eqn:E1. pose proof (carries_flush _ _ _ _ _ _ _ _ Hc E1) as Hc1.
    destruct (relay_flush_spec _ _ _ _ _ (ca_ok _ _ _ _ Hc) E1) as (_ & _ & Eu1 & _ & Hemp).
    destruct p as [|[[]|e]]; cbn [fst snd]; try (by rewrite app_nil_r).
    assert (fits_wire u b) as Hfb.
    { intros ->. split; [done|]. apply Z.ltb_ge. by destruct (RELAY_MAX_DATAGRAM <? zlen b). }
    rewrite Eu1, Hu.
    assert (∀ c2, carries u h c2 bs → pending_header c2 = [] →
      let c3 := if u then set_out (queue (to_be 2 (u16 (zlen b))) (r_out c2)) c2 else c2 in
      let '(_, c', _) := relay_flush a1 (set_out (queue b (r_out c3)) c3) in
      carries u h c' (bs ++ [b])) as Hput2.
    { intros c2 Hc2 Hp2. cbv zeta. pose proof (carries_put u h c2 bs b Hc2 Hp2 Hfb) as Hput. cbv zeta in Hput.
      destruct (relay_flush a1 _) as [[p3 c3] a3] eqn:E3. by eapply carries_flush. }
    destruct (carries_header _ _ _ _ Hc1) as [Hch _]. specialize (Hput2 (queue_pending_header c1) Hch eq_refl). cbv zeta in Hput2.
    destruct u, (pending_header c1) as [|y hd] eqn:Eph; cbv zeta;
      try (destruct (relay_flush a1 _) as [[p3 c3] a3]; cbn [fst snd]; rewrite take_ge by done; split; [exact Hput2|];
           by apply Forall_singleton).
    destruct a1 as [|[|e|n] a1]; cbn [pass_write fst snd]; try (by rewrite app_nil_r).
    split; [|by apply Forall_singleton]. destruct (Hemp eq_refl) as [Ho Hun]. destruct Hc1 as [O1 U1 A1 F1].
    rewrite Eph in A1. cbn [app] in A1. unfold stream in A1. rewrite Hun, app_nil_r in A1.
    split; [by unfold out_ok, set_out; cbn|done| |by left].
    unfold stream, unsent. cbn [set_out r_out out out_pos sent pending_header]. fold (unsent (r_out c1)).
    rewrite Hun, Eph, app_nil_r, A1, relay_wire_app. cbn [app]. rewrite <-app_assoc. do 2 f_equal.
    unfold wire. cbn. by rewrite app_nil_r.
  - unfold relay_poll_flush. rewrite app_nil_r. destruct (carries_header _ _ _ _ Hc) as [Hch _].
    destruct (relay_flush answers (queue_pending_header c)) as [[p c1] a1] eqn:E1.
    pose proof (carries_flush _ _ _ _ _ _ _ _ Hch E1). by destruct p as [|[]].
  - unfold relay_poll_shutdown. rewrite app_nil_r. destruct (carries_header _ _ _ _ Hc) as [Hch _].
    destruct (relay_flush answers (queue_pending_header c)) as [[p c1] a1] eqn:E1.
    pose proof (carries_flush _ _ _ _ _ _ _ _ Hch E1). by destruct p as [|[]].
Qed.

Lemma relay_ops_carries u h ops c bs :
  carries u h c bs →
  carries u h (relay_ops ops c) (bs ++ all_accepted ops c) ∧ Forall (fits_wire u) (all_accepted ops c).
Proof.
  revert c bs. induction ops as [|op ops IH]; intros c bs Hc; cbn [relay_ops foldl all_accepted].
  { by rewrite app_nil_r. }
  destruct (relay_op_carries u h op c bs Hc) as [Hc1 Hf1]. destruct (IH _ _ Hc1) as [Hc2 Hf2].
  rewrite app_assoc. split; [exact Hc2|]. by apply Forall_app.
Qed.

(** ** The reading side *)

Lemma parse_response u rest :
  parse (relay_machine u) Response (response_header RELAY_STATUS_OK ++ rest) = parse (relay_machine u) (data_phase u) rest.
Proof.
  erewrite (parse_step (relay_machine u) Response _ (data_phase u) [] None); [|done|done|done|cbn; unfold RELAY_HEADER_LEN; lia|done].
  cbn [need relay_machine relay_need RELAY_HEADER_LEN response_header app drop]. rewrite drop_0. unfold add_frame. cbn [frame_list app].
  by destruct (parse (relay_machine u) (data_phase u) rest).
Qed.

Lemma parse_chunk b rest :
  fits_wire true b →
  parse (relay_machine true) Length (chunk true b ++ rest) = add_frame (Some (tt, b)) (parse (relay_machine true) Length rest).
Proof.
  intros Hfit. destruct (Hfit eq_refl) as [Hne Hlen]. unfold chunk. rewrite <-app_assoc.
  destruct (to_be 2 (zlen b)) as [|r0 [|r1 [|? ?]]] eqn:Er; try (by apply (f_equal length) in Er; rewrite length_to_be in Er).
  assert (from_be [r0; r1] = zlen b) as Hz.
  { rewrite <-Er. apply from_to_be. unfold RELAY_MAX_DATAGRAM, zlen in *. cbn. lia. }
  assert (length b ≠ 0)%nat as Hb0 by (by destruct b).
  erewrite (parse_step (relay_machine true) Length _ (Payload (length b)) [] None); [|done|done|done| |].
  2: { cbn. unfold RELAY_DGRAM_LEN_SIZE. lia. }
  2: { cbn [need relay_machine relay_need RELAY_DGRAM_LEN_SIZE app take advance relay_advance nth].
       rewrite Hz, zlen_to_nat. by destruct (Nat.eqb_spec (length b) 0). }
  cbn [need relay_machine relay_need RELAY_DGRAM_LEN_SIZE app drop]. rewrite drop_0.
  erewrite (parse_step (relay_machine true) (Payload (length b)) _ Length [] (Some (tt, b))); [|cbn; lia|done|done| |].
  2: { cbn. rewrite length_app. lia. }
  2: { cbn [need relay_machine relay_need]. by rewrite take_app_length. }
  cbn [need relay_machine relay_need app]. rewrite drop_app_length. unfold add_frame at 1.
  by destruct (parse (relay_machine true) Length rest), b.
Qed.

(** What reading the chunks gives: the datagrams, or the bytes. *)
Lemma parse_wire u bs :
  Forall (fits_wire u) bs →
  parse (relay_machine u) (data_phase u) (wire u bs)
  = if u then mkParsed ((tt,.) <$> bs) Length [] None else mkParsed [] Raw (concat bs) None.
Proof.
  intros Hbs. destruct u.
  - rewrite <-(app_nil_r (wire true bs)). unfold wire. cbn [data_phase].
    rewrite (parse_frames (relay_machine true) (chunk true) (λ b, Some (tt, b))).
    + rewrite (parse_stop (relay_machine true) Length []) by (right; right; cbn; unfold RELAY_DGRAM_LEN_SIZE; lia).
      cbn [p_frames p_state p_rest p_err]. rewrite app_nil_r. f_equal.
      induction Hbs as [|b bs Hb _ IH]; [done|]. cbn [fmap list_fmap concat]. rewrite IH. destruct (Hb eq_refl) as [? _]. by destruct b.
    + intros b r Hin. apply parse_chunk. by eapply Forall_forall in Hbs.
  - cbn [data_phase]. rewrite parse_stop by (by left). f_equal. unfold wire. f_equal. rewrite <-(list_fmap_id bs) at 2. done.
Qed.

(** Polls of [poll_read], one for each room. *)
Fixpoint relay_reads (rooms : list nat) (answers : list ReadAnswer) (c : RelayConn) :
    list (poll (result io_error bytes)) * RelayConn * list ReadAnswer :=
  match rooms with
  | [] => ([], c, answers)
  | room :: rooms =>
      let '(p, c, answers) := relay_poll_read room answers c in
      let '(ps, c, answers) := relay_reads rooms answers c in
      (p :: ps, c, answers)
  end.

Lemma relay_reads_framed rooms answers c ps c' answers' :
  relay_reads rooms answers c = (ps, c', answers') →
  ∃ r, framed_reads (relay_machine (udp c)) rooms answers (r_read c) = (ps, r, answers').
Proof.
  revert answers c ps. induction rooms as [|room rooms IH]; intros answers c ps H; cbn [relay_reads framed_reads] in *;
    [simplify_eq; eauto|].
  unfold relay_poll_read in H. destruct (framed_read _ room answers (r_read c)) as [[p r] a1].
  destruct (relay_reads rooms a1 _) as [[ps2 c2] a2] eqn:E2. simplify_eq.
  apply IH in E2 as [r2 E2]. cbn [udp r_read] in E2. rewrite E2. eauto.
Qed.

(** The two ends, by which of them writes. *)
Definition writer (u server : bool) : RelayConn := if server then relay_server u RELAY_STATUS_OK else relay_client u.
Definition reader (u server : bool) (status : Z) : RelayConn :=
  if server then relay_client u else relay_server u status.
Definition header_of (server : bool) : bytes := if server then response_header RELAY_STATUS_OK else [].

Lemma writer_carries u server : carries u (header_of server) (writer u server) [].
Proof. destruct server; split; unfold out_ok; cbn; rewrite ?app_nil_r; auto with lia. Qed.

(** What a transport took is a beginning of the header and the chunks. *)
Lemma carries_sent u h c bs b w :
  carries u h c bs → sent (r_out c) = b ++ w →
  ∃ w', h ++ wire u bs = b ++ w' ∧ (w = [] → unsent (r_out c) = [] → bs ≠ [] → w' = []).
Proof.
  intros [Ho Hu Ha Hf] Hs. rewrite <-Ha. unfold stream in *. rewrite Hs in *. destruct Hf as [Hz|[Hz Hz2]].
  - rewrite Hz. cbn [app]. exists (w ++ unsent (r_out c)). split; [by rewrite app_assoc|]. by intros -> ->.
  - apply app_eq_nil in Hz as [Hz1 Hz3]. apply app_eq_nil in Hz1 as [-> ->]. rewrite Hz3, app_nil_r.
    eexists. split; [reflexivity|]. by rewrite Hz2.
Qed.

Lemma parsed_wire u bs :
  parsed_bytes (relay_machine u)
    (if u then mkParsed ((tt,.) <$> bs) Length [] None else mkParsed [] Raw (concat bs) None) = concat bs.
Proof.
  destruct u; unfold parsed_bytes; cbn [p_frames p_state p_rest raw relay_machine]; [|done].
  rewrite app_nil_r, <-list_fmap_compose. f_equal. apply list_fmap_id.
Qed.

(** The whole of what is written, read by the other end. *)
Lemma parse_ends u server status bs :
  Forall (fits_wire u) bs →
  parse (relay_machine u) (read_state (r_read (reader u server status))) (header_of server ++ wire u bs)
  = if u then mkParsed ((tt,.) <$> bs) Length [] None else mkParsed [] Raw (concat bs) None.
Proof.
  intros Hbs. destruct server; cbn [reader header_of relay_client relay_server r_read new_read read_state app];
    rewrite ?parse_response; by apply parse_wire.
Qed.

(** ** The request *)

(** [split_host_port] of src/relay.rs. *)
Definition split_host_port (addr : bytes) : option (bytes * bytes) :=
  match addr with
  | c :: rest =>
      if c =? ch_lbracket then
        match split_once ch_rbracket rest with
        | Some (host, c :: port) => if c =? ch_colon then Some (host, port) else None
        | _ => None
        end
      else match rfind_char ch_colon addr with Some i => Some (take i addr, drop (S i) addr) | None => None end
  | [] => None
  end.

Definition user_feature (user : option Credentials) : bytes :=
  match user with
  | None => []
  | Some (user, pass) =>
      let p := default [] pass in
      [FEATURE_USER_AUTH] ++ to_be 2 (u16 (1 + zlen user + 1 + zlen p))
      ++ [u8 (zlen user)] ++ user ++ [u8 (zlen p)] ++ p
  end.

(** The address feature; its data have the layout of a SOCKS5 address. An
    address that does not split or whose port is no number is left out. *)
Definition addr_feature (address : bytes) : bytes :=
  match address with
  | [] => []
  | _ =>
      match split_host_port address with
      | None => []
      | Some (host, port_str) =>
          match parse_u16 port_str with
          | None => []
          | Some port =>
              let addr_data := encode_address host port in
              [FEATURE_ADDR] ++ to_be 2 (u16 (zlen addr_data)) ++ addr_data
          end
      end
  end.

(** [RelayConnector::connect]; [udp] is whether the network is one of udp, udp4
    and udp6. *)
Definition relay_connect (user : option Credentials) (udp : bool) (address : bytes) : conv HandlerError RelayConn :=
  let features := user_feature user ++ addr_feature address in
  if u16_max <? zlen features then cfail (proxy_error "relay: feature block too large") else
  h_write ([RELAY_VERSION1; if udp then RELAY_FLAG_UDP else 0] ++ to_be 2 (u16 (zlen features)) ++ features) ;;!
  cret (relay_client udp).

(** ** The server *)

Definition parse_relay_addr (data : bytes) : bytes * Z :=
  match data with
  | [] => ([], 0)
  | atype :: rest =>
      if (atype =? ATYP_IPV4) && (7 <=? length data)%nat then
        (show_ipv4 (take 4 rest), from_be (take 2 (drop 4 rest)))
      else if (atype =? ATYP_IPV6) && (19 <=? length data)%nat then
        (show_ipv6 (octets_segs (take 16 rest)), from_be (take 2 (drop 16 rest)))
      else if (atype =? ATYP_DOMAIN) && (2 <=? length data)%nat then
        let dlen := Z.to_nat (nth 1 data 0) in
        if (2 + dlen + 2 <=? length data)%nat then
          (from_utf8_lossy (take dlen (drop 2 data)), from_be (take 2 (drop (2 + dlen) data)))
        else ([], 0)
      else ([], 0)
  end.

Record Features : Set := mkFeatures { f_user : bytes; f_pass : bytes; f_raddr : bytes }.

(** One feature; of a user feature whose password is cut short only the name
    counts. *)
Definition add_feature (ftype : Z) (fdata : bytes) (f : Features) : Features :=
  if ftype =? FEATURE_USER_AUTH then
    match fdata with
    | [] => f
    | l :: _ =>
        let ulen := Z.to_nat l in
        if (1 + ulen <? length fdata)%nat then
          let user := from_utf8_lossy (take ulen (drop 1 fdata)) in
          let plen := Z.to_nat (nth (1 + ulen) fdata 0) in
          if (2 + ulen + plen <=? length fdata)%nat then
            mkFeatures user (from_utf8_lossy (take plen (drop (2 + ulen) fdata))) (f_raddr f)
          else mkFeatures user (f_pass f) (f_raddr f)
        else f
    end
  else if (ftype =? FEATURE_ADDR) && negb (length fdata =? 0)%nat then
    let '(host, port) := parse_relay_addr fdata in
    mkFeatures (f_user f) (f_pass f) (host ++ [ch_colon] ++ show_int port)
  else f.

(** The feature loop; a turn takes at least three bytes. *)
Fixpoint parse_features_fuel (fuel : nat) (buf : bytes) (f : Features) : Features :=
  match fuel, buf with
  | S fuel, ftype :: l1 :: l0 :: rest =>
      let flen := Z.to_nat (from_be [l1; l0]) in
      if (length rest <? flen)%nat then f
      else parse_features_fuel fuel (drop flen rest) (add_feature ftype (take flen rest) f)
  | _, _ => f
  end.
Definition parse_features (buf : bytes) : Features := parse_features_fuel (length buf) buf (mkFeatures [] [] []).

Definition read_relay_request : conv HandlerError (bool * Features) :=
  header <~ h_read RELAY_HEADER_LEN ;;
  if negb (nth 0 header 0 =? RELAY_VERSION1) then cfail (proxy_error "relay: bad version") else
  let udp := negb (Z.land (nth 1 header 0) RELAY_FLAG_UDP =? 0) in
  let features_len := Z.to_nat (from_be [nth 2 header 0; nth 3 header 0]) in
  features_buf <~ (if (0 <? features_len)%nat then h_read features_len else cret []) ;;
  cret (udp, parse_features features_buf).

Definition send_relay_reply (status : Z) : conv HandlerError () := h_write (response_header status).

(** [RelayHandler::new]: the addresses the listener forwards to, if any. *)
Definition relay_targets (raddr : bytes) : list bytes :=
  filter (λ a, a ≠ []) (split_char ch_comma raddr).

Section handler.
(** The options, the addresses of the group, the node [NodeGroup::next] picks
    if it picks one, and [Chain::dial]. *)
Context (o : HandlerOptions) (group : list bytes) (pick : option bytes) (dial_chain : bytes → result ChainError Conn).

Definition relay_refuse (status : Z) (e : HandlerError) : act () := say (send_relay_reply status) ;;; afail e.

Definition relay_admits (f : Features) : bool :=
  match authenticator o with Some auth => auth (f_user f) (f_pass f) | None => true end.

Definition relay_target (raddr : bytes) : bytes :=
  match group, pick with _ :: _, Some addr => addr | _, _ => raddr end.

(** [mark_dead] and [reset_dead] of the node in use; without a group it is a
    fresh node nobody else sees. *)
Definition relay_mark (alive : bool) : act () :=
  match group, pick with _ :: _, Some addr => emit (Health addr alive) | _, _ => aret tt end.

Definition relay_handle : act () :=
  rq <- say read_relay_request ;;
  let '(udp, f) := rq in
  if negb (relay_admits f) then relay_refuse RELAY_STATUS_UNAUTHORIZED AuthFailed else
  if (length (f_raddr f) =? 0)%nat && (length group =? 0)%nat
  then relay_refuse RELAY_STATUS_BAD_REQUEST (proxy_error "relay: no target address") else
  if negb (may (if udp then "udp" else "tcp") o (f_raddr f)) then relay_refuse RELAY_STATUS_FORBIDDEN Forbidden else
  let target := relay_target (f_raddr f) in
  emit (Dialled target) ;;;
  match dial_chain target with
  | Ok cc => relay_mark true ;;; splice cc
  | Err e => relay_mark false ;;; relay_refuse RELAY_STATUS_SERVICE_UNAVAILABLE (ChainFailed e)
  end.

(** What the server may do for a request. *)
Definition relay_ok (udp : bool) (f : Features) (ev : Event) : Prop :=
  match ev with
  | Dialled t =>
      t = relay_target (f_raddr f) ∧ relay_admits f = true
      ∧ may (if udp then "udp" else "tcp") o (f_raddr f) = true
  | Health a _ => group ≠ [] ∧ pick = Some a
  | Spliced _ _ => True
  | _ => False
  end.

Lemma relay_mark_allowed u f b : Allows (relay_ok u f) (relay_mark b).
Proof.
  unfold relay_mark. destruct group as [|g gs] eqn:Eg; [apply _|]. destruct pick as [a|] eqn:Ep; [|apply _].
  apply allows_emit. cbn. rewrite Eg. by split.
Qed.

Lemma relay_handle_run c r w :
  relay_handle (mkWorld c []) = (r, w) →
  w_trace w = [] ∨ ∃ u f c', read_relay_request c = (Ok (u, f), c') ∧ Forall (relay_ok u f) (w_trace w).
Proof.
  intros H. apply abind_inv in H as [([u f] & w1 & H1 & H)|(e & H1 & _)].
  2: { left. unfold say in H1. cbn [w_conn w_trace] in H1. destruct (read_relay_request c). by simplify_eq. }
  unfold say in H1. cbn [w_conn w_trace] in H1. destruct (read_relay_request c) as [rq c1] eqn:Er. simplify_eq.
  right. exists u, f, c1. split; [done|].
  assert (Allows (relay_ok u f)
    (if negb (relay_admits f) then relay_refuse RELAY_STATUS_UNAUTHORIZED AuthFailed else
     if (length (f_raddr f) =? 0)%nat && (length group =? 0)%nat
     then relay_refuse RELAY_STATUS_BAD_REQUEST (proxy_error "relay: no target address") else
     if negb (may (if u then "udp" else "tcp") o (f_raddr f)) then relay_refuse RELAY_STATUS_FORBIDDEN Forbidden else
     emit (Dialled (relay_target (f_raddr f))) ;;;
     match dial_chain (relay_target (f_raddr f)) with
     | Ok cc => relay_mark true ;;; splice cc
     | Err e => relay_mark false ;;; relay_refuse RELAY_STATUS_SERVICE_UNAVAILABLE (ChainFailed e)
     end)) as Hal.
  { destruct (relay_admits f) eqn:Ea; cbn [negb]; [|apply _]. destruct (_ && _); [apply _|].
    destruct (may _ _ _) eqn:Em; cbn [negb]; [|apply _]. apply allows_bind; [by apply allows_emit|]. intros _.
    destruct (dial_chain _); apply allows_bind; try apply relay_mark_allowed; intros _; [by apply allows_splice|apply _]. }
  apply Hal in H as (evs & E & Hf). cbn [w_trace app] in E. by rewrite E.
Qed.
End handler.

(** ** What the client writes, the server reads *)

Lemma parse_relay_encoded host port :
  host_ok host → port_ok port → parse_relay_addr (encode_address host port) = (canon host, port).
Proof.
  intros Hh Hp. destruct (encode_address_body host port Hh) as (atyp & len & b & Hb & ->).
  pose proof (addr_body_len _ _ _ _ Hb) as Hlen. pose proof (length_to_be 2 port) as Hl2. unfold parse_relay_addr.
  destruct Hlen as [(-> & -> & Hl)|[(-> & -> & Hl)|(-> & -> & Hl)]]; cbn [app length Z.eqb ATYP_IPV4 ATYP_IPV6 ATYP_DOMAIN Pos.eqb andb].
  - rewrite length_app, Hl, Hl2. cbn [Nat.add Nat.leb].
    rewrite take_app_exact, drop_app_exact, take_ge, from_be_port by (done || lia). inversion Hb; subst; done.
  - rewrite length_app, Hl, Hl2. cbn [Nat.add Nat.leb].
    rewrite take_app_exact, drop_app_exact, take_ge, from_be_port by (done || lia). inversion Hb; subst. by rewrite segs_octets_back.
  - rewrite length_app, Hl2. cbn [Nat.leb nth drop]. rewrite zlen_to_nat, drop_0.
    destruct (Nat.leb_spec (2 + length b + 2) (S (S (length b + 2)))); [|lia].
    rewrite take_app_exact by done. cbn [drop Nat.add]. rewrite drop_app_exact, take_ge, from_be_port by (done || lia).
    inversion Hb as [| |? Hho]; subst. destruct Hho as [Hu _]. by rewrite lossy_valid.
Qed.

Lemma add_addr_feature host port f :
  host_ok host → port_ok port →
  add_feature FEATURE_ADDR (encode_address host port) f
  = mkFeatures (f_user f) (f_pass f) (canon host ++ [ch_colon] ++ show_int port).
Proof.
  intros Hh Hp. unfold add_feature. cbn [Z.eqb FEATURE_ADDR FEATURE_USER_AUTH Pos.eqb andb].
  destruct (encode_address_body host port Hh) as (atyp & len & b & _ & E). rewrite parse_relay_encoded by done.
  by rewrite E.
Qed.

Lemma add_user_feature user f :
  creds_ok user →
  add_feature FEATURE_USER_AUTH ([u8 (zlen user.1)] ++ user.1 ++ [u8 (zlen (default [] user.2))] ++ default [] user.2) f
  = mkFeatures user.1 (default [] user.2) (f_raddr f).
Proof.
  destruct user as [u p]. unfold creds_ok. cbn [fst snd]. generalize (default [] p). clear p. intros p.
  intros [(Hu & Hbu & Hlu) (Hp & Hbp & Hlp)]. cbn [fst snd] in *. rewrite !len_byte by done.
  unfold add_feature. cbn [Z.eqb FEATURE_USER_AUTH Pos.eqb app drop]. rewrite zlen_to_nat, drop_0.
  destruct (Nat.ltb_spec (1 + length u) (length (zlen u :: u ++ zlen p :: p))) as [_|Hx];
    [|cbn [length] in Hx; rewrite length_app in Hx; cbn in Hx; lia].
  rewrite take_app_length. cbn [nth Nat.add].
  assert (nth (length u) (u ++ zlen p :: p) 0 = zlen p) as -> by (rewrite app_nth2, Nat.sub_diag by lia; done).
  rewrite zlen_to_nat.
  destruct (Nat.leb_spec (S (S (length u + length p))) (length (zlen u :: u ++ zlen p :: p))) as [_|Hx];
    [|cbn [length] in Hx; rewrite length_app in Hx; cbn in Hx; lia].
  cbn [drop]. rewrite (app_assoc u [zlen p] p : u ++ zlen p :: p = (u ++ [zlen p]) ++ p).
  rewrite drop_app_exact, take_ge, !lossy_valid by (done || rewrite length_app; cbn; lia). done.
Qed.

Lemma parse_features_step fuel t d rest f :
  zlen d ≤ u16_max →
  parse_features_fuel (S fuel) ([t] ++ to_be 2 (u16 (zlen d)) ++ d ++ rest) f = parse_features_fuel fuel rest (add_feature t d f).
Proof.
  intros Hd. assert (u16 (zlen d) = zlen d) as -> by (apply wrap_small; unfold u16_max, zlen in *; lia).
  destruct (to_be 2 (zlen d)) as [|r0 [|r1 [|? ?]]] eqn:Er; try (by apply (f_equal length) in Er; rewrite length_to_be in Er).
  assert (from_be [r0; r1] = zlen d) as Hz.
  { rewrite <-Er. apply from_to_be. unfold u16_max, zlen in *. cbn. lia. }
  cbn [app parse_features_fuel]. rewrite Hz, zlen_to_nat. destruct (Nat.ltb_spec (length (d ++ rest)) (length d)) as [Hx|_];
    [rewrite length_app in Hx; lia|]. by rewrite drop_app_length, take_app_length.
Qed.

Lemma parse_features_nil fuel f : parse_features_fuel fuel [] f = f.
Proof. by destruct fuel. Qed.

Lemma length_encode_address host port : host_ok host → (length (encode_address host port) ≤ 259)%nat.
Proof.
  intros Hh. destruct (encode_address_body host port Hh) as (atyp & len & b & Hb & ->).
  pose proof (length_to_be 2 port) as Hl2.
  destruct (addr_body_len _ _ _ _ Hb) as [(_ & -> & Hl)|[(_ & -> & Hl)|(_ & -> & Hl)]]; cbn [length app];
    rewrite ?length_app; cbn [length]; rewrite ?length_app; lia.
Qed.

(** The user of a request and how long its feature is. *)
Definition sent_user (user : option Credentials) : bytes * bytes :=
  match user with Some u => (u.1, default [] u.2) | None => ([], []) end.

Lemma length_user_feature user : (∀ u, user = Some u → creds_ok u) → (length (user_feature user) ≤ 515)%nat.
Proof.
  destruct user as [[u p]|]; cbn [user_feature]; [|cbn; lia]. intros Hc. destruct (Hc _ eq_refl) as [(_ & _ & Hu) (_ & _ & Hp)].
  cbn [fst snd] in *. rewrite !length_app, length_to_be. cbn. lia.
Qed.

Lemma parse_connector_features user host port :
  (∀ u, user = Some u → creds_ok u) → host_ok host → port_ok port →
  parse_features (user_feature user ++ [FEATURE_ADDR] ++ to_be 2 (u16 (zlen (encode_address host port))) ++ encode_address host port)
  = mkFeatures (sent_user user).1 (sent_user user).2 (canon host ++ [ch_colon] ++ show_int port).
Proof.
  intros Hc Hh Hp. pose proof (length_encode_address host port Hh) as Hle.
  assert (zlen (encode_address host port) ≤ u16_max) as Hz by (unfold zlen, u16_max; lia).
  assert (∀ fuel f, (0 < fuel)%nat → parse_features_fuel fuel
      ([FEATURE_ADDR] ++ to_be 2 (u16 (zlen (encode_address host port))) ++ encode_address host port) f
    = mkFeatures (f_user f) (f_pass f) (canon host ++ [ch_colon] ++ show_int port)) as Haddr.
  { intros [|fuel] f Hf; [lia|]. rewrite <-(app_nil_r (encode_address host port)) at 2.
    rewrite parse_features_step, parse_features_nil by done. by apply add_addr_feature. }
  unfold parse_features. destruct user as [[u p]|]; cbn [sent_user fst snd].
  - specialize (Hc _ eq_refl). set (d := [u8 (zlen u)] ++ u ++ [u8 (zlen (default [] p))] ++ default [] p).
    assert (1 + zlen u + 1 + zlen (default [] p) = zlen d) as Ed.
    { unfold d, zlen. rewrite !length_app. cbn [length]. lia. }
    cbn [user_feature]. rewrite Ed. fold d. rewrite <-!app_assoc.
    assert (zlen d ≤ u16_max) as Hzd.
    { rewrite <-Ed. destruct Hc as [(_ & _ & ?) (_ & _ & ?)]. cbn [fst snd] in *. unfold zlen, u16_max. lia. }
    set (rest := [FEATURE_ADDR] ++ _).
    assert (∃ n, length ([FEATURE_USER_AUTH] ++ to_be 2 (u16 (zlen d)) ++ d ++ rest) = S (S n)) as [n ->].
    { rewrite !length_app, length_to_be. cbn [length]. eexists. cbn. reflexivity. }
    rewrite parse_features_step by done. unfold rest, d. rewrite Haddr by lia.
    pose proof (add_user_feature (u, p) (mkFeatures [] [] []) Hc) as Hadd. cbn [fst snd] in Hadd. by rewrite Hadd.
  - cbn [user_feature]. rewrite app_nil_l, Haddr; [done|]. rewrite !length_app. cbn. lia.
Qed.

Lemma relay_request_run user udp address host port_str port up down t :
  split_host_port address = Some (host, port_str) → parse_u16 port_str = Some port →
  host_ok host → port_ok port → (∀ u, user = Some u → creds_ok u) →
  ∃ req, relay_connect user udp address (talk down []) = (Ok (relay_client udp), talk down req)
    ∧ read_relay_request (talk (req ++ up) t)
      = (Ok (udp, mkFeatures (sent_user user).1 (sent_user user).2
                    (canon host ++ [ch_colon] ++ show_int port)), talk up t).
Proof.
  intros Hs Hpo Hh Hp Hc.
  set (fs := user_feature user ++ [FEATURE_ADDR] ++ to_be 2 (u16 (zlen (encode_address host port)))
             ++ encode_address host port).
  assert (user_feature user ++ addr_feature address = fs) as Efs.
  { unfold fs. f_equal. unfold addr_feature. destruct address; [done|]. by rewrite Hs, Hpo. }
  assert (4 ≤ length fs ≤ 777)%nat as Hlen.
  { unfold fs. rewrite !length_app, length_to_be. pose proof (length_user_feature user Hc).
    pose proof (length_encode_address host port Hh).
    destruct (encode_address_body host port Hh) as (a & l & b & _ & E). rewrite E in *. cbn [length] in *. lia. }
  exists ([RELAY_VERSION1; if udp then RELAY_FLAG_UDP else 0] ++ to_be 2 (u16 (zlen fs)) ++ fs). split.
  - unfold relay_connect. rewrite Efs. destruct (Z.ltb_spec u16_max (zlen fs)) as [Hx|_]; [unfold u16_max, zlen in Hx; lia|].
    by talk_step.
  - unfold read_relay_request.
    assert (u16 (zlen fs) = zlen fs) as -> by (apply wrap_small; unfold zlen; lia).
    destruct (to_be 2 (zlen fs)) as [|r0 [|r1 [|? ?]]] eqn:Er; try (by apply (f_equal length) in Er; rewrite length_to_be in Er).
    assert (from_be [r0; r1] = zlen fs) as Hz.
    { rewrite <-Er. apply from_to_be. unfold zlen. cbn. lia. }
    rewrite <-!app_assoc. unfold RELAY_HEADER_LEN. cbn [app]. talk_step.
    cbn [Z.eqb RELAY_VERSION1 Pos.eqb negb]. rewrite Hz, zlen_to_nat. destruct (Nat.ltb_spec 0 (length fs)); [|lia].
    rewrite (cbind_ok _ _ _ fs (talk up t)) by (by apply h_read_talk). unfold cret. do 3 f_equal; [by destruct udp|].
    by apply parse_connector_features.
Qed.

End Relay.

(** The request of a relay client, as the server reads it: the mode, the
    credentials (empty ones where there are none) and the target with its host
    in canonical form; what follows the request is left for the connection. *)
Theorem relay_request_exchange user udp address host port_str port up down t :
  Relay.split_host_port address = Some (host, port_str) → parse_u16 port_str = Some port →
  host_ok host → port_ok port → (∀ u, user = Some u → creds_ok u) →
  ∃ req, Relay.relay_connect user udp address (talk down []) = (Ok (Relay.relay_client udp), talk down req)
    ∧ Relay.read_relay_request (talk (req ++ up) t)
      = (Ok (udp, Relay.mkFeatures (Relay.sent_user user).1 (Relay.sent_user user).2
                    (canon host ++ [ch_colon] ++ show_int port)), talk up t).
Proof. apply Relay.relay_request_run. Qed.

(** The relay server dials only after reading a request whose credentials its
    authenticator accepts, where it has one, and whose target the permissions
    allow in the request's mode; it dials that target, or the node its group
    picks; and it marks no node but that one. *)
Theorem relay_safe o group pick dial_chain c r w :
  Relay.relay_handle o group pick dial_chain (mkWorld c []) = (r, w) →
  w_trace w = []
  ∨ ∃ u f c', Relay.read_relay_request c = (Ok (u, f), c')
      ∧ Forall (Relay.relay_ok o group pick u f) (w_trace w).
Proof. apply Relay.relay_handle_run. Qed.

(** A target that is an IPv6 address is put together without brackets, which no
    permission check accepts: the server refuses it whatever its options. *)
Theorem relay_ipv6_refused o group pick dial_chain user udp address host port_str port gs up :
  Relay.split_host_port address = Some (host, port_str) → parse_u16 port_str = Some port → port_ok port →
  parse_ipv4 host = None → parse_ipv6 host = Some gs → (∀ u, user = Some u → creds_ok u) →
  ∃ req, Relay.relay_connect user udp address (talk [] []) = (Ok (Relay.relay_client udp), talk [] req)
    ∧ ∃ e w, Relay.relay_handle o group pick dial_chain (mkWorld (talk (req ++ up) []) []) = (Err e, w)
      ∧ w_trace w = [] ∧ (e = Forbidden ∨ e = AuthFailed).
Proof.
  intros Hs Hpo Hp H4 H6 Hc. assert (host_ok host) as Hh by (right; right; eauto).
  destruct (Relay.relay_request_run user udp address host port_str port up [] [] Hs Hpo Hh Hp Hc) as (req & Hreq & Hread).
  exists req. split; [done|]. unfold Relay.relay_handle. erewrite abind_ok; [|apply say_ok; exact Hread].
  cbv beta iota. set (f := Relay.mkFeatures _ _ _). destruct (Relay.relay_admits o f); cbn [negb].
  2: { eexists _, _. split; [reflexivity|]. split; [done|by right]. }
  assert (may (if udp then "udp" else "tcp") o (Relay.f_raddr f) = false) as Hm.
  { unfold f. cbn [Relay.f_raddr]. unfold canon. rewrite H4, H6. apply parse_ipv6_ok in H6. destruct udp; apply can_ipv6_unbracketed; done. }
  rewrite Hm. unfold f at 1. cbn [Relay.f_raddr].
  destruct (Nat.eqb_spec (length (canon host ++ [ch_colon] ++ show_int port)) 0) as [Hz|_].
  { rewrite !length_app in Hz. cbn in Hz. lia. }
  cbn [andb negb]. eexists _, _. split; [reflexivity|]. split; [done|by left].
Qed.

(** C18: Between the two ends of a relay connection, in either direction and either
    mode, whatever the transport takes and however it cuts the bytes: what is
    read is a beginning of what the other end accepted for writing, behind the
    response header where there is one, and all of it once everything is taken
    and enough reads are made; only errors of the transport are seen; and in UDP
    mode reads with room for any datagram return whole datagrams, in order. *)
Theorem relay_transfer (u server : bool) status ops answers w rooms ps c' answers' :
  let c := Relay.relay_ops ops (Relay.writer u server) in
  let bs := Relay.all_accepted ops (Relay.writer u server) in
  sent (Relay.r_out c) = received answers ++ w → RData [] ∉ answers →
  Relay.relay_reads rooms answers (Relay.reader u server status) = (ps, c', answers') →
  delivered ps `prefix_of` concat bs
  ∧ (∀ e, Ready (Err e) ∈ ps → RErr e ∈ answers)
  ∧ (w = [] → unsent (Relay.r_out c) = [] → Forall (λ room, 0 < room)%nat rooms →
     (length (concat bs) + length answers ≤ length rooms)%nat → delivered ps = concat bs)
  ∧ (u = true → Forall (λ room, Relay.RELAY_MAX_DATAGRAM ≤ Z.of_nat room) rooms →
     filter (λ b, b ≠ []) (poll_bytes <$> ps) `prefix_of` bs).
Proof.
  intros c bs Hsent Hn Hrun.
  destruct (Relay.relay_ops_carries u _ ops _ _ (Relay.writer_carries u server)) as [Hca Hbs].
  cbn [app] in *. fold c bs in Hca, Hbs.
  destruct (Relay.carries_sent _ _ _ _ _ _ Hca Hsent) as (w' & Ew & Hw).
  pose proof (Relay.parse_ends u server status bs Hbs) as Hp. rewrite Ew in Hp.
  assert (∃ s, Relay.reader u server status = Relay.mkRelay u (Relay.new_read s) (Relay.pending_header (Relay.reader u server status)) new_out
    ∧ good (Relay.relay_machine u) s) as (s & Es & Hg).
  { destruct server; [exists Relay.Response|exists (Relay.data_phase u)]; by destruct u. }
  rewrite Es in Hp, Hrun. cbn [Relay.r_read Relay.new_read read_state] in Hp.
  assert (p_err (parse (Relay.relay_machine u) s (received answers ++ w')) = None) as He by (rewrite Hp; by destruct u).
  pose proof (Relay.relay_reads_framed rooms answers _ _ _ _ Hrun) as (r1 & Efr). cbn [Relay.udp Relay.r_read] in Efr.
  destruct (fresh_reads (Relay.relay_machine u) _ _ _ _ _ _ _ _ Hg He Hn Efr) as (Hdel & Herr & Hall).
  assert (parsed_bytes (Relay.relay_machine u) (parse (Relay.relay_machine u) s (received answers ++ w')) = concat bs) as Hfull
    by (rewrite Hp; apply Relay.parsed_wire). rewrite Hfull in *.
  split_and!; [done|done|..].
  - intros Hw0 Hu0 Hrooms Hlen. destruct (decide (bs = [])) as [Hz|Hz]; [|by apply Hall; [apply Hw|..]].
    rewrite Hz in Hdel |- *. by apply prefix_nil_inv in Hdel.
  - intros Hut Hrooms. clear Hall Hdel Herr Hw Hfull.
    assert (p_frames (parse (Relay.relay_machine u) s (received answers ++ w')) = (tt,.) <$> bs) as Hfr by (rewrite Hp, Hut; done).
    pose proof (fresh_reads_frames (Relay.relay_machine u) _ _ _ _ _ _ _ _ Hg He Hn ltac:(rewrite Hp, Hut; done) Efr) as Hwhole.
    rewrite Hfr, <-list_fmap_compose in Hwhole.
    assert (snd ∘ (tt,.) <$> bs = bs) as Eid by apply list_fmap_id. rewrite Eid in Hwhole. apply Hwhole.
    eapply Forall_impl; [exact Hrooms|]. intros room Hroom. apply Forall_fmap. eapply Forall_impl; [exact Hbs|].
    intros b Hb. cbn. destruct (Hb Hut) as [_ Hz]. cbn beta in Hroom. unfold zlen in Hz. lia.
Qed.

(** ** Witnesses *)

Lemma relay_transfer_witness :
  let ops := [Relay.OpWrite [ATake 5] [7; 8]; Relay.OpWrite [ATake 99; ATake 99] [9]; Relay.OpFlush [ATake 99] Pending] in
  let wire := sent (Relay.r_out (Relay.relay_ops ops (Relay.writer true true))) in
  let '(ps, _, _) := Relay.relay_reads (replicate 8 (Z.to_nat 65535)) [RData (take 3 wire); RPending; RData (drop 3 wire)]
                       (Relay.reader true true 0) in
  delivered ps = [7; 8; 9].
Proof.
  intros ops wire. set (answers := [RData (take 3 wire); RPending; RData (drop 3 wire)]).
  destruct (Relay.relay_reads (replicate 8 (Z.to_nat 65535)) answers (Relay.reader true true 0)) as [[ps c'] a'] eqn:E.
  destruct (relay_transfer true true 0 ops answers [] (replicate 8 (Z.to_nat 65535)) ps c' a') as (_ & _ & Hall & _);
    [| |exact E|rewrite Hall; [|reflexivity|..]].
  - by vm_compute.
  - unfold answers. rewrite !not_elem_of_cons. split_and!; [by vm_compute..|apply not_elem_of_nil].
  - by vm_compute.
  - by vm_compute.
  - apply Forall_replicate. lia.
  - vm_compute. lia.
Defined.

Lemma relay_request_exchange_witness :
  ∃ req, Relay.relay_connect demo_user false (str "example.org:443") (talk [] []) = (Ok (Relay.relay_client false), talk [] req)
    ∧ Relay.read_relay_request (talk (req ++ [7]) [])
      = (Ok (false, Relay.mkFeatures (str "bob") (str "pw") (str "example.org:443")), talk [7] []).
Proof.
  apply (relay_request_exchange demo_user false (str "example.org:443") (str "example.org") (str "443") 443 [7] [] []).
  - by vm_compute.
  - by vm_compute.
  - by apply host_ok_dec_intro.
  - vm_compute. by split.
  - intros u [= <-]. exact demo_creds.
Defined.

Definition demo_relay_request : bytes :=
  [1; 0; 0; 26] ++ [1; 0; 7; 3] ++ str "bob" ++ [2] ++ str "pw" ++ [2; 0; 13; 3; 9] ++ str "localhost" ++ [0; 80].

Lemma relay_safe_witness :
  let '(r, w) := Relay.relay_handle demo_server [] None (λ _, Ok (talk [] [])) (mkWorld (talk demo_relay_request []) []) in
  w_trace w ≠ [] ∧ ∃ u f c', Relay.read_relay_request (talk demo_relay_request []) = (Ok (u, f), c')
    ∧ Forall (Relay.relay_ok demo_server [] None u f) (w_trace w).
Proof.
  destruct (Relay.relay_handle demo_server [] None (λ _, Ok (talk [] [])) (mkWorld (talk demo_relay_request []) [])) as [r w] eqn:E.
  assert (w_trace w ≠ []) as Hw by (vm_compute in E; by simplify_eq). split; [exact Hw|].
  destruct (relay_safe demo_server [] None _ _ _ _ E) as [Hz|Hs]; [contradiction|exact Hs].
Defined.

Lemma relay_ipv6_refused_witness :
  ∃ req, Relay.relay_connect None false (str "[2001:db8::1]:443") (talk [] []) = (Ok (Relay.relay_client false), talk [] req)
    ∧ ∃ e w, Relay.relay_handle (mkOptions [] None None None None 0 0) [] None (λ _, Ok (talk [] []))
        (mkWorld (talk (req ++ []) []) []) = (Err e, w) ∧ w_trace w = [] ∧ (e = Forbidden ∨ e = AuthFailed).
Proof.
  apply (relay_ipv6_refused _ [] None _ None false (str "[2001:db8::1]:443") (str "2001:db8::1") (str "443") 443
    [8193; 3512; 0; 0; 0; 0; 0; 1] []); try (by vm_compute).
Defined.
