(* ===== verification/HttpConnect.v ===== *)
(** * HTTP CONNECT through a proxy

    [read_response_head] and [http_connect] of src/chain.rs. The response head
    is read in pieces of at most 512 bytes; what was read beyond its end belongs
    to the tunnel and is put back. *)

From stdpp Require Import base list option numbers strings sets.
From Stdlib Require Import ZArith Lia.
From S2P Require Import Prelude Text Utf8 Reload Conn Socks5.

Definition MEDIUM_BUFFER_SIZE : Z := 8 * 1024.
Definition DEFAULT_USER_AGENT : bytes := str "Chrome/78.0.3904.106".

Definition crlf : bytes := [ch_cr; ch_lf].
Definition head_end : bytes := crlf ++ crlf.

Definition chain_proxy (msg : string) : ChainError := ProxyError (str msg).

(** ** The status line *)

(** [split_whitespace]: a word, and what follows it. *)
Fixpoint word (s : bytes) : bytes * bytes :=
  match s with
  | [] => ([], [])
  | x :: r => if (ws_len s =? 0)%nat then let '(w, t) := word r in (x :: w, t) else ([], s)
  end.
Fixpoint words_fuel (fuel : nat) (s : bytes) : list bytes :=
  match fuel, trim_start s with
  | S fuel, (_ :: _) as s => let '(w, t) := word s in w :: words_fuel fuel t
  | _, _ => []
  end.
Definition split_whitespace (s : bytes) : list bytes := words_fuel (length s) s.

(** [head.lines().next().unwrap_or_default()]. *)
Definition first_line (s : bytes) : bytes := strip_cr (nth 0 (split_char ch_lf s) []).

Definition status_code (status_line : bytes) : bytes := nth 1 (split_whitespace status_line) [].

(** ** The response head *)

(** The loop over the pieces; every read yields a byte or ends it, so a turn
    more than there are bytes is enough. *)
Fixpoint head_loop (fuel : nat) (acc : bytes) : conv ChainError bytes :=
  match fuel with
  | O => cfail (ProxyError [])
  | S fuel =>
      chunk <~ cmap_err ChainIo (read 512) ;;
      match chunk with
      | [] => cfail (chain_proxy "proxy closed the connection during CONNECT")
      | _ =>
          let acc := acc ++ chunk in
          match find_sub head_end acc with
          | Some pos =>
              let head_len := (pos + 4)%nat in
              λ c, (Ok (from_utf8_lossy (take head_len acc)), unread (drop head_len acc) c)
          | None =>
              if MEDIUM_BUFFER_SIZE <? zlen acc then cfail (chain_proxy "CONNECT response headers too large")
              else head_loop fuel acc
          end
      end
  end.
Definition read_response_head : conv ChainError bytes := λ c, head_loop (S (length (incoming c))) [] c.

(** ** The request *)

Section http.
(** The base64 encoder. *)
Context (base64 : bytes → bytes).

Definition basic_credentials (user : option Credentials) : option bytes :=
  match user with
  | None => None
  | Some (name, pass) => Some (base64 (name ++ [ch_colon] ++ default [] pass))
  end.

Definition connect_request (target : bytes) (user : option Credentials) : bytes :=
  str "CONNECT " ++ target ++ str " HTTP/1.1" ++ crlf ++ str "Host: " ++ target ++ crlf
  ++ str "User-Agent: " ++ DEFAULT_USER_AGENT ++ crlf ++ str "Proxy-Connection: keep-alive" ++ crlf
  ++ (match basic_credentials user with
      | Some creds => str "Proxy-Authorization: Basic " ++ creds ++ crlf
      | None => []
      end) ++ crlf.

Definition http_connect (target : bytes) (user : option Credentials) : conv ChainError () :=
  cmap_err ChainIo (write_all (connect_request target user)) ;;!
  head <~ read_response_head ;;
  let status_line := first_line head in
  if bool_decide (status_code status_line = str "200") then cret tt
  else cfail (ProxyError (str "HTTP CONNECT failed: " ++ status_line)).
End http.

(** ** Reading a head *)

Lemma read_some n c :
  (0 < n)%nat → incoming c ≠ [] →
  ∃ b c', read n c = (Ok b, c') ∧ b ≠ [] ∧ incoming c = b ++ incoming c' ∧ tx c' = tx c ∧ rx_end c' = rx_end c.
Proof.
  intros Hn Hi. unfold read, incoming in *. destruct (prefix c) as [|x p] eqn:Ep.
  - cbn [app] in Hi. destruct (rx c) as [|y l] eqn:Er; [done|].
    set (kc := match cuts c with [] => _ | _ => _ end). destruct kc as [k ks] eqn:Ek.
    assert (0 < k)%nat as Hk by (unfold kc in Ek; destruct (cuts c); simplify_eq; lia).
    exists (take k (y :: l)), (mkConn [] (drop k (y :: l)) ks (rx_end c) (tx c) (tx_left c)).
    split; [by destruct (rx_end c)|]. split_and!; [by destruct k; [lia|]| |done..]. cbn [prefix rx app]. by rewrite take_drop.
  - eexists _, _. split; [reflexivity|]. split_and!; [by destruct n; [lia|]| |done..]. cbn [prefix rx].
    by rewrite app_assoc, take_drop.
Qed.

Lemma incoming_unread b c : incoming (unread b c) = b ++ incoming c.
Proof. destruct b as [|x b]; [done|]. unfold incoming, unread. cbn. by rewrite <-app_assoc. Qed.

(** The end of the head is where it first occurs, wherever the pieces end. *)
Lemma head_end_prefix h p acc rest pos :
  find_sub head_end (h ++ head_end ++ p) = Some (length h) → acc ++ rest = h ++ head_end ++ p →
  find_sub head_end acc = Some pos → pos = length h.
Proof.
  intros Hf E Hp. apply find_sub_Some in Hp as ((t & Et) & Hl & Hmin). apply find_sub_Some in Hf as (_ & _ & Hfirst).
  assert (length (take pos acc) = pos) as Hlp by (rewrite length_take; lia).
  assert (length h ≤ pos)%nat as H1.
  { rewrite <-Hlp. apply (Hfirst _ (t ++ rest)). rewrite <-E, Et at 1. by rewrite <-!app_assoc. }
  assert (pos + 4 ≤ length acc)%nat as H2.
  { apply (f_equal length) in Et. rewrite !length_app, Hlp in Et. cbn in Et. lia. }
  assert (h ++ head_end = take (length h + 4) acc) as E2.
  { rewrite <-(take_app_le acc rest) by lia. rewrite E, app_assoc. symmetry. apply take_app_exact. rewrite length_app. cbn. lia. }
  enough (pos ≤ length h)%nat by lia. apply (Hmin h (drop (length h + 4) acc)). by rewrite app_assoc, E2, take_drop.
Qed.

Lemma head_loop_reads fuel acc h p c :
  find_sub head_end (h ++ head_end ++ p) = Some (length h) → zlen (h ++ head_end) ≤ MEDIUM_BUFFER_SIZE →
  acc ++ incoming c = h ++ head_end ++ p → find_sub head_end acc = None → (length (incoming c) < fuel)%nat →
  ∃ c', head_loop fuel acc c = (Ok (from_utf8_lossy (h ++ head_end)), c') ∧ incoming c' = p ∧ tx c' = tx c.
Proof.
  intros Hf Hsz. revert acc c. induction fuel as [|fuel IH]; intros acc c E Hn Hfuel; [lia|].
  assert (incoming c ≠ []) as Hi.
  { intros Hz. rewrite Hz, app_nil_r in E. subst acc. congruence. }
  destruct (read_some 512 c) as (b & c1 & Hr & Hb & Eb & Et & _); [lia|done|].
  cbn [head_loop]. unfold cbind at 1, cmap_err. rewrite Hr.
  assert ((acc ++ b) ++ incoming c1 = h ++ head_end ++ p) as E1 by (by rewrite <-app_assoc, <-Eb).
  destruct b as [|x b]; [done|]. set (acc' := acc ++ x :: b) in *. cbv zeta.
  destruct (find_sub head_end acc') as [pos|] eqn:Ep.
  - pose proof (head_end_prefix _ _ _ _ _ Hf E1 Ep) as ->.
    apply find_sub_Some in Ep as ((t & Eacc) & Hl & _).
    assert (take (length h + 4) acc' = h ++ head_end) as Etake.
    { assert (length h + 4 ≤ length acc')%nat as Hle.
      { apply (f_equal length) in Eacc. rewrite !length_app, length_take in Eacc. cbn in Eacc. lia. }
      rewrite <-(take_app_le acc' (incoming c1)) by lia. rewrite E1, app_assoc. apply take_app_exact. rewrite length_app. cbn. lia. }
    rewrite Etake. eexists. split; [reflexivity|]. split; [|by destruct (drop _ acc')].
    rewrite incoming_unread. apply (app_inv_head (h ++ head_end)). rewrite <-Etake at 1. rewrite app_assoc, take_drop, E1. by rewrite app_assoc.
  - assert (length acc' < length (h ++ head_end))%nat as Hlt.
    { apply Nat.nle_gt. intros Hge. eapply find_sub_None; [exact Ep|].
      instantiate (1 := drop (length (h ++ head_end)) acc'). instantiate (1 := h). rewrite app_assoc.
      rewrite <-(take_drop (length (h ++ head_end)) acc') at 1. f_equal.
      rewrite <-(take_app_le acc' (incoming c1)) by lia. rewrite E1, app_assoc. by apply take_app_exact. }
    destruct (Z.ltb_spec MEDIUM_BUFFER_SIZE (zlen acc')) as [Hx|_]; [unfold zlen in *; lia|].
    rewrite <-Et. apply IH; [done|done|]. rewrite Eb in Hfuel. rewrite length_app in Hfuel. cbn in Hfuel. lia.
Qed.

(** However the proxy's answer is cut into pieces: a response head of at most
    8 KiB is read to its end and no further, so the bytes after it, which belong
    to the tunnel, are all still to be read and in order; and the tunnel is up
    exactly when the status code is 200. *)
Theorem http_connect_tunnel base64 target user h p c :
  tx_left c = None → incoming c = h ++ head_end ++ p →
  find_sub head_end (h ++ head_end ++ p) = Some (length h) → zlen (h ++ head_end) ≤ MEDIUM_BUFFER_SIZE →
  let status_line := first_line (from_utf8_lossy (h ++ head_end)) in
  ∃ c', http_connect base64 target user c
      = (if bool_decide (status_code status_line = str "200") then Ok tt
         else Err (ProxyError (str "HTTP CONNECT failed: " ++ status_line)), c')
    ∧ incoming c' = p ∧ tx c' = tx c ++ connect_request base64 target user.
Proof.
  intros Ht Hi Hf Hsz status_line. unfold http_connect, cbind at 1, cmap_err, write_all. rewrite Ht.
  set (c1 := mkConn _ _ _ _ _ _).
  destruct (head_loop_reads (S (length (incoming c1))) [] h p c1) as (c' & Hr & Hp & Htx); [done..|lia|].
  exists c'. rewrite (cbind_ok read_response_head _ c1 _ c' Hr). fold status_line. split_and!; [|done|by rewrite Htx].
  by case_bool_decide.
Qed.

(** A response in pieces, with the tunnel's first bytes behind it. *)
Lemma http_connect_tunnel_witness :
  let response := str "HTTP/1.1 200 OK" ++ crlf ++ str "Via: x" in
  let c := mkConn [] (response ++ head_end ++ [1; 2; 3]) [4; 0; 7; 1; 20]%nat None [] None in
  ∃ c', http_connect id (str "example.org:443") None c = (Ok tt, c') ∧ incoming c' = [1; 2; 3]
    ∧ tx c' = connect_request id (str "example.org:443") None.
Proof.
  intros response c.
  destruct (http_connect_tunnel id (str "example.org:443") None response [1; 2; 3] c) as (c' & H1 & H2 & H3);
    [done|done|by vm_compute|by vm_compute|].
  exists c'. split_and!; [|done|done]. rewrite H1. by vm_compute.
Defined.
