(* ===== verification/Words.v ===== *)
(** * Case folding, trimming and words

    More of Rust's [str]: case-insensitive comparison, [to_lowercase], [split]
    and [split_once] at a substring, and how [trim] and [split_whitespace] act
    on lines of printable ASCII, which the HTTP code builds and reads. *)

From stdpp Require Import base list option numbers strings sets.
From Stdlib Require Import ZArith Lia.
From S2P Require Import Prelude Text HttpConnect.

(** ** Case *)

Definition lower (c : Z) : Z := if (65 <=? c) && (c <=? 90) then c + 32 else c.

Definition eq_ignore_ascii_case (a b : bytes) : bool := bool_decide (lower <$> a = lower <$> b).

(** [to_lowercase] as far as ASCII goes: apart from the ASCII letters, only the
    Kelvin sign (to [k]) and the dotted capital I (to [i] and a combining dot)
    have ASCII in their lowercase. The other characters are left as they are, so
    this is exact wherever the result is compared with ASCII. *)
Fixpoint to_lowercase (s : bytes) : bytes :=
  match s with
  | [] => []
  | c :: s1 =>
      match s1 with
      | [] => [lower c]
      | b :: s2 =>
          if (c =? 196) && (b =? 176) then 105 :: 204 :: 135 :: to_lowercase s2
          else
            match s2 with
            | [] => lower c :: to_lowercase s1
            | a :: s3 =>
                if (c =? 226) && (b =? 132) && (a =? 170) then 107 :: to_lowercase s3
                else lower c :: to_lowercase s1
            end
      end
  end.

(** ** Substrings *)

(** [s.split_once(p)] and [s.split(p)] for a substring; a turn of the loop takes
    [p] off, so the length of [s] is enough. *)
Definition split_once_str (p s : bytes) : option (bytes * bytes) :=
  match find_sub p s with
  | None => None
  | Some i => Some (take i s, drop (i + length p) s)
  end.

Fixpoint split_str_fuel (fuel : nat) (p s : bytes) : list bytes :=
  match fuel with
  | O => [s]
  | S fuel =>
      match split_once_str p s with
      | None => [s]
      | Some (a, b) => a :: split_str_fuel fuel p b
      end
  end.
Definition split_str (p s : bytes) : list bytes := split_str_fuel (length s) p s.

(** [s.contains(p)] *)
Definition contains_str (p s : bytes) : bool := match find_sub p s with Some _ => true | None => false end.

(** ** Lowercase *)

Lemma to_lowercase_ascii c s : c < 128 → to_lowercase (c :: s) = lower c :: to_lowercase s.
Proof.
  intros Hc. destruct s as [|b [|a s]]; cbn [to_lowercase]; [done|..];
    destruct (Z.eqb_spec c 196), (Z.eqb_spec c 226); try lia; done.
Qed.

Lemma to_lowercase_app u s : Forall (λ c, c < 128) u → to_lowercase (u ++ s) = (lower <$> u) ++ to_lowercase s.
Proof.
  induction 1 as [|c u Hc Hu IH]; [done|]. cbn [app]. rewrite to_lowercase_ascii by done. by rewrite IH.
Qed.

Lemma lower_low c d : lower c = d → d < 128 → c < 128.
Proof. unfold lower. case_goal; zbool; lia. Qed.

(** The first bytes of a text whose lowercase starts with an ASCII pattern that
    has no [k] and no final [i] are the pattern up to case: so a slice at the
    pattern's length is at a character boundary. *)
Lemma lowercase_prefix p s :
  Forall (λ c, c < 128 ∧ c ≠ 107) p → last p ≠ Some 105 → starts_with p (to_lowercase s) = true →
  (length p ≤ length s)%nat ∧ lower <$> take (length p) s = p.
Proof.
  intros Hp. revert s. induction Hp as [|d p [Hd Hk] Hp IH]; intros s Hl H; [split; [cbn; lia|done]|].
  assert (∀ c s1, starts_with (d :: p) (lower c :: to_lowercase s1) = true →
    (length (d :: p) ≤ length (c :: s1))%nat ∧ lower <$> take (length (d :: p)) (c :: s1) = d :: p) as Hgo.
  { intros c s1 Hs. cbn [starts_with] in Hs. apply andb_true_iff in Hs as [Hc Hs]. apply Z.eqb_eq in Hc.
    destruct (IH s1) as [I1 I2]; [|done|].
    { destruct p; [done|]. by cbn in Hl. }
    split; [cbn; lia|]. cbn [length take fmap list_fmap]. by rewrite I2, Hc. }
  destruct s as [|c [|b [|a s]]]; [done|by apply Hgo|..]; cbn [to_lowercase] in H.
  - destruct ((c =? 196) && (b =? 176)); [|by apply Hgo].
    cbn [starts_with] in H. apply andb_true_iff in H as [H1 H2]. apply Z.eqb_eq in H1. subst d.
    destruct p as [|e p]; [done|]. cbn [starts_with] in H2. apply andb_true_iff in H2 as [H2 _]. apply Z.eqb_eq in H2.
    apply Forall_cons in Hp as [[? _] _]. lia.
  - destruct ((c =? 196) && (b =? 176)).
    { cbn [starts_with] in H. apply andb_true_iff in H as [H1 H2]. apply Z.eqb_eq in H1. subst d.
      destruct p as [|e p]; [done|]. cbn [starts_with] in H2. apply andb_true_iff in H2 as [H2 _]. apply Z.eqb_eq in H2.
      apply Forall_cons in Hp as [[? _] _]. lia. }
    destruct ((c =? 226) && (b =? 132) && (a =? 170)); [|by apply Hgo].
    cbn [starts_with] in H. apply andb_true_iff in H as [H1 _]. apply Z.eqb_eq in H1. lia.
Qed.

(** ** Printable ASCII *)

Definition graphic (c : Z) : Prop := 33 ≤ c ≤ 126.

#[export] Instance graphic_dec c : Decision (graphic c).
Proof. unfold graphic. apply _. Defined.

Lemma ws_len_graphic c s : graphic c → ws_len (c :: s) = 0%nat.
Proof.
  intros Hc. assert (c ∈ seqZ 33 94) as Hin by (apply elem_of_seqZ; unfold graphic in Hc; lia).
  assert (Forall (λ d, ws_len (d :: s) = 0%nat) (seqZ 33 94)) as Hall by (vm_compute; repeat constructor).
  rewrite Forall_forall in Hall. by apply Hall.
Qed.

(** A white-space character of two or three bytes ends in a byte over 127. *)
Lemma ws_len_long s n c :
  (2 ≤ n)%nat → length s = n → last s = Some c → graphic c → ws_len s ≠ n.
Proof.
  intros Hn Hl Hc Hg Hw. unfold graphic in Hg.
  destruct s as [|x [|y [|z [|t s]]]]; cbn in Hl; try lia.
  - subst n. cbn [last] in Hc. simplify_eq. unfold ws_len in Hw. repeat case_match; lia.
  - subst n. cbn [last] in Hc. simplify_eq. unfold ws_len in Hw. repeat case_match; zbool; lia.
  - assert (∀ w, (ws_len w ≤ 3)%nat) as H3 by (intros w; unfold ws_len; repeat case_match; lia).
    specialize (H3 (x :: y :: z :: t :: s)). cbn in Hl. lia.
Qed.

Lemma last_drop {A} (u : list A) d k : (k ≤ length u)%nat → last (drop k (u ++ [d])) = Some d.
Proof. intros Hk. rewrite drop_app_le by done. by rewrite last_snoc. Qed.

Lemma ws_end_len_graphic u d : graphic d → ws_end_len (u ++ [d]) = 0%nat.
Proof.
  intros Hd. unfold ws_end_len. rewrite length_app. cbn [length].
  rewrite Nat.add_sub, drop_app_length, ws_len_graphic by done. cbn [Nat.eqb].
  assert (∀ k, (2 ≤ k)%nat → ws_len (drop (length u + 1 - k) (u ++ [d])) ≠ k) as H.
  { intros k Hk. destruct (decide (length u + 1 < k)%nat) as [Hlt|Hge].
    - replace (length u + 1 - k)%nat with 0%nat by lia. rewrite drop_0. intros Hw.
      destruct (decide (2 ≤ length (u ++ [d]))%nat) as [H2|H2].
      + assert (∀ w, (ws_len w ≤ length w)%nat) as Hb by (intros w; unfold ws_len; repeat case_match; cbn; lia).
        specialize (Hb (u ++ [d])). rewrite length_app in *. cbn in *. lia.
      + destruct u; [|rewrite length_app in H2; cbn in H2; lia]. cbn [app] in Hw. rewrite ws_len_graphic in Hw by done. lia.
    - eapply ws_len_long; [done| |by apply last_drop; lia|done]. rewrite length_drop, length_app. cbn. lia. }
  pose proof (H 2%nat ltac:(lia)) as H2. pose proof (H 3%nat ltac:(lia)) as H3.
  by rewrite <-Nat.eqb_neq in H2, H3; rewrite H2, H3.
Qed.

Lemma ws_end_len_space u c : c = 32 ∨ c = 10 ∨ c = 13 ∨ c = 9 → ws_end_len (u ++ [c]) = 1%nat.
Proof.
  intros Hc. unfold ws_end_len. rewrite length_app. cbn [length]. rewrite Nat.add_sub, drop_app_length.
  by destruct Hc as [->|[->|[->| ->]]].
Qed.

Lemma trim_start_graphic c s : graphic c → trim_start (c :: s) = c :: s.
Proof. intros Hc. unfold trim_start. cbn [length trim_start_fuel]. by rewrite ws_len_graphic. Qed.

Lemma trim_start_space c s : graphic c → trim_start (32 :: c :: s) = c :: s.
Proof.
  intros Hc. unfold trim_start. cbn [length trim_start_fuel]. change (ws_len (32 :: c :: s)) with 1%nat. cbn [drop].
  by rewrite ws_len_graphic.
Qed.

Lemma trim_end_snoc u d w :
  graphic d → Forall (λ c, c = 32 ∨ c = 10 ∨ c = 13 ∨ c = 9) w → trim_end (u ++ [d] ++ w) = u ++ [d].
Proof.
  intros Hd. unfold trim_end. rewrite !length_app. cbn [length].
  generalize (length u) as k. intros k. revert w. induction w as [|c w IH] using rev_ind; intros Hw.
  - rewrite app_nil_r. cbn [length]. rewrite Nat.add_0_r, Nat.add_1_r. cbn [trim_end_fuel]. by rewrite ws_end_len_graphic.
  - apply Forall_app in Hw as [Hw Hc]. apply Forall_cons in Hc as [Hc _]. rewrite length_app. cbn [length].
    replace (k + (1 + (length w + 1)))%nat with (S (k + (1 + length w))) by lia. cbn [trim_end_fuel].
    rewrite !app_assoc, ws_end_len_space by done. rewrite length_app. cbn [length]. rewrite Nat.add_sub, take_app_length, <-app_assoc.
    by apply IH.
Qed.

(** A line of text with its end, trimmed. *)
Lemma trim_line c s d w :
  graphic c → graphic d → Forall (λ c, c = 32 ∨ c = 10 ∨ c = 13 ∨ c = 9) w → trim (c :: s ++ [d] ++ w) = c :: s ++ [d].
Proof. intros Hc Hd Hw. unfold trim. rewrite trim_start_graphic by done. rewrite app_comm_cons. by rewrite trim_end_snoc. Qed.

(** The value of a header, after its name and colon. *)
Lemma trim_value v : v ≠ [] → Forall graphic v → trim (32 :: v) = v.
Proof.
  intros Hv H. destruct v as [|c v]; [done|]. apply Forall_cons in H as [Hc H]. unfold trim. rewrite trim_start_space by done.
  induction v as [|d v _] using rev_ind.
  - apply (trim_end_snoc [] c []); [done|constructor].
  - apply Forall_app in H as [_ Hd]. apply Forall_cons in Hd as [Hd _].
    rewrite <-(app_nil_r (c :: v ++ [d])) at 1. rewrite app_comm_cons, <-app_assoc. by apply trim_end_snoc.
Qed.

Lemma trim_crlf : trim crlf = [].
Proof. done. Qed.

(** ** Words *)

Lemma word_graphic w s : Forall graphic w → (ws_len s ≠ 0%nat ∨ s = []) → word (w ++ s) = (w, s).
Proof.
  intros Hw Hs. induction Hw as [|c w Hc Hw IH]; cbn [app].
  - destruct s as [|x s]; [done|]. destruct Hs as [Hs|]; [|done]. cbn [word].
    by destruct (Nat.eqb_spec (ws_len (x :: s)) 0).
  - cbn [word]. rewrite ws_len_graphic by done. cbn [Nat.eqb]. by rewrite IH.
Qed.

(** [w] and the words of [s], where the separator is a single space. *)
Lemma words_cons fuel c w s :
  graphic c → Forall graphic w → (ws_len s ≠ 0%nat ∨ s = []) →
  words_fuel (S fuel) (c :: w ++ s) = (c :: w) :: words_fuel fuel s.
Proof.
  intros Hc Hw Hs. cbn [words_fuel]. rewrite trim_start_graphic by done.
  rewrite app_comm_cons, word_graphic by (done || by constructor). done.
Qed.

Lemma words_space fuel c s : graphic c → words_fuel fuel (32 :: c :: s) = words_fuel fuel (c :: s).
Proof. intros Hc. destruct fuel; [done|]. cbn [words_fuel]. by rewrite trim_start_space, trim_start_graphic by done. Qed.

(** A request line has the three words it was made of. *)
Lemma split_request_line m t v :
  Forall graphic m → Forall graphic t → Forall graphic v → m ≠ [] → t ≠ [] → v ≠ [] →
  split_whitespace (m ++ [32] ++ t ++ [32] ++ v ++ crlf) = [m; t; v].
Proof.
  intros Hm Ht Hv H1 H2 H3. destruct m as [|cm m], t as [|ct t], v as [|cv v]; try done.
  apply Forall_cons in Hm as [Hcm Hm]. apply Forall_cons in Ht as [Hct Ht]. apply Forall_cons in Hv as [Hcv Hv].
  unfold split_whitespace. cbn [app].
  set (L := length _). assert (∃ k, L = S (S (S (S k)))) as [k ->].
  { unfold L. cbn [length]. rewrite length_app. cbn [length]. rewrite length_app. cbn [length].
    eexists (length m + length t + _)%nat. rewrite length_app. cbn [crlf length].
    instantiate (1 := (length v + 3)%nat). lia. }
  rewrite words_cons by (done || by left). rewrite words_space by done.
  rewrite words_cons by (done || by left). rewrite words_space by done. rewrite words_cons by (done || by left).
  done.
Qed.

(** ** Heads *)

Lemma find_sub_skip x q u s : x ∉ u → find_sub (x :: q) (u ++ s) = (λ i, (length u + i)%nat) <$> find_sub (x :: q) s.
Proof.
  intros Hu. induction u as [|y u IH]; [by destruct (find_sub _ _)|]. cbn [app find_sub starts_with].
  apply not_elem_of_cons in Hu as [Hy Hu]. destruct (Z.eqb_spec x y); [done|]. cbn [andb]. rewrite IH by done.
  by destruct (find_sub (x :: q) s).
Qed.

(** Lines with their ends between them. *)
Fixpoint join_crlf (ls : list bytes) : bytes :=
  match ls with
  | [] => []
  | [l] => l
  | l :: ls => l ++ crlf ++ join_crlf ls
  end.

Definition head_line (l : bytes) : Prop := ch_cr ∉ l ∧ l ≠ [].

(** The end of a head is not before its last line. *)
Lemma find_head ls p :
  Forall head_line ls → ls ≠ [] → find_sub head_end (join_crlf ls ++ head_end ++ p) = Some (length (join_crlf ls)).
Proof.
  change head_end with (ch_cr :: [ch_lf; ch_cr; ch_lf]). intros H Hne. induction H as [|a ls [Ha Hna] H IH]; [done|].
  destruct ls as [|b ls].
  - cbn [join_crlf]. rewrite find_sub_skip by done. cbn. by rewrite Nat.add_0_r.
  - change (join_crlf (a :: b :: ls)) with (a ++ crlf ++ join_crlf (b :: ls)). specialize (IH ltac:(done)). set (r := join_crlf (b :: ls)) in *. rewrite <-!app_assoc, find_sub_skip by done.
    apply Forall_cons in H as [[Hb Hnb] _]. destruct b as [|y b]; [done|]. apply not_elem_of_cons in Hb as [Hy _].
    assert (∃ r', r = y :: r') as [r' Er] by (unfold r; destruct ls; by eexists).
    set (q := ch_cr :: [ch_lf; ch_cr; ch_lf]) in *. set (w := r ++ q ++ p) in *.
    assert (find_sub q (crlf ++ w) = (λ i, (2 + i)%nat) <$> find_sub q w) as ->.
    { unfold crlf. cbn [app find_sub]. unfold q at 1 3. cbn [starts_with]. rewrite !Z.eqb_refl.
      change (ch_cr =? ch_lf) with false. cbn [andb]. unfold w at 1. rewrite Er. cbn [app].
      destruct (Z.eqb_spec ch_cr y); [done|]. cbn [andb]. change (starts_with q (ch_lf :: w)) with false.
      fold q. by destruct (find_sub q w). }
    rewrite IH. cbn. f_equal. rewrite !length_app. cbn. lia.
Qed.

(** [split] at the line ends gives the lines back. *)
Lemma split_join_crlf ls : Forall head_line ls → ls ≠ [] → split_str crlf (join_crlf ls) = ls.
Proof.
  unfold split_str. intros H Hne. assert (∀ fuel, (length ls ≤ fuel)%nat → split_str_fuel fuel crlf (join_crlf ls) = ls) as Hf.
  { induction H as [|a ls [Ha Hna] H IH]; [done|]. intros [|fuel] Hl; [cbn in Hl; lia|]. cbn [split_str_fuel].
    unfold split_once_str. destruct ls as [|b ls].
    - cbn [join_crlf]. change crlf with (ch_cr :: [ch_lf]). rewrite <-(app_nil_r a), find_sub_skip by done. cbn. by rewrite app_nil_r.
    - change (join_crlf (a :: b :: ls)) with (a ++ crlf ++ join_crlf (b :: ls)). 
      assert (∀ x, find_sub crlf (a ++ x) = (λ i, (length a + i)%nat) <$> find_sub crlf x) as -> by (intros x; by apply find_sub_skip).
      assert (find_sub crlf (crlf ++ join_crlf (b :: ls)) = Some 0%nat) as -> by done.
      cbn [fmap option_fmap option_map]. rewrite Nat.add_0_r, take_app_length.
      rewrite <-drop_drop, drop_app_length. change (drop (length crlf) (crlf ++ ?x)) with (drop 0 x). rewrite drop_0.
      rewrite IH by (done || (cbn in *; lia)). done. }
  apply Hf. clear Hf. induction H as [|a ls [Ha Hna] H IH]; [done|]. destruct ls as [|b ls].
  - destruct a; [done|]. cbn. lia.
  - change (join_crlf (a :: b :: ls)) with (a ++ crlf ++ join_crlf (b :: ls)). rewrite !length_app.
    specialize (IH ltac:(done)). cbn [length crlf] in *. lia.
Qed.
