(* ===== verification/HttpDate.v ===== *)
(** * HTTP dates

    [http_date] of src/http_proxy.rs, which finds the calendar date of a UNIX
    time with closed formulas, and the calendar itself, one day after the other,
    which it is proved to follow. *)

From stdpp Require Import base list option numbers strings sets.
From Stdlib Require Import ZArith Lia.
From S2P Require Import Prelude Text.

(** ** The code *)

Definition DAYS : list string := ["Sun"; "Mon"; "Tue"; "Wed"; "Thu"; "Fri"; "Sat"]%string.
Definition MONTHS : list string :=
  ["Jan"; "Feb"; "Mar"; "Apr"; "May"; "Jun"; "Jul"; "Aug"; "Sep"; "Oct"; "Nov"; "Dec"]%string.

(** [{:02}] *)
Definition show_02 (n : Z) : bytes :=
  let s := show_int n in if (length s <? 2)%nat then ch_zero :: s else s.

Definition Date : Set := Z * Z * Z.

(** Year, month and day from the days since the epoch: the year starts in March,
    so that leap days are at its end. *)
Definition civil_from_days (days : Z) : Date :=
  let z := days + 719468 in
  let era := z / 146097 in
  let doe := z mod 146097 in
  let yoe := (doe - doe / 1460 + doe / 36524 - doe / 146096) / 365 in
  let y := yoe + era * 400 in
  let doy := doe - (365 * yoe + yoe / 4 - yoe / 100) in
  let mp := (5 * doy + 2) / 153 in
  let d := doy - (153 * mp + 2) / 5 + 1 in
  let m := if mp <? 10 then mp + 3 else mp - 9 in
  let y := if m <=? 2 then y + 1 else y in
  (y, m, d).

(** The format, of a weekday, a date and the seconds of the day. *)
Definition date_line (weekday : Z) (date : Date) (secs_of_day : Z) : bytes :=
  let '(y, m, d) := date in
  str (nth (Z.to_nat weekday) DAYS ""%string) ++ str ", " ++ show_02 d ++ str " "
  ++ str (nth (Z.to_nat (m - 1)) MONTHS ""%string) ++ str " " ++ show_int y ++ str " "
  ++ show_02 (secs_of_day / 3600) ++ str ":" ++ show_02 (secs_of_day mod 3600 / 60) ++ str ":"
  ++ show_02 (secs_of_day mod 60) ++ str " GMT".

Definition http_date (unix_secs : Z) : bytes :=
  let days := unix_secs / 86400 in
  let weekday := (days + 4) mod 7 in
  date_line weekday (civil_from_days days) (unix_secs mod 86400).

(** ** The calendar *)

Definition is_leap (y : Z) : bool := (y mod 4 =? 0) && (negb (y mod 100 =? 0) || (y mod 400 =? 0)).

Definition month_days (leap : bool) (m : Z) : Z :=
  if m =? 2 then if leap then 29 else 28
  else if (m =? 4) || (m =? 6) || (m =? 9) || (m =? 11) then 30 else 31.

Definition next_day (date : Date) : Date :=
  let '(y, m, d) := date in
  if d <? month_days (is_leap y) m then (y, m, d + 1)
  else if m =? 12 then (y + 1, 1, 1) else (y, m + 1, 1).

(** The day [n] days after Thursday, 1 January 1970. *)
Definition calendar (n : nat) : Date := Nat.iter n next_day (1970, 1, 1).

(** ** Years that start in March *)

(** The days before year [y] of this kind, and the year's length. *)
Definition year_start (y : Z) : Z := 365 * y + y / 4 - y / 100 + y / 400.
Definition leap_days (y : Z) : Z := if is_leap (y + 1) then 1 else 0.

Lemma year_start_succ y : year_start (y + 1) = year_start y + 365 + leap_days y.
Proof.
  unfold year_start, leap_days, is_leap.
  destruct (Z.eqb_spec ((y + 1) mod 4) 0), (Z.eqb_spec ((y + 1) mod 100) 0), (Z.eqb_spec ((y + 1) mod 400) 0);
    cbn [andb orb negb]; Z.div_mod_to_equations; lia.
Qed.

(** The month and the day of a month of a day of such a year. *)
Definition month_day (doy : Z) : Z * Z :=
  let mp := (5 * doy + 2) / 153 in
  (if mp <? 10 then mp + 3 else mp - 9, doy - (153 * mp + 2) / 5 + 1).
Definition date_of (y doy : Z) : Date :=
  let '(m, d) := month_day doy in (if m <=? 2 then y + 1 else y, m, d).

(** The year of a day of an era: its numerator grows with the day, so it is
    enough that it is right on the first and the last day of each year. *)
Definition year_num (doe : Z) : Z := doe - doe / 1460 + doe / 36524 - doe / 146096.
Definition start_of (y : Z) : Z := 365 * y + y / 4 - y / 100.

Lemma year_num_mono a b : 0 ≤ a ≤ b → year_num a ≤ year_num b.
Proof.
  intros [Ha Hb]. replace b with (a + Z.of_nat (Z.to_nat (b - a))) by lia. generalize (Z.to_nat (b - a)). clear Hb.
  intros n. induction n as [|n IH]; [rewrite Z.add_0_r; lia|]. etrans; [exact IH|].
  rewrite Nat2Z.inj_succ. set (x := a + Z.of_nat n). replace (a + Z.succ (Z.of_nat n)) with (x + 1) by lia.
  assert (0 ≤ x) by lia. unfold year_num. Z.div_mod_to_equations. lia.
Qed.

Lemma year_num_ends :
  forallb (λ y, (year_num (start_of y) / 365 =? y)
    && (year_num (if y =? 399 then 146096 else start_of (y + 1) - 1) / 365 =? y)) (seqZ 0 400) = true.
Proof. vm_compute. reflexivity. Qed.

Definition end_of (y : Z) : Z := if y =? 399 then 146096 else start_of (y + 1) - 1.

Lemma year_of_day doe : 0 ≤ doe < 146097 → ∃ y, 0 ≤ y < 400 ∧ start_of y ≤ doe ≤ end_of y.
Proof.
  intros Hd. assert (∀ k : nat, (k ≤ 399)%nat → doe < start_of (Z.of_nat k) → ∃ y, 0 ≤ y < 399 ∧ start_of y ≤ doe < start_of (y + 1)) as Hk.
  { intros k. induction k as [|k IH]; intros Hle Hlt; [change (start_of (Z.of_nat 0)) with 0 in Hlt; lia|].
    destruct (Z_lt_le_dec doe (start_of (Z.of_nat k))) as [H|H]; [apply IH; [lia|done]|].
    exists (Z.of_nat k). rewrite Nat2Z.inj_succ in Hlt. unfold Z.succ in Hlt. lia. }
  unfold end_of. destruct (Z_lt_le_dec doe (start_of 399)) as [H|H].
  - destruct (Hk 399%nat) as (y & Hy & Hs); [done|done|]. exists y. destruct (Z.eqb_spec y 399); lia.
  - exists 399. cbn [Z.eqb Pos.eqb]. lia.
Qed.

Lemma year_num_year doe : 0 ≤ doe < 146097 → 0 ≤ year_num doe / 365 < 400
  ∧ start_of (year_num doe / 365) ≤ doe ≤ end_of (year_num doe / 365).
Proof.
  intros Hd. destruct (year_of_day doe Hd) as (y & Hy & Hs). enough (year_num doe / 365 = y) as -> by done.
  pose proof year_num_ends as He. rewrite forallb_forall in He.
  specialize (He y). rewrite <-list_elem_of_In, elem_of_seqZ in He. specialize (He ltac:(lia)). zbool.
  assert (0 ≤ start_of y) as Hz.
  { unfold start_of. Z.div_mod_to_equations. lia. }
  pose proof (year_num_mono (start_of y) doe ltac:(lia)) as M1. pose proof (year_num_mono doe (end_of y) ltac:(lia)) as M2.
  apply (Z.div_le_mono _ _ 365) in M1, M2; [|lia..]. unfold end_of in M2. lia.
Qed.

(** The date is the one of a day of a March year. *)
Lemma civil_spec days :
  0 ≤ days → ∃ y doy, civil_from_days days = date_of y doy ∧ days + 719468 = year_start y + doy
    ∧ 0 ≤ doy < 365 + leap_days y.
Proof.
  intros Hd. set (z := days + 719468). set (era := z / 146097). set (doe := z mod 146097).
  pose proof (Z.mod_pos_bound z 146097 ltac:(lia)) as Hb. fold doe in Hb.
  pose proof (Z.div_mod z 146097 ltac:(lia)) as Hz. fold era doe in Hz.
  destruct (year_num_year doe Hb) as [Hy Hs]. set (yoe := year_num doe / 365) in *.
  exists (yoe + era * 400), (doe - start_of yoe).
  split; [reflexivity|].
  assert (year_start (yoe + era * 400) = start_of yoe + 146097 * era) as Ey.
  { unfold year_start, start_of. Z.div_mod_to_equations. lia. }
  split; [lia|]. split; [lia|].
  pose proof (year_start_succ (yoe + era * 400)) as E1. rewrite Ey in E1. unfold end_of in Hs.
  destruct (Z.eqb_spec yoe 399) as [E|E].
  - rewrite E in *. replace (399 + era * 400 + 1) with ((era + 1) * 400) in E1 by lia.
    unfold year_start in E1. change (start_of 399) with 145731 in *. Z.div_mod_to_equations. lia.
  - assert (year_start (yoe + era * 400 + 1) = start_of (yoe + 1) + 146097 * era) as E2; [|lia].
    unfold year_start, start_of. Z.div_mod_to_equations. lia.
Qed.

(** ** One day after the other *)

Lemma months_follow (leap : bool) :
  forallb (λ doy, let '(m, d) := month_day doy in
    if d <? month_days leap m then bool_decide (month_day (doy + 1) = (m, d + 1)) && negb ((m =? 12) && (d =? 31))
    else if m =? 12 then bool_decide (month_day (doy + 1) = (1, 1)) else bool_decide (month_day (doy + 1) = (m + 1, 1)) && negb (m =? 2))
    (seqZ 0 (if leap then 365 else 364)) = true.
Proof. destruct leap; vm_compute; reflexivity. Qed.

Lemma date_of_next y doy : 0 ≤ doy → doy + 1 < 365 + leap_days y → next_day (date_of y doy) = date_of y (doy + 1).
Proof.
  intros H0 H1. pose proof (months_follow (is_leap (y + 1))) as H. rewrite forallb_forall in H.
  specialize (H doy). rewrite <-list_elem_of_In, elem_of_seqZ in H.
  specialize (H ltac:(unfold leap_days in H1; destruct (is_leap (y + 1)); lia)).
  unfold date_of. destruct (month_day doy) as [m d]. cbn [next_day].
  assert (month_days (is_leap (if m <=? 2 then y + 1 else y)) m = month_days (is_leap (y + 1)) m) as ->.
  { unfold month_days. destruct (Z.eqb_spec m 2) as [->|]; done. }
  destruct (d <? month_days (is_leap (y + 1)) m).
  - apply andb_true_iff in H as [H _]. apply bool_decide_eq_true in H. by rewrite H.
  - destruct (Z.eqb_spec m 12) as [->|Hm].
    + apply bool_decide_eq_true in H. by rewrite H.
    + apply andb_true_iff in H as [H H2]. apply bool_decide_eq_true in H. rewrite H. zbool.
      destruct (Z.leb_spec m 2), (Z.leb_spec (m + 1) 2); try done; lia.
Qed.

Lemma date_of_new_year y : next_day (date_of y (364 + leap_days y)) = date_of (y + 1) 0.
Proof.
  unfold leap_days. destruct (is_leap (y + 1)) eqn:E.
  - change (date_of y (364 + 1)) with (y + 1, 2, 29). cbn [next_day]. by rewrite E.
  - change (date_of y (364 + 0)) with (y + 1, 2, 28). cbn [next_day]. by rewrite E.
Qed.

Lemma civil_next days : 0 ≤ days → civil_from_days (days + 1) = next_day (civil_from_days days).
Proof.
  intros Hd. destruct (civil_spec days Hd) as (y & doy & -> & E & Hy).
  destruct (civil_spec (days + 1) ltac:(lia)) as (y' & doy' & -> & E' & Hy').
  assert (∀ a b, a < b → year_start (a + 1) ≤ year_start b) as Hm.
  { intros a b Hab. unfold year_start. Z.div_mod_to_equations. lia. }
  pose proof (year_start_succ y) as S1. pose proof (year_start_succ y') as S2.
  destruct (Z.lt_trichotomy y y') as [H|[<-|H]].
  - pose proof (Hm _ _ H) as H1. assert (doy' = 0 ∧ doy = 364 + leap_days y) as [-> ->] by lia.
    destruct (Z.eq_dec y' (y + 1)) as [->|Hn]; [by rewrite date_of_new_year|].
    pose proof (Hm (y + 1) y' ltac:(lia)) as H2. pose proof (year_start_succ (y + 1)) as S3.
    assert (0 ≤ leap_days (y + 1)) by (unfold leap_days; case_goal; lia). lia.
  - rewrite date_of_next by lia. f_equal. lia.
  - pose proof (Hm _ _ H). lia.
Qed.

(** The [Date] header of a camouflage response is right at every time: its
    date is the one reached by counting the days of the Gregorian calendar from
    1 January 1970, its weekday by counting from that Thursday, and its time the
    rest of the day. *)
Theorem http_date_calendar unix_secs :
  0 ≤ unix_secs →
  let days := Z.to_nat (unix_secs / 86400) in
  http_date unix_secs
  = date_line (Nat.iter days (λ d, if d =? 6 then 0 else d + 1) 4) (calendar days) (unix_secs - 86400 * Z.of_nat days).
Proof.
  intros Hs days. assert (unix_secs / 86400 = Z.of_nat days) as E.
  { unfold days. rewrite Z2Nat.id; [done|]. apply Z.div_pos; lia. }
  unfold http_date. rewrite E. f_equal.
  - clearbody days. clear. induction days as [|n IH]; [done|]. rewrite Nat.iter_succ, <-IH.
    set (x := Z.of_nat n). rewrite Nat2Z.inj_succ. fold x.
    destruct (Z.eqb_spec ((x + 4) mod 7) 6); Z.div_mod_to_equations; lia.
  - clearbody days. clear. unfold calendar. induction days as [|n IH]; [vm_compute; reflexivity|].
    rewrite Nat.iter_succ, <-IH, Nat2Z.inj_succ. apply civil_next. lia.
  - rewrite <-E. pose proof (Z.div_mod unix_secs 86400). lia.
Qed.

Lemma http_date_calendar_witness :
  http_date 1709210096 = str "Thu, 29 Feb 2024 12:34:56 GMT" ∧ calendar 59 = (1970, 3, 1)
  ∧ http_date 5097600 = date_line 0 (1970, 3, 1) 0.
Proof.
  assert (calendar 59 = (1970, 3, 1)) as E by (vm_compute; reflexivity).
  split; [vm_compute; reflexivity|]. split; [exact E|].
  rewrite (http_date_calendar 5097600) by lia. change (Z.to_nat (5097600 / 86400)) with 59%nat. rewrite E. reflexivity.
Defined.
