(* ===== verification/SniHello.v ===== *)
(** * Hiding the destination of a TLS connection

    The ClientHello codec of src/sni.rs. A client moves the server name of its
    first record into a private extension and shows a decoy instead; the server
    undoes this. [encode_server_name] guards the name with a checksum. The
    unpadded URL-safe base64 of the [base64] crate is a parameter, with its
    contract as the class [Base64Ok]. *)

From stdpp Require Import base list option numbers strings sets.
From Stdlib Require Import ZArith Lia.
From S2P Require Import Prelude Text Utf8 KcpCrypt KcpFrame.

(** What a base64 engine promises: decoding undoes encoding, encoded text is
    printable ASCII, and that of nothing is empty. *)
Class Base64Ok (encode : bytes → bytes) (decode : bytes → option bytes) : Prop := {
  base64_inverse b : is_bytes b → decode (encode b) = Some b;
  base64_graphic b : Forall (λ c, 33 ≤ c ≤ 126) (encode b);
  base64_nil : encode [] = []
}.

Lemma base64_nonempty `{!Base64Ok encode decode} b : is_bytes b → b ≠ [] → encode b ≠ [].
Proof.
  intros Hb Hne E. pose proof (base64_inverse b Hb) as H1. pose proof (base64_inverse [] ltac:(constructor)) as H2.
  rewrite base64_nil in H2. rewrite E in H1. congruence.
Qed.

Module Sni.

Definition TLS_HANDSHAKE : Z := 22.
Definition EXT_GOST_HOST : Z := 65534.
Definition EXT_SERVER_NAME : Z := 0.

(** ** Checksummed names *)

(** One bit: the polynomial is masked with the low bit spread over the word. *)
Definition crc_step (crc : Z) : Z :=
  let mask := u32 (- Z.land crc 1) in
  Z.lxor (Z.shiftr crc 1) (Z.land 3988292384 mask).
Definition crc32_ieee (data : bytes) : Z :=
  Z.lxor (foldl (λ crc byte, Nat.iter 8 crc_step (Z.lxor crc byte)) u32_ones data) u32_ones.

Definition from_utf8 (b : bytes) : option bytes := if utf8_ok b then Some b else None.

(** [u16::from_be_bytes] of two bytes, if they are there. *)
Definition be16 (l : bytes) (i : nat) : option Z := a ← l !! i; b ← l !! S i; Some (from_be [a; b]).

(** Where the extensions are in a handshake message: the fields before them
    carry their lengths. *)
Definition extensions_span (hello : bytes) : option (nat * nat) :=
  let i := (4 + 2 + 32)%nat in
  session_len ← hello !! i;
  let i := (i + 1 + Z.to_nat session_len)%nat in
  suites_len ← be16 hello i;
  let i := (i + 2 + Z.to_nat suites_len)%nat in
  comp_len ← hello !! i;
  let i := (i + 1 + Z.to_nat comp_len)%nat in
  exts_len ← be16 hello i;
  let start := (i + 2)%nat in
  let stop := (start + Z.to_nat exts_len)%nat in
  if (length hello <? stop)%nat then None else Some (start, stop).

Definition Extension : Set := Z * bytes.

(** The loop over an extensions block; a turn takes four bytes or more. *)
Fixpoint parse_extensions_fuel (fuel : nat) (block : bytes) : option (list Extension) :=
  match fuel, block with
  | S fuel, t1 :: t0 :: l1 :: l0 :: rest =>
      let len := Z.to_nat (from_be [l1; l0]) in
      if (length rest <? len)%nat then None
      else out ← parse_extensions_fuel fuel (drop len rest); Some ((from_be [t1; t0], take len rest) :: out)
  | _, _ => Some []
  end.
Definition parse_extensions (block : bytes) : option (list Extension) := parse_extensions_fuel (length block) block.

Definition sni_body (name : bytes) : bytes :=
  to_be 2 (zlen name + 3) ++ [0] ++ to_be 2 (zlen name) ++ name.

Definition sni_name (body : bytes) : option bytes :=
  if (length body <? 5)%nat then None else
  len ← be16 body 3;
  if (length body <? 5 + Z.to_nat len)%nat then None else from_utf8 (take (Z.to_nat len) (drop 5 body)).

Definition encode_extension (e : Extension) : bytes := to_be 2 (e.1) ++ to_be 2 (zlen (e.2)) ++ e.2.
Definition encode_extensions (exts : list Extension) : bytes := concat (encode_extension <$> exts).

Section names.
Context (b64_encode : bytes → bytes) (b64_decode : bytes → option bytes).

Definition encode_server_name (name : bytes) : bytes :=
  b64_encode (to_be 4 (crc32_ieee name) ++ b64_encode name).

Definition decode_server_name (s : bytes) : option bytes :=
  outer ← b64_decode s;
  if (length outer <? 4)%nat then None else
  inner ← b64_decode (drop 4 outer);
  let want := from_be (take 4 outer) in
  if crc32_ieee inner =? want then from_utf8 inner else None.

(** ** Rewriting a record *)

(** The server's loop: private extensions are taken out and name the host. *)
Fixpoint take_private (host : bytes) (exts : list Extension) : list Extension * bytes :=
  match exts with
  | [] => ([], host)
  | (ext_type, body) :: exts =>
      let kept := let '(kept, host) := take_private host exts in ((ext_type, body) :: kept, host) in
      if ext_type =? EXT_GOST_HOST then
        match decode_server_name (from_utf8_lossy body) with
        | Some decoded => take_private decoded exts
        | None => kept
        end
      else kept
  end.

(** The loop over the extensions that stops at the first server name: what
    becomes of the extensions, the host, and the extension to append. *)
Fixpoint set_server_name (host : bytes) (is_client : bool) (exts : list Extension) :
    list Extension * bytes * option Extension :=
  match exts with
  | [] => ([], host, None)
  | (ext_type, body) :: exts =>
      if negb (ext_type =? EXT_SERVER_NAME) then
        let '(exts, host, appended) := set_server_name host is_client exts in ((ext_type, body) :: exts, host, appended)
      else
        let name := default [] (sni_name body) in
        let host := match host with [] => name | _ => host end in
        let appended := if is_client then Some (EXT_GOST_HOST, encode_server_name name) else None in
        let body := match host with [] => body | _ => sni_body host end in
        ((ext_type, body) :: exts, host, appended)
  end.

Definition rewrite_extensions (host : bytes) (is_client : bool) (exts : list Extension) : list Extension * bytes :=
  let '(exts, host) := if is_client then (exts, host) else take_private host exts in
  let '(exts, host, appended) := set_server_name host is_client exts in
  (exts ++ match appended with Some ext => [ext] | None => [] end, host).

Definition rewrite_client_hello (record host : bytes) (is_client : bool) : option (bytes * bytes) :=
  if (length record <? 5)%nat || negb (nth 0 record 0 =? TLS_HANDSHAKE) then None else
  body_len ← be16 record 3;
  if (length record <? 5 + Z.to_nat body_len)%nat then None else
  let hello := take (Z.to_nat body_len) (drop 5 record) in
  '(start, stop) ← extensions_span hello;
  exts ← parse_extensions (take (stop - start) (drop start hello));
  let '(exts, host) := rewrite_extensions host is_client exts in
  let block := encode_extensions exts in
  let new_hello := take (start - 2) hello ++ to_be 2 (zlen block) ++ block ++ drop stop hello in
  let hs_len := zlen new_hello - 4 in
  let new_hello := take 1 new_hello ++ to_be 3 hs_len ++ drop 4 new_hello in
  Some (take 3 record ++ to_be 2 (zlen new_hello) ++ new_hello, host).

End names.

(** ** The server name a record shows *)

(** The loop over the extensions from [pos] on; a turn moves on by four. *)
Fixpoint sni_loop (fuel : nat) (payload : bytes) (pos ext_end : nat) : option bytes :=
  match fuel with
  | O => None
  | S fuel =>
      if (pos + 4 <=? ext_end)%nat && (pos + 4 <=? length payload)%nat then
        ext_type ← be16 payload pos;
        ext_len ← be16 payload (pos + 2);
        let pos := (pos + 4)%nat in
        if ext_type =? 0 then
          _ ← be16 payload pos;
          let pos := (pos + 2)%nat in
          name_type ← payload !! pos;
          let pos := (pos + 1)%nat in
          if name_type =? 0 then
            name_len ← be16 payload pos;
            let pos := (pos + 2)%nat in
            if (length payload <? pos + Z.to_nat name_len)%nat then None
            else Some (from_utf8_lossy (take (Z.to_nat name_len) (drop pos payload)))
          else sni_loop fuel payload (pos + Z.to_nat ext_len) ext_end
        else sni_loop fuel payload (pos + Z.to_nat ext_len) ext_end
      else None
  end.

Definition extract_sni (data : bytes) : option bytes :=
  if (length data <? 5)%nat || negb (nth 0 data 0 =? TLS_HANDSHAKE) then None else
  record_len ← be16 data 3;
  if (length data <? 5 + Z.to_nat record_len)%nat then None else
  let payload := drop 5 data in
  match payload with
  | [] => None
  | b :: _ =>
      if negb (b =? 1) then None else
      if (length payload <? 38)%nat then None else
      let pos := (4 + 2 + 32)%nat in
      session_id_len ← payload !! pos;
      let pos := (pos + 1 + Z.to_nat session_id_len)%nat in
      cipher_suites_len ← be16 payload pos;
      let pos := (pos + 2 + Z.to_nat cipher_suites_len)%nat in
      comp_methods_len ← payload !! pos;
      let pos := (pos + 1 + Z.to_nat comp_methods_len)%nat in
      extensions_len ← be16 payload pos;
      let pos := (pos + 2)%nat in
      sni_loop (S (length payload)) payload pos (pos + Z.to_nat extensions_len)
  end.

(** ** The two checksums agree *)

Lemma crc_step_bit crc : 0 ≤ crc → crc_step crc = crc_bit 3988292384 crc.
Proof.
  intros Hc. unfold crc_step, crc_bit.
  assert (Z.land crc 1 = 0 ∨ Z.land crc 1 = 1) as [->| ->].
  { pose proof (Z.land_ones crc 1 ltac:(lia)) as E. change (Z.ones 1) with 1 in E. change (2 ^ 1) with 2 in E.
    pose proof (Z.mod_pos_bound crc 2 ltac:(lia)). lia. }
  - cbn [Z.eqb]. change (Z.land 3988292384 (u32 (- 0))) with 0. by rewrite Z.lxor_0_r.
  - done.
Qed.

(** The bit-by-bit checksum of names is the table-driven one of packets. *)
Theorem crc_agrees data : is_bytes data → crc32_ieee data = KcpCrypt.crc32_ieee data.
Proof.
  intros Hd. unfold KcpCrypt.crc32_ieee, CRC32_IEEE. rewrite crc32_table_correct by done.
  unfold crc32_ieee, crc32_bitwise. f_equal. assert (0 ≤ u32_ones) as H0 by done. revert H0. generalize u32_ones.
  induction Hd as [|b data Hb Hd IH]; intros c Hc; [done|]. cbn [foldl]. unfold is_byte in Hb.
  assert (∀ k x, 0 ≤ x → Nat.iter k crc_step x = Nat.iter k (crc_bit 3988292384) x ∧ 0 ≤ Nat.iter k (crc_bit 3988292384) x) as Hk.
  { intros k x Hx. induction k as [|k [E1 E2]]; [done|]. rewrite !Nat.iter_succ, E1, crc_step_bit by done.
    split; [done|]. by apply crc_bit_nonneg. }
  destruct (Hk 8%nat (Z.lxor c b)) as [-> ?]; [apply Z.lxor_nonneg; lia|]. by apply IH.
Qed.

Lemma crc_range data : is_bytes data → 0 ≤ crc32_ieee data < 2 ^ 32.
Proof. intros H. rewrite crc_agrees by done. apply crc32_ieee_range. Qed.

(** ** Names round-trip *)

Section roundtrip.
Context (b64_encode : bytes → bytes) (b64_decode : bytes → option bytes) `{!Base64Ok b64_encode b64_decode}.

Lemma graphic_bytes b : Forall (λ c, 33 ≤ c ≤ 126) b → is_bytes b.
Proof. intros H. eapply Forall_impl; [exact H|]. unfold is_byte. cbn. lia. Qed.

Lemma decode_encode_name name :
  is_bytes name → utf8_ok name = true →
  decode_server_name b64_decode (encode_server_name b64_encode name) = Some name.
Proof using Type*.
  intros Hb Hu. unfold decode_server_name, encode_server_name. pose proof (crc_range name Hb) as Hr.
  rewrite base64_inverse by (apply Forall_app; split; [apply is_bytes_to_be|apply graphic_bytes, base64_graphic]).
  cbn [mbind option_bind]. rewrite length_app, length_to_be. cbn [Nat.ltb Nat.leb Nat.add].
  rewrite (drop_app_exact (to_be 4 _)), base64_inverse by (done || by rewrite length_to_be).
  cbn [mbind option_bind]. rewrite (take_app_exact (to_be 4 _)) by (by rewrite length_to_be).
  rewrite from_to_be, Z.eqb_refl by lia. unfold from_utf8. by rewrite Hu.
Qed.

Lemma encoded_name_ascii name : from_utf8_lossy (encode_server_name b64_encode name) = encode_server_name b64_encode name.
Proof using Type*. apply lossy_ascii. unfold encode_server_name. eapply Forall_impl; [apply base64_graphic|]. cbn. lia. Qed.

End roundtrip.

(** ** Well-formed records *)

(** A ClientHello by its fields; [fixed] is the version and the random. *)
Record Hello : Set := mkHello {
  h_type : Z; fixed : bytes; session : bytes; suites : bytes; comps : bytes; exts : list Extension; tail : bytes }.

Definition set_exts (e : list Extension) (h : Hello) : Hello :=
  mkHello (h_type h) (fixed h) (session h) (suites h) (comps h) e (tail h).

(** What comes before the extensions, and all of it, without the header. *)
Definition hello_front (h : Hello) : bytes :=
  fixed h ++ [zlen (session h)] ++ session h ++ to_be 2 (zlen (suites h)) ++ suites h ++ [zlen (comps h)] ++ comps h.
Definition hello_rest (h : Hello) : bytes :=
  hello_front h ++ to_be 2 (zlen (encode_extensions (exts h))) ++ encode_extensions (exts h) ++ tail h.
Definition encode_hello (h : Hello) : bytes := [h_type h] ++ to_be 3 (zlen (hello_rest h)) ++ hello_rest h.
Definition encode_record (ver : bytes) (h : Hello) : bytes :=
  TLS_HANDSHAKE :: ver ++ to_be 2 (zlen (encode_hello h)) ++ encode_hello h.

Definition ext_ok (e : Extension) : Prop := 0 ≤ e.1 < 65536 ∧ zlen (e.2) < 65536.

#[export] Instance ext_ok_dec e : Decision (ext_ok e).
Proof. unfold ext_ok. apply _. Defined.

(** The lengths fit their fields. *)
Record hello_ok (h : Hello) : Prop := {
  ok_fixed : length (fixed h) = 34%nat;
  ok_session : zlen (session h) < 256;
  ok_suites : zlen (suites h) < 65536;
  ok_comps : zlen (comps h) < 256;
  ok_exts : Forall ext_ok (exts h);
  ok_size : zlen (encode_hello h) < 65536 }.

Lemma from_be_pair n : 0 ≤ n < 65536 → ∃ a b, to_be 2 n = [a; b] ∧ from_be [a; b] = n.
Proof.
  intros Hn. destruct (to_be 2 n) as [|a [|b [|c l]]] eqn:E; pose proof (length_to_be 2 n) as Hl; rewrite E in Hl; try done.
  exists a, b. split; [done|]. rewrite <-E. by apply from_to_be.
Qed.

Lemma be16_at u n v i : i = length u → 0 ≤ n < 65536 → be16 (u ++ to_be 2 n ++ v) i = Some n.
Proof.
  intros -> Hn. destruct (from_be_pair n Hn) as (a & b & -> & E). unfold be16. cbn [app].
  rewrite (list_lookup_middle u (b :: v) a (length u)) by done. cbn [mbind option_bind].
  rewrite lookup_app_r, Nat.sub_succ_l, Nat.sub_diag by lia. cbn -[from_be]. by rewrite E.
Qed.

Lemma lookup_at {A} (u v : list A) x i : i = length u → (u ++ x :: v) !! i = Some x.
Proof. intros ->. by apply list_lookup_middle. Qed.

Lemma parse_encode_fuel fuel e :
  Forall ext_ok e → (length (encode_extensions e) ≤ fuel)%nat → parse_extensions_fuel fuel (encode_extensions e) = Some e.
Proof.
  intros He. revert fuel. induction He as [|[t b] e [Ht Hb] He IH]; intros fuel Hf; [by destruct fuel|].
  cbn [fst snd] in *. unfold encode_extensions in *. cbn [fmap list_fmap concat] in *.
  unfold encode_extension at 1 in Hf. unfold encode_extension at 1. cbn [fst snd] in *.
  destruct (from_be_pair t Ht) as (t1 & t0 & Et & Ft).
  destruct (from_be_pair (zlen b)) as (l1 & l0 & El & Fl); [pose proof (zlen_nonneg b); lia|].
  rewrite Et, El in *. cbn [app] in *. cbn [length] in Hf. rewrite length_app in Hf. destruct fuel as [|fuel]; [lia|].
  cbn [parse_extensions_fuel]. rewrite Ft, Fl. unfold zlen. rewrite Nat2Z.id, length_app.
  destruct (Nat.ltb_spec (length b + length (concat (encode_extension <$> e))) (length b)); [lia|].
  rewrite drop_app_length, take_app_length, IH by lia. done.
Qed.

Lemma parse_encode e : Forall ext_ok e → parse_extensions (encode_extensions e) = Some e.
Proof. intros H. by apply parse_encode_fuel. Qed.

(** Where the extensions start. *)
Definition exts_at (h : Hello) : nat := (4 + length (hello_front h) + 2)%nat.

Lemma encode_hello_split h :
  encode_hello h = ([h_type h] ++ to_be 3 (zlen (hello_rest h)) ++ hello_front h)
    ++ to_be 2 (zlen (encode_extensions (exts h))) ++ encode_extensions (exts h) ++ tail h.
Proof. unfold encode_hello, hello_rest. by rewrite <-!app_assoc. Qed.

Lemma exts_fit h : hello_ok h → 0 ≤ zlen (encode_extensions (exts h)) < 65536.
Proof.
  intros H. pose proof (ok_size h H) as Hs. pose proof (zlen_nonneg (encode_extensions (exts h))).
  rewrite encode_hello_split, !zlen_app in Hs. pose proof (zlen_nonneg (tail h)). pose proof (zlen_nonneg (hello_front h)).
  pose proof (zlen_nonneg (to_be 2 (zlen (encode_extensions (exts h))))).
  pose proof (zlen_nonneg (to_be 3 (zlen (hello_rest h)))). pose proof (zlen_nonneg [h_type h]). lia.
Qed.

Lemma span_encode h :
  hello_ok h →
  extensions_span (encode_hello h) = Some (exts_at h, (exts_at h + length (encode_extensions (exts h)))%nat).
Proof.
  intros H. pose proof (exts_fit h H) as He. destruct H as [Hf Hs Hu Hc _ _].
  pose proof (zlen_nonneg (session h)). pose proof (zlen_nonneg (suites h)). pose proof (zlen_nonneg (comps h)).
  set (E := encode_extensions (exts h)) in *.
  set (front := [h_type h] ++ to_be 3 (zlen (hello_rest h)) ++ fixed h).
  assert (length front = 38%nat) as Hfront by (unfold front; rewrite !length_app, length_to_be, Hf; done).
  assert (encode_hello h = front ++ zlen (session h) :: session h ++ to_be 2 (zlen (suites h)) ++ suites h
            ++ zlen (comps h) :: comps h ++ to_be 2 (zlen E) ++ E ++ tail h) as Eh.
  { rewrite encode_hello_split. unfold front, hello_front. fold E. by rewrite <-!app_assoc. }
  unfold extensions_span. rewrite Eh, lookup_at by done. cbn [mbind option_bind].
  replace (front ++ zlen (session h) :: session h ++ to_be 2 (zlen (suites h)) ++ suites h
            ++ zlen (comps h) :: comps h ++ to_be 2 (zlen E) ++ E ++ tail h)
    with ((front ++ [zlen (session h)] ++ session h) ++ to_be 2 (zlen (suites h)) ++ suites h
            ++ zlen (comps h) :: comps h ++ to_be 2 (zlen E) ++ E ++ tail h) by (by rewrite <-!app_assoc).
  rewrite be16_at by (lia || (rewrite !length_app, Hfront; unfold zlen; cbn [length]; lia)). cbn [mbind option_bind].
  set (a := front ++ [zlen (session h)] ++ session h).
  assert (length a = 4 + 2 + 32 + 1 + Z.to_nat (zlen (session h)))%nat as Ha
    by (unfold a; rewrite !length_app, Hfront; unfold zlen; cbn [length]; lia).
  rewrite <-Ha. replace (a ++ to_be 2 (zlen (suites h)) ++ suites h ++ zlen (comps h) :: comps h ++ to_be 2 (zlen E) ++ E ++ tail h)
    with ((a ++ to_be 2 (zlen (suites h)) ++ suites h) ++ zlen (comps h) :: comps h ++ to_be 2 (zlen E) ++ E ++ tail h)
    by (by rewrite <-!app_assoc).
  set (b := a ++ to_be 2 (zlen (suites h)) ++ suites h).
  assert (length b = length a + 2 + Z.to_nat (zlen (suites h)))%nat as Hb
    by (unfold b; rewrite !length_app, length_to_be; unfold zlen; lia).
  rewrite <-Hb, lookup_at by done. cbn [mbind option_bind].
  replace (b ++ zlen (comps h) :: comps h ++ to_be 2 (zlen E) ++ E ++ tail h)
    with ((b ++ [zlen (comps h)] ++ comps h) ++ to_be 2 (zlen E) ++ E ++ tail h) by (by rewrite <-!app_assoc).
  rewrite be16_at by (lia || (rewrite !length_app; unfold zlen; cbn [length]; lia)). cbn [mbind option_bind].
  assert (length (b ++ [zlen (comps h)] ++ comps h) = 4 + length (hello_front h))%nat as Hl.
  { unfold b, a, front, hello_front. rewrite !length_app, !length_to_be. cbn [length]. lia. }
  replace (length b + 1 + Z.to_nat (zlen (comps h)))%nat with (4 + length (hello_front h))%nat
    by (rewrite <-Hl, !length_app; unfold zlen; cbn [length]; lia).
  unfold exts_at. replace (Z.to_nat (zlen E)) with (length E) by (unfold zlen; lia).
  rewrite length_app, Hl, !length_app, length_to_be.
  destruct (Nat.ltb_spec (4 + length (hello_front h) + (2 + (length E + length (tail h))))
    (4 + length (hello_front h) + 2 + length E)); [lia|done].
Qed.

(** The parts of a record. *)
Lemma record_parts ver h :
  length ver = 2%nat → hello_ok h →
  (5 ≤ length (encode_record ver h))%nat ∧ length (encode_record ver h) = (5 + length (encode_hello h))%nat
  ∧ be16 (encode_record ver h) 3 = Some (zlen (encode_hello h)) ∧ drop 5 (encode_record ver h) = encode_hello h
  ∧ take 3 (encode_record ver h) = TLS_HANDSHAKE :: ver.
Proof.
  intros Hv H. pose proof (ok_size h H) as Hs. pose proof (zlen_nonneg (encode_hello h)).
  assert (encode_record ver h = (TLS_HANDSHAKE :: ver) ++ to_be 2 (zlen (encode_hello h)) ++ encode_hello h) as -> by done.
  rewrite !length_app, length_to_be. cbn [length]. rewrite Hv. split_and!; [lia..| | |].
  - rewrite <-(app_nil_r (encode_hello h)) at 2. apply be16_at; [cbn; by rewrite Hv|lia].
  - rewrite app_assoc. apply drop_app_exact. rewrite length_app, length_to_be. cbn. by rewrite Hv.
  - apply take_app_exact. cbn. by rewrite Hv.
Qed.

Section rewriting.
Context (b64_encode : bytes → bytes) (b64_decode : bytes → option bytes).

(** A record is taken apart, its extensions rewritten, and put together again. *)
Lemma rewrite_encode ver h host is_client :
  length ver = 2%nat → hello_ok h →
  rewrite_client_hello b64_encode b64_decode (encode_record ver h) host is_client =
    let '(e, host') := rewrite_extensions b64_encode b64_decode host is_client (exts h) in
    Some (encode_record ver (set_exts e h), host').
Proof.
  intros Hv H. unfold rewrite_client_hello. destruct (record_parts ver h Hv H) as (L5 & El & B & Ed & E3).
  destruct (Nat.ltb_spec (length (encode_record ver h)) 5); [lia|].
  change (nth 0 (encode_record ver h) 0) with TLS_HANDSHAKE. rewrite Z.eqb_refl, B. cbn [negb orb mbind option_bind].
  replace (Z.to_nat (zlen (encode_hello h))) with (length (encode_hello h)) by (unfold zlen; lia).
  rewrite El. destruct (Nat.ltb_spec (5 + length (encode_hello h)) (5 + length (encode_hello h))); [lia|].
  cbv zeta. rewrite Ed, (take_ge (encode_hello h)) by done. rewrite span_encode by done. cbn [mbind option_bind].
  set (front := [h_type h] ++ to_be 3 (zlen (hello_rest h)) ++ hello_front h).
  set (E := encode_extensions (exts h)).
  assert (encode_hello h = front ++ to_be 2 (zlen E) ++ E ++ tail h) as Eh by apply encode_hello_split.
  assert (length front = 4 + length (hello_front h))%nat as Hfr by (unfold front; rewrite !length_app, length_to_be; done).
  assert (drop (exts_at h) (encode_hello h) = E ++ tail h) as Edr.
  { rewrite Eh, app_assoc. apply drop_app_exact. rewrite length_app, length_to_be. unfold exts_at. lia. }
  rewrite Edr, take_app_exact by (rewrite Nat.add_comm, Nat.add_sub; done).
  pose proof (parse_encode _ (ok_exts h H)) as Hp. fold E in Hp. rewrite Hp. cbn [mbind option_bind].
  destruct (rewrite_extensions _ _ host is_client (exts h)) as [e host'].
  assert (drop (exts_at h + length E) (encode_hello h) = tail h) as Et.
  { rewrite <-drop_drop, Edr. apply drop_app_length. }
  assert (take (exts_at h - 2) (encode_hello h) = front) as Efr.
  { rewrite Eh. apply take_app_exact. unfold exts_at. lia. }
  rewrite Et, Efr. set (e' := encode_extensions e).
  set (nh := front ++ to_be 2 (zlen e') ++ e' ++ tail h).
  assert (nh = [h_type h] ++ to_be 3 (zlen (hello_rest h)) ++ hello_rest (set_exts e h)) as En.
  { unfold nh, front, hello_rest. cbn [exts set_exts]. fold e'. by rewrite <-!app_assoc. }
  assert (zlen nh - 4 = zlen (hello_rest (set_exts e h))) as ->.
  { rewrite En, !zlen_app. unfold zlen at 1 2. rewrite length_to_be. cbn [length]. lia. }
  assert (drop 4 nh = hello_rest (set_exts e h)) as ->.
  { rewrite En, app_assoc. apply drop_app_exact. by rewrite length_app, length_to_be. }
  assert (take 1 nh = [h_type h]) as -> by (by rewrite En).
  change ([h_type h] ++ _) with (encode_hello (set_exts e h)).
  by rewrite E3.
Qed.

Lemma take_private_other host e :
  Forall (λ x, x.1 ≠ EXT_GOST_HOST) e → take_private b64_decode host e = (e, host).
Proof.
  induction 1 as [|[t b] e Ht He IH]; [done|]. cbn [take_private fst] in *. rewrite IH.
  by destruct (Z.eqb_spec t EXT_GOST_HOST).
Qed.

Lemma take_private_app host e e' :
  Forall (λ x, x.1 ≠ EXT_GOST_HOST) e →
  take_private b64_decode host (e ++ e') = let '(kept, host') := take_private b64_decode host e' in (e ++ kept, host').
Proof.
  induction 1 as [|[t b] e Ht He IH]; cbn [app take_private fst] in *; [by destruct (take_private b64_decode host e')|].
  destruct (Z.eqb_spec t EXT_GOST_HOST); [done|]. rewrite IH. by destruct (take_private b64_decode host e').
Qed.

Lemma set_server_name_at host is_client pre body post :
  Forall (λ x, x.1 ≠ EXT_SERVER_NAME) pre →
  set_server_name b64_encode host is_client (pre ++ (EXT_SERVER_NAME, body) :: post) =
    let name := default [] (sni_name body) in
    let host := match host with [] => name | _ => host end in
    (pre ++ (EXT_SERVER_NAME, match host with [] => body | _ => sni_body host end) :: post, host,
     if is_client then Some (EXT_GOST_HOST, encode_server_name b64_encode name) else None).
Proof.
  induction 1 as [|[t b] e Ht He IH]; [done|]. cbn [app set_server_name fst] in *.
  destruct (Z.eqb_spec t EXT_SERVER_NAME); [done|]. cbn [negb]. by rewrite IH.
Qed.

End rewriting.

Lemma zlen_sni_body name : zlen (sni_body name) = zlen name + 5.
Proof. unfold sni_body. rewrite !zlen_app. unfold zlen. rewrite !length_to_be. cbn [length]. lia. Qed.

Lemma sni_name_body name : zlen name < 65536 → utf8_ok name = true → sni_name (sni_body name) = Some name.
Proof.
  intros Hl Hu. pose proof (zlen_nonneg name). unfold sni_name, sni_body.
  set (body := _ ++ _ ++ _). assert (length body = 5 + length name)%nat as El
    by (unfold body; rewrite !length_app, !length_to_be; done).
  destruct (Nat.ltb_spec (length body) 5); [lia|].
  assert (be16 body 3 = Some (zlen name)) as ->.
  { unfold body. rewrite (app_assoc (to_be 2 _) [0]). apply be16_at; [by rewrite length_app, length_to_be|lia]. }
  cbn [mbind option_bind]. replace (Z.to_nat (zlen name)) with (length name) by (unfold zlen; lia).
  destruct (Nat.ltb_spec (length body) (5 + length name)); [lia|].
  assert (drop 5 body = name) as ->.
  { unfold body. rewrite !app_assoc. apply drop_app_exact. by rewrite !length_app, !length_to_be. }
  rewrite take_ge by done. unfold from_utf8. by rewrite Hu.
Qed.

(** ** What an observer of the record sees *)

Lemma lookup_off {A} (u l : list A) k : (u ++ l) !! (length u + k)%nat = l !! k.
Proof. rewrite lookup_app_r by lia. f_equal. lia. Qed.

Lemma be16_off u l k : be16 (u ++ l) (length u + k) = be16 l k.
Proof. unfold be16. by rewrite lookup_off, <-Nat.add_succ_r, lookup_off. Qed.

(** The header of an extension in front of the cursor. *)
Lemma ext_head u t b v :
  ext_ok (t, b) →
  let p := u ++ encode_extension (t, b) ++ v in
  be16 p (length u) = Some t ∧ be16 p (length u + 2) = Some (zlen b)
  ∧ p = (u ++ to_be 2 t ++ to_be 2 (zlen b)) ++ b ++ v ∧ length (u ++ to_be 2 t ++ to_be 2 (zlen b)) = (length u + 4)%nat
  ∧ length p = (length u + 4 + length b + length v)%nat ∧ Z.to_nat (zlen b) = length b.
Proof.
  intros [Ht Hb] p. cbn [fst snd] in *. pose proof (zlen_nonneg b).
  assert (p = u ++ to_be 2 t ++ to_be 2 (zlen b) ++ b ++ v) as ->
    by (unfold p, encode_extension; cbn [fst snd]; by rewrite <-!app_assoc).
  split_and!.
  - by apply be16_at.
  - rewrite app_assoc. apply be16_at; [rewrite length_app, length_to_be|]; lia.
  - by rewrite <-!app_assoc.
  - rewrite !length_app, !length_to_be. lia.
  - rewrite !length_app, !length_to_be. lia.
  - unfold zlen. lia.
Qed.

Lemma sni_loop_skip fuel u t b v ext_end :
  ext_ok (t, b) → t ≠ EXT_SERVER_NAME → (length u + 4 + length b ≤ ext_end)%nat →
  sni_loop (S fuel) (u ++ encode_extension (t, b) ++ v) (length u) ext_end
  = sni_loop fuel ((u ++ encode_extension (t, b)) ++ v) (length (u ++ encode_extension (t, b))) ext_end.
Proof.
  intros Hok Ht He. destruct (ext_head u t b v Hok) as (E1 & E2 & E3 & E4 & E5 & E6). cbn [sni_loop].
  destruct (Nat.leb_spec (length u + 4) ext_end); [|lia].
  destruct (Nat.leb_spec (length u + 4) (length (u ++ encode_extension (t, b) ++ v))); [|lia]. cbn [andb].
  rewrite E1, E2. cbn [mbind option_bind]. destruct (Z.eqb_spec t 0); [done|].
  rewrite E6, <-app_assoc. f_equal. unfold encode_extension. cbn [fst snd]. rewrite !length_app, !length_to_be. lia.
Qed.

Lemma sni_loop_name fuel u name v ext_end :
  zlen name < 65531 → (length u + 9 + length name ≤ ext_end)%nat →
  sni_loop (S fuel) (u ++ encode_extension (EXT_SERVER_NAME, sni_body name) ++ v) (length u) ext_end = Some (from_utf8_lossy name).
Proof.
  intros Hn He. pose proof (zlen_nonneg name).
  pose proof (zlen_sni_body name) as Hz.
  destruct (ext_head u EXT_SERVER_NAME (sni_body name) v) as (E1 & E2 & E3 & E4 & E5 & _); [split; cbn [fst snd]; [done|lia]|].
  cbn [sni_loop]. destruct (Nat.leb_spec (length u + 4) ext_end); [|lia].
  destruct (Nat.leb_spec (length u + 4) (length (u ++ encode_extension (EXT_SERVER_NAME, sni_body name) ++ v))); [|lia]. cbn [andb].
  rewrite E1, E2. cbn [mbind option_bind Z.eqb EXT_SERVER_NAME]. rewrite <-E4, E3.
  set (w := u ++ _). destruct (from_be_pair (zlen name + 3) ltac:(lia)) as (a & b & Eab & Fab).
  destruct (from_be_pair (zlen name) ltac:(lia)) as (c & d & Ecd & Fcd).
  assert (sni_body name ++ v = a :: b :: 0 :: c :: d :: name ++ v) as ->
    by (unfold sni_body; rewrite Eab, Ecd; by rewrite <-!app_assoc).
  rewrite <-(Nat.add_0_r (length w)), <-!Nat.add_assoc, !be16_off, lookup_off. cbn [Nat.add be16 lookup list_lookup mbind option_bind Z.eqb].
  rewrite Fcd. replace (Z.to_nat (zlen name)) with (length name) by (unfold zlen; lia).
  rewrite length_app. cbn [length]. rewrite length_app.
  match goal with |- context [(?x <? ?y)%nat] => destruct (Nat.ltb_spec x y); [lia|] end.
  rewrite <-drop_drop, drop_app_length. cbn [drop]. by rewrite drop_0, take_app_length.
Qed.

Lemma sni_loop_finds pre name post v : ∀ fuel u,
  Forall ext_ok pre → Forall (λ x, x.1 ≠ EXT_SERVER_NAME) pre → zlen name < 65531 → (length pre < fuel)%nat →
  let e := encode_extensions (pre ++ (EXT_SERVER_NAME, sni_body name) :: post) in
  sni_loop fuel (u ++ e ++ v) (length u) (length u + length e) = Some (from_utf8_lossy name).
Proof.
  intros fuel u Hok Hne Hn. revert fuel u. unfold encode_extensions.
  induction Hok as [|[t b] pre Hx Hok IH]; intros fuel u Hf; (destruct fuel as [|fuel]; [cbn in Hf; lia|]);
    cbn [app fmap list_fmap concat]; rewrite <-app_assoc.
  - apply sni_loop_name; [done|]. rewrite length_app. unfold encode_extension, sni_body. cbn [snd].
    rewrite !length_app, !length_to_be. cbn [length]. lia.
  - apply Forall_cons in Hne as [Ht Hne]. cbn [fst] in Ht. cbn [length] in Hf.
    set (r := concat _) in *. rewrite sni_loop_skip; [|done..|].
    + specialize (IH Hne fuel (u ++ encode_extension (t, b)) ltac:(lia)). cbv zeta in IH. fold r in IH. rewrite <-IH.
      f_equal. rewrite !length_app. lia.
    + unfold encode_extension. cbn [fst snd]. rewrite !length_app, !length_to_be. lia.
Qed.

(** The walk to the extensions is the one of [extensions_span]. *)
Lemma extract_sni_span data start stop :
  (5 ≤ length data)%nat → nth 0 data 0 = TLS_HANDSHAKE → be16 data 3 = Some (zlen (drop 5 data)) →
  nth 5 data 0 = 1 → extensions_span (drop 5 data) = Some (start, stop) →
  extract_sni data = sni_loop (S (length (drop 5 data))) (drop 5 data) start stop.
Proof.
  intros Hl H0 Hb H1 Hs. unfold extract_sni. destruct (Nat.ltb_spec (length data) 5); [lia|]. rewrite H0, Hb.
  cbn [negb Z.eqb TLS_HANDSHAKE orb Pos.eqb mbind option_bind].
  replace (Z.to_nat (zlen (drop 5 data))) with (length (drop 5 data)) by (unfold zlen; lia).
  destruct (Nat.ltb_spec (length data) (5 + length (drop 5 data))); [rewrite length_drop in *; lia|].
  assert (nth 0 (drop 5 data) 0 = 1) as H5.
  { rewrite <-H1. do 5 (destruct data as [|? data]; [cbn in Hl; lia|]). cbn [drop]. by rewrite drop_0. }
  set (payload := drop 5 data) in *. unfold extensions_span in Hs.
  destruct payload as [|x l] eqn:Ep; [done|]. cbn [nth] in H5. subst x. rewrite <-Ep in *. cbn [Z.eqb Pos.eqb negb].
  destruct (payload !! (4 + 2 + 32)%nat) as [n|] eqn:E1; [|done].
  apply lookup_lt_Some in E1 as Hlt. destruct (Nat.ltb_spec (length payload) 38); [lia|]. cbn [mbind option_bind] in *.
  destruct (be16 payload _) as [n2|]; [|done]. cbn [mbind option_bind] in *.
  destruct (payload !! (_ + Z.to_nat n2)%nat) as [n3|]; [|done]. cbn [mbind option_bind] in *.
  destruct (be16 payload (_ + Z.to_nat n3)) as [n4|]; [|done]. cbn [mbind option_bind] in *. by case_match; simplify_eq.
Qed.

Lemma encode_extensions_length e : (length e ≤ length (encode_extensions e))%nat.
Proof.
  induction e as [|[t b] e IH]; [done|]. unfold encode_extensions in *. cbn [fmap list_fmap concat length].
  rewrite length_app. unfold encode_extension at 1. rewrite !length_app, !length_to_be. lia.
Qed.

Section theorem.
Context (b64_encode : bytes → bytes) (b64_decode : bytes → option bytes) `{!Base64Ok b64_encode b64_decode}.

(** An observer of a well-formed ClientHello sees its first server name. *)
Lemma extract_encode ver h pre name post :
  length ver = 2%nat → hello_ok h → h_type h = 1 → exts h = pre ++ (EXT_SERVER_NAME, sni_body name) :: post →
  Forall (λ x, x.1 ≠ EXT_SERVER_NAME) pre → zlen name < 65531 →
  extract_sni (encode_record ver h) = Some (from_utf8_lossy name).
Proof.
  intros Hv Hok Ht He Hpre Hn. destruct (record_parts ver h Hv Hok) as (L5 & L & B & D & _).
  pose proof (λ i j, extract_sni_span (encode_record ver h) i j L5 eq_refl) as Hx. rewrite D in Hx.
  rewrite (Hx _ _ B) with (2 := span_encode h Hok); [clear Hx|].
  - assert (encode_hello h = ([h_type h] ++ to_be 3 (zlen (hello_rest h)) ++ hello_front h
      ++ to_be 2 (zlen (encode_extensions (exts h)))) ++ encode_extensions (exts h) ++ tail h) as Eh.
    { rewrite encode_hello_split. by rewrite <-!app_assoc. }
    rewrite Eh at 2. set (u := [h_type h] ++ _). assert (exts_at h = length u) as -> by
      (unfold u, exts_at; rewrite !length_app, !length_to_be; cbn [length]; lia).
    pose proof (ok_exts h Hok) as Hx. rewrite He in *. apply Forall_app in Hx as [Hx _].
    apply (sni_loop_finds pre name post (tail h)); [done..|].
    rewrite Eh, !length_app. unfold encode_extensions. rewrite fmap_app, concat_app, length_app.
    pose proof (encode_extensions_length pre). unfold encode_extensions in *. lia.
  - unfold encode_record. rewrite <-Ht. do 2 (destruct ver as [|? ver]; [done|]). destruct ver; [|done].
    cbn [app nth]. destruct (to_be 2 _) as [|? [|? [|]]] eqn:E;
      pose proof (length_to_be 2 (zlen (encode_hello h))) as E'; rewrite E in E'; try done.
Qed.

(** A ClientHello whose server name was hidden behind a decoy shows the decoy
    to whoever reads its server name on the way, and the receiving side
    recovers from it the true name and the client's record, byte for byte. *)
Theorem hello_roundtrip ver h pre name post decoy :
  length ver = 2%nat → hello_ok h → h_type h = 1 → exts h = pre ++ (EXT_SERVER_NAME, sni_body name) :: post →
  Forall (λ x, x.1 ≠ EXT_SERVER_NAME) pre → Forall (λ x, x.1 ≠ EXT_GOST_HOST) (exts h) →
  name ≠ [] → is_bytes name → utf8_ok name = true → decoy ≠ [] → utf8_ok decoy = true →
  let shown := pre ++ (EXT_SERVER_NAME, sni_body decoy) :: post ++ [(EXT_GOST_HOST, encode_server_name b64_encode name)] in
  hello_ok (set_exts shown h) →
  ∃ hidden, rewrite_client_hello b64_encode b64_decode (encode_record ver h) decoy true = Some (hidden, decoy)
    ∧ extract_sni hidden = Some decoy
    ∧ rewrite_client_hello b64_encode b64_decode hidden [] false = Some (encode_record ver h, name).
Proof using Type*.
  intros Hv Hok Ht He Hpre Hg Hne Hb Hu Hd Hud shown Hok'.
  assert (∀ n q, Forall ext_ok (pre ++ (EXT_SERVER_NAME, sni_body n) :: q) → zlen n < 65531) as Hlen.
  { intros n q [_ [[_ Hx] _]%Forall_cons]%Forall_app. cbn [snd] in Hx.
    rewrite zlen_sni_body in Hx. lia. }
  assert (zlen name < 65531) as Hln by (apply (Hlen name post); rewrite <-He; apply Hok).
  assert (zlen decoy < 65531) as Hld by (eapply Hlen, (ok_exts _ Hok')).
  exists (encode_record ver (set_exts shown h)). split_and!.
  - rewrite rewrite_encode by done. unfold rewrite_extensions. rewrite He, set_server_name_at by done.
    rewrite sni_name_body by (done || lia). cbn [default]. destruct decoy as [|x decoy]; [done|].
    rewrite <-app_assoc. cbn [app]. done.
  - rewrite <-(lossy_valid decoy) at 1 by done. by eapply extract_encode.
  - rewrite rewrite_encode by done. unfold rewrite_extensions. cbn [exts set_exts]. unfold shown.
    rewrite He in Hg. apply Forall_app in Hg as [Hg1 Hg2]. apply Forall_cons in Hg2 as [Hg2 Hg3].
    rewrite app_comm_cons, app_assoc, take_private_app.
    2: { apply Forall_app. split; [done|]. constructor; [done|done]. }
    cbn [take_private]. change (EXT_GOST_HOST =? EXT_GOST_HOST) with true. cbn match.
    rewrite (encoded_name_ascii b64_encode b64_decode), decode_encode_name by done. cbn [take_private]. rewrite app_nil_r.
    rewrite set_server_name_at by done. cbv zeta. destruct name as [|x name]; [done|]. rewrite app_nil_r, <-He.
    by destruct h.
Qed.

End theorem.

(** ** An engine that keeps the contract: two digits a byte *)

Definition hex_digit (n : Z) : Z := if n <? 10 then 48 + n else 87 + n.
Definition hex_encode (b : bytes) : bytes := concat ((λ x, [hex_digit (x / 16 mod 16); hex_digit (x mod 16)]) <$> b).
Definition hex_value (c : Z) : option Z :=
  if is_digit c then Some (c - 48) else if (97 <=? c) && (c <=? 102) then Some (c - 87) else None.
Fixpoint hex_decode (s : bytes) : option bytes :=
  match s with
  | [] => Some []
  | [_] => None
  | a :: b :: s => h ← hex_value a; l ← hex_value b; r ← hex_decode s; Some (16 * h + l :: r)
  end.

Lemma hex_value_digit n : 0 ≤ n < 16 → hex_value (hex_digit n) = Some n.
Proof. intros Hn. unfold hex_value, hex_digit, is_digit. repeat case_goal; zbool; try lia; f_equal; lia. Qed.

#[export] Instance hex_ok : Base64Ok hex_encode hex_decode.
Proof.
  split; [|intros b|done].
  - unfold hex_encode. induction 1 as [|x b Hx Hb IH]; [done|]. unfold is_byte in Hx. cbn [fmap list_fmap concat app hex_decode].
    pose proof (Z.mod_pos_bound (x / 16) 16). pose proof (Z.mod_pos_bound x 16).
    rewrite !hex_value_digit by lia. cbn [mbind option_bind]. change (list_fmap _ _ ?f b) with (f <$> b). rewrite IH.
    cbn [mbind option_bind]. do 2 f_equal. rewrite (Z.mod_small (x / 16)).
    + rewrite (Z.div_mod x 16) at 3 by lia. lia.
    + split; [apply Z.div_pos; lia|apply Z.div_lt_upper_bound; lia].
  - unfold hex_encode. induction b as [|x b IH]; [constructor|]. cbn [fmap list_fmap concat app].
    assert (∀ n, 33 ≤ hex_digit (n mod 16) ≤ 126) as Hd.
    { intros n. unfold hex_digit. pose proof (Z.mod_pos_bound n 16). case_goal; zbool; lia. }
    by constructor; [|constructor].
Qed.

Definition demo_hello : Hello :=
  mkHello 1 (replicate 34 7) [1; 2] [19; 1] [0] [(10, [0; 2]); (EXT_SERVER_NAME, sni_body (str "real.example")); (43, [2])] [].

(** A ClientHello for one host shown as one for another. *)
Lemma hello_roundtrip_witness :
  ∃ hidden, rewrite_client_hello hex_encode hex_decode (encode_record [3; 1] demo_hello) (str "decoy.org") true = Some (hidden, str "decoy.org")
    ∧ extract_sni hidden = Some (str "decoy.org")
    ∧ rewrite_client_hello hex_encode hex_decode hidden [] false = Some (encode_record [3; 1] demo_hello, str "real.example").
Proof.
  apply (hello_roundtrip hex_encode hex_decode [3; 1] demo_hello [(10, [0; 2])] (str "real.example") [(43, [2])] (str "decoy.org"));
    try (vm_compute; reflexivity); try (vm_compute; discriminate).
  - split; [reflexivity| | | | |]; try (vm_compute; reflexivity). apply (bool_decide_unpack _). vm_compute. exact I.
  - apply (bool_decide_unpack _). vm_compute. exact I.
  - apply (bool_decide_unpack _). vm_compute. exact I.
  - apply (bool_decide_unpack _). vm_compute. exact I.
  - split; [reflexivity| | | | |]; try (vm_compute; reflexivity). apply (bool_decide_unpack _). vm_compute. exact I.
Defined.

End Sni.
