(* ===== verification/SniProxy.v ===== *)
(** * The SNI proxy

    The handler and the client connection of src/sni.rs. The handler routes a
    TLS connection by the server name of its first record, which it looks at
    without consuming it; the client connection rewrites the first bytes written
    to it, a TLS record or an HTTP request, so that the destination travels
    hidden. Both ends run against each other. *)

From stdpp Require Import base list option numbers strings sets.
From Stdlib Require Import ZArith Lia.
From S2P Require Import Prelude Text Utf8 AsyncIo Permissions Conn Effects Socks5 HttpConnect Words SniHello Http.

Module SniProxy.
Import Sni.

Definition TLS_RECORD_HEADER_LEN : nat := 5.
Definition MAX_CLIENT_HELLO : nat := 4096.

Section client.
Context (b64_encode : bytes → bytes) (b64_decode : bytes → option bytes).

(** ** Hiding the destination of an HTTP request *)

Definition is_host_line (l : bytes) : bool :=
  match split_once ch_colon l with Some (name, _) => eq_ignore_ascii_case name (str "host") | None => false end.

(** The loop over the lines of the head: what becomes of them, and whether a
    [Host] header was found. *)
Fixpoint obfuscate_lines (decoy : bytes) (found : bool) (ls : list bytes) : bytes * bool :=
  match ls with
  | [] => ([], found)
  | l :: ls =>
      if is_host_line l && negb found then
        let real := match split_once ch_colon l with Some (_, v) => trim v | None => [] end in
        let '(rest, found) := obfuscate_lines decoy true ls in
        (str "Host: " ++ decoy ++ crlf ++ str "Gost-Target: " ++ encode_server_name b64_encode real ++ crlf ++ rest, found)
      else
        let '(rest, found) := obfuscate_lines decoy found ls in (l ++ crlf ++ rest, found)
  end.

Definition obfuscate_http (request decoy : bytes) : option bytes :=
  text ← from_utf8 request;
  '(head, rest) ← split_once_str head_end text;
  let '(out, found) := obfuscate_lines decoy false (split_str crlf head) in
  if found then Some (out ++ crlf ++ rest) else None.

(** ** The client's connection *)

(** [sent] of [c_out] is all the transport has taken. *)
Record SniClientConn : Set := mkClient { c_host : bytes; obfuscated : bool; c_out : OutBuf }.

Definition new_client (host : bytes) : SniClientConn := mkClient host false new_out.

Definition zero_write : io_error := IoError WriteZero "sni: write returned zero".

(** [poll_write] of the transport below. *)
Definition inner_write (buf : bytes) (answers : list Answer) (o : OutBuf) :
    poll (result io_error nat) * OutBuf * list Answer :=
  match answers with
  | [] => (Pending, o, [])
  | APending :: answers => (Pending, o, answers)
  | AErr e :: answers => (Ready (Err e), o, answers)
  | ATake n :: answers =>
      let n := Nat.min n (length buf) in (Ready (Ok n), mkOut (out o) (out_pos o) (sent o ++ take n buf), answers)
  end.

(** What becomes of the first bytes written. *)
Definition rewrite_first (host buf : bytes) : option bytes :=
  if nth 0 buf 0 =? TLS_HANDSHAKE then fst <$> rewrite_client_hello b64_encode b64_decode buf host true
  else obfuscate_http buf host.

(** [poll_write]. A failed flush does not stop it. *)
Definition sni_poll_write (buf : bytes) (answers : list Answer) (s : SniClientConn) :
    poll (result io_error nat) * SniClientConn * list Answer :=
  let '(p, o, answers) := flush_out zero_write answers (c_out s) in
  let direct obf :=
    let '(r, o, answers) := inner_write buf answers o in (r, mkClient (c_host s) obf o, answers) in
  match p with
  | Pending => (Pending, mkClient (c_host s) (obfuscated s) o, answers)
  | Ready _ =>
      if obfuscated s || (match c_host s, buf with [], _ | _, [] => true | _, _ => false end) then direct (obfuscated s)
      else
        match rewrite_first (c_host s) buf with
        | None => direct true
        | Some b =>
            let '(r, o, answers) := flush_out zero_write answers (mkOut b 0 (sent o)) in
            (match r with Ready (Err e) => Ready (Err e) | _ => Ready (Ok (length buf)) end, mkClient (c_host s) true o, answers)
        end
  end.

(** [poll_flush] and [poll_shutdown] up to the transport's own. *)
Definition sni_poll_flush (answers : list Answer) (s : SniClientConn) : poll (result io_error ()) * SniClientConn * list Answer :=
  let '(p, o, answers) := flush_out zero_write answers (c_out s) in (p, mkClient (c_host s) (obfuscated s) o, answers).

(** The buffers offered one after the other, and what was answered. *)
Fixpoint sni_writes (bufs : list bytes) (answers : list Answer) (s : SniClientConn) :
    list (poll (result io_error nat)) * SniClientConn * list Answer :=
  match bufs with
  | [] => ([], s, answers)
  | b :: bufs =>
      let '(p, s, answers) := sni_poll_write b answers s in
      let '(ps, s, answers) := sni_writes bufs answers s in (p :: ps, s, answers)
  end.

End client.

(** ** The server *)

Section server.
Context (b64_encode : bytes → bytes) (o : Http.Options) (opt_host : bytes) (env : Http.HttpEnv).

Definition proxy_err (msg : string) : HandlerError := Proxy (str msg).
Definition unexpected_eof (msg : string) : HandlerError := Io (IoError UnexpectedEof msg).

(** The port targets are reached on: that of the [host] option. *)
Definition server_port : bytes :=
  match rfind_char ch_colon opt_host with Some i => drop (S i) opt_host | None => str "443" end.

(** The record to forward, if it was rewritten, and the host it is for. *)
Definition destination (buf : bytes) : option bytes * bytes :=
  match rewrite_client_hello b64_encode (Http.b64url_decode env) buf [] false with
  | Some (record, host) => (Some record, host)
  | None => (None, default [] (extract_sni buf))
  end.

Definition sni_route (n : nat) (rewritten : option bytes) (target : bytes) : act () :=
  if negb (may "tcp" (Http.base o) target) then afail Forbidden else
  if bypassed (Http.base o) target then aret tt else
  emit (Dialled target) ;;;
  match Http.chain_dial env target 0 with
  | Ok cc =>
      initial <- say (h_read n) ;;
      match h_write (default initial rewritten) cc with
      | (Ok _, cc) => splice cc
      | (Err e, _) => afail e
      end
  | Err e => afail (ChainFailed e)
  end.

Definition sni_handle : act () :=
  peek_buf <- say (cmap_err Io (peek 1)) ;;
  match peek_buf with
  | [] => afail (unexpected_eof "empty connection")
  | b :: _ =>
      if b =? TLS_HANDSHAKE then
        record_head <- say (cmap_err Io (peek TLS_RECORD_HEADER_LEN)) ;;
        if (length record_head <? TLS_RECORD_HEADER_LEN)%nat then afail (unexpected_eof "truncated TLS record header") else
        let record_len := Z.to_nat (from_be [nth 3 record_head 0; nth 4 record_head 0]) in
        let want := (TLS_RECORD_HEADER_LEN + record_len)%nat in
        if (MAX_CLIENT_HELLO <? want)%nat then afail (proxy_err "SNI: ClientHello too large") else
        buf <- say (cmap_err Io (peek want)) ;;
        let '(rewritten, host) := destination buf in
        match host with
        | [] => afail (proxy_err "SNI: no server name found")
        | _ => sni_route (length buf) rewritten (host ++ str ":" ++ server_port)
        end
      else Http.handle o env
  end.

End server.

(** ** What the client puts on the wire *)

(** A transport that fails nothing and takes something of what it takes. *)
Definition healthy (a : Answer) : Prop := match a with AErr _ | ATake O => False | _ => True end.

Definition wire (s : SniClientConn) : bytes := sent (c_out s) ++ unsent (c_out s).
Definition accepted_of (buf : bytes) (p : poll (result io_error nat)) : bytes :=
  match p with Ready (Ok n) => take n buf | _ => [] end.

Lemma flush_healthy zero answers o p o' answers' :
  out_ok o → Forall healthy answers → flush_out zero answers o = (p, o', answers') →
  (p = Pending ∨ p = Ready (Ok tt)) ∧ Forall healthy answers'.
Proof.
  unfold out_ok. intros Ho Ha. revert o Ho. induction Ha as [|a answers Hx Ha IH]; intros o Ho H; cbn [flush_out] in H;
    destruct (Nat.ltb_spec (out_pos o) (length (out o))); try (simplify_eq; by auto).
  destruct a as [|e|[|n]]; try done; [simplify_eq; by auto|].
  set (m := Nat.min (S n) _) in H. assert (0 < m)%nat by (unfold m; lia). destruct (Nat.eqb_spec m 0); [lia|].
  apply IH in H; [done|cbn [out out_pos]; unfold m; lia].
Qed.

Section wire.
Context (b64_encode : bytes → bytes) (b64_decode : bytes → option bytes).

(** Without a rewrite: what is accepted follows what was. *)
Lemma write_direct buf answers s p s' answers' :
  out_ok (c_out s) → Forall healthy answers → obfuscated s = true →
  sni_poll_write b64_encode b64_decode buf answers s = (p, s', answers') →
  wire s' = wire s ++ accepted_of buf p ∧ out_ok (c_out s') ∧ obfuscated s' = true ∧ Forall healthy answers'.
Proof.
  intros Ho Ha Hob H. unfold sni_poll_write in H. destruct (flush_out zero_write answers (c_out s)) as [[q o1] a1] eqn:E.
  destruct (flush_healthy _ _ _ _ _ _ Ho Ha E) as [Hq Ha1]. apply flush_out_spec in E as (Ew & Ho1 & _ & Hd); [|done].
  unfold wire. rewrite Hob in H. destruct Hq as [-> | ->]; cbn [orb] in H.
  - simplify_eq. cbn [c_out accepted_of]. by rewrite app_nil_r.
  - destruct (Hd eq_refl) as [Eo Eu]. rewrite Eu, app_nil_r in Ew. rewrite <-Ew.
    assert (∀ x, unsent (mkOut (out o1) (out_pos o1) x) = []) as Hu by (intros x; exact Eu).
    destruct a1 as [|[|e|n] a1]; cbn [inner_write] in H; simplify_eq; cbn [c_out accepted_of sent].
    + by rewrite Eu, app_nil_r.
    + apply Forall_cons in Ha1 as [_ ?]. by rewrite Eu, app_nil_r.
    + by apply Forall_cons in Ha1 as [? _].
    + apply Forall_cons in Ha1 as [_ ?]. by rewrite Hu, !app_nil_r.
Qed.

(** The first write, which is rewritten if it can be. *)
Lemma write_first buf answers s n s' answers' :
  c_out s = new_out → obfuscated s = false → c_host s ≠ [] → buf ≠ [] → Forall healthy answers →
  sni_poll_write b64_encode b64_decode buf answers s = (Ready (Ok n), s', answers') →
  wire s' = default (take n buf) (rewrite_first b64_encode b64_decode (c_host s) buf)
  ∧ out_ok (c_out s') ∧ obfuscated s' = true ∧ Forall healthy answers'.
Proof.
  intros Eo Hob Hh Hb Ha H. unfold sni_poll_write in H. rewrite Eo, Hob in H.
  assert (flush_out zero_write answers new_out = (Ready (Ok tt), mkOut [] 0 [], answers)) as Ef by (by destruct answers).
  rewrite Ef in H. cbn [orb] in H. destruct (c_host s) as [|h hs] eqn:Eh; [done|]. destruct buf as [|x buf]; [done|].
  unfold wire. destruct (rewrite_first b64_encode b64_decode (h :: hs) (x :: buf)) as [b|]; cbn [default sent] in *.
  - destruct (flush_out zero_write answers (mkOut b 0 [])) as [[q o1] a1] eqn:E.
    assert (out_ok (mkOut b 0 [])) as Hok by (unfold out_ok; cbn; lia).
    destruct (flush_healthy _ _ _ _ _ _ Hok Ha E) as [_ Ha1]. apply flush_out_spec in E as (Ew & Ho1 & _ & _); [|done].
    cbn [sent app] in Ew. change (unsent (mkOut b 0 [])) with (drop 0 b) in Ew. rewrite drop_0 in Ew.
    destruct q as [|[]]; by simplify_eq.
  - destruct answers as [|[|e|k] answers]; cbn [inner_write out out_pos sent app] in H; simplify_eq.
    apply Forall_cons in Ha as [_ Ha]. cbn [c_out]. unfold unsent. cbn [out out_pos sent]. rewrite drop_0, app_nil_r.
    split_and!; [done|unfold out_ok; cbn; lia|done|done].
Qed.

(** Later writes pass through. *)
Lemma writes_direct bufs : ∀ answers s ps s' answers',
  out_ok (c_out s) → Forall healthy answers → obfuscated s = true →
  sni_writes b64_encode b64_decode bufs answers s = (ps, s', answers') →
  wire s' = wire s ++ concat (zip_with accepted_of bufs ps).
Proof.
  induction bufs as [|b bufs IH]; intros answers s ps s' answers' Ho Ha Hob H; cbn [sni_writes] in H.
  - simplify_eq. by rewrite app_nil_r.
  - destruct (sni_poll_write b64_encode b64_decode b answers s) as [[p s1] a1] eqn:E1.
    destruct (sni_writes b64_encode b64_decode bufs a1 s1) as [[ps' s2] a2] eqn:E2. simplify_eq.
    destruct (write_direct _ _ _ _ _ _ Ho Ha Hob E1) as (Ew & Ho1 & Hob1 & Ha1).
    rewrite (IH _ _ _ _ _ Ho1 Ha1 Hob1 E2), Ew. cbn [zip_with concat]. by rewrite app_assoc.
Qed.

Lemma writes_wire host buf bufs answers n ps s' answers' :
  host ≠ [] → buf ≠ [] → Forall healthy answers →
  sni_writes b64_encode b64_decode (buf :: bufs) answers (new_client host) = (Ready (Ok n) :: ps, s', answers') →
  wire s' = default (take n buf) (rewrite_first b64_encode b64_decode host buf) ++ concat (zip_with accepted_of bufs ps).
Proof.
  intros Hh Hb Ha H. cbn [sni_writes] in H.
  destruct (sni_poll_write b64_encode b64_decode buf answers (new_client host)) as [[p s1] a1] eqn:E1.
  destruct (sni_writes b64_encode b64_decode bufs a1 s1) as [[ps' s2] a2] eqn:E2. simplify_eq.
  destruct (write_first buf answers (new_client host) n s1 a1) as (Ew & Ho1 & Hob1 & Ha1); [done..|].
  rewrite (writes_direct _ _ _ _ _ _ Ho1 Ha1 Hob1 E2), Ew. done.
Qed.

End wire.

(** ** Peeking *)

Lemma peek_loop_ok fuel n c : rx_end c = None → ∃ c', peek_loop fuel n c = (Ok tt, c') ∧ rx_end c' = None.
Proof.
  revert c. induction fuel as [|fuel IH]; intros c He; [by exists c|]. cbn [peek_loop].
  destruct (n <=? length (prefix c))%nat; [by exists c|]. unfold read. cbn [prefix rx rx_end cuts]. rewrite He.
  destruct (rx c) as [|x l]; [by eexists|]. destruct (match cuts c with [] => _ | _ => _ end) as [k ks].
  destruct (take k (x :: l)); [by eexists|]. by apply IH.
Qed.

(** Peeking shows what there is to read and takes none of it. *)
Lemma peek_shows n c :
  rx_end c = None → ∃ c', peek n c = (Ok (take n (incoming c)), c') ∧ incoming c' = incoming c ∧ rx_end c' = None.
Proof.
  intros He. unfold peek. destruct (peek_loop_ok (S n) n c He) as (c' & Hr & He').
  destruct (peek_loop_spec n n c c') as (Hi & _ & _ & Hl); [lia|done|exact Hr|]. rewrite Hr. exists c'. split_and!; [|done|done].
  do 2 f_equal. rewrite <-Hi. unfold incoming. destruct (Nat.le_gt_cases n (length (prefix c'))) as [Hn|Hn].
  - by rewrite take_app_le.
  - by rewrite Hl, app_nil_r by done.
Qed.

Lemma peek_say n c : rx_end c = None →
  ∃ c', incoming c' = incoming c ∧ rx_end c' = None
    ∧ ∀ tr, say (cmap_err Io (peek n)) (mkWorld c tr) = (Ok (take n (incoming c)), mkWorld c' tr).
Proof.
  intros He. destruct (peek_shows n c He) as (c' & Hr & Hi & He'). exists c'. split_and!; [done..|]. intros tr.
  apply say_ok. unfold cmap_err. by rewrite Hr.
Qed.

Section exchange.
Context (b64_encode : bytes → bytes) (o : Http.Options) (opt_host : bytes) (env : Http.HttpEnv).
Context `{!Base64Ok b64_encode (Http.b64url_decode env)}.

(** A record is read as such, whatever follows it. *)
Lemma sni_handle_record ver h rest c :
  length ver = 2%nat → hello_ok h → (length (encode_record ver h) ≤ MAX_CLIENT_HELLO)%nat →
  incoming c = encode_record ver h ++ rest → rx_end c = None →
  ∃ c', incoming c' = encode_record ver h ++ rest ∧
    sni_handle b64_encode o opt_host env (mkWorld c [])
    = (let '(rewritten, host) := destination b64_encode env (encode_record ver h) in
       match host with
       | [] => afail (proxy_err "SNI: no server name found")
       | _ => sni_route o env (length (encode_record ver h)) rewritten (host ++ str ":" ++ server_port opt_host)
       end) (mkWorld c' []).
Proof.
  intros Hv Hok Hm Hi He. destruct (record_parts ver h Hv Hok) as (L5 & L & B & _ & _).
  destruct (peek_say 1 c He) as (c1 & Hi1 & He1 & H1). destruct (peek_say TLS_RECORD_HEADER_LEN c1 He1) as (c2 & Hi2 & He2 & H2).
  destruct (peek_say (length (encode_record ver h)) c2 He2) as (c3 & Hi3 & He3 & H3). exists c3.
  rewrite Hi1, Hi in *. rewrite Hi2 in *. split; [by rewrite Hi3|]. unfold sni_handle. rewrite (abind_ok _ _ _ _ _ (H1 [])).
  set (R := encode_record ver h) in *. assert (take 1 (R ++ rest) = [TLS_HANDSHAKE]) as -> by done.
  change (TLS_HANDSHAKE =? TLS_HANDSHAKE) with true. cbn match. rewrite (abind_ok _ _ _ _ _ (H2 [])).
  unfold TLS_RECORD_HEADER_LEN in *. rewrite take_app_le by lia.
  rewrite length_take, Nat.min_l by lia. change (5 <? 5)%nat with false. cbn match.
  assert (from_be [nth 3 (take 5 R) 0; nth 4 (take 5 R) 0] = zlen (encode_hello h)) as ->.
  { unfold be16 in B. do 5 (destruct R as [|? R]; [cbn in L5; lia|]). cbn [lookup list_lookup mbind option_bind] in B. by simplify_eq. }
  cbv zeta. replace (Z.to_nat (zlen (encode_hello h))) with (length (encode_hello h)) by (unfold zlen; lia). rewrite <-L.
  destruct (Nat.ltb_spec MAX_CLIENT_HELLO (length R)); [lia|]. rewrite (abind_ok _ _ _ _ _ (H3 [])), take_app_length. done.
Qed.


(** The SNI proxy dials only names of its first record, on its own port, that its
    rules permit and do not bypass; any other connection it leaves to the HTTP
    proxy, within [http_safe]'s terms. *)
Theorem sni_safe c r w :
  rx_end c = None → sni_handle b64_encode o opt_host env (mkWorld c []) = (r, w) →
  w_trace w = []
  ∨ (∃ n rewritten host, destination b64_encode env (take n (incoming c)) = (rewritten, host) ∧ host ≠ [] ∧ (n ≤ MAX_CLIENT_HELLO)%nat
     ∧ let target := host ++ str ":" ++ server_port opt_host in
       Forall (λ ev, match ev with
                     | Dialled t => t = target ∧ may "tcp" (Http.base o) t = true ∧ bypassed (Http.base o) t = false
                     | Spliced _ _ => True
                     | _ => False
                     end) (w_trace w))
  ∨ ∃ c1 rq c', incoming c1 = incoming c ∧ Http.read_head env c1 = (Ok (Some rq), c') ∧ Forall (Http.action_ok o env rq) (w_trace w).
Proof.
  intros He H. unfold sni_handle in H. destruct (peek_say 1 c He) as (c1 & Hi1 & He1 & H1). rewrite (abind_ok _ _ _ _ _ (H1 [])) in H.
  destruct (take 1 (incoming c)) as [|b l]; [left; unfold afail in H; by simplify_eq|].
  destruct (b =? TLS_HANDSHAKE).
  - destruct (peek_say TLS_RECORD_HEADER_LEN c1 He1) as (c2 & Hi2 & He2 & H2). rewrite (abind_ok _ _ _ _ _ (H2 [])) in H.
    destruct (_ <? _)%nat; [left; unfold afail in H; by simplify_eq|]. cbv zeta in H. set (want := (_ + _)%nat) in H.
    destruct (Nat.ltb_spec MAX_CLIENT_HELLO want) as [|Hw]; [left; unfold afail in H; by simplify_eq|].
    destruct (peek_say want c2 He2) as (c3 & Hi3 & He3 & H3). rewrite (abind_ok _ _ _ _ _ (H3 [])) in H.
    destruct (destination b64_encode env _) as [rewritten host] eqn:Ed. destruct host as [|x host]; [left; unfold afail in H; by simplify_eq|].
    right. left. exists want, rewritten, (x :: host). rewrite Hi2, Hi1 in Ed. split_and!; [done..|]. cbv zeta.
    set (target := (x :: host) ++ _) in *. set (P := λ ev, _). enough (Allows P (sni_route o env (length (take want (incoming c2))) rewritten target)) as Hal.
    { apply Hal in H as (evs & Ew & Hf). cbn [w_trace app] in Ew. by rewrite Ew. }
    unfold sni_route. destruct (may "tcp" (Http.base o) target) eqn:Em; [|apply _]. destruct (bypassed (Http.base o) target) eqn:Eb; [apply _|].
    apply allows_bind; [by apply allows_emit|]. intros _. destruct (Http.chain_dial env target 0) as [cc|]; [|apply _].
    apply allows_bind; [apply _|]. intros initial. destruct (h_write _ cc) as [[] cc']; [|apply _]. by apply allows_splice.
  - destruct (Http.http_run o env c1 r w H) as [Hz|(rq & c' & Hr & Hf)]; [by left|]. right. right. by exists c1, rq, c'.
Qed.

End exchange.

(** ** A hidden HTTP request *)

(** Headers that have nothing to do with the destination. *)
Definition other_line (l : bytes) : Prop :=
  Http.text_line l ∧ starts_with (str "host:") (to_lowercase l) = false ∧ starts_with (str "gost-target:") (to_lowercase l) = false.

Lemma text_ascii l : Http.text_line l → Forall (λ c, c < 128) l.
Proof. intros [H _]. eapply Forall_impl; [exact H|]. cbn. lia. Qed.

Lemma text_head_line l : Http.text_line l → head_line l.
Proof. intros H. split; [apply Http.no_cr, H|]. destruct H as (_ & (c & s' & -> & _) & _). done. Qed.

(** The client's test for a [Host] header is the server's. *)
Lemma is_host_line_other l : Forall (λ c, c < 128) l → starts_with (str "host:") (to_lowercase l) = false → is_host_line l = false.
Proof.
  intros Ha Hs. unfold is_host_line. destruct (split_once ch_colon l) as [[name v]|] eqn:E; [|done].
  apply split_once_Some in E as [_ ->]. unfold eq_ignore_ascii_case. case_bool_decide as Hn; [|done].
  apply Forall_app in Ha as [Ha Hv]. apply Forall_cons in Hv as [_ Hv].
  rewrite to_lowercase_app, Hn, to_lowercase_ascii in Hs by done. done.
Qed.

Lemma utf8_ascii_app u s : Forall (λ c, c < 128) u → utf8_ok (u ++ s) = utf8_ok s.
Proof.
  unfold utf8_ok. induction 1 as [|c u Hc Hu IH]; [done|]. cbn [app length utf8_ok_fuel].
  by destruct (Z.ltb_spec c 128); [|lia].
Qed.

Lemma request_join rl hs rest :
  Http.line rl ++ concat (Http.line <$> hs) ++ crlf ++ rest = join_crlf (rl :: hs) ++ head_end ++ rest.
Proof.
  revert rl. induction hs as [|h hs IH]; intros rl; cbn [fmap list_fmap concat].
  - unfold Http.line. by rewrite <-!app_assoc.
  - rewrite <-app_assoc, IH. change (join_crlf (rl :: h :: hs)) with (rl ++ crlf ++ join_crlf (h :: hs)).
    unfold Http.line. by rewrite <-!app_assoc.
Qed.

Lemma join_ascii rl hs :
  Forall (λ c, 32 ≤ c ≤ 126) rl → Forall Http.text_line hs → Forall (λ c, c < 128) (join_crlf (rl :: hs)).
Proof.
  assert (∀ l, Forall (λ c, 32 ≤ c ≤ 126) l → Forall (λ c, c < 128) l) as Hw.
  { intros l Hl. eapply Forall_impl; [exact Hl|]. cbn. lia. }
  intros Hr H. revert rl Hr. induction H as [|h hs [Hh _] H IH]; intros rl Hr; [by apply Hw|].
  change (join_crlf (rl :: h :: hs)) with (rl ++ crlf ++ join_crlf (h :: hs)). rewrite !Forall_app.
  split_and!; [by apply Hw|apply (bool_decide_unpack _); vm_compute; exact I|by apply IH].
Qed.

(** The fields but for the credentials are the lines. *)
Definition auth_after (hs : list bytes) (pa : bytes) : bytes :=
  foldl (λ pa h, if starts_with (str "proxy-authorization:") (to_lowercase h) then trim (drop 20 h) else pa) pa hs.

Lemma collect_others hs f :
  Forall other_line hs →
  foldl (λ f h, Http.add_field h f) f hs
  = Http.mkFields (Http.headers f ++ hs) (auth_after hs (Http.proxy_auth f)) (Http.host_header f) (Http.gost_target f).
Proof.
  intros H. revert f. induction H as [|h hs (_ & H1 & H2) H IH]; intros [a b c d]; cbn [foldl]; [by rewrite app_nil_r|].
  rewrite IH. unfold auth_after. cbn [foldl]. unfold Http.add_field. rewrite H1, H2.
  destruct (starts_with (str "proxy-authorization:") (to_lowercase h)); cbn [Http.headers Http.proxy_auth Http.host_header Http.gost_target];
    by rewrite <-app_assoc.
Qed.

Lemma set_host_at real pre h post :
  Forall other_line pre → starts_with (str "host:") (to_lowercase h) = true →
  Http.set_host real (pre ++ h :: post) = pre ++ (str "Host: " ++ real) :: post.
Proof.
  intros H Hh. induction H as [|l pre (_ & Hl & _) H IH]; cbn [app Http.set_host]; [by rewrite Hh|]. by rewrite Hl, IH.
Qed.

Section http.
Context (b64_encode : bytes → bytes) (env : Http.HttpEnv) `{!Base64Ok b64_encode (Http.b64url_decode env)}.

Lemma obfuscate_others decoy found hs rest :
  Forall (λ l, is_host_line l = false) hs →
  obfuscate_lines b64_encode decoy found (hs ++ rest)
  = let '(out, f) := obfuscate_lines b64_encode decoy found rest in (concat (Http.line <$> hs) ++ out, f).
Proof.
  induction 1 as [|l hs Hl H IH]; cbn [app obfuscate_lines fmap list_fmap concat]; [by destruct (obfuscate_lines _ _ _ rest)|].
  rewrite Hl, IH. cbn [andb]. destruct (obfuscate_lines b64_encode decoy found rest). unfold Http.line at 2. by rewrite <-!app_assoc.
Qed.

Lemma add_target v f :
  Http.word_ok v → Http.add_field (str "Gost-Target:" ++ [32] ++ v) f
  = Http.mkFields (Http.headers f) (Http.proxy_auth f) (Http.host_header f) v.
Proof.
  intros [Hv Hne]. destruct f as [hs pa hh gt]. unfold Http.add_field.
  rewrite (to_lowercase_app (str "Gost-Target:")) by (apply (bool_decide_unpack _); vm_compute; exact I).
  change (starts_with (str "proxy-authorization:") _) with false. change (starts_with (str "host:") _) with false.
  change (starts_with (str "gost-target:") _) with true. cbn match.
  change (drop 12 _) with (drop 0 (32 :: v)). by rewrite drop_0, trim_value.
Qed.

Definition hidden_fields (decoy : bytes) (pre : list bytes) (real : bytes) (post : list bytes) : list bytes :=
  pre ++ [str "Host: " ++ decoy; str "Gost-Target: " ++ encode_server_name b64_encode real] ++ post.

Lemma word_bytes w : Http.word_ok w → is_bytes w ∧ Forall (λ c, c < 128) w.
Proof. intros [H _]. split; (eapply Forall_impl; [exact H|]); unfold is_byte, graphic; cbn; lia. Qed.

Lemma name_word real : Http.word_ok (encode_server_name b64_encode real).
Proof using Type*.
  unfold encode_server_name. split; [apply base64_graphic|]. apply base64_nonempty.
  - apply Forall_app. split; [apply is_bytes_to_be|]. apply graphic_bytes, base64_graphic.
  - intros E. apply (f_equal length) in E. rewrite length_app, length_to_be in E. done.
Qed.

Lemma other_text hs : Forall other_line hs → Forall Http.text_line hs.
Proof. intros H. eapply Forall_impl; [exact H|]. by intros l []. Qed.

Lemma host_text real : Http.word_ok real → Http.text_line (str "Host: " ++ real).
Proof. intros []. change (str "Host: " ++ real) with (str "Host:" ++ [32] ++ real). apply Http.header_text; [Http.text_literal|done|done]. Qed.

Lemma hidden_text decoy pre real post :
  Http.word_ok decoy → Forall other_line pre → Forall other_line post → Forall Http.text_line (hidden_fields decoy pre real post).
Proof using Type*.
  intros Hd Hpre Hpost. unfold hidden_fields. rewrite !Forall_app. split_and!; [by apply other_text| |by apply other_text].
  apply Forall_cons. split; [by apply host_text|]. apply Forall_cons. split; [|constructor].
  change (str "Gost-Target: " ++ ?x) with (str "Gost-Target:" ++ [32] ++ x). destruct (name_word real).
  apply Http.header_text; [Http.text_literal|done|done].
Qed.

(** The rewritten request, line by line. *)
Lemma obfuscate_request m t v pre real post rest decoy :
  Http.word_ok m → Http.word_ok t → Http.word_ok v → Http.word_ok real →
  Forall other_line pre → Forall other_line post → utf8_ok rest = true → is_host_line (Http.request_line m t v) = false →
  obfuscate_http b64_encode
    (Http.line (Http.request_line m t v) ++ concat (Http.line <$> pre ++ (str "Host: " ++ real) :: post) ++ crlf ++ rest) decoy
  = Some (Http.line (Http.request_line m t v) ++ concat (Http.line <$> hidden_fields decoy pre real post) ++ crlf ++ rest).
Proof.
  intros Hm Ht Hv Hreal Hpre Hpost Hu Hrl. set (rl := Http.request_line m t v) in *. set (hs := pre ++ _ :: post).
  assert (Forall Http.text_line hs) as Htl.
  { unfold hs. apply Forall_app. split; [by apply other_text|]. apply Forall_cons. split; [by apply host_text|by apply other_text]. }
  assert (Forall (λ c, 32 ≤ c ≤ 126) rl) as Hrt by (by apply Http.request_line_text).
  assert (head_line rl) as Hrh.
  { split; [by apply Http.no_cr|]. unfold rl, Http.request_line. destruct Hm as [_ ?]. by destruct m. }
  assert (Forall head_line (rl :: hs)) as Hhl.
  { constructor; [done|]. eapply Forall_impl; [exact Htl|]. intros l. apply text_head_line. }
  rewrite request_join. unfold obfuscate_http, from_utf8. rewrite utf8_ascii_app; [|by apply join_ascii].
  rewrite utf8_ascii_app, Hu by (apply (bool_decide_unpack _); vm_compute; exact I). cbn [mbind option_bind].
  unfold split_once_str. rewrite find_head by done. cbn [mbind option_bind].
  rewrite take_app_length, split_join_crlf by done. rewrite <-drop_drop, drop_app_length, drop_app_length.
  assert (∀ l, Forall other_line l → Forall (λ l, is_host_line l = false) l) as Hno.
  { intros l Hl. eapply Forall_impl; [exact Hl|]. intros x (Hx & H1 & _). apply is_host_line_other; [by apply text_ascii|done]. }
  unfold hs. rewrite app_comm_cons, obfuscate_others by (constructor; [done|by apply Hno]). cbn [obfuscate_lines].
  assert (split_once ch_colon (str "Host: " ++ real) = Some (str "Host", 32 :: real)) as Es.
  { apply split_once_Some. split; [by apply contains_char_false|done]. }
  unfold is_host_line at 1. rewrite Es. change (eq_ignore_ascii_case (str "Host") (str "host")) with true. cbn [andb negb].
  rewrite trim_value by apply Hreal. rewrite <-(app_nil_r post), obfuscate_others by (by apply Hno). cbn [obfuscate_lines].
  rewrite !app_nil_r. f_equal. unfold hidden_fields. rewrite !fmap_app, !concat_app. cbn [fmap list_fmap concat]. unfold Http.line.
  by rewrite <-!app_assoc.
Qed.

(** What the server makes of it, and of the request as it was. *)
Lemma collect_hidden decoy pre real post :
  Http.word_ok decoy → Http.word_ok real → Forall other_line pre → Forall other_line post →
  Http.apply_gost_target env (Http.collect (hidden_fields decoy pre real post))
  = Http.mkFields (pre ++ (str "Host: " ++ real) :: post) (auth_after post (auth_after pre [])) real (encode_server_name b64_encode real).
Proof using Type*.
  intros Hd Hr Hpre Hpost. unfold Http.collect, hidden_fields. rewrite !foldl_app, (collect_others pre) by done. cbn [foldl].
  change (str "Host: " ++ decoy) with (str "Host:" ++ [32] ++ decoy).
  change (str "Gost-Target: " ++ ?x) with (str "Gost-Target:" ++ [32] ++ x).
  rewrite Http.add_host, add_target, collect_others by (done || apply name_word).
  cbn [Http.headers Http.proxy_auth Http.host_header Http.gost_target app]. unfold Http.apply_gost_target. cbn [Http.gost_target].
  destruct (encode_server_name b64_encode real) as [|x e] eqn:E; [by destruct (name_word real) as [_ []]|]. rewrite <-E.
  destruct (word_bytes real Hr) as [Hb Ha]. rewrite decode_encode_name by (done || by apply Http.ascii_utf8).
  cbn [Http.headers Http.proxy_auth]. f_equal. rewrite <-app_assoc. apply set_host_at; [done|].
  rewrite (to_lowercase_app (str "Host:")) by (apply (bool_decide_unpack _); vm_compute; exact I). done.
Qed.

Lemma collect_plain pre real post :
  Http.word_ok real → Forall other_line pre → Forall other_line post →
  Http.collect (pre ++ (str "Host: " ++ real) :: post)
  = Http.mkFields (pre ++ (str "Host: " ++ real) :: post) (auth_after post (auth_after pre [])) real [].
Proof.
  intros Hr Hpre Hpost. unfold Http.collect. rewrite foldl_app, (collect_others pre) by done. cbn [foldl].
  change (str "Host: " ++ real) with (str "Host:" ++ [32] ++ real). rewrite Http.add_host, collect_others by done.
  cbn [Http.headers Http.proxy_auth Http.host_header Http.gost_target app]. by rewrite <-app_assoc.
Qed.

(** An HTTP request whose [Host] was hidden behind a decoy is read by the HTTP
    proxy as the request it was: the same method and target, the same headers
    in the same order, the same host to dial, and the same bytes after the head. *)
Theorem http_hidden m t v pre real post rest decoy :
  Http.word_ok m → Http.word_ok t → Http.word_ok v → Http.word_ok real → Http.word_ok decoy →
  Forall other_line pre → Forall other_line post → utf8_ok rest = true →
  is_host_line (Http.request_line m t v) = false →
  let hs := pre ++ (str "Host: " ++ real) :: post in
  ∃ hidden, obfuscate_http b64_encode (Http.line (Http.request_line m t v) ++ concat (Http.line <$> hs) ++ crlf ++ rest) decoy = Some hidden
    ∧ ∀ c, incoming c = hidden → ∃ rq c', Http.read_head env c = (Ok (Some rq), c')
      ∧ Http.method rq = m ∧ Http.target rq = t ∧ Http.headers (Http.fields rq) = hs
      ∧ Http.host_header (Http.fields rq) = real ∧ Http.proxy_auth (Http.fields rq) = Http.proxy_auth (Http.collect hs)
      ∧ Http.target_host env rq = Http.target_host env (Http.bare m t (Http.collect hs))
      ∧ Http.pipelined rq ++ incoming c' = rest.
Proof using Type*.
  intros Hm Ht Hv Hreal Hdecoy Hpre Hpost Hu Hrl hs.
  exists (Http.line (Http.request_line m t v) ++ concat (Http.line <$> hidden_fields decoy pre real post) ++ crlf ++ rest).
  split; [by apply obfuscate_request|]. intros c Hi.
  destruct (Http.read_head_reads env m t v (hidden_fields decoy pre real post) rest c) as (p & c' & Hr & Hp & _); [done..| |done|].
  { by apply hidden_text. }
  rewrite collect_hidden in Hr by done. eexists _, c'. split; [exact Hr|]. cbn [Http.method Http.target Http.fields Http.headers Http.host_header Http.proxy_auth Http.pipelined].
  unfold hs. rewrite collect_plain by done. split_and!; [done..|by destruct Hreal|done].
Qed.

End http.

(** ** Runs *)

Definition demo_cc : Conn := talk [] [].

Definition demo_senv : Http.HttpEnv :=
  Http.mkHttpEnv (λ _ _, Ok demo_cc) (λ _, None) hex_decode hex_decode (λ _, Err early_eof) 0 (λ _, Err early_eof)
    (λ _ _, Err early_eof) (λ _, []).
Definition demo_sopts : Http.Options := Http.mkHttpOptions (mkOptions [] None None None None 1 0) [] [] [].

Definition demo_record : bytes := encode_record [3; 1] demo_hello.
Definition demo_answers : list Answer := [ATake 7; APending; ATake 500; ATake 500; ATake 2; ATake 9].
Definition demo_written : bytes :=
  sent (c_out (sni_writes hex_encode hex_decode [demo_record; [1; 2; 3]; [1; 2; 3]] demo_answers (new_client (str "decoy.org"))).1.2).
Definition demo_peer : Conn := mkConn [] demo_written [0; 3; 1]%nat None [] None.


Lemma sni_safe_witness :
  let '(r, w) := sni_handle hex_encode demo_sopts (str ":8443") demo_senv (mkWorld demo_peer []) in
  w_trace w ≠ [] ∧
  ((∃ n rewritten host, destination hex_encode demo_senv (take n (incoming demo_peer)) = (rewritten, host) ∧ host ≠ [] ∧ (n ≤ MAX_CLIENT_HELLO)%nat
     ∧ let target := host ++ str ":" ++ server_port (str ":8443") in
       Forall (λ ev, match ev with
                     | Dialled t => t = target ∧ may "tcp" (Http.base demo_sopts) t = true ∧ bypassed (Http.base demo_sopts) t = false
                     | Spliced _ _ => True
                     | _ => False
                     end) (w_trace w))
  ∨ ∃ c1 rq c', incoming c1 = incoming demo_peer ∧ Http.read_head demo_senv c1 = (Ok (Some rq), c') ∧ Forall (Http.action_ok demo_sopts demo_senv rq) (w_trace w)).
Proof.
  destruct (sni_handle hex_encode demo_sopts (str ":8443") demo_senv (mkWorld demo_peer [])) as [r w] eqn:E.
  assert (w_trace w ≠ []) as Hw.
  { apply (f_equal (λ x, length (w_trace x.2))) in E. vm_compute in E. destruct w as [c [|ev tr]]; [discriminate E|discriminate]. }
  split; [exact Hw|].
  destruct (sni_safe hex_encode demo_sopts (str ":8443") demo_senv demo_peer r w eq_refl E) as [Hz|Hs]; [contradiction|exact Hs].
Defined.

Lemma http_hidden_witness :
  let hs := [str "Accept: */*"] ++ (str "Host: " ++ str "real.example") :: [str "X: y"] in
  ∃ hidden, obfuscate_http hex_encode (Http.line (Http.request_line (str "GET") (str "/") (str "HTTP/1.1")) ++ concat (Http.line <$> hs) ++ crlf ++ str "body")
      (str "decoy.org") = Some hidden
    ∧ ∀ c, incoming c = hidden → ∃ rq c', Http.read_head demo_senv c = (Ok (Some rq), c')
      ∧ Http.headers (Http.fields rq) = hs ∧ Http.target_host demo_senv rq = str "real.example:80"
      ∧ Http.pipelined rq ++ incoming c' = str "body".
Proof.
  intros hs. destruct (http_hidden hex_encode demo_senv (Base64Ok0 := hex_ok) (str "GET") (str "/") (str "HTTP/1.1") [str "Accept: */*"] (str "real.example")
    [str "X: y"] (str "body") (str "decoy.org")) as (hidden & Ho & Hc).
  1-5: split; [apply (bool_decide_unpack _); vm_compute; exact I|discriminate].
  1-2: apply Forall_cons; split; [split; [Http.text_literal|split; reflexivity]|constructor].
  1-2: reflexivity.
  exists hidden. split; [exact Ho|]. intros c Hi. destruct (Hc c Hi) as (rq & c' & Hr & _ & _ & Hh & _ & _ & Ht & Hp).
  exists rq, c'. split; [exact Hr|]. split; [exact Hh|]. split; [rewrite Ht; vm_compute; reflexivity|exact Hp].
Defined.

(** The request goes out as it is, with its [Host] in view, if what follows the
    head in the first write is not UTF-8. *)
Example binary_body_shows_host :
  obfuscate_http hex_encode (Http.line (str "POST / HTTP/1.1") ++ Http.line (str "Host: real.example") ++ crlf ++ [255]) (str "decoy.org") = None.
Proof. vm_compute. reflexivity. Qed.

(** A failed write goes unreported and the next bytes overtake those that wait. *)
Example failed_flush_reorders :
  let e := IoError ConnectionReset "reset" in
  let '(ps, s, _) := sni_writes hex_encode hex_decode [demo_record; [9]] [ATake 3; APending; AErr e; ATake 9] (new_client (str "decoy.org")) in
  ps = [Ready (Ok (length demo_record)); Ready (Ok 1)]%nat ∧ sent (c_out s) = take 3 demo_record ++ [9] ∧ unsent (c_out s) ≠ [].
Proof. vm_compute. split; [reflexivity|]. split; [reflexivity|discriminate]. Qed.

End SniProxy.
