(* ===== verification/SocketText.v ===== *)
(** * Socket addresses as text

    [s.parse::<SocketAddr>()] and [SocketAddr::to_string] of the standard library,
    with the scope of an IPv6 address, and [rsplit_once]. *)

From stdpp Require Import base list option numbers strings sets.
From Stdlib Require Import ZArith Lia.
From S2P Require Import Prelude Text IpAddr Conn Socks5Addr.

(** [s.rsplit_once(c)] *)
Definition rsplit_once (c : Z) (s : bytes) : option (bytes * bytes) :=
  match rfind_char c s with Some i => Some (take i s, drop (S i) s) | None => None end.

(** A socket address and its scope, zero for none. *)
Definition Scoped : Set := SocketAddr * Z.

Definition show_scoped (a : Scoped) : bytes :=
  match sa_ip a.1 with
  | V6 gs =>
      if a.2 =? 0 then show_addr a.1
      else [ch_lbracket] ++ show_ipv6 gs ++ str "%" ++ show_int a.2 ++ [ch_rbracket; ch_colon] ++ show_int (sa_port a.1)
  | V4 _ => show_addr a.1
  end.

(** A number of any length, in [bound]. *)
Definition read_decimal (bound : Z) (s : bytes) : option (Z * bytes) := read_number 10 (length s) bound true s.

Definition read_port (s : bytes) : option (Z * bytes) :=
  s ← read_char ch_colon s; read_decimal u16_max s.

Definition ch_percent : Z := 37.

(** [read_scope_id], which consumes nothing when it fails. *)
Definition read_scope (s : bytes) : Z * bytes :=
  match (s ← read_char ch_percent s; read_decimal u32_max s) with Some r => r | None => (0, s) end.

Definition read_socket_v4 (s : bytes) : option (Scoped * bytes) :=
  '(os, s) ← read_ipv4_addr s;
  '(port, s) ← read_port s;
  Some ((mkAddr (V4 os) port, 0), s).

Definition read_socket_v6 (s : bytes) : option (Scoped * bytes) :=
  s ← read_char ch_lbracket s;
  '(gs, s) ← read_ipv6_addr s;
  let '(scope, s) := read_scope s in
  s ← read_char ch_rbracket s;
  '(port, s) ← read_port s;
  Some ((mkAddr (V6 gs) port, scope), s).

Definition parse_socket_addr (s : bytes) : option Scoped :=
  match (match read_socket_v4 s with Some r => Some r | None => read_socket_v6 s end) with
  | Some (a, []) => Some a
  | _ => None
  end.

Example parse_socket_addr_examples :
  parse_socket_addr (str "127.0.0.1:53") = Some (mkAddr (V4 [127; 0; 0; 1]) 53, 0)
  ∧ parse_socket_addr (str "[::1]:00053") = Some (mkAddr (V6 [0; 0; 0; 0; 0; 0; 0; 1]) 53, 0)
  ∧ parse_socket_addr (str "[::1%7]:53") = Some (mkAddr (V6 [0; 0; 0; 0; 0; 0; 0; 1]) 53, 7)
  ∧ parse_socket_addr (str "::1:53") = None ∧ parse_socket_addr (str "127.0.0.1:65536") = None
  ∧ parse_socket_addr (str "host:53") = None ∧ parse_socket_addr (str "[::1]") = None.
Proof. vm_compute. done. Qed.

(** ** Reading is local

    What follows an address does not change how it is read, if it begins with a
    character no address has there. *)

Definition more {A} (t : bytes) (r : option (A * bytes)) : option (A * bytes) :=
  match r with Some (v, rest) => Some (v, rest ++ t) | None => None end.

Lemma read_char_more c k s t : k ≠ c → read_char c (s ++ k :: t) = match read_char c s with Some r => Some (r ++ k :: t) | None => None end.
Proof. intros Hk. destruct s as [|b s]; cbn; [by destruct (Z.eqb_spec k c)|]. by destruct (b =? c). Qed.

Lemma read_digits_more radix bound room acc s k t :
  digit_of radix k = None → read_digits radix bound room acc (s ++ k :: t) = more (k :: t) (read_digits radix bound room acc s).
Proof.
  intros Hk. revert room acc. induction s as [|c s IH]; intros room acc.
  { destruct room; cbn [app read_digits]; by rewrite Hk. }
  destruct room as [|room]; cbn [app read_digits]; (destruct (digit_of radix c) as [d|]; [|done]); (destruct (bound <? _); [done|]); [done|].
  rewrite IH. by destruct (read_digits radix bound room _ s) as [[[v n] rest]|].
Qed.

Lemma read_number_more radix md bound z s k t :
  digit_of radix k = None → read_number radix md bound z (s ++ k :: t) = more (k :: t) (read_number radix md bound z s).
Proof.
  intros Hk. unfold read_number. rewrite read_digits_more by done. destruct s as [|c s].
  { by destruct md. }
  destruct (read_digits radix bound md 0 (c :: s)) as [[[v n] rest]|]; [|done]. cbn [more].
  destruct (n =? 0)%nat; [done|]. change (starts_with [ch_zero] ((c :: s) ++ k :: t)) with (starts_with [ch_zero] (c :: s)).
  by destruct (_ && _).
Qed.

Lemma read_separator_more {A} sep i (inner : bytes → option (A * bytes)) s k t :
  k ≠ sep → inner (s ++ k :: t) = more (k :: t) (inner s) →
  (∀ s', inner (s' ++ k :: t) = more (k :: t) (inner s')) →
  read_separator sep i inner (s ++ k :: t) = more (k :: t) (read_separator sep i inner s).
Proof.
  intros Hk Hs Hi. unfold read_separator. destruct (i =? 0)%nat; [done|]. rewrite read_char_more by done.
  by destruct (read_char sep s).
Qed.

Lemma read_octets_more n i s k t :
  digit_of 10 k = None → k ≠ ch_dot → read_octets n i (s ++ k :: t) = more (k :: t) (read_octets n i s).
Proof.
  intros Hd Hk. revert i s. induction n as [|n IH]; intros i s; cbn [read_octets]; [done|].
  rewrite read_separator_more by (intros; done || by apply read_number_more).
  destruct (read_separator ch_dot i read_octet s) as [[o s']|]; [|done]. cbn [more]. rewrite IH.
  by destruct (read_octets n (S i) s') as [[os s'']|].
Qed.

Lemma read_groups_more l i s k t :
  digit_of 16 k = None → k ≠ ch_dot → k ≠ ch_colon →
  read_groups l i (s ++ k :: t) = let '(gs, v4, rest) := read_groups l i s in (gs, v4, rest ++ k :: t).
Proof.
  intros Hd Hk Hc. assert (digit_of 10 k = None) as H10.
  { unfold digit_of in *. destruct (hex_digit k) as [d|]; [|done]. destruct (Z.ltb_spec d 16); [done|]. destruct (Z.ltb_spec d 10); [lia|done]. }
  revert i s. induction l as [|l IH]; intros i s; cbn [read_groups]; [done|].
  rewrite (read_separator_more ch_colon i read_ipv4_addr) by (intros; done || by apply read_octets_more).
  rewrite (read_separator_more ch_colon i (read_number 16 4 65535 true)) by (intros; done || by apply read_number_more).
  assert (∀ (r : option (Z * bytes)),
    (match more (k :: t) r with Some (g, s') => let '(gs, v4, s'') := read_groups l (S i) s' in (g :: gs, v4, s'') | None => ([], false, s ++ k :: t) end)
    = let '(gs, v4, rest) := match r with Some (g, s') => let '(gs, v4, s'') := read_groups l (S i) s' in (g :: gs, v4, s'') | None => ([], false, s) end
      in (gs, v4, rest ++ k :: t)) as Hr.
  { intros [[g s']|]; [|done]. cbn [more]. rewrite IH. by destruct (read_groups l (S i) s') as [[gs v4] rest]. }
  destruct (1 <=? l)%nat; [|apply Hr].
  destruct (read_separator ch_colon i read_ipv4_addr s) as [[[|a [|b [|c [|d [|e os]]]]] s']|]; cbn [more]; done || apply Hr.
Qed.

Lemma read_ipv6_more s k t :
  digit_of 16 k = None → k ≠ ch_dot → k ≠ ch_colon → read_ipv6_addr (s ++ k :: t) = more (k :: t) (read_ipv6_addr s).
Proof.
  intros Hd Hk Hc. unfold read_ipv6_addr. rewrite read_groups_more by done.
  destruct (read_groups 8 0 s) as [[head v4] s1]. destruct (length head =? 8)%nat; [done|]. destruct v4; [done|].
  rewrite read_char_more by done. destruct (read_char ch_colon s1) as [s2|]; [|done].
  rewrite read_char_more by done. destruct (read_char ch_colon s2) as [s3|]; [|done].
  rewrite read_groups_more by done. by destruct (read_groups _ 0 s3) as [[tail u] s4].
Qed.

(** ** Round trip *)

Lemma read_digits_value bound room acc s v :
  0 ≤ acc → digits_value acc s = Some v → v ≤ bound → (length s ≤ room)%nat →
  read_digits 10 bound room acc s = Some (v, length s, []).
Proof.
  revert room acc. induction s as [|b s IH]; intros room acc Ha.
  { cbn. intros [= ->]. by destruct room. }
  cbn [digits_value length].
  destruct (is_digit b) eqn:Eb; [|done]. intros Hv Hb Hr. destruct room as [|room]; [lia|]. cbn [read_digits]. unfold digit_of, hex_digit. rewrite Eb.
  assert (48 ≤ b ≤ 57) as Hbr by (unfold is_digit in Eb; zbool; lia).
  destruct (Z.ltb_spec (b - 48) 10); [|lia]. unfold ch_zero in Hv. replace (10 * acc + (b - 48)) with (acc * 10 + (b - 48)) in Hv by lia.
  pose proof (digits_value_bound _ _ _ (ltac:(lia) : 0 ≤ acc * 10 + (b - 48)) Hv).
  destruct (Z.ltb_spec bound (acc * 10 + (b - 48))); [lia|].
  by rewrite (IH room (acc * 10 + (b - 48))) by (done || lia).
Qed.

Lemma read_decimal_show bound n : 0 ≤ n ≤ bound → read_decimal bound (show_int n) = Some (n, []).
Proof.
  intros Hn. unfold read_decimal, read_number, show_int. destruct (Z.ltb_spec n 0); [lia|].
  destruct (show_unsigned_spec n) as (d & ds & -> & Hd & Hv); [lia|].
  rewrite (read_digits_value _ _ _ _ n); done || lia.
Qed.

Lemma read_port_show port : port_ok port → read_port (ch_colon :: show_int port) = Some (port, []).
Proof. intros Hp. unfold read_port. cbn [read_char]. rewrite Z.eqb_refl. cbn [mbind option_bind]. by apply read_decimal_show. Qed.

Lemma read_v4_bracket t : read_socket_v4 (ch_lbracket :: t) = None.
Proof. reflexivity. Qed.
Lemma read_scope_none t : read_scope (ch_rbracket :: t) = (0, ch_rbracket :: t).
Proof. reflexivity. Qed.

Lemma read_v4_of s os t port u :
  read_ipv4_addr s = Some (os, t) → read_port t = Some (port, u) → read_socket_v4 s = Some ((mkAddr (V4 os) port, 0), u).
Proof. intros H1 H2. unfold read_socket_v4. rewrite H1. cbn [mbind option_bind]. by rewrite H2. Qed.
Lemma read_v6_of s gs t port u :
  read_ipv6_addr s = Some (gs, ch_rbracket :: t) → read_port t = Some (port, u) →
  read_socket_v6 (ch_lbracket :: s) = Some ((mkAddr (V6 gs) port, 0), u).
Proof.
  intros H1 H2. unfold read_socket_v6. apply bind_Some. exists s. split; [done|]. apply bind_Some. exists (gs, ch_rbracket :: t).
  split; [done|]. rewrite read_scope_none. apply bind_Some. exists t. split; [done|]. apply bind_Some. by exists (port, u).
Qed.

Lemma parse_show_addr a : ip_ok (sa_ip a) → port_ok (sa_port a) → parse_socket_addr (show_addr a) = Some (a, 0).
Proof.
  intros Hi Hp. destruct a as [[os|gs] port]; unfold parse_socket_addr, show_addr; cbn [sa_ip sa_port] in *.
  - rewrite (read_v4_of _ os (ch_colon :: show_int port) port []); [done| |by apply read_port_show].
    unfold read_ipv4_addr. cbn [app]. rewrite read_octets_more by done. pose proof (read_ipv4_show os (proj1 Hi) (proj2 Hi)) as E.
    unfold read_ipv4_addr in E. by rewrite E.
  - cbn [app]. rewrite read_v4_bracket, (read_v6_of _ gs (ch_colon :: show_int port) port []); [done| |by apply read_port_show].
    rewrite read_ipv6_more by done. by rewrite read_show_ipv6 by apply Hi.
Qed.

(** What is parsed is an address in range. *)
Lemma read_port_range s port rest : read_port s = Some (port, rest) → port_ok port.
Proof.
  unfold read_port. intros (t & _ & H)%bind_Some. unfold read_decimal in H. apply read_number_range in H; [done|unfold u16_max; lia|lia].
Qed.

Lemma parse_socket_addr_ok s a scope : parse_socket_addr s = Some (a, scope) → ip_ok (sa_ip a) ∧ port_ok (sa_port a).
Proof.
  unfold parse_socket_addr. intros H. destruct (read_socket_v4 s) as [[r rest]|] eqn:E4.
  - destruct rest; simplify_eq. unfold read_socket_v4 in E4. apply bind_Some in E4 as ([os t] & Ho & E4).
    apply bind_Some in E4 as ([port u] & Hp & [= <- <- ->]). cbn. apply read_octets_range in Ho. by apply read_port_range in Hp.
  - destruct (read_socket_v6 s) as [[r rest]|] eqn:E6; [|done]. destruct rest; simplify_eq. unfold read_socket_v6 in E6.
    apply bind_Some in E6 as (s1 & _ & E6). apply bind_Some in E6 as ([gs s2] & Hg & E6).
    destruct (read_scope s2) as [sc s3]. apply bind_Some in E6 as (s4 & _ & E6).
    apply bind_Some in E6 as ([port u] & Hp & [= <- <- ->]). cbn. apply read_ipv6_range in Hg. by apply read_port_range in Hp.
Qed.
