(* ===== verification/ShadowStream.v ===== *)
(** * The encrypted streams of Shadowsocks

    [SsCipher], [evp_bytes_to_key], [Aead] and [SsStream] of src/ss.rs: a salt,
    then chunks of an encrypted length and an encrypted payload, under a counter
    as nonce. The AEAD ciphers, HKDF and MD5 are parameters, with the contract
    the stream relies on as the class [AeadOk]. The read side is a [Machine] of
    AsyncIo.v. *)

From stdpp Require Import base list option numbers strings sets pretty.
From Stdlib Require Import ZArith Lia.
From S2P Require Import Prelude Text Utf8 AsyncIo Words.

Module Ss.

Inductive SsCipher : Set := Aes128Gcm | Aes256Gcm | ChaCha20Poly1305 | Plain.

#[export] Instance SsCipher_eq_dec : EqDecision SsCipher.
Proof. solve_decision. Defined.

Definition from_name (name : bytes) : option SsCipher :=
  let n := to_lowercase name in
  let one_of l := existsb (λ s, bool_decide (n = str s)) l in
  if one_of ["aes-128-gcm"; "aead_aes_128_gcm"]%string then Some Aes128Gcm
  else if one_of ["aes-256-gcm"; "aead_aes_256_gcm"]%string then Some Aes256Gcm
  else if one_of ["chacha20-ietf-poly1305"; "aead_chacha20_poly1305"]%string then Some ChaCha20Poly1305
  else if one_of ["plain"; "none"; ""]%string then Some Plain
  else None.

Definition key_size (c : SsCipher) : nat :=
  match c with Aes128Gcm => 16 | Aes256Gcm => 32 | ChaCha20Poly1305 => 32 | Plain => 0 end.

(** ** The parameters *)

(** MD5; HKDF-SHA1 of a salt and a key, expanded to a length; and the ciphers
    by their subkey: sealing and opening a buffer under a nonce. *)
Record Crypto : Type := mkCrypto {
  md5 : bytes → bytes;
  hkdf : bytes → bytes → nat → option bytes;
  encrypt : SsCipher → bytes → bytes → bytes → option bytes;
  decrypt : SsCipher → bytes → bytes → bytes → option bytes;
}.

Definition TAG_LEN : nat := 16.
Definition MAX_PAYLOAD : nat := Z.to_nat 16383.
Definition LEN_BLOCK : nat := 2 + TAG_LEN.

(** What the stream relies on: digests have 16 bytes; subkeys of the sizes used
    can be derived; sealing adds a tag and is undone by opening. *)
Class AeadOk (x : Crypto) : Prop := {
  md5_length b : length (md5 x b) = 16%nat;
  hkdf_some salt key n : (n ≤ 32)%nat → is_Some (hkdf x salt key n);
  encrypt_some c k nonce b : zlen b ≤ 65536 → is_Some (encrypt x c k nonce b);
  encrypt_length c k nonce b s : encrypt x c k nonce b = Some s → length s = (length b + TAG_LEN)%nat;
  decrypt_encrypt c k nonce b s : encrypt x c k nonce b = Some s → decrypt x c k nonce s = Some b }.

Section stream.
Context (x : Crypto).

(** The digests of the digests; each adds 16 bytes. *)
Fixpoint evp_loop (fuel : nat) (password key prev_hash : bytes) (key_len : nat) : bytes :=
  match fuel with
  | O => key
  | S fuel =>
      if (length key <? key_len)%nat then
        let prev_hash := md5 x (prev_hash ++ password) in evp_loop fuel password (key ++ prev_hash) prev_hash key_len
      else key
  end.
Definition evp_bytes_to_key (password : bytes) (key_len : nat) : bytes :=
  take key_len (evp_loop key_len password [] [] key_len).

(** [Aead]: a cipher with its subkey. *)
Definition Aead : Set := SsCipher * bytes.

Definition other (msg : string) : io_error := IoError Other msg.

Definition from_salt (cipher : SsCipher) (key salt : bytes) : result io_error Aead :=
  match hkdf x salt key (key_size cipher) with
  | Some subkey => Ok (cipher, subkey)
  | None => Err (other "shadowsocks subkey derivation failed")
  end.

Definition seal (a : Aead) (nonce b : bytes) : result io_error bytes :=
  match encrypt x (a.1) (a.2) nonce b with Some s => Ok s | None => Err (other "shadowsocks encryption failed") end.
Definition open (a : Aead) (nonce b : bytes) : result io_error bytes :=
  match decrypt x (a.1) (a.2) nonce b with Some s => Ok s | None => Err (other "shadowsocks authentication tag mismatch") end.

Fixpoint bump_nonce (nonce : bytes) : bytes :=
  match nonce with
  | [] => []
  | b :: nonce => let b := u8 (b + 1) in if b =? 0 then b :: bump_nonce nonce else b :: nonce
  end.
Definition zero_nonce : bytes := replicate 12 0.

(** ** Reading *)

Inductive Phase : Set := Salt | Length | Payload (n : nat) | Eof.

Record Reading : Set := mkReading { phase : Phase; read_cipher : option Aead; read_nonce : bytes }.

Section reader.
Context (cipher : SsCipher) (key : bytes).

(** [read_need]. *)
Definition ss_need (s : Reading) : nat :=
  match phase s with
  | Salt => key_size cipher
  | Length => LEN_BLOCK
  | Payload n => n + TAG_LEN
  | Eof => 0
  end.

Definition missing : io_error := other "missing shadowsocks read cipher".
Definition bad_length (n : nat) : io_error := other ("invalid shadowsocks payload length: " +:+ pretty n).

Definition ss_advance (s : Reading) (b : bytes) : Advance Reading () :=
  match phase s, read_cipher s with
  | Salt, _ =>
      match from_salt cipher key b with
      | Ok a => AdvNext (mkReading Length (Some a) (read_nonce s)) [] None
      | Err e => AdvErr e s []
      end
  | Length, Some a =>
      match open a (read_nonce s) b with
      | Err e => AdvErr e s []
      | Ok block =>
          let nonce := bump_nonce (read_nonce s) in
          let len := Z.to_nat (from_be [nth 0 block 0; nth 1 block 0]) in
          if (len =? 0)%nat || (MAX_PAYLOAD <? len)%nat
          then AdvErr (bad_length len) (mkReading Length (Some a) nonce) []
          else AdvNext (mkReading (Payload len) (Some a) nonce) [] None
      end
  | Payload _, Some a =>
      match open a (read_nonce s) b with
      | Err e => AdvErr e s []
      | Ok block => AdvNext (mkReading Length (Some a) (bump_nonce (read_nonce s))) [] (Some (tt, block))
      end
  | Length, None | Payload _, None => AdvErr missing s []
  | Eof, _ => AdvNext s [] None
  end.

Definition ss_at_eof (s : Reading) (b : bytes) : result io_error Reading :=
  match b with
  | [] => Ok (mkReading Eof (read_cipher s) (read_nonce s))
  | _ => Err (IoError UnexpectedEof "unexpected end of file")
  end.

Definition is_plain : bool := match cipher with Plain => true | _ => false end.

Definition ss_machine : Machine Reading () :=
  mkMachine (λ s, if is_plain then 0%nat else ss_need s) (λ _, is_plain)
    (λ s, negb is_plain && match phase s with Eof => true | _ => false end) ss_advance ss_at_eof.

End reader.

(** ** The stream *)

Record SsStream : Type := mkSs {
  s_cipher : SsCipher; s_key : bytes; s_read : Framed Reading ();
  write_cipher : option Aead; write_nonce : bytes; s_out : OutBuf }.

Definition fresh_reading : Reading := mkReading Salt None zero_nonce.
Definition ss_new (cipher : SsCipher) (key : bytes) : SsStream :=
  mkSs cipher key (mkFramed fresh_reading [] [] 0 tt) None zero_nonce new_out.

Definition ss_poll_read (room : nat) (answers : list ReadAnswer) (c : SsStream) :
    poll (result io_error bytes) * SsStream * list ReadAnswer :=
  let '(p, r, answers) := framed_read (ss_machine (s_cipher c) (s_key c)) room answers (s_read c) in
  (p, mkSs (s_cipher c) (s_key c) r (write_cipher c) (write_nonce c) (s_out c), answers).

Definition set_out (o : OutBuf) (c : SsStream) : SsStream :=
  mkSs (s_cipher c) (s_key c) (s_read c) (write_cipher c) (write_nonce c) o.

(** A block sealed under the current nonce and queued. *)
Definition seal_block (a : Aead) (b : bytes) (c : SsStream) : result io_error () * SsStream :=
  match seal a (write_nonce c) b with
  | Err e => (Err e, c)
  | Ok s =>
      (Ok tt, mkSs (s_cipher c) (s_key c) (s_read c) (write_cipher c) (bump_nonce (write_nonce c)) (queue s (s_out c)))
  end.

(** The cipher of the writing side, made from [salt] when the first chunk is
    sealed. *)
Definition ensure_cipher (salt : bytes) (c : SsStream) : result io_error Aead * SsStream :=
  match write_cipher c with
  | Some a => (Ok a, c)
  | None =>
      match from_salt (s_cipher c) (s_key c) salt with
      | Err e => (Err e, c)
      | Ok a => (Ok a, mkSs (s_cipher c) (s_key c) (s_read c) (Some a) (write_nonce c) (queue salt (s_out c)))
      end
  end.

(** [seal_chunk]; [salt] is what the random generator gives. *)
Definition seal_chunk (salt data : bytes) (c : SsStream) : result io_error () * SsStream :=
  match ensure_cipher salt c with
  | (Err e, c) => (Err e, c)
  | (Ok a, c) =>
      match seal_block a (to_be 2 (u16 (zlen data))) c with
      | (Err e, c) => (Err e, c)
      | (Ok _, c) => seal_block a data c
      end
  end.

Definition ss_flush (answers : list Answer) (c : SsStream) : poll (result io_error ()) * SsStream * list Answer :=
  let '(p, o, answers) := flush_out write_zero answers (s_out c) in (p, set_out o c, answers).

(** The transport's own [poll_write]. *)
Definition pass_write (answers : list Answer) (buf : bytes) (c : SsStream) : poll (result io_error nat) * SsStream :=
  match answers with
  | [] | APending :: _ => (Pending, c)
  | AErr e :: _ => (Ready (Err e), c)
  | ATake n :: _ =>
      let n := Nat.min n (length buf) in
      (Ready (Ok n), set_out (mkOut (out (s_out c)) (out_pos (s_out c)) (sent (s_out c) ++ take n buf)) c)
  end.

(** [poll_write]: a failed flush does not stop it. *)
Definition ss_poll_write (answers : list Answer) (salt buf : bytes) (c : SsStream) : poll (result io_error nat) * SsStream :=
  if is_plain (s_cipher c) then pass_write answers buf c else
  match buf with
  | [] => (Ready (Ok 0%nat), c)
  | _ =>
      match ss_flush answers c with
      | (Pending, c, _) => (Pending, c)
      | (Ready _, c, answers) =>
          let n := Nat.min (length buf) MAX_PAYLOAD in
          match seal_chunk salt (take n buf) c with
          | (Err e, c) => (Ready (Err e), c)
          | (Ok _, c) => let '(_, c, _) := ss_flush answers c in (Ready (Ok n), c)
          end
      end
  end.

(** [poll_flush] and [poll_shutdown], with the transport's answer to the same call. *)
Definition ss_poll_flush (answers : list Answer) (inner : poll (result io_error ())) (c : SsStream) :
    poll (result io_error ()) * SsStream :=
  if is_plain (s_cipher c) then (inner, c) else
  match ss_flush answers c with
  | (Ready (Ok _), c, _) => (inner, c)
  | (p, c, _) => (p, c)
  end.
Definition ss_poll_shutdown (answers : list Answer) (inner : poll (result io_error ())) (c : SsStream) :
    poll (result io_error ()) * SsStream :=
  if is_plain (s_cipher c) then (inner, c) else
  match ss_flush answers c with
  | (Ready (Ok _), c, _) => (inner, c)
  | (p, c, _) => (p, c)
  end.

End stream.

(** ** Nonces *)

(** The nonce counts: one more each time, in twelve little-endian bytes. *)
Lemma bump_nonce_counts nonce :
  is_bytes nonce → is_bytes (bump_nonce nonce) ∧ length (bump_nonce nonce) = length nonce
  ∧ from_le (bump_nonce nonce) = (from_le nonce + 1) mod 2 ^ (8 * zlen nonce).
Proof.
  induction 1 as [|b nonce Hb Hn (I1 & I2 & I3)]; [split_and!; [constructor|done|reflexivity]|]. unfold is_byte in Hb. cbn [bump_nonce].
  pose proof (from_le_bound nonce Hn) as Hbd. pose proof (zlen_nonneg nonce). rewrite zlen_cons.
  replace (8 * (1 + zlen nonce)) with (8 + 8 * zlen nonce) by lia. rewrite Z.pow_add_r by lia. change (2 ^ 8) with 256.
  assert (0 < 2 ^ (8 * zlen nonce)) by (apply Z.pow_pos_nonneg; lia).
  unfold wrap. change (2 ^ 8) with 256. destruct (Z.eqb_spec ((b + 1) mod 256) 0) as [E|E].
  - assert (b = 255) as -> by (Z.div_mod_to_equations; lia). cbn [from_le length]. rewrite I3, I2. split_and!; [|done|].
    + constructor; [done|exact I1].
    + change ((255 + 1) mod 256) with 0. rewrite Z.add_0_l.
      replace (255 + 256 * from_le nonce + 1) with (256 * (from_le nonce + 1)) by lia. by rewrite Z.mul_mod_distr_l by lia.
  - assert (b < 255) as Hlt by (destruct (Z.eq_dec b 255) as [->|]; [done|lia]). rewrite Z.mod_small in E |- * by lia.
    cbn [from_le length]. split_and!; [|done|].
    + constructor; [unfold is_byte; lia|done].
    + rewrite Z.mod_small; nia.
Qed.

Definition nonce_after (n : nat) : bytes := Nat.iter n bump_nonce zero_nonce.

Lemma nonce_after_value n : is_bytes (nonce_after n) ∧ length (nonce_after n) = 12%nat ∧ from_le (nonce_after n) = Z.of_nat n mod 2 ^ 96.
Proof.
  induction n as [|n (I1 & I2 & I3)]; [split_and!; [|done|done]; repeat constructor; done|].
  unfold nonce_after. rewrite Nat.iter_succ. fold (nonce_after n). destruct (bump_nonce_counts _ I1) as (B1 & B2 & B3).
  split_and!; [done|by rewrite B2|]. rewrite B3, I3. unfold zlen. rewrite I2. change (8 * Z.of_nat 12) with 96.
  rewrite Z.add_mod_idemp_l by lia. f_equal. lia.
Qed.

(** No nonce comes twice in the first [2 ^ 96] blocks of a direction. *)
Lemma nonce_unique i j :
  Z.of_nat i < 2 ^ 96 → Z.of_nat j < 2 ^ 96 → nonce_after i = nonce_after j → i = j.
Proof.
  intros Hi Hj E. destruct (nonce_after_value i) as (_ & _ & Vi). destruct (nonce_after_value j) as (_ & _ & Vj).
  rewrite E, Vj, !Z.mod_small in Vi by lia. lia.
Qed.

Section transfer.
Context (x : Crypto) `{!AeadOk x}.

Lemma evp_length password key_len : length (evp_bytes_to_key x password key_len) = key_len.
Proof using Type*.
  unfold evp_bytes_to_key. rewrite length_take. apply Nat.min_l.
  assert (∀ fuel key prev, (key_len ≤ length key + fuel)%nat → (key_len ≤ length (evp_loop x fuel password key prev key_len))%nat) as H.
  { induction fuel as [|fuel IH]; intros key prev Hf; cbn [evp_loop]; [lia|].
    destruct (Nat.ltb_spec (length key) key_len); [|done]. apply IH. rewrite length_app, md5_length. lia. }
  apply H. cbn. lia.
Qed.

#[local] Instance ss_machine_ok cipher key : MachineOk (ss_machine x cipher key).
Proof.
  refine {| good := λ _, True; rank := λ _, 0%nat |}.
  - lia.
  - done.
  - intros s b s' kept o _ Hr He Hl H. cbn [ss_machine raw ended need advance] in *. rewrite Hr in *.
    assert (kept = []) as -> by (unfold ss_advance in H; repeat case_hyp H; by simplify_eq).
    enough (0 < ss_need cipher s)%nat by (cbn; lia).
    unfold ss_need. destruct (phase s) eqn:Ep; cbn in He; [destruct cipher; done || (cbn; lia)|unfold LEN_BLOCK; lia|unfold TAG_LEN; lia|done].
  - intros s b s' kept o _ H. cbn [ss_machine advance] in H. unfold ss_advance in H. repeat case_hyp H; simplify_eq; cbn; lia.
  - intros s H. cbn [ss_machine raw need] in *. by rewrite H.
  - intros s H. cbn [ss_machine raw ended] in *. by destruct (is_plain cipher).
Defined.

(** ** The wire *)

Definition enc (a : Aead) (nonce b : bytes) : bytes := default [] (encrypt x (a.1) (a.2) nonce b).

(** Chunks sealed one after the other from [nonce] on. *)
Fixpoint sealed (a : Aead) (nonce : bytes) (bs : list bytes) : bytes :=
  match bs with
  | [] => []
  | b :: bs => enc a nonce (to_be 2 (zlen b)) ++ enc a (bump_nonce nonce) b ++ sealed a (bump_nonce (bump_nonce nonce)) bs
  end.

Definition chunk_ok (b : bytes) : Prop := b ≠ [] ∧ (length b ≤ MAX_PAYLOAD)%nat.

Lemma sealed_app a nonce bs bs' :
  sealed a nonce (bs ++ bs') = sealed a nonce bs ++ sealed a (Nat.iter (2 * length bs) bump_nonce nonce) bs'.
Proof.
  revert nonce. induction bs as [|b bs IH]; intros nonce; [done|]. cbn [app sealed length]. rewrite IH, <-!app_assoc.
  do 3 f_equal. replace (2 * S (length bs))%nat with (S (S (2 * length bs))) by lia. rewrite !Nat.iter_succ, <-!Nat.iter_succ_r. done.
Qed.

Lemma enc_spec a nonce b :
  (length b ≤ MAX_PAYLOAD)%nat →
  seal x a nonce b = Ok (enc a nonce b) ∧ length (enc a nonce b) = (length b + TAG_LEN)%nat ∧ open x a nonce (enc a nonce b) = Ok b.
Proof using Type*.
  intros Hl. unfold seal, open, enc. destruct (encrypt_some (a.1) (a.2) nonce b) as [s E]; [unfold MAX_PAYLOAD, zlen in *; lia|].
  rewrite E. cbn [from_option id]. unfold id. split_and!; [done|by eapply encrypt_length|]. apply decrypt_encrypt in E. by rewrite E.
Qed.

Lemma max_payload_z (b : bytes) : (length b ≤ MAX_PAYLOAD)%nat → zlen b < 65536.
Proof. unfold MAX_PAYLOAD, zlen. lia. Qed.

(** A chunk is read as it was written. *)
Lemma ss_parse_chunk cipher key a nonce b rest :
  is_plain cipher = false → chunk_ok b →
  let m := ss_machine x cipher key in
  let at_length n := mkReading Length (Some a) n in
  parse m (at_length nonce) (enc a nonce (to_be 2 (zlen b)) ++ enc a (bump_nonce nonce) b ++ rest)
  = add_frame (Some (tt, b)) (parse m (at_length (bump_nonce (bump_nonce nonce))) rest).
Proof using Type*.
  intros Hp [Hne Hl] m at_length. pose proof (max_payload_z b Hl) as Hz. pose proof (zlen_nonneg b).
  destruct (enc_spec a nonce (to_be 2 (zlen b))) as (_ & L1 & O1); [rewrite length_to_be; unfold MAX_PAYLOAD; lia|].
  destruct (enc_spec a (bump_nonce nonce) b Hl) as (_ & L2 & O2). rewrite length_to_be in L1.
  assert (0 < length b)%nat as Hpos by (destruct b; [done|cbn; lia]).
  erewrite (parse_step m (at_length nonce) _ (mkReading (Payload (length b)) (Some a) (bump_nonce nonce)) [] None); [|done|..].
  2,3: by cbn; rewrite Hp.
  2: { cbn [m need ss_machine]. rewrite Hp, length_app, L1. cbn [ss_need at_length phase]. unfold LEN_BLOCK. lia. }
  2: { cbn [m need advance ss_machine]. rewrite Hp. cbn [ss_need at_length phase]. rewrite take_app_exact by (by rewrite L1).
       unfold ss_advance. cbn [at_length phase read_cipher read_nonce]. rewrite O1.
       destruct (to_be 2 (zlen b)) as [|r0 [|r1 [|]]] eqn:Er; try (by apply (f_equal length) in Er; rewrite length_to_be in Er).
       cbn [nth]. assert (from_be [r0; r1] = zlen b) as -> by (rewrite <-Er; by apply from_to_be).
       replace (Z.to_nat (zlen b)) with (length b) by (unfold zlen; lia).
       destruct (Nat.eqb_spec (length b) 0); [lia|]. by destruct (Nat.ltb_spec MAX_PAYLOAD (length b)); [lia|]. }
  cbn [m need ss_machine]. rewrite Hp. cbn [ss_need at_length phase app]. rewrite drop_app_exact by (by rewrite L1).
  erewrite (parse_step m (mkReading (Payload (length b)) (Some a) (bump_nonce nonce)) _ (at_length (bump_nonce (bump_nonce nonce))) [] (Some (tt, b))); [|done|..].
  2,3: by cbn; rewrite Hp.
  2: { cbn [m need ss_machine]. rewrite Hp, length_app, L2. cbn [ss_need phase]. lia. }
  2: { cbn [m need advance ss_machine]. rewrite Hp. cbn [ss_need phase]. rewrite take_app_exact by (by rewrite L2).
       unfold ss_advance. cbn [phase read_cipher read_nonce]. by rewrite O2. }
  cbn [m need ss_machine]. rewrite Hp. cbn [ss_need phase app]. rewrite drop_app_exact by (by rewrite L2).
  unfold add_frame at 1. cbn [frame_list app]. fold m. by destruct (add_frame _ _).
Qed.

Lemma parse_sealed cipher key a nonce bs :
  is_plain cipher = false → Forall chunk_ok bs →
  ∃ n, parse (ss_machine x cipher key) (mkReading Length (Some a) nonce) (sealed a nonce bs)
       = mkParsed ((tt,.) <$> bs) (mkReading Length (Some a) n) [] None.
Proof using Type*.
  intros Hp H. revert nonce. induction H as [|b bs Hb H IH]; intros nonce; cbn [sealed].
  - exists nonce. rewrite parse_stop; [done|]. right. right. cbn [need ss_machine]. rewrite Hp. cbn. lia.
  - rewrite ss_parse_chunk by done. destruct (IH (bump_nonce (bump_nonce nonce))) as [n ->]. exists n. unfold add_frame.
    cbn [p_frames p_state p_rest p_err fmap list_fmap]. destruct Hb as [Hb _]. by destruct b.
Qed.

(** A salt and chunks under the subkey it gives. *)
Lemma parse_salted cipher key salt a bs :
  is_plain cipher = false → length salt = key_size cipher → from_salt x cipher key salt = Ok a → Forall chunk_ok bs →
  ∃ n, parse (ss_machine x cipher key) fresh_reading (salt ++ sealed a zero_nonce bs)
       = mkParsed ((tt,.) <$> bs) (mkReading Length (Some a) n) [] None.
Proof using Type*.
  intros Hp Hl Ha Hbs. destruct (parse_sealed cipher key a zero_nonce bs Hp Hbs) as [n E]. exists n. set (m := ss_machine x cipher key) in *.
  erewrite (parse_step m fresh_reading _ (mkReading Length (Some a) zero_nonce) [] None); [|done|..].
  2,3: by cbn; rewrite Hp.
  2: { cbn [m need ss_machine]. rewrite Hp, length_app. cbn [ss_need fresh_reading phase]. lia. }
  2: { cbn [m need advance ss_machine]. rewrite Hp. cbn [ss_need fresh_reading phase]. rewrite take_app_exact by done.
       unfold ss_advance. cbn [phase read_nonce]. by rewrite Ha. }
  cbn [m need ss_machine]. rewrite Hp. cbn [ss_need fresh_reading phase app]. rewrite drop_app_exact by done. fold m. rewrite E. done.
Qed.

(** ** The writer *)

(** Operations of a writer, with the transport's answers and the salt it would use. *)
Inductive SsOp : Type :=
| OpWrite (answers : list Answer) (salt buf : bytes)
| OpFlush (answers : list Answer) (inner : poll (result io_error ()))
| OpShutdown (answers : list Answer) (inner : poll (result io_error ())).

Definition ss_op (op : SsOp) (c : SsStream) : SsStream :=
  match op with
  | OpWrite answers salt buf => (ss_poll_write x answers salt buf c).2
  | OpFlush answers inner => (ss_poll_flush answers inner c).2
  | OpShutdown answers inner => (ss_poll_shutdown answers inner c).2
  end.
Definition ss_ops (ops : list SsOp) (c : SsStream) : SsStream := foldl (λ c op, ss_op op c) c ops.

Definition ss_accepted (op : SsOp) (c : SsStream) : list bytes :=
  match op with
  | OpWrite answers salt buf =>
      match (ss_poll_write x answers salt buf c).1, buf with
      | Ready (Ok n), _ :: _ => [take n buf]
      | _, _ => []
      end
  | _ => []
  end.
Fixpoint ss_all_accepted (ops : list SsOp) (c : SsStream) : list bytes :=
  match ops with [] => [] | op :: ops => ss_accepted op c ++ ss_all_accepted ops (ss_op op c) end.

Definition salts (cipher : SsCipher) (op : SsOp) : Prop :=
  match op with OpWrite _ salt _ => length salt = key_size cipher | _ => True end.

Definition ss_wire (c : SsStream) : bytes := sent (s_out c) ++ unsent (s_out c).

(** What a writer that accepted [bs] has put out: nothing before the first
    chunk, then its salt and the chunks. *)
Record carries (cipher : SsCipher) (key : bytes) (c : SsStream) (bs : list bytes) : Prop := {
  ca_out : out_ok (s_out c);
  ca_cipher : s_cipher c = cipher;
  ca_key : s_key c = key;
  ca_nonce : write_nonce c = nonce_after (2 * length bs);
  ca_bytes : match write_cipher c with
             | None => bs = [] ∧ ss_wire c = []
             | Some a => ∃ salt, length salt = key_size cipher ∧ from_salt x cipher key salt = Ok a
                 ∧ ss_wire c = salt ++ sealed a zero_nonce bs
             end }.

Lemma ss_carries_flush cipher key c bs answers p c' answers' :
  carries cipher key c bs → ss_flush answers c = (p, c', answers') →
  carries cipher key c' bs ∧ (p = Ready (Ok tt) → unsent (s_out c') = []).
Proof.
  intros [Ho Hc Hk Hn Hb] H. unfold ss_flush in H. destruct (flush_out write_zero answers (s_out c)) as [[q o] a] eqn:E. simplify_eq.
  apply flush_out_spec in E as (E & Ho' & _ & Hd); [|done]. split; [|naive_solver].
  split; [done..|]. unfold ss_wire in *. cbn [set_out s_out write_cipher]. by rewrite E.
Qed.

Lemma carries_ensure cipher key salt c bs :
  length salt = key_size cipher → carries cipher key c bs →
  ∃ a c', ensure_cipher x salt c = (Ok a, c') ∧ write_cipher c' = Some a ∧ carries cipher key c' bs.
Proof using Type*.
  intros Hs [Ho Hc Hk Hn Hb]. unfold ensure_cipher. destruct (write_cipher c) as [a|] eqn:Ew.
  - exists a, c. split_and!; [done..|]. split; [done..|]. by rewrite Ew.
  - destruct Hb as [-> Hw]. unfold from_salt. rewrite Hc, Hk.
    destruct (hkdf_some (x := x) salt key (key_size cipher)) as [k Ek]; [destruct cipher; cbn; lia|]. rewrite Ek.
    destruct (queue_spec salt _ Ho) as (E & Ho' & _). eexists _, _. split_and!; [done..|]. split; [done..|].
    cbn [write_cipher]. exists salt. unfold from_salt. rewrite Ek. split_and!; [done..|].
    unfold ss_wire in *. cbn [s_out sealed]. by rewrite E, Hw, app_nil_r.
Qed.

(** A sealed block follows what is on the wire. *)
Lemma seal_block_adds a b c :
  (length b ≤ MAX_PAYLOAD)%nat → out_ok (s_out c) →
  ∃ c', seal_block x a b c = (Ok tt, c') ∧ out_ok (s_out c') ∧ s_cipher c' = s_cipher c ∧ s_key c' = s_key c
    ∧ write_cipher c' = write_cipher c ∧ write_nonce c' = bump_nonce (write_nonce c)
    ∧ ss_wire c' = ss_wire c ++ enc a (write_nonce c) b.
Proof using Type*.
  intros Hl Ho. unfold seal_block. destruct (enc_spec a (write_nonce c) b Hl) as (-> & _).
  destruct (queue_spec (enc a (write_nonce c) b) _ Ho) as (E & Ho' & _). eexists. split; [done|]. by split_and!.
Qed.

(** A chunk is sealed under the next two nonces. *)
Lemma carries_seal cipher key salt c bs b :
  length salt = key_size cipher → chunk_ok b → carries cipher key c bs →
  ∃ c', seal_chunk x salt b c = (Ok tt, c') ∧ carries cipher key c' (bs ++ [b]).
Proof using Type*.
  intros Hs [Hne Hl] Hca. destruct (carries_ensure cipher key salt c bs Hs Hca) as (a & c1 & E1 & Ew & [Ho Hc Hk Hn Hb]).
  rewrite Ew in Hb. destruct Hb as (salt' & Hs' & Ha & Hw).
  assert (u16 (zlen b) = zlen b) as Hz by (apply wrap_small; pose proof (max_payload_z b Hl); pose proof (zlen_nonneg b); lia).
  unfold seal_chunk. rewrite E1, Hz.
  destruct (seal_block_adds a (to_be 2 (zlen b)) c1) as (c2 & E2 & O2 & C2 & K2 & W2 & N2 & S2); [rewrite length_to_be; unfold MAX_PAYLOAD; lia|done|].
  rewrite E2. destruct (seal_block_adds a b c2 Hl O2) as (c3 & E3 & O3 & C3 & K3 & W3 & N3 & S3). rewrite E3.
  exists c3. split; [done|]. split; [done|congruence|congruence| |].
  - rewrite N3, N2, Hn, length_app. cbn [length]. replace (2 * (length bs + 1))%nat with (S (S (2 * length bs))) by lia.
    unfold nonce_after. by rewrite !Nat.iter_succ.
  - rewrite W3, W2, Ew. exists salt'. split_and!; [done..|]. rewrite S3, S2, Hw, sealed_app. cbn [sealed].
    fold (nonce_after (2 * length bs)). rewrite <-Hn, N2, app_nil_r, <-!app_assoc. done.
Qed.

Lemma ss_op_carries cipher key op c bs :
  is_plain cipher = false → salts cipher op → carries cipher key c bs →
  carries cipher key (ss_op op c) (bs ++ ss_accepted op c) ∧ Forall chunk_ok (ss_accepted op c).
Proof using Type*.
  intros Hp Hs Hca. pose proof (ca_cipher _ _ _ _ Hca) as Hci. destruct op as [answers salt buf|answers inner|answers inner]; cbn [ss_op ss_accepted].
  - unfold ss_poll_write. rewrite Hci, Hp. destruct buf as [|y buf]; [cbn [fst snd]; by rewrite app_nil_r|]. set (b := y :: buf) in *.
    destruct (ss_flush answers c) as [[p c1] a1] eqn:E1. destruct (ss_carries_flush _ _ _ _ _ _ _ _ Hca E1) as [Hc1 _].
    destruct p as [|r]; [cbn [fst snd]; by rewrite app_nil_r|].
    assert (chunk_ok (take (Nat.min (length b) MAX_PAYLOAD) b)) as Hok.
    { split; [|rewrite length_take; lia]. intros E. apply (f_equal length) in E. rewrite length_take in E. cbn [length b] in E.
      unfold MAX_PAYLOAD in E. lia. }
    destruct (carries_seal cipher key salt c1 bs _ Hs Hok Hc1) as (c2 & E2 & Hc2). rewrite E2.
    destruct (ss_flush a1 c2) as [[p3 c3] a3] eqn:E3. destruct (ss_carries_flush _ _ _ _ _ _ _ _ Hc2 E3) as [Hc3 _].
    cbn [fst snd]. split; [exact Hc3|]. by apply Forall_singleton.
  - unfold ss_poll_flush. rewrite Hci, Hp, app_nil_r. destruct (ss_flush answers c) as [[p c1] a1] eqn:E1.
    destruct (ss_carries_flush _ _ _ _ _ _ _ _ Hca E1) as [Hc1 _]. by destruct p as [|[]].
  - unfold ss_poll_shutdown. rewrite Hci, Hp, app_nil_r. destruct (ss_flush answers c) as [[p c1] a1] eqn:E1.
    destruct (ss_carries_flush _ _ _ _ _ _ _ _ Hca E1) as [Hc1 _]. by destruct p as [|[]].
Qed.

Lemma ss_ops_carries cipher key ops c bs :
  is_plain cipher = false → Forall (salts cipher) ops → carries cipher key c bs →
  carries cipher key (ss_ops ops c) (bs ++ ss_all_accepted ops c) ∧ Forall chunk_ok (ss_all_accepted ops c).
Proof using Type*.
  intros Hp Hs. revert c bs. induction Hs as [|op ops Hop Hs IH]; intros c bs Hc; cbn [ss_ops foldl ss_all_accepted].
  { by rewrite app_nil_r. }
  destruct (ss_op_carries cipher key op c bs Hp Hop Hc) as [Hc1 Hf1]. destruct (IH _ _ Hc1) as [Hc2 Hf2].
  rewrite app_assoc. split; [exact Hc2|]. by apply Forall_app.
Qed.

Lemma new_carries cipher key : carries cipher key (ss_new cipher key) [].
Proof.
  split; try done. unfold out_ok. cbn. lia.
Qed.

(** The whole of what was accepted, as the other end parses it. *)
Lemma parse_carried cipher key c bs :
  is_plain cipher = false → carries cipher key c bs → Forall chunk_ok bs →
  ∃ s, parse (ss_machine x cipher key) fresh_reading (ss_wire c) = mkParsed ((tt,.) <$> bs) s [] None.
Proof using Type*.
  intros Hp [_ _ _ _ Hb] Hbs. destruct (write_cipher c) as [a|].
  - destruct Hb as (salt & Hs & Ha & ->). destruct (parse_salted cipher key salt a bs Hp Hs Ha Hbs) as [n ->]. by eexists.
  - destruct Hb as [-> ->]. eexists. rewrite parse_stop; [done|]. right. right. cbn [need ss_machine]. rewrite Hp.
    cbn [ss_need fresh_reading phase length]. destruct cipher; cbn; lia || done.
Qed.

Fixpoint ss_reads (rooms : list nat) (answers : list ReadAnswer) (c : SsStream) :
    list (poll (result io_error bytes)) * SsStream * list ReadAnswer :=
  match rooms with
  | [] => ([], c, answers)
  | room :: rooms =>
      let '(p, c, answers) := ss_poll_read x room answers c in
      let '(ps, c, answers) := ss_reads rooms answers c in (p :: ps, c, answers)
  end.

Lemma ss_reads_framed rooms answers c ps c' answers' :
  ss_reads rooms answers c = (ps, c', answers') →
  ∃ r, framed_reads (ss_machine x (s_cipher c) (s_key c)) rooms answers (s_read c) = (ps, r, answers').
Proof.
  revert answers c ps. induction rooms as [|room rooms IH]; intros answers c ps H; cbn [ss_reads framed_reads] in *;
    [simplify_eq; eauto|].
  unfold ss_poll_read in H. destruct (framed_read _ room answers (s_read c)) as [[p r] a1].
  destruct (ss_reads rooms a1 _) as [[ps2 c2] a2] eqn:E2. simplify_eq.
  apply IH in E2 as [r2 E2]. cbn [s_cipher s_key s_read] in E2. rewrite E2. eauto.
Qed.

(** C8: Between the two ends of an encrypted stream with the same cipher and key,
    whatever the transport takes, fails or cuts: what is read is a beginning of
    what the other end accepted for writing, and all of it once everything was
    taken and enough reads are made; the reader sees no error but the
    transport's, so nothing is ever rejected or reordered. *)
Theorem ss_transfer cipher key ops answers w rooms ps c' answers' :
  let c := ss_ops ops (ss_new cipher key) in
  let bs := ss_all_accepted ops (ss_new cipher key) in
  is_plain cipher = false → Forall (salts cipher) ops →
  sent (s_out c) = received answers ++ w → RData [] ∉ answers →
  ss_reads rooms answers (ss_new cipher key) = (ps, c', answers') →
  delivered ps `prefix_of` concat bs
  ∧ (∀ e, Ready (Err e) ∈ ps → RErr e ∈ answers)
  ∧ (w = [] → unsent (s_out c) = [] → Forall (λ room, 0 < room)%nat rooms →
     (length (concat bs) + length answers ≤ length rooms)%nat → delivered ps = concat bs).
Proof using Type*.
  intros c bs Hp Hs Hsent Hn Hrun.
  destruct (ss_ops_carries cipher key ops _ _ Hp Hs (new_carries cipher key)) as [Hca Hbs]. cbn [app] in *. fold c bs in Hca, Hbs.
  destruct (parse_carried cipher key c bs Hp Hca Hbs) as [s Hpa].
  assert (ss_wire c = received answers ++ (w ++ unsent (s_out c))) as Ew by (unfold ss_wire; by rewrite Hsent, <-app_assoc).
  rewrite Ew in Hpa. destruct (ss_reads_framed _ _ _ _ _ _ Hrun) as [r Hfr]. cbn [ss_new s_cipher s_key s_read] in Hfr.
  assert (p_err (parse (ss_machine x cipher key) fresh_reading (received answers ++ w ++ unsent (s_out c))) = None) as He by (by rewrite Hpa).
  assert (good (ss_machine x cipher key) fresh_reading) as Hg by exact I.
  destruct (fresh_reads (ss_machine x cipher key) fresh_reading tt answers (w ++ unsent (s_out c)) rooms ps r answers' Hg He Hn Hfr) as (Hdel & Herr & Hall).
  assert (parsed_bytes (ss_machine x cipher key) (parse (ss_machine x cipher key) fresh_reading (received answers ++ w ++ unsent (s_out c)))
    = concat bs) as Hfull.
  { rewrite Hpa. unfold parsed_bytes. cbn [p_frames p_state p_rest raw ss_machine]. rewrite Hp, app_nil_r, <-list_fmap_compose.
    f_equal. apply list_fmap_id. }
  rewrite Hfull in *. split_and!; [done|done|]. intros -> Hu Hrooms Hlen. apply Hall; [by rewrite Hu|done|done].
Qed.

End transfer.

(** A cipher that appends the nonce, and four bytes more, as its tag. *)
Definition toy_tag (nonce : bytes) : bytes := take TAG_LEN (nonce ++ replicate TAG_LEN 7).
Definition toy : Crypto :=
  mkCrypto (λ _, replicate 16 1) (λ _ _ n, Some (replicate n 2)) (λ _ _ nonce b, Some (b ++ toy_tag nonce))
    (λ _ _ nonce b,
       let n := (length b - TAG_LEN)%nat in if bool_decide (drop n b = toy_tag nonce) then Some (take n b) else None).

#[export] Instance toy_ok : AeadOk toy.
Proof.
  assert (∀ nonce, length (toy_tag nonce) = TAG_LEN) as Ht.
  { intros nonce. unfold toy_tag. rewrite length_take, length_app, length_replicate. lia. }
  split; cbn [toy md5 hkdf encrypt decrypt].
  - done.
  - by eexists.
  - by eexists.
  - intros _ _ nonce b s [= <-]. by rewrite length_app, Ht.
  - intros _ _ nonce b s [= <-]. rewrite length_app, Ht, Nat.add_sub, drop_app_length, bool_decide_true by done.
    by rewrite take_app_length.
Qed.

Definition demo_ops : list SsOp :=
  [OpWrite [ATake 40; APending] (replicate 16 9) (str "hello ");
   OpFlush [ATake 7; ATake 1000] (Ready (Ok tt));
   OpWrite [AErr (other "reset")] (replicate 16 8) (str "world");
   OpShutdown [ATake 1000] (Ready (Ok tt))].

Definition demo_key : bytes := evp_bytes_to_key toy (str "secret") (key_size Aes128Gcm).
Definition demo_wire : bytes := sent (s_out (ss_ops toy demo_ops (ss_new Aes128Gcm demo_key))).
Definition demo_answers : list ReadAnswer := [RData (take 30 demo_wire); RPending; RData (drop 30 demo_wire)].

Lemma ss_transfer_witness :
  ss_all_accepted toy demo_ops (ss_new Aes128Gcm demo_key) = [str "hello "; str "world"]
  ∧ delivered (ss_reads toy (replicate 14 4%nat) demo_answers (ss_new Aes128Gcm demo_key)).1.1 = str "hello world".
Proof.
  split; [vm_compute; reflexivity|].
  destruct (ss_reads toy (replicate 14 4%nat) demo_answers (ss_new Aes128Gcm demo_key)) as [[ps c'] rest] eqn:E.
  destruct (ss_transfer toy Aes128Gcm demo_key demo_ops demo_answers [] (replicate 14 4%nat) ps c' rest) as (_ & _ & H).
  - reflexivity.
  - repeat constructor.
  - vm_compute. reflexivity.
  - unfold demo_answers. rewrite !not_elem_of_cons. split_and!; [by vm_compute..|apply not_elem_of_nil].
  - exact E.
  - cbn [fst]. rewrite H; [vm_compute; reflexivity|reflexivity|vm_compute; reflexivity| |].
    + apply (bool_decide_unpack _). vm_compute. exact I.
    + apply (bool_decide_unpack _). vm_compute. exact I.
Defined.

End Ss.
