(* ===== verification/Shadow.v ===== *)
(** * The Shadowsocks proxy

    The connectors and handlers of src/ss.rs: the address header of a stream and
    [ShadowConnector] and [ShadowHandler] that write and read it, and the
    datagrams of [ShadowUdpConnector], [ShadowUdpPacketConn] and
    [ShadowUdpHandler]. The stream handler works on the plaintext of its
    [SsStream] (ShadowStream.v); what the chain and the sockets answer is a
    parameter. *)

From stdpp Require Import base list option numbers strings sets pretty.
From Stdlib Require Import ZArith Lia.
From S2P Require Import Prelude Text Utf8 IpAddr AsyncIo Permissions Bypass Conn Socks5Addr SocketText Effects Words ShadowStream.

Module Shadow.
Import Ss.

(** ** Addresses *)

Definition encode_ss_address (address : bytes) : result HandlerError bytes :=
  match rsplit_once ch_colon address with
  | None => Err (Proxy (str "invalid address: " ++ address))
  | Some (host, port_str) =>
      match parse_u16 port_str with
      | None => Err (Proxy (str "invalid port: " ++ port_str))
      | Some port =>
          Ok ((match parse_ipv4 host with
               | Some os => ATYP_IPV4 :: os
               | None =>
                   match parse_ipv6 host with
                   | Some gs => ATYP_IPV6 :: segs_octets gs
                   | None => ATYP_DOMAIN :: u8 (zlen host) :: host
                   end
               end) ++ to_be 2 port)
      end
  end.

Definition encode_ss_socket_addr (a : SocketAddr) : bytes :=
  (match sa_ip a with V4 os => ATYP_IPV4 :: os | V6 gs => ATYP_IPV6 :: segs_octets gs end) ++ to_be 2 (sa_port a).

Definition encode_ss_target (address : bytes) : result HandlerError bytes :=
  match parse_socket_addr address with
  | Some (sa, _) => Ok (encode_ss_socket_addr sa)
  | None => encode_ss_address address
  end.

Definition read_ss_address : conv HandlerError bytes :=
  atyp <~ h_read 1 ;;
  let atyp := from_be atyp in
  host <~ (if atyp =? ATYP_IPV4 then addr <~ h_read 4 ;; cret (show_ipv4 addr)
           else if atyp =? ATYP_DOMAIN then
             len <~ h_read 1 ;;
             domain <~ h_read (Z.to_nat (from_be len)) ;;
             cret (from_utf8_lossy domain)
           else if atyp =? ATYP_IPV6 then addr <~ h_read 16 ;; cret (show_ipv6 (octets_segs addr))
           else cfail (Proxy (str "unsupported atyp: " ++ show_int atyp))) ;;
  port_buf <~ h_read 2 ;;
  cret (host ++ [ch_colon] ++ show_int (from_be port_buf)).

(** [buf.get(i..j)] *)
Definition get_range (i j : nat) (b : bytes) : option bytes :=
  if (j <=? length b)%nat then Some (take (j - i) (drop i b)) else None.

Inductive SsHost : Set := HostIp (ip : IpAddr) | HostDomain (name : bytes).

Definition bad {A} (what : string) : result HandlerError A :=
  Err (Proxy (str "malformed shadowsocks address: " ++ str what)).

(** The host of a datagram and where it ends. *)
Definition parse_ss_host (atyp : Z) (b : bytes) : result HandlerError (SsHost * nat) :=
  if atyp =? ATYP_IPV4 then
    match get_range 1 5 b with Some raw => Ok (HostIp (V4 raw), 5%nat) | None => bad "truncated IPv4 address" end
  else if atyp =? ATYP_IPV6 then
    match get_range 1 17 b with Some raw => Ok (HostIp (V6 (octets_segs raw)), 17%nat) | None => bad "truncated IPv6 address" end
  else if atyp =? ATYP_DOMAIN then
    match b !! 1%nat with
    | None => bad "truncated domain length"
    | Some l =>
        let len := Z.to_nat l in
        if (len =? 0)%nat then bad "empty domain"
        else
          match get_range 2 (2 + len) b with
          | None => bad "truncated domain"
          | Some raw =>
              if utf8_ok raw then
                Ok (match parse_ip raw with Some ip => HostIp ip | None => HostDomain raw end, (2 + len)%nat)
              else bad "non-UTF-8 domain"
          end
    end
  else Err (Proxy (str "malformed shadowsocks address: unsupported atyp " ++ show_int atyp)).

Definition host_text (h : SsHost) (port : Z) : bytes :=
  match h with
  | HostIp ip => show_addr (mkAddr ip port)
  | HostDomain name => name ++ [ch_colon] ++ show_int port
  end.

Definition parse_ss_address (b : bytes) : result HandlerError (bytes * nat) :=
  match b with
  | [] => bad "empty datagram"
  | atyp :: _ =>
      match parse_ss_host atyp b with
      | Err e => Err e
      | Ok (host, off) =>
          match get_range off (off + 2) b with
          | None => bad "truncated port"
          | Some port_raw => Ok (host_text host (from_be port_raw), (off + 2)%nat)
          end
      end
  end.

(** [split_host_port_str] *)
Definition split_host_port_str (addr : bytes) : bytes * Z :=
  let plain := match rsplit_once ch_colon addr with
               | Some (host, port) => (host, default 0 (parse_u16 port))
               | None => (addr, 0)
               end in
  match read_char ch_lbracket addr with
  | None => plain
  | Some rest =>
      match split_once ch_rbracket rest with
      | None => plain
      | Some (host, rest) => (host, default 0 (rest ← read_char ch_colon rest; parse_u16 rest))
      end
  end.

(** ** The stream proxy *)

Section proxy.
Context (x : Crypto).

(** What the connectors and handlers are made of. *)
Definition Keyed : Set := SsCipher * bytes.

(** [new], the same in the two connectors and the two handlers. *)
Definition shadow_new (method password : bytes) : result HandlerError Keyed :=
  match from_name method with
  | None => Err (Proxy (str "unknown shadowsocks cipher: " ++ method))
  | Some cipher => Ok (cipher, evp_bytes_to_key x password (key_size cipher))
  end.

(** [ShadowConnector::connect], on the plaintext of the stream it makes. *)
Definition shadow_connect (address : bytes) : conv HandlerError () :=
  addr_buf <~ clift (encode_ss_address address) ;; h_write addr_buf.

Section handler.
Context (o : HandlerOptions) (chain_dial : bytes → result ChainError Conn).

(** [ShadowHandler::handle], on the plaintext of the stream it makes. *)
Definition shadow_handle : act () :=
  target <- say read_ss_address ;;
  if negb (may "tcp" o target) then afail Forbidden
  else if bypassed o target then afail Forbidden
  else
    emit (Dialled target) ;;;
    match chain_dial target with
    | Ok cc => splice cc
    | Err e => afail (ChainFailed e)
    end.

End handler.

(** ** Datagrams *)

Definition UDP_NONCE : bytes := replicate 12 0.
Definition UDP_MAX_DATAGRAM : nat := Z.to_nat (64 * 1024).

(** [seal_udp_datagram]; [salt] is what the random generator gives. *)
Definition seal_udp_datagram (k : Keyed) (salt plain : bytes) : result io_error bytes :=
  if is_plain k.1 then Ok plain
  else
    match from_salt x k.1 k.2 salt with
    | Err e => Err e
    | Ok aead =>
        match seal x aead UDP_NONCE plain with
        | Err e => Err e
        | Ok body => Ok (salt ++ body)
        end
    end.

Definition short_datagram (n least : nat) : io_error :=
  other ("short shadowsocks UDP datagram: " +:+ pretty n +:+ " bytes, minimum " +:+ pretty least).

Definition open_udp_datagram (k : Keyed) (packet : bytes) : result io_error bytes :=
  if is_plain k.1 then Ok packet
  else
    let salt_len := key_size k.1 in
    if (length packet <? salt_len + TAG_LEN)%nat then Err (short_datagram (length packet) (salt_len + TAG_LEN))
    else
      match from_salt x k.1 k.2 (take salt_len packet) with
      | Err e => Err e
      | Ok aead => open x aead UDP_NONCE (drop salt_len packet)
      end.

Definition io_result {A} (r : result io_error A) : result HandlerError A :=
  match r with Ok a => Ok a | Err e => Err (Io e) end.

(** [ShadowUdpConnector::encode_to] *)
Definition encode_to (k : Keyed) (salt target payload : bytes) : result HandlerError bytes :=
  match encode_ss_target target with
  | Err e => Err e
  | Ok plain => io_result (seal_udp_datagram k salt (plain ++ payload))
  end.

Definition decode_from (k : Keyed) (packet : bytes) : result HandlerError (bytes * bytes) :=
  match io_result (open_udp_datagram k packet) with
  | Err e => Err e
  | Ok plain =>
      match parse_ss_address plain with
      | Err e => Err e
      | Ok (address, off) => Ok (address, drop off plain)
      end
  end.

(** [ShadowUdpConnector::connect]: the target is tried once. *)
Record PacketConn : Set := mkPacketConn { pc_keyed : Keyed; pc_target : bytes }.

Definition udp_connect (k : Keyed) (address : bytes) : result HandlerError PacketConn :=
  match encode_ss_target address with Err e => Err e | Ok _ => Ok (mkPacketConn k address) end.

(** [send_to], [send] and [recv] of [ShadowUdpPacketConn] over its connection. *)
Definition pc_send_to (p : PacketConn) (salt target payload : bytes) : conv HandlerError () :=
  plain <~ clift (encode_ss_target target) ;;
  packet <~ clift (io_result (seal_udp_datagram (pc_keyed p) salt (plain ++ payload))) ;;
  h_write packet.
Definition pc_send (p : PacketConn) (salt payload : bytes) : conv HandlerError () := pc_send_to p salt (pc_target p) payload.

Definition pc_recv (p : PacketConn) : conv HandlerError (bytes * bytes) :=
  b <~ cmap_err Io (read UDP_MAX_DATAGRAM) ;;
  match b with
  | [] => cfail (Io (IoError UnexpectedEof "unexpected end of file"))
  | _ => clift (decode_from (pc_keyed p) b)
  end.

(** ** The relay of datagrams *)

Section relay.
Context (k : Keyed) (o : HandlerOptions) (lookup_host : bytes → Z → list Scoped).

Definition udp_dst_allowed (dst : bytes) : bool :=
  if negb (may "udp" o dst) then false else negb (bypassed o dst).

Definition resolve_udp_addr (address : bytes) : option Scoped :=
  match parse_socket_addr address with
  | Some sa => Some sa
  | None =>
      match split_host_port address with
      | Err _ => None
      | Ok (host, port) => match parse_u16 port with None => None | Some port => head (lookup_host host port) end
      end
  end.

(** Where a datagram for [target] goes, if it may. *)
Definition ssu_route (target : bytes) : option Scoped :=
  if negb (udp_dst_allowed target) then None
  else
    match resolve_udp_addr target with
    | None => None
    | Some raddr =>
        let resolved := show_scoped raddr in
        if negb (bool_decide (resolved = target)) && negb (udp_dst_allowed resolved) then None else Some raddr
    end.

(** What [select!] gives: a read of the client's connection, with the outcome of
    the send it leads to; or a datagram or an error of the outbound channel,
    with the salt drawn and the outcome of the write it leads to. *)
Inductive SsuEv : Set :=
| FromClient (r : result io_error bytes) (sending : result io_error ())
| FromTarget (r : result io_error (bytes * (bytes * Z))) (salt : bytes) (writing : result io_error ()).

Inductive SsuOut : Set :=
| Forwarded (data host : bytes) (port : Z)
| Returned (packet : bytes).

Definition MAX_CONSECUTIVE_RECV_ERRORS : nat := 64.

(** A turn of [relay]: how it ends, or the receive errors in a row. *)
Definition ssu_turn (errors : nat) (ev : SsuEv) : (result HandlerError () + nat) * list SsuOut :=
  match ev with
  | FromClient (Err e) _ => (inl (Err (Io e)), [])
  | FromClient (Ok []) _ => (inl (Ok tt), [])
  | FromClient (Ok b) _ =>
      match open_udp_datagram k (take UDP_MAX_DATAGRAM b) with
      | Err _ => (inr errors, [])
      | Ok plain =>
          match parse_ss_address plain with
          | Err _ => (inr errors, [])
          | Ok (target, off) =>
              match ssu_route target with
              | None => (inr errors, [])
              | Some (raddr, _) => (inr errors, [Forwarded (drop off plain) (show_ip (sa_ip raddr)) (sa_port raddr)])
              end
          end
      end
  | FromTarget (Err e) _ _ =>
      let errors := S errors in
      if (MAX_CONSECUTIVE_RECV_ERRORS <? errors)%nat then (inl (Err (Io e)), []) else (inr errors, [])
  | FromTarget (Ok (data, (host, port))) salt writing =>
      let origin := join_host_port host port in
      if bypassed o origin then (inr 0%nat, [])
      else
        match encode_to k salt origin data with
        | Err e => (inl (Err e), [])
        | Ok packet =>
            match writing with
            | Err e => (inl (Err (Io e)), [])
            | Ok _ => (inr 0%nat, [Returned packet])
            end
        end
  end.

(** [relay]: the turns until it ends; [None] while it would go on. *)
Fixpoint ssu_relay (errors : nat) (evs : list SsuEv) : option (result HandlerError ()) * list SsuOut :=
  match evs with
  | [] => (None, [])
  | ev :: evs =>
      match ssu_turn errors ev with
      | (inl r, out) => (Some r, out)
      | (inr errors, out) => let '(r, outs) := ssu_relay errors evs in (r, out ++ outs)
      end
  end.

(** [ShadowUdpHandler::handle]: the channel is dialled from an address of the
    listener's family. [channel] is the chain's [dial_udp], with the events of
    the relay that follows. *)
Definition ssu_bind (local : option SocketAddr) : SocketAddr :=
  match sa_ip <$> local with
  | Some (V6 _) => mkAddr (V6 (replicate 8 0)) 0
  | _ => mkAddr (V4 [0; 0; 0; 0]) 0
  end.
Definition ssu_handle (channel : SocketAddr → result ChainError (list SsuEv)) (local : option SocketAddr) :
    option (result HandlerError ()) * list SsuOut :=
  match channel (ssu_bind local) with
  | Err e => (Some (Err (ChainFailed e)), [])
  | Ok evs => ssu_relay 0 evs
  end.

End relay.
End proxy.

(** ** Addresses there and back *)

Lemma rsplit_middle c a b : c ∉ b → rsplit_once c (a ++ c :: b) = Some (a, b).
Proof.
  intros Hb. unfold rsplit_once. rewrite rfind_middle by done. rewrite take_app_length.
  by rewrite (drop_app_ge _ _ (S (length a))), Nat.sub_succ_l, Nat.sub_diag by lia.
Qed.

(** The host and port a target stands for. *)
Definition target_parts (address : bytes) : option (bytes * Z) :=
  match parse_socket_addr address with
  | Some (a, _) => Some (show_ip (sa_ip a), sa_port a)
  | None =>
      match rsplit_once ch_colon address with
      | None => None
      | Some (host, p) => match parse_u16 p with Some port => Some (host, port) | None => None end
      end
  end.

(** How the other end writes them. *)
Definition peer_text (host : bytes) (port : Z) : bytes :=
  match parse_ip host with
  | Some ip => show_addr (mkAddr ip port)
  | None => host ++ [ch_colon] ++ show_int port
  end.

Lemma encode_ss_address_parts address host p port :
  rsplit_once ch_colon address = Some (host, p) → parse_u16 p = Some port →
  encode_ss_address address = Ok (encode_address host port) ∧ port_ok port.
Proof.
  intros Hs Hp. unfold encode_ss_address. rewrite Hs, Hp. split; [done|]. by apply parse_unsigned_range in Hp.
Qed.

Lemma encode_socket_addr a : ip_ok (sa_ip a) → encode_ss_socket_addr a = encode_address (show_ip (sa_ip a)) (sa_port a).
Proof.
  intros Hi. unfold encode_ss_socket_addr, encode_address. destruct (sa_ip a) as [os|gs]; cbn [show_ip].
  - by rewrite parse_ipv4_show.
  - by destruct (parse_ipv6_show gs Hi) as [-> ->].
Qed.

Lemma encode_ss_target_parts address host port :
  target_parts address = Some (host, port) → encode_ss_target address = Ok (encode_address host port) ∧ port_ok port.
Proof.
  unfold target_parts, encode_ss_target. destruct (parse_socket_addr address) as [[a scope]|] eqn:E.
  - intros [= <- <-]. apply parse_socket_addr_ok in E as [Hi Hp]. by rewrite encode_socket_addr.
  - destruct (rsplit_once ch_colon address) as [[h p]|] eqn:Es; [|done]. destruct (parse_u16 p) eqn:Ep; [|done].
    intros [= <- <-]. by eapply encode_ss_address_parts.
Qed.

Lemma parse_ip_v4 host os : parse_ipv4 host = Some os → parse_ip host = Some (V4 os).
Proof. unfold parse_ipv4, parse_ip. by destruct (read_ipv4_addr host) as [[? [|]]|]; intros; simplify_eq. Qed.

Lemma parse_ip_v6 host gs : parse_ipv4 host = None → parse_ipv6 host = Some gs → parse_ip host = Some (V6 gs).
Proof.
  intros H4 H6. pose proof (canon_same host) as H. unfold canon in H. rewrite H4, H6 in H. rewrite <-H.
  pose proof (parse_ipv6_ok _ _ H6) as Hok. by apply (parse_show_ip (V6 gs)).
Qed.

Lemma parse_ip_none host : parse_ipv4 host = None → parse_ipv6 host = None → parse_ip host = None.
Proof.
  unfold parse_ipv4, parse_ipv6, parse_ip. destruct (read_ipv4_addr host) as [[? [|]]|]; [done|done|].
  by destruct (read_ipv6_addr host) as [[? [|]]|].
Qed.

Lemma get_range_mid (a b c : bytes) i j : i = length a → j = (length a + length b)%nat → get_range i j (a ++ b ++ c) = Some b.
Proof.
  intros -> ->. unfold get_range. rewrite !length_app. destruct (Nat.leb_spec (length a + length b) (length a + (length b + length c))); [|lia].
  rewrite drop_app_length, take_app_le, firstn_all2 by lia. done.
Qed.

(** The host of an encoded address. *)
Lemma parse_ss_host_encoded host t atyp len b :
  host_ok host →
  (atyp, len, b) = match parse_ipv4 host with
                   | Some os => (ATYP_IPV4, [], os)
                   | None => match parse_ipv6 host with Some gs => (ATYP_IPV6, [], segs_octets gs) | None => (ATYP_DOMAIN, [zlen host], host) end
                   end →
  parse_ss_host atyp (atyp :: len ++ b ++ t)
  = Ok (match parse_ip host with Some ip => HostIp ip | None => HostDomain host end, length (atyp :: len ++ b)).
Proof.
  intros Hh E. destruct (parse_ipv4 host) as [os|] eqn:E4.
  { simplify_eq. rewrite (parse_ip_v4 _ _ E4). pose proof (parse_ipv4_ok _ _ E4) as [Hl _].
    pose proof (get_range_mid [ATYP_IPV4] os t 1 5 eq_refl ltac:(cbn; lia)) as Hg. cbn [app] in *.
    unfold parse_ss_host. rewrite Z.eqb_refl, Hg. cbn [length]. by rewrite Hl. }
  destruct (parse_ipv6 host) as [gs|] eqn:E6; simplify_eq.
  { rewrite (parse_ip_v6 _ _ E4 E6). pose proof (parse_ipv6_ok _ _ E6) as [Hl _].
    pose proof (get_range_mid [ATYP_IPV6] (segs_octets gs) t 1 17 eq_refl ltac:(cbn [length]; rewrite length_segs_octets; lia)) as Hg.
    unfold parse_ss_host. cbn [Z.eqb ATYP_IPV4 ATYP_IPV6 Pos.eqb app] in *. rewrite Hg, segs_octets_back. cbn [length].
    by rewrite length_segs_octets, Hl. }
  destruct Hh as [(Hu & _ & Hne & _)|[[? ?]|[? ?]]]; [|congruence..].
  rewrite (parse_ip_none _ E4 E6). unfold parse_ss_host. cbn [Z.eqb ATYP_IPV4 ATYP_IPV6 ATYP_DOMAIN Pos.eqb app lookup list_lookup].
  rewrite zlen_to_nat. destruct (Nat.eqb_spec (length host) 0) as [E0|_]; [by destruct host|].
  pose proof (get_range_mid [ATYP_DOMAIN; zlen host] host t 2 (2 + length host) eq_refl eq_refl) as Hg. cbn [app ATYP_DOMAIN] in Hg.
  rewrite Hg, Hu, (parse_ip_none _ E4 E6). done.
Qed.

Lemma parse_ss_encoded host port data :
  host_ok host → port_ok port →
  parse_ss_address (encode_address host port ++ data) = Ok (peer_text host port, length (encode_address host port)).
Proof.
  intros Hh Hp. destruct (match parse_ipv4 host with
                   | Some os => (ATYP_IPV4, [], os)
                   | None => match parse_ipv6 host with Some gs => (ATYP_IPV6, [], segs_octets gs) | None => (ATYP_DOMAIN, [zlen host], host) end
                   end) as [[atyp len] b] eqn:E.
  assert (encode_address host port = atyp :: len ++ b ++ to_be 2 port) as Ee.
  { unfold encode_address. destruct (parse_ipv4 host) eqn:E4; [by simplify_eq|]. destruct (parse_ipv6 host) eqn:E6; [by simplify_eq|].
    simplify_eq. cbn [app]. repeat f_equal. apply wrap_small. destruct Hh as [(_ & _ & _ & Hl)|[[? ?]|[? ?]]]; [|congruence..]. unfold zlen. lia. }
  rewrite Ee. unfold parse_ss_address. cbn [app]. rewrite <-!app_assoc. rewrite (parse_ss_host_encoded host _ _ _ _ Hh (eq_sym E)).
  pose proof (length_to_be 2 port) as H2. 
  replace (atyp :: len ++ b ++ to_be 2 port ++ data) with ((atyp :: len ++ b) ++ to_be 2 port ++ data) by (cbn; by rewrite <-app_assoc).
  rewrite get_range_mid by (done || by rewrite H2). rewrite from_be_port by done. f_equal. f_equal.
  - unfold peer_text. by destruct (parse_ip host).
  - cbn [length]. rewrite !length_app, H2. lia.
Qed.

(** ** The stream proxy at work *)

(** What the handler reads of an encoded address: no brackets are put on. *)
Definition stream_text (host : bytes) (port : Z) : bytes := canon host ++ [ch_colon] ++ show_int port.

Lemma read_ss_encoded host port rest t :
  host_ok host → port_ok port →
  read_ss_address (talk (encode_address host port ++ rest) t) = (Ok (stream_text host port), talk rest t).
Proof.
  intros Hh Hp. destruct (read_encoded_address host port rest t Hh Hp) as (atyp & body & E & Hr & _). rewrite E.
  unfold read_ss_address. rewrite (cbind_ok _ _ _ [atyp] (talk (body ++ rest) t)) by (by apply (h_read_talk 1 [atyp])). rewrite from_be_one.
  unfold read_address in Hr. unfold cbind at 1 in Hr. unfold cbind at 1.
  match type of Hr with (let (_, _) := ?m in _) = _ => destruct m as [[h|e] c1]; [|by simplify_eq] end.
  unfold cbind in Hr |- *. destruct (h_read 2 c1) as [[p|e] c2]; [|by simplify_eq]. unfold cret in *. by simplify_eq.
Qed.

Section exchange.
Context (o : HandlerOptions) (chain_dial : bytes → result ChainError Conn).

(** What the handler does about a target, with [up] following the header. *)
Definition stream_outcome (target up : bytes) : result HandlerError () * list Event :=
  if negb (may "tcp" o target) || bypassed o target then (Err Forbidden, [])
  else
    match chain_dial target with
    | Ok cc => (Ok tt, [Dialled target; Spliced (talk up []) cc])
    | Err e => (Err (ChainFailed e), [Dialled target])
    end.

(** The connector's request against the handler, on the plaintext of their
    stream: the bytes the connector writes for an address make the handler
    decide about exactly that host and port, and what follows the header is
    spliced untouched to the connection it dials. A target that is an IPv6
    literal without brackets is always refused: the handler puts its address and
    port together without brackets, which the permission check cannot read. *)
Theorem shadow_exchange address host p port up down :
  rsplit_once ch_colon address = Some (host, p) → parse_u16 p = Some port → host_ok host →
  ∃ header, shadow_connect address (talk down []) = (Ok tt, talk down header)
    ∧ shadow_handle o chain_dial (mkWorld (talk (header ++ up) []) [])
      = (let '(r, tr) := stream_outcome (stream_text host port) up in (r, mkWorld (talk up []) tr))
    ∧ (parse_ipv4 host = None → is_Some (parse_ipv6 host) → stream_outcome (stream_text host port) up = (Err Forbidden, [])).
Proof.
  intros Hs Hp Hh. destruct (encode_ss_address_parts _ _ _ _ Hs Hp) as [He Hpo]. exists (encode_address host port). split_and!.
  - unfold shadow_connect. rewrite He. done.
  - unfold shadow_handle. erewrite abind_ok; [|apply say_ok; by apply read_ss_encoded].
    unfold stream_outcome. destruct (may "tcp" o (stream_text host port)); cbn [negb orb]; [|done].
    destruct (bypassed o (stream_text host port)); [done|]. erewrite abind_ok; [|reflexivity]. by destruct (chain_dial _).
  - intros E4 [gs E6]. unfold stream_outcome, stream_text, canon. rewrite E4, E6, can_ipv6_unbracketed by (by eapply parse_ipv6_ok). done.
Qed.

End exchange.

Lemma shadow_exchange_witness :
  (∃ header, shadow_connect (str "example.org:443") (talk [] []) = (Ok tt, talk [] header)
    ∧ shadow_handle (mkOptions [] None None None None 0 0) (λ _, Ok (talk (str "hi") [])) (mkWorld (talk (header ++ str "GET") []) [])
      = (Ok tt, mkWorld (talk (str "GET") []) [Dialled (str "example.org:443"); Spliced (talk (str "GET") []) (talk (str "hi") [])])).
Proof.
  destruct (shadow_exchange (mkOptions [] None None None None 0 0) (λ _, Ok (talk (str "hi") []))
    (str "example.org:443") (str "example.org") (str "443") 443 (str "GET") []) as (h & H1 & H2 & _).
  - vm_compute. reflexivity.
  - vm_compute. reflexivity.
  - apply host_ok_dec_intro. vm_compute. reflexivity.
  - exists h. split; [exact H1|]. rewrite H2. vm_compute. reflexivity.
Defined.

(** ** Datagrams at work *)

Section datagrams.
Context (x : Crypto) `{!AeadOk x}.

Definition salt_ok (k : Keyed) (salt : bytes) : Prop := length salt = key_size k.1.

Lemma open_seal k salt plain :
  salt_ok k salt → zlen plain ≤ 65536 →
  ∃ packet, seal_udp_datagram x k salt plain = Ok packet ∧ open_udp_datagram x k packet = Ok plain
    ∧ (length packet ≤ length plain + 48)%nat.
Proof using Type*.
  intros Hs Hl. unfold seal_udp_datagram, open_udp_datagram, from_salt, seal, open. destruct (is_plain k.1).
  { eexists. split_and!; [done|done|lia]. }
  assert (key_size k.1 ≤ 32)%nat as Hks by (destruct (k.1); cbn; lia).
  destruct (hkdf_some salt (k.2) (key_size k.1) Hks) as [sub Esub]. rewrite Esub. cbn [fst snd].
  destruct (encrypt_some (k.1) sub UDP_NONCE plain Hl) as [body Eb]. rewrite Eb. eexists. split; [done|].
  pose proof (encrypt_length _ _ _ _ _ Eb) as El. unfold salt_ok in Hs. rewrite length_app.
  destruct (Nat.ltb_spec (length salt + length body) (key_size k.1 + TAG_LEN)); [unfold TAG_LEN in *; lia|].
  rewrite <-Hs, take_app_length, drop_app_length, Hs, Esub. cbn [fst snd]. rewrite (decrypt_encrypt _ _ _ _ _ Eb).
  split; [done|]. unfold TAG_LEN in *. lia.
Qed.

(** A datagram that was encoded decodes to its target, in canonical form, and
    its payload. *)
Lemma decode_encode k salt target host port payload :
  salt_ok k salt → target_parts target = Some (host, port) → host_ok host →
  zlen (encode_address host port ++ payload) ≤ 65536 →
  ∃ packet, encode_to x k salt target payload = Ok packet ∧ decode_from x k packet = Ok (peer_text host port, payload)
    ∧ open_udp_datagram x k packet = Ok (encode_address host port ++ payload)
    ∧ (length packet ≤ length (encode_address host port ++ payload) + 48)%nat.
Proof using Type*.
  intros Hs Ht Hh Hl. destruct (encode_ss_target_parts _ _ _ Ht) as [He Hp].
  destruct (open_seal k salt _ Hs Hl) as (packet & Eseal & Eopen & Hlen). exists packet. unfold encode_to, decode_from.
  rewrite He, Eseal, Eopen. cbn [io_result]. rewrite parse_ss_encoded by done. by rewrite drop_app_length.
Qed.

(** *** The relay *)

Section relay_run.
Context (k : Keyed) (o : HandlerOptions) (lookup_host : bytes → Z → list Scoped).

Lemma ssu_route_spec target a :
  ssu_route o lookup_host target = Some a →
  resolve_udp_addr lookup_host target = Some a
  ∧ udp_dst_allowed o target = true ∧ udp_dst_allowed o (show_scoped a) = true.
Proof.
  unfold ssu_route. destruct (udp_dst_allowed o target) eqn:E1; cbn [negb]; [|done].
  destruct (resolve_udp_addr lookup_host target) as [b|]; [|done]. case_bool_decide as Eb; cbn [negb andb].
  - intros [= <-]. rewrite Eb. by split_and!.
  - destruct (udp_dst_allowed o (show_scoped b)) eqn:E2; cbn [negb]; [|done]. intros [= <-]. by split_and!.
Qed.

(** A datagram sent on was allowed, twice. *)
Definition sent_rightly (b data host : bytes) (port : Z) : Prop :=
  ∃ plain target off raddr,
    open_udp_datagram x k (take UDP_MAX_DATAGRAM b) = Ok plain ∧ parse_ss_address plain = Ok (target, off)
    ∧ data = drop off plain ∧ host = show_ip (sa_ip raddr.1) ∧ port = sa_port raddr.1
    ∧ resolve_udp_addr lookup_host target = Some raddr
    ∧ udp_dst_allowed o target = true ∧ udp_dst_allowed o (show_scoped raddr) = true.


(** What the two ends mean by what they send. *)
Inductive Meaning : Set :=
| MSent (target payload : bytes)
| MForged
| MReply (origin : SocketAddr) (data : bytes)
| MGlitch.

Inductive means : SsuEv → Meaning → Prop :=
| means_sent salt target host port payload packet sending :
    salt_ok k salt → target_parts target = Some (host, port) → host_ok host →
    zlen (encode_address host port ++ payload) ≤ 65488 → encode_to x k salt target payload = Ok packet →
    means (FromClient (Ok packet) sending) (MSent (peer_text host port) payload)
| means_forged b sending :
    b ≠ [] → (∀ plain r, open_udp_datagram x k (take UDP_MAX_DATAGRAM b) = Ok plain → parse_ss_address plain ≠ Ok r) →
    means (FromClient (Ok b) sending) MForged
| means_reply a data salt :
    salt_ok k salt → ip_ok (sa_ip a) → port_ok (sa_port a) → zlen data ≤ 65507 →
    means (FromTarget (Ok (data, (show_ip (sa_ip a), sa_port a))) salt (Ok tt)) (MReply a data)
| means_glitch e salt writing : means (FromTarget (Err e) salt writing) MGlitch.

(** Never more than 64 receive errors in a row, [n] already. *)
Fixpoint calm (n : nat) (ms : list Meaning) : Prop :=
  match ms with
  | [] => True
  | MGlitch :: ms => (S n ≤ MAX_CONSECUTIVE_RECV_ERRORS)%nat ∧ calm (S n) ms
  | MReply _ _ :: ms => calm 0 ms
  | _ :: ms => calm n ms
  end.

(** What the world outside and the client make of what the relay sends. *)
Inductive Seen : Set :=
| SeenOutside (data host : bytes) (port : Z)
| SeenByClient (r : result HandlerError (bytes * bytes)).
Definition seen (out : SsuOut) : Seen :=
  match out with
  | Forwarded data host port => SeenOutside data host port
  | Returned packet => SeenByClient (decode_from x k packet)
  end.

Definition expected (m : Meaning) : list Seen :=
  match m with
  | MSent target payload =>
      match ssu_route o lookup_host target with
      | Some (a, _) => [SeenOutside payload (show_ip (sa_ip a)) (sa_port a)]
      | None => []
      end
  | MReply a data => if bypassed o (show_addr a) then [] else [SeenByClient (Ok (show_addr a, data))]
  | MForged | MGlitch => []
  end.

Lemma turn_sent n packet sending target host port payload :
  open_udp_datagram x k packet = Ok (encode_address host port ++ payload) → host_ok host → port_ok port →
  packet ≠ [] → (length packet ≤ UDP_MAX_DATAGRAM)%nat → target = peer_text host port →
  ∃ out, ssu_turn x k o lookup_host n (FromClient (Ok packet) sending) = (inr n, out)
    ∧ seen <$> out = expected (MSent target payload).
Proof.
  intros Ho Hh Hp Hne Hl ->. cbn [ssu_turn expected]. destruct packet as [|y packet]; [done|]. rewrite firstn_all2 by lia.
  rewrite Ho, parse_ss_encoded by done. destruct (ssu_route _ _ _) as [[a sc]|]; [|by exists []].
  rewrite drop_app_length. eexists. by split.
Qed.

Lemma origin_parts a : ip_ok (sa_ip a) → port_ok (sa_port a) → target_parts (show_addr a) = Some (show_ip (sa_ip a), sa_port a).
Proof. intros Hi Hp. unfold target_parts. by rewrite parse_show_addr. Qed.

Lemma encode_ip_length a : ip_ok (sa_ip a) → (length (encode_address (show_ip (sa_ip a)) (sa_port a)) ≤ 19)%nat.
Proof.
  intros Hi. rewrite <-encode_socket_addr by done. unfold encode_ss_socket_addr. rewrite length_app, length_to_be.
  destruct (sa_ip a) as [os|gs]; destruct Hi as [Hl _]; cbn [length]; rewrite ?length_segs_octets; lia.
Qed.

Lemma peer_text_ip a : ip_ok (sa_ip a) → peer_text (show_ip (sa_ip a)) (sa_port a) = show_addr a.
Proof. intros Hi. unfold peer_text. rewrite parse_show_ip by done. by destruct a. Qed.

Lemma turn_means n ev m :
  means ev m → calm n [m] →
  ∃ n' out, ssu_turn x k o lookup_host n ev = (inr n', out) ∧ seen <$> out = expected m ∧ (∀ ms, calm n (m :: ms) → calm n' ms).
Proof using Type*.
  intros Hm Hc. inversion Hm as [salt target host port payload packet sending Hs Ht Hh Hl He|b sending Hne Hf|a data salt Hs Hi Hp Hl|e salt w]; subst.
  - destruct (decode_encode k salt target host port payload Hs Ht Hh ltac:(lia)) as (pk & E1 & _ & E2 & E3).
    rewrite He in E1. injection E1 as <-. destruct (encode_ss_target_parts _ _ _ Ht) as [_ Hp].
    assert (packet ≠ []) as Hne.
    { intros ->. unfold open_udp_datagram in E2. destruct (is_plain k.1) eqn:Ep; [|by destruct (k.1)].
      injection E2 as E2. destruct (encode_address_body host port Hh) as (a & l & b & _ & Eb). by rewrite Eb in E2. }
    destruct (turn_sent n packet sending (peer_text host port) host port payload E2 Hh Hp Hne) as (out & Eo & Hv).
    { unfold zlen, UDP_MAX_DATAGRAM in *. lia. } { done. }
    exists n, out. split_and!; [done|done|by intros ms].
  - exists n, []. split_and!; [|done|by intros ms]. cbn [ssu_turn]. destruct b as [|y b]; [done|].
    destruct (open_udp_datagram _ _ _) as [plain|] eqn:Eo; [|done]. destruct (parse_ss_address plain) as [[t off]|] eqn:Ep; [|done].
    by destruct (Hf plain (t, off) eq_refl).
  - exists 0%nat. cbn [ssu_turn expected]. rewrite <-show_addr_join by done.
    destruct (bypassed o (show_addr a)); [by exists []|].
    pose proof (origin_parts a Hi Hp) as Ht.
    destruct (decode_encode k salt (show_addr a) _ _ data Hs Ht (show_ip_host_ok _ Hi)) as (pk & E1 & E2 & _ & _).
    { pose proof (encode_ip_length a Hi). unfold zlen in *. rewrite length_app. lia. }
    rewrite E1. eexists. split_and!; [done| |by intros ms]. cbn [fmap list_fmap seen]. by rewrite E2, peer_text_ip.
  - destruct Hc as [Hc _]. exists (S n), []. cbn [ssu_turn]. destruct (Nat.ltb_spec MAX_CONSECUTIVE_RECV_ERRORS (S n)); [lia|].
    split_and!; [done|done|by intros ms [_ ?]].
Qed.

(** The relay between a client and the world, with garbage mixed in and a
    socket that glitches, but not more than 64 times in a row: it keeps going;
    every datagram the client encodes leaves, with its payload intact, for the
    address its target resolves to, when the rules allow that; every datagram of
    the world that is not bypassed is decoded by the client to its origin and its
    data; all in the order they came, and nothing else is sent. *)
Theorem ssu_relays evs ms :
  Forall2 means evs ms → calm 0 ms →
  ∃ outs, ssu_relay x k o lookup_host 0 evs = (None, outs) ∧ seen <$> outs = concat (expected <$> ms).
Proof using Type*.
  intros Hm. generalize 0%nat as n. induction Hm as [|ev m evs ms Hev Hm IH]; intros n Hc; [by exists []|].
  destruct (turn_means n ev m Hev) as (n' & out & Et & Hs & Hn); [destruct m; by try destruct Hc|].
  destruct (IH n' (Hn ms Hc)) as (outs & Er & Ho). exists (out ++ outs). cbn [ssu_relay]. rewrite Et, Er. split; [done|].
  by rewrite fmap_app, Hs, Ho.
Qed.

End relay_run.

End datagrams.

(** A relay that may not send to 10.0.0.9. *)
Definition demo_keyed : Keyed := (Aes128Gcm, demo_key).
Definition demo_rules : HandlerOptions :=
  mkOptions [] None None None
    (Some (contains (λ _ _, false) go_glob (from_patterns (λ _, None (A := ())) false [str "10.0.0.9"; str "2001:db8::1"]))) 0 0.
Definition demo_lookup (host : bytes) (port : Z) : list Scoped :=
  if bool_decide (host = str "hidden.example") then [(mkAddr (V4 [10; 0; 0; 9]) port, 0)] else [(mkAddr (V4 [10; 0; 0; 1]) port, 0)].
Definition demo_packet (target data : string) : bytes :=
  match encode_to toy demo_keyed (replicate 16 5) (str target) (str data) with Ok b => b | Err _ => [] end.
Definition demo_events : list SsuEv :=
  [FromClient (Ok (demo_packet "name.example:53" "query")) (Ok tt);
   FromClient (Ok (str "garbage")) (Ok tt);
   FromClient (Ok (demo_packet "hidden.example:53" "query")) (Ok tt);
   FromTarget (Err (IoError ConnectionReset "reset")) [] (Ok tt);
   FromTarget (Ok (str "answer", (str "10.0.0.1", 53))) (replicate 16 6) (Ok tt)].


Lemma ssu_relays_witness :
  ∃ outs, ssu_relay toy demo_keyed demo_rules demo_lookup 0 demo_events = (None, outs)
    ∧ seen toy demo_keyed <$> outs
      = [SeenOutside (str "query") (str "10.0.0.1") 53; SeenByClient (Ok (str "10.0.0.1:53", str "answer"))].
Proof.
  destruct (ssu_relays toy demo_keyed demo_rules demo_lookup demo_events
    [MSent (str "name.example:53") (str "query"); MForged; MSent (str "hidden.example:53") (str "query"); MGlitch;
     MReply (mkAddr (V4 [10; 0; 0; 1]) 53) (str "answer")]) as (outs & E & Hs).
  - unfold demo_events. constructor.
    { apply (means_sent toy demo_keyed (replicate 16 5) (str "name.example:53") (str "name.example") 53);
        [reflexivity|vm_compute; reflexivity|apply host_ok_dec_intro; vm_compute; reflexivity|vm_compute; by intros|vm_compute; reflexivity]. }
    constructor.
    { apply means_forged; [done|]. intros plain r H. vm_compute in H. discriminate H. }
    constructor.
    { apply (means_sent toy demo_keyed (replicate 16 5) (str "hidden.example:53") (str "hidden.example") 53);
        [reflexivity|vm_compute; reflexivity|apply host_ok_dec_intro; vm_compute; reflexivity|vm_compute; by intros|vm_compute; reflexivity]. }
    constructor; [apply means_glitch|]. constructor; [|constructor].
    apply (means_reply toy demo_keyed (mkAddr (V4 [10; 0; 0; 1]) 53)); [reflexivity|split; [reflexivity|repeat constructor; lia]|
      vm_compute; by split|vm_compute; by intros].
  - split; [unfold MAX_CONSECUTIVE_RECV_ERRORS; lia|done].
  - exists outs. split; [exact E|]. rewrite Hs. vm_compute. reflexivity.
Defined.

(** A target that names an IPv6 address with a scope is checked as that text, in
    which no rule finds the address, and sent to the address without the scope:
    the rule for 2001:db8::1 stops the address as such and under the domain
    type, but not with "%1" behind it. *)
Example scope_evades_rules :
  udp_dst_allowed demo_rules (str "[2001:db8::1]:53") = false
  ∧ udp_dst_allowed demo_rules (str "[2001:db8::1%1]:53") = true
  ∧ ssu_route demo_rules demo_lookup (str "[2001:db8::1]:53") = None
  ∧ ∃ plain, parse_ss_address plain = Ok (str "[2001:db8::1%1]:53", 19%nat)
      ∧ fst <$> ssu_route demo_rules demo_lookup (str "[2001:db8::1%1]:53") = Some (mkAddr (V6 [8193; 3512; 0; 0; 0; 0; 0; 1]) 53).
Proof.
  split_and!; [vm_compute; reflexivity..|].
  exists ([3; 15] ++ str "[2001:db8::1%1]" ++ [0; 53]). split; vm_compute; reflexivity.
Qed.

End Shadow.
