(* ===== verification/Dns.v ===== *)
(** * DNS messages

    The wire format of src/resolver.rs: names with compression pointers,
    questions, records and messages, EDNS0 client subnets, the ID patch. A name
    is the text of its labels, each with a dot behind it. *)

From stdpp Require Import base list option numbers strings sets pretty.
From Stdlib Require Import ZArith Lia.
From S2P Require Import Prelude Text Utf8 IpAddr.

Module Dns.

Definition CLASS_IN : Z := 1.
Definition CLASS_CH : Z := 3.
Definition CLASS_HS : Z := 4.
Definition CLASS_ANY : Z := 255.
Definition TYPE_A : Z := 1.
Definition TYPE_NS : Z := 2.
Definition TYPE_CNAME : Z := 5.
Definition TYPE_SOA : Z := 6.
Definition TYPE_PTR : Z := 12.
Definition TYPE_MX : Z := 15.
Definition TYPE_TXT : Z := 16.
Definition TYPE_AAAA : Z := 28.
Definition TYPE_SRV : Z := 33.
Definition TYPE_OPT : Z := 41.
Definition TYPE_ANY : Z := 255.
Definition EDNS0_SUBNET : Z := 8.
Definition FLAG_RD : Z := 256.
Definition FLAG_QR : Z := 32768.
Definition DEFAULT_UDP_SIZE : Z := 1232.

(** A message of an error, from text. *)
Definition text (b : bytes) : string := String.string_of_list_ascii ((λ z, Ascii.ascii_of_N (Z.to_N z)) <$> b).

Definition wire_err (msg : string) : io_error := IoError InvalidData msg.

Definition class_name (class : Z) : bytes :=
  if class =? CLASS_IN then str "IN"
  else if class =? CLASS_CH then str "CH"
  else if class =? CLASS_HS then str "HS"
  else if class =? CLASS_ANY then str "ANY"
  else str "CLASS" ++ show_int class.

Definition type_name (t : Z) : bytes :=
  if t =? TYPE_A then str "A"
  else if t =? TYPE_NS then str "NS"
  else if t =? TYPE_CNAME then str "CNAME"
  else if t =? TYPE_SOA then str "SOA"
  else if t =? TYPE_PTR then str "PTR"
  else if t =? TYPE_MX then str "MX"
  else if t =? TYPE_TXT then str "TXT"
  else if t =? TYPE_AAAA then str "AAAA"
  else if t =? TYPE_SRV then str "SRV"
  else if t =? TYPE_OPT then str "OPT"
  else if t =? TYPE_ANY then str "ANY"
  else str "TYPE" ++ show_int t.

Definition fqdn (name : bytes) : bytes :=
  match last name with Some c => if c =? ch_dot then name else name ++ [ch_dot] | None => [ch_dot] end.

Definition be16 (b : bytes) (pos : nat) : result io_error Z :=
  if (length b <? pos + 2)%nat then Err (wire_err "short read (u16)") else Ok (from_be (take 2 (drop pos b))).
Definition be32 (b : bytes) (pos : nat) : result io_error Z :=
  if (length b <? pos + 4)%nat then Err (wire_err "short read (u32)") else Ok (from_be (take 4 (drop pos b))).

(** ** Names *)

Fixpoint encode_labels (labels : list bytes) : result io_error bytes :=
  match labels with
  | [] => Ok [0]
  | [] :: labels => encode_labels labels
  | label :: labels =>
      if (63 <? length label)%nat then Err (wire_err ("label too long: " +:+ text label))
      else rest <-? encode_labels labels ;; Ok (u8 (zlen label) :: label ++ rest)
  end.
Definition encode_name (name : bytes) : result io_error bytes := encode_labels (split_char ch_dot name).

(** What stands at a position: the end of the name, a label with what follows
    it, a pointer with what follows it, or nothing sensible. *)
Inductive At : Set :=
| AtEnd
| AtLabel (label : bytes) (next : nat)
| AtPointer (target : nat)
| AtError (e : io_error).

Definition name_at (b : bytes) (pos : nat) : At :=
  match b !! pos with
  | None => AtError (wire_err "truncated name")
  | Some len =>
      if len =? 0 then AtEnd
      else if Z.land len 192 =? 0 then
        let n := Z.to_nat len in
        if (length b <? pos + 1 + n)%nat then AtError (wire_err "truncated label")
        else AtLabel (take n (drop (pos + 1) b)) (pos + 1 + n)
      else if Z.land len 192 =? 192 then
        match b !! (pos + 1)%nat with
        | None => AtError (wire_err "truncated compression pointer")
        | Some low =>
            let ptr := Z.to_nat (Z.lor (Z.shiftl (Z.land len 63) 8) low) in
            if (length b <=? ptr)%nat then AtError (wire_err "compression pointer out of range") else AtPointer ptr
        end
      else AtError (wire_err "reserved label type")
  end.

Fixpoint decode_name_loop (budget : nat) (b name : bytes) (pos end_pos : nat) (jumped : bool) :
    result io_error (bytes * nat) :=
  match budget with
  | O => Err (wire_err "compression pointer loop")
  | S budget =>
      match name_at b pos with
      | AtError e => Err e
      | AtEnd =>
          let end_pos := if jumped then end_pos else (pos + 1)%nat in
          Ok (match name with [] => [ch_dot] | _ => name end, end_pos)
      | AtLabel label next => decode_name_loop budget b (name ++ from_utf8_lossy label ++ [ch_dot]) next end_pos jumped
      | AtPointer ptr =>
          let end_pos := if jumped then end_pos else (pos + 2)%nat in decode_name_loop budget b name ptr end_pos true
      end
  end.
Definition decode_name (b : bytes) (start : nat) : result io_error (bytes * nat) :=
  decode_name_loop (length b + 1) b [] start start false.

(** ** Messages *)

Record Question : Set := mkQuestion { q_name : bytes; qtype : Z; qclass : Z }.
Definition Question_new (name : bytes) (qtype : Z) : Question := mkQuestion (fqdn name) qtype CLASS_IN.

Record Rr : Set := mkRr { r_name : bytes; rtype : Z; rclass : Z; ttl : Z; rdata : bytes }.

Definition as_a (r : Rr) : option IpAddr :=
  if negb (rtype r =? TYPE_A) || negb (length (rdata r) =? 4)%nat then None else Some (V4 (rdata r)).
Definition as_aaaa (r : Rr) : option IpAddr :=
  if negb (rtype r =? TYPE_AAAA) || negb (length (rdata r) =? 16)%nat then None else Some (V6 (octets_segs (rdata r))).

Record Message : Set := mkMessage {
  id : Z; flags : Z; questions : list Question; answers : list Rr; authorities : list Rr; additionals : list Rr }.

#[export] Instance Question_eq_dec : EqDecision Question.
Proof. solve_decision. Defined.
#[export] Instance Rr_eq_dec : EqDecision Rr.
Proof. solve_decision. Defined.
#[export] Instance Message_eq_dec : EqDecision Message.
Proof. solve_decision. Defined.

Definition query (id : Z) (name : bytes) (qtype : Z) : Message := mkMessage id FLAG_RD [Question_new name qtype] [] [] [].

Definition is_response (m : Message) : bool := negb (Z.land (flags m) FLAG_QR =? 0).
Definition rcode (m : Message) : Z := Z.land (flags m) 15.

Fixpoint encode_all {A} (enc : A → result io_error bytes) (l : list A) : result io_error bytes :=
  match l with
  | [] => Ok []
  | a :: l => x <-? enc a ;; rest <-? encode_all enc l ;; Ok (x ++ rest)
  end.

Definition encode_question (q : Question) : result io_error bytes :=
  name <-? encode_name (q_name q) ;; Ok (name ++ to_be 2 (qtype q) ++ to_be 2 (qclass q)).
Definition encode_rr (r : Rr) : result io_error bytes :=
  name <-? encode_name (r_name r) ;;
  if u16_max <? zlen (rdata r) then Err (wire_err "rdata too long")
  else Ok (name ++ to_be 2 (rtype r) ++ to_be 2 (rclass r) ++ to_be 4 (ttl r) ++ to_be 2 (zlen (rdata r)) ++ rdata r).

Definition count {A} (l : list A) : bytes := to_be 2 (u16 (zlen l)).

Definition encode (m : Message) : result io_error bytes :=
  qs <-? encode_all encode_question (questions m) ;;
  rs <-? encode_all encode_rr (answers m ++ authorities m ++ additionals m) ;;
  Ok (to_be 2 (id m) ++ to_be 2 (flags m) ++ count (questions m) ++ count (answers m) ++ count (authorities m)
      ++ count (additionals m) ++ qs ++ rs).

(** A section of [n] entries from [pos] on, and where it ends. *)
Fixpoint decode_all {A} (dec : bytes → nat → result io_error (A * nat)) (n : nat) (b : bytes) (pos : nat) :
    result io_error (list A * nat) :=
  match n with
  | O => Ok ([], pos)
  | S n => x <-? dec b pos ;; rest <-? decode_all dec n b x.2 ;; Ok (x.1 :: rest.1, rest.2)
  end.

Definition decode_question (b : bytes) (pos : nat) : result io_error (Question * nat) :=
  nm <-? decode_name b pos ;;
  qtype <-? be16 b nm.2 ;;
  qclass <-? be16 b (nm.2 + 2) ;;
  Ok (mkQuestion nm.1 qtype qclass, (nm.2 + 4)%nat).
Definition decode_rr (b : bytes) (pos : nat) : result io_error (Rr * nat) :=
  nm <-? decode_name b pos ;;
  let pos := nm.2 in
  rtype <-? be16 b pos ;;
  rclass <-? be16 b (pos + 2) ;;
  ttl <-? be32 b (pos + 4) ;;
  rdlen <-? be16 b (pos + 8) ;;
  let pos := (pos + 10)%nat in
  let n := Z.to_nat rdlen in
  if (length b <? pos + n)%nat then Err (wire_err "truncated rdata")
  else Ok (mkRr nm.1 rtype rclass ttl (take n (drop pos b)), (pos + n)%nat).

Definition decode (b : bytes) : result io_error Message :=
  if (length b <? 12)%nat then Err (wire_err "message shorter than DNS header")
  else
    id <-? be16 b 0 ;;
    flags <-? be16 b 2 ;;
    qdcount <-? be16 b 4 ;;
    ancount <-? be16 b 6 ;;
    nscount <-? be16 b 8 ;;
    arcount <-? be16 b 10 ;;
    qs <-? decode_all decode_question (Z.to_nat qdcount) b 12 ;;
    an <-? decode_all decode_rr (Z.to_nat ancount) b qs.2 ;;
    ns <-? decode_all decode_rr (Z.to_nat nscount) b an.2 ;;
    ar <-? decode_all decode_rr (Z.to_nat arcount) b ns.2 ;;
    Ok (mkMessage id flags qs.1 an.1 ns.1 ar.1).

Definition edns0_udp_size (m : Message) : option Z :=
  rclass <$> head (filter (λ r, rtype r = TYPE_OPT) (additionals m)).
Definition remove_opt (m : Message) : Message :=
  mkMessage (id m) (flags m) (questions m) (answers m) (authorities m) (filter (λ r, rtype r ≠ TYPE_OPT) (additionals m)).
Definition push_additional (r : Rr) (m : Message) : Message :=
  mkMessage (id m) (flags m) (questions m) (answers m) (authorities m) (additionals m ++ [r]).

Definition answer_ips (m : Message) : list IpAddr :=
  concat ((λ r, option_list (as_aaaa r) ++ option_list (as_a r)) <$> answers m).
Definition min_answer_ttl (m : Message) : option Z :=
  match ttl <$> answers m with [] => None | t :: ts => Some (foldl Z.min t ts) end.

Definition set_msg_id (b : bytes) (id : Z) : bytes :=
  if (2 <=? length b)%nat then to_be 2 id ++ drop 2 b else b.

Definition edns0_subnet_opt (src : IpAddr) (udp_size : Z) : Rr :=
  let '(family, netmask, addr) := match src with V4 os => (1, 32, os) | V6 gs => (2, 128, segs_octets gs) end in
  let option := to_be 2 family ++ [netmask; 0] ++ addr in
  mkRr [ch_dot] TYPE_OPT udp_size 0 (to_be 2 EDNS0_SUBNET ++ to_be 2 (zlen option) ++ option).

(** The options of a record; each takes four bytes at least. *)
Fixpoint parse_subnet_loop (fuel : nat) (d : bytes) : option (Z * Z * bytes) :=
  match fuel with
  | O => None
  | S fuel =>
      if (length d <? 4)%nat then None
      else
        let code := from_be (take 2 d) in
        let len := Z.to_nat (from_be (take 2 (drop 2 d))) in
        let d := drop 4 d in
        if (length d <? len)%nat then None
        else if (code =? EDNS0_SUBNET) && (4 <=? len)%nat then
          Some (from_be (take 2 d), nth 2 d 0, take (len - 4) (drop 4 d))
        else parse_subnet_loop fuel (drop len d)
  end.
Definition parse_edns0_subnet (r : Rr) : option (Z * Z * bytes) :=
  if negb (rtype r =? TYPE_OPT) then None else parse_subnet_loop (S (length (rdata r))) (rdata r).

(** A reply with a pointer back to the question's name. *)
Example decode_compressed :
  decode (to_be 2 7 ++ to_be 2 33152 ++ to_be 2 1 ++ to_be 2 1 ++ [0; 0; 0; 0]
          ++ [3] ++ str "www" ++ [2] ++ str "rt" ++ [0] ++ [0; 1; 0; 1]
          ++ [192; 12] ++ [0; 1; 0; 1] ++ to_be 4 60 ++ [0; 4; 10; 0; 0; 1])
  = Ok (mkMessage 7 33152 [mkQuestion (str "www.rt.") 1 1] [mkRr (str "www.rt.") 1 1 60 [10; 0; 0; 1]] [] []).
Proof. vm_compute. reflexivity. Qed.
Example decode_pointer_loop :
  decode_name [192; 2; 192; 0] 0 = Err (wire_err "compression pointer loop").
Proof. vm_compute. reflexivity. Qed.

(** ** What a name is

    [named b pos ls e]: at [pos] stands a name with the labels [ls], which ends
    at [e], whatever pointers lead through the message. *)
Inductive named (b : bytes) : nat → list bytes → nat → Prop :=
| named_end pos : b !! pos = Some 0 → named b pos [] (pos + 1)
| named_label pos len ls e :
    b !! pos = Some len → 0 < len < 64 → (pos + 1 + Z.to_nat len ≤ length b)%nat →
    named b (pos + 1 + Z.to_nat len) ls e →
    named b pos (take (Z.to_nat len) (drop (pos + 1) b) :: ls) e
| named_pointer pos hi lo ls e :
    b !! pos = Some hi → 192 ≤ hi < 256 → b !! (pos + 1)%nat = Some lo → 0 ≤ lo < 256 →
    (Z.to_nat ((hi - 192) * 256 + lo) < length b)%nat →
    named b (Z.to_nat ((hi - 192) * 256 + lo)) ls e →
    named b pos ls (pos + 2).

(** The text of a name. *)
Definition dots (ls : list bytes) : bytes := concat ((λ l, from_utf8_lossy l ++ [ch_dot]) <$> ls).
Definition dotted (ls : list bytes) : bytes := match ls with [] => [ch_dot] | _ => dots ls end.

(** *** Bit tests *)

Lemma byte_cases (P : Z → bool) : forallb P (seqZ 0 256) = true → ∀ x, 0 ≤ x < 256 → P x = true.
Proof. intros H x Hx. rewrite forallb_forall in H. apply H, list_elem_of_In, elem_of_seqZ. lia. Qed.

Lemma land_label x : 0 ≤ x < 256 → (Z.land x 192 =? 0) = (x <? 64).
Proof. intros Hx. apply eqb_prop. revert x Hx. apply (byte_cases (λ x, Bool.eqb (Z.land x 192 =? 0) (x <? 64))). vm_compute. reflexivity. Qed.
Lemma land_pointer x : 0 ≤ x < 256 → (Z.land x 192 =? 192) = (192 <=? x).
Proof. intros Hx. apply eqb_prop. revert x Hx. apply (byte_cases (λ x, Bool.eqb (Z.land x 192 =? 192) (192 <=? x))). vm_compute. reflexivity. Qed.
Lemma pointer_value hi lo : 192 ≤ hi < 256 → 0 ≤ lo < 256 → Z.lor (Z.shiftl (Z.land hi 63) 8) lo = (hi - 192) * 256 + lo.
Proof.
  intros Hh Hl. assert (Z.land hi 63 = hi mod 64) as -> by apply (Z.land_ones hi 6 ltac:(lia)).
  assert (hi mod 64 = hi - 192) as -> by (symmetry; apply Z.mod_unique with 3; lia).
  rewrite Z.shiftl_mul_pow2 by lia. assert (Z.land ((hi - 192) * 2 ^ 8) lo = 0) as H0.
  { apply Z.bits_inj'. intros n Hn. rewrite Z.land_spec, Z.bits_0. destruct (Z.lt_ge_cases n 8).
    - by rewrite Z.mul_pow2_bits_low by lia.
    - assert (Z.testbit lo n = false) as ->; [|apply andb_false_r].
      destruct (Z.eq_dec lo 0) as [->|]; [apply Z.bits_0|]. apply Z.bits_above_log2; [lia|].
      assert (Z.log2 lo < 8) by (apply Z.log2_lt_pow2; lia). lia. }
  by rewrite <-Z.lxor_lor, <-Z.add_nocarry_lxor by done.
Qed.

(** *** Derivations with their size *)

Inductive steps (b : bytes) : nat → nat → list bytes → nat → Prop :=
| steps_end pos : name_at b pos = AtEnd → steps b 1 pos [] (pos + 1)
| steps_label n pos l next ls e : name_at b pos = AtLabel l next → steps b n next ls e → steps b (S n) pos (l :: ls) e
| steps_pointer n pos p ls e : name_at b pos = AtPointer p → steps b n p ls e → steps b (S n) pos ls (pos + 2).

Lemma named_steps b pos ls e : named b pos ls e → ∃ n, steps b n pos ls e.
Proof.
  induction 1 as [pos H|pos len ls e H Hl Hb _ [n IH]|pos hi lo ls e Hhi Hh Hlo Hl Hb _ [n IH]].
  - exists 1%nat. constructor. unfold name_at. by rewrite H.
  - exists (S n). eapply steps_label; [|exact IH]. unfold name_at. rewrite H. destruct (Z.eqb_spec len 0); [lia|].
    rewrite land_label by lia. destruct (Z.ltb_spec len 64); [|lia]. destruct (Nat.ltb_spec (length b) (pos + 1 + Z.to_nat len)); [lia|done].
  - exists (S n). eapply steps_pointer; [|exact IH]. unfold name_at. rewrite Hhi. destruct (Z.eqb_spec hi 0); [lia|].
    rewrite land_label, land_pointer by lia. destruct (Z.ltb_spec hi 64); [lia|]. destruct (Z.leb_spec 192 hi); [|lia].
    rewrite Hlo, pointer_value by lia. destruct (Nat.leb_spec (length b) (Z.to_nat ((hi - 192) * 256 + lo))); [lia|done].
Qed.

Lemma steps_named b n pos ls e : is_bytes b → steps b n pos ls e → named b pos ls e.
Proof.
  intros Hb. induction 1 as [pos H|n pos l next ls e H _ IH|n pos p ls e H _ IH]; unfold name_at in H;
    destruct (b !! pos) as [len|] eqn:E; try done; destruct (Z.eqb_spec len 0) as [->|]; try done;
    try (repeat case_hyp H; by simplify_eq).
  - by constructor.
  - assert (0 ≤ len < 256) as Hlen by (by eapply (Forall_lookup_1 _ _ _ _ Hb)). rewrite land_label, land_pointer in H by done.
    destruct (Z.ltb_spec len 64); [|repeat case_hyp H; by simplify_eq].
    destruct (Nat.ltb_spec (length b) (pos + 1 + Z.to_nat len)); [done|]. simplify_eq. constructor; [done|lia|lia|done].
  - assert (0 ≤ len < 256) as Hlen by (by eapply (Forall_lookup_1 _ _ _ _ Hb)). rewrite land_label, land_pointer in H by done.
    destruct (Z.ltb_spec len 64); [repeat case_hyp H; by simplify_eq|]. destruct (Z.leb_spec 192 len); [|done].
    destruct (b !! (pos + 1)%nat) as [lo|] eqn:El; [|done].
    assert (0 ≤ lo < 256) as Hlo by (by eapply (Forall_lookup_1 _ _ _ _ Hb)). rewrite pointer_value in H by lia.
    destruct (Nat.leb_spec (length b) (Z.to_nat ((len - 192) * 256 + lo))); [done|]. simplify_eq.
    apply (named_pointer _ _ len lo _ e); done || lia.
Qed.

Lemma steps_size b n m pos ls e ls' e' : steps b n pos ls e → steps b m pos ls' e' → n = m.
Proof.
  intros H. revert m ls' e'. induction H as [pos H|n pos l next ls e H _ IH|n pos p ls e H _ IH]; intros m ls' e' H2;
    inversion H2; subst; try congruence; f_equal; eapply IH; congruence || (match goal with K : steps b _ ?q _ _ |- steps b _ ?r _ _ => by replace r with q by congruence end).
Qed.

(** A name is read at pairwise different positions, so there are no more steps
    than bytes: of each position visited, what is left to read is a different
    number of steps. *)
Definition visited (b : bytes) (n : nat) (ps : list nat) : Prop :=
  length ps = n ∧ NoDup ps ∧ Forall (λ p, (p < length b)%nat ∧ ∃ m ls e, (m ≤ n)%nat ∧ steps b m p ls e) ps.

Lemma visit b n pos ls e ps : steps b (S n) pos ls e → visited b n ps → visited b (S n) (pos :: ps).
Proof.
  intros Hs (Hl & Hnd & Hf). split_and!; [by cbn; f_equal|..].
  - constructor; [|done]. intros Hin. rewrite Forall_forall in Hf. apply Hf in Hin as (_ & m & ls' & e' & Hm & Hs').
    pose proof (steps_size _ _ _ _ _ _ _ _ Hs Hs'). lia.
  - constructor.
    + split; [|by exists (S n), ls, e]. assert (∀ err, name_at b pos ≠ AtError err) as Ha by (inversion Hs; congruence).
      unfold name_at in Ha. destruct (b !! pos) eqn:Eq; [by apply lookup_lt_Some in Eq|]. by destruct (Ha _ eq_refl).
    + eapply Forall_impl; [exact Hf|]. intros q (Hq & m & ls' & e' & Hm & Hs'). split; [done|]. exists m, ls', e'. split; [lia|done].
Qed.

Lemma steps_bound b n pos ls e : steps b n pos ls e → (n ≤ length b)%nat.
Proof.
  intros H. assert (∃ ps, visited b n ps) as (ps & <- & Hnd & Hf).
  { induction H as [pos H|n pos l next ls e H Hs [ps IH]|n pos p ls e H Hs [ps IH]].
    - exists [pos]. eapply visit; [by apply steps_end|]. split_and!; [done|apply NoDup_nil_2|done].
    - exists (pos :: ps). eapply visit; [by eapply steps_label|done].
    - exists (pos :: ps). eapply visit; [by eapply steps_pointer|done]. }
  rewrite <-(length_seq (length b) 0). apply submseteq_length, NoDup_submseteq; [done|].
  intros p Hp. rewrite Forall_forall in Hf. apply elem_of_seq. apply Hf in Hp as [? _]. lia.
Qed.

(** ** Decoding names *)

Definition shown (name : bytes) : bytes := match name with [] => [ch_dot] | _ => name end.

Lemma decode_loop_steps b n pos ls e budget name end_pos jumped :
  steps b n pos ls e → (n ≤ budget)%nat →
  decode_name_loop budget b name pos end_pos jumped = Ok (shown (name ++ dots ls), if jumped then end_pos else e).
Proof.
  intros H. revert budget name end_pos jumped.
  induction H as [pos H|n pos l next ls e H Hs IH|n pos p ls e H Hs IH]; intros budget name end_pos jumped Hb;
    (destruct budget as [|budget]; [lia|]); cbn [decode_name_loop]; rewrite H.
  - unfold dots. cbn. by rewrite app_nil_r.
  - rewrite IH by lia. unfold dots. cbn [fmap list_fmap concat]. by rewrite <-!app_assoc.
  - rewrite IH by lia. by destruct jumped.
Qed.

Lemma decode_loop_inv b budget name pos end_pos jumped r :
  decode_name_loop budget b name pos end_pos jumped = Ok r →
  ∃ n ls e, steps b n pos ls e ∧ r = (shown (name ++ dots ls), if jumped then end_pos else e).
Proof.
  revert name pos end_pos jumped. induction budget as [|budget IH]; intros name pos end_pos jumped; cbn [decode_name_loop]; [done|].
  destruct (name_at b pos) as [|l next|p|err] eqn:E; [| | |done].
  - intros [= <-]. exists 1%nat, [], (pos + 1)%nat. split; [by constructor|]. unfold dots. cbn. by rewrite app_nil_r.
  - intros (n & ls & e & Hs & ->)%IH. exists (S n), (l :: ls), e. split; [by econstructor|].
    unfold dots. cbn [fmap list_fmap concat]. by rewrite <-!app_assoc.
  - intros (n & ls & e & Hs & ->)%IH. exists (S n), ls, (pos + 2)%nat. split; [by econstructor|]. by destruct jumped.
Qed.

Lemma shown_dots ls : shown ([] ++ dots ls) = dotted ls.
Proof. destruct ls as [|l ls]; [done|]. cbn [app dotted]. unfold dots. cbn [fmap list_fmap concat]. by destruct (from_utf8_lossy l). Qed.

(** A name is decoded. *)
Lemma decode_named b start ls e : named b start ls e → decode_name b start = Ok (dotted ls, e).
Proof.
  intros [n Hs]%named_steps. pose proof (steps_bound _ _ _ _ _ Hs). unfold decode_name.
  by rewrite (decode_loop_steps b n start ls e) by (done || lia); rewrite shown_dots.
Qed.

(** C13: Names are decoded exactly: a name stands at a position, through any chain
    of compression pointers, if and only if [decode_name] gives its text and
    where it ends. In particular the budget of steps never refuses a name that
    has an end, however often it jumps; what it refuses are pointer loops. *)
Theorem decode_name_exact b start name e :
  is_bytes b → decode_name b start = Ok (name, e) ↔ ∃ ls, named b start ls e ∧ name = dotted ls.
Proof.
  intros Hb. split.
  - intros (n & ls & e' & Hs & [= -> ->])%decode_loop_inv. exists ls. split; [by eapply steps_named|apply shown_dots].
  - intros (ls & H & ->). by apply decode_named.
Qed.

Lemma decode_name_exact_witness :
  (decode_name ([3] ++ str "org" ++ [0; 2] ++ str "rt" ++ [192; 0; 192; 5]) 10 = Ok (str "rt.org.", 12%nat)
   ↔ ∃ ls, named ([3] ++ str "org" ++ [0; 2] ++ str "rt" ++ [192; 0; 192; 5]) 10 ls 12 ∧ str "rt.org." = dotted ls)
  ∧ decode_name ([3] ++ str "org" ++ [0; 2] ++ str "rt" ++ [192; 0; 192; 5]) 10 = Ok (str "rt.org.", 12%nat).
Proof.
  split; [|vm_compute; reflexivity]. apply decode_name_exact. repeat constructor; cbn; lia.
Defined.

(** ** Round trip *)

Definition label_ok (l : bytes) : Prop :=
  utf8_ok l = true ∧ is_bytes l ∧ (ch_dot ∉ l) ∧ (0 < length l ≤ 63)%nat.
Definition name_ok (name : bytes) : Prop := ∃ ls, Forall label_ok ls ∧ name = dotted ls.

Fixpoint labels_wire (ls : list bytes) : bytes :=
  match ls with [] => [0] | l :: ls => zlen l :: l ++ labels_wire ls end.

Lemma dots_ok ls : Forall label_ok ls → dots ls = concat ((λ l, l ++ [ch_dot]) <$> ls).
Proof.
  unfold dots. induction 1 as [|l ls (Hu & _) Hls IH]; [done|]. cbn [fmap list_fmap concat]. by rewrite IH, lossy_valid.
Qed.

Lemma split_dots ls : Forall label_ok ls → split_char ch_dot (concat ((λ l, l ++ [ch_dot]) <$> ls)) = ls ++ [[]].
Proof.
  induction 1 as [|l ls (_ & _ & Hd & _) Hls IH]; [done|]. cbn [fmap list_fmap concat app]. rewrite <-app_assoc. cbn [app].
  by rewrite split_char_app, IH.
Qed.

Lemma encode_labels_ok ls : Forall label_ok ls → encode_labels (ls ++ [[]]) = Ok (labels_wire ls).
Proof.
  induction 1 as [|l ls (_ & _ & _ & Hl) Hls IH]; [done|]. cbn [app encode_labels labels_wire]. destruct l as [|x l]; [cbn in Hl; lia|].
  destruct (Nat.ltb_spec 63 (length (x :: l))); [lia|]. rewrite IH. cbn [rbind]. do 2 f_equal. apply wrap_small. unfold zlen. lia.
Qed.

Lemma encode_name_ok ls : Forall label_ok ls → encode_name (dotted ls) = Ok (labels_wire ls).
Proof.
  intros H. unfold encode_name, dotted. destruct ls as [|l ls]; [done|]. by rewrite dots_ok, split_dots, encode_labels_ok.
Qed.

Lemma named_wire pre ls post :
  Forall label_ok ls → named (pre ++ labels_wire ls ++ post) (length pre) ls (length pre + length (labels_wire ls)).
Proof.
  intros H. revert pre. induction H as [|l ls (_ & _ & _ & Hl) Hls IH]; intros pre; cbn [labels_wire app length].
  { constructor. by rewrite lookup_app_r, Nat.sub_diag by lia. }
  set (b := pre ++ zlen l :: (l ++ labels_wire ls) ++ post). assert (Z.to_nat (zlen l) = length l) as En by (unfold zlen; lia).
  assert (b = (pre ++ zlen l :: l) ++ labels_wire ls ++ post) as Eb by (unfold b; by rewrite <-!app_assoc).
  assert (take (Z.to_nat (zlen l)) (drop (length pre + 1) b) = l) as El.
  { rewrite En. unfold b. rewrite (drop_app_ge pre) by lia. replace (length pre + 1 - length pre)%nat with 1%nat by lia. cbn [drop].
    by rewrite drop_0, <-app_assoc, take_app_length. }
  pose proof (named_label b (length pre) (zlen l) ls (length pre + S (length (l ++ labels_wire ls)))) as Hn.
  rewrite El in Hn. apply Hn.
  - unfold b. by rewrite lookup_app_r, Nat.sub_diag by lia.
  - unfold zlen. lia.
  - rewrite En. unfold b. rewrite length_app. cbn [length]. rewrite !length_app. lia.
  - rewrite En, Eb. specialize (IH (pre ++ zlen l :: l)). rewrite length_app in IH. cbn [length] in IH.
    replace (length pre + 1 + length l)%nat with (length pre + S (length l))%nat by lia.
    replace (length pre + S (length (l ++ labels_wire ls)))%nat with (length pre + S (length l) + length (labels_wire ls))%nat
      by (rewrite length_app; lia). exact IH.
Qed.

(** A piece of the message at its place. *)
Lemma dns_be16_at pre x post pos : 0 ≤ x ≤ u16_max → pos = length pre → be16 (pre ++ to_be 2 x ++ post) pos = Ok x.
Proof.
  intros Hx ->. unfold be16. rewrite !length_app, length_to_be. destruct (Nat.ltb_spec (length pre + (2 + length post)) (length pre + 2)); [lia|].
  rewrite drop_app_length, take_app_le by (rewrite length_to_be; lia). rewrite firstn_all2 by (rewrite length_to_be; lia).
  rewrite from_to_be; [done|]. unfold u16_max in Hx. cbn. lia.
Qed.
Lemma be32_at pre x post pos : 0 ≤ x ≤ u32_max → pos = length pre → be32 (pre ++ to_be 4 x ++ post) pos = Ok x.
Proof.
  intros Hx ->. unfold be32. rewrite !length_app, length_to_be. destruct (Nat.ltb_spec (length pre + (4 + length post)) (length pre + 4)); [lia|].
  rewrite drop_app_length, take_app_le by (rewrite length_to_be; lia). rewrite firstn_all2 by (rewrite length_to_be; lia).
  rewrite from_to_be; [done|]. unfold u32_max in Hx. cbn. lia.
Qed.

(** [codes enc dec a]: what [enc] writes for [a], [dec] reads back where it stands. *)
Definition codes {A} (enc : A → result io_error bytes) (dec : bytes → nat → result io_error (A * nat)) (a : A) : Prop :=
  ∃ w, enc a = Ok w ∧ ∀ pre post, dec (pre ++ w ++ post) (length pre) = Ok (a, (length pre + length w)%nat).

Lemma codes_all {A} enc dec (l : list A) :
  Forall (codes enc dec) l →
  ∃ w, encode_all enc l = Ok w ∧ ∀ pre post, decode_all dec (length l) (pre ++ w ++ post) (length pre) = Ok (l, (length pre + length w)%nat).
Proof.
  induction 1 as [|a l (w & Ew & Hw) Hl (ws & Ews & IH)].
  { exists []. split; [done|]. intros pre post. cbn. by rewrite Nat.add_0_r. }
  exists (w ++ ws). cbn [encode_all]. rewrite Ew, Ews. split; [done|]. intros pre post. cbn [length decode_all].
  rewrite <-app_assoc, Hw. cbn [rbind fst snd]. specialize (IH (pre ++ w) post). rewrite length_app, <-app_assoc in IH.
  rewrite IH. cbn [rbind fst snd]. by rewrite length_app, Nat.add_assoc.
Qed.

Definition u16_ok (x : Z) : Prop := 0 ≤ x ≤ u16_max.
Definition question_ok (q : Question) : Prop := name_ok (q_name q) ∧ u16_ok (qtype q) ∧ u16_ok (qclass q).
Definition rr_ok (r : Rr) : Prop :=
  name_ok (r_name r) ∧ u16_ok (rtype r) ∧ u16_ok (rclass r) ∧ 0 ≤ ttl r ≤ u32_max ∧ zlen (rdata r) ≤ u16_max.

Lemma question_codes q : question_ok q → codes encode_question decode_question q.
Proof.
  intros ((ls & Hls & En) & Ht & Hc). exists (labels_wire ls ++ to_be 2 (qtype q) ++ to_be 2 (qclass q)). split.
  { unfold encode_question. by rewrite En, encode_name_ok. }
  intros pre post. unfold decode_question. rewrite <-!app_assoc. rewrite (decode_named _ _ ls _ (named_wire pre ls _ Hls)). cbn [rbind fst snd].
  pose proof (dns_be16_at (pre ++ labels_wire ls) (qtype q) (to_be 2 (qclass q) ++ post) (length pre + length (labels_wire ls)) Ht) as E1.
  rewrite <-!app_assoc in E1. rewrite E1 by (by rewrite length_app). cbn [rbind].
  pose proof (dns_be16_at (pre ++ labels_wire ls ++ to_be 2 (qtype q)) (qclass q) post (length pre + length (labels_wire ls) + 2) Hc) as E2.
  rewrite <-!app_assoc in E2. rewrite E2 by (rewrite !length_app, length_to_be; lia). cbn [rbind].
  rewrite !length_app, !length_to_be. destruct q as [qn qt qc]; cbn in *; subst. do 2 f_equal. lia.
Qed.

Lemma rr_codes r : rr_ok r → codes encode_rr decode_rr r.
Proof.
  intros ((ls & Hls & En) & Ht & Hc & Hl & Hd). destruct r as [rn rt rc tl rd]; cbn [r_name rtype rclass ttl rdata] in *. subst rn.
  exists (labels_wire ls ++ to_be 2 rt ++ to_be 2 rc ++ to_be 4 tl ++ to_be 2 (zlen rd) ++ rd). split.
  { unfold encode_rr. cbn [r_name rtype rclass ttl rdata]. rewrite encode_name_ok by done. cbn [rbind].
    destruct (Z.ltb_spec u16_max (zlen rd)); [lia|done]. }
  intros pre post. unfold decode_rr. rewrite <-!app_assoc. rewrite (decode_named _ _ ls _ (named_wire pre ls _ Hls)). cbn [rbind fst snd].
  set (p := (length pre + length (labels_wire ls))%nat).
  pose proof (dns_be16_at (pre ++ labels_wire ls) rt (to_be 2 rc ++ to_be 4 tl ++ to_be 2 (zlen rd) ++ rd ++ post) p Ht) as E1.
  pose proof (dns_be16_at (pre ++ labels_wire ls ++ to_be 2 rt) rc (to_be 4 tl ++ to_be 2 (zlen rd) ++ rd ++ post) (p + 2) Hc) as E2.
  pose proof (be32_at (pre ++ labels_wire ls ++ to_be 2 rt ++ to_be 2 rc) tl (to_be 2 (zlen rd) ++ rd ++ post) (p + 4) Hl) as E3.
  pose proof (dns_be16_at (pre ++ labels_wire ls ++ to_be 2 rt ++ to_be 2 rc ++ to_be 4 tl) (zlen rd) (rd ++ post) (p + 8)) as E4.
  rewrite !length_app, <-!app_assoc in E1. rewrite !length_app, !length_to_be, <-!app_assoc in E2.
  rewrite !length_app, !length_to_be, <-!app_assoc in E3. rewrite !length_app, !length_to_be, <-!app_assoc in E4.
  rewrite E1 by (unfold p; lia). cbn [rbind]. rewrite E2 by (unfold p; lia). cbn [rbind]. rewrite E3 by (unfold p; lia). cbn [rbind].
  rewrite E4 by (unfold p; done || (pose proof (zlen_nonneg rd); lia)). cbn [rbind].
  assert (Z.to_nat (zlen rd) = length rd) as -> by (unfold zlen; lia).
  rewrite !length_app, !length_to_be. destruct (Nat.ltb_spec (length pre + (length (labels_wire ls) + (2 + (2 + (4 + (2 + (length rd + length post))))))) (p + 10 + length rd)); [unfold p in *; lia|].
  replace (p + 10)%nat with (length (pre ++ labels_wire ls ++ to_be 2 rt ++ to_be 2 rc ++ to_be 4 tl ++ to_be 2 (zlen rd)))
    by (rewrite !length_app, !length_to_be; unfold p; lia).
  replace (pre ++ labels_wire ls ++ to_be 2 rt ++ to_be 2 rc ++ to_be 4 tl ++ to_be 2 (zlen rd) ++ rd ++ post)
    with ((pre ++ labels_wire ls ++ to_be 2 rt ++ to_be 2 rc ++ to_be 4 tl ++ to_be 2 (zlen rd)) ++ rd ++ post) by (by rewrite <-!app_assoc).
  rewrite drop_app_length, take_app_length. do 2 f_equal. rewrite !length_app, !length_to_be. lia.
Qed.

Lemma encode_all_app {A} (enc : A → result io_error bytes) l1 l2 w1 w2 :
  encode_all enc l1 = Ok w1 → encode_all enc l2 = Ok w2 → encode_all enc (l1 ++ l2) = Ok (w1 ++ w2).
Proof.
  revert w1. induction l1 as [|a l1 IH]; intros w1 H1 H2; cbn [encode_all app] in *; [by simplify_eq|].
  destruct (enc a) as [x|]; [|done]. cbn [rbind] in *. destruct (encode_all enc l1) as [y|]; [|done]. cbn [rbind] in H1. simplify_eq.
  by rewrite (IH _ eq_refl H2), <-app_assoc.
Qed.

Record message_ok (m : Message) : Prop := {
  ok_id : u16_ok (id m);
  ok_flags : u16_ok (flags m);
  ok_questions : Forall question_ok (questions m) ∧ zlen (questions m) ≤ u16_max;
  ok_answers : Forall rr_ok (answers m) ∧ zlen (answers m) ≤ u16_max;
  ok_authorities : Forall rr_ok (authorities m) ∧ zlen (authorities m) ≤ u16_max;
  ok_additionals : Forall rr_ok (additionals m) ∧ zlen (additionals m) ≤ u16_max }.

Lemma count_at {A} (l : list A) pre post pos :
  zlen l ≤ u16_max → pos = length pre → be16 (pre ++ count l ++ post) pos = Ok (zlen l).
Proof.
  intros Hl Hp. pose proof (zlen_nonneg l). unfold count. rewrite wrap_small by (unfold u16_max in Hl; lia). apply dns_be16_at; [split|]; done.
Qed.

Lemma section_at {A} enc dec (l : list A) w pre post :
  Forall (codes enc dec) l → encode_all enc l = Ok w →
  decode_all dec (Z.to_nat (zlen l)) (pre ++ w ++ post) (length pre) = Ok (l, length (pre ++ w)).
Proof.
  intros Hl Hw. destruct (codes_all enc dec l Hl) as (w' & E & Hd). rewrite Hw in E. simplify_eq.
  assert (Z.to_nat (zlen l) = length l) as -> by (unfold zlen; lia). by rewrite Hd, length_app.
Qed.

(** What is encoded decodes to the message. *)
Lemma encode_decode m : message_ok m → ∃ b, encode m = Ok b ∧ decode b = Ok m.
Proof.
  intros [Hid Hfl [Hq Lq] [Ha La] [Hn Ln] [Hr Lr]].
  assert (∀ l, Forall rr_ok l → Forall (codes encode_rr decode_rr) l) as Hrr by (intros l H; eapply Forall_impl; [exact H|apply rr_codes]).
  assert (Forall (codes encode_question decode_question) (questions m)) as Hq' by (eapply Forall_impl; [exact Hq|apply question_codes]).
  destruct (codes_all _ _ _ Hq') as (wq & Eq & _). destruct (codes_all _ _ _ (Hrr _ Ha)) as (wa & Ea & _).
  destruct (codes_all _ _ _ (Hrr _ Hn)) as (wn & En & _). destruct (codes_all _ _ _ (Hrr _ Hr)) as (wr & Er & _).
  unfold encode. rewrite Eq, (encode_all_app _ _ _ _ _ Ea (encode_all_app _ _ _ _ _ En Er)). cbn [rbind]. eexists. split; [reflexivity|].
  set (hd := to_be 2 (id m) ++ to_be 2 (flags m) ++ count (questions m) ++ count (answers m) ++ count (authorities m) ++ count (additionals m)).
  set (b := _ ++ _ ++ _ ++ _ ++ _ ++ _ ++ _ ++ wa ++ wn ++ wr).
  assert (b = hd ++ wq ++ wa ++ wn ++ wr) as Eb by (unfold b, hd; by rewrite <-!app_assoc).
  assert (length hd = 12%nat) as Hhd by (unfold hd, count; by rewrite !length_app, !length_to_be).
  assert (be16 b 0 = Ok (id m)) as E0 by (apply (dns_be16_at []); done).
  assert (be16 b 2 = Ok (flags m)) as E2 by (apply (dns_be16_at (to_be 2 (id m))); by rewrite ?length_to_be).
  assert (be16 b 4 = Ok (zlen (questions m))) as E4 by apply (count_at (questions m) (take 4 b) (drop 6 b) 4 Lq eq_refl).
  assert (be16 b 6 = Ok (zlen (answers m))) as E6 by apply (count_at (answers m) (take 6 b) (drop 8 b) 6 La eq_refl).
  assert (be16 b 8 = Ok (zlen (authorities m))) as E8 by apply (count_at (authorities m) (take 8 b) (drop 10 b) 8 Ln eq_refl).
  assert (be16 b 10 = Ok (zlen (additionals m))) as E10 by apply (count_at (additionals m) (take 10 b) (drop 12 b) 10 Lr eq_refl).
  unfold decode. destruct (Nat.ltb_spec (length b) 12); [rewrite Eb, length_app in *; lia|].
  rewrite E0, E2, E4, E6, E8, E10. cbn [rbind]. clear E0 E2 E4 E6 E8 E10. clearbody b. subst b. rewrite <-Hhd at 1.
  rewrite (section_at encode_question decode_question _ wq hd _ Hq' Eq). cbn [rbind fst snd].
  rewrite (app_assoc hd), (section_at encode_rr decode_rr _ wa (hd ++ wq) _ (Hrr _ Ha) Ea). cbn [rbind fst snd].
  rewrite (app_assoc (hd ++ wq)), (section_at encode_rr decode_rr _ wn ((hd ++ wq) ++ wa) _ (Hrr _ Hn) En). cbn [rbind fst snd].
  rewrite (app_assoc ((hd ++ wq) ++ wa)). rewrite <-(app_nil_r wr).
  rewrite (section_at encode_rr decode_rr _ wr (((hd ++ wq) ++ wa) ++ wn) [] (Hrr _ Hr) Er). cbn [rbind fst snd]. by destruct m.
Qed.

(** C14: a message within the limits of the format (labels of at most 63 bytes, at
    most 65535 entries a section and bytes a record) is encoded, and what is
    encoded decodes to the message. *)
Theorem message_roundtrip m : message_ok m → ∃ b, encode m = Ok b ∧ decode b = Ok m.
Proof. exact (encode_decode m). Qed.

(** The client-subnet option is read back. *)
Lemma subnet_roundtrip ip size :
  ip_ok ip →
  parse_edns0_subnet (edns0_subnet_opt ip size)
  = Some (match ip with V4 os => (1, 32, os) | V6 gs => (2, 128, segs_octets gs) end).
Proof.
  intros Hi. assert (∀ os : bytes, take (length os) os = os) as Ht by (intros os; by rewrite firstn_all).
  destruct ip as [os|gs]; destruct Hi as [Hl _].
  - destruct os as [|a [|b [|c [|d [|? ?]]]]]; try done.
  - destruct gs as [|a [|b [|c [|d [|e [|f [|g [|h [|? ?]]]]]]]]]; try done.
Qed.

(** Names that resolve: labels with dots between them. *)
Definition join_labels (ls : list bytes) : bytes :=
  match ls with [] => [] | l :: ls => l ++ concat ((λ l, ch_dot :: l) <$> ls) end.

Lemma dots_join ls : Forall label_ok ls → ls ≠ [] → dotted ls = join_labels ls ++ [ch_dot].
Proof.
  intros H Hne. destruct ls as [|l ls]; [done|]. cbn [dotted]. rewrite dots_ok by done. clear Hne.
  revert l H. induction ls as [|l' ls IH]; intros l H; cbn [fmap list_fmap concat join_labels]; [by rewrite !app_nil_r|].
  apply Forall_cons_1 in H as [_ H]. specialize (IH l' H). cbn [fmap list_fmap concat join_labels] in IH. rewrite IH.
  rewrite <-!app_assoc. done.
Qed.

Lemma join_last ls x : Forall label_ok ls → last (join_labels ls) = Some x → x ≠ ch_dot.
Proof.
  intros H E. assert (∃ l, label_ok l ∧ x ∈ l) as (l & (_ & _ & Hd & _) & Hx); [|by intros ->].
  destruct ls as [|l ls]; [done|]. apply Forall_cons_1 in H as [Hl H]. cbn [join_labels] in E.
  revert l Hl E. induction H as [|l' ls Hl' H IH]; intros l Hl E; cbn [fmap list_fmap concat] in E.
  - rewrite app_nil_r in E. apply last_Some in E as [l' ->]. eexists. split; [exact Hl|]. apply elem_of_app. right. by left.
  - apply (IH l' Hl'). rewrite last_app in E. destruct (last ((ch_dot :: l') ++ concat ((λ l0, ch_dot :: l0) <$> ls))) as [y|] eqn:Ey.
    + cbn [app] in Ey. rewrite last_cons in Ey. destruct (last (l' ++ concat ((λ l0, ch_dot :: l0) <$> ls))) as [z|] eqn:Ez; [congruence|].
      destruct l'; [by destruct Hl' as (_ & _ & _ & ? & _); cbn in *; lia|]. cbn [app] in Ez. rewrite last_cons in Ez. by destruct (last _).
    + cbn [app] in Ey. rewrite last_cons in Ey. by destruct (last _).
Qed.

Lemma fqdn_labels ls : Forall label_ok ls → ls ≠ [] → fqdn (join_labels ls) = dotted ls.
Proof.
  intros H Hne. rewrite dots_join by done. unfold fqdn. destruct (last (join_labels ls)) as [c|] eqn:E.
  - destruct (Z.eqb_spec c ch_dot) as [->|]; [by destruct (join_last ls ch_dot H E)|done].
  - apply last_None in E. by rewrite E.
Qed.

(** A test for [label_ok]. *)
Lemma label_ok_test l :
  (utf8_ok l && forallb (λ x, (0 <=? x) && (x <? 256)) l && negb (existsb (Z.eqb ch_dot) l)
   && (0 <? length l)%nat && (length l <=? 63)%nat) = true → label_ok l.
Proof.
  rewrite !andb_true_iff, forallb_forall, negb_true_iff, Nat.ltb_lt, Nat.leb_le. intros [[[[Hu Hb] Hd] H0] Hl].
  split_and!; [done| | |lia|lia].
  - apply Forall_forall. intros y Hy. apply list_elem_of_In, Hb, andb_true_iff in Hy as [?%Z.leb_le ?%Z.ltb_lt]. unfold is_byte. lia.
  - intros Hin. apply not_true_iff_false in Hd. apply Hd, existsb_exists. exists ch_dot. split; [by apply list_elem_of_In|apply Z.eqb_refl].
Qed.

Definition demo_message : Message :=
  mkMessage 4660 33152 [Question_new (str "www.example.org") TYPE_A]
    [mkRr (str "www.example.org.") TYPE_A CLASS_IN 300 [93; 184; 216; 34]] []
    [edns0_subnet_opt (V4 [192; 0; 2; 1]) DEFAULT_UDP_SIZE].

Lemma demo_name_ok : name_ok (str "www.example.org.").
Proof.
  exists [str "www"; str "example"; str "org"]. split; [|reflexivity].
  repeat (apply Forall_cons; split; [apply label_ok_test; vm_compute; reflexivity|]). apply Forall_nil_2.
Qed.

Lemma message_roundtrip_witness : message_ok demo_message ∧ ∃ b, encode demo_message = Ok b ∧ decode b = Ok demo_message.
Proof.
  pose proof demo_name_ok as H.
  assert (name_ok (str ".")) as H0 by (by exists []).
  assert (message_ok demo_message) as Hm.
  { split; unfold u16_ok, u16_max, question_ok, rr_ok, u32_max; cbn; repeat split; try lia; try done;
      repeat constructor; cbn; try lia; try done. }
  split; [exact Hm|]. exact (message_roundtrip demo_message Hm).
Defined.

End Dns.
