(* ===== verification/NameServer.v ===== *)
(** * Name servers

    The exchanges of src/resolver.rs with one name server: over UDP, TCP, TLS and
    HTTPS, directly or through the chain. What the network, TLS, the URL and the
    HTTP parser answer is the record [DnsNet]; [fires] tells which timers run
    out. *)

From stdpp Require Import base list option numbers strings sets.
From Stdlib Require Import ZArith Lia.
From S2P Require Import Prelude Text Utf8 IpAddr Conn HttpConnect Words Http Dns.

Module Ns.

Inductive NsProtocol : Set := Udp | Tcp | Tls | Https.

#[export] Instance NsProtocol_eq_dec : EqDecision NsProtocol.
Proof. solve_decision. Defined.

(** [s.strip_suffix(p)] *)
Definition strip_suffix (p s : bytes) : option bytes :=
  let n := (length s - length p)%nat in if bool_decide (drop n s = p) then Some (take n s) else None.

(** [NsProtocol::parse]; what is not known is UDP. *)
Definition ns_protocol (s : bytes) : NsProtocol * bool :=
  let lowered := lower <$> s in
  let '(base, chained) := match strip_suffix (str "-chain") lowered with Some b => (b, true) | None => (lowered, false) end in
  (if bool_decide (base = str "tcp") then Tcp
   else if bool_decide (base = str "tls") then Tls
   else if bool_decide (base = str "https") then Https
   else Udp, chained).

Record NameServer : Set := mkNs { ns_addr : bytes; protocol : bytes; hostname : bytes }.

#[export] Instance NameServer_eq_dec : EqDecision NameServer.
Proof. solve_decision. Defined.

Definition ns_new (addr : bytes) : NameServer := mkNs addr [] [].
Definition with_protocol (p : bytes) (ns : NameServer) : NameServer := mkNs (ns_addr ns) p (hostname ns).
Definition protocol_kind (ns : NameServer) : NsProtocol * bool := ns_protocol (protocol ns).

Definition colons (s : bytes) : nat := length (filter (λ c, c = ch_colon) s).

Definition ensure_port (addr default_port : bytes) : bytes :=
  match addr with
  | [] => []
  | c :: _ =>
      if c =? ch_lbracket then
        if contains_str (str "]:") addr then addr else addr ++ [ch_colon] ++ default_port
      else
        match colons addr with
        | O => addr ++ [ch_colon] ++ default_port
        | S O => addr
        | _ => [ch_lbracket] ++ addr ++ [ch_rbracket; ch_colon] ++ default_port
        end
  end.

Definition dial_addr (ns : NameServer) : bytes := ensure_port (ns_addr ns) (str "53").

Definition host_of (addr : bytes) : bytes :=
  let plain := match rfind_char ch_colon addr with
               | Some i => if contains_char ch_colon (take i addr) then addr else take i addr
               | None => addr
               end in
  match addr with
  | c :: rest =>
      if c =? ch_lbracket then match find_char ch_rbracket rest with Some e => take e rest | None => plain end else plain
  | [] => plain
  end.

(** ** The network *)

(** A chain: whether it is empty, and its dial of an address with no retries. *)
Record ChainDial : Type := mkChainDial { cd_empty : bool; cd_dial : bytes → result io_error Conn }.

Record DnsNet : Type := mkDnsNet {
  udp_ask : bytes → bytes → bytes → result io_error bytes;
  tcp_dial : bytes → result io_error Conn;
  tls_connector : bool → result io_error ();
  tls_connect : bool → bytes → Conn → result io_error Conn;
  parse_url : bytes → result bytes Http.Url;
  parse_response : bytes → result bytes (option Z * list (bytes * bytes));
  fires : string → bool;
}.

(** What is done to the network: a datagram sent from a bind address; a
    connection, through the chain or not; a TLS handshake, verifying the peer or
    not; bytes written to the connection, under TLS or not. *)
Inductive NsEvent : Set :=
| AskedUdp (bind addr query : bytes)
| DialledTcp (addr : bytes) (through_chain : bool)
| Handshake (insecure : bool) (sni : bytes)
| Wrote (secured : bool) (data : bytes).

Definition deadline {A} (net : DnsNet) (msg : string) (r : result io_error A) : result io_error A :=
  if fires net msg then Err (IoError TimedOut msg) else r.

Section exchange.
Context (net : DnsNet).

Definition dial_tcp_via (addr : bytes) (chain : option ChainDial) : result io_error Conn * list NsEvent :=
  match chain with
  | Some c =>
      if cd_empty c then (deadline net "dns dial timeout" (tcp_dial net addr), [DialledTcp addr false])
      else (cd_dial c addr, [DialledTcp addr true])
  | None => (deadline net "dns dial timeout" (tcp_dial net addr), [DialledTcp addr false])
  end.

Definition exchange_stream (query : bytes) : conv io_error bytes :=
  if u16_max <? zlen query then cfail (Dns.wire_err "query too long for TCP framing")
  else
    write_all (to_be 2 (zlen query) ++ query) ;;!
    len_buf <~ read_exact 2 ;;
    read_exact (Z.to_nat (from_be len_buf)).

(** A conversation on a connection, with what it wrote. *)
Definition converse {A} (secured : bool) (m : conv io_error A) (c : Conn) : result io_error A * list NsEvent :=
  let '(r, c') := m c in (r, [Wrote secured (drop (length (tx c)) (tx c'))]).

Definition exchange_udp (addr query : bytes) : result io_error bytes * list NsEvent :=
  let bind := if starts_with [ch_lbracket] addr || (1 <? colons addr)%nat then str "[::]:0" else str "0.0.0.0:0" in
  let size := Z.to_nat (Z.max 512 (match Dns.decode query with
                                   | Ok m => default Dns.DEFAULT_UDP_SIZE (Dns.edns0_udp_size m)
                                   | Err _ => Dns.DEFAULT_UDP_SIZE
                                   end)) in
  (deadline net "dns udp timeout" (match udp_ask net bind addr query with Ok reply => Ok (take size reply) | Err e => Err e end),
   [AskedUdp bind addr query]).

Definition exchange_tcp (addr query : bytes) (chain : option ChainDial) : result io_error bytes * list NsEvent :=
  match dial_tcp_via addr chain with
  | (Err e, evs) => (Err e, evs)
  | (Ok stream, evs) =>
      let '(r, evs') := converse false (exchange_stream query) stream in
      (deadline net "dns tcp timeout" r, evs ++ evs')
  end.

(** A TLS connection over [stream], within [limit]: the peer is verified when
    there is a host name. *)
Definition secure (limit : result io_error Conn → result io_error Conn) (host name : bytes) (stream : Conn) :
    result io_error Conn * list NsEvent :=
  let insecure := bool_decide (name = []) in
  let sni := if insecure then host else name in
  match tls_connector net insecure with
  | Err e => (Err e, [])
  | Ok _ => (limit (tls_connect net insecure sni stream), [Handshake insecure sni])
  end.

Definition exchange_tls (addr name query : bytes) (chain : option ChainDial) : result io_error bytes * list NsEvent :=
  match dial_tcp_via addr chain with
  | (Err e, evs) => (Err e, evs)
  | (Ok stream, evs) =>
      match secure (deadline net "dns tls handshake timeout") (host_of addr) name stream with
      | (Err e, evs1) => (Err e, evs ++ evs1)
      | (Ok tls, evs1) =>
          let '(r, evs2) := converse true (exchange_stream query) tls in
          (deadline net "dns tls timeout" r, evs ++ evs1 ++ evs2)
      end
  end.

(** *** HTTPS *)

Definition find_header_end (b : bytes) : option nat := (λ i, i + 4)%nat <$> find_sub (crlf ++ crlf) b.

Definition CHUNK : nat := 2048.
Definition MAX_HEADER : Z := 64 * 1024.

(** Pieces are read until the header ends or the peer closes; a piece has at
    least one byte, so a turn for each byte still to come is enough. *)
Fixpoint read_header (fuel : nat) (buf : bytes) : conv io_error (bytes * option nat) :=
  match fuel with
  | O => cret (buf, None)
  | S fuel =>
      piece <~ read CHUNK ;;
      match piece with
      | [] => cret (buf, None)
      | _ =>
          let buf := buf ++ piece in
          if MAX_HEADER <? zlen buf then cfail (Dns.wire_err "DoH response header too large")
          else match find_header_end buf with Some e => cret (buf, Some e) | None => read_header fuel buf end
      end
  end.

(** The body until it has [len] bytes, if there is a length, or to the end. *)
Fixpoint read_rest (fuel : nat) (len : option Z) (body : bytes) : conv io_error bytes :=
  match fuel with
  | O => cret body
  | S fuel =>
      if match len with Some n => n <=? zlen body | None => false end then cret body
      else
        piece <~ read CHUNK ;;
        match piece with [] => cret body | _ => read_rest fuel len (body ++ piece) end
  end.

(** A turn for each byte still to come, and one to see the end. *)
Definition enough {A} (m : nat → conv io_error A) : conv io_error A := λ c, m (S (length (incoming c))) c.

Definition content_length (headers : list (bytes * bytes)) : option Z :=
  match head (filter (λ h, eq_ignore_ascii_case (h.1) (str "content-length") = true) headers) with
  | Some (_, v) => if utf8_ok v then parse_unsigned u64_max (trim v) else None
  | None => None
  end.

Definition read_http_body : conv io_error bytes :=
  found <~ enough (λ n, read_header n []) ;;
  match found with
  | (_, None) => cfail (Dns.wire_err "truncated DoH response")
  | (buf, Some header_end) =>
      match parse_response net (take header_end buf) with
      | Err e => cfail (Dns.wire_err ("bad DoH response: " +:+ Dns.text e))
      | Ok (code, headers) =>
          let code := default 0 code in
          if negb (code =? 200) then cfail (IoError Other ("returned status code " +:+ Dns.text (show_int code)))
          else
            let len := content_length headers in
            body <~ enough (λ n, read_rest n len (drop header_end buf)) ;;
            cret (match len with Some n => take (Z.to_nat n) body | None => body end)
      end
  end.

Definition doh_request (path host_header : bytes) (n : Z) : bytes :=
  str "POST " ++ path ++ str " HTTP/1.1" ++ crlf ++ str "Host: " ++ host_header ++ crlf
  ++ str "Content-Type: application/dns-message" ++ crlf ++ str "Accept: application/dns-message" ++ crlf
  ++ str "Content-Length: " ++ show_int n ++ crlf ++ str "Connection: close" ++ crlf ++ crlf.

Definition post (request query : bytes) : conv io_error bytes :=
  write_all request ;;! write_all query ;;! read_http_body.

Definition exchange_doh (url_str name query : bytes) (chain : option ChainDial) : result io_error bytes * list NsEvent :=
  match parse_url net url_str with
  | Err e => (Err (Dns.wire_err ("bad DoH url: " +:+ Dns.text e)), [])
  | Ok url =>
      match Http.url_host url with
      | None => (Err (Dns.wire_err "DoH url has no host"), [])
      | Some host =>
          let plaintext := bool_decide (Http.url_scheme url = str "http") in
          let port := default (if plaintext then 80 else 443) (Http.url_port url) in
          let path := match Http.url_path url with [] => str "/" | p => p end
                      ++ match Http.url_query url with Some q => str "?" ++ q | None => [] end in
          let addr := (if contains_char ch_colon host then [ch_lbracket] ++ host ++ [ch_rbracket] else host)
                      ++ [ch_colon] ++ show_int port in
          let host_header := if (plaintext && (port =? 80)) || (negb plaintext && (port =? 443)) then host
                             else host ++ [ch_colon] ++ show_int port in
          let request := doh_request path host_header (zlen query) in
          match dial_tcp_via addr chain with
          | (Err e, evs) => (Err e, evs)
          | (Ok stream, evs) =>
              let '(r, evs') :=
                if plaintext then converse false (post request query) stream
                else
                  match secure (λ r, r) host name stream with
                  | (Err e, evs1) => (Err e, evs1)
                  | (Ok s, evs1) => let '(r, evs2) := converse true (post request query) s in (r, evs1 ++ evs2)
                  end in
              (deadline net "doh timeout" r, evs ++ evs')
          end
      end
  end.

Definition ns_exchange (ns : NameServer) (query : bytes) (chain : option ChainDial) : result io_error bytes * list NsEvent :=
  let '(proto, chained) := protocol_kind ns in
  let chain := if chained then chain else None in
  match proto with
  | Udp => exchange_udp (dial_addr ns) query
  | Tcp => exchange_tcp (dial_addr ns) query chain
  | Tls => exchange_tls (dial_addr ns) (hostname ns) query chain
  | Https => exchange_doh (ns_addr ns) (hostname ns) query chain
  end.

End exchange.

Example ensure_port_examples :
  ensure_port (str "8.8.8.8") (str "53") = str "8.8.8.8:53" ∧ ensure_port (str "8.8.8.8:5353") (str "53") = str "8.8.8.8:5353"
  ∧ ensure_port (str "2001:db8::1") (str "53") = str "[2001:db8::1]:53" ∧ ensure_port (str "[::1]") (str "53") = str "[::1]:53"
  ∧ host_of (str "[::1]:853") = str "::1" ∧ host_of (str "dns.google:853") = str "dns.google" ∧ host_of (str "::1") = str "::1"
  ∧ ns_protocol (str "TLS-chain") = (Tls, true) ∧ ns_protocol (str "quic") = (Udp, false).
Proof. vm_compute. done. Qed.

(** ** Where a query goes *)

Section route.
Context (net : DnsNet).

(** The query is only written under TLS, to a peer that is verified when a host
    name is configured. *)
Definition private (name : bytes) (ev : NsEvent) : Prop :=
  match ev with
  | AskedUdp _ _ _ => False
  | Wrote secured _ => secured = true
  | Handshake insecure sni => name ≠ [] → insecure = false ∧ sni = name
  | DialledTcp _ _ => True
  end.
(** Connections go through the chain if the server asks for it and there is one. *)
Definition routed (chained : bool) (chain : option ChainDial) (ev : NsEvent) : Prop :=
  match ev with
  | DialledTcp _ through => through = chained && match chain with Some c => negb (cd_empty c) | None => false end
  | _ => True
  end.

Lemma converse_events {A} secured (m : conv io_error A) c P :
  (∀ d, P (Wrote secured d)) → Forall P (converse secured m c).2.
Proof. intros H. unfold converse. destruct (m c). by apply Forall_singleton. Qed.

Lemma dial_private addr chain name : Forall (private name) (dial_tcp_via net addr chain).2.
Proof. unfold dial_tcp_via. destruct chain as [c|]; [destruct (cd_empty c)|]; by apply Forall_singleton. Qed.

Lemma dial_routed addr chained chain :
  Forall (routed chained chain) (dial_tcp_via net addr (if chained then chain else None)).2.
Proof.
  unfold dial_tcp_via. destruct chained, chain as [c|]; try destruct (cd_empty c) eqn:E; apply Forall_singleton; cbn; by rewrite ?E.
Qed.

Lemma secure_private limit host name stream : Forall (private name) (secure net limit host name stream).2.
Proof.
  unfold secure. destruct (tls_connector _ _); [|constructor]. apply Forall_singleton. cbn. intros Hn. by rewrite bool_decide_false.
Qed.
Lemma secure_routed limit host name stream chained chain : Forall (routed chained chain) (secure net limit host name stream).2.
Proof. unfold secure. destruct (tls_connector _ _); [|constructor]. by apply Forall_singleton. Qed.

Ltac events :=
  repeat match goal with
  | |- Forall _ (_ ++ _) => apply Forall_app; split
  | H : Forall _ ?l |- Forall _ ?l => exact H
  | |- Forall _ (converse _ _ _).2 => by apply converse_events
  end.

Lemma tls_events P addr name query chain :
  (∀ d, P (Wrote true d)) → (∀ limit host stream, Forall P (secure net limit host name stream).2) →
  Forall P (dial_tcp_via net addr chain).2 → Forall P (exchange_tls net addr name query chain).2.
Proof.
  intros Hw Hs Hd. unfold exchange_tls. destruct (dial_tcp_via net addr chain) as [[stream|e] evs]; [|exact Hd].
  specialize (Hs (deadline net "dns tls handshake timeout") (host_of addr) stream).
  destruct (secure _ _ _ _ _) as [[tls|e] evs1]; cbn [snd] in *; [|events].
  pose proof (converse_events true (exchange_stream query) tls P Hw) as Hc. destruct (converse _ _ _). cbn [snd] in *. events.
Qed.

Lemma doh_events P url name query chain :
  (∀ d, P (Wrote true d)) → (∀ limit host stream, Forall P (secure net limit host name stream).2) →
  (∀ addr, Forall P (dial_tcp_via net addr chain).2) →
  ((∀ d, P (Wrote false d)) ∨ (∀ u, parse_url net url = Ok u → Http.url_scheme u ≠ str "http")) →
  Forall P (exchange_doh net url name query chain).2.
Proof.
  intros Hw Hs Hd Hclear. unfold exchange_doh. destruct (parse_url net url) as [u|] eqn:Eu; [|constructor].
  destruct (Http.url_host u) as [host|]; [|constructor]. cbv zeta. set (addr := _ ++ [ch_colon] ++ _). set (req := doh_request _ _ _).
  specialize (Hd addr). destruct (dial_tcp_via net addr chain) as [[stream|e] evs]; [|exact Hd].
  case_bool_decide as Ep.
  - assert (∀ d, P (Wrote false d)) as Hc by (destruct Hclear as [Hc|Hc]; [done|by destruct (Hc u eq_refl)]).
    pose proof (converse_events false (post net req query) stream P Hc) as Hc'. destruct (converse _ _ _). cbn [snd] in *. events.
  - specialize (Hs (λ r, r) host stream). destruct (secure _ _ _ _ _) as [[s|e] evs1]; cbn [snd] in *; [|events].
    pose proof (converse_events true (post net req query) s P Hw) as Hc. destruct (converse _ _ _). cbn [snd] in *. events.
Qed.


End route.

(** ** Answers *)

(** The framing of a stream: the server gets the query behind its length, the
    client gets back what the server frames the same way. *)
Lemma exchange_stream_ok query reply more t :
  zlen query ≤ u16_max → zlen reply ≤ u16_max →
  exchange_stream query (talk (to_be 2 (zlen reply) ++ reply ++ more) t) = (Ok reply, talk more (t ++ to_be 2 (zlen query) ++ query)).
Proof.
  intros Hq Hr. unfold exchange_stream. destruct (Z.ltb_spec u16_max (zlen query)); [lia|].
  rewrite (cbind_ok _ _ _ tt (talk (to_be 2 (zlen reply) ++ reply ++ more) (t ++ to_be 2 (zlen query) ++ query))) by done.
  erewrite cbind_ok; [|apply read_exact_talk, length_to_be].
  rewrite from_to_be by (pose proof (zlen_nonneg reply); unfold u16_max in Hr; cbn; lia).
  apply read_exact_talk. unfold zlen. lia.
Qed.

Lemma find_sub_more p s t i : find_sub p s = Some i → find_sub p (s ++ t) = Some i.
Proof.
  revert i. induction s as [|b s IH]; intros i; cbn [find_sub app].
  - destruct (starts_with p []) eqn:E; [|done]. intros [= <-]. apply starts_with_spec in E as [u Hu]. symmetry in Hu. apply app_eq_nil in Hu as [-> _].
    by destruct t.
  - destruct (starts_with p (b :: s)) eqn:E.
    + intros [= <-]. assert (starts_with p (b :: s ++ t) = true) as ->; [|done].
      apply starts_with_spec in E as [u Hu]. apply starts_with_spec. exists (u ++ t). change (b :: s ++ t) with ((b :: s) ++ t). by rewrite Hu, <-app_assoc.
    + destruct (find_sub p s) as [j|] eqn:Ej; [|done]. cbn. intros [= <-]. assert (starts_with p (b :: s ++ t) = false) as ->; [|by rewrite (IH j eq_refl)].
      apply not_true_is_false. intros [u Hu]%starts_with_spec. apply find_sub_Some in Ej as ([v Hv] & Hl & _).
      apply not_true_iff_false in E. apply E, starts_with_spec.
      assert (length p ≤ length (b :: s))%nat as Hlp by (apply (f_equal length) in Hv; rewrite !length_app in Hv; cbn; lia).
      exists (drop (length p) (b :: s)). rewrite <-(take_drop (length p) (b :: s)) at 1. f_equal.
      change (b :: s ++ t) with ((b :: s) ++ t) in Hu. apply (f_equal (take (length p))) in Hu.
      by rewrite take_app_le, take_app_length in Hu by lia.
Qed.

Lemma take_min {A} n (l : list A) : take (Nat.min n (length l)) l = take n l.
Proof. destruct (Nat.le_gt_cases n (length l)); [by rewrite Nat.min_l|by rewrite Nat.min_r, !firstn_all2 by lia]. Qed.
Lemma drop_min {A} n (l : list A) : drop (Nat.min n (length l)) l = drop n l.
Proof. destruct (Nat.le_gt_cases n (length l)); [by rewrite Nat.min_l|by rewrite Nat.min_r, !drop_ge by lia]. Qed.

(** A read of an open connection takes a piece, not empty, of what is to come. *)
Lemma read_piece n c :
  (0 < n)%nat → rx_end c = None → incoming c ≠ [] →
  ∃ k c', (0 < k ≤ length (incoming c))%nat ∧ read n c = (Ok (take k (incoming c)), c') ∧ incoming c' = drop k (incoming c)
    ∧ rx_end c' = None ∧ tx c' = tx c.
Proof.
  intros Hn He Hne. destruct c as [pre rx cuts en tx tl]; unfold incoming, read in *; cbn [prefix Conn.rx Conn.cuts rx_end Conn.tx tx_left] in *.
  subst en. destruct pre as [|x pre].
  - cbn [app] in *. destruct rx as [|y rx]; [done|]. set (l := y :: rx) in *. assert (0 < length l)%nat by (cbn; lia).
    destruct cuts as [|k ks].
    + exists (Nat.min n (length l)), (mkConn [] (drop n l) [] None tx tl). rewrite take_min, drop_min. split_and!; lia || done.
    + exists (Nat.min (Nat.min n (S k)) (length l)), (mkConn [] (drop (Nat.min n (S k)) l) ks None tx tl).
      rewrite take_min, drop_min. split_and!; lia || done.
  - set (l := x :: pre) in *. assert (0 < length l)%nat by (cbn; lia).
    exists (Nat.min n (length l)), (mkConn (drop n l) rx cuts None tx tl).
    rewrite length_app, take_app_le, drop_app_le, take_min, drop_min by lia. split_and!; lia || done.
Qed.

Section body.
Context (net : DnsNet).

Lemma read_header_ok fuel buf c e :
  rx_end c = None → (length (incoming c) < fuel)%nat → find_header_end buf = None →
  find_header_end (buf ++ incoming c) = Some e → zlen (buf ++ incoming c) ≤ MAX_HEADER →
  ∃ k c', read_header fuel buf c = (Ok (buf ++ take k (incoming c), Some e), c') ∧ incoming c' = drop k (incoming c)
    ∧ rx_end c' = None ∧ tx c' = tx c ∧ (e ≤ length (buf ++ take k (incoming c)))%nat.
Proof.
  revert buf c. induction fuel as [|fuel IH]; intros buf c He Hf Hn Hs Hm; [lia|].
  assert (incoming c ≠ []) as Hne by (intros E; rewrite E, app_nil_r in Hs; congruence).
  destruct (read_piece CHUNK c ltac:(unfold CHUNK; lia) He Hne) as (k & c1 & Hk & Er & Hi & He1 & Ht). cbn [read_header].
  rewrite (cbind_ok _ _ _ _ _ Er). set (b := incoming c) in *.
  assert (length (take k b) = k) as Hlk by (rewrite length_take; lia).
  destruct (take k b) as [|y piece] eqn:Etk; [cbn in Hlk; lia|]. rewrite <-Etk in *. clear y piece Etk.
  assert (b = take k b ++ incoming c1) as Eb by (rewrite Hi; by rewrite take_drop).
  destruct (Z.ltb_spec MAX_HEADER (zlen (buf ++ take k b))) as [Hbig|_].
  { exfalso. rewrite Eb, app_assoc, zlen_app in Hm. pose proof (zlen_nonneg (incoming c1)). lia. }
  rewrite Eb, app_assoc in Hs. destruct (find_header_end (buf ++ take k b)) as [e'|] eqn:Ef.
  - assert (e' = e) as ->.
    { unfold find_header_end in Ef, Hs. destruct (find_sub (crlf ++ crlf) (buf ++ take k b)) as [i|] eqn:Ei; [|done].
      rewrite (find_sub_more _ _ _ _ Ei) in Hs. congruence. }
    exists k, c1. split_and!; [done|done|done|done|]. unfold find_header_end in Ef. destruct (find_sub (crlf ++ crlf) (buf ++ take k b)) as [i|] eqn:Ei; [|done].
    injection Ef as <-. apply find_sub_Some in Ei as ([t Hti] & Hl & _). apply (f_equal length) in Hti.
    set (w := buf ++ take k b) in *. clearbody w. rewrite length_app, length_take in Hti. cbn [crlf app length] in Hti. lia.
  - destruct (IH (buf ++ take k b) c1) as (k2 & c2 & E2 & I2 & H2 & T2 & L2); [done| |done|done| |].
    { rewrite Hi, length_drop. lia. } { by rewrite <-app_assoc, <-Eb. }
    exists (k + k2)%nat, c2. rewrite E2. split_and!; [|by rewrite I2, Hi, drop_drop|done|by rewrite T2|].
    + rewrite <-app_assoc. repeat f_equal. rewrite Hi. by rewrite take_take_drop.
    + rewrite Hi, <-app_assoc, take_take_drop in L2. done.
Qed.

Lemma read_rest_ok fuel n body c :
  rx_end c = None → (length (incoming c) < fuel)%nat → n ≤ zlen (body ++ incoming c) →
  ∃ k c', read_rest fuel (Some n) body c = (Ok (body ++ take k (incoming c)), c') ∧ n ≤ zlen (body ++ take k (incoming c)) ∧ tx c' = tx c.
Proof.
  revert body c. induction fuel as [|fuel IH]; intros body c He Hf Hn; [lia|]. cbn [read_rest].
  destruct (Z.leb_spec n (zlen body)) as [Hle|Hgt].
  { exists 0%nat, c. rewrite take_0, app_nil_r. done. }
  assert (incoming c ≠ []) as Hne by (intros E; rewrite E, app_nil_r in Hn; lia).
  destruct (read_piece CHUNK c ltac:(unfold CHUNK; lia) He Hne) as (k & c1 & Hk & Er & Hi & He1 & Ht).
  rewrite (cbind_ok _ _ _ _ _ Er). set (b := incoming c) in *.
  assert (length (take k b) = k) as Hlk by (rewrite length_take; lia).
  destruct (take k b) as [|y piece] eqn:Etk; [cbn in Hlk; lia|]. rewrite <-Etk in *. clear y piece Etk.
  destruct (IH (body ++ take k b) c1 He1) as (k2 & c2 & E2 & N2 & T2).
  { rewrite Hi, length_drop. lia. } { by rewrite Hi, <-app_assoc, take_drop. }
  exists (k + k2)%nat, c2. rewrite E2, Hi in *. rewrite <-app_assoc, take_take_drop in *. by rewrite <-Ht.
Qed.

(** However the response arrives, the body comes out: as many bytes as the header
    says, if that many come. *)
Lemma read_http_body_ok head body hs n c :
  rx_end c = None → incoming c = head ++ body → find_header_end (incoming c) = Some (length head) → zlen (incoming c) ≤ MAX_HEADER →
  parse_response net head = Ok (Some 200, hs) → content_length hs = Some n → 0 ≤ n ≤ zlen body →
  ∃ c', read_http_body net c = (Ok (take (Z.to_nat n) body), c') ∧ tx c' = tx c.
Proof.
  intros He Hin Hf Hm Hp Hc Hn. unfold read_http_body.
  destruct (read_header_ok (S (length (incoming c))) [] c (length head) He ltac:(lia) eq_refl Hf Hm) as (k & c1 & E1 & I1 & H1 & T1 & L1).
  cbn [app] in *. rewrite (cbind_ok (enough (λ n, read_header n [])) _ c (take k (incoming c), Some (length head)) c1) by exact E1.
  assert (take (length head) (take k (incoming c)) = head) as Eh.
  { rewrite length_take in L1. rewrite take_take, Nat.min_l by lia. by rewrite Hin, take_app_length. }
  rewrite Eh, Hp. cbn [default from_option id Z.eqb Pos.eqb negb]. rewrite Hc.
  assert (drop (length head) (take k (incoming c)) ++ incoming c1 = body) as Eb.
  { rewrite I1, <-(drop_app_le (take k (incoming c))) by (rewrite length_take in *; lia). rewrite take_drop, Hin. apply drop_app_length. }
  destruct (read_rest_ok (S (length (incoming c1))) n (drop (length head) (take k (incoming c))) c1 H1 ltac:(lia)) as (k2 & c2 & E2 & N2 & T2).
  { rewrite Eb. lia. }
  rewrite (cbind_ok (enough _) _ _ _ _ E2). exists c2. split; [|congruence]. unfold cret. do 2 f_equal. rewrite <-Eb.
  set (u := drop (length head) (take k (incoming c))) in *. 
  assert (u ++ incoming c1 = (u ++ take k2 (incoming c1)) ++ drop k2 (incoming c1)) as -> by (by rewrite <-app_assoc, take_drop).
  rewrite (take_app_le (u ++ _)); [done|]. unfold zlen in N2. lia.
Qed.

End body.

(** A server on the network that answers queries over TLS. *)
Definition demo_net : DnsNet :=
  mkDnsNet (λ _ _ _, Err (IoError Other "no")) (λ _, Ok (talk [0; 2; 7; 7] [])) (λ _, Ok tt) (λ _ _ c, Ok c)
    (λ _, Err (str "no url")) (λ _, Err []) (λ _, false).


End Ns.
