(* ===== verification/Resolver.v ===== *)
(** * The resolver

    [Resolver] of src/resolver.rs: the cache, the options over the configuration
    file, live reloading, resolution over several name servers and the raw
    exchange the DNS server uses. Tasks share a resolver: an exchange with a name
    server takes a turn, in which other tasks may act on the shared state; a
    turn's record says what the network answers, what the others do, and when it
    is over. Durations and times are in nanoseconds. *)

From stdpp Require Import base list option numbers strings sets gmap.
From Stdlib Require Import ZArith Lia.
From S2P Require Import Prelude Text Duration Reload IpAddr Conn Words Http Dns NameServer.

Module Resolver.
Import Dns Ns.

Definition DEFAULT_RESOLVER_TIMEOUT : Z := 5 * one_second.

(** ** The cache *)

Definition cache_key (name : bytes) (qclass qtype : Z) : bytes := name ++ class_name qclass ++ [ch_dot] ++ type_name qtype.

(** [item_ttl] zero means no configured limit. *)
Record CacheItem : Set := mkItem { item_bytes : bytes; item_ts : Z; item_ttl : Z; min_rr_ttl : option Z }.

Abbreviation Cache := (gmap bytes CacheItem).

Definition load (now : Z) (key : bytes) (c : Cache) : option bytes * Cache :=
  match c !! key with
  | None => (None, c)
  | Some item =>
      let elapsed := now - item_ts item in
      if (0 <? item_ttl item) && (item_ttl item <? elapsed) then (None, delete key c)
      else
        match min_rr_ttl item with
        | Some rr => if rr * one_second <? elapsed then (None, delete key c) else (Some (item_bytes item), c)
        | None => (Some (item_bytes item), c)
        end
  end.

Definition store (now : Z) (key b : bytes) (m : Message) (ttl : Z) (ttl_negative : bool) (c : Cache) : Cache :=
  if bool_decide (key = []) || ttl_negative then c else <[key := mkItem b now ttl (min_answer_ttl m)]> c.

(** ** The state *)

Record State : Set := mkState {
  servers : list NameServer; domain : bytes; s_period : Z;
  s_ttl : Z; s_ttl_negative : bool; s_timeout : Z; prefer : bytes; src_ip : option IpAddr;
  opt_ttl : Z; opt_ttl_negative : bool; opt_timeout : Z; opt_prefer : bytes; opt_src_ip : option IpAddr }.

Definition default_state : State := mkState [] [] 0 0 false 0 [] None 0 false 0 [] None.

Definition apply_options (s : State) : State :=
  let timeout := if opt_timeout s =? 0 then s_timeout s else opt_timeout s in
  let '(ttl, neg) := if negb (opt_ttl s =? 0) || opt_ttl_negative s then (opt_ttl s, opt_ttl_negative s)
                     else (s_ttl s, s_ttl_negative s) in
  let pref := match opt_prefer s with [] => prefer s | p => p end in
  let ip := match opt_src_ip s with Some ip => Some ip | None => src_ip s end in
  mkState (servers s) (domain s) (s_period s) ttl neg timeout pref ip
    (opt_ttl s) (opt_ttl_negative s) (opt_timeout s) (opt_prefer s) (opt_src_ip s).

Definition effective_timeout (s : State) : Z := if s_timeout s =? 0 then DEFAULT_RESOLVER_TIMEOUT else s_timeout s.

Record Resolver : Type := mkResolver { state : State; cache : Cache; r_stopped : bool; r_chain : option ChainDial }.

Definition set_state (s : State) (r : Resolver) : Resolver := mkResolver s (cache r) (r_stopped r) (r_chain r).
Definition set_cache (c : Cache) (r : Resolver) : Resolver := mkResolver (state r) c (r_stopped r) (r_chain r).
Definition set_options (ttl : Z) (neg : bool) (timeout : Z) (pref : bytes) (ip : option IpAddr) (r : Resolver) : Resolver :=
  let s := state r in
  set_state (apply_options (mkState (servers s) (domain s) (s_period s) (s_ttl s) (s_ttl_negative s) (s_timeout s) (prefer s)
                                    (src_ip s) ttl neg timeout pref ip)) r.

Definition with_servers (l : list NameServer) : Resolver :=
  mkResolver (mkState l [] 0 0 false 0 [] None 0 false 0 [] None) ∅ false None.

Section spec.
(** [url::Url::parse], and opening a file. *)
Context (parse_url : bytes → result bytes Http.Url) (open_file : bytes → option Reader).

Definition parse_ns_spec (s : bytes) : option NameServer :=
  match s with
  | [] => None
  | _ =>
      if starts_with (str "https") s then
        match parse_url s with
        | Err _ => None
        | Ok url =>
            if bool_decide (Http.url_scheme url = []) then None
            else Some (with_protocol (if bool_decide (Http.url_scheme url = str "https-chain") then str "https-chain" else str "https") (ns_new s))
        end
      else
        match split_char ch_slash s with
        | [a] => Some (ns_new a)
        | [a; p] => Some (with_protocol p (ns_new a))
        | _ => None
        end
  end.

Definition new (l : list bytes) : Resolver :=
  let r := with_servers (omap (λ s, parse_ns_spec (trim s)) l) in
  let s := state r in
  set_state (mkState (servers s) (domain s) (s_period s) (s_ttl s) (s_ttl_negative s) (s_timeout s) (str "ipv4") (src_ip s)
                     (opt_ttl s) (opt_ttl_negative s) (opt_timeout s) (opt_prefer s) (opt_src_ip s)) r.

Definition from_inline (cfg : bytes) : Resolver := with_servers (omap (λ s, parse_ns_spec (trim s)) (split_char ch_comma cfg)).

(** ** Reloading *)

Definition parse_signed_go_duration (s : bytes) : bool * Z :=
  match s with
  | c :: rest =>
      if c =? ch_minus then if 0 <? default 0 (parse_go_duration rest) then (true, 0) else (false, 0)
      else (false, default 0 (parse_go_duration s))
  | [] => (false, default 0 (parse_go_duration s))
  end.

(** What is read of a file: ttl with its sign, timeout, period, domain,
    preference, source address and servers. *)
Record File : Set := mkFile {
  f_ttl : Z; f_neg : bool; f_timeout : Z; f_period : Z; f_domain : bytes; f_prefer : bytes; f_ip : option IpAddr;
  f_servers : list NameServer }.
Definition empty_file : File := mkFile 0 false 0 0 [] [] None [].

Definition server_of (ss : list bytes) : option NameServer :=
  match ss with
  | [] => None
  | [a] => Some (mkNs a [] [])
  | [a; p] => Some (mkNs a p [])
  | a :: p :: h :: _ => Some (mkNs a p h)
  end.

Definition add_server_line (ss : list bytes) (f : File) : File :=
  match server_of ss with
  | None => f
  | Some ns =>
      let ns := if starts_with (str "https") (ns_addr ns) && bool_decide (protocol ns = []) then with_protocol (str "https") ns else ns in
      mkFile (f_ttl f) (f_neg f) (f_timeout f) (f_period f) (f_domain f) (f_prefer f) (f_ip f) (f_servers f ++ [ns])
  end.

Definition resolver_line (f : File) (line : bytes) : File :=
  match split_line_ref line with
  | [] => f
  | k :: rest =>
      if bool_decide (k = str "timeout") then
        match rest with
        | v :: _ => mkFile (f_ttl f) (f_neg f) (default 0 (parse_go_duration v)) (f_period f) (f_domain f) (f_prefer f) (f_ip f) (f_servers f)
        | [] => f
        end
      else if bool_decide (k = str "ttl") then
        match rest with
        | v :: _ => let '(neg, d) := parse_signed_go_duration v in
                    mkFile d neg (f_timeout f) (f_period f) (f_domain f) (f_prefer f) (f_ip f) (f_servers f)
        | [] => f
        end
      else if bool_decide (k = str "reload") then
        match rest with
        | v :: _ => mkFile (f_ttl f) (f_neg f) (f_timeout f) (default 0 (parse_go_duration v)) (f_domain f) (f_prefer f) (f_ip f) (f_servers f)
        | [] => f
        end
      else if bool_decide (k = str "domain") then
        match rest with
        | v :: _ => mkFile (f_ttl f) (f_neg f) (f_timeout f) (f_period f) v (f_prefer f) (f_ip f) (f_servers f)
        | [] => f
        end
      else if bool_decide (k ∈ str <$> ["search"; "sortlist"; "options"]%string) then f
      else if bool_decide (k = str "prefer") then
        match rest with
        | v :: _ => mkFile (f_ttl f) (f_neg f) (f_timeout f) (f_period f) (f_domain f) (lower <$> v) (f_ip f) (f_servers f)
        | [] => f
        end
      else if bool_decide (k = str "ip") then
        match rest with
        | v :: _ => mkFile (f_ttl f) (f_neg f) (f_timeout f) (f_period f) (f_domain f) (f_prefer f) (parse_ip v) (f_servers f)
        | [] => f
        end
      else if bool_decide (k = str "nameserver") then match rest with [] => f | _ => add_server_line rest f end
      else add_server_line (k :: rest) f
  end.

Definition file_state (f : File) (s : State) : State :=
  apply_options (mkState (f_servers f) (f_domain f) (f_period f) (f_ttl f) (f_neg f) (f_timeout f) (f_prefer f) (f_ip f)
                         (opt_ttl s) (opt_ttl_negative s) (opt_timeout s) (opt_prefer s) (opt_src_ip s)).

Definition reload_impl (rd : Reader) (r : Resolver) : result io_error () * Resolver :=
  if r_stopped r then (Ok tt, r)
  else
    match for_lines resolver_line (buf_lines rd) empty_file with
    | Err e => (Err e, r)
    | Ok f => (Ok tt, mkResolver (file_state f (state r)) ∅ (r_stopped r) (r_chain r))
    end.

Definition period_impl (r : Resolver) : Z := if r_stopped r then 0 else s_period (state r).
Definition stop_impl (r : Resolver) : Resolver := mkResolver (state r) (cache r) true (r_chain r).

(** [Resolver::parse]; an error of the file is only logged. *)
Definition parse (cfg : bytes) : option Resolver :=
  match cfg with
  | [] => None
  | _ =>
      match open_file cfg with
      | Some rd => Some (reload_impl rd (with_servers [])).2
      | None => Some (from_inline cfg)
      end
  end.

End spec.

#[export] Instance resolver_reloader : Reloader Resolver := {
  reload := reload_impl; period := period_impl; stop := stop_impl; stopped := r_stopped }.

(** ** Options *)

Definition init (chain : option ChainDial) (timeout ttl : Z) (pref : bytes) (ip : option IpAddr) (r : Resolver) : Resolver :=
  let s := state r in
  let r := mkResolver s (cache r) (r_stopped r) (match chain with Some c => Some c | None => r_chain r end) in
  set_options (if ttl =? 0 then opt_ttl s else ttl) (opt_ttl_negative s) (if timeout =? 0 then opt_timeout s else timeout)
    (match pref with [] => opt_prefer s | p => lower <$> p end) (match ip with Some ip => Some ip | None => opt_src_ip s end) r.

Definition set_ttl_disabled (r : Resolver) : Resolver :=
  let s := state r in set_options 0 true (opt_timeout s) (opt_prefer s) (opt_src_ip s) r.
Definition set_chain (c : ChainDial) (r : Resolver) : Resolver := mkResolver (state r) (cache r) (r_stopped r) (Some c).
Definition set_prefer (pref : bytes) (r : Resolver) : Resolver :=
  let s := state r in set_options (opt_ttl s) (opt_ttl_negative s) (opt_timeout s) (lower <$> pref) (opt_src_ip s) r.
Definition set_src_ip (ip : option IpAddr) (r : Resolver) : Resolver :=
  let s := state r in set_options (opt_ttl s) (opt_ttl_negative s) (opt_timeout s) (opt_prefer s) ip r.
Definition set_timeout (t : Z) (r : Resolver) : Resolver :=
  let s := state r in set_options (opt_ttl s) (opt_ttl_negative s) t (opt_prefer s) (opt_src_ip s) r.
Definition add_server (ns : NameServer) (r : Resolver) : Resolver :=
  let s := state r in
  set_state (mkState (servers s ++ [ns]) (domain s) (s_period s) (s_ttl s) (s_ttl_negative s) (s_timeout s) (prefer s) (src_ip s)
                     (opt_ttl s) (opt_ttl_negative s) (opt_timeout s) (opt_prefer s) (opt_src_ip s)) r.
Definition clear_cache (r : Resolver) : Resolver := set_cache ∅ r.

(** ** What tasks do to the shared resolver *)

Inductive Op : Type :=
| OLoad (now : Z) (key : bytes)
| OStore (now : Z) (key b : bytes) (m : Message) (ttl : Z) (neg : bool)
| OReload (rd : Reader)
| OClear
| OStop
| OChange (f : State → State).

Definition run_op (op : Op) (r : Resolver) : Resolver :=
  match op with
  | OLoad now key => set_cache (load now key (cache r)).2 r
  | OStore now key b m ttl neg => set_cache (store now key b m ttl neg (cache r)) r
  | OReload rd => (reload_impl rd r).2
  | OClear => clear_cache r
  | OStop => stop_impl r
  | OChange f => set_state (f (state r)) r
  end.
Definition run_ops (ops : list Op) (r : Resolver) : Resolver := foldl (λ r op, run_op op r) r ops.

(** ** Resolution *)

(** A turn: the network for the exchange, the ID drawn, what the others do in the
    meantime, and the time before it; and the system's own resolver. *)
Record Turn : Type := mkTurn { t_net : DnsNet; t_id : Z; t_others : list Op; t_now : Z }.

Section resolve.
Context (turn : nat → Turn) (lookup_host : bytes → result io_error (list IpAddr)).

(** The turn to come and the shared resolver are passed along. *)
Definition task (A : Type) : Type := nat → Resolver → result io_error A * nat * Resolver.

Definition ask (ns : NameServer) (q : bytes) (chain : option ChainDial) : task bytes := λ i r,
  ((ns_exchange (t_net (turn i)) ns q chain).1, S i, run_ops (t_others (turn i)) r).

(** [Resolver::query], under the state [st] read when the resolution began. *)
Definition query_ips (ns : NameServer) (host : bytes) (qtype : Z) (st : State) (chain : option ChainDial) : task (list IpAddr) := λ i r,
  let name := fqdn host in
  let key := cache_key name CLASS_IN qtype in
  let '(hit, c) := load (t_now (turn i)) key (cache r) in
  let r := set_cache c r in
  match hit with
  | Some b => match decode b with Ok mr => (Ok (answer_ips mr), i, r) | Err e => (Err e, i, r) end
  | None =>
      let mq := Dns.query (t_id (turn i)) name qtype in
      let mq := match src_ip st with Some ip => push_additional (edns0_subnet_opt ip DEFAULT_UDP_SIZE) mq | None => mq end in
      match encode mq with
      | Err e => (Err e, i, r)
      | Ok q =>
          match ask ns q chain i r with
          | (Err e, i, r) => (Err e, i, r)
          | (Ok reply, i, r) =>
              match decode reply with
              | Err e => (Err e, i, r)
              | Ok mr =>
                  (Ok (answer_ips mr), i, set_cache (store (t_now (turn i)) key reply mr (s_ttl st) (s_ttl_negative st) (cache r)) r)
              end
          end
      end
  end.

Definition resolve_via (ns : NameServer) (host : bytes) (st : State) (chain : option ChainDial) : task (list IpAddr) := λ i r,
  let '(first, second) := if bool_decide (prefer st = str "ipv6") then (TYPE_AAAA, TYPE_A) else (TYPE_A, TYPE_AAAA) in
  match query_ips ns host first st chain i r with
  | (Ok ((_ :: _) as ips), i, r) => (Ok ips, i, r)
  | (_, i, r) => query_ips ns host second st chain i r
  end.

(** The servers in turn; [acc] is what the last one gave. *)
Fixpoint resolve_loop (nss : list NameServer) (host : bytes) (st : State) (chain : option ChainDial) (acc : result io_error (list IpAddr)) :
    task (list IpAddr) := λ i r,
  match nss with
  | [] => (acc, i, r)
  | ns :: nss =>
      match resolve_via ns host st chain i r with
      | (Ok ((_ :: _) as ips), i, r) => (Ok ips, i, r)
      | (acc, i, r) => resolve_loop nss host st chain acc i r
      end
  end.

Definition is_v4 (a : IpAddr) : bool := match a with V4 _ => true | V6 _ => false end.

(** [system_lookup]: the preferred family first. *)
Definition system_lookup (host pref : bytes) : result io_error (list IpAddr) :=
  match lookup_host (host ++ str ":0") with
  | Err e => Err e
  | Ok addrs =>
      let want := if bool_decide (pref = str "ipv6") then negb ∘ is_v4 else is_v4 in
      Ok (List.filter want addrs ++ List.filter (negb ∘ want) addrs)
  end.

Definition qualify (host : bytes) (st : State) : bytes :=
  match domain st with
  | [] => host
  | d => if contains_char ch_dot host then host else host ++ [ch_dot] ++ d
  end.

Definition resolve (host : bytes) : task (list IpAddr) := λ i r,
  match host with
  | [] => (Ok [], i, r)
  | _ =>
      match parse_ip host with
      | Some ip => (Ok [ip], i, r)
      | None =>
          let st := state r in
          let host := qualify host st in
          match servers st with
          | [] => (system_lookup host (prefer st), i, r)
          | nss => resolve_loop nss host st (r_chain r) (Ok []) i r
          end
      end
  end.

(** ** The raw exchange *)

Fixpoint exchange_loop (nss : list NameServer) (q key : bytes) (id : Z) (st : State) (chain : option ChainDial) (last_err : io_error) :
    task bytes := λ i r,
  match nss with
  | [] => (Err last_err, i, r)
  | ns :: nss =>
      match ask ns q chain i r with
      | (Ok reply, i, r) =>
          let c := match decode reply with
                   | Ok mr => store (t_now (turn i)) key reply mr (s_ttl st) (s_ttl_negative st) (cache r)
                   | Err _ => cache r
                   end in
          (Ok (set_msg_id reply id), i, set_cache c r)
      | (Err e, i, r) => exchange_loop nss q key id st chain e i r
      end
  end.

(** What is sent on: the query, or the query with the source address as its
    only option record. *)
Definition outbound (mq : Message) (q : bytes) (st : State) : result io_error bytes :=
  match src_ip st with
  | Some ip =>
      let size := default DEFAULT_UDP_SIZE (edns0_udp_size mq) in
      encode (push_additional (edns0_subnet_opt ip size) (remove_opt mq))
  | None => Ok q
  end.

Definition exchange (q : bytes) : task bytes := λ i r,
  match decode q with
  | Err e => (Err e, i, r)
  | Ok mq =>
      match questions mq with
      | [] => (Err (IoError Other "empty question"), i, r)
      | qs =>
          let st := state r in
          let key := match qs with [qn] => cache_key (q_name qn) (qclass qn) (qtype qn) | _ => [] end in
          let '(hit, c) := match qs with [_] => load (t_now (turn i)) key (cache r) | _ => (None, cache r) end in
          let r := set_cache c r in
          match hit with
          | Some b => (Ok (set_msg_id b (id mq)), i, r)
          | None =>
              match outbound mq q st with
              | Err e => (Err e, i, r)
              | Ok out =>
                  match servers st with
                  | [] => (Err (IoError Other "no name server configured"), i, r)
                  | nss => exchange_loop nss out key (id mq) st (r_chain r) (IoError Other "no name server answered") i r
                  end
              end
          end
      end
  end.

End resolve.

(** ** Keys *)

Lemma show_int_inj a b : 0 ≤ a → 0 ≤ b → show_int a = show_int b → a = b.
Proof.
  intros Ha Hb E. assert (parse_unsigned (Z.max a b) (show_int a) = Some a) as E1 by (apply parse_show_unsigned; lia).
  assert (parse_unsigned (Z.max a b) (show_int b) = Some b) as E2 by (apply parse_show_unsigned; lia). congruence.
Qed.

Lemma no_dot_show pre n : 0 ≤ n → ch_dot ∉ pre → ch_dot ∉ pre ++ show_int n.
Proof.
  intros Hn Hp [H|H]%elem_of_app; [done|]. pose proof (show_int_digits n Hn) as Hd. rewrite Forall_forall in Hd. by apply Hd in H.
Qed.

Ltac no_dot := repeat match goal with |- context [if ?b then _ else _] => destruct b end;
  try (by apply (bool_decide_unpack _)); apply no_dot_show; [lia|by apply (bool_decide_unpack _)].
Lemma class_name_dot c : 0 ≤ c → ch_dot ∉ class_name c.
Proof. intros Hc. unfold class_name. no_dot. Qed.
Lemma type_name_dot t : 0 ≤ t → ch_dot ∉ type_name t.
Proof. intros Ht. unfold type_name. no_dot. Qed.

(** Names are read back. *)
Definition number_of (pre : string) (table : list (string * Z)) (s : bytes) : option Z :=
  if starts_with (str pre) s then parse_unsigned u16_max (drop (length (str pre)) s)
  else snd <$> head (List.filter (λ e, bool_decide (str e.1 = s)) table).
Definition class_of : bytes → option Z := number_of "CLASS" [("IN", 1); ("CH", 3); ("HS", 4); ("ANY", 255)]%string.
Definition type_of : bytes → option Z :=
  number_of "TYPE" [("A", 1); ("NS", 2); ("CNAME", 5); ("SOA", 6); ("PTR", 12); ("MX", 15); ("TXT", 16); ("AAAA", 28);
                    ("SRV", 33); ("OPT", 41); ("ANY", 255)]%string.

Lemma number_of_show pre table n : u16_ok n → number_of pre table (str pre ++ show_int n) = Some n.
Proof.
  intros Hn. unfold number_of. assert (starts_with (str pre) (str pre ++ show_int n) = true) as -> by (apply starts_with_spec; eauto).
  rewrite drop_app_length. by apply parse_show_unsigned.
Qed.

Lemma class_of_name c : u16_ok c → class_of (class_name c) = Some c.
Proof.
  intros Hc. unfold class_name. repeat match goal with |- context [if c =? ?d then _ else _] => destruct (Z.eqb_spec c d) as [->|_]; [vm_compute; reflexivity|] end.
  by apply number_of_show.
Qed.
Lemma type_of_name t : u16_ok t → type_of (type_name t) = Some t.
Proof.
  intros Ht. unfold type_name. repeat match goal with |- context [if t =? ?d then _ else _] => destruct (Z.eqb_spec t d) as [->|_]; [vm_compute; reflexivity|] end.
  by apply number_of_show.
Qed.

Lemma split_last_eq (c : Z) a b a' b' : c ∉ b → c ∉ b' → a ++ c :: b = a' ++ c :: b' → a = a' ∧ b = b'.
Proof.
  intros Hb Hb' E. assert (rfind_char c (a ++ c :: b) = Some (length a)) as E1 by (by apply rfind_middle).
  assert (rfind_char c (a' ++ c :: b') = Some (length a')) as E2 by (by apply rfind_middle). rewrite E in E1.
  assert (length a = length a') as Hl by congruence. by apply app_inj_1 in E as [-> [= ->]].
Qed.

(** Different questions about full names have different keys. *)
Lemma cache_key_inj n n' c c' t t' :
  u16_ok c → u16_ok c' → u16_ok t → u16_ok t' →
  cache_key (n ++ [ch_dot]) c t = cache_key (n' ++ [ch_dot]) c' t' → n = n' ∧ c = c' ∧ t = t'.
Proof.
  intros Hc Hc' Ht Ht' E. unfold cache_key in E. cbn [app] in E. rewrite !app_assoc in E.
  apply split_last_eq in E as [E1 E2]; [|apply type_name_dot, Ht|apply type_name_dot, Ht']. rewrite <-!app_assoc in E1. cbn [app] in E1.
  apply split_last_eq in E1 as [-> E1]; [|apply class_name_dot, Hc|apply class_name_dot, Hc'].
  apply (f_equal class_of) in E1. apply (f_equal type_of) in E2. rewrite !class_of_name in E1 by done. rewrite !type_of_name in E2 by done.
  by simplify_eq.
Qed.

(** ** The cache is one that expires its entries in time *)

Definition fresh (now : Z) (it : CacheItem) : bool :=
  let elapsed := now - item_ts it in
  negb ((0 <? item_ttl it) && (item_ttl it <? elapsed))
  && match min_rr_ttl it with Some rr => negb (rr * one_second <? elapsed) | None => true end.

(** What a cache in which expired entries simply do not count would give. *)
Definition fresh_lookup (now : Z) (key : bytes) (c : Cache) : option bytes :=
  match c !! key with Some it => if fresh now it then Some (item_bytes it) else None | None => None end.

Lemma load_spec now key c :
  load now key c = (fresh_lookup now key c, match c !! key with Some it => if fresh now it then c else delete key c | None => c end).
Proof.
  unfold load, fresh_lookup, fresh. destruct (c !! key) as [it|]; [|done]. destruct ((0 <? item_ttl it) && (item_ttl it <? now - item_ts it)); [done|].
  cbn [negb andb]. destruct (min_rr_ttl it) as [rr|]; [|done]. by destruct (rr * one_second <? now - item_ts it).
Qed.

Lemma fresh_earlier now now' it : now ≤ now' → fresh now' it = true → fresh now it = true.
Proof.
  unfold fresh. intros Hn. rewrite !andb_true_iff, !negb_true_iff, !andb_false_iff, !Z.ltb_ge. intros [H1 H2]. split; [lia|].
  destruct (min_rr_ttl it); [|done]. rewrite negb_true_iff, Z.ltb_ge in *. lia.
Qed.

Definition is_write (op : Op) : bool := match op with OLoad _ _ => false | _ => true end.
Definition load_by (now : Z) (op : Op) : Prop := match op with OLoad t _ => t ≤ now | _ => True end.

(** Two resolvers that agree but for entries expired at [now]. *)
Record alike (now : Z) (r r' : Resolver) : Prop := {
  al_state : state r = state r';
  al_stopped : r_stopped r = r_stopped r';
  al_chain : r_chain r = r_chain r';
  al_cache key : cache r !! key = cache r' !! key
    ∨ (cache r !! key = None ∧ ∃ it, cache r' !! key = Some it ∧ fresh now it = false) }.

Lemma alike_load now t key r r' : t ≤ now → alike now r r' → alike now (run_op (OLoad t key) r) r'.
Proof.
  intros Ht [Hs Hp Hc Hk]. split; cbn [run_op set_cache state cache r_stopped r_chain]; try done. intros k. rewrite load_spec. cbn [snd].
  destruct (cache r !! key) as [it|] eqn:E; [|apply Hk]. destruct (fresh t it) eqn:Ef; [apply Hk|].
  destruct (decide (k = key)) as [->|Hne]; [|by rewrite lookup_delete_ne]. right. rewrite lookup_delete_eq. split; [done|]. exists it.
  destruct (Hk key) as [Hk'|[Hk' _]]; [|congruence]. split; [congruence|]. destruct (fresh now it) eqn:En; [|done].
  by rewrite (fresh_earlier t now it) in Ef.
Qed.

Lemma alike_write now op r r' : is_write op = true → alike now r r' → alike now (run_op op r) (run_op op r').
Proof.
  intros Hw [Hs Hp Hc Hk]. destruct op as [| | rd| | |f]; [done|..]; cbn [run_op].
  - split; try done. intros k. cbn [set_cache cache]. unfold store. destruct (_ || _); [apply Hk|].
    destruct (decide (k = key)) as [->|]; [left; by rewrite !lookup_insert_eq|by rewrite !lookup_insert_ne].
  - unfold reload_impl. rewrite <-Hp. destruct (r_stopped r) eqn:Er; [split; cbn [snd]; congruence || apply Hk|].
    destruct (for_lines _ _ _); [|split; cbn [snd]; congruence || apply Hk]. split; cbn; congruence || by left.
  - split; try done. by left.
  - split; try done.
  - split; try done. cbn. by f_equal.
Qed.

Lemma alike_run now ops r r' :
  Forall (load_by now) ops → alike now r r' → alike now (run_ops ops r) (run_ops (List.filter is_write ops) r').
Proof.
  intros Ht. revert r r'. unfold run_ops. induction Ht as [|op ops Hop Ht IH]; intros r r' Hr; [done|]. cbn [List.filter foldl].
  destruct (is_write op) eqn:Ew; cbn [foldl]; apply IH.
  - by apply alike_write.
  - destruct op; try done. by apply alike_load.
Qed.

Lemma alike_refl now r : alike now r r.
Proof. split; auto. Qed.

Lemma alike_lookup now key r r' : alike now r r' → fresh_lookup now key (cache r) = fresh_lookup now key (cache r').
Proof.
  intros [_ _ _ Hk]. unfold fresh_lookup. destruct (Hk key) as [->|[-> (it & -> & Hf)]]; [done|]. by rewrite Hf.
Qed.

(** C15: the cache the tasks share, with entries thrown out when a load finds them
    expired, gives at any time what a cache without expiry would give if only
    entries within the configured TTL and within the TTL of their records
    counted; so a load of one task never takes away what another could still
    have had. *)
Theorem cache_refines ops now key r :
  Forall (load_by now) ops →
  (load now key (cache (run_ops ops r))).1 = fresh_lookup now key (cache (run_ops (List.filter is_write ops) r)).
Proof.
  intros Ht. rewrite load_spec. cbn [fst].
  by apply alike_lookup, alike_run, alike_refl.
Qed.

Definition demo_item_ops : list Op :=
  [OStore 0 (str "k") [1] (mkMessage 0 0 [] [mkRr [] TYPE_A CLASS_IN 60 [1; 2; 3; 4]] [] []) 0 false; OLoad (30 * one_second) (str "k")].
Lemma cache_refines_witness :
  (load (60 * one_second) (str "k") (cache (run_ops demo_item_ops (with_servers [])))).1 = Some [1]
  ∧ (load (61 * one_second) (str "k") (cache (run_ops demo_item_ops (with_servers [])))).1 = None.
Proof.
  assert (∀ n, 30 ≤ n → Forall (load_by (n * one_second)) demo_item_ops) as H by (intros n Hn; repeat constructor; cbn; unfold one_second; lia).
  split.
  - rewrite (cache_refines _ _ _ _ (H 60 ltac:(lia))). vm_compute. reflexivity.
  - rewrite (cache_refines _ _ _ _ (H 61 ltac:(lia))). vm_compute. reflexivity.
Defined.

(** ** Exchanges over the servers in turn *)

Section turns.
Context (turn : nat → Turn).

(** The first server that answers, with the turn in which it does. *)
Fixpoint first_answer (nss : list NameServer) (q : bytes) (chain : option ChainDial) (i : nat) : option (nat * bytes) :=
  match nss with
  | [] => None
  | ns :: nss =>
      match (ns_exchange (t_net (turn i)) ns q chain).1 with Ok b => Some (i, b) | Err _ => first_answer nss q chain (S i) end
  end.

(** What the other tasks do in the turns from [i] up to [j]. *)
Definition meanwhile (i j : nat) (r : Resolver) : Resolver :=
  foldl (λ r k, run_ops (t_others (turn k)) r) r (seq i (j - i)).

Lemma meanwhile_step i j r : (i < j)%nat → meanwhile i j r = meanwhile (S i) j (run_ops (t_others (turn i)) r).
Proof. intros H. unfold meanwhile. replace (j - i)%nat with (S (j - S i))%nat by lia. done. Qed.

Lemma first_answer_ge nss q chain i k b : first_answer nss q chain i = Some (k, b) → (i ≤ k)%nat.
Proof.
  revert i. induction nss as [|ns nss IH]; intros i; cbn [first_answer]; [done|].
  destruct (ns_exchange _ _ _ _).1; [by intros [= -> _]|]. intros H%IH. lia.
Qed.

(** An answer: the reply with the asker's ID, and the reply in the cache. *)
Lemma exchange_loop_answers nss q key id st chain e i r k b :
  first_answer nss q chain i = Some (k, b) →
  exchange_loop turn nss q key id st chain e i r
  = (Ok (set_msg_id b id), S k,
     let r := meanwhile i (S k) r in
     set_cache (match decode b with
                | Ok mr => store (t_now (turn (S k))) key b mr (s_ttl st) (s_ttl_negative st) (cache r)
                | Err _ => cache r
                end) r).
Proof.
  revert e i r. induction nss as [|ns nss IH]; intros e i r; cbn [first_answer exchange_loop]; [done|]. unfold ask.
  destruct (ns_exchange (t_net (turn i)) ns q chain).1 as [b'|e'].
  - intros [= <- <-]. rewrite meanwhile_step by lia. unfold meanwhile. by rewrite Nat.sub_diag.
  - intros H. rewrite (IH e' (S i) _ H). pose proof (first_answer_ge _ _ _ _ _ _ H). by rewrite (meanwhile_step i) by lia.
Qed.

(** No answer: the error of the last server. *)
Lemma exchange_loop_fails nss q key id st chain e i r :
  first_answer nss q chain i = None →
  ∃ e', exchange_loop turn nss q key id st chain e i r = (Err e', (i + length nss)%nat, meanwhile i (i + length nss) r).
Proof.
  revert e i r. induction nss as [|ns nss IH]; intros e i r; cbn [first_answer exchange_loop length].
  - exists e. by rewrite Nat.add_0_r, (ltac:(unfold meanwhile; by rewrite Nat.sub_diag) : meanwhile i i r = r).
  - unfold ask. destruct (ns_exchange (t_net (turn i)) ns q chain).1 as [b'|e']; [done|]. intros H.
    destruct (IH e' (S i) (run_ops (t_others (turn i)) r) H) as [e'' ->]. exists e''. rewrite (meanwhile_step i) by lia.
    by rewrite Nat.add_succ_r.
Qed.

End turns.

Lemma decode_long b m : decode b = Ok m → (12 ≤ length b)%nat.
Proof. unfold decode. by destruct (Nat.ltb_spec (length b) 12). Qed.

(** Operations that leave an entry be. *)
Definition quiet (now : Z) (key : bytes) (op : Op) : Prop :=
  match op with
  | OLoad t _ => t ≤ now
  | OStore _ k _ _ _ _ => k ≠ key
  | OReload _ | OClear => False
  | OStop | OChange _ => True
  end.

Lemma quiet_keeps now key ops r :
  Forall (quiet now key) ops → fresh_lookup now key (cache (run_ops ops r)) = fresh_lookup now key (cache r).
Proof.
  intros H. assert (cache (run_ops (List.filter is_write ops) r) !! key = cache r !! key) as E.
  { revert r. unfold run_ops. induction H as [|op ops Hop H IH]; intros r; [done|]. cbn [List.filter]. destruct op; try done; cbn [is_write foldl]; rewrite IH; try done.
    cbn [run_op set_cache cache]. unfold store. destruct (_ || _); [done|]. by rewrite lookup_insert_ne. }
  assert (Forall (load_by now) ops) as Hl by (eapply Forall_impl; [exact H|]; by intros []).
  rewrite (alike_lookup now key _ _ (alike_run now ops r r Hl (alike_refl now r))). unfold fresh_lookup. by rewrite E.
Qed.

(** C11: the raw exchange of the DNS server. A question that is not in the cache goes
    to the servers in order; the client gets the reply of the first that
    answers, unchanged but for the client's ID. From then on, as long as the
    entry is within its TTLs and nothing clears the cache or replaces the entry,
    whatever else happens to the resolver, any other client with that question
    gets the same reply under its own ID, and no server is asked. *)
Theorem exchange_shared turn q1 m1 q2 m2 qn out r i k b mr turn2 i2 ops :
  let key := cache_key (q_name qn) (qclass qn) (qtype qn) in
  let st := state r in
  decode q1 = Ok m1 → questions m1 = [qn] → decode q2 = Ok m2 → questions m2 = [qn] →
  (load (t_now (turn i)) key (cache r)).1 = None → outbound m1 q1 st = Ok out → s_ttl_negative st = false →
  first_answer turn (servers st) out (r_chain r) i = Some (k, b) → decode b = Ok mr →
  Forall (quiet (t_now (turn2 i2)) key) ops →
  fresh (t_now (turn2 i2)) (mkItem b (t_now (turn (S k))) (s_ttl st) (min_answer_ttl mr)) = true →
  ∃ r1 r2, exchange turn q1 i r = (Ok (to_be 2 (id m1) ++ drop 2 b), S k, r1)
    ∧ exchange turn2 q2 i2 (run_ops ops r1) = (Ok (to_be 2 (id m2) ++ drop 2 b), i2, r2).
Proof.
  intros key st D1 Q1 D2 Q2 Hmiss Hout Hneg Hfirst Hb Hq Hf.
  assert (∀ n, set_msg_id b n = to_be 2 n ++ drop 2 b) as Hid.
  { intros n. unfold set_msg_id. pose proof (decode_long _ _ Hb). destruct (Nat.leb_spec 2 (length b)); [done|lia]. }
  assert (key ≠ []) as Hkey by (unfold key, cache_key; intros E; by apply app_nil in E as [_ [_ ?]%app_nil]).
  unfold exchange at 1. rewrite D1, Q1. fold key. destruct (load (t_now (turn i)) key (cache r)) as [h c] eqn:El. cbn [fst] in Hmiss. subst h.
  fold st. rewrite Hout. destruct (servers st) as [|ns nss] eqn:Es; [done|]. rewrite <-Es in *.
  rewrite (exchange_loop_answers _ _ _ _ _ _ _ _ _ _ k b Hfirst), Hid, Hb. eexists _, _. split; [reflexivity|].
  unfold exchange. rewrite D2, Q2. fold key. rewrite load_spec.
  set (r1 := set_cache (store _ key b mr _ _ _) _). assert (cache r1 !! key = Some (mkItem b (t_now (turn (S k))) (s_ttl st) (min_answer_ttl mr))) as Hc.
  { unfold r1, store. cbn [set_cache cache]. rewrite Hneg, bool_decide_false by done. cbn [orb]. by rewrite lookup_insert_eq. }
  rewrite (quiet_keeps _ _ _ _ Hq). unfold fresh_lookup at 1. rewrite Hc, Hf. cbn [item_bytes]. rewrite Hid. reflexivity.
Qed.

(** A server that answers every question with one record. *)
Definition demo_reply (ttl : Z) : bytes :=
  match encode (mkMessage 1 33152 [Question_new (str "www.example.org") TYPE_A]
                  [mkRr (str "www.example.org.") TYPE_A CLASS_IN ttl [93; 184; 216; 34]] [] []) with Ok b => b | Err _ => [] end.
Definition demo_query (n : Z) : bytes :=
  match encode (Dns.query n (str "www.example.org") TYPE_A) with Ok b => b | Err _ => [] end.
Definition udp_net (answer : bytes → result io_error bytes) : DnsNet :=
  mkDnsNet (λ _ _ q, answer q) (λ _, Err (IoError Other "no")) (λ _, Ok tt) (λ _ _ c, Ok c) (λ _, Err []) (λ _, Err []) (λ _, false).
Definition demo_turn (t : Z) (answer : bytes → result io_error bytes) (i : nat) : Turn :=
  mkTurn (udp_net answer) 0 [] (t + Z.of_nat i).
Definition demo_resolver : Resolver := with_servers [ns_new (str "192.0.2.53"); ns_new (str "192.0.2.54")].

Lemma exchange_shared_witness :
  ∃ r1 r2, exchange (demo_turn 0 (λ _, Ok (demo_reply 60))) (demo_query 17) 0%nat demo_resolver = (Ok (to_be 2 17 ++ drop 2 (demo_reply 60)), 1%nat, r1)
    ∧ exchange (demo_turn (59 * one_second) (λ _, Err (IoError Other "down"))) (demo_query 99) 0%nat
        (run_ops [OLoad (5 * one_second) (str "x"); OStop] r1) = (Ok (to_be 2 99 ++ drop 2 (demo_reply 60)), 0%nat, r2).
Proof.
  destruct (exchange_shared (demo_turn 0 (λ _, Ok (demo_reply 60))) (demo_query 17)
    (Dns.query 17 (str "www.example.org") TYPE_A) (demo_query 99) (Dns.query 99 (str "www.example.org") TYPE_A)
    (Question_new (str "www.example.org") TYPE_A) (demo_query 17) demo_resolver 0%nat 0%nat (demo_reply 60)
    (mkMessage 1 33152 [Question_new (str "www.example.org") TYPE_A]
       [mkRr (str "www.example.org.") TYPE_A CLASS_IN 60 [93; 184; 216; 34]] [] [])
    (demo_turn (59 * one_second) (λ _, Err (IoError Other "down"))) 0%nat [OLoad (5 * one_second) (str "x"); OStop]) as (r1 & r2 & H1 & H2).
  - vm_compute. reflexivity.
  - reflexivity.
  - vm_compute. reflexivity.
  - reflexivity.
  - vm_compute. reflexivity.
  - reflexivity.
  - reflexivity.
  - vm_compute. reflexivity.
  - vm_compute. reflexivity.
  - repeat constructor. vm_compute. by intros.
  - vm_compute. reflexivity.
  - exists r1, r2. split; [exact H1|exact H2].
Defined.

(** ** Failover *)

Definition no_ips (x : result io_error (list IpAddr)) : Prop := ∀ ip l, x ≠ Ok (ip :: l).

Section failover.
Context (turn : nat → Turn) (host : bytes) (st : State) (chain : option ChainDial).

(** Servers asked one after the other, and what each gave. *)
Inductive tried : list NameServer → nat → Resolver → list (result io_error (list IpAddr)) → nat → Resolver → Prop :=
| tried_nil i r : tried [] i r [] i r
| tried_cons ns nss i r x i1 r1 xs i2 r2 :
    resolve_via turn ns host st chain i r = (x, i1, r1) → tried nss i1 r1 xs i2 r2 → tried (ns :: nss) i r (x :: xs) i2 r2.

Lemma query_turns ns qtype i r x i1 r1 : query_ips turn ns host qtype st chain i r = (x, i1, r1) → (i ≤ i1 ≤ S i)%nat.
Proof. unfold query_ips, ask. intros H. repeat case_hyp H; simplify_eq; lia. Qed.

Lemma via_turns ns i r x i1 r1 : resolve_via turn ns host st chain i r = (x, i1, r1) → (i ≤ i1 ≤ i + 2)%nat.
Proof.
  unfold resolve_via. destruct (if bool_decide _ then _ else _) as [t1 t2].
  destruct (query_ips turn ns host t1 st chain i r) as [[y j] s] eqn:E1. apply query_turns in E1.
  assert (∀ x i1 r1, query_ips turn ns host t2 st chain j s = (x, i1, r1) → (i ≤ i1 ≤ i + 2)%nat) as H2 by (intros ??? ?%query_turns; lia).
  destruct y as [[|ip ips]|e]; [by apply H2| |by apply H2]. intros [= <- <- <-]. lia.
Qed.

Lemma tried_turns nss i r xs i' r' : tried nss i r xs i' r' → (i' ≤ i + 2 * length nss)%nat.
Proof. induction 1 as [|ns nss i r x i1 r1 xs i2 r2 Hv _ IH]; cbn; [lia|]. apply via_turns in Hv. lia. Qed.

Lemma resolve_loop_tried nss acc i r res i' r' :
  resolve_loop turn nss host st chain acc i r = (res, i', r') → nss ≠ [] →
  ∃ asked rest xs, nss = asked ++ rest ∧ tried asked i r (xs ++ [res]) i' r' ∧ Forall no_ips xs ∧ (no_ips res → rest = []).
Proof.
  revert acc i r. induction nss as [|ns nss IH]; intros acc i r H Hne; [done|]. clear Hne. cbn [resolve_loop] in H.
  destruct (resolve_via turn ns host st chain i r) as [[x i1] r1] eqn:Ev.
  assert (no_ips x → resolve_loop turn nss host st chain x i1 r1 = (res, i', r') →
    ∃ asked rest xs, ns :: nss = asked ++ rest ∧ tried asked i r (xs ++ [res]) i' r' ∧ Forall no_ips xs ∧ (no_ips res → rest = [])) as Hgo.
  { intros Hx Hl. destruct nss as [|ns2 nss].
    - cbn [resolve_loop] in Hl. simplify_eq. exists [ns], [], []. split_and!; [done| |done|done]. econstructor; [exact Ev|constructor].
    - destruct (IH x i1 r1 Hl) as (asked & rest & xs & E & Ht & Hf & Hr); [done|]. exists (ns :: asked), rest, (x :: xs).
      split_and!; [by rewrite E| |by constructor|done]. econstructor; [exact Ev|exact Ht]. }
  destruct x as [[|ip ips]|e]; [apply Hgo; [by intros ?|done]| |apply Hgo; [by intros ?|done]].
  simplify_eq. exists [ns], nss, []. split_and!; [done|econstructor; [exact Ev|constructor]|done|].
  intros Hno. by destruct (Hno ip ips).
Qed.

End failover.

(** Resolving a name that is no IP literal: the configured servers are asked in
    order, under the settings of the moment it began, until one gives an address,
    which is the result; when none does, all were asked, and the result is what
    the last one gave, empty or an error. At most two queries go to a server, so
    it ends. *)
Theorem resolve_failover turn lookup_host host i r res i' r' :
  host ≠ [] → parse_ip host = None → servers (state r) ≠ [] →
  resolve turn lookup_host host i r = (res, i', r') →
  ∃ asked rest xs,
    servers (state r) = asked ++ rest
    ∧ tried turn (qualify host (state r)) (state r) (r_chain r) asked i r (xs ++ [res]) i' r'
    ∧ Forall no_ips xs ∧ (no_ips res → rest = []) ∧ (i' ≤ i + 2 * length asked)%nat.
Proof.
  intros Hh Hp Hs H. unfold resolve in H. destruct host as [|c host]; [done|]. rewrite Hp in H. destruct (servers (state r)) as [|ns nss] eqn:Es; [done|].
  destruct (resolve_loop_tried _ _ _ _ _ _ _ _ _ _ _ H) as (asked & rest & xs & E & Ht & Hf & Hr); [done|].
  exists asked, rest, xs. split_and!; [done|done|done|done|]. by eapply tried_turns.
Qed.

Lemma resolve_failover_witness :
  ∃ r', resolve (demo_turn 0 (λ q, if bool_decide (length q = 33%nat) then Ok (demo_reply 60) else Err (IoError Other "down"))) (λ _, Ok [])
          (str "www.example.org") 0%nat demo_resolver = (Ok [V4 [93; 184; 216; 34]], 1%nat, r')
    ∧ ∃ asked rest xs, servers (state demo_resolver) = asked ++ rest ∧ Forall no_ips xs ∧ (length asked = 1%nat → rest ≠ []) ∧ (1 ≤ 0 + 2 * length asked)%nat.
Proof.
  set (turn := demo_turn 0 _).
  destruct (resolve turn (λ _, Ok []) (str "www.example.org") 0%nat demo_resolver) as [[res i'] r'] eqn:E.
  assert (res = Ok [V4 [93; 184; 216; 34]] ∧ i' = 1%nat) as [-> ->].
  { apply (f_equal fst) in E. vm_compute in E. injection E as <- <-. done. }
  exists r'. split; [reflexivity|].
  destruct (resolve_failover turn (λ _, Ok []) (str "www.example.org") 0%nat demo_resolver _ _ _ ltac:(discriminate) ltac:(vm_compute; reflexivity) ltac:(discriminate) E)
    as (asked & rest & xs & E1 & _ & Hf & _ & Hi).
  exists asked, rest, xs. split_and!; [exact E1|exact Hf| |exact Hi].
  intros Hl ->. rewrite app_nil_r in E1. subst asked. discriminate Hl.
Defined.

(** ** What the cache keeps *)

(** A reply without answers, such as a server failure, has no TTL of its own: where
    none is configured it is given out forever. *)
Lemma failure_never_expires now key b m c r :
  key ≠ [] → answers m = [] → cache r = store c key b m 0 false ∅ → (load now key (cache r)).1 = Some b.
Proof.
  intros Hk Ha Hc. rewrite load_spec, Hc. unfold store. rewrite bool_decide_false by done. cbn [orb fst]. unfold fresh_lookup.
  rewrite lookup_insert_eq. unfold fresh. cbn [item_ttl min_rr_ttl item_bytes]. unfold min_answer_ttl. by rewrite Ha.
Qed.

(** A reply is not compared with the question: an answer about another name is
    cached and given out for the name that was asked for. *)
Example wrong_answer_cached :
  let turn := demo_turn 0 (λ _, Ok (demo_reply 60)) in
  let q := match encode (Dns.query 5 (str "bank.example") TYPE_A) with Ok b => b | Err _ => [] end in
  let '(x, i, r) := exchange turn q 0%nat demo_resolver in
  x = Ok (to_be 2 5 ++ drop 2 (demo_reply 60))
  ∧ (resolve turn (λ _, Ok []) (str "bank.example") i r).1 = (Ok [V4 [93; 184; 216; 34]], i).
Proof. vm_compute. done. Qed.

(** A reload empties the cache, but an exchange under way then still stores what
    the old servers answer. *)
Example reload_leaves_old_answer :
  let rd := mkReader (str "nameserver 198.51.100.1") None in
  let turn i := mkTurn (udp_net (λ _, Ok (demo_reply 60))) 0 [OReload rd] (Z.of_nat i) in
  let r := (exchange turn (demo_query 5) 0%nat demo_resolver).2 in
  servers (state r) = [ns_new (str "198.51.100.1")]
  ∧ (load 1 (cache_key (str "www.example.org.") CLASS_IN TYPE_A) (cache r)).1 = Some (demo_reply 60).
Proof. vm_compute. done. Qed.

End Resolver.
