(* ===== verification/DnsProxy.v ===== *)
(** * The DNS server

    src/dns_proxy.rs: the server's four modes, its handler for streams, the UDP
    loop with truncation, and the DNS-over-HTTPS endpoint. [ex] is the resolver's
    exchange as it stands when a request is served (Resolver.v); HTTP parsing and
    base64 are parameters. *)

From stdpp Require Import base list option numbers strings sets.
From Stdlib Require Import ZArith Lia.
From S2P Require Import Prelude Text Utf8 IpAddr Conn Socks5Addr HttpConnect Words Http Dns NameServer Resolver.

Module DnsProxy.
Import Dns.

Definition DEFAULT_DNS_UPSTREAM : bytes := str "127.0.0.1:53".
Definition MIN_UDP_SIZE : Z := 512.
Definition MAX_UDP_SIZE : Z := 65535.

Definition resolver_from_spec (parse_url : bytes → result bytes Http.Url) (spec : bytes) : Resolver.Resolver :=
  match trim spec with
  | [] => Resolver.from_inline parse_url DEFAULT_DNS_UPSTREAM
  | spec =>
      let r := Resolver.from_inline parse_url spec in
      match Resolver.servers (Resolver.state r) with [] => Resolver.from_inline parse_url DEFAULT_DNS_UPSTREAM | _ => r end
  end.

Inductive DnsMode : Set := MUdp | MTcp | MTls | MHttps.

Definition dns_mode (s : bytes) : DnsMode :=
  let s := lower <$> s in
  if bool_decide (s = str "tcp") then MTcp
  else if bool_decide (s ∈ [str "tls"; str "dot"]) then MTls
  else if bool_decide (s ∈ [str "https"; str "doh"]) then MHttps
  else MUdp.

Definition udp_buffer_size (configured : Z) : Z := Z.max MIN_UDP_SIZE (Z.min configured MAX_UDP_SIZE).

Definition proxy_io (what : string) (e : io_error) : HandlerError := Proxy (str what ++ str (emsg e)).

Section server.
Context (ex : bytes → result io_error bytes).

(** ** Exchanges *)

Definition exchange_logged (q : bytes) : result HandlerError bytes :=
  match decode q with
  | Err e => Err (proxy_io "request unpack: " e)
  | Ok _ =>
      match ex q with
      | Err e => Err (proxy_io "exchange: " e)
      | Ok reply => match decode reply with Err e => Err (proxy_io "reply unpack: " e) | Ok _ => Ok reply end
      end
  end.

(** [serve_stream], which [DnsHandler::handle] runs. *)
Definition serve_stream : conv HandlerError () :=
  len_buf <~ h_read 2 ;;
  q <~ h_read (Z.to_nat (from_be len_buf)) ;;
  reply <~ clift (exchange_logged q) ;;
  if u16_max <? zlen reply then cfail (Proxy (str "DNS reply too long for TCP"))
  else h_write (to_be 2 (zlen reply)) ;;! h_write reply.

(** ** UDP *)

Definition truncated_response (q : bytes) : option bytes :=
  match decode q with
  | Err _ => None
  | Ok mq =>
      match encode (mkMessage (id mq) (Z.lor (Z.lor 32768 512) (Z.land (flags mq) 256)) (questions mq) [] [] []) with
      | Ok b => Some b
      | Err _ => None
      end
  end.

(** What the client's own buffer holds. *)
Definition udp_limit (q : bytes) : Z :=
  match decode q with
  | Ok m => match edns0_udp_size m with Some s => udp_buffer_size s | None => MIN_UDP_SIZE end
  | Err _ => MIN_UDP_SIZE
  end.

(** The task for one datagram: what is sent back, if anything. *)
Definition udp_answer (q : bytes) : option bytes :=
  match exchange_logged q with
  | Err _ => None
  | Ok reply => Some (if udp_limit q <? zlen reply then default reply (truncated_response q) else reply)
  end.

End server.

(** [serve_udp]: each datagram that arrives, cut to the buffer, gets its own task,
    with the exchange as it is when the task runs; what is sent, and to whom.
    The error of a receive ends it. *)
Fixpoint serve_udp (udp_size : Z) (evs : list (result io_error (bytes * SocketAddr * (bytes → result io_error bytes)))) :
    option io_error * list (bytes * SocketAddr) :=
  match evs with
  | [] => (None, [])
  | Err e :: _ => (Some e, [])
  | Ok (b, peer, ex) :: evs =>
      let '(r, outs) := serve_udp udp_size evs in
      (r, option_list ((λ reply, (reply, peer)) <$> udp_answer ex (take (Z.to_nat (udp_buffer_size udp_size)) b)) ++ outs)
  end.

(** ** DNS over HTTPS *)

Inductive DohRequest : Set := DohQuery (b : bytes) | DohStatus (code : Z).

(** A hexadecimal byte of two characters, the first of which may be a plus. *)
Definition hex_byte (a b : Z) : option Z :=
  if a =? 43 then hex_digit b
  else match hex_digit a, hex_digit b with Some x, Some y => Some (16 * x + y) | _, _ => None end.

Fixpoint percent_bytes (fuel : nat) (s : bytes) : bytes :=
  match fuel with
  | O => []
  | S fuel =>
      match s with
      | [] => []
      | c :: s =>
          match s with
          | a :: b :: rest =>
              match (if c =? 37 then hex_byte a b else None) with
              | Some x => x :: percent_bytes fuel rest
              | None => c :: percent_bytes fuel s
              end
          | _ => c :: percent_bytes fuel s
          end
      end
  end.
Definition percent_decode (s : bytes) : bytes := from_utf8_lossy (percent_bytes (length s) s).

Fixpoint param_of (key : bytes) (pairs : list bytes) : option bytes :=
  match pairs with
  | [] => None
  | item :: pairs =>
      let '(k, v) := match split_once 61 item with Some kv => kv | None => (item, []) end in
      if bool_decide (k = key) then Some (percent_decode v) else param_of key pairs
  end.
Definition query_param (target key : bytes) : option bytes :=
  match split_once 63 target with Some (_, q) => param_of key (split_char 38 q) | None => None end.

Section doh.
Context (b64url_decode : bytes → option bytes)
        (parse_request : bytes → option (option bytes * option bytes * list (bytes * bytes))).

Definition checked (b : bytes) : DohRequest := match decode b with Ok _ => DohQuery b | Err _ => DohStatus 400 end.

Definition parse_doh_request (method target : bytes) (content_type : option bytes) (body : bytes) : DohRequest :=
  if bool_decide (method = str "GET") then
    match default [] (query_param target (str "dns")) with
    | [] => DohStatus 400
    | p => match b64url_decode p with Some ((_ :: _) as b) => checked b | _ => DohStatus 400 end
    end
  else if bool_decide (method = str "POST") then
    let ct := trim (default [] (head (split_char 59 (default [] content_type)))) in
    if negb (eq_ignore_ascii_case ct (str "application/dns-message")) then DohStatus 415 else checked body
  else DohStatus 405.

Definition http_status_text (code : Z) : bytes :=
  if code =? 200 then str "OK"
  else if code =? 400 then str "Bad Request"
  else if code =? 405 then str "Method Not Allowed"
  else if code =? 415 then str "Unsupported Media Type"
  else if code =? 500 then str "Internal Server Error"
  else str "Error".

Definition http_error_response (code : Z) : bytes :=
  let text := http_status_text code in
  str "HTTP/1.1 " ++ show_int code ++ str " " ++ text ++ crlf ++ str "Content-Type: text/plain; charset=utf-8" ++ crlf
  ++ str "Content-Length: " ++ show_int (zlen text + 1) ++ crlf ++ str "Connection: close" ++ crlf ++ crlf ++ text ++ [10].

Definition http_dns_response (body : bytes) : bytes :=
  str "HTTP/1.1 200 OK" ++ crlf ++ str "Server: SDNS" ++ crlf ++ str "Content-Type: application/dns-message" ++ crlf
  ++ str "Content-Length: " ++ show_int (zlen body) ++ crlf ++ str "Connection: close" ++ crlf ++ crlf ++ body.

(** Errors of the last write of a refusal are ignored. *)
Definition refuse (code : Z) : conv io_error () := λ c, (Ok tt, (write_all (http_error_response code) c).2).

(** What the header loop finds. *)
Inductive Head : Set := HClosed | HTooLarge | HFound (buf : bytes) (header_end : nat).
Fixpoint read_request_head (fuel : nat) (buf : bytes) : conv io_error Head :=
  match fuel with
  | O => cret HClosed
  | S fuel =>
      piece <~ read Ns.CHUNK ;;
      match piece with
      | [] => cret HClosed
      | _ =>
          let buf := buf ++ piece in
          if Ns.MAX_HEADER <? zlen buf then cret HTooLarge
          else match Ns.find_header_end buf with Some e => cret (HFound buf e) | None => read_request_head fuel buf end
      end
  end.

Definition header (name : bytes) (hs : list (bytes * bytes)) : option bytes :=
  match head (filter (λ h, eq_ignore_ascii_case (h.1) name = true) hs) with
  | Some (_, v) => if utf8_ok v then Some v else None
  | None => None
  end.

(** The response to a request. *)
Definition doh_response (ex : bytes → result io_error bytes) (method target : bytes) (content_type : option bytes) (body : bytes) : bytes :=
  match parse_doh_request method target content_type body with
  | DohStatus code => http_error_response code
  | DohQuery q => match ex q with Ok reply => http_dns_response reply | Err _ => http_error_response 500 end
  end.

Definition serve_doh_conn (ex : bytes → result io_error bytes) : conv io_error () :=
  hd <~ Ns.enough (λ n, read_request_head n []) ;;
  match hd with
  | HClosed => cret tt
  | HTooLarge => refuse 400
  | HFound buf header_end =>
      match parse_request (take header_end buf) with
      | None => refuse 400
      | Some (method, path, hs) =>
          let len := default 0 (v ← header (str "content-length") hs; parse_unsigned u64_max (trim v)) in
          body <~ Ns.enough (λ n, Ns.read_rest n (Some len) (drop header_end buf)) ;;
          let body := take (Z.to_nat len) body in
          write_all (doh_response ex (default [] method) (default (str "/") path) (header (str "content-type") hs) body)
      end
  end.

End doh.

(** ** The server *)

(** What [serve] starts: a UDP socket, or a TCP listener that speaks DNS or HTTP,
    under TLS or not. *)
Inductive Service : Set := SUdp (size : Z) | SStream (tls : bool) | SHttp (tls : bool).

Definition dns_serve (mode : DnsMode) (identity : bool) (udp_size : Z) : result bytes Service :=
  match mode with
  | MUdp => Ok (SUdp udp_size)
  | MTcp => Ok (SStream false)
  | MTls => if identity then Ok (SStream true) else Err (str "dns mode=tls requires a TLS certificate")
  | MHttps => Ok (SHttp identity)
  end.

(** [with_udp_size]. *)
Definition with_udp_size (size udp_size : Z) : Z := if 0 <? size then size else udp_size.

(** A connection of a stream listener: the handshake, if any, then one request,
    within the read timeout if there is one ([late] when it runs out). *)
Definition serve_conn (accept : Conn → result io_error Conn) (late : bool) (read_timeout : Z) (tls : bool)
    (serve : conv HandlerError ()) (c : Conn) : result HandlerError () * Conn :=
  match (if tls then accept c else Ok c) with
  | Err _ => (Ok tt, c)
  | Ok c => if (0 <? read_timeout) && late then (Err (Proxy (str "dns read timeout")), c) else serve c
  end.

Example percent_examples :
  percent_decode (str "a%41%zz%4") = str "aA%zz%4" ∧ query_param (str "/dns-query?x=1&dns=AAA%2b") (str "dns") = Some (str "AAA+")
  ∧ query_param (str "/dns-query") (str "dns") = None.
Proof. vm_compute. done. Qed.

(** ** Streams *)

(** A client of the resolver's kind against the server, over a stream: what
    each writes is what the other reads; the server's answer is what its resolver
    gives for the query, unchanged, and the bytes around the exchange are left
    alone. *)
Theorem dns_stream_exchange ex q reply more more' :
  is_ok (decode q) = true → zlen q ≤ u16_max → ex q = Ok reply → is_ok (decode reply) = true → zlen reply ≤ u16_max →
  ∃ c2s s2c, serve_stream ex (talk (c2s ++ more) []) = (Ok tt, talk more s2c)
    ∧ Ns.exchange_stream q (talk (s2c ++ more') []) = (Ok reply, talk more' c2s).
Proof.
  intros Hq Lq He Hr Lr. exists (to_be 2 (zlen q) ++ q), (to_be 2 (zlen reply) ++ reply). split.
  - unfold serve_stream. rewrite <-app_assoc. erewrite cbind_ok; [|apply h_read_talk, length_to_be].
    rewrite from_to_be by (pose proof (zlen_nonneg q); unfold u16_max in Lq; cbn; lia).
    rewrite (cbind_ok _ _ _ q (talk more [])) by (apply h_read_talk; unfold zlen; lia).
    assert (exchange_logged ex q = Ok reply) as El.
    { unfold exchange_logged. destruct (decode q); [|done]. rewrite He. by destruct (decode reply). }
    rewrite El. rewrite (cbind_ok _ _ _ reply (talk more [])) by done. destruct (Z.ltb_spec u16_max (zlen reply)); [lia|]. done.
  - rewrite <-app_assoc. by apply Ns.exchange_stream_ok.
Qed.

(** ** UDP *)

(** An answer with the questions alone is no longer than the query. *)
Lemma header_shorter m fl q :
  encode m = Ok q → ∃ b, encode (mkMessage (id m) fl (questions m) [] [] []) = Ok b ∧ (length b ≤ length q)%nat.
Proof.
  unfold encode. cbn [questions answers authorities additionals id flags app]. destruct (encode_all encode_question _) as [qs|]; [|done].
  cbn [rbind]. destruct (encode_all encode_rr (answers m ++ _)) as [rs|]; [|done]. intros [= <-]. cbn [encode_all rbind].
  eexists. split; [reflexivity|]. unfold count. rewrite !length_app, !length_to_be. cbn [length]. rewrite ?length_app. lia.
Qed.

Lemma truncated_flags f :
  let fl := Z.lor (Z.lor 32768 512) (Z.land f 256) in
  u16_ok fl ∧ Z.testbit fl 15 = true ∧ Z.testbit fl 9 = true ∧ Z.testbit fl 8 = Z.testbit f 8.
Proof.
  cbv zeta. assert (Z.land f 256 = 0 ∨ Z.land f 256 = 256) as H.
  { change 256 with (2 ^ 8). destruct (Z.testbit f 8) eqn:E; [right|left]; apply Z.bits_inj'; intros n Hn;
      rewrite Z.land_spec, Z.pow2_bits_eqb, ?Z.bits_0 by lia; destruct (Z.eqb_spec 8 n); subst; by rewrite ?E, ?andb_false_r. }
  split; [destruct H as [->| ->]; done|]. rewrite !Z.lor_spec. split; [done|]. split; [done|].
  rewrite Z.land_spec. by destruct (Z.testbit f 8).
Qed.

(** The server answers a well-formed query over UDP: with the resolver's reply
    when that fits the buffer the client announces (512 bytes if it announces
    none), and otherwise with an empty response to the same questions, with the
    query's ID, its recursion bit and the truncation bit, no longer than the
    query itself. *)
Theorem dns_udp_reply ex mq q reply :
  message_ok mq → encode mq = Ok q → ex q = Ok reply → is_ok (decode reply) = true →
  ∃ out, udp_answer ex q = Some out
    ∧ (zlen reply ≤ udp_limit q → out = reply)
    ∧ (udp_limit q < zlen reply →
       (length out ≤ length q)%nat
       ∧ ∃ fl, decode out = Ok (mkMessage (id mq) fl (questions mq) [] [] [])
           ∧ Z.testbit fl 15 = true ∧ Z.testbit fl 9 = true ∧ Z.testbit fl 8 = Z.testbit (flags mq) 8).
Proof.
  intros Hok He Hex Hr. destruct (encode_decode mq Hok) as (q' & E & Hd). rewrite He in E. injection E as <-.
  destruct (truncated_flags (flags mq)) as (Hfl & H15 & H9 & H8). set (fl := Z.lor (Z.lor 32768 512) (Z.land (flags mq) 256)) in *.
  assert (exchange_logged ex q = Ok reply) as El by (unfold exchange_logged; rewrite Hd, Hex; by destruct (decode reply)).
  destruct (header_shorter mq fl q He) as (b & Eb & Lb).
  assert (decode b = Ok (mkMessage (id mq) fl (questions mq) [] [] [])) as Db.
  { assert (message_ok (mkMessage (id mq) fl (questions mq) [] [] [])) as Ht by (destruct Hok; split; try done; by split; [constructor|]).
    destruct (encode_decode _ Ht) as (b' & Eb' & Db). rewrite Eb in Eb'. by injection Eb' as <-. }
  unfold udp_answer. rewrite El. eexists. split; [reflexivity|]. destruct (Z.ltb_spec (udp_limit q) (zlen reply)); (split; [intros; done || lia|]); [|lia].
  intros _. unfold truncated_response. rewrite Hd. fold fl. rewrite Eb. cbn [default from_option]. split; [exact Lb|]. by exists fl.
Qed.

(** A reply of six hundred bytes, for a client that takes 512. *)
Definition demo_query : Message := query 7 (str "www.example.org") TYPE_A.
Definition demo_long : bytes := to_be 2 7 ++ to_be 2 33152 ++ replicate 596 0.

Lemma dns_stream_exchange_witness :
  ∃ q, encode demo_query = Ok q ∧
  ∃ c2s s2c, serve_stream (λ _, Ok demo_long) (talk (c2s ++ []) []) = (Ok tt, talk [] s2c)
    ∧ Ns.exchange_stream q (talk (s2c ++ []) []) = (Ok demo_long, talk [] c2s).
Proof.
  eexists. split; [vm_compute; reflexivity|].
  refine (dns_stream_exchange (λ _, Ok demo_long) _ demo_long [] [] _ _ eq_refl _ _); vm_compute; reflexivity || discriminate.
Defined.

Lemma dns_udp_reply_witness :
  ∃ q out, encode demo_query = Ok q ∧ udp_answer (λ _, Ok demo_long) q = Some out
    ∧ (length out ≤ length q)%nat ∧ ∃ fl, decode out = Ok (mkMessage 7 fl (questions demo_query) [] [] []) ∧ Z.testbit fl 9 = true.
Proof.
  assert (message_ok demo_query) as Hm.
  { split; try (by split; [constructor|]); try done. split; [|done]. repeat constructor; try done. exact demo_name_ok. }
  destruct (encode demo_query) as [q|] eqn:E; [|vm_compute in E; discriminate].
  destruct (dns_udp_reply (λ _, Ok demo_long) demo_query q demo_long Hm E eq_refl) as (out & Ho & _ & Ht); [vm_compute; reflexivity|].
  destruct Ht as (L & fl & D & _ & H9 & _).
  { vm_compute in E. injection E as <-. vm_compute. reflexivity. }
  exists q, out. repeat split; try done. by exists fl.
Defined.

End DnsProxy.
