(* ===== verification/Udp.v ===== *)
(** * UDP sockets as listeners

    src/udp.rs: one socket, a loop that sorts its datagrams by their source into
    virtual connections, a watcher for each of them, and the connections' own
    reads and writes. Their interleaving is a sequence of events, of which each
    is what one task does between two points at which another can act: in
    particular a connection can be accepted, used and dropped before the loop
    has put it into its map. *)

From stdpp Require Import base list option numbers gmap.
From Stdlib Require Import ZArith Lia.
From S2P Require Import Prelude IpAddr Reload Socks5Addr.

#[export] Instance IpAddr_countable : Countable IpAddr.
Proof.
  apply (inj_countable' (λ ip, match ip with V4 os => inl os | V6 gs => inr gs end : list Z + list Z)
    (λ x, match x with inl os => V4 os | inr gs => V6 gs end)). by intros [].
Defined.
#[export] Instance SocketAddr_countable : Countable SocketAddr.
Proof. apply (inj_countable' (λ a, (sa_ip a, sa_port a)) (λ p, mkAddr p.1 p.2)). by intros []. Defined.

Module Udp.

Definition DEFAULT_TTL : Z := 60 * one_second.
Definition DEFAULT_BACKLOG : Z := 128.
Definition DEFAULT_QUEUE_SIZE : Z := 128.
Definition MAX_DATAGRAM : nat := Z.to_nat 65536.

Record UdpListenConfig : Set := mkConfig { ttl : Z; backlog : Z; queue_size : Z }.

Definition default_config : UdpListenConfig := mkConfig DEFAULT_TTL DEFAULT_BACKLOG DEFAULT_QUEUE_SIZE.

Definition normalized (c : UdpListenConfig) : UdpListenConfig :=
  mkConfig (if ttl c =? 0 then DEFAULT_TTL else ttl c) (if backlog c =? 0 then DEFAULT_BACKLOG else backlog c)
           (if queue_size c =? 0 then DEFAULT_QUEUE_SIZE else queue_size c).

Definition next_backoff (current : Z) : Z :=
  Z.min (if current =? 0 then 5 * 1000000 else current * 2) one_second.

(** ** State *)

(** Who has the connection: the accept queue, a handler, or nobody any more. *)
Inductive Owner : Set := Queued | Held | Gone.
(** Where its watcher is: not started, asleep or checking, past its deadline, or
    finished. *)
Inductive Watch : Set := WNone | WWaiting | WExpired | WDone.

#[export] Instance Owner_eq_dec : EqDecision Owner.
Proof. solve_decision. Defined.
#[export] Instance Watch_eq_dec : EqDecision Watch.
Proof. solve_decision. Defined.

(** A virtual connection with what it shares: its receive queue, the time of its
    last activity, its cancellation token. *)
Record UdpServerConn : Set := mkConn {
  peer : SocketAddr; id : Z; rx : list bytes; pending : option (bytes * nat); activity : Z; closed : bool;
  owner : Owner; watch : Watch }.

Definition set_rx q v := mkConn (peer v) (id v) q (pending v) (activity v) (closed v) (owner v) (watch v).
Definition set_pending p v := mkConn (peer v) (id v) (rx v) p (activity v) (closed v) (owner v) (watch v).
Definition touch now v := mkConn (peer v) (id v) (rx v) (pending v) now (closed v) (owner v) (watch v).
Definition set_closed v := mkConn (peer v) (id v) (rx v) (pending v) (activity v) true (owner v) (watch v).
Definition set_owner o v := mkConn (peer v) (id v) (rx v) (pending v) (activity v) (closed v) o (watch v).
Definition set_watch w v := mkConn (peer v) (id v) (rx v) (pending v) (activity v) (closed v) (owner v) w.

(** Where the demultiplexing loop is: at its [select!], or between offering a new
    connection and sending it its first datagram, or between that and putting it
    into the map, or over. *)
Inductive Demux : Set := Listening | Offered (src : SocketAddr) (k : nat) (datagram : bytes) | Fed (src : SocketAddr) (k : nat) | Stopped.

(** The map gives each peer the connection whose identity, sender and token its
    handle holds, as its number among all that were ever made. *)
Record Listener : Set := mkListener {
  peers : gmap SocketAddr nat; conns : list UdpServerConn; accept_q : list nat; accept_open : bool;
  next_id : Z; recv_backoff : Z; cancelled : bool; demux : Demux }.

Definition set_peers p l := mkListener p (conns l) (accept_q l) (accept_open l) (next_id l) (recv_backoff l) (cancelled l) (demux l).
Definition set_conns c l := mkListener (peers l) c (accept_q l) (accept_open l) (next_id l) (recv_backoff l) (cancelled l) (demux l).
Definition set_queue q l := mkListener (peers l) (conns l) q (accept_open l) (next_id l) (recv_backoff l) (cancelled l) (demux l).
Definition set_backoff b l := mkListener (peers l) (conns l) (accept_q l) (accept_open l) (next_id l) b (cancelled l) (demux l).
Definition set_cancelled l := mkListener (peers l) (conns l) (accept_q l) (accept_open l) (next_id l) (recv_backoff l) true (demux l).
Definition set_demux d l := mkListener (peers l) (conns l) (accept_q l) (accept_open l) (next_id l) (recv_backoff l) (cancelled l) d.
Definition on_conn (k : nat) (f : UdpServerConn → UdpServerConn) l := set_conns (alter f k (conns l)) l.

Definition from_socket : Listener := mkListener ∅ [] [] true 1 0 false Listening.

Definition peer_count (l : Listener) : nat := size (peers l).

(** ** Connections *)

Definition remove_peer (p : SocketAddr) (i : Z) (l : Listener) : Listener :=
  match peers l !! p with
  | Some k => if bool_decide (id <$> conns l !! k = Some i) then set_peers (delete p (peers l)) l else l
  | None => l
  end.

Definition close (k : nat) (l : Listener) : Listener :=
  match conns l !! k with
  | Some v => remove_peer (peer v) (id v) (on_conn k set_closed l)
  | None => l
  end.

(** [Drop]: the receiver goes with the connection. *)
Definition drop_conn (k : nat) (l : Listener) : Listener := on_conn k (set_owner Gone) (close k l).

Definition pending_len (v : UdpServerConn) : nat :=
  match pending v with Some (d, pos) => length d - pos | None => 0 end.

(** The next datagram that is not empty. *)
Fixpoint next_datagram (q : list bytes) : option bytes * list bytes :=
  match q with
  | [] => (None, [])
  | [] :: q => next_datagram q
  | d :: q => (Some d, q)
  end.

Definition hand_over (room : nat) (d : bytes) (pos : nat) (v : UdpServerConn) : poll bytes * UdpServerConn :=
  let n := Nat.min room (length d - pos) in
  (Ready (take n (drop pos d)), set_pending (if (length d <=? pos + n)%nat then None else Some (d, (pos + n)%nat)) v).

(** [poll_read]; [sender] says whether a sender of its queue is left. *)
Definition poll_read (sender : bool) (now : Z) (room : nat) (v : UdpServerConn) : poll bytes * UdpServerConn :=
  if (room =? 0)%nat then (Ready [], v)
  else match pending v with
  | Some (d, pos) => hand_over room d pos v
  | None =>
      let v := match rx v with [] => v | _ => touch now v end in
      let '(d, q) := next_datagram (rx v) in
      let v := set_rx q v in
      match d with
      | Some d => hand_over room d 0 v
      | None => (if sender then Pending else Ready [], v)
      end
  end.

(** [poll_write]: what the socket says of one datagram to the peer. *)
Definition poll_write (now : Z) (answer : poll (result io_error nat)) (v : UdpServerConn) : UdpServerConn :=
  match answer with Ready (Ok _) => touch now v | _ => v end.

(** Who still has a sender of the connection's queue: the map, or the loop. *)
Definition sender_left (k : nat) (l : Listener) : bool :=
  match conns l !! k with
  | Some v => bool_decide (peers l !! peer v = Some k)
              || match demux l with Offered _ k' _ | Fed _ k' => (k' =? k)%nat | _ => false end
  | None => false
  end.

(** ** The loop *)

Section listener.
Context (config : UdpListenConfig).

Inductive TrySend : Set := TrySent (l : Listener) | TryFull | TryClosed.

Definition try_send (d : bytes) (k : nat) (l : Listener) : TrySend :=
  match conns l !! k with
  | None => TryClosed
  | Some v =>
      if bool_decide (owner v = Gone) then TryClosed
      else if queue_size config <=? zlen (rx v) then TryFull
      else TrySent (on_conn k (set_rx (rx v ++ [d])) l)
  end.

(** After the loop: every handle is closed. *)
Definition stop_demux (l : Listener) : Listener :=
  set_demux Stopped (set_peers ∅ (set_conns
    (imap (λ k v, if bool_decide (peers l !! peer v = Some k) then set_closed v else v) (conns l)) l)).

(** A connection for a new peer is made and offered to [accept]. *)
Definition offer (now : Z) (src : SocketAddr) (d : bytes) (l : Listener) : Listener :=
  let k := length (conns l) in
  let l := mkListener (peers l) (conns l ++ [mkConn src (next_id l) [] None now false Queued WNone]) (accept_q l) (accept_open l)
                      (u64 (next_id l + 1)) (recv_backoff l) (cancelled l) (demux l) in
  if negb (accept_open l) then stop_demux (drop_conn k l)
  else if backlog config <=? zlen (accept_q l) then drop_conn k l
  else set_demux (Offered src k d) (set_queue (accept_q l ++ [k]) l).

Definition receive (now : Z) (src : SocketAddr) (d : bytes) (l : Listener) : Listener :=
  match peers l !! src with
  | Some k =>
      match try_send d k l with
      | TrySent l => l
      | TryFull => l
      | TryClosed => offer now src d (set_peers (delete src (peers l)) l)
      end
  | None => offer now src d l
  end.

(** What the loop does next with a connection it has offered. *)
Definition demux_on (l : Listener) : Listener :=
  match demux l with
  | Offered src k d => set_demux (Fed src k) (match try_send d k l with TrySent l => l | _ => l end)
  | Fed src k => set_demux Listening (on_conn k (set_watch WWaiting) (set_peers (<[src := k]> (peers l)) l))
  | _ => l
  end.

(** [ttl_watch]: a check of the deadline, or, when the task is woken by the
    token, its end; then what it does past the deadline. *)
Definition ttl_watch (k : nat) (now : Z) (noticed : bool) (l : Listener) : Listener :=
  match conns l !! k with
  | None => l
  | Some v =>
      match watch v with
      | WWaiting =>
          if noticed && closed v then on_conn k (set_watch WDone) l
          else if activity v + ttl config <=? now then on_conn k (set_watch WExpired) l
          else l
      | WExpired => on_conn k (λ v, set_watch WDone (set_closed v)) (remove_peer (peer v) (id v) l)
      | _ => l
      end
  end.

(** ** Events *)

Inductive Ev : Set :=
| Datagram (now : Z) (src : SocketAddr) (d : bytes)
| RecvError
| DemuxOn
| SeeCancel
| WatchOn (k : nat) (now : Z) (noticed : bool)
| Accept
| Read (k : nat) (now : Z) (room : nat)
| WriteTo (k : nat) (now : Z) (data : bytes) (answer : poll (result io_error nat))
| Shutdown (k : nat)
| DropConn (k : nat)
| Close
| DropListener.

(** What shows of it. *)
Inductive Obs : Set :=
| Accepted (k : nat)
| NoMore
| Got (k : nat) (room : nat) (r : poll bytes)
| SentTo (dst : SocketAddr) (data : bytes).

Definition held (k : nat) (l : Listener) : bool := bool_decide (owner <$> conns l !! k = Some Held).
Definition at_select (l : Listener) : bool := match demux l with Listening => true | _ => false end.

Definition accept (l : Listener) : Listener * list Obs :=
  if negb (accept_open l) then (l, [])
  else match accept_q l with
  | k :: q => (on_conn k (set_owner Held) (set_queue q l), [Accepted k])
  | [] => (l, match demux l with Stopped => [NoMore] | _ => [] end)
  end.

(** The listener is dropped: its token is cancelled, and the connections nobody
    has accepted are dropped with their queue. *)
Definition drop_listener (l : Listener) : Listener :=
  let l := foldl (λ l k, drop_conn k l) (set_cancelled l) (accept_q l) in
  mkListener (peers l) (conns l) [] false (next_id l) (recv_backoff l) (cancelled l) (demux l).

Definition step (ev : Ev) (l : Listener) : Listener * list Obs :=
  match ev with
  | Datagram now src d => (if at_select l then receive now src (take MAX_DATAGRAM d) (set_backoff 0 l) else l, [])
  | RecvError => (if at_select l then set_backoff (next_backoff (recv_backoff l)) l else l, [])
  | DemuxOn => (demux_on l, [])
  | SeeCancel => (if at_select l && cancelled l then stop_demux l else l, [])
  | WatchOn k now noticed => (ttl_watch k now noticed l, [])
  | Accept => accept l
  | Read k now room =>
      match conns l !! k with
      | Some v => if held k l then let '(r, v) := poll_read (sender_left k l) now room v in (on_conn k (λ _, v) l, [Got k room r]) else (l, [])
      | None => (l, [])
      end
  | WriteTo k now data answer =>
      match conns l !! k with
      | Some v => if held k l then (on_conn k (poll_write now answer) l, match answer with Ready (Ok _) => [SentTo (peer v) data] | _ => [] end) else (l, [])
      | None => (l, [])
      end
  | Shutdown k => (if held k l then close k l else l, [])
  | DropConn k => (if held k l then drop_conn k l else l, [])
  | Close => (set_cancelled l, [])
  | DropListener => (if accept_open l then drop_listener l else l, [])
  end.

Fixpoint run (evs : list Ev) (l : Listener) : Listener * list Obs :=
  match evs with
  | [] => (l, [])
  | ev :: evs => let '(l, os) := step ev l in let '(l, os') := run evs l in (l, os ++ os')
  end.

End listener.

(** ** What the connections hold *)

(** What a connection has not been read of yet. *)
Definition in_hand (v : UdpServerConn) : list bytes :=
  match pending v with Some (d, pos) => [drop pos d] | None => [] end ++ rx v.

(** What reads with room for so many bytes take from a sequence of datagrams: each
    a piece of one datagram, as much of it as there is room for, and nothing of
    the empty ones. *)
Inductive cuts : list bytes → list (nat * bytes) → list bytes → Prop :=
| cuts_none ds : cuts ds [] ds
| cuts_empty ds ps rest : cuts ds ps rest → cuts ([] :: ds) ps rest
| cuts_piece d ds room ps rest :
    take room d ≠ [] → cuts (drop room d :: ds) ps rest → cuts (d :: ds) ((room, take room d) :: ps) rest.

Lemma cuts_trans ds ps mid ps' rest : cuts ds ps mid → cuts mid ps' rest → cuts ds (ps ++ ps') rest.
Proof. induction 1; intros; [done|by apply cuts_empty; auto|]. rewrite <-app_comm_cons. apply cuts_piece; auto. Qed.

Lemma cuts_more ds ps rest e : cuts ds ps rest → cuts (ds ++ e) ps (rest ++ e).
Proof. induction 1; cbn [app]; by constructor. Qed.

(** The pieces read, of one connection. *)
Definition piece_of (k : nat) (o : Obs) : list (nat * bytes) :=
  match o with Got k' room (Ready ((_ :: _) as p)) => if (k' =? k)%nat then [(room, p)] else [] | _ => [] end.
Definition pieces (k : nat) (os : list Obs) : list (nat * bytes) := concat (piece_of k <$> os).

(** The datagrams of one source. *)
Definition datagram_of (src : SocketAddr) (ev : Ev) : list bytes :=
  match ev with Datagram _ src' d => if bool_decide (src' = src) then [take MAX_DATAGRAM d] else [] | _ => [] end.
Definition datagrams (src : SocketAddr) (evs : list Ev) : list bytes := concat (datagram_of src <$> evs).

(** The first datagram of a connection that is being set up. *)
Definition in_flight (k : nat) (l : Listener) : list bytes :=
  match demux l with Offered _ k' d => if (k' =? k)%nat then [d] else [] | _ => [] end.

Lemma pieces_app k os os' : pieces k (os ++ os') = pieces k os ++ pieces k os'.
Proof. unfold pieces. by rewrite fmap_app, concat_app. Qed.
Lemma datagrams_app src evs evs' : datagrams src (evs ++ evs') = datagrams src evs ++ datagrams src evs'.
Proof. unfold datagrams. by rewrite fmap_app, concat_app. Qed.

(** Most operations leave all of this alone. *)
Definition sig (v : UdpServerConn) : SocketAddr * Z * list bytes * option (bytes * nat) := (peer v, id v, rx v, pending v).
Definition sigs (l : Listener) := sig <$> conns l.

Lemma sigs_on_conn k f l : (∀ v, sig (f v) = sig v) → sigs (on_conn k f l) = sigs l.
Proof.
  intros Hf. unfold sigs, on_conn. cbn [conns set_conns]. apply list_eq. intros i. rewrite !list_lookup_fmap.
  destruct (decide (i = k)) as [->|Hn]; [rewrite list_lookup_alter_eq|by rewrite list_lookup_alter_ne].
  destruct (conns l !! k) as [v|]; cbn; [by rewrite Hf|done].
Qed.

Lemma sigs_remove p i l : sigs (remove_peer p i l) = sigs l.
Proof. unfold remove_peer. by repeat case_match. Qed.
Lemma sigs_close k l : sigs (close k l) = sigs l.
Proof. unfold close. destruct (conns l !! k); [|done]. rewrite sigs_remove. by apply sigs_on_conn. Qed.
Lemma sigs_drop k l : sigs (drop_conn k l) = sigs l.
Proof. unfold drop_conn. rewrite sigs_on_conn by done. apply sigs_close. Qed.
Lemma sigs_stop l : sigs (stop_demux l) = sigs l.
Proof.
  unfold sigs, stop_demux. cbn [conns set_demux set_peers set_conns]. apply list_eq. intros i. rewrite !list_lookup_fmap, list_lookup_imap.
  destruct (conns l !! i); cbn; [|done]. by case_match.
Qed.
Lemma sigs_watch c k now noticed l : sigs (ttl_watch c k now noticed l) = sigs l.
Proof.
  unfold ttl_watch. destruct (conns l !! k) as [v|]; [|done]. destruct (watch v); try done.
  - destruct (_ && _); [by apply sigs_on_conn|]. destruct (_ <=? _); [by apply sigs_on_conn|done].
  - rewrite sigs_on_conn by done. apply sigs_remove.
Qed.
Lemma sigs_drop_listener l : sigs (drop_listener l) = sigs l.
Proof.
  unfold drop_listener, sigs. cbn [conns]. change (sigs (foldl (λ l k, drop_conn k l) (set_cancelled l) (accept_q l)) = sigs (set_cancelled l)).
  generalize (set_cancelled l). induction (accept_q l) as [|k q IH]; intros m; [done|]. cbn [foldl]. by rewrite IH, sigs_drop.
Qed.

(** ** The invariant *)

(** A registered connection is watched, unless its token is cancelled. *)
Definition minded (v : UdpServerConn) : Prop := closed v = true ∨ watch v = WWaiting ∨ watch v = WExpired.

Section invariant.
Context (config : UdpListenConfig) (Hqueue : 1 ≤ queue_size config).

Record wf (l : Listener) : Prop := {
  wf_peers a k : peers l !! a = Some k → ∃ v, conns l !! k = Some v ∧ peer v = a ∧ minded v;
  wf_demux : match demux l with
             | Offered src k _ => peers l !! src = None ∧ ∃ v, conns l !! k = Some v ∧ peer v = src
             | Fed src k => peers l !! src = None ∧ ∃ v, conns l !! k = Some v ∧ peer v = src
             | Stopped => peers l = ∅
             | Listening => True
             end;
  wf_ids k v : conns l !! k = Some v → id v = u64 (Z.of_nat k + 1);
  wf_next : next_id l = u64 (Z.of_nat (length (conns l)) + 1);
  wf_rx k v : conns l !! k = Some v → zlen (rx v) ≤ queue_size config }.

Definition steady (v v' : UdpServerConn) : Prop :=
  peer v' = peer v ∧ id v' = id v ∧ zlen (rx v') ≤ queue_size config ∧ (minded v → minded v').

Lemma lookup_on_conn k f l i : conns (on_conn k f l) !! i = if decide (i = k) then f <$> conns l !! k else conns l !! i.
Proof.
  unfold on_conn. cbn [conns set_conns]. destruct (decide (i = k)) as [->|]; [apply list_lookup_alter_eq|by apply list_lookup_alter_ne].
Qed.

Lemma wf_on_conn k f l : (∀ v, conns l !! k = Some v → steady v (f v)) → wf l → wf (on_conn k f l).
Proof.
  intros Hf [H1 H2 H3 H4 H5].
  assert (∀ i v, conns l !! i = Some v → ∃ v', conns (on_conn k f l) !! i = Some v' ∧ (v' = v ∨ steady v v')) as Hc.
  { intros i v Hv. rewrite lookup_on_conn. case_decide as E; [subst i; rewrite Hv; cbn; exists (f v); auto|eauto]. }
  assert (∀ i v, conns l !! i = Some v → ∃ v', conns (on_conn k f l) !! i = Some v' ∧ peer v' = peer v) as Hp.
  { intros i v Hv. destruct (Hc i v Hv) as (v' & ? & [->|[? _]]); eauto. }
  split.
  - intros a i (v & Hv & E & Hm)%H1. destruct (Hc i v Hv) as (v' & Hv' & [->|(Ep & _ & _ & Hmm)]); [by eauto|].
    exists v'. split; [done|]. rewrite Ep. auto.
  - cbn [on_conn set_conns demux peers]. destruct (demux l); try done; destruct H2 as [? (v & Hv & <-)]; (split; [done|]); auto.
  - intros i v. rewrite lookup_on_conn. case_decide as E; [subst i|apply H3]. destruct (conns l !! k) as [w|] eqn:Ew; [|done].
    cbn. intros [= <-]. destruct (Hf w eq_refl) as (_ & -> & _). by apply H3.
  - cbn [on_conn set_conns conns next_id]. by rewrite length_alter.
  - intros i v. rewrite lookup_on_conn. case_decide as E; [subst i|apply H5]. destruct (conns l !! k) as [w|] eqn:Ew; [|done].
    cbn. intros [= <-]. apply (Hf w eq_refl).
Qed.

(** Entries can always be taken out. *)
Lemma wf_less p l : p ⊆ peers l → wf l → wf (set_peers p l).
Proof.
  intros Hp [H1 H2 H3 H4 H5]. split; try done.
  - intros a k Ha. apply H1. by eapply lookup_weaken.
  - cbn [set_peers demux peers conns]. destruct (demux l); try done.
    1, 2: destruct H2 as [E ?]; split; [by eapply lookup_weaken_None|done].
    rewrite H2 in Hp. apply map_empty. intros i. eapply lookup_weaken_None; [|exact Hp]. apply lookup_empty.
Qed.

Lemma wf_remove p i l : wf l → wf (remove_peer p i l).
Proof. intros H. unfold remove_peer. repeat case_match; try done. apply wf_less; [apply delete_subseteq|done]. Qed.

Lemma steady_closed v : zlen (rx v) ≤ queue_size config → steady v (set_closed v).
Proof. intros H. repeat split; [done|]. intros _. by left. Qed.

Lemma wf_close k l : wf l → wf (close k l).
Proof.
  intros H. unfold close. destruct (conns l !! k); [|done]. apply wf_remove, wf_on_conn; [|done]. intros w Hw. eapply steady_closed, wf_rx; done.
Qed.
Lemma wf_drop k l : wf l → wf (drop_conn k l).
Proof. intros H%(wf_close k). unfold drop_conn. apply wf_on_conn; [|done]. intros v Hv. repeat split; [|done]. cbn. by eapply wf_rx. Qed.

Lemma wf_stop l : wf l → wf (stop_demux l).
Proof.
  intros [H1 H2 H3 H4 H5]. unfold stop_demux. split; cbn [set_demux set_peers set_conns conns peers demux next_id]; try done.
  - intros k v. rewrite list_lookup_imap. destruct (conns l !! k) as [w|] eqn:E; [|done]. cbn. intros [= <-]. destruct (bool_decide _); by apply (H3 k w).
  - by rewrite length_imap.
  - intros k v. rewrite list_lookup_imap. destruct (conns l !! k) as [w|] eqn:E; [|done]. cbn. intros [= <-]. destruct (bool_decide _); by apply (H5 k w).
Qed.

Lemma wf_set_demux d l :
  wf l → match d with Offered _ _ _ | Fed _ _ | Stopped => False | Listening => True end → wf (set_demux d l).
Proof. intros [H1 H2 H3 H4 H5] Hd. split; try done. cbn. by destruct d. Qed.

Lemma wf_watch k now noticed l : wf l → wf (ttl_watch config k now noticed l).
Proof.
  intros H. unfold ttl_watch. destruct (conns l !! k) as [v|] eqn:Ev; [|done]. pose proof (wf_rx _ H _ _ Ev) as Hrx.
  destruct (watch v); try done.
  - destruct noticed; cbn [andb]; [destruct (closed v) eqn:Ec|]; [|destruct (_ <=? _); [|done]..];
      (apply wf_on_conn; [|done]); intros w Hw; rewrite Ev in Hw; injection Hw as <-; repeat split; auto; intros _; [by left|right; auto..].
  - apply wf_on_conn; [|by apply wf_remove]. intros w Hw. repeat split; [|intros _; by left]. cbn. apply (wf_rx _ (wf_remove _ _ _ H) k w Hw).
Qed.

(** A new connection takes the next number. *)
Lemma wf_offer now src d l : at_select l = true → peers l !! src = None → wf l → wf (offer config now src d l).
Proof using Hqueue.
  intros Hsel Hn [H1 H2 H3 H4 H5]. unfold offer. set (v := mkConn src _ _ _ _ _ _ _). set (l1 := mkListener _ _ _ _ _ _ _ _).
  assert (demux l1 = Listening) as Hd by (unfold at_select in Hsel; by destruct (demux l) eqn:E).
  assert (wf l1) as Hl1.
  { split; cbn [l1 peers conns next_id].
    - intros a k (w & Hw & ? & ?)%H1. exists w. split; [|done]. by apply lookup_app_l_Some.
    - by rewrite Hd.
    - intros k w [Hw|[Hk Hw]]%lookup_app_Some; [by apply H3|]. apply list_lookup_singleton_Some in Hw as [E <-].
      cbn. rewrite H4. do 2 f_equal. lia.
    - rewrite length_app. cbn [length]. rewrite H4. unfold wrap. rewrite Zplus_mod_idemp_l. f_equal. lia.
    - intros k w [Hw|[Hk Hw]]%lookup_app_Some; [by eapply H5|]. apply list_lookup_singleton_Some in Hw as [E <-]. unfold zlen. cbn. lia. }
  cbn [accept_open accept_q l1]. destruct (accept_open l); cbn [negb]; [|by apply wf_stop, wf_drop].
  destruct (_ <=? _); [by apply wf_drop|]. destruct Hl1 as [K1 K2 K3 K4 K5]. split; try done. cbn. split; [done|].
  exists v. split; [|done]. by rewrite list_lookup_middle.
Qed.

Lemma steady_send v d : zlen (rx v) < queue_size config → steady v (set_rx (rx v ++ [d]) v).
Proof. intros H. repeat split; [|done]. cbn. unfold zlen in *. rewrite length_app. cbn. lia. Qed.

Lemma try_send_inv d k l l' :
  try_send config d k l = TrySent l' →
  ∃ v, conns l !! k = Some v ∧ zlen (rx v) < queue_size config ∧ l' = on_conn k (set_rx (rx v ++ [d])) l.
Proof.
  unfold try_send. destruct (conns l !! k) as [v|]; [|done]. case_bool_decide; [done|]. destruct (Z.leb_spec (queue_size config) (zlen (rx v))); [done|].
  intros [= <-]. eauto.
Qed.

Lemma wf_try_send d k l l' : try_send config d k l = TrySent l' → wf l → wf l'.
Proof.
  intros (v & Hv & Hq & ->)%try_send_inv H. apply wf_on_conn; [|done]. intros w Hw. rewrite Hv in Hw. injection Hw as <-. by apply steady_send.
Qed.

Lemma wf_receive now src d l : at_select l = true → wf l → wf (receive config now src d l).
Proof using Hqueue.
  intros Hsel H. unfold receive. destruct (peers l !! src) as [k|] eqn:E; [|by apply wf_offer].
  destruct (try_send config d k l) eqn:Et; [by eapply wf_try_send|done|].
  apply wf_offer; [done|apply lookup_delete_eq|]. apply wf_less; [apply delete_subseteq|done].
Qed.

Lemma wf_demux_on l : wf l → wf (demux_on config l).
Proof.
  intros H. unfold demux_on. destruct (demux l) eqn:Ed; try done.
  - pose proof (wf_demux _ H) as Hd. rewrite Ed in Hd. destruct Hd as [Hn (v & Hv & Hp)].
    destruct (try_send config datagram k l) as [l'| |] eqn:Et.
    + pose proof (wf_try_send _ _ _ _ Et H) as Hw. apply try_send_inv in Et as (w & Hw' & _ & ->). rewrite Hv in Hw'. injection Hw' as <-.
      destruct Hw as [K1 K2 K3 K4 K5]. split; try done. cbn [set_demux demux]. split; [done|]. exists (set_rx (rx v ++ [datagram]) v).
      cbn [set_demux conns]. rewrite lookup_on_conn. case_decide; [|done]. by rewrite Hv.
    + destruct H as [K1 K2 K3 K4 K5]. split; try done. cbn. eauto.
    + destruct H as [K1 K2 K3 K4 K5]. split; try done. cbn. eauto.
  - pose proof (wf_demux _ H) as Hd. rewrite Ed in Hd. destruct Hd as [Hn (v & Hv & Hp)].
    assert (wf (on_conn k (set_watch WWaiting) l)) as Hw.
    { apply wf_on_conn; [|done]. intros w Hw. repeat split; [cbn; by eapply wf_rx|]. intros _. right. by left. }
    destruct Hw as [K1 K2 K3 K4 K5]. split; try done. cbn [set_demux peers on_conn set_conns set_peers conns].
    intros a i. destruct (decide (a = src)) as [->|Ha]; [|rewrite lookup_insert_ne by done; apply K1].
    rewrite lookup_insert_eq. intros [= <-]. exists (set_watch WWaiting v). rewrite list_lookup_alter_eq, Hv. split; [done|].
    split; [done|]. right. by left.
Qed.

Lemma next_datagram_shorter q : (length (next_datagram q).2 ≤ length q)%nat.
Proof. induction q as [|[|] q IH]; cbn in *; lia. Qed.

Lemma steady_read sender now room v : zlen (rx v) ≤ queue_size config → steady v (poll_read sender now room v).2.
Proof.
  intros H. unfold poll_read. destruct (room =? 0)%nat; [by repeat split|]. destruct (pending v) as [[d pos]|].
  { unfold hand_over. cbn [snd]. repeat split; done. }
  pose proof (next_datagram_shorter (rx v)) as Hs.
  assert (rx (match rx v with [] => v | _ => touch now v end) = rx v) as -> by (destruct (rx v) eqn:E; [exact E|exact E]).
  unfold steady, minded, zlen in *. destruct (next_datagram (rx v)) as [[d|] q]; destruct (rx v); cbn [fst snd] in *; split_and!; cbn in *; done || lia.
Qed.

Lemma wf_drop_listener l : wf l → wf (drop_listener l).
Proof.
  intros H. unfold drop_listener. assert (wf (foldl (λ l k, drop_conn k l) (set_cancelled l) (accept_q l))) as Hf.
  { assert (wf (set_cancelled l)) as Hc by (destruct H; by split). revert Hc. generalize (set_cancelled l).
    induction (accept_q l) as [|k q IH]; intros m Hm; [done|]. cbn [foldl]. by apply IH, wf_drop. }
  destruct Hf. by split.
Qed.

Lemma wf_step ev l : wf l → wf (step config ev l).1.
Proof using Hqueue.
  intros H. destruct ev; cbn [step].
  - destruct (at_select l) eqn:E; [|done]. apply wf_receive; [done|]. destruct H; by split.
  - destruct (at_select l); [|done]. destruct H; by split.
  - by apply wf_demux_on.
  - destruct (_ && _); [by apply wf_stop|done].
  - by apply wf_watch.
  - unfold accept. destruct (accept_open l); [|done]. destruct (accept_q l) as [|k q]; [done|]. cbn [negb fst]. apply wf_on_conn; [|destruct H; by split].
    intros v Hv. repeat split; [cbn; by apply (wf_rx _ H k)|done].
  - destruct (conns l !! k) as [v|] eqn:Ev; [|done]. destruct (held k l); [|done].
    pose proof (steady_read (sender_left k l) now room v (wf_rx _ H _ _ Ev)) as Hs. destruct (poll_read _ _ _ _) as [r w]. cbn [fst] in *.
    apply wf_on_conn; [|done]. intros x Hx. rewrite Ev in Hx. by injection Hx as <-.
  - destruct (conns l !! k) as [v|] eqn:Ev; [|done]. destruct (held k l); [|done]. cbn [fst]. apply wf_on_conn; [|done].
    intros x Hx. pose proof (wf_rx _ H _ _ Hx). destruct answer as [|[]]; by repeat split.
  - destruct (held k l); [by apply wf_close|done].
  - destruct (held k l); [by apply wf_drop|done].
  - destruct H; by split.
  - destruct (accept_open l); [by apply wf_drop_listener|done].
Qed.

Lemma run_app evs evs' l :
  run config (evs ++ evs') l = let '(l1, os) := run config evs l in let '(l2, os') := run config evs' l1 in (l2, os ++ os').
Proof.
  revert l. induction evs as [|ev evs IH]; intros l; cbn [run app]; [by destruct (run config evs' l)|].
  destruct (step config ev l) as [l1 os]. rewrite IH. destruct (run config evs l1) as [l2 os2]. destruct (run config evs' l2). by rewrite app_assoc.
Qed.

Lemma wf_run evs l : wf l → wf (run config evs l).1.
Proof using Hqueue.
  revert l. induction evs as [|ev evs IH]; intros l H; [done|]. cbn [run]. apply (wf_step ev) in H.
  destruct (step config ev l) as [l1 os]. cbn [fst] in H. apply IH in H. by destruct (run config evs l1).
Qed.

Lemma wf_start : wf from_socket.
Proof. by split. Qed.

(** ** Delivery *)

(** What an event does for a connection: datagrams can be added behind what is in
    hand, and pieces be read from its front. *)
Definition moves (k : nat) (ev : Ev) (os : list Obs) (l l' : Listener) : Prop :=
  ∀ v', conns l' !! k = Some v' →
    match conns l !! k with
    | Some v => peer v' = peer v ∧ ∃ added, cuts (in_hand v ++ added) (pieces k os) (in_hand v')
                ∧ added ++ in_flight k l' `sublist_of` in_flight k l ++ datagram_of (peer v) ev
    | None => in_hand v' = [] ∧ pieces k os = [] ∧ in_flight k l' `sublist_of` datagram_of (peer v') ev
    end.

Lemma sig_eq v v' : sig v = sig v' → peer v = peer v' ∧ in_hand v = in_hand v'.
Proof. destruct v, v'. unfold sig, in_hand. cbn. intros [= -> -> -> ->]. done. Qed.

(** Where the connections' signatures stay, only the datagram in flight matters. *)
Lemma moves_same k ev os l l' :
  sigs l' = sigs l → pieces k os = [] → in_flight k l' `sublist_of` in_flight k l → moves k ev os l l'.
Proof.
  intros Hs Hp Hf v' Hv'. assert (sigs l' !! k = Some (sig v')) as E by (unfold sigs; by rewrite list_lookup_fmap, Hv').
  rewrite Hs in E. unfold sigs in E. rewrite list_lookup_fmap in E. destruct (conns l !! k) as [v|]; [|done]. cbn in E. injection E as E.
  destruct (sig_eq v v') as [-> ->]; [by unfold sig; f_equal; congruence|]. split; [done|]. exists []. rewrite app_nil_r, Hp.
  split; [constructor|]. by apply sublist_inserts_r.
Qed.

Lemma in_flight_listening k l : at_select l = true → in_flight k l = [].
Proof. unfold at_select, in_flight. by destruct (demux l). Qed.
Lemma demux_remove p i l : demux (remove_peer p i l) = demux l.
Proof. unfold remove_peer. by repeat case_match. Qed.
Lemma demux_close k l : demux (close k l) = demux l.
Proof. unfold close. destruct (conns l !! k); [|done]. by rewrite demux_remove. Qed.
Lemma demux_watch k now noticed l : demux (ttl_watch config k now noticed l) = demux l.
Proof.
  unfold ttl_watch. destruct (conns l !! k) as [v|]; [|done]. destruct (watch v); try done; [by repeat case_match|]. apply demux_remove.
Qed.

Lemma sigs_offer now src d l :
  sigs (offer config now src d l) = sigs l ++ [(src, next_id l, [], None)]
  ∧ (at_select l = true → ∀ k, in_flight k (offer config now src d l) `sublist_of` if (length (conns l) =? k)%nat then [d] else []).
Proof.
  unfold offer. set (l1 := mkListener _ _ _ _ _ _ _ _). assert (sigs l1 = sigs l ++ [(src, next_id l, [], None)]) as Hs by (unfold sigs; cbn [l1 conns]; by rewrite fmap_app).
  cbn [accept_open accept_q l1]. destruct (accept_open l); cbn [negb].
  - destruct (_ <=? _).
    + rewrite sigs_drop. split; [done|]. intros Hsel k. rewrite in_flight_listening; [apply sublist_nil_l|].
      unfold drop_conn, at_select. cbn [on_conn set_conns demux]. by rewrite demux_close.
    + split; [done|]. intros _ k. cbn. done.
  - rewrite sigs_stop, sigs_drop. split; [done|]. intros _ k. apply sublist_nil_l.
Qed.

Lemma moves_offer now src d0 l l2 :
  at_select l = true → at_select l2 = true → sigs l2 = sigs l →
  ∀ k, moves k (Datagram now src d0) [] l (offer config now src (take MAX_DATAGRAM d0) l2).
Proof.
  intros Hl Hl2 Hs k v' Hv'. destruct (sigs_offer now src (take MAX_DATAGRAM d0) l2) as [Ho Hf]. specialize (Hf Hl2 k).
  set (l' := offer _ _ _ _ _) in *. assert (sigs l' !! k = Some (sig v')) as E by (unfold sigs; by rewrite list_lookup_fmap, Hv').
  rewrite Ho, Hs in E. assert (length (conns l2) = length (conns l)) as Hlen.
  { apply (f_equal length) in Hs. unfold sigs in Hs. by rewrite !length_fmap in Hs. }
  rewrite Hlen in Hf. apply lookup_app_Some in E as [E|[Hk E]].
  - unfold sigs in E. rewrite list_lookup_fmap in E. destruct (conns l !! k) as [v|] eqn:Ev; [|done]. cbn in E. injection E as E.
    apply lookup_lt_Some in Ev. destruct (sig_eq v v') as [-> ->]; [by unfold sig; f_equal; congruence|]. split; [done|].
    exists []. rewrite app_nil_r. split; [constructor|]. destruct (Nat.eqb_spec (length (conns l)) k); [lia|].
    apply sublist_nil_r in Hf. rewrite Hf. apply sublist_nil_l.
  - apply list_lookup_singleton_Some in E as [E1 E2]. unfold sigs in E1, Hk. rewrite length_fmap in E1, Hk.
    rewrite (lookup_ge_None_2 (conns l) k) by lia. destruct v'. unfold sig in E2. cbn in E2. injection E2 as <- <- <- <-. split; [done|]. split; [done|].
    destruct (Nat.eqb_spec (length (conns l)) k); [|lia]. cbn. by rewrite bool_decide_eq_true_2.
Qed.

(** A datagram is put behind what a connection has. *)
Lemma moves_send ev d k0 l l' l2 k :
  try_send config d k0 l = TrySent l' → conns l2 = conns l' → 
  (∀ k v, conns l !! k = Some v → (if (k0 =? k)%nat then [d] else []) ++ in_flight k l2 `sublist_of` in_flight k l ++ datagram_of (peer v) ev) →
  moves k ev [] l l2.
Proof.
  intros (v & Hv & _ & ->)%try_send_inv Hc Hf v'. rewrite Hc, lookup_on_conn. case_decide as E.
  - subst k0. rewrite Hv. cbn. intros [= <-]. cbn. split; [done|]. exists [d]. specialize (Hf k v Hv). rewrite Nat.eqb_refl in Hf.
    split; [|done]. unfold in_hand. cbn. rewrite <-app_assoc. constructor.
  - intros Hv'. rewrite Hv'. split; [done|]. specialize (Hf k v' Hv'). destruct (Nat.eqb_spec k0 k); [done|]. exists [].
    rewrite app_nil_r. split; [constructor|done].
Qed.

Lemma next_datagram_cuts q d q' :
  next_datagram q = (d, q') → cuts q [] (option_list d ++ q') ∧ (d = None → q' = []) ∧ d ≠ Some [].
Proof.
  revert d q'. induction q as [|[|b x] q IH]; intros d q'; cbn [next_datagram].
  - intros [= <- <-]. repeat split; [constructor|done].
  - intros H. destruct (IH _ _ H) as (Hc & ?). split; [by constructor|done].
  - intros [= <- <-]. repeat split; [constructor|done..].
Qed.

Lemma hand_over_cuts k room d pos v :
  (0 < room)%nat →
  let '(r, v') := hand_over room d pos v in cuts (drop pos d :: rx v) (piece_of k (Got k room r)) (in_hand v') ∧ peer v' = peer v.
Proof.
  intros Hr. unfold hand_over. set (n := Nat.min room (length d - pos)). split; [|done].
  assert (take n (drop pos d) = take room (drop pos d)) as ->.
  { unfold n. rewrite <-length_drop. destruct (Nat.le_ge_cases room (length (drop pos d))); [by rewrite Nat.min_l|].
    rewrite Nat.min_r, !take_ge by lia. done. }
  destruct (decide (drop pos d = [])) as [E0|E0].
  { rewrite E0, take_nil. apply (f_equal length) in E0. rewrite length_drop in E0. cbn in E0. unfold in_hand. cbn.
    destruct (Nat.leb_spec (length d) (pos + n)); [|lia]. apply cuts_empty, cuts_none. }
  assert (take room (drop pos d) ≠ []) as Hne by (destruct (drop pos d), room; done || lia).
  assert (piece_of k (Got k room (Ready (take room (drop pos d)))) = [(room, take room (drop pos d))]) as ->.
  { cbn. destruct (take room (drop pos d)); [done|]. by rewrite Nat.eqb_refl. }
  apply cuts_piece; [done|]. rewrite drop_drop. unfold in_hand. cbn.
  destruct (Nat.leb_spec (length d) (pos + n)); cbn.
  - rewrite drop_ge by (unfold n in *; lia). apply cuts_empty, cuts_none.
  - assert (n = room) as -> by (unfold n in *; lia). apply cuts_none.
Qed.

Lemma poll_read_cuts k sender now room v :
  let '(r, v') := poll_read sender now room v in cuts (in_hand v) (piece_of k (Got k room r)) (in_hand v') ∧ peer v' = peer v.
Proof.
  unfold poll_read. destruct (Nat.eqb_spec room 0) as [->|Hr]; [split; [constructor|done]|].
  destruct (pending v) as [[d pos]|] eqn:Ep.
  { pose proof (hand_over_cuts k room d pos v ltac:(lia)) as H. unfold in_hand at 1. rewrite Ep. exact H. }
  set (v1 := match rx v with [] => v | _ => touch now v end).
  assert (rx v1 = rx v ∧ peer v1 = peer v ∧ pending v1 = None) as (-> & Hp & Hn) by (unfold v1; by destruct (rx v) eqn:E).
  assert (in_hand v = rx v) as -> by (unfold in_hand; by rewrite Ep).
  destruct (next_datagram (rx v)) as [d q] eqn:En. destruct (next_datagram_cuts _ _ _ En) as (Hc & Hq & _). destruct d as [d|].
  - pose proof (hand_over_cuts k room d 0 (set_rx q v1) ltac:(lia)) as H. destruct (hand_over _ _ _ _) as [r v']. destruct H as [H ->]. split; [|done].
    apply (cuts_trans _ [] (d :: q)); [done|]. by rewrite drop_0 in H.
  - split; [|done]. rewrite (Hq eq_refl) in *. unfold in_hand. cbn. rewrite Hn. by destruct sender.
Qed.

Lemma moves_step ev l k : wf l → moves k ev (step config ev l).2 l (step config ev l).1.
Proof.
  intros H. assert (∀ ev, moves k ev [] l l) as Hid by (intros; by apply moves_same). destruct ev; cbn [step].
  - destruct (at_select l) eqn:Es; [|apply Hid]. cbn [fst snd]. unfold receive. cbn [set_backoff peers].
    destruct (peers l !! src) as [k0|] eqn:Ep; [|by apply moves_offer]. destruct (try_send config _ k0 _) as [l'| |] eqn:Et; [|apply Hid|].
    + refine (moves_send _ _ k0 (set_backoff 0 l) l' l' k Et eq_refl _). intros k1 v Hv. cbn in Hv. destruct (wf_peers _ H _ _ Ep) as (v0 & Hv0 & Hp & _).
      rewrite (in_flight_listening k1 l'); [|apply try_send_inv in Et as (? & _ & _ & ->); exact Es].
      destruct (Nat.eqb_spec k0 k1); [|apply sublist_nil_l]. subst. rewrite Hv0 in Hv. injection Hv as <-. cbn. rewrite bool_decide_eq_true_2 by done.
      by apply sublist_inserts_l.
    + by apply moves_offer.
  - by destruct (at_select l); [apply moves_same|apply Hid].
  - cbn [fst snd]. unfold demux_on. destruct (demux l) as [|src k0 d|src k0|] eqn:Ed; try apply Hid.
    + destruct (try_send config d k0 l) as [l'| |] eqn:Et.
      * refine (moves_send _ _ k0 l l' (set_demux (Fed src k0) l') k Et eq_refl _). intros k1 v Hv. unfold in_flight. rewrite Ed. cbn. by rewrite !app_nil_r.
      * apply moves_same; [done..|apply sublist_nil_l].
      * apply moves_same; [done..|apply sublist_nil_l].
    + apply moves_same; [|done|apply sublist_nil_l]. by apply (sigs_on_conn k0 (set_watch WWaiting) (set_peers (<[src := k0]> (peers l)) l)).
  - destruct (_ && _); [|apply Hid]. apply moves_same; [apply sigs_stop|done|apply sublist_nil_l].
  - apply moves_same; [apply sigs_watch|done|]. unfold in_flight. cbn. by rewrite demux_watch.
  - unfold accept. destruct (accept_open l); [|apply Hid]. destruct (accept_q l) as [|k0 q]; cbn [negb].
    + apply moves_same; [done| |done]. by destruct (demux l).
    + apply moves_same; [by apply (sigs_on_conn k0 (set_owner Held) (set_queue q l))|done|done].
  - destruct (conns l !! k0) as [v|] eqn:Ev; [|apply Hid]. destruct (held k0 l); [|apply Hid].
    pose proof (poll_read_cuts k0 (sender_left k0 l) now room v) as Hc. destruct (poll_read _ _ _ _) as [r w]. destruct Hc as [Hc Hp].
    intros v'. cbn [fst snd]. rewrite lookup_on_conn. unfold pieces. cbn [fmap list_fmap concat]. rewrite app_nil_r. case_decide as E.
    + subst k0. rewrite Ev. cbn. intros [= <-]. split; [done|]. exists []. rewrite app_nil_r. split; [done|]. by rewrite app_nil_r.
    + intros Hv'. rewrite Hv'. split; [done|]. exists []. rewrite !app_nil_r. split; [|done]. cbn. destruct r as [|[|]]; try constructor.
      destruct (Nat.eqb_spec k0 k); [by subst|constructor].
  - destruct (conns l !! k0) as [v|] eqn:Ev; [|apply Hid]. destruct (held k0 l); [|apply Hid].
    apply moves_same; [|by destruct answer as [|[]]|done]. apply sigs_on_conn. intros x. by destruct answer as [|[]].
  - destruct (held k0 l); [|apply Hid]. apply moves_same; [apply sigs_close|done|]. unfold in_flight. cbn. by rewrite demux_close.
  - destruct (held k0 l); [|apply Hid]. apply moves_same; [apply sigs_drop|done|]. unfold in_flight. cbn. by rewrite demux_close.
  - by apply moves_same.
  - destruct (accept_open l); [|apply Hid]. apply moves_same; [apply sigs_drop_listener|done|]. unfold in_flight, drop_listener. cbn [fst demux].
    assert (∀ q m, demux (foldl (λ l k, drop_conn k l) m q) = demux m) as ->.
    { induction q as [|k0 q IH]; intros m; [done|]. cbn [foldl]. rewrite IH. cbn. apply demux_close. }
    done.
Qed.

(** Connections are never forgotten, and nothing is read from one that is not there. *)
Lemma sigs_length l l' : sigs l' = sigs l → length (conns l') = length (conns l).
Proof. intros H%(f_equal length). unfold sigs in H. by rewrite !length_fmap in H. Qed.

Lemma step_grows ev l : (length (conns l) ≤ length (conns (step config ev l).1))%nat.
Proof.
  assert (∀ k f l, length (conns (on_conn k f l)) = length (conns l)) as Ho by (intros; apply length_alter).
  assert (∀ l now src d, (length (conns l) ≤ length (conns (offer config now src d l)))%nat) as Hof.
  { intros m now src d. destruct (sigs_offer now src d m) as [E _]. apply (f_equal length) in E. unfold sigs in E. rewrite length_app, !length_fmap in E.
    cbn in E. lia. }
  assert (∀ d k l l', try_send config d k l = TrySent l' → length (conns l') = length (conns l)) as Ht
    by (intros d k m m' (v & _ & _ & ->)%try_send_inv; apply Ho).
  destruct ev; cbn [step fst]; try done.
  - destruct (at_select l); [|done]. unfold receive. cbn [set_backoff peers]. destruct (peers l !! src); [|apply (Hof (set_backoff 0 l))].
    destruct (try_send _ _ _ _) eqn:E; [by rewrite (Ht _ _ _ _ E)|done|]. apply (Hof (set_peers (delete src (peers l)) (set_backoff 0 l))).
  - by destruct (at_select l).
  - unfold demux_on. destruct (demux l); try done; cbn [set_demux conns].
    + destruct (try_send _ _ _ _) eqn:E; [by rewrite (Ht _ _ _ _ E)|done|done].
    + by rewrite Ho.
  - destruct (_ && _); [|done]. by rewrite (sigs_length _ _ (sigs_stop l)).
  - by rewrite (sigs_length _ _ (sigs_watch config k now noticed l)).
  - unfold accept. destruct (accept_open l); [|done]. destruct (accept_q l); [done|]. cbn [negb fst]. by rewrite Ho.
  - destruct (conns l !! k); [|done]. destruct (held k l); [|done]. destruct (poll_read _ _ _ _). cbn [fst]. by rewrite Ho.
  - destruct (conns l !! k); [|done]. destruct (held k l); [|done]. cbn [fst]. by rewrite Ho.
  - destruct (held k l); [|done]. by rewrite (sigs_length _ _ (sigs_close k l)).
  - destruct (held k l); [|done]. by rewrite (sigs_length _ _ (sigs_drop k l)).
  - destruct (accept_open l); [|done]. by rewrite (sigs_length _ _ (sigs_drop_listener l)).
Qed.

Lemma step_pieces ev l k : conns l !! k = None → pieces k (step config ev l).2 = [].
Proof.
  intros Hn. destruct ev; cbn [step]; try done.
  - unfold accept. destruct (accept_open l); [|done]. destruct (accept_q l); [|done]. by destruct (demux l).
  - destruct (conns l !! k0) as [v|] eqn:Ev; [|done]. destruct (held k0 l); [|done]. destruct (poll_read _ _ _ _) as [r w]. cbn [snd].
    unfold pieces. cbn. destruct r as [|[|]]; try done. destruct (Nat.eqb_spec k0 k); [|done]. congruence.
  - destruct (conns l !! k0) as [v|]; [|done]. destruct (held k0 l); [|done]. by destruct answer as [|[]].
Qed.

Definition delivered (evs : list Ev) (os : list Obs) (l : Listener) : Prop :=
  ∀ k, match conns l !! k with
       | Some v => ∃ ds, ds ++ in_flight k l `sublist_of` datagrams (peer v) evs ∧ cuts ds (pieces k os) (in_hand v)
       | None => pieces k os = []
       end.

Lemma delivered_run evs : let '(l, os) := run config evs from_socket in delivered evs os l.
Proof using Hqueue.
  induction evs as [|ev evs IH] using rev_ind; [done|]. rewrite run_app. pose proof (wf_run evs _ wf_start) as Hw.
  destruct (run config evs from_socket) as [l os]. cbn [fst] in Hw. cbn [run]. pose proof (λ k, moves_step ev l k Hw) as Hm.
  pose proof (step_grows ev l) as Hg. pose proof (step_pieces ev l) as Hp. destruct (step config ev l) as [l' os']. cbn [fst snd] in *. rewrite app_nil_r.
  intros k. specialize (IH k). specialize (Hm k). rewrite pieces_app. destruct (conns l' !! k) as [v'|] eqn:Ev'.
  - specialize (Hm v' Ev'). destruct (conns l !! k) as [v|] eqn:Ev.
    + destruct Hm as (-> & added & Hc & Hs). destruct IH as (ds & Hd & Hcs). exists (ds ++ added). split.
      * rewrite datagrams_app, <-app_assoc. unfold datagrams at 2. cbn. rewrite app_nil_r. transitivity (ds ++ in_flight k l ++ datagram_of (peer v) ev).
        { by apply sublist_app. }
        rewrite app_assoc. by apply sublist_app.
      * eapply cuts_trans; [|exact Hc]. by apply cuts_more.
    + destruct Hm as (-> & -> & Hs). rewrite IH. exists []. split; [|constructor]. rewrite datagrams_app. unfold datagrams at 2. cbn. rewrite app_nil_r.
      by apply sublist_inserts_l.
  - apply lookup_ge_None in Ev'. rewrite (Hp k) by (apply lookup_ge_None; lia). rewrite (lookup_ge_None_2 (conns l) k) in IH by lia. by rewrite IH.
Qed.

End invariant.

(** C20: Whatever happens on the listener, in any interleaving of its tasks: what a
    handler reads from a virtual connection are the datagrams of the one peer
    the connection is for, in the order they came, none twice; a read never
    runs over the end of a datagram and takes as much of it as there is room
    for, and what was not taken of a datagram comes with the next read. *)
Theorem udp_delivery config evs k v :
  1 ≤ queue_size config →
  let '(l, os) := run config evs from_socket in
  conns l !! k = Some v →
  ∃ ds, ds `sublist_of` datagrams (peer v) evs ∧ cuts ds (pieces k os) (in_hand v).
Proof.
  intros Hq. pose proof (delivered_run config Hq evs) as H. destruct (run config evs from_socket) as [l os]. intros Hv. specialize (H k).
  rewrite Hv in H. destruct H as (ds & Hs & Hc). exists ds. split; [|done]. etransitivity; [|exact Hs]. by apply sublist_inserts_r.
Qed.

(** ** Closing *)

(** What is pending is never used up. *)
Definition pending_ok (p : option (bytes * nat)) : Prop := match p with Some (d, pos) => (pos < length d)%nat | None => True end.
Definition pendings (l : Listener) : list (option (bytes * nat)) := pending <$> conns l.

Lemma pendings_sigs l l' : sigs l' = sigs l → pendings l' = pendings l.
Proof. intros H%(f_equal (fmap snd)). unfold sigs in H. by rewrite <-!list_fmap_compose in H. Qed.

Lemma pendings_on_conn k f l :
  (∀ v, conns l !! k = Some v → pending_ok (pending v) → pending_ok (pending (f v))) → Forall pending_ok (pendings l) → Forall pending_ok (pendings (on_conn k f l)).
Proof.
  intros Hf H. unfold pendings in *. rewrite Forall_fmap, Forall_lookup in *. intros i v. rewrite lookup_on_conn. case_decide; [|apply H]. subst i.
  destruct (conns l !! k) as [w|] eqn:E; [|done]. cbn. intros [= <-]. by apply Hf, (H k).
Qed.

Lemma hand_over_pending room d pos v : (0 < room)%nat → (pos < length d)%nat → pending_ok (pending (hand_over room d pos v).2).
Proof. intros. cbn. destruct (Nat.leb_spec (length d) (pos + Nat.min room (length d - pos))); cbn; lia. Qed.

Lemma poll_read_pending sender now room v : pending_ok (pending v) → pending_ok (pending (poll_read sender now room v).2).
Proof.
  intros H. unfold poll_read. destruct (Nat.eqb_spec room 0); [done|]. destruct (pending v) as [[d pos]|] eqn:Ep; [apply hand_over_pending; [lia|done]|].
  set (v1 := match rx v with [] => v | _ => touch now v end). assert (pending v1 = None) as Hn by (unfold v1; by destruct (rx v)).
  pose proof (next_datagram_cuts (rx v1)) as Hc. destruct (next_datagram (rx v1)) as [[d|] q].
  - apply hand_over_pending; [lia|]. destruct (Hc _ _ eq_refl) as (_ & _ & Hd). destruct d; [done|]. cbn. lia.
  - cbn. by rewrite Hn.
Qed.

Lemma pendings_step config ev l : Forall pending_ok (pendings l) → Forall pending_ok (pendings (step config ev l).1).
Proof.
  intros H. assert (∀ l', sigs l' = sigs l → Forall pending_ok (pendings l')) as Hs by (intros l' E; by rewrite (pendings_sigs l l')).
  assert (∀ now src d l', sigs l' = sigs l → Forall pending_ok (pendings (offer config now src d l'))) as Ho.
  { intros now src d l' E. destruct (sigs_offer config now src d l') as [Eo _]. apply (f_equal (fmap snd)) in Eo. unfold sigs, pendings in *.
    rewrite fmap_app, <-!list_fmap_compose in Eo. change (snd ∘ sig) with pending in Eo. rewrite Eo. apply Forall_app. split; [by apply Hs|]. by repeat constructor. }
  assert (∀ d k l' l2, sigs l' = sigs l → try_send config d k l' = TrySent l2 → Forall pending_ok (pendings l2)) as Ht.
  { intros d k l' l2 E (v & Hv & _ & ->)%try_send_inv. apply pendings_on_conn; [|by apply Hs]. done. }
  destruct ev; cbn [step fst]; try done.
  - destruct (at_select l); [|done]. unfold receive. cbn [set_backoff peers]. destruct (peers l !! src); [|by apply Ho].
    destruct (try_send _ _ _ _) eqn:E; [by eapply (Ht _ _ (set_backoff 0 l))|done|by apply Ho].
  - by destruct (at_select l).
  - unfold demux_on. destruct (demux l) eqn:Ed; try done.
    + destruct (try_send _ _ _ _) eqn:E; [exact (Ht _ _ l _ eq_refl E)|done|done].
    + apply Hs. by apply (sigs_on_conn k (set_watch WWaiting) (set_peers (<[src := k]> (peers l)) l)).
  - destruct (_ && _); [|done]. apply Hs, sigs_stop.
  - apply Hs, sigs_watch.
  - unfold accept. destruct (accept_open l); [|done]. destruct (accept_q l) as [|k q]; [done|]. cbn [negb fst]. apply Hs.
    by apply (sigs_on_conn k (set_owner Held) (set_queue q l)).
  - destruct (conns l !! k) as [v|] eqn:Ev; [|done]. destruct (held k l); [|done]. pose proof (poll_read_pending (sender_left k l) now room v) as Hp.
    destruct (poll_read _ _ _ _) as [r w]. cbn [fst]. apply pendings_on_conn; [|done]. intros x. rewrite Ev. by intros [= <-].
  - destruct (conns l !! k) as [v|] eqn:Ev; [|done]. destruct (held k l); [|done]. cbn [fst]. apply Hs, sigs_on_conn. intros x. by destruct answer as [|[]].
  - destruct (held k l); [|done]. apply Hs, sigs_close.
  - destruct (held k l); [|done]. apply Hs, sigs_drop.
  - destruct (accept_open l); [|done]. apply Hs, sigs_drop_listener.
Qed.

Lemma pendings_run config evs l : Forall pending_ok (pendings l) → Forall pending_ok (pendings (run config evs l).1).
Proof.
  revert l. induction evs as [|ev evs IH]; intros l H; [done|]. cbn [run]. apply (pendings_step config ev) in H.
  destruct (step config ev l) as [l1 os]. cbn [fst] in H. apply IH in H. by destruct (run config evs l1).
Qed.

(** Reads of a connection nobody sends to any more. *)
Lemma cuts_bytes ds ps rest : cuts ds ps rest → concat ds = concat ps.*2 ++ concat rest.
Proof.
  induction 1 as [|? ? ? _ IH|d ds rm ps rest _ _ IH]; cbn; [done|done|]. cbn in IH. rewrite <-(take_drop rm d) at 1. rewrite <-!app_assoc. f_equal. exact IH.
Qed.

Lemma read_last now room v :
  (0 < room)%nat → pending_ok (pending v) →
  let '(r, v') := poll_read false now room v in
  ∃ p, r = Ready p ∧ p ++ concat (in_hand v') = concat (in_hand v) ∧ (p = [] → concat (in_hand v) = []).
Proof.
  intros Hr Hp. pose proof (poll_read_cuts 0 false now room v) as Hc.
  assert (∃ p, (poll_read false now room v).1 = Ready p ∧ (p = [] → pending v = None ∧ next_datagram (rx v) = (None, []))) as (p & Ep & He).
  { unfold poll_read. destruct (Nat.eqb_spec room 0); [lia|]. destruct (pending v) as [[d pos]|] eqn:Epd.
    - eexists. split; [reflexivity|]. intros E%(f_equal length). rewrite length_take, length_drop in E. cbn in E, Hp. lia.
    - assert (rx (match rx v with [] => v | _ => touch now v end) = rx v) as -> by (destruct (rx v) eqn:E; exact E).
      pose proof (next_datagram_cuts (rx v)) as Hn. destruct (next_datagram (rx v)) as [[d|] q]; destruct (Hn _ _ eq_refl) as (_ & Hq & Hd).
      + eexists. split; [reflexivity|]. rewrite drop_0. destruct d, room; done || lia.
      + eexists. split; [reflexivity|]. by rewrite Hq. }
  destruct (poll_read false now room v) as [r v'] eqn:E. cbn in Ep. subst r. destruct Hc as [Hc _]. exists p. split; [done|].
  pose proof (cuts_bytes _ _ _ Hc) as Hb. split.
  - rewrite Hb. destruct p; [done|]. cbn. by rewrite app_nil_r.
  - intros E0. destruct (He E0) as [Hn Hq]. destruct (next_datagram_cuts _ _ _ Hq) as (Hcq & _). unfold in_hand. rewrite Hn. cbn.
    by rewrite (cuts_bytes _ _ _ Hcq).
Qed.

Lemma poll_read_owner sender now room v : owner (poll_read sender now room v).2 = owner v.
Proof.
  unfold poll_read. destruct (room =? 0)%nat; [done|]. destruct (pending v) as [[]|]; [done|].
  destruct (next_datagram _) as [[d|] q]; by destruct (rx v).
Qed.

(** One read: what a handler sees and what changes. *)
Lemma step_read config k now room l v :
  conns l !! k = Some v → owner v = Held →
  let '(r, v') := poll_read (sender_left k l) now room v in
  ∃ l', step config (Read k now room) l = (l', [Got k room r])
    ∧ conns l' !! k = Some v' ∧ owner v' = Held ∧ peers l' = peers l ∧ sender_left k l' = sender_left k l.
Proof.
  intros Hv Ho. cbn [step]. rewrite Hv. assert (held k l = true) as -> by (unfold held; rewrite Hv; cbn; by rewrite Ho).
  pose proof (poll_read_owner (sender_left k l) now room v) as Hw. pose proof (poll_read_cuts k (sender_left k l) now room v) as Hp.
  destruct (poll_read (sender_left k l) now room v) as [r v'] eqn:E. destruct Hp as [_ Hp]. cbn [snd] in Hw. eexists. split; [reflexivity|].
  assert (conns (on_conn k (λ _, v') l) !! k = Some v') as Hv' by (rewrite lookup_on_conn; case_decide; [|done]; by rewrite Hv).
  split; [done|]. split; [congruence|]. split; [done|]. unfold sender_left at 1. rewrite Hv'. unfold sender_left. rewrite Hv, Hp. done.
Qed.

Lemma reads_drain config k now room n : ∀ l v,
  (length (concat (in_hand v)) ≤ n)%nat → (0 < room)%nat →
  conns l !! k = Some v → owner v = Held → sender_left k l = false → pending_ok (pending v) →
  ∃ m, let '(l', os) := run config (replicate m (Read k now room)) l in
       concat (pieces k os).*2 = concat (in_hand v) ∧ (step config (Read k now room) l').2 = [Got k room (Ready [])] ∧ peers l' = peers l.
Proof.
  induction n as [n IH] using lt_wf_ind. intros l v Hn Hr Hv Ho Hs Hp.
  pose proof (step_read config k now room l v Hv Ho) as Hstep. rewrite Hs in Hstep. pose proof (read_last now room v Hr Hp) as Hl.
  pose proof (poll_read_pending false now room v Hp) as Hp'. destruct (poll_read false now room v) as [r v']. cbn [snd] in Hp'.
  destruct Hl as (p & -> & Hb & He). destruct Hstep as (l1 & E & Hv' & Ho' & Hpe & Hs'). destruct p as [|b p].
  - exists 0%nat. cbn [run replicate]. rewrite E, (He eq_refl). done.
  - rewrite <-Hb in Hn. rewrite length_app in Hn. cbn [length] in Hn.
    destruct (IH (length (concat (in_hand v'))) ltac:(lia) l1 v' ltac:(lia) Hr Hv' Ho' Hs' Hp') as [m Hm].
    exists (S m). cbn [run replicate]. rewrite E. destruct (run config _ l1) as [l2 os]. destruct Hm as (Hc & Ht & Hpp). split; [|split; [done|congruence]].
    rewrite pieces_app. unfold pieces at 1. cbn [fmap list_fmap concat piece_of]. rewrite Nat.eqb_refl, app_nil_r. rewrite fmap_app, concat_app. cbn. by rewrite Hc, app_nil_r.
Qed.

(** A virtual connection that was idle for its time to live is closed: its
    watcher's next two turns take its entry out of the map, and no other; and a
    handler that goes on reading gets what was still queued, whatever the size
    of its reads, and then the end of the stream. *)
Theorem udp_idle_closed config evs a k v now now' n1 n2 room :
  1 ≤ queue_size config → (0 < room)%nat →
  let l := (run config evs from_socket).1 in
  peers l !! a = Some k → conns l !! k = Some v → closed v = false → activity v + ttl config ≤ now →
  let l' := (run config [WatchOn k now n1; WatchOn k now' n2] l).1 in
  peers l' = delete a (peers l)
  ∧ (owner v = Held →
     ∃ m, let '(l2, os) := run config (replicate m (Read k now' room)) l' in
          concat (pieces k os).*2 = concat (in_hand v) ∧ (step config (Read k now' room) l2).2 = [Got k room (Ready [])]).
Proof.
  intros Hq Hr l Ha Hv Hc Hi l'. pose proof (wf_run config Hq evs _ (wf_start config)) as Hw. fold l in Hw.
  destruct (wf_peers _ _ Hw _ _ Ha) as (w & Hw' & Hpa & Hm). rewrite Hv in Hw'. injection Hw' as <-.
  assert (∃ l1 v1, conns l1 !! k = Some v1 ∧ peers l1 = peers l ∧ demux l1 = demux l ∧ sig v1 = sig v ∧ owner v1 = owner v ∧ watch v1 = WExpired
    ∧ (l' = on_conn k (λ v, set_watch WDone (set_closed v)) (remove_peer (peer v1) (id v1) l1))) as (l1 & v1 & Hv1 & Hp1 & Hd1 & Hs1 & Ho1 & _ & El).
  { unfold l'. cbn [run step]. destruct Hm as [Hm|[Hm|Hm]]; [congruence|..].
    - exists (on_conn k (set_watch WExpired) l), (set_watch WExpired v). rewrite lookup_on_conn. case_decide; [|done]. rewrite Hv. repeat split.
      unfold ttl_watch at 2. rewrite Hv, Hm, Hc, andb_false_r. destruct (Z.leb_spec (activity v + ttl config) now); [|lia].
      unfold ttl_watch. rewrite lookup_on_conn. case_decide; [|done]. by rewrite Hv.
    - exists l, v. repeat split; [done..|]. unfold ttl_watch at 2. rewrite Hv, Hm. unfold ttl_watch. cbn [fst]. rewrite lookup_on_conn. case_decide; [|done].
      assert (∀ p i, conns (remove_peer p i l) = conns l) as -> by (intros; unfold remove_peer; by repeat case_match). by rewrite Hv. }
  assert (remove_peer (peer v1) (id v1) l1 = set_peers (delete a (peers l)) l1) as Er.
  { destruct (sig_eq _ _ Hs1) as [-> _]. unfold remove_peer. rewrite Hp1, Hpa, Ha, Hv1. cbn. by rewrite bool_decide_eq_true_2. }
  rewrite Er in El. rewrite El. split; [done|]. intros Hh.
  assert (Forall pending_ok (pendings l)) as Hpd by (by apply pendings_run).
  assert (pending_ok (pending v)) as Hpv by (rewrite Forall_lookup in Hpd; apply (Hpd k); unfold pendings; by rewrite list_lookup_fmap, Hv).
  set (v2 := set_watch WDone (set_closed v1)). set (l2 := on_conn _ _ _).
  assert (conns l2 !! k = Some v2) as Hv2 by (unfold l2; rewrite lookup_on_conn; case_decide; [|done]; cbn [set_peers conns]; by rewrite Hv1).
  assert (in_hand v2 = in_hand v ∧ pending v2 = pending v ∧ peer v2 = a) as (Eh & Ep2 & Epa).
  { destruct (sig_eq _ _ Hs1) as [E1 E2]. unfold sig in Hs1. injection Hs1 as _ _ Hrx Hpe. split; [|split; [done|by cbn; rewrite E1]]. exact E2. }
  destruct (reads_drain config k now' room (length (concat (in_hand v2))) l2 v2) as [m Hmm]; [lia|done|done|cbn; congruence| |by rewrite Ep2|].
  - unfold sender_left. rewrite Hv2, Epa. cbn [l2 on_conn set_conns set_peers peers demux]. rewrite lookup_delete_eq. rewrite bool_decide_eq_false_2 by done. cbn [orb].
    rewrite Hd1. pose proof (wf_demux _ _ Hw) as Hdm. destruct (demux l) as [|src k' d|src k'|]; try done;
      (destruct (Nat.eqb_spec k' k); [|done]); subst k'; destruct Hdm as [Hn (x & Hx & Hpx)]; rewrite Hv in Hx; injection Hx as <-; congruence.
  - exists m. destruct (run config _ l2) as [l3 os]. rewrite Eh in Hmm. destruct Hmm as (? & ? & _). done.
Qed.

(** An event of one connection leaves the entries of the others: a connection that
    is dropped late does not take its successor's entry with it. *)
Definition event_of (k : nat) (ev : Ev) : bool :=
  match ev with WatchOn k' _ _ | Read k' _ _ | WriteTo k' _ _ _ | Shutdown k' | DropConn k' => (k' =? k)%nat | _ => false end.

Lemma remove_others config l k v a k' :
  wf config l → Z.of_nat (length (conns l)) < 2 ^ 64 → conns l !! k = Some v → k' ≠ k → peers l !! a = Some k' →
  peers (remove_peer (peer v) (id v) l) !! a = Some k'.
Proof.
  intros Hw Hl Hv Hk Ha. unfold remove_peer. destruct (peers l !! peer v) as [k0|] eqn:E; [|done]. case_bool_decide as Ei; [|done]. cbn.
  rewrite lookup_delete_ne; [done|]. intros <-. rewrite E in Ha. injection Ha as ->. destruct (wf_peers _ _ Hw _ _ E) as (v' & Hv' & _).
  rewrite Hv' in Ei. cbn in Ei. injection Ei as Ei. rewrite (wf_ids _ _ Hw _ _ Hv), (wf_ids _ _ Hw _ _ Hv') in Ei.
  apply lookup_lt_Some in Hv, Hv'. rewrite !wrap_small in Ei by lia. lia.
Qed.

(** The accept queue keeps within its bound. *)
Lemma accept_q_remove p i l : accept_q (remove_peer p i l) = accept_q l.
Proof. unfold remove_peer. by repeat case_match. Qed.
Lemma accept_q_close k l : accept_q (close k l) = accept_q l.
Proof. unfold close. destruct (conns l !! k); [|done]. by rewrite accept_q_remove. Qed.

Lemma offer_bound config now src d l : zlen (accept_q l) ≤ backlog config → zlen (accept_q (offer config now src d l)) ≤ backlog config.
Proof.
  intros H. unfold offer. cbn [accept_open accept_q]. set (l1 := mkListener _ _ _ _ _ _ _ _). destruct (accept_open l); cbn [negb].
  - destruct (Z.leb_spec (backlog config) (zlen (accept_q l))).
    + cbn [drop_conn on_conn set_conns accept_q]. by rewrite accept_q_close.
    + cbn. unfold zlen in *. rewrite length_app. cbn. lia.
  - cbn [drop_conn on_conn set_conns accept_q stop_demux set_demux set_peers]. by rewrite accept_q_close.
Qed.

Lemma accept_bound config ev l : 0 ≤ backlog config → zlen (accept_q l) ≤ backlog config → zlen (accept_q (step config ev l).1) ≤ backlog config.
Proof.
  intros H0 H. destruct ev; cbn [step fst]; try done.
  - destruct (at_select l); [|done]. unfold receive. cbn [set_backoff peers]. destruct (peers l !! src); [|by apply offer_bound].
    destruct (try_send _ _ _ _) eqn:E; [|done|by apply offer_bound]. by apply try_send_inv in E as (? & _ & _ & ->).
  - by destruct (at_select l).
  - unfold demux_on. destruct (demux l); try done. destruct (try_send _ _ _ _) eqn:E; try done. by apply try_send_inv in E as (? & _ & _ & ->).
  - by destruct (_ && _).
  - unfold ttl_watch. destruct (conns l !! k) as [v|]; [|done]. destruct (watch v); try done; [by repeat case_match|]. cbn. by rewrite accept_q_remove.
  - unfold accept. destruct (accept_open l); [|done]. destruct (accept_q l) as [|k q] eqn:E; cbn [negb fst]; [by rewrite E|]. cbn. unfold zlen in *. cbn in H. lia.
  - destruct (conns l !! k); [|done]. destruct (held k l); [|done]. by destruct (poll_read _ _ _ _).
  - destruct (conns l !! k); [|done]. by destruct (held k l).
  - destruct (held k l); [|done]. by rewrite accept_q_close.
  - destruct (held k l); [|done]. cbn. by rewrite accept_q_close.
  - by destruct (accept_open l).
Qed.

(** C28: the listener's memory is bounded, and its connections do not disturb each
    other: in every state it can reach no receive queue and no accept queue is
    longer than configured, a peer's entry is a connection of that peer, and what
    one connection does (its reads and writes, its closing, its watcher) takes
    no entry of another out of the map, not even of its successor for the same
    peer. *)
Theorem udp_bounded config evs :
  1 ≤ queue_size config → 0 ≤ backlog config →
  let l := (run config evs from_socket).1 in
  (∀ k v, conns l !! k = Some v → zlen (rx v) ≤ queue_size config)
  ∧ zlen (accept_q l) ≤ backlog config
  ∧ (∀ a k, peers l !! a = Some k → peer <$> conns l !! k = Some a)
  ∧ (Z.of_nat (length (conns l)) < 2 ^ 64 →
     ∀ k ev a k', event_of k ev = true → k' ≠ k → peers l !! a = Some k' → peers (step config ev l).1 !! a = Some k').
Proof.
  intros Hq Hb l. pose proof (wf_run config Hq evs _ (wf_start config)) as Hw. fold l in Hw. split_and!.
  - apply (wf_rx _ _ Hw).
  - unfold l. clear Hw l. cut (zlen (accept_q from_socket) ≤ backlog config); [|done]. generalize from_socket.
    induction evs as [|ev evs IH]; intros m Hm; [done|]. cbn [run]. apply (accept_bound config ev) in Hm; [|done].
    destruct (step config ev m) as [m1 os]. cbn [fst] in Hm. apply IH in Hm. by destruct (run config evs m1).
  - intros a k Ha. destruct (wf_peers _ _ Hw _ _ Ha) as (v & -> & <- & _). done.
  - clearbody l. intros Hl k ev a k' He Hk Ha.
    assert (∀ v, conns l !! k = Some v → peers (close k l) !! a = Some k') as Hc.
    { intros v Hv. unfold close. rewrite Hv.
      assert (conns (on_conn k set_closed l) !! k = Some (set_closed v)) as Hv' by (rewrite lookup_on_conn; case_decide; [|done]; by rewrite Hv).
      apply (remove_others config (on_conn k set_closed l) k (set_closed v)); try done; [|by cbn; rewrite length_alter].
      apply wf_on_conn; [|done]. intros w Hw2. eapply steady_closed, wf_rx; done. }
    destruct ev; cbn [event_of] in He; try done; apply Nat.eqb_eq in He; subst k0; cbn [step fst].
    + unfold ttl_watch. destruct (conns l !! k) as [v|] eqn:Ev; [|done]. destruct (watch v); try done; [by repeat case_match|]. cbn.
      by eapply remove_others.
    + destruct (conns l !! k); [|done]. destruct (held k l); [|done]. by destruct (poll_read _ _ _ _).
    + destruct (conns l !! k); [|done]. by destruct (held k l).
    + unfold held. destruct (conns l !! k) as [v|] eqn:Ev; [|done]. destruct (bool_decide _); [by eapply Hc|done].
    + unfold held. destruct (conns l !! k) as [v|] eqn:Ev; [|done]. destruct (bool_decide _); [by eapply Hc|done].
Qed.

(** The pause after a failed receive: five milliseconds, doubled each time up to a second. *)
Lemma next_backoff_spec n : Nat.iter (S n) next_backoff 0 = Z.min (5000000 * 2 ^ Z.of_nat n) one_second.
Proof.
  induction n as [|n IH]; [done|]. rewrite Nat.iter_succ, IH. unfold next_backoff. rewrite Nat2Z.inj_succ, Z.pow_succ_r by lia.
  pose proof (Z.pow_pos_nonneg 2 (Z.of_nat n) ltac:(lia) ltac:(lia)). unfold one_second.
  destruct (Z.eqb_spec (Z.min (5000000 * 2 ^ Z.of_nat n) 1000000000) 0); lia.
Qed.

(** ** Examples *)

Definition demo_peer (n : Z) : SocketAddr := mkAddr (V4 [10; 0; 0; n]) 4000.
Definition demo_config : UdpListenConfig := normalized (mkConfig 0 0 2).

(** Two peers; a datagram read in two pieces, one dropped because the queue is full. *)
Definition demo_events : list Ev :=
  [Datagram 0 (demo_peer 1) [1; 2; 3]; Accept; DemuxOn; DemuxOn; Datagram 1 (demo_peer 2) [9]; DemuxOn; DemuxOn;
   Datagram 2 (demo_peer 1) []; Datagram 3 (demo_peer 1) [7]; Read 0 4 2; Datagram 5 (demo_peer 1) [4; 5]; Read 0 6 2; Read 0 7 8].

Example demo_run :
  (run demo_config demo_events from_socket).2
  = [Accepted 0; Got 0 2 (Ready [1; 2]); Got 0 2 (Ready [3]); Got 0 8 (Ready [4; 5])].
Proof. vm_compute. reflexivity. Qed.

Lemma udp_delivery_witness :
  ∃ v ds, conns (run demo_config demo_events from_socket).1 !! 0%nat = Some v
    ∧ ds `sublist_of` datagrams (demo_peer 1) demo_events
    ∧ cuts ds [(2%nat, [1; 2]); (2%nat, [3]); (8%nat, [4; 5])] (in_hand v).
Proof.
  pose proof (udp_delivery demo_config demo_events 0) as H.
  destruct (run demo_config demo_events from_socket) as [l os] eqn:E. vm_compute in E. injection E as <- <-.
  eexists. edestruct (H _ ltac:(vm_compute; discriminate) eq_refl) as (ds & Hs & Hc). exists ds. split; [reflexivity|]. split; [exact Hs|exact Hc].
Defined.

Lemma udp_idle_closed_witness :
  let l := (run demo_config demo_events from_socket).1 in
  peers (run demo_config [WatchOn 0 (100 * one_second) false; WatchOn 0 (101 * one_second) false] l).1 = delete (demo_peer 1) (peers l).
Proof.
  destruct (conns (run demo_config demo_events from_socket).1 !! 0%nat) as [v|] eqn:E; [|vm_compute in E; discriminate].
  refine (proj1 (udp_idle_closed demo_config demo_events (demo_peer 1) 0 v (100 * one_second) (101 * one_second) false false 8 _ _ _ E _ _)).
  - vm_compute. discriminate.
  - lia.
  - vm_compute. reflexivity.
  - vm_compute in E. injection E as <-. reflexivity.
  - vm_compute in E. injection E as <-. vm_compute. discriminate.
Defined.

Lemma udp_bounded_witness :
  let l := (run demo_config demo_events from_socket).1 in
  zlen (accept_q l) ≤ backlog demo_config ∧ peer <$> conns l !! 0%nat = Some (demo_peer 1).
Proof.
  assert (1 ≤ queue_size demo_config) as Hq by (vm_compute; discriminate). assert (0 ≤ backlog demo_config) as Hb by (vm_compute; discriminate).
  destruct (udp_bounded demo_config demo_events Hq Hb) as (_ & H1 & H2 & _). split; [exact H1|]. apply H2. vm_compute. reflexivity.
Defined.

(** A connection that is accepted and dropped before the loop has put it into the
    map: the entry that comes after has no watcher that would ever take it out,
    however long the peer is silent. *)
Definition lost_events : list Ev := [Datagram 0 (demo_peer 1) [1]; Accept; DropConn 0; DemuxOn; DemuxOn; WatchOn 0 1 true].

Example dropped_early_stays :
  let l := (run demo_config lost_events from_socket).1 in
  peers l = {[ demo_peer 1 := 0%nat ]} ∧ ∀ now noticed, (step demo_config (WatchOn 0 now noticed) l).1 = l.
Proof. vm_compute. split; [reflexivity|]. intros now noticed. reflexivity. Qed.

End Udp.
