(* ===== verification/Obfs.v ===== *)
(** * Obfuscating transports

    src/obfs_transport.rs, the [ohttp] and [otls] transports with the record
    stream of the latter, and src/obfs.rs, the handshakes they grew out of. The
    ClientHellos are tied to the parser of SniHello.v: what the fake handshake
    shows is what a real one would. Random bytes and the clock are arguments. *)

From stdpp Require Import base list option numbers strings sets.
From Stdlib Require Import ZArith Lia.
From S2P Require Import Prelude Text Utf8 AsyncIo Conn HttpConnect Words SniHello.

Module Obfs.

Definition MAX_TLS_DATA_LEN : nat := Z.to_nat 16384.
Definition REC_CHANGE_CIPHER_SPEC : Z := 20.
Definition REC_HANDSHAKE : Z := 22.
Definition REC_APP_DATA : Z := 23.
Definition EXT_SUPPORTED_GROUPS : Z := 10.
Definition EXT_EC_POINT_FORMATS : Z := 11.
Definition EXT_SIGNATURE_ALGORITHMS : Z := 13.
Definition EXT_ENCRYPT_THEN_MAC : Z := 22.
Definition EXT_EXTENDED_MASTER_SECRET : Z := 23.
Definition EXT_SESSION_TICKET : Z := 35.
Definition EXT_RENEGOTIATION_INFO : Z := 65281.

(** ** Records *)

Definition put_ext (ext_type : Z) (data : bytes) : bytes := to_be 2 ext_type ++ to_be 2 (u16 (zlen data)) ++ data.

Definition sni_ext_body (host : bytes) : bytes :=
  to_be 2 (u16 (zlen host + 3)) ++ [0] ++ to_be 2 (u16 (zlen host)) ++ host.

Definition record (kind : Z) (version payload : bytes) : bytes := [kind] ++ version ++ to_be 2 (u16 (zlen payload)) ++ payload.

Definition suites : list Z := [49199; 49200; 49195; 49196; 52392; 52393; 158; 159; 47; 53].

(** A handshake message; its length has three bytes. *)
Definition handshake (kind : Z) (hello : bytes) : bytes := [kind] ++ drop 1 (to_be 4 (u32 (zlen hello))) ++ hello.

(** [opaque] and [session_id] are the random bytes, [time] the clock. *)
Definition build_client_hello (time : Z) (opaque session_id : bytes) (host payload : bytes) : bytes :=
  let exts := put_ext EXT_SESSION_TICKET payload ++ put_ext Sni.EXT_SERVER_NAME (sni_ext_body host)
    ++ put_ext EXT_EC_POINT_FORMATS [3; 1; 0; 2] ++ put_ext EXT_SUPPORTED_GROUPS [0; 8; 0; 29; 0; 23; 0; 25; 0; 24]
    ++ put_ext EXT_SIGNATURE_ALGORITHMS [0; 8; 4; 1; 4; 3; 5; 1; 8; 4] ++ put_ext EXT_ENCRYPT_THEN_MAC []
    ++ put_ext EXT_EXTENDED_MASTER_SECRET [] in
  let hello := [3; 3] ++ to_be 4 time ++ opaque ++ [32] ++ session_id ++ to_be 2 (u16 (zlen suites * 2))
    ++ concat (to_be 2 <$> suites) ++ [1; 0] ++ to_be 2 (u16 (zlen exts)) ++ exts in
  record REC_HANDSHAKE [3; 1] (handshake 1 hello).

Definition session_id_of (hello : bytes) : bytes :=
  let i := (4 + 2 + 32)%nat in
  match hello !! i with
  | Some len => if (i + 1 + Z.to_nat len <=? length hello)%nat then take (Z.to_nat len) (drop (i + 1) hello) else []
  | None => []
  end.

(** The loop over the extensions; a turn moves on by four. *)
Fixpoint ticket_loop (fuel : nat) (hello : bytes) (i stop : nat) : option bytes :=
  match fuel with
  | O => None
  | S fuel =>
      if (i + 4 <=? stop)%nat then
        ext_type ← Sni.be16 hello i;
        ext_len ← Sni.be16 hello (i + 2);
        let i := (i + 4)%nat in
        let n := Z.to_nat ext_len in
        if (stop <? i + n)%nat then None
        else if ext_type =? EXT_SESSION_TICKET then Some (take n (drop i hello))
        else ticket_loop fuel hello (i + n) stop
      else None
  end.

Definition session_ticket_of (hello : bytes) : option bytes :=
  let i := (4 + 2 + 32)%nat in
  session_len ← hello !! i;
  let i := (i + 1 + Z.to_nat session_len)%nat in
  suites_len ← Sni.be16 hello i;
  let i := (i + 2 + Z.to_nat suites_len)%nat in
  comp_len ← hello !! i;
  let i := (i + 1 + Z.to_nat comp_len)%nat in
  exts_len ← Sni.be16 hello i;
  let i := (i + 2)%nat in
  let stop := Nat.min (i + Z.to_nat exts_len) (length hello) in
  ticket_loop (S (length hello)) hello i stop.

Definition build_server_reply (time : Z) (opaque session_id : bytes) : bytes :=
  let exts := put_ext EXT_RENEGOTIATION_INFO [0] ++ put_ext EXT_EXTENDED_MASTER_SECRET [] ++ put_ext EXT_EC_POINT_FORMATS [1; 0] in
  let hello := [3; 3] ++ to_be 4 time ++ opaque ++ [u8 (zlen session_id)] ++ session_id ++ to_be 2 52392 ++ [0]
    ++ to_be 2 (u16 (zlen exts)) ++ exts in
  record REC_HANDSHAKE [3; 1] (handshake 2 hello) ++ record REC_CHANGE_CIPHER_SPEC [3; 3] [1].

(** ** The framed stream *)

Record ObfsTlsStream : Set := mkObfs {
  raw : bytes; ready : bytes; ready_pos : nat; o_out : OutBuf; expect_server_reply : bool; next_record_type : Z }.

Definition new (rdy out : bytes) (expect : bool) : ObfsTlsStream :=
  mkObfs [] rdy 0 (mkOut out 0 []) expect (if expect then REC_APP_DATA else REC_HANDSHAKE).

Definition set_raw r s := mkObfs r (ready s) (ready_pos s) (o_out s) (expect_server_reply s) (next_record_type s).
Definition set_ready r pos s := mkObfs (raw s) r pos (o_out s) (expect_server_reply s) (next_record_type s).
Definition set_expect e s := mkObfs (raw s) (ready s) (ready_pos s) (o_out s) e (next_record_type s).
Definition set_out o s := mkObfs (raw s) (ready s) (ready_pos s) o (expect_server_reply s) (next_record_type s).
Definition set_type t s := mkObfs (raw s) (ready s) (ready_pos s) (o_out s) (expect_server_reply s) t.

Definition oversized : io_error := IoError InvalidData "obfs-tls: oversized record".
Definition truncated : io_error := IoError UnexpectedEof "obfs-tls: truncated record".
Definition zero_write : io_error := IoError WriteZero "obfs-tls: write returned zero".

(** A whole record at the front: its type, its payload and what follows it. *)
Definition take_record (r : bytes) : result io_error (option (Z * bytes * bytes)) :=
  match r with
  | kind :: _ :: _ :: hi :: lo :: rest =>
      let len := Z.to_nat (from_be [hi; lo]) in
      if (MAX_TLS_DATA_LEN + 2048 <? len)%nat then Err oversized
      else if (length r <? 5 + len)%nat then Ok None
      else Ok (Some (kind, take len rest, drop len rest))
  | _ => Ok None
  end.

(** The records that are buffered, up to the first with payload to deliver
    ([Ok true]) or to the last whole one ([Ok false]). *)
Fixpoint next_payload (fuel : nat) (s : ObfsTlsStream) : result io_error bool * ObfsTlsStream :=
  match fuel with
  | O => (Ok false, s)
  | S fuel =>
      match take_record (raw s) with
      | Err e => (Err e, s)
      | Ok None => (Ok false, s)
      | Ok (Some (kind, payload, rest)) =>
          let s := set_raw rest s in
          if expect_server_reply s && (kind =? REC_CHANGE_CIPHER_SPEC) then next_payload fuel (set_expect false s)
          else if expect_server_reply s && (kind =? REC_HANDSHAKE) then next_payload fuel s
          else
            let s := set_expect false s in
            match payload with
            | [] => next_payload fuel s
            | _ => (Ok true, set_ready payload 0 s)
            end
      end
  end.

(** What is ready, as far as there is room for it. *)
Definition deliver (room : nat) (s : ObfsTlsStream) : poll (result io_error bytes) * ObfsTlsStream :=
  let n := Nat.min (length (ready s) - ready_pos s) room in
  (Ready (Ok (take n (drop (ready_pos s) (ready s)))),
   if (ready_pos s + n =? length (ready s))%nat then set_ready [] 0 s else set_ready (ready s) (ready_pos s + n) s).

(** The size of one read. *)
Definition CHUNK : nat := Z.to_nat 8192.

Fixpoint read_loop (fuel : nat) (room : nat) (answers : list ReadAnswer) (s : ObfsTlsStream) :
    poll (result io_error bytes) * ObfsTlsStream * list ReadAnswer :=
  match fuel with
  | O => (Pending, s, answers)
  | S fuel =>
      if (ready_pos s <? length (ready s))%nat then (deliver room s, answers)
      else
        match next_payload (length (raw s)) s with
        | (Err e, s) => (Ready (Err e), s, answers)
        | (Ok true, s) => (deliver room s, answers)
        | (Ok false, s) =>
            match inner_read CHUNK answers with
            | (Pending, answers) => (Pending, s, answers)
            | (Ready (Err e), answers) => (Ready (Err e), s, answers)
            | (Ready (Ok []), answers) => (Ready (match raw s with [] => Ok [] | _ => Err truncated end), s, answers)
            | (Ready (Ok piece), answers) => read_loop fuel room answers (set_raw (raw s ++ piece) s)
            end
        end
  end.

(** [poll_read]: a turn reads a byte at least. *)
Definition poll_read (room : nat) (answers : list ReadAnswer) (s : ObfsTlsStream) :
    poll (result io_error bytes) * ObfsTlsStream * list ReadAnswer :=
  read_loop (S (length answers + length (received answers))) room answers s.

Definition obfs_flush (answers : list Answer) (s : ObfsTlsStream) : poll (result io_error ()) * ObfsTlsStream * list Answer :=
  let '(p, o, answers) := flush_out zero_write answers (o_out s) in (p, set_out o s, answers).

(** [poll_write]: the new record takes the place of what a failed flush left. *)
Definition poll_write (answers : list Answer) (buf : bytes) (s : ObfsTlsStream) : poll (result io_error nat) * ObfsTlsStream :=
  match obfs_flush answers s with
  | (Pending, s, _) => (Pending, s)
  | (Ready _, s, answers) =>
      match buf with
      | [] => (Ready (Ok 0%nat), s)
      | _ =>
          let n := Nat.min (length buf) MAX_TLS_DATA_LEN in
          let kind := next_record_type s in
          let s := set_out (mkOut (record kind [3; 3] (take n buf)) 0 (sent (o_out s))) (set_type REC_APP_DATA s) in
          match obfs_flush answers s with
          | (Ready (Err e), s, _) => (Ready (Err e), s)
          | (_, s, _) => (Ready (Ok n), s)
          end
      end
  end.

(** [poll_flush] and [poll_shutdown], with the transport's answer to the same call. *)
Definition poll_flush (answers : list Answer) (inner : poll (result io_error ())) (s : ObfsTlsStream) :
    poll (result io_error ()) * ObfsTlsStream :=
  match obfs_flush answers s with
  | (Ready (Ok _), s, _) => (inner, s)
  | (p, s, _) => (p, s)
  end.
Definition poll_shutdown (answers : list Answer) (inner : poll (result io_error ())) (s : ObfsTlsStream) :
    poll (result io_error ()) * ObfsTlsStream :=
  match obfs_flush answers s with
  | (Ready (Ok _), s, _) => (inner, s)
  | (p, s, _) => (p, s)
  end.

(** ** Handshakes *)

(** Errors are boxed: those of the transport, or a message. *)
Definition fail {A} (msg : string) : conv HandlerError A := cfail (Proxy (str msg)).

Definition otls_connect (time : Z) (opaque session_id host : bytes) : conv HandlerError ObfsTlsStream :=
  h_write (build_client_hello time opaque session_id host []) ;;!
  cret (new [] [] true).

Definition otls_accept (time : Z) (opaque : bytes) : conv HandlerError ObfsTlsStream :=
  header <~ h_read 5 ;;
  if negb (nth 0 header 0 =? REC_HANDSHAKE) then fail "obfs-tls: not a handshake record"
  else
    let len := Z.to_nat (from_be (drop 3 header)) in
    if (MAX_TLS_DATA_LEN + 2048 <? len)%nat then fail "obfs-tls: oversized ClientHello"
    else
      hello <~ h_read len ;;
      cret (new (default [] (session_ticket_of hello)) (build_server_reply time opaque (session_id_of hello)) false).

(** [read_head]: byte by byte, so that nothing behind the head is taken. *)
Definition ends_with (suffix s : bytes) : bool := bool_decide (suffix `suffix_of` s).
Fixpoint read_head_loop (fuel : nat) (head : bytes) : conv HandlerError bytes :=
  match fuel with
  | O => fail ""
  | S fuel =>
      if ends_with head_end head then cret (from_utf8_lossy head)
      else
        b <~ cmap_err Io (read 1) ;;
        match b with
        | [] => fail "obfs-http: connection closed during handshake"
        | _ =>
            let head := head ++ b in
            if 8192 <? zlen head then fail "obfs-http: header too large" else read_head_loop fuel head
        end
  end.
Definition read_head : conv HandlerError bytes := λ c, read_head_loop (S (S (length (incoming c)))) [] c.

Definition upgrade_request (host key : bytes) : bytes :=
  str "GET / HTTP/1.1" ++ crlf ++ str "Host: " ++ host ++ crlf ++ str "User-Agent: " ++ DEFAULT_USER_AGENT ++ crlf
  ++ str "Connection: Upgrade" ++ crlf ++ str "Upgrade: websocket" ++ crlf ++ str "Sec-WebSocket-Key: " ++ key ++ crlf
  ++ str "Sec-WebSocket-Version: 13" ++ head_end.

Definition switching : bytes :=
  str "HTTP/1.1 101 Switching Protocols" ++ crlf ++ str "Server: nginx/1.10.0" ++ crlf ++ str "Connection: Upgrade" ++ crlf
  ++ str "Upgrade: websocket" ++ head_end.

(** [key] is the encoding of sixteen random bytes. *)
Definition ohttp_connect (host key : bytes) : conv HandlerError () :=
  h_write (upgrade_request host key) ;;!
  head <~ read_head ;;
  if contains_str (str " 101 ") head then cret tt
  else cfail (Proxy (str "obfs-http: unexpected response: " ++ first_line head)).

Definition ohttp_accept : conv HandlerError () :=
  _ <~ read_head ;; h_write switching.

Inductive ObfsKind : Set := Http | Tls.
(** What the inner handler is given. *)
Inductive Layered : Set := Transparent | Records (s : ObfsTlsStream).

(** [ObfsHandler::handle]: a failed handshake ends the connection quietly. *)
Definition obfs_handle (kind : ObfsKind) (time : Z) (opaque : bytes) (inner : Layered → conv HandlerError ()) : conv HandlerError () :=
  λ c,
  match kind with
  | Http => match ohttp_accept c with (Ok _, c) => inner Transparent c | (Err _, c) => (Ok tt, c) end
  | Tls => match otls_accept time opaque c with (Ok s, c) => inner (Records s) c | (Err _, c) => (Ok tt, c) end
  end.

(** ** The handshakes of src/obfs.rs *)

Definition build_sni_extension (host : bytes) : bytes :=
  let list_len := 3 + zlen host in
  [0; 0] ++ to_be 2 (u16 (2 + list_len)) ++ to_be 2 (u16 list_len) ++ [0] ++ to_be 2 (u16 (zlen host)) ++ host.

(** A record around a handshake message: the length of the message has its upper
    byte left zero. *)
Definition fix_lengths (version : bytes) (kind : Z) (body : bytes) : bytes :=
  let message := [kind; 0; Z.land (Z.shiftr (zlen body) 8) 255; Z.land (zlen body) 255] ++ body in
  [REC_HANDSHAKE] ++ version ++ [Z.land (Z.shiftr (zlen message) 8) 255; Z.land (zlen message) 255] ++ message.

Definition fake_suites : bytes := [0; 47; 0; 53; 192; 47; 192; 48].

Definition build_fake_client_hello (random host : bytes) : bytes :=
  let sni := build_sni_extension host in
  fix_lengths [3; 1] 1
    ([3; 3] ++ random ++ [0] ++ to_be 2 (u16 (zlen fake_suites)) ++ fake_suites ++ [1; 0] ++ to_be 2 (u16 (zlen sni)) ++ sni).

Definition build_fake_server_hello (random : bytes) : bytes :=
  fix_lengths [3; 3] 2 ([3; 3] ++ random ++ [0] ++ [0; 47] ++ [0]).

(** [ObfsTlsTransporter::handshake] and [ObfsTlsListener::accept_handshake]. *)
Definition skip_record (wrong : string) : conv HandlerError () :=
  header <~ h_read 5 ;;
  if negb (nth 0 header 0 =? REC_HANDSHAKE) then fail wrong
  else h_read (Z.to_nat (from_be (drop 3 header))) ;;! cret tt.

Definition tls_handshake (random host : bytes) : conv HandlerError () :=
  h_write (build_fake_client_hello random host) ;;! skip_record "obfs-tls: invalid response".
Definition tls_accept_handshake (random : bytes) : conv HandlerError () :=
  skip_record "obfs-tls: not a TLS record" ;;! h_write (build_fake_server_hello random).

(** [ObfsHttpTransporter::handshake]. *)
Fixpoint read_response (fuel : nat) (response : bytes) : conv HandlerError bytes :=
  match fuel with
  | O => fail ""
  | S fuel =>
      b <~ cmap_err Io (read 1) ;;
      match b with
      | [] => fail "obfs-http: connection closed"
      | _ => let response := response ++ b in if ends_with head_end response then cret response else read_response fuel response
      end
  end.

Definition http_handshake (host key : bytes) : conv HandlerError () :=
  h_write (upgrade_request host key) ;;!
  response <~ (λ c, read_response (S (length (incoming c))) [] c) ;;
  let resp_str := from_utf8_lossy response in
  if contains_str (str "101") resp_str then cret tt
  else cfail (Proxy (str "obfs-http: unexpected response: " ++ first_line resp_str)).

(** [ObfsHttpListener::accept_handshake]: the request has to end where a read
    ends. *)
Fixpoint read_upgrade (fuel : nat) (buf : bytes) : conv HandlerError () :=
  match fuel with
  | O => fail ""
  | S fuel =>
      b <~ cmap_err Io (read (4096 - length buf)) ;;
      match b with
      | [] => fail "obfs-http: connection closed"
      | _ =>
          let buf := buf ++ b in
          if ends_with head_end buf then cret tt
          else if (4096 <=? length buf)%nat then fail "obfs-http: request too large"
          else read_upgrade fuel buf
      end
  end.

Definition dummy_response : bytes :=
  str "HTTP/1.1 101 Switching Protocols" ++ crlf ++ str "Upgrade: websocket" ++ crlf ++ str "Connection: Upgrade" ++ crlf
  ++ str "Sec-WebSocket-Accept: dummy" ++ head_end.

Definition http_accept_handshake : conv HandlerError () :=
  (λ c, read_upgrade (S (length (incoming c))) [] c) ;;! h_write dummy_response.

(** ** What the fake ClientHello shows *)

Definition hello_exts (host payload : bytes) : list Sni.Extension :=
  [(EXT_SESSION_TICKET, payload); (Sni.EXT_SERVER_NAME, Sni.sni_body host); (EXT_EC_POINT_FORMATS, [3; 1; 0; 2]);
   (EXT_SUPPORTED_GROUPS, [0; 8; 0; 29; 0; 23; 0; 25; 0; 24]); (EXT_SIGNATURE_ALGORITHMS, [0; 8; 4; 1; 4; 3; 5; 1; 8; 4]);
   (EXT_ENCRYPT_THEN_MAC, []); (EXT_EXTENDED_MASTER_SECRET, [])].

(** The message by its fields. *)
Definition client_hello (time : Z) (opaque session_id host payload : bytes) : Sni.Hello :=
  Sni.mkHello 1 ([3; 3] ++ to_be 4 time ++ opaque) session_id (concat (to_be 2 <$> suites)) [0] (hello_exts host payload) [].

Lemma put_ext_encode t b : zlen b < 65536 → put_ext t b = Sni.encode_extension (t, b).
Proof. intros H. unfold put_ext, Sni.encode_extension. cbn [fst snd]. rewrite wrap_small; [done|]. pose proof (zlen_nonneg b). lia. Qed.

(** What a handshake of one message has to fit in. *)
Definition hello_fits (opaque session_id host payload : bytes) : Prop :=
  length opaque = 28%nat ∧ length session_id = 32%nat ∧ zlen host + zlen payload ≤ 16384.

Section hello.
Context (time : Z) (opaque session_id host payload : bytes) (Hfits : hello_fits opaque session_id host payload).

Let h := client_hello time opaque session_id host payload.

Lemma zlen_hello : zlen (Sni.encode_hello h) = zlen host + zlen payload + 154.
Proof using Hfits.
  destruct Hfits as (Ho & Hs & _). unfold h, Sni.encode_hello, Sni.hello_rest, Sni.hello_front, client_hello, Sni.encode_extensions, hello_exts.
  cbn [Sni.h_type Sni.fixed Sni.session Sni.suites Sni.comps Sni.exts Sni.tail fmap list_fmap concat]. unfold Sni.encode_extension, Sni.sni_body. cbn [fst snd].
  unfold zlen. repeat (rewrite ?length_app, ?length_to_be; cbn [length]). rewrite Ho, Hs. cbn. lia.
Qed.

Lemma hello_is_ok : Sni.hello_ok h.
Proof using Hfits.
  pose proof zlen_hello as Hz. destruct Hfits as (Ho & Hs & Hl). pose proof (zlen_nonneg host). pose proof (zlen_nonneg payload).
  split; unfold h, client_hello; cbn [Sni.fixed Sni.session Sni.suites Sni.comps Sni.exts].
  - rewrite !length_app, length_to_be, Ho. done.
  - unfold zlen. rewrite Hs. done.
  - done.
  - done.
  - unfold hello_exts, Sni.ext_ok. repeat (apply Forall_cons; split; [cbn [fst snd]; rewrite ?Sni.zlen_sni_body; unfold EXT_SESSION_TICKET, Sni.EXT_SERVER_NAME,
      EXT_EC_POINT_FORMATS, EXT_SUPPORTED_GROUPS, EXT_SIGNATURE_ALGORITHMS, EXT_ENCRYPT_THEN_MAC, EXT_EXTENDED_MASTER_SECRET; unfold zlen in *; cbn [length]; lia|]).
    constructor.
  - change (zlen (Sni.encode_hello h) < 65536). lia.
Qed.

Lemma build_is_record : build_client_hello time opaque session_id host payload = Sni.encode_record [3; 1] h.
Proof using Hfits.
  pose proof zlen_hello as Hz. pose proof hello_is_ok as Hok. pose proof (Sni.exts_fit h Hok) as He. destruct Hfits as (Ho & Hs & Hl).
  pose proof (zlen_nonneg host). pose proof (zlen_nonneg payload).
  unfold build_client_hello. assert (sni_ext_body host = Sni.sni_body host) as ->.
  { unfold sni_ext_body, Sni.sni_body. rewrite !wrap_small by lia. done. }
  rewrite !put_ext_encode by (rewrite ?Sni.zlen_sni_body; unfold zlen in *; cbn; lia).
  set (exts := Sni.encode_extension (EXT_SESSION_TICKET, payload) ++ _). assert (exts = Sni.encode_extensions (Sni.exts h)) as Eexts.
  { unfold exts, h, client_hello, hello_exts, Sni.encode_extensions. cbn [Sni.exts fmap list_fmap concat]. by rewrite app_nil_r. }
  rewrite Eexts. rewrite (wrap_small 16 (zlen (Sni.encode_extensions (Sni.exts h)))) by exact He.
  set (rest := [3; 3] ++ _). assert (rest = Sni.hello_rest h) as Er.
  { unfold rest, Sni.hello_rest, Sni.hello_front, h, client_hello. cbn [Sni.fixed Sni.session Sni.suites Sni.comps Sni.tail].
    change (zlen [0]) with 1. assert (zlen session_id = 32) as -> by (unfold zlen; lia). rewrite app_nil_r, <-!app_assoc. done. }
  rewrite Er. clear rest Er exts Eexts. unfold Sni.encode_record. assert (handshake 1 (Sni.hello_rest h) = Sni.encode_hello h) as Em.
  { unfold handshake, Sni.encode_hello. f_equal. f_equal. unfold Sni.encode_hello in Hz. rewrite !zlen_app in Hz.
    pose proof (zlen_nonneg (Sni.hello_rest h)). pose proof (zlen_nonneg [Sni.h_type h]). pose proof (zlen_nonneg (to_be 3 (zlen (Sni.hello_rest h)))).
    rewrite wrap_small by lia. unfold to_be. cbn [to_le]. by rewrite !reverse_cons. }
  unfold record. rewrite Em, wrap_small by (pose proof (zlen_nonneg (Sni.encode_hello h)); lia). done.
Qed.

Lemma ticket_of_span m start stop :
  Sni.extensions_span m = Some (start, stop) → session_ticket_of m = ticket_loop (S (length m)) m start stop.
Proof.
  unfold Sni.extensions_span, session_ticket_of. destruct (m !! _) as [a|]; [|done]. cbn [mbind option_bind].
  destruct (Sni.be16 m _) as [b|]; [|done]. cbn [mbind option_bind]. destruct (m !! _) as [c|]; [|done]. cbn [mbind option_bind].
  destruct (Sni.be16 m _) as [d|]; [|done]. cbn [mbind option_bind]. cbv zeta.
  match goal with |- context [(length m <? ?x)%nat] => destruct (Nat.ltb_spec (length m) x); [done|] end. intros [= <- <-]. by rewrite Nat.min_l.
Qed.

(** An observer sees the host, the server the ticket and the session. *)
Lemma hello_shows :
  Sni.extract_sni (build_client_hello time opaque session_id host payload) = Some (from_utf8_lossy host)
  ∧ session_ticket_of (Sni.encode_hello h) = Some payload ∧ session_id_of (Sni.encode_hello h) = session_id.
Proof using Hfits.
  pose proof hello_is_ok as Hok. pose proof zlen_hello as Hz. pose proof build_is_record as Hb. destruct Hfits as (Ho & Hs & Hl).
  pose proof (zlen_nonneg host). pose proof (zlen_nonneg payload). split_and!.
  - rewrite Hb. apply (Sni.extract_encode [3; 1] h [(EXT_SESSION_TICKET, payload)] host (drop 2 (hello_exts host payload))); try done; [|lia].
    by apply Forall_singleton.
  - rewrite (ticket_of_span _ _ _ (Sni.span_encode h Hok)). cbn [ticket_loop].
    set (u := [Sni.h_type h] ++ to_be 3 (zlen (Sni.hello_rest h)) ++ Sni.hello_front h ++ to_be 2 (zlen (Sni.encode_extensions (Sni.exts h)))).
    set (v := Sni.encode_extensions (drop 1 (hello_exts host payload))).
    assert (Sni.encode_hello h = u ++ Sni.encode_extension (EXT_SESSION_TICKET, payload) ++ v) as Eh.
    { rewrite Sni.encode_hello_split. unfold u, v. change (Sni.tail h) with (@nil Z). rewrite app_nil_r, <-!app_assoc. done. }
    assert (Sni.exts_at h = length u) as -> by (unfold u, Sni.exts_at; rewrite !length_app, !length_to_be; cbn [length]; lia).
    destruct (Sni.ext_head u EXT_SESSION_TICKET payload v) as (E1 & E2 & E3 & E4 & E5 & E6); [split; cbn; unfold EXT_SESSION_TICKET; lia|].
    assert (length (Sni.encode_extensions (Sni.exts h)) = (4 + length payload + length v)%nat) as Elen.
    { change (Sni.exts h) with ((EXT_SESSION_TICKET, payload) :: drop 1 (hello_exts host payload)). unfold v, Sni.encode_extensions.
      cbn [fmap list_fmap concat]. unfold Sni.encode_extension at 1. cbn [fst snd]. rewrite !length_app, !length_to_be. lia. }
    destruct (Nat.leb_spec (length u + 4) (length u + length (Sni.encode_extensions (Sni.exts h)))); [|lia].
    rewrite Eh, E1, E2. cbn [mbind option_bind]. rewrite E6.
    match goal with |- context [(?x <? ?y)%nat] => destruct (Nat.ltb_spec x y); [lia|] end.
    rewrite Z.eqb_refl, E3, drop_app_length', take_app_length by lia. done.
  - unfold session_id_of. set (u := [1] ++ to_be 3 (zlen (Sni.hello_rest h)) ++ [3; 3] ++ to_be 4 time ++ opaque).
    assert (∃ v, Sni.encode_hello h = u ++ 32 :: session_id ++ v) as [v Eh].
    { eexists. unfold u, Sni.encode_hello, Sni.hello_rest, Sni.hello_front, h, client_hello. cbn [Sni.h_type Sni.fixed Sni.session].
      assert (zlen session_id = 32) as -> by (unfold zlen; lia). rewrite <-!app_assoc. cbn [app]. reflexivity. }
    assert (length u = 38%nat) as Hu by (unfold u; rewrite !length_app, !length_to_be, Ho; done).
    rewrite Eh, Sni.lookup_at by (rewrite Hu; done). rewrite length_app. cbn [length]. rewrite length_app, Hu, Hs.
    change (Z.to_nat 32) with 32%nat. match goal with |- context [(?x <=? ?y)%nat] => destruct (Nat.leb_spec x y); [|lia] end.
    replace (4 + 2 + 32 + 1)%nat with (length u + 1)%nat by lia. rewrite <-drop_drop, drop_app_length. cbn [drop]. rewrite drop_0. by apply take_app_exact.
Qed.

(** The server reads the whole of it and nothing behind it. *)
Lemma accept_hello stime sopaque more t :
  otls_accept stime sopaque (talk (build_client_hello time opaque session_id host payload ++ more) t)
  = (Ok (new payload (build_server_reply stime sopaque session_id) false), talk more t).
Proof using Hfits.
  pose proof zlen_hello as Hz. pose proof hello_shows as (_ & Ht & Hi). pose proof build_is_record as Hb. destruct Hfits as (_ & _ & Hl).
  pose proof (zlen_nonneg host). pose proof (zlen_nonneg payload). rewrite Hb. unfold Sni.encode_record. set (m := Sni.encode_hello h) in *.
  set (header := Sni.TLS_HANDSHAKE :: [3; 1] ++ to_be 2 (zlen m)). assert (length header = 5%nat) as Hh by reflexivity.
  assert (Sni.TLS_HANDSHAKE :: [3; 1] ++ to_be 2 (zlen m) ++ m = header ++ m) as -> by (unfold header; cbn; done).
  unfold otls_accept. rewrite <-app_assoc. erewrite cbind_ok; [|by apply h_read_talk]. change (nth 0 header 0 =? REC_HANDSHAKE) with true. cbn [negb].
  assert (from_be (drop 3 header) = zlen m) as -> by (change (drop 3 header) with (to_be 2 (zlen m)); apply from_to_be; change (2 ^ (8 * Z.of_nat 2)) with 65536;
    pose proof (zlen_nonneg m); unfold MAX_TLS_DATA_LEN in *; lia).
  assert (Z.to_nat (zlen m) = length m) as -> by (unfold zlen; lia).
  destruct (Nat.ltb_spec (MAX_TLS_DATA_LEN + 2048) (length m)) as [Hx|_]; [unfold zlen, MAX_TLS_DATA_LEN in *; lia|].
  erewrite cbind_ok; [|by apply h_read_talk]. unfold cret. by rewrite Ht, Hi.
Qed.

End hello.

(** ** The reader *)

(** Records by their type, version and payload. *)
Definition Rec : Set := Z * bytes * bytes.
Definition rec_ok (r : Rec) : Prop := length (r.1.2) = 2%nat ∧ (length (r.2) ≤ MAX_TLS_DATA_LEN + 2048)%nat.
Definition encode_rec (r : Rec) : bytes := record (r.1.1) (r.1.2) (r.2).
Definition wire (rs : list Rec) : bytes := concat (encode_rec <$> rs).

(** What of them is payload. *)
Fixpoint payload_of (expect : bool) (rs : list Rec) : bytes :=
  match rs with
  | [] => []
  | (kind, _, p) :: rs =>
      if expect && (kind =? REC_CHANGE_CIPHER_SPEC) then payload_of false rs
      else if expect && (kind =? REC_HANDSHAKE) then payload_of expect rs
      else p ++ payload_of false rs
  end.

Lemma obfs_record_parts k v p :
  length v = 2%nat → (length p ≤ MAX_TLS_DATA_LEN + 2048)%nat →
  ∃ v1 v2 hi lo, record k v p = k :: v1 :: v2 :: hi :: lo :: p ∧ Z.to_nat (from_be [hi; lo]) = length p.
Proof.
  intros Hv Hp. destruct v as [|v1 [|v2 [|]]]; try done. assert (0 ≤ zlen p < 65536) as Hz by (unfold zlen, MAX_TLS_DATA_LEN in *; lia).
  destruct (Sni.from_be_pair (zlen p) Hz) as (hi & lo & E & F). exists v1, v2, hi, lo. unfold record. rewrite wrap_small, E by (cbn; lia).
  split; [done|]. rewrite F. unfold zlen. lia.
Qed.

(** A record is taken when it is there as a whole. *)
Lemma take_record_at (r x : bytes) (a : Rec) rs :
  rec_ok a → r ++ x = encode_rec a ++ rs →
  (take_record r = Ok None ∧ (length r < length (encode_rec a))%nat)
  ∨ ∃ rest, take_record r = Ok (Some (a.1.1, a.2, rest)) ∧ rest ++ x = rs ∧ (length rest < length r)%nat.
Proof.
  destruct a as [[k v] p]. intros [Hv Hp] E. cbn [fst snd] in *. unfold encode_rec in *. cbn [fst snd] in *.
  destruct (obfs_record_parts k v p Hv Hp) as (v1 & v2 & hi & lo & Er & El). rewrite Er in *. set (full := k :: v1 :: v2 :: hi :: lo :: p) in *.
  destruct (decide (length full ≤ length r)%nat) as [Hle|Hlt].
  - right. assert (∃ rest, r = full ++ rest) as [rest ->].
    { exists (drop (length full) r). rewrite <-(take_drop (length full) r) at 1. f_equal. rewrite <-(take_app_le r x) by done. rewrite E. apply take_app_length. }
    exists rest. rewrite <-app_assoc in E. apply app_inv_head in E. split_and!; [|done|unfold full; rewrite length_app; cbn; lia].
    unfold full. cbn [app take_record]. rewrite El. destruct (Nat.ltb_spec (MAX_TLS_DATA_LEN + 2048) (length p)); [lia|].
    match goal with |- context [(?x <? ?y)%nat] => destruct (Nat.ltb_spec x y) as [Hx|_] end; [cbn [length] in Hx; rewrite length_app in Hx; lia|].
    by rewrite take_app_length, drop_app_length.
  - left. split; [|lia]. assert (r = take (length r) full) as Hr.
    { rewrite <-(take_app_le full rs) by lia. rewrite <-E. by rewrite take_app_length. }
    destruct r as [|? [|? [|? [|? [|? r]]]]]; try done. unfold full in Hr. cbn [length take] in Hr. injection Hr as -> -> -> -> -> Hr.
    cbn [take_record]. rewrite El. destruct (Nat.ltb_spec (MAX_TLS_DATA_LEN + 2048) (length p)); [lia|].
    unfold full in Hlt. cbn [length] in *. match goal with |- context [(?x <? ?y)%nat] => destruct (Nat.ltb_spec x y) as [_|Hx] end; [done|lia].
Qed.

(** What is still to be read of a stream, before and after. *)
Definition content (s : ObfsTlsStream) (rs : list Rec) : bytes := drop (ready_pos s) (ready s) ++ payload_of (expect_server_reply s) rs.

Lemma next_payload_spec fuel s x rs r s' :
  Forall rec_ok rs → raw s ++ x = wire rs → (length (raw s) ≤ fuel)%nat → (length (ready s) ≤ ready_pos s)%nat →
  next_payload fuel s = (r, s') →
  ∃ b rs', r = Ok b ∧ Forall rec_ok rs' ∧ raw s' ++ x = wire rs' ∧ o_out s' = o_out s ∧ next_record_type s' = next_record_type s
    ∧ content s' rs' = content s rs
    ∧ if b then (ready_pos s' < length (ready s'))%nat else (length (ready s') ≤ ready_pos s')%nat ∧ (x = [] → rs' = []).
Proof.
  intros Hok. revert s fuel. induction Hok as [|[[k v] p] rs Ha Hrs IH]; intros s fuel E Hf Hr H.
  { unfold wire in E. cbn in E. apply app_eq_nil in E as [E1 ->]. exists false, []. destruct fuel; cbn [next_payload] in H; [|rewrite E1 in H; cbn in H];
      injection H as <- <-; (split; [done|]); (split; [constructor|]); rewrite E1; done. }
  unfold wire in E. cbn [fmap list_fmap concat] in E. change (concat (encode_rec <$> rs)) with (wire rs) in E.
  destruct (take_record_at (raw s) x (k, v, p) (wire rs) Ha E) as [[Et Hl]|(rest & Et & Er & Hl)].
  - exists false, ((k, v, p) :: rs). assert ((r, s') = (Ok false, s)) as [= -> ->] by (destruct fuel; cbn [next_payload] in H; [by rewrite <-H|by rewrite Et in H]).
    split; [done|]. split; [by constructor|]. split; [exact E|]. split_and!; try done.
    intros ->. rewrite app_nil_r in E. exfalso. rewrite E, length_app in Hl. lia.
  - destruct fuel as [|fuel]; [lia|]. cbn [next_payload] in H. rewrite Et in H. cbn [fst snd] in H.
    set (s1 := set_raw rest s) in *. assert (drop (ready_pos s) (ready s) = []) as Hd by (by apply drop_ge).
    assert (∀ e, payload_of e rs = payload_of (expect_server_reply s) ((k, v, p) :: rs) →
      next_payload fuel (set_expect e s1) = (r, s') →
      ∃ b rs', r = Ok b ∧ Forall rec_ok rs' ∧ raw s' ++ x = wire rs' ∧ o_out s' = o_out s ∧ next_record_type s' = next_record_type s
        ∧ content s' rs' = content s ((k, v, p) :: rs)
        ∧ if b then (ready_pos s' < length (ready s'))%nat else (length (ready s') ≤ ready_pos s')%nat ∧ (x = [] → rs' = [])) as Hgo.
    { intros e Hp Hn. destruct (IH (set_expect e s1) fuel) as (b & rs' & Q); [done|cbn; lia|done|done|].
      exists b, rs'. destruct Q as (-> & ? & ? & ? & ? & Hc & ?). split_and!; try done. rewrite Hc. unfold content. cbn [set_expect s1 set_raw ready ready_pos expect_server_reply].
      by rewrite Hp. }
    change (expect_server_reply s1) with (expect_server_reply s) in H. cbn [payload_of] in Hgo. destruct (expect_server_reply s) eqn:Ee; cbn [andb] in *.
    + destruct (k =? REC_CHANGE_CIPHER_SPEC) eqn:E1; [by apply (Hgo false)|]. destruct (k =? REC_HANDSHAKE) eqn:E2.
      { apply (Hgo true); [done|]. rewrite <-H. f_equal. unfold s1, set_expect, set_raw. cbn. by rewrite Ee. }
      destruct p as [|b p]; [by apply (Hgo false)|]. injection H as <- <-. exists true, rs. split_and!; try done; [|cbn; lia].
      unfold content. cbn [set_ready set_expect s1 set_raw ready ready_pos expect_server_reply payload_of]. by rewrite Ee, Hd, drop_0, E1, E2.
    + destruct p as [|b p]; [by apply (Hgo false)|]. injection H as <- <-. exists true, rs. split_and!; try done; [|cbn; lia].
      unfold content. cbn [set_ready set_expect s1 set_raw ready ready_pos expect_server_reply payload_of]. rewrite Ee, Hd, drop_0. done.
Qed.

Lemma deliver_spec room s rs :
  (ready_pos s < length (ready s))%nat →
  let '(p, s') := deliver room s in
  ∃ b, p = Ready (Ok b) ∧ b ++ content s' rs = content s rs ∧ raw s' = raw s ∧ ((0 < room)%nat → b ≠ []).
Proof.
  intros Hr. unfold deliver. set (n := Nat.min (length (ready s) - ready_pos s) room). eexists. split; [reflexivity|]. split_and!.
  - unfold content. destruct (Nat.eqb_spec (ready_pos s + n) (length (ready s))) as [E|E]; cbn [set_ready ready ready_pos expect_server_reply].
    + rewrite drop_0, take_ge by (rewrite length_drop; lia). done.
    + rewrite <-drop_drop, app_assoc, take_drop. done.
  - by destruct (_ =? _)%nat.
  - intros Hroom Hn. apply (f_equal length) in Hn. rewrite length_take, length_drop in Hn. cbn in Hn. lia.
Qed.

(** One poll, however the bytes come: what it hands out comes off the front of what
    is still to be read. *)
Lemma obfs_read_loop_spec fuel : ∀ room answers w s rs p s' answers',
  Forall rec_ok rs → raw s ++ received answers ++ w = wire rs → RData [] ∉ answers →
  (length answers + length (received answers) < fuel)%nat →
  read_loop fuel room answers s = (p, s', answers') →
  ∃ rs', Forall rec_ok rs' ∧ raw s' ++ received answers' ++ w = wire rs' ∧ RData [] ∉ answers'
    ∧ poll_bytes p ++ content s' rs' = content s rs
    ∧ (∀ e, p = Ready (Err e) ∨ RErr e ∈ answers' → RErr e ∈ answers)
    ∧ (length answers' ≤ length answers)%nat
    ∧ ((0 < room)%nat → poll_bytes p = [] → (length answers' < length answers)%nat ∨ (answers' = [] ∧ (w = [] → content s' rs' = []))).
Proof.
  induction fuel as [|fuel IH]; intros room answers w s rs p s' answers' Hok E Hn Hf H; [lia|]. cbn [read_loop] in H.
  destruct (Nat.ltb_spec (ready_pos s) (length (ready s))) as [Hr|Hr].
  { pose proof (deliver_spec room s rs Hr) as Hd. destruct (deliver room s) as [q s1]. injection H as <- <- <-. destruct Hd as (b & -> & Hc & Hraw & Hb).
    exists rs. rewrite Hraw. split_and!; try done; [by intros e [?|?]|]. intros Hroom Hb0. by destruct (Hb Hroom). }
  destruct (next_payload (length (raw s)) s) as [r s1] eqn:En.
  destruct (next_payload_spec (length (raw s)) s (received answers ++ w) rs r s1 Hok E (le_n _) Hr En) as (b & rs1 & -> & Hok1 & E1 & _ & _ & Hc1 & Hb).
  destruct b.
  { pose proof (deliver_spec room s1 rs1 Hb) as Hd. destruct (deliver room s1) as [q s2]. injection H as <- <- <-. destruct Hd as (b & -> & Hc & Hraw & Hbb).
    exists rs1. rewrite Hraw. split_and!; try done; [cbn; congruence|by intros e [?|?]|]. intros Hroom Hb0. by destruct (Hbb Hroom). }
  destruct Hb as [Hr1 Hlast].
  destruct answers as [|[|e|piece] answers]; cbn [inner_read] in H.
  - injection H as <- <- <-. exists rs1. split_and!; try done; [by intros e [?|?]|]. intros _ _. right. split; [done|]. intros ->.
    rewrite (Hlast eq_refl). unfold content. rewrite drop_ge by done. done.
  - injection H as <- <- <-. exists rs1. apply not_elem_of_cons in Hn as [_ Hn]. split_and!; try done; [|cbn; lia|left; cbn; lia].
    intros e [?|?]; [done|by right].
  - injection H as <- <- <-. exists rs1. apply not_elem_of_cons in Hn as [_ Hn]. split_and!; try done; [|cbn; lia|left; cbn; lia].
    intros e' [[= ->]|?]; [by left|by right].
  - apply not_elem_of_cons in Hn as [Hp Hn]. destruct (take CHUNK piece) as [|y got] eqn:Et.
    { destruct piece; [done|]. unfold CHUNK in Et. by destruct (Z.to_nat 8192) eqn:Ez. }
    rewrite <-Et in *. clear Et y got.
    set (answers1 := match drop CHUNK piece with [] => answers | rest => RData rest :: answers end) in *.
    assert (received (RData piece :: answers) = take CHUNK piece ++ received answers1) as Erec.
    { rewrite received_cons. cbn [answer_bytes]. rewrite <-(take_drop CHUNK piece) at 1. rewrite <-app_assoc. f_equal. unfold answers1. by destruct (drop CHUNK piece). }
    assert (length answers1 ≤ S (length answers))%nat as Hl1 by (unfold answers1; destruct (drop CHUNK piece); cbn; lia).
    assert (0 < length (take CHUNK piece))%nat as Hpos.
    { rewrite length_take. destruct piece; [done|]. unfold CHUNK. cbn [length]. lia. }
    destruct (IH room answers1 w (set_raw (raw s1 ++ take CHUNK piece) s1) rs1 p s' answers' Hok1) as (rs' & Q).
    + cbn [set_raw raw]. rewrite <-app_assoc, <-E1, Erec, <-!app_assoc. done.
    + unfold answers1. destruct (drop CHUNK piece); [done|]. by apply not_elem_of_cons.
    + rewrite Erec, length_app in Hf. cbn [length] in Hf. lia.
    + by destruct (take CHUNK piece).
    + exists rs'. destruct Q as (? & ? & ? & Hc & He & Hla & Hprog). split_and!; try done.
      * rewrite Hc. unfold content in *. cbn [set_raw ready ready_pos expect_server_reply]. done.
      * intros e He'. apply He in He'. unfold answers1 in He'. destruct (drop CHUNK piece); [by right|]. apply elem_of_cons in He' as [?|?]; [done|by right].
      * cbn. lia.
      * intros Hroom Hb0. destruct (Hprog Hroom Hb0) as [?|?]; [left; cbn; lia|by right].
Qed.

Fixpoint obfs_reads (rooms : list nat) (answers : list ReadAnswer) (s : ObfsTlsStream) :
    list (poll (result io_error bytes)) * ObfsTlsStream * list ReadAnswer :=
  match rooms with
  | [] => ([], s, answers)
  | room :: rooms =>
      let '(p, s, answers) := poll_read room answers s in
      let '(ps, s, answers) := obfs_reads rooms answers s in (p :: ps, s, answers)
  end.

(** Many polls. *)
Lemma obfs_reads_spec rooms : ∀ answers w s rs ps s' answers',
  Forall rec_ok rs → raw s ++ received answers ++ w = wire rs → RData [] ∉ answers →
  obfs_reads rooms answers s = (ps, s', answers') →
  delivered ps `prefix_of` content s rs
  ∧ (∀ e, Ready (Err e) ∈ ps → RErr e ∈ answers)
  ∧ (w = [] → Forall (λ room, 0 < room)%nat rooms → (length (content s rs) + length answers ≤ length rooms)%nat → delivered ps = content s rs).
Proof.
  induction rooms as [|room rooms IH]; intros answers w s rs ps s' answers' Hok E Hn H; cbn [obfs_reads] in H.
  { injection H as <- <- <-. split_and!; [apply prefix_nil|by intros e ?%elem_of_nil|]. intros _ _ Hl. cbn in Hl. destruct (content s rs); [done|cbn in Hl; lia]. }
  destruct (poll_read room answers s) as [[p s1] a1] eqn:Ep. unfold poll_read in Ep.
  destruct (obfs_read_loop_spec (S (length answers + length (received answers))) _ _ w _ rs _ _ _ Hok E Hn (le_n _) Ep) as (rs1 & Hok1 & E1 & Hn1 & Hc & He & Hla & Hprog).
  destruct (obfs_reads rooms a1 s1) as [[ps1 s2] a2] eqn:E2. injection H as <- <- <-.
  destruct (IH _ w _ rs1 _ _ _ Hok1 E1 Hn1 E2) as (Hpre & Herr & Hall). unfold delivered in *. cbn [fmap list_fmap concat]. rewrite <-Hc. split_and!.
  - by apply prefix_app.
  - intros e [He1|He1]%elem_of_cons; apply He; [by left|right; by apply Herr].
  - intros Hw Hrooms Hl. apply Forall_cons in Hrooms as [Hroom Hrooms]. f_equal.
    rewrite length_app in Hl. cbn [length] in Hl. destruct (poll_bytes p) as [|y b] eqn:Eb.
    + destruct (Hprog Hroom eq_refl) as [Hlt|[-> Hz]]; [apply Hall; [done|done|cbn in Hl; lia]|]. specialize (Hz Hw). rewrite Hz in Hpre |- *.
      by apply prefix_nil_inv in Hpre.
    + apply Hall; [done|done|]. cbn [length] in Hl. lia.
Qed.

(** ** The writer *)

Inductive Op : Set :=
| OpWrite (answers : list Answer) (buf : bytes)
| OpFlush (answers : list Answer) (inner : poll (result io_error ()))
| OpShutdown (answers : list Answer) (inner : poll (result io_error ())).

Definition op (o : Op) (s : ObfsTlsStream) : ObfsTlsStream :=
  match o with
  | OpWrite answers buf => (poll_write answers buf s).2
  | OpFlush answers inner => (poll_flush answers inner s).2
  | OpShutdown answers inner => (poll_shutdown answers inner s).2
  end.
Definition accepted (o : Op) (s : ObfsTlsStream) : list bytes :=
  match o with
  | OpWrite answers ((_ :: _) as buf) => match (poll_write answers buf s).1 with Ready (Ok n) => [take n buf] | _ => [] end
  | _ => []
  end.
Definition ops (os : list Op) (s : ObfsTlsStream) : ObfsTlsStream := foldl (λ s o, op o s) s os.
Fixpoint all_accepted (os : list Op) (s : ObfsTlsStream) : list bytes :=
  match os with [] => [] | o :: os => accepted o s ++ all_accepted os (op o s) end.

(** A transport that may be slow but does not fail. *)
Definition taking (a : Answer) : Prop := match a with AErr _ => False | ATake n => (0 < n)%nat | APending => True end.
Definition op_answers (o : Op) : list Answer := match o with OpWrite a _ | OpFlush a _ | OpShutdown a _ => a end.

#[export] Instance taking_dec a : Decision (taking a).
Proof. destruct a; cbn; apply _. Defined.

Lemma flush_taking zero answers : ∀ o p o' answers',
  out_ok o → Forall taking answers → flush_out zero answers o = (p, o', answers') →
  (p = Pending ∨ p = Ready (Ok tt)) ∧ Forall taking answers'.
Proof.
  induction answers as [|[|e|n] answers IH]; intros o p o' answers' Ho Ht H; cbn [flush_out] in H;
    destruct (Nat.ltb_spec (out_pos o) (length (out o))) as [Hlt|Hge]; try (injection H as <- <- <-; split; [by auto|]; [done..]);
    try (injection H as <- <- <-; split; [by auto|]; by apply Forall_cons in Ht as [_ Ht]).
  - by apply Forall_cons in Ht as [[] _].
  - apply Forall_cons in Ht as [Hn Ht]. cbn in Hn. destruct (Nat.eqb_spec (Nat.min n (length (out o) - out_pos o)) 0); [lia|].
    eapply IH; [|exact Ht|exact H]. unfold out_ok in *. cbn. lia.
Qed.

Definition recs (k0 : Z) (bs : list bytes) : list Rec :=
  match bs with [] => [] | b :: bs => (k0, [3; 3], b) :: ((λ b, (REC_APP_DATA, [3; 3], b)) <$> bs) end.

Lemma recs_snoc k0 bs b : recs k0 (bs ++ [b]) = recs k0 bs ++ [(match bs with [] => k0 | _ => REC_APP_DATA end, [3; 3], b)].
Proof. destruct bs as [|b0 bs]; [done|]. cbn. by rewrite fmap_app. Qed.

(** What a writer has put out: what it opened with, and a record for each write. *)
Record carries (opening : bytes) (k0 : Z) (s : ObfsTlsStream) (bs : list bytes) : Prop := {
  ca_out : out_ok (o_out s);
  ca_type : next_record_type s = match bs with [] => k0 | _ => REC_APP_DATA end;
  ca_wire : sent (o_out s) ++ unsent (o_out s) = opening ++ wire (recs k0 bs) }.

Lemma obfs_carries_flush opening k0 s bs answers p s' answers' :
  carries opening k0 s bs → Forall taking answers → obfs_flush answers s = (p, s', answers') →
  carries opening k0 s' bs ∧ (p = Pending ∨ (p = Ready (Ok tt) ∧ unsent (o_out s') = [])) ∧ Forall taking answers'.
Proof.
  intros [Ho Ht Hw] Ha H. unfold obfs_flush in H. destruct (flush_out zero_write answers (o_out s)) as [[q o] a] eqn:E. injection H as <- <- <-.
  destruct (flush_taking _ _ _ _ _ _ Ho Ha E) as [Hq Ha']. apply flush_out_spec in E as (E & Ho' & _ & Hd); [|done]. split_and!; [|naive_solver|done].
  split; [done|done|]. cbn. by rewrite E.
Qed.

Definition chunk_ok (b : bytes) : Prop := (length b ≤ MAX_TLS_DATA_LEN)%nat.

Lemma obfs_wire_app rs rs' : wire (rs ++ rs') = wire rs ++ wire rs'.
Proof. unfold wire. by rewrite fmap_app, concat_app. Qed.

Lemma op_carries opening k0 o s bs :
  Forall taking (op_answers o) → carries opening k0 s bs →
  carries opening k0 (op o s) (bs ++ accepted o s) ∧ Forall chunk_ok (accepted o s).
Proof.
  intros Ha Hc. destruct o as [answers buf|answers inner|answers inner]; cbn [op accepted op_answers] in *.
  - unfold poll_write. destruct (obfs_flush answers s) as [[p s1] a1] eqn:E1. destruct (obfs_carries_flush _ _ _ _ _ _ _ _ Hc Ha E1) as (Hc1 & Hp & Ha1).
    assert (carries opening k0 s1 (bs ++ [])) as Hc1' by (by rewrite app_nil_r).
    destruct Hp as [->|[-> Hu]]; [by destruct buf|]. destruct buf as [|y buf]; [done|]. set (b := y :: buf) in *.
    set (n := Nat.min (length b) MAX_TLS_DATA_LEN). set (s2 := set_out _ _).
    assert (carries opening k0 s2 (bs ++ [take n b])) as Hc2.
    { destruct Hc1 as [Ho Ht Hw]. split; cbn [s2 set_out set_type o_out next_record_type].
      - unfold out_ok. cbn. lia.
      - by destruct bs.
      - cbn [sent unsent out_pos out]. rewrite Hu, app_nil_r in Hw. cbn [set_out]. unfold unsent. cbn [out out_pos]. rewrite drop_0, Hw, recs_snoc, obfs_wire_app, Ht.
        unfold wire at 3. cbn. by rewrite app_nil_r, <-app_assoc. }
    assert (chunk_ok (take n b)) as Hk by (unfold chunk_ok; rewrite length_take; lia).
    destruct (obfs_flush a1 s2) as [[q s3] a3] eqn:E3. destruct (obfs_carries_flush _ _ _ _ _ _ _ _ Hc2 Ha1 E3) as (Hc3 & Hq & _).
    destruct Hq as [->|[-> _]]; cbn [fst snd]; (split; [exact Hc3|by apply Forall_singleton]).
  - unfold poll_flush. rewrite app_nil_r. destruct (obfs_flush answers s) as [[p s1] a1] eqn:E1. destruct (obfs_carries_flush _ _ _ _ _ _ _ _ Hc Ha E1) as (Hc1 & Hp & _).
    by destruct Hp as [->|[-> _]].
  - unfold poll_shutdown. rewrite app_nil_r. destruct (obfs_flush answers s) as [[p s1] a1] eqn:E1. destruct (obfs_carries_flush _ _ _ _ _ _ _ _ Hc Ha E1) as (Hc1 & Hp & _).
    by destruct Hp as [->|[-> _]].
Qed.

Lemma ops_carries opening k0 os : ∀ s bs,
  Forall (λ o, Forall taking (op_answers o)) os → carries opening k0 s bs →
  carries opening k0 (ops os s) (bs ++ all_accepted os s) ∧ Forall chunk_ok (all_accepted os s).
Proof.
  induction os as [|o os IH]; intros s bs Ha Hc; cbn [ops foldl all_accepted]; [by rewrite app_nil_r|].
  apply Forall_cons in Ha as [Ho Ha]. destruct (op_carries _ _ o s bs Ho Hc) as [Hc1 Hk1]. destruct (IH _ _ Ha Hc1) as [Hc2 Hk2].
  rewrite app_assoc. split; [exact Hc2|by apply Forall_app].
Qed.

Lemma recs_ok k0 bs : Forall chunk_ok bs → Forall rec_ok (recs k0 bs).
Proof.
  intros H. destruct H as [|b bs Hb H]; [constructor|]. cbn. unfold chunk_ok in Hb. constructor; [split; [done|]; cbn; lia|].
  rewrite Forall_fmap. eapply Forall_impl; [exact H|]. intros x Hx. unfold chunk_ok in Hx. split; [done|]. cbn. lia.
Qed.

Lemma payload_recs k0 bs e : (e = true → k0 = REC_APP_DATA) → payload_of e (recs k0 bs) = concat bs.
Proof.
  assert (∀ bs, payload_of false ((λ b, (REC_APP_DATA, [3; 3], b)) <$> bs) = concat bs) as Hf.
  { intros bs'. induction bs' as [|b bs' IH]; [done|]. cbn. by rewrite <-IH. }
  intros He. destruct bs as [|b bs]; [done|]. cbn [recs payload_of concat]. destruct e; cbn [andb]; [rewrite He by done; cbn|]; by rewrite Hf.
Qed.

(** The server's reply is two records. *)
Definition reply_recs (stime : Z) (sopaque session_id : bytes) : list Rec :=
  [(REC_HANDSHAKE, [3; 1], handshake 2 ([3; 3] ++ to_be 4 stime ++ sopaque ++ [u8 (zlen session_id)] ++ session_id ++ to_be 2 52392 ++ [0]
     ++ to_be 2 15 ++ put_ext EXT_RENEGOTIATION_INFO [0] ++ put_ext EXT_EXTENDED_MASTER_SECRET [] ++ put_ext EXT_EC_POINT_FORMATS [1; 0]));
   (REC_CHANGE_CIPHER_SPEC, [3; 3], [1])].

Lemma reply_is_wire stime sopaque session_id : build_server_reply stime sopaque session_id = wire (reply_recs stime sopaque session_id).
Proof.
  unfold build_server_reply, wire, reply_recs. cbn [fmap list_fmap concat]. rewrite app_nil_r. reflexivity.
Qed.

Lemma reply_recs_ok stime sopaque session_id :
  length sopaque = 28%nat → length session_id = 32%nat → Forall rec_ok (reply_recs stime sopaque session_id).
Proof.
  intros Ho Hs. unfold reply_recs. apply Forall_cons. split; [|apply Forall_singleton; split; [done|unfold MAX_TLS_DATA_LEN; cbn [snd length]; lia]].
  split; [done|]. cbn [fst snd]. unfold handshake, put_ext.
  repeat (rewrite ?length_app, ?length_drop, ?length_to_be; cbn [length]). rewrite Ho, Hs. unfold MAX_TLS_DATA_LEN. lia.
Qed.

(** C21: the [otls] transport, from the client's first byte. The ClientHello shows the
    chosen host to an observer and is accepted by the server, which finds in it
    the client's first payload, if any, and takes nothing behind it. From then
    on, in either direction, over a transport that may be slow but does not
    fail: what one end reads is a beginning of what the other accepted for
    writing, behind that first payload, and all of it once everything was taken
    and enough reads are made, however the records are cut; the handshake
    records never show, and no read fails unless the transport does. *)
Theorem otls_transfer time opaque session_id host first stime sopaque (server_writes : bool) os answers w rooms ps s' answers' :
  hello_fits opaque session_id host first → length sopaque = 28%nat →
  Forall (λ o, Forall taking (op_answers o)) os →
  let client := new [] [] true in
  let server := new first (build_server_reply stime sopaque session_id) false in
  let '(writer, reader) := if server_writes then (server, client) else (client, server) in
  let bs := all_accepted os writer in
  let all := (if server_writes then [] else first) ++ concat bs in
  sent (o_out (ops os writer)) = received answers ++ w → RData [] ∉ answers →
  obfs_reads rooms answers reader = (ps, s', answers') →
  Sni.extract_sni (build_client_hello time opaque session_id host first) = Some (from_utf8_lossy host)
  ∧ (∀ more t, otls_accept stime sopaque (talk (build_client_hello time opaque session_id host first ++ more) t) = (Ok server, talk more t))
  ∧ delivered ps `prefix_of` all
  ∧ (∀ e, Ready (Err e) ∈ ps → RErr e ∈ answers)
  ∧ (w = [] → unsent (o_out (ops os writer)) = [] → Forall (λ room, 0 < room)%nat rooms →
     (length all + length answers ≤ length rooms)%nat → delivered ps = all).
Proof.
  intros Hf Hso Ha client server. pose proof (hello_shows time _ _ _ _ Hf) as (Hsni & _). pose proof (accept_hello time _ _ _ _ Hf stime sopaque) as Hacc.
  assert (∃ opening k0 recs0, (if server_writes then (server, client) else (client, server)) = (new (if server_writes then first else []) opening (negb server_writes), new (if server_writes then [] else first) (if server_writes then [] else wire (reply_recs stime sopaque session_id)) server_writes)
    ∧ opening = wire recs0 ∧ Forall rec_ok recs0 ∧ k0 = (if server_writes then REC_HANDSHAKE else REC_APP_DATA)
    ∧ ∀ bs, payload_of server_writes (recs0 ++ recs k0 bs) = concat bs) as (opening & k0 & recs0 & -> & Eo & Hr0 & Hk & Hpay).
  { destruct server_writes.
    - exists (build_server_reply stime sopaque session_id), REC_HANDSHAKE, (reply_recs stime sopaque session_id). unfold server, client. rewrite <-reply_is_wire.
      split_and!; try done; [apply reply_recs_ok; [done|apply Hf]|]. intros bs. cbn. by apply payload_recs.
    - exists [], REC_APP_DATA, []. unfold server, client. rewrite <-reply_is_wire. split_and!; try done. intros bs. cbn [app]. by apply payload_recs. }
  set (writer := new _ opening _). set (reader := new _ _ server_writes). intros bs all Hsent Hn Hrun. split; [done|]. split; [done|].
  assert (carries opening k0 writer []) as Hc0.
  { split; [unfold out_ok; cbn; lia|subst k0; unfold writer; by destruct server_writes|]. cbn. unfold unsent. cbn. by rewrite drop_0, app_nil_r. }
  destruct (ops_carries opening k0 os writer [] Ha Hc0) as [Hc Hbs]. fold bs in Hc, Hbs. cbn [app] in Hc.
  set (c := ops os writer) in *. destruct Hc as [_ _ Hw]. rewrite Eo, <-obfs_wire_app in Hw.
  assert (Forall rec_ok (recs0 ++ recs k0 bs)) as Hok by (apply Forall_app; split; [done|by apply recs_ok]).
  assert (content reader (recs0 ++ recs k0 bs) = all) as Hall.
  { unfold content, reader. cbn [new ready ready_pos expect_server_reply]. rewrite drop_0, Hpay. done. }
  destruct (obfs_reads_spec rooms answers (w ++ unsent (o_out c)) reader (recs0 ++ recs k0 bs) ps s' answers' Hok) as (Hpre & Herr & Hdone); [|done|done|].
  - cbn [reader new raw app]. rewrite <-Hw, Hsent, <-app_assoc. done.
  - rewrite Hall in *. split_and!; [done|done|]. intros -> Hu. by apply Hdone; rewrite ?Hu.
Qed.

(** ** The upgrade *)

Lemma read_one c :
  incoming c ≠ [] → ∃ x c', read 1 c = (Ok [x], c') ∧ incoming c = x :: incoming c' ∧ tx c' = tx c ∧ tx_left c' = tx_left c.
Proof.
  intros Hi. unfold read, incoming in *. destruct (prefix c) as [|y p]; cbn [app] in *.
  - destruct (rx c) as [|y l]; [done|]. assert (∃ ks, match cuts c with [] => (1%nat, []) | k :: ks => (Nat.min 1 (S k), ks) end = (1%nat, ks)) as [ks E].
    { destruct (cuts c) as [|k ks]; [by exists []|]. exists ks. f_equal. }
    exists y, (mkConn [] l ks (rx_end c) (tx c) (tx_left c)). rewrite E. split; [by destruct (rx_end c)|done].
  - eexists y, _. split; [reflexivity|]. cbn. by rewrite drop_0.
Qed.

(** A beginning of the input ends with the blank line where the head does. *)
Lemma ends_at h p acc rest :
  find_sub head_end (h ++ head_end ++ p) = Some (length h) → acc ++ rest = h ++ head_end ++ p → (length acc ≤ length h + 4)%nat →
  ends_with head_end acc = bool_decide (length acc = length h + 4)%nat.
Proof.
  intros Hf E Hl. unfold ends_with. apply bool_decide_ext. apply find_sub_Some in Hf as (_ & _ & Hfirst). split.
  - intros [u Eu]. assert (length h ≤ length u)%nat as Hu by (apply (Hfirst u rest); by rewrite <-E, Eu, <-app_assoc).
    rewrite Eu, length_app in *. cbn [length head_end crlf app] in *. lia.
  - intros Ha. exists h. rewrite app_assoc in E. apply app_inj_1 in E as [-> _]; [done|]. rewrite length_app. cbn [length head_end crlf app]. lia.
Qed.

Lemma obfs_head_reads fuel acc h p : ∀ c,
  find_sub head_end (h ++ head_end ++ p) = Some (length h) → zlen (h ++ head_end) ≤ 8192 →
  acc ++ incoming c = h ++ head_end ++ p → (length acc ≤ length h + 4)%nat → (length h + 5 - length acc < S fuel)%nat →
  ∃ c', read_head_loop fuel acc c = (Ok (from_utf8_lossy (h ++ head_end)), c') ∧ incoming c' = p ∧ tx c' = tx c ∧ tx_left c' = tx_left c.
Proof.
  intros c Hf Hz. revert acc c. induction fuel as [|fuel IH]; intros acc c E Hl Hfuel; [lia|]. cbn [read_head_loop].
  rewrite (ends_at h p acc (incoming c) Hf E Hl). case_bool_decide as Ha.
  - exists c. rewrite app_assoc in E. apply app_inj_1 in E as [-> Ei]; [done|]. rewrite length_app. cbn [length head_end crlf app]. lia.
  - destruct (read_one c) as (x & c1 & Hr & Ei & Ht & Hl1).
    { intros Hi. rewrite Hi, app_nil_r in E. apply (f_equal length) in E. rewrite !length_app in E. cbn [length head_end crlf app] in E. lia. }
    unfold cbind at 1, cmap_err. rewrite Hr. assert (length (acc ++ [x]) ≤ length h + 4)%nat as Hl' by (rewrite length_app; cbn; lia).
    destruct (Z.ltb_spec 8192 (zlen (acc ++ [x]))) as [Hx|_].
    { unfold zlen in *. rewrite length_app in Hz. cbn [length head_end crlf app] in Hz. lia. }
    destruct (IH (acc ++ [x]) c1) as (c' & -> & ? & Ht' & Hl2); [by rewrite <-app_assoc, <-E, Ei|done|rewrite length_app; cbn; lia|].
    exists c'. split_and!; [done|done|congruence..].
Qed.

Lemma read_head_ok h p c :
  find_sub head_end (h ++ head_end ++ p) = Some (length h) → zlen (h ++ head_end) ≤ 8192 → incoming c = h ++ head_end ++ p →
  ∃ c', read_head c = (Ok (from_utf8_lossy (h ++ head_end)), c') ∧ incoming c' = p ∧ tx c' = tx c ∧ tx_left c' = tx_left c.
Proof.
  intros Hf Hz E. apply obfs_head_reads; try done; [cbn; lia|]. rewrite E, !length_app. cbn. lia.
Qed.

(** The lines of the two heads. *)
Definition request_lines (host key : bytes) : list bytes :=
  [str "GET / HTTP/1.1"; str "Host: " ++ host; str "User-Agent: " ++ DEFAULT_USER_AGENT; str "Connection: Upgrade"; str "Upgrade: websocket";
   str "Sec-WebSocket-Key: " ++ key; str "Sec-WebSocket-Version: 13"].
Definition switching_lines : list bytes :=
  [str "HTTP/1.1 101 Switching Protocols"; str "Server: nginx/1.10.0"; str "Connection: Upgrade"; str "Upgrade: websocket"].

Definition field_ok (b : bytes) : Prop := Forall (λ c, 32 ≤ c ≤ 126) b.

Lemma field_line pre b : field_ok pre → pre ≠ [] → field_ok b → head_line (pre ++ b).
Proof.
  intros Hp Hn Hb. split; [|by destruct pre]. intros [Hi|Hi]%elem_of_app; [unfold field_ok in Hp; rewrite Forall_forall in Hp; specialize (Hp _ Hi)|
    unfold field_ok in Hb; rewrite Forall_forall in Hb; specialize (Hb _ Hi)]; unfold ch_cr in *; lia.
Qed.

Lemma request_head host key p :
  field_ok host → field_ok key →
  ∃ h, upgrade_request host key ++ p = h ++ head_end ++ p ∧ find_sub head_end (h ++ head_end ++ p) = Some (length h)
    ∧ zlen (h ++ head_end) = zlen host + zlen key + 149.
Proof.
  intros Hh Hk. exists (join_crlf (request_lines host key)). split_and!.
  - unfold upgrade_request, request_lines. cbn [join_crlf]. rewrite <-!app_assoc. done.
  - apply find_head; [|done]. unfold request_lines.
    assert (∀ s b, field_ok (str s) → str s ≠ [] → field_ok b → head_line (str s ++ b)) as Hl by (intros; by apply field_line).
    assert (field_ok []) as H0 by constructor.
    repeat (apply Forall_cons; split; [first [apply field_line; [apply (bool_decide_unpack _); vm_compute; exact I|done|first [done|apply (bool_decide_unpack _); vm_compute; exact I]]
      | split; [apply (bool_decide_unpack _); vm_compute; exact I|done]]|]). constructor.
  - unfold request_lines. cbn [join_crlf]. unfold zlen. rewrite !length_app. cbn. lia.
Qed.

(** The [ohttp] transport: however the bytes of either side are cut, client and
    server find each other's head and read it to its end and no further, so all
    that follows on either side, down to what was sent in the same piece, is
    still there for the protocol inside. *)
Theorem ohttp_exchange host key c cl more more' :
  field_ok host → field_ok key → zlen host + zlen key ≤ 8000 →
  incoming c = upgrade_request host key ++ more → tx c = [] → tx_left c = None →
  incoming cl = switching ++ more' → tx cl = [] → tx_left cl = None →
  (∃ c', ohttp_accept c = (Ok tt, c') ∧ incoming c' = more ∧ tx c' = switching)
  ∧ (∃ cl', ohttp_connect host key cl = (Ok tt, cl') ∧ incoming cl' = more' ∧ tx cl' = upgrade_request host key).
Proof.
  intros Hh Hk Hz Hi Ht Hl Hi' Ht' Hl'. split.
  - destruct (request_head host key more Hh Hk) as (h & E & Hf & Hzz). rewrite E in Hi.
    destruct (read_head_ok h more c Hf ltac:(lia) Hi) as (c1 & Hr & Hi1 & Ht1 & Hl1). unfold ohttp_accept. erewrite cbind_ok; [|exact Hr].
    unfold h_write, cmap_err, write_all. rewrite Hl1, Hl. eexists. split; [reflexivity|]. split; [exact Hi1|]. cbn. by rewrite Ht1, Ht.
  - set (c1 := mkConn (prefix cl) (rx cl) (cuts cl) (rx_end cl) (tx cl ++ upgrade_request host key) None).
    unfold ohttp_connect. erewrite (cbind_ok _ _ cl tt c1); [|unfold h_write, cmap_err, write_all; by rewrite Hl'].
    set (h := join_crlf switching_lines). assert (switching ++ more' = h ++ head_end ++ more') as E by (unfold h, switching, switching_lines; cbn [join_crlf]; by rewrite <-!app_assoc).
    destruct (read_head_ok h more' c1) as (c2 & Hr & Hi2 & Ht2 & _).
    + apply find_head; [|done]. repeat (apply Forall_cons; split; [split; [apply (bool_decide_unpack _); vm_compute; exact I|done]|]). constructor.
    + vm_compute. discriminate.
    + change (incoming c1) with (incoming cl). by rewrite Hi', E.
    + erewrite cbind_ok; [|exact Hr]. change (contains_str (str " 101 ") (from_utf8_lossy (h ++ head_end))) with true || (replace (contains_str _ _) with true by (vm_compute; reflexivity)).
      eexists. split; [reflexivity|]. split; [done|]. rewrite Ht2. cbn. by rewrite Ht'.
Qed.

(** ** The handshakes of src/obfs.rs *)

Lemma len_bytes n : 0 ≤ n < 65536 → [Z.land (Z.shiftr n 8) 255; Z.land n 255] = to_be 2 n.
Proof.
  intros H. change 255 with (Z.ones 8). rewrite !Z.land_ones, Z.shiftr_div_pow2 by lia. reflexivity.
Qed.

Lemma fix_lengths_ok version kind body :
  length version = 2%nat → zlen body < 65532 →
  fix_lengths version kind body = REC_HANDSHAKE :: version ++ to_be 2 (4 + zlen body) ++ [kind] ++ to_be 3 (zlen body) ++ body.
Proof.
  intros Hv Hz. pose proof (zlen_nonneg body). unfold fix_lengths.
  assert (zlen ([kind; 0; Z.land (Z.shiftr (zlen body) 8) 255; Z.land (zlen body) 255] ++ body) = 4 + zlen body) as -> by (unfold zlen; cbn [length app]; lia).
  assert ([kind; 0; Z.land (Z.shiftr (zlen body) 8) 255; Z.land (zlen body) 255] = [kind] ++ to_be 3 (zlen body)) as ->.
  { pose proof (len_bytes (zlen body) ltac:(lia)) as E. injection E as E1 E2. rewrite E1, E2. unfold to_be. cbn [to_le]. rewrite !reverse_cons. cbn.
    do 2 f_equal. symmetry. rewrite Z.div_div by lia. rewrite Z.div_small by lia. done. }
  rewrite len_bytes by lia. by rewrite <-!app_assoc.
Qed.

Lemma skip_record_ok wrong version kind body more t :
  length version = 2%nat → zlen body < 65532 →
  skip_record wrong (talk (fix_lengths version kind body ++ more) t) = (Ok tt, talk more t).
Proof.
  intros Hv Hz. pose proof (zlen_nonneg body). rewrite fix_lengths_ok by done. set (m := [kind] ++ to_be 3 (zlen body) ++ body).
  assert (length m = Z.to_nat (4 + zlen body)) as Hm by (unfold m, zlen; cbn [app length]; rewrite length_app, length_to_be; lia).
  set (header := REC_HANDSHAKE :: version ++ to_be 2 (4 + zlen body)).
  assert (REC_HANDSHAKE :: version ++ to_be 2 (4 + zlen body) ++ m = header ++ m) as -> by (unfold header; cbn [app]; by rewrite <-app_assoc).
  unfold skip_record. rewrite <-app_assoc. erewrite cbind_ok; [|apply h_read_talk; unfold header; cbn [length]; by rewrite length_app, length_to_be, Hv].
  change (nth 0 header 0 =? REC_HANDSHAKE) with true. cbn [negb].
  assert (from_be (drop 3 header) = 4 + zlen body) as ->.
  { unfold header. destruct version as [|? [|? [|]]]; try done. cbn [app drop]. apply from_to_be. change (2 ^ (8 * Z.of_nat 2)) with 65536. lia. }
  erewrite cbind_ok; [|by apply h_read_talk]. done.
Qed.

(** The fake ClientHello of the older handshake, by its fields. *)
Lemma fake_is_record random host :
  length random = 32%nat → zlen host ≤ 60000 →
  build_fake_client_hello random host
  = Sni.encode_record [3; 1] (Sni.mkHello 1 ([3; 3] ++ random) [] fake_suites [0] [(Sni.EXT_SERVER_NAME, Sni.sni_body host)] []).
Proof.
  intros Hr Hz. pose proof (zlen_nonneg host). unfold build_fake_client_hello.
  assert (build_sni_extension host = Sni.encode_extensions [(Sni.EXT_SERVER_NAME, Sni.sni_body host)]) as E.
  { unfold build_sni_extension, Sni.encode_extensions, Sni.encode_extension. cbn [fmap list_fmap concat fst snd]. rewrite Sni.zlen_sni_body, app_nil_r, !wrap_small by lia.
    unfold Sni.sni_body. replace (2 + (3 + zlen host)) with (zlen host + 5) by lia. replace (3 + zlen host) with (zlen host + 3) by lia. done. }
  rewrite E. set (h := Sni.mkHello _ _ _ _ _ _ _). assert (zlen (Sni.encode_extensions [(Sni.EXT_SERVER_NAME, Sni.sni_body host)]) = zlen host + 9) as Ez.
  { unfold Sni.encode_extensions, Sni.encode_extension. cbn [fmap list_fmap concat fst snd]. rewrite app_nil_r, !zlen_app, Sni.zlen_sni_body. unfold zlen. rewrite !length_to_be. lia. }
  set (body := [3; 3] ++ _). assert (body = Sni.hello_rest h) as Eb.
  { unfold body, Sni.hello_rest, Sni.hello_front, h. cbn [Sni.fixed Sni.session Sni.suites Sni.comps Sni.exts Sni.tail]. change (u16 (zlen fake_suites)) with (zlen fake_suites).
    rewrite Ez, wrap_small by lia. change (zlen []) with 0. change (zlen [0]) with 1. rewrite app_nil_r, <-!app_assoc. cbn [app]. done. }
  assert (zlen body = zlen host + 58) as Hb.
  { unfold body. unfold zlen in *. repeat (rewrite ?length_app, ?length_to_be; cbn [length fake_suites]). rewrite Hr. lia. }
  rewrite fix_lengths_ok by (done || lia). unfold Sni.encode_record, Sni.encode_hello. rewrite <-Eb. cbn [Sni.h_type h].
  f_equal. f_equal. f_equal. f_equal. rewrite !zlen_app. unfold zlen. rewrite length_to_be. cbn. lia.
Qed.

(** Both sides of the older handshake agree where it ends, and it shows the host. *)
Lemma fake_tls_exchange random srandom host more more' :
  length random = 32%nat → length srandom = 32%nat → zlen host ≤ 60000 →
  Sni.extract_sni (build_fake_client_hello random host) = Some (from_utf8_lossy host)
  ∧ tls_accept_handshake srandom (talk (build_fake_client_hello random host ++ more) []) = (Ok tt, talk more (build_fake_server_hello srandom))
  ∧ tls_handshake random host (talk (build_fake_server_hello srandom ++ more') []) = (Ok tt, talk more' (build_fake_client_hello random host)).
Proof.
  intros Hr Hs Hz. pose proof (zlen_nonneg host). split_and!.
  - rewrite fake_is_record by done. apply (Sni.extract_encode [3; 1] _ [] host []); try done; [|lia].
    assert (zlen (Sni.encode_extensions [(Sni.EXT_SERVER_NAME, Sni.sni_body host)]) = zlen host + 9) as Ez.
    { unfold Sni.encode_extensions, Sni.encode_extension. cbn [fmap list_fmap concat fst snd]. rewrite app_nil_r, !zlen_app, Sni.zlen_sni_body. unfold zlen. rewrite !length_to_be. lia. }
    split; cbn [Sni.fixed Sni.session Sni.suites Sni.comps Sni.exts]; try done.
    + rewrite length_app, Hr. done.
    + apply Forall_singleton. split; cbn [fst snd]; [done|]. rewrite Sni.zlen_sni_body. lia.
    + unfold Sni.encode_hello, Sni.hello_rest, Sni.hello_front. cbn [Sni.h_type Sni.fixed Sni.session Sni.suites Sni.comps Sni.exts Sni.tail].
      rewrite !zlen_app, Ez. unfold zlen. rewrite ?length_app, !length_to_be, Hr. cbn [length fake_suites]. unfold zlen in *. lia.
  - unfold tls_accept_handshake. rewrite (cbind_ok _ _ _ tt (talk more [])); [apply (h_write_talk _ more [])|]. unfold build_fake_client_hello.
    apply skip_record_ok; [done|].
    unfold zlen in *. repeat (rewrite ?length_app, ?length_to_be; cbn [length fake_suites]). unfold build_sni_extension.
    repeat (rewrite ?length_app, ?length_to_be; cbn [length]). rewrite Hr. lia.
  - unfold tls_handshake. rewrite (cbind_ok _ _ _ tt (talk (build_fake_server_hello srandom ++ more') (build_fake_client_hello random host))) by apply h_write_talk.
    generalize (build_fake_client_hello random host). intros t. unfold build_fake_server_hello. apply skip_record_ok; [done|].
    unfold zlen. repeat (rewrite ?length_app; cbn [length]). rewrite Hs. done.
Qed.

(** The older listener takes a request that ends where a read does; one that comes
    together with payload is not recognised. *)
Example piggyback_refused :
  (http_accept_handshake (talk (upgrade_request (str "a.org") (str "key")) [])).1 = Ok tt
  ∧ (http_accept_handshake (talk (upgrade_request (str "a.org") (str "key") ++ [5]) [])).1 = Err (Proxy (str "obfs-http: connection closed")).
Proof. split; vm_compute; reflexivity. Qed.

(** ** Examples *)

(** A failed flush in front of a write: the write replaces the record that was not
    out yet, and reports no error. *)
Example failed_flush_loses :
  let s1 := (poll_write [APending] (str "one") (new [] [] true)).2 in
  let '(p, s2) := poll_write [AErr broken_pipe; ATake 100] (str "two") s1 in
  p = Ready (Ok 3%nat) ∧ sent (o_out s2) = record REC_APP_DATA [3; 3] (str "two").
Proof. vm_compute. done. Qed.

Definition demo_ops : list Op :=
  [OpWrite [ATake 100; ATake 3; APending] (str "hello "); OpWrite [ATake 1000; ATake 1000] (str "world"); OpFlush [ATake 1000] (Ready (Ok tt))].
Definition demo_server : ObfsTlsStream := new (str "first") (build_server_reply 5 (replicate 28 1) (replicate 32 2)) false.
Definition demo_wire : bytes := sent (o_out (ops demo_ops demo_server)).
Definition demo_answers : list ReadAnswer := [RData (take 50 demo_wire); RPending; RData (drop 50 demo_wire)].

Lemma otls_transfer_witness :
  delivered (obfs_reads (replicate 20 4%nat) demo_answers (new [] [] true)).1.1 = str "hello world".
Proof.
  destruct (obfs_reads (replicate 20 4%nat) demo_answers (new [] [] true)) as [[ps s'] rest] eqn:E.
  pose proof (otls_transfer 9 (replicate 28 3) (replicate 32 2) (str "example.org") (str "first") 5 (replicate 28 1) true demo_ops demo_answers []
    (replicate 20 4%nat) ps s' rest) as H.
  cbv zeta iota beta in H. destruct H as (_ & _ & _ & _ & H).
  - split; [reflexivity|]. split; [reflexivity|]. vm_compute. discriminate.
  - reflexivity.
  - apply (bool_decide_unpack _). vm_compute. exact I.
  - vm_compute. reflexivity.
  - unfold demo_answers. rewrite !not_elem_of_cons. split_and!; [by vm_compute..|apply not_elem_of_nil].
  - exact E.
  - cbn [fst]. rewrite H; [vm_compute; reflexivity|reflexivity|vm_compute; reflexivity| |].
    + apply (bool_decide_unpack _). vm_compute. exact I.
    + apply (bool_decide_unpack _). vm_compute. exact I.
Defined.

Lemma ohttp_exchange_witness :
  let host := str "example.org" in let key := str "c2VjcmV0" in
  ∃ c', ohttp_accept (mkConn [] (upgrade_request host key ++ [1; 2]) [30; 0; 5]%nat None [] None) = (Ok tt, c') ∧ incoming c' = [1; 2] ∧ tx c' = switching.
Proof.
  refine (proj1 (ohttp_exchange (str "example.org") (str "c2VjcmV0")
    (mkConn [] (upgrade_request (str "example.org") (str "c2VjcmV0") ++ [1; 2]) [30; 0; 5]%nat None [] None) (talk (switching ++ [9]) []) [1; 2] [9] _ _ _ eq_refl eq_refl eq_refl eq_refl eq_refl eq_refl)).
  - apply (bool_decide_unpack _). vm_compute. exact I.
  - apply (bool_decide_unpack _). vm_compute. exact I.
  - vm_compute. discriminate.
Defined.

End Obfs.
