(* ===== verification/Server.v ===== *)
(** * Accept loops

    The servers of src/server.rs, src/tls_listener.rs, src/ws.rs,
    src/mux_transport.rs and src/udp.rs have one life cycle: connections are
    accepted, each becomes a task of a tracker, a failed accept is followed by a
    pause that grows, and once the cancellation token is seen no more are
    accepted and the tasks are waited for. They differ in the handshake a task
    begins with and in whether the wait has an end; a [Style] says how. Each
    event is what one task does between two points at which another can act. *)

From stdpp Require Import base list option numbers gmap.
From Stdlib Require Import ZArith Lia.
From S2P Require Import Prelude Reload Udp.

Module Server.

(** [temp_delay] after a failed accept. *)
Definition next_delay (temp_delay : Z) : Z :=
  let d := if temp_delay =? 0 then 5 * 1000000 else temp_delay * 2 in
  if one_second <? d then one_second else d.

(** What a task begins with: nothing, a handshake without a bound, or one with a
    timeout. A handshake does not watch the token. *)
Inductive Handshake : Set := NoHandshake | Unbounded | Within (timeout : Z).
Record Style : Set := mkStyle { handshake : Handshake; drain : option Z }.

Definition drain_timeout : Z := 10 * one_second.
Definition tcp_style : Style := mkStyle NoHandshake (Some drain_timeout).
Definition udp_style : Style := mkStyle NoHandshake (Some drain_timeout).
Definition tls_style : Style := mkStyle Unbounded None.
Definition ws_style (handshake_timeout : Z) : Style := mkStyle (Within handshake_timeout) None.
Definition mux_style (tls : bool) : Style := mkStyle (if tls then Unbounded else NoHandshake) None.

Inductive Task : Set := Handshaking (since : Z) | Handling.
Inductive Phase : Set := Accepting | Sleeping (until : Z) | Draining (since : Z) | Finished (drained : bool).

Record Srv : Set := mkSrv { temp_delay : Z; tasks : gmap nat Task; next : nat; phase : Phase; cancelled : bool }.

Definition start : Srv := mkSrv 0 ∅ 0 Accepting false.

Definition set_phase p s := mkSrv (temp_delay s) (tasks s) (next s) p (cancelled s).
Definition set_tasks t s := mkSrv (temp_delay s) t (next s) (phase s) (cancelled s).
Definition cancel s := mkSrv (temp_delay s) (tasks s) (next s) (phase s) true.

Inductive Ev : Set :=
| AcceptOk (now : Z)
| AcceptErr (now : Z)
| Stopped (now : Z)
| Wake (now : Z)
| Cancel
| SeeCancel (now : Z)
| HandshakeDone (k : nat) (ok : bool)
| HandshakeTimeout (k : nat) (now : Z)
| HandlerDone (k : nat)
| TaskSeesCancel (k : nat)
| Drained
| DrainTimeout (now : Z).

#[export] Instance Ev_eq_dec : EqDecision Ev.
Proof. solve_decision. Defined.

Definition accepting (s : Srv) : bool := match phase s with Accepting => true | _ => false end.

Section serve.
Context (style : Style).

(** A task for a new connection. *)
Definition spawn (now : Z) (s : Srv) : Srv :=
  let task := match handshake style with NoHandshake => Handling | _ => Handshaking now end in
  mkSrv 0 (<[next s := task]> (tasks s)) (S (next s)) (phase s) (cancelled s).

(** [Stopped] is the end of a listener that gives connections by itself, as the one
    for UDP does; the others only stop when cancelled. *)
Definition step (ev : Ev) (s : Srv) : Srv :=
  match ev with
  | AcceptOk now => if accepting s then spawn now s else s
  | AcceptErr now =>
      if accepting s then
        let d := next_delay (temp_delay s) in mkSrv d (tasks s) (next s) (Sleeping (now + d)) (cancelled s)
      else s
  | Stopped now => if accepting s then set_phase (Draining now) s else s
  | Wake now => match phase s with Sleeping until => if until <=? now then set_phase Accepting s else s | _ => s end
  | Cancel => cancel s
  | SeeCancel now => if accepting s && cancelled s then set_phase (Draining now) s else s
  | HandshakeDone k ok =>
      match tasks s !! k with
      | Some (Handshaking _) => set_tasks (if ok then <[k := Handling]> (tasks s) else delete k (tasks s)) s
      | _ => s
      end
  | HandshakeTimeout k now =>
      match tasks s !! k, handshake style with
      | Some (Handshaking since), Within t => if since + t <=? now then set_tasks (delete k (tasks s)) s else s
      | _, _ => s
      end
  | HandlerDone k => match tasks s !! k with Some Handling => set_tasks (delete k (tasks s)) s | _ => s end
  | TaskSeesCancel k =>
      match tasks s !! k with Some Handling => if cancelled s then set_tasks (delete k (tasks s)) s else s | _ => s end
  | Drained => match phase s with Draining _ => if bool_decide (tasks s = ∅) then set_phase (Finished true) s else s | _ => s end
  | DrainTimeout now =>
      match phase s, drain style with
      | Draining since, Some d => if since + d <=? now then set_phase (Finished false) s else s
      | _, _ => s
      end
  end.

Definition run (evs : list Ev) (s : Srv) : Srv := foldl (λ s ev, step ev s) s evs.

End serve.

(** ** The pause *)

(** The same pauses as between failed receives on a UDP socket. *)
Lemma next_delay_backoff d : next_delay d = Udp.next_backoff d.
Proof. unfold next_delay, Udp.next_backoff. destruct (Z.ltb_spec one_second (if d =? 0 then 5 * 1000000 else d * 2)); lia. Qed.

(** ** Shutting down *)

(** Past accepting, tasks only end or go on from their handshake. *)
Definition past (s : Srv) : Prop := match phase s with Draining _ | Finished _ => True | _ => False end.

Lemma past_accepting s : past s → accepting s = false.
Proof. unfold past, accepting. by destruct (phase s). Qed.

(** What an event does to the tasks of such a server. *)
Lemma step_tasks style ev s : past s → dom (tasks (step style ev s)) ⊆ dom (tasks s).
Proof.
  intros H%past_accepting. destruct ev; cbn [step]; rewrite ?H; try done.
  - by destruct (phase s) as [|until| |]; try done; destruct (until <=? now).
  - destruct (tasks s !! k) as [[since|]|] eqn:E; try done. destruct ok; cbn [set_tasks tasks]; [|rewrite dom_delete_L; set_solver].
    rewrite dom_insert_L. apply elem_of_dom_2 in E. set_solver.
  - destruct (tasks s !! k) as [[since|]|]; try done. destruct (handshake style) as [| |t]; try done. destruct (_ <=? _); [|done].
    cbn [set_tasks tasks]. rewrite dom_delete_L. set_solver.
  - destruct (tasks s !! k) as [[since|]|]; try done. cbn [set_tasks tasks]. rewrite dom_delete_L. set_solver.
  - destruct (tasks s !! k) as [[since|]|]; try done. destruct (cancelled s); [|done]. cbn [set_tasks tasks]. rewrite dom_delete_L. set_solver.
  - destruct (phase s); try done. by destruct (bool_decide _).
  - destruct (phase s); try done. destruct (drain style); [|done]. by destruct (_ <=? _).
Qed.

(** Draining goes on until it is over, and is over then. *)
Definition over (since : Z) (p : Phase) : Prop := p = Draining since ∨ ∃ b, p = Finished b.

Lemma step_over style ev s since : over since (phase s) → over since (phase (step style ev s)).
Proof.
  intros H. assert (accepting s = false) as Ha by (unfold accepting; by destruct H as [->|[b ->]]).
  destruct ev; cbn [step]; rewrite ?Ha; try done.
  - by destruct H as [E|[b E]]; rewrite E; [left|right; exists b].
  - destruct (tasks s !! k) as [[|]|]; done.
  - destruct (tasks s !! k) as [[|]|]; try done. destruct (handshake style); try done. by destruct (_ <=? _).
  - destruct (tasks s !! k) as [[|]|]; done.
  - destruct (tasks s !! k) as [[|]|]; try done. by destruct (cancelled s).
  - destruct H as [E|[b E]]; rewrite E; [|right; by exists b]. destruct (bool_decide _); [right; by exists true|by left].
  - destruct H as [E|[b E]]; rewrite E; [|right; by exists b]. destruct (drain style); [|by left]. destruct (_ <=? _); [right; by exists false|by left].
Qed.

Lemma run_snoc style evs ev s : run style (evs ++ [ev]) s = step style ev (run style evs s).
Proof. unfold run. by rewrite foldl_app. Qed.

Lemma over_past since s : over since (phase s) → past s.
Proof. unfold past. by intros [->|[b ->]]. Qed.

Lemma run_over style evs s since :
  over since (phase s) → over since (phase (run style evs s)) ∧ dom (tasks (run style evs s)) ⊆ dom (tasks s).
Proof.
  intros H. induction evs as [|ev evs IH] using rev_ind; [done|]. rewrite run_snoc. destruct IH as [Ho Hd]. split; [by apply step_over|].
  etransitivity; [apply step_tasks; by eapply over_past|done].
Qed.

(** A server that says all tasks ended is right. *)
Lemma finished_drained style evs : phase (run style evs start) = Finished true → tasks (run style evs start) = ∅.
Proof.
  induction evs as [|ev evs IH] using rev_ind; [done|]. rewrite run_snoc. set (s := run style evs start) in *. clearbody s. intros H.
  assert (phase s = Finished true → tasks (step style ev s) = ∅) as Hst.
  { intros Hp. assert (past s) as Hpast by (unfold past; by rewrite Hp). pose proof (step_tasks style ev s Hpast) as Hd. rewrite (IH Hp) in Hd.
    rewrite dom_empty_L in Hd. apply dom_empty_inv_L. set_solver. }
  destruct (decide (ev = Drained)) as [->|Hne].
  - revert H. cbn [step]. destruct (phase s) as [| | |b] eqn:Ep; rewrite ?Ep; [done..| |].
    + case_bool_decide; [done|]. by rewrite Ep.
    + intros [= ->]. by apply IH.
  - apply Hst. revert H. destruct ev; cbn [step]; try done; unfold accepting.
    + destruct (phase s) eqn:Ep; cbn; by rewrite ?Ep.
    + destruct (phase s) eqn:Ep; cbn; by rewrite ?Ep.
    + destruct (phase s) eqn:Ep; cbn; by rewrite ?Ep.
    + destruct (phase s) eqn:Ep; cbn; try (by rewrite ?Ep). destruct (_ <=? _); cbn; by rewrite ?Ep.
    + destruct (phase s) eqn:Ep; cbn; try (by rewrite ?Ep). destruct (cancelled s); cbn; by rewrite ?Ep.
    + by destruct (tasks s !! k) as [[|]|].
    + destruct (tasks s !! k) as [[|]|]; try done. destruct (handshake style); try done. by destruct (_ <=? _).
    + by destruct (tasks s !! k) as [[|]|].
    + destruct (tasks s !! k) as [[|]|]; try done. by destruct (cancelled s).
    + destruct (phase s) eqn:Ep; cbn; try (by rewrite ?Ep). destruct (drain style); [destruct (_ <=? _)|]; cbn; by rewrite ?Ep.
Qed.


(** Numbers are not used twice. *)
Lemma fresh_run style evs : ∀ k t, tasks (run style evs start) !! k = Some t → (k < next (run style evs start))%nat.
Proof.
  induction evs as [|ev evs IH] using rev_ind; intros k t; [done|]. rewrite run_snoc. set (s := run style evs start) in *. clearbody s.
  assert (∀ k t, tasks s !! k = Some t → (k < S (next s))%nat) as Hs by (intros k1 t1 H; specialize (IH _ _ H); lia).
  assert (∀ k1 k2 x, tasks s !! k1 = Some x → is_Some (<[k1 := Handling]> (tasks s) !! k2) → (k2 < next s)%nat) as Hi.
  { intros k1 k2 x H [y Hy]. destruct (decide (k1 = k2)) as [->|]; [by eapply IH|]. rewrite lookup_insert_ne in Hy by done. by eapply IH. }
  assert (∀ k1 k2 x, delete k1 (tasks s) !! k2 = Some x → (k2 < next s)%nat) as Hdel by (intros k1 k2 x [_ H]%lookup_delete_Some; by eapply IH).
  destruct ev; cbn [step]; try apply IH.
  - destruct (accepting s); [|apply IH]. unfold spawn. cbn [tasks next]. destruct (decide (next s = k)) as [->|]; [lia|]. rewrite lookup_insert_ne by done. apply Hs.
  - destruct (accepting s); apply IH.
  - destruct (accepting s); apply IH.
  - destruct (phase s) as [|u| |]; try apply IH. destruct (u <=? now); apply IH.
  - destruct (_ && _); apply IH.
  - destruct (tasks s !! k0) as [[since|]|] eqn:E; try apply IH. destruct ok; cbn [set_tasks tasks next]; [|apply Hdel]. intros H. eapply Hi; [exact E|by eexists].
  - destruct (tasks s !! k0) as [[since|]|]; try apply IH. destruct (handshake style); try apply IH. destruct (_ <=? _); [apply Hdel|apply IH].
  - destruct (tasks s !! k0) as [[since|]|]; try apply IH. apply Hdel.
  - destruct (tasks s !! k0) as [[since|]|]; try apply IH. destruct (cancelled s); [apply Hdel|apply IH].
  - destruct (phase s); try apply IH. destruct (bool_decide _); apply IH.
  - destruct (phase s); try apply IH. destruct (drain style); try apply IH. destruct (_ <=? _); apply IH.
Qed.

(** A handshake that does not watch the token holds up a server that waits
    without a bound, as those for TLS and for multiplexed TLS do: while a client
    does not end the handshake it began, the server does not stop, whatever else
    happens and however long ago it was cancelled. *)
Theorem handshake_holds style evs evs' k since :
  handshake style = Unbounded → drain style = None →
  let s := run style evs start in
  tasks s !! k = Some (Handshaking since) → (∀ b, phase s ≠ Finished b) →
  Forall (λ ev, ∀ ok, ev ≠ HandshakeDone k ok) evs' →
  ∀ b, phase (run style evs' s) ≠ Finished b.
Proof.
  intros Hh Hd s Hk Hp Hf. pose proof (fresh_run style evs k _ Hk) as Hlt. fold s in Hlt. clearbody s.
  cut (tasks (run style evs' s) !! k = Some (Handshaking since) ∧ (k < next (run style evs' s))%nat ∧ ∀ b, phase (run style evs' s) ≠ Finished b); [naive_solver|].
  induction evs' as [|ev evs' IH] using rev_ind; [done|]. rewrite run_snoc. apply Forall_app in Hf as [Hf He]. rewrite Forall_singleton in He.
  destruct (IH Hf) as (Ht & Hn & Hq). set (t := run style evs' s) in *. clearbody t. clear IH Hk Hp Hlt Hf.
  assert (∀ k', tasks t !! k' = Some Handling → delete k' (tasks t) !! k = Some (Handshaking since)) as Hother.
  { intros k' Hk'. assert (k' ≠ k) by (intros ->; congruence). by rewrite lookup_delete_ne. }
  assert (∀ ph, (∀ b, ph ≠ Finished b) → tasks (set_phase ph t) !! k = Some (Handshaking since) ∧ (k < next (set_phase ph t))%nat ∧ ∀ b, phase (set_phase ph t) ≠ Finished b)
    as Hph by done.
  destruct ev; cbn [step]; try done.
  - destruct (accepting t); [|done]. unfold spawn. rewrite Hh. cbn [tasks next phase]. rewrite lookup_insert_ne by lia. split_and!; [done|lia|done].
  - destruct (accepting t); [|done]. done.
  - destruct (accepting t); [|done]. by apply Hph.
  - assert (step style (Wake now) t = t ∨ step style (Wake now) t = set_phase Accepting t) as [E|E]; [|cbn [step] in E; by rewrite E|cbn [step] in E; rewrite E; by apply Hph].
    cbn [step]. destruct (phase t) as [|u| |]; auto. destruct (u <=? now); auto.
  - destruct (_ && _); [by apply Hph|done].
  - destruct (tasks t !! k0) as [[|]|] eqn:E; try done. assert (k0 ≠ k) by (intros ->; by apply (He ok)).
    split; [|done]. cbn [set_tasks tasks]. destruct ok; [by rewrite lookup_insert_ne|by rewrite lookup_delete_ne].
  - destruct (tasks t !! k0) as [[|]|]; by rewrite ?Hh.
  - destruct (tasks t !! k0) as [[|]|] eqn:E; try done. split; [|done]. by apply (Hother k0).
  - destruct (tasks t !! k0) as [[|]|] eqn:E; try done. destruct (cancelled t); [|done]. split; [|done]. by apply (Hother k0).
  - assert (step style Drained t = t) as E; [|cbn [step] in E; by rewrite E].
    cbn [step]. destruct (phase t); try done. case_bool_decide as Ez; [by rewrite Ez, lookup_empty in Ht|done].
  - assert (step style (DrainTimeout now) t = t) as E; [|cbn [step] in E; by rewrite E]. cbn [step]. rewrite Hd. by destruct (phase t).
Qed.

Definition demo_events : list Ev := [AcceptOk 0; AcceptErr 1; Wake 6000000; AcceptOk 7000000; Cancel; SeeCancel 8000000].


Lemma handshake_holds_witness :
  let s := run tls_style [TaskSeesCancel 0; HandshakeDone 1 true; TaskSeesCancel 1; Drained] (run tls_style demo_events start) in
  phase s ≠ Finished true ∧ phase s ≠ Finished false.
Proof.
  pose proof (handshake_holds tls_style demo_events [TaskSeesCancel 0; HandshakeDone 1 true; TaskSeesCancel 1; Drained] 0 0 eq_refl eq_refl) as H.
  cbv zeta in *. split; apply H; try (vm_compute; reflexivity); try (intros b; vm_compute; discriminate); repeat constructor; intros ok; discriminate.
Defined.

End Server.
