(* ===== verification/Ws.v ===== *)
(** * WebSocket transport

    Models src/ws.rs: the options with the paths and timeouts they resolve to, the
    byte stream over binary messages, the handshakes of both sides and the
    handler; and the options a node's parameters give (src/chain.rs,
    src/main.rs). The WebSocket library's stream and sink of messages are their
    answers; its handshake and the parsing of URLs and header values are
    parameters. *)

From stdpp Require Import base list option numbers strings gmap.
From Stdlib Require Import ZArith Lia.
From S2P Require Import Prelude Text AsyncIo Node HttpConnect.

Module Ws.

(** ** Options *)

Definition DEFAULT_WS_PATH : bytes := str "/ws".
Definition DEFAULT_SERVER_HANDSHAKE_TIMEOUT : Z := 30 * 1000000000.
Definition HANDSHAKE_TIMEOUT : Z := 5 * 1000000000.
Definition MAX_WRITE_FRAME : nat := Z.to_nat 65536.

Record WsOptions : Set := mkOptions {
  path : bytes;
  read_buffer_size : Z;
  write_buffer_size : Z;
  handshake_timeout : Z;
  enable_compression : bool;
  user_agent : bytes
}.

Definition default_options : WsOptions := mkOptions DEFAULT_WS_PATH 0 0 0 false [].

Definition normalize_path (path : bytes) : bytes :=
  let trimmed := trim path in
  match trimmed with
  | [] => DEFAULT_WS_PATH
  | _ => if starts_with [47] trimmed then trimmed else 47 :: trimmed
  end.

Definition resolved_path (o : WsOptions) : bytes := normalize_path (path o).
Definition resolved_user_agent (o : WsOptions) : bytes := match user_agent o with [] => DEFAULT_USER_AGENT | a => a end.
Definition timeout_or (default : Z) (o : WsOptions) : Z := if handshake_timeout o =? 0 then default else handshake_timeout o.

(** The fields of the library's configuration the code sets; [default_max] is the
    library's default for the second. *)
Record WebSocketConfig : Set := mkConfig { c_write_buffer_size : Z; max_write_buffer_size : Z }.
Definition ws_config (default_max : Z) (o : WsOptions) : WebSocketConfig :=
  mkConfig (write_buffer_size o) (Z.max default_max (Z.min (write_buffer_size o + 1) u64_max)).

(** From a node's parameters: on the chain's side, and a listener's. *)
Definition non_empty (v : option bytes) (default : bytes) : bytes := match v with Some (b :: v) => b :: v | _ => default end.
Definition ws_options_for (node : Node) : WsOptions :=
  let opts := default_options in
  mkOptions (non_empty (values node !! str "path") (path opts)) (Z.max (get_int node (str "rbuf")) 0)
    (Z.max (get_int node (str "wbuf")) 0) (handshake_timeout opts) (get_bool node (str "compression"))
    (non_empty (values node !! str "agent") (user_agent opts)).
Definition ws_options (node : Node) : WsOptions :=
  let opts := ws_options_for node in
  let timeout := get_duration node (str "timeout") in
  mkOptions (path opts) (read_buffer_size opts) (write_buffer_size opts)
    (if timeout =? 0 then handshake_timeout opts else timeout) (enable_compression opts) (user_agent opts).

(** ** Errors and messages *)

(** The library's errors; [Reset] is [ResetWithoutClosingHandshake], and a text is
    what the error prints as. *)
Inductive WsError : Set :=
| WsIo (e : io_error) | ConnectionClosed | AlreadyClosed | Reset (text : string) | WsOther (text : string).

Definition ws_to_io (e : WsError) : io_error :=
  match e with
  | WsIo e => e
  | ConnectionClosed | AlreadyClosed => IoError BrokenPipe "websocket connection closed"
  | Reset text | WsOther text => IoError Other text
  end.

Inductive Message : Set := Text_ (data : bytes) | Binary (data : bytes) | Ping | Pong | Frame | Closing.

(** What [poll_next] answers. *)
Inductive Next : Set := NextPending | NextEnd | NextMsg (m : Message) | NextErr (e : WsError).

(** ** The byte stream *)

(** [taken] is what the sink was given, in order. *)
Record WsStream : Set := mkWs { read_buf : bytes; read_pos : nat; eof : bool; taken : list bytes }.

Definition ws_new : WsStream := mkWs [] 0 false [].
Definition set_read (b : bytes) (pos : nat) (s : WsStream) : WsStream := mkWs b pos (eof s) (taken s).
Definition set_eof (s : WsStream) : WsStream := mkWs (read_buf s) (read_pos s) true (taken s).

Definition deliver (room : nat) (s : WsStream) : poll (result io_error bytes) * WsStream :=
  let available := drop (read_pos s) (read_buf s) in
  let n := Nat.min room (length available) in
  (Ready (Ok (take n available)),
   if (read_pos s + n =? length (read_buf s))%nat then set_read [] 0 s else set_read (read_buf s) (read_pos s + n) s).

(** Every turn of the loop but the last takes one answer. *)
Fixpoint poll_read (room : nat) (answers : list Next) (s : WsStream) :
    poll (result io_error bytes) * WsStream * list Next :=
  if (read_pos s <? length (read_buf s))%nat then (deliver room s, answers)
  else if eof s then (Ready (Ok []), s, answers)
  else match answers with
  | [] => (Pending, s, [])
  | NextPending :: answers => (Pending, s, answers)
  | NextEnd :: answers => (Ready (Ok []), set_eof s, answers)
  | NextErr (Reset _) :: answers => (Ready (Ok []), set_eof s, answers)
  | NextErr e :: answers => (Ready (Err (ws_to_io e)), s, answers)
  | NextMsg (Binary []) :: answers | NextMsg (Text_ []) :: answers => poll_read room answers s
  | NextMsg (Binary data) :: answers | NextMsg (Text_ data) :: answers => poll_read room answers (set_read data 0 s)
  | NextMsg Ping :: answers | NextMsg Pong :: answers | NextMsg Frame :: answers => poll_read room answers s
  | NextMsg Closing :: answers => (Ready (Ok []), set_eof s, answers)
  end.

(** The sink's answers to [poll_ready], [start_send] and [poll_flush]. *)
Record Sink : Set := mkSink { s_ready : poll (result WsError ()); s_send : result WsError (); s_flush : poll (result WsError ()) }.

Definition poll_write (config : WebSocketConfig) (sink : Sink) (buf : bytes) (s : WsStream) :
    poll (result io_error nat) * WsStream :=
  match buf with
  | [] => (Ready (Ok 0%nat), s)
  | _ =>
      match s_ready sink with
      | Pending => (Pending, s)
      | Ready (Err e) => (Ready (Err (ws_to_io e)), s)
      | Ready (Ok _) =>
          let n := Nat.min (length buf) MAX_WRITE_FRAME in
          match s_send sink with
          | Err e => (Ready (Err (ws_to_io e)), s)
          | Ok _ =>
              let s := mkWs (read_buf s) (read_pos s) (eof s) (taken s ++ [take n buf]) in
              match (if c_write_buffer_size config =? 0 then s_flush sink else Pending) with
              | Ready (Err e) => (Ready (Err (ws_to_io e)), s)
              | _ => (Ready (Ok n), s)
              end
          end
      end
  end.

Definition map_poll (answer : poll (result WsError ())) : poll (result io_error ()) :=
  match answer with Pending => Pending | Ready (Ok _) => Ready (Ok ()) | Ready (Err e) => Ready (Err (ws_to_io e)) end.
Definition poll_flush (answer : poll (result WsError ())) : poll (result io_error ()) := map_poll answer.
Definition poll_shutdown (answer : poll (result WsError ())) : poll (result io_error ()) :=
  match answer with
  | Ready (Err ConnectionClosed) | Ready (Err AlreadyClosed) => Ready (Ok ())
  | _ => map_poll answer
  end.

(** ** Handshakes *)

Record ErrorResponse : Set := mkError { status : Z; content_type : bytes; content_length : bytes; body : bytes }.
Definition not_found : ErrorResponse :=
  let b := str "404 page not found" ++ [10] in
  mkError 404 (str "text/plain; charset=utf-8") (show_unsigned (zlen b)) b.

(** The check of a request's path in [ws_upgrade]. *)
Definition upgrade_check (want got : bytes) : result ErrorResponse () := if bool_decide (got = want) then Ok () else Err not_found.

(** A listener and a handler; [bind] is the system's answer. *)
Record WsServer : Set := mkServer { w_path : bytes; w_config : WebSocketConfig; w_timeout : Z; w_tls : bool }.
Definition build (default_max : Z) (bind : result io_error ()) (o : WsOptions) (tls : bool) : result io_error WsServer :=
  _ <-? bind ;;
  Ok (mkServer (resolved_path o) (ws_config default_max o) (timeout_or DEFAULT_SERVER_HANDSHAKE_TIMEOUT o) tls).

Record WsHandler : Set := mkHandler { wh_path : bytes; wh_config : WebSocketConfig; wh_timeout : Z }.
Definition handler_new (default_max : Z) (o : WsOptions) : WsHandler :=
  mkHandler (resolved_path o) (ws_config default_max o) (timeout_or DEFAULT_SERVER_HANDSHAKE_TIMEOUT o).

(** What the handshake of either side came to: no end in time, or the library's
    result. [None] from [handle]: the stream goes to the inner handler. *)
Inductive Shaken : Set := TimedOut_ | Shook (r : result WsError ()).
Inductive HandleErr : Set := HandshakeTimedOut | UpgradeFailed (e : WsError).
Definition ws_handle (shaken : Shaken) : option HandleErr :=
  match shaken with
  | TimedOut_ => Some HandshakeTimedOut
  | Shook (Err e) => Some (UpgradeFailed e)
  | Shook (Ok _) => None
  end.

Inductive ConnectErr : Set := NeedsHost | BadRequest (e : bytes) | BadHeader | ConnectIo (e : io_error) | ConnectWs (e : WsError).

Record Request : Set := mkRequest { url : bytes; agent : bytes; r_timeout : Z; r_config : WebSocketConfig }.

(** [into_client_request] and [HeaderValue::from_str] are the library's. *)
Definition ws_request (default_max : Z) (url_ok : bytes → result bytes ()) (header_ok : bytes → bool)
    (host path : bytes) (o : WsOptions) : result ConnectErr Request :=
  match host with
  | [] => Err NeedsHost
  | _ =>
      let p := match trim path with [] => resolved_path o | _ => normalize_path path end in
      let u := str "ws://" ++ host ++ p in
      match url_ok u with
      | Err e => Err (BadRequest e)
      | Ok _ =>
          let a := resolved_user_agent o in
          if header_ok a then Ok (mkRequest u a (timeout_or HANDSHAKE_TIMEOUT o) (ws_config default_max o)) else Err BadHeader
      end
  end.

Definition ws_connect_stream (default_max : Z) (url_ok : bytes → result bytes ()) (header_ok : bytes → bool)
    (shake : Request → Shaken) (host path : bytes) (o : WsOptions) : result ConnectErr WsStream :=
  match ws_request default_max url_ok header_ok host path o with
  | Err e => Err e
  | Ok req =>
      match shake req with
      | TimedOut_ => Err (ConnectIo (IoError TimedOut "websocket handshake timed out"))
      | Shook (Err e) => Err (ConnectWs e)
      | Shook (Ok _) => Ok ws_new
      end
  end.

(** ** Reading *)

Definition payload (a : Next) : bytes := match a with NextMsg (Binary d) | NextMsg (Text_ d) => d | _ => [] end.
Definition ends (a : Next) : bool := match a with NextEnd | NextErr (Reset _) | NextMsg Closing => true | _ => false end.

(** The bytes that came, and those that came before an end. *)
Definition carried (answers : list Next) : bytes := concat (payload <$> answers).
Fixpoint live (answers : list Next) : bytes :=
  match answers with [] => [] | a :: answers => if ends a then [] else payload a ++ live answers end.

Definition content (answers : list Next) (s : WsStream) : bytes :=
  drop (read_pos s) (read_buf s) ++ (if eof s then [] else live answers).

Fixpoint ws_reads (rooms : list nat) (answers : list Next) (s : WsStream) :
    list (poll (result io_error bytes)) * WsStream * list Next :=
  match rooms with
  | [] => ([], s, answers)
  | room :: rooms =>
      let '(p, s, answers) := poll_read room answers s in
      let '(ps, s, answers) := ws_reads rooms answers s in (p :: ps, s, answers)
  end.

Lemma live_prefix answers : live answers `prefix_of` carried answers.
Proof.
  induction answers as [|a answers IH]; [done|]. unfold carried. cbn. fold (carried answers). destruct (ends a); [apply prefix_nil|].
  by apply prefix_app.
Qed.

(** What one read gives, loses and leaves. *)
Definition read_ok (room : nat) (answers : list Next) (s : WsStream) (out : poll (result io_error bytes) * WsStream * list Next) : Prop :=
  let '(p, s', answers') := out in
  content answers s = poll_bytes p ++ content answers' s'
  ∧ (∃ used, answers = used ++ answers')
  ∧ (∀ e, p = Ready (Err e) → ∃ e', NextErr e' ∈ answers ∧ e = ws_to_io e')
  ∧ (p = Ready (Ok []) → (0 < room)%nat → eof s = true ∨ ∃ a, a ∈ answers ∧ ends a = true)
  ∧ (eof s' = true → eof s = true ∨ ∃ a, a ∈ answers ∧ ends a = true)
  ∧ ((0 < room)%nat → poll_bytes p ≠ [] ∨ content answers' s' = [] ∨ (length answers' < length answers)%nat).

Lemma deliver_ok room answers s : (read_pos s < length (read_buf s))%nat → read_ok room answers s (deliver room s, answers).
Proof.
  intros Hlt. unfold deliver, read_ok. set (avail := drop (read_pos s) (read_buf s)). set (n := Nat.min room (length avail)).
  assert (length avail = length (read_buf s) - read_pos s)%nat as Hl by apply length_drop.
  assert (n ≤ length avail)%nat as Hn by (unfold n; lia).
  split_and!; cbn [poll_bytes]; try done; [|by exists []|..].
  - unfold content at 1. fold avail. rewrite <-(take_drop n avail) at 1. rewrite <-app_assoc. f_equal.
    unfold content. destruct (Nat.eqb_spec (read_pos s + n) (length (read_buf s))) as [E|E]; cbn.
    + rewrite (drop_ge avail) by lia. done.
    + unfold avail. by rewrite drop_drop.
  - intros [= E] Hr. apply (f_equal length) in E. rewrite length_take in E. cbn in E. lia.
  - destruct (_ =? _)%nat; auto.
  - intros Hr. left. intros E. apply (f_equal length) in E. rewrite length_take in E. cbn in E. lia.
Qed.

(** A turn of the loop that takes an answer and changes nothing of what is to come. *)
Lemma read_after room a answers s s1 out :
  content (a :: answers) s = content answers s1 → eof s1 = eof s → read_ok room answers s1 out → read_ok room (a :: answers) s out.
Proof.
  intros Hcc He. destruct out as [[p s'] answers']. intros (Hc & (used & Hu) & Herr & Hend & Heof & Hpr). rewrite He in *. split_and!.
  - by rewrite Hcc.
  - exists (a :: used). by rewrite Hu.
  - intros e Hpe. destruct (Herr e Hpe) as (e' & Hin & ->). exists e'. split; [by right|done].
  - intros Hpe Hr. destruct (Hend Hpe Hr) as [?|(x & Hx & Ex)]; [by left|]. right. exists x. split; [by right|done].
  - intros Hpe. destruct (Heof Hpe) as [?|(x & Hx & Ex)]; [by left|]. right. exists x. split; [by right|done].
  - intros Hr. destruct (Hpr Hr) as [?|[?|?]]; [by left|by right; left|]. right. right. cbn. lia.
Qed.

(** The last turn takes an answer without bytes. *)
Lemma read_stop room a answers s p s' :
  payload a = [] → (length (read_buf s) ≤ read_pos s)%nat → eof s = false → read_buf s' = read_buf s → read_pos s' = read_pos s →
  eof s' = ends a → poll_bytes p = [] → (∀ e, p = Ready (Err e) → ∃ e', a = NextErr e' ∧ e = ws_to_io e') →
  (p = Ready (Ok []) → ends a = true) → read_ok room (a :: answers) s (p, s', answers).
Proof.
  intros Hpa Hle Hs Hb Hpos Heof Hp Herr Hend. split_and!.
  - rewrite Hp. unfold content. rewrite Hb, Hpos, Hs, Heof. cbn [live]. rewrite Hpa. by destruct (ends a).
  - by exists [a].
  - intros e Hpe. destruct (Herr e Hpe) as (e' & -> & ->). exists e'. split; [by left|done].
  - intros Hpe _. right. exists a. split; [by left|auto].
  - intros Hpe. right. exists a. split; [by left|congruence].
  - intros _. right. right. cbn. lia.
Qed.

Lemma read_eof room answers s :
  (length (read_buf s) ≤ read_pos s)%nat → eof s = true → read_ok room answers s (Ready (Ok []), s, answers).
Proof.
  intros Hle He. split_and!; try done; [by exists []|by left|by left|]. intros _. right. left. unfold content. rewrite He, drop_ge by done. done.
Qed.

Lemma poll_read_ok room answers s : read_ok room answers s (poll_read room answers s).
Proof.
  revert s. induction answers as [|a answers IH]; intros s; cbn [poll_read];
    (destruct (Nat.ltb_spec (read_pos s) (length (read_buf s))) as [Hlt|Hle]; [by apply deliver_ok|]);
    (destruct (eof s) eqn:He; [by apply read_eof|]).
  - split_and!; try done; [by exists []|congruence|]. intros _. right. left. unfold content. rewrite He, drop_ge by done. done.
  - assert (payload a = [] → ends a = false → content (a :: answers) s = content answers s) as Hskip.
    { intros Hp Ex. unfold content. cbn [live]. by rewrite He, Ex, Hp. }
    assert (∀ d, payload a = d → ends a = false → content (a :: answers) s = content answers (set_read d 0 s)) as Hmsg.
    { intros d <- Ex. unfold content. cbn [live set_read read_buf read_pos eof drop]. rewrite He, Ex, drop_ge by done. done. }
    destruct a as [| |[[|b d]|[|b d]| | | |]|[]]; try (apply (read_after room _ answers s s); [by apply Hskip|done|apply IH]);
      try (eapply (read_after room _ answers s (set_read (b :: d) 0 s)); [by apply Hmsg|done|apply IH]);
      apply read_stop; try done; cbn; try congruence; intros e' [= <-]; eauto.
Qed.

Lemma ws_reads_ok rooms answers s ps s' answers' :
  ws_reads rooms answers s = (ps, s', answers') →
  content answers s = delivered ps ++ content answers' s'
  ∧ (∀ e, Ready (Err e) ∈ ps → ∃ e', NextErr e' ∈ answers ∧ e = ws_to_io e')
  ∧ (Forall (λ room, 0 < room)%nat rooms → Ready (Ok []) ∈ ps → eof s = true ∨ ∃ a, a ∈ answers ∧ ends a = true)
  ∧ (Forall (λ room, 0 < room)%nat rooms → (length (content answers s) + length answers ≤ length rooms)%nat → content answers' s' = []).
Proof.
  revert answers s ps. induction rooms as [|room rooms IH]; intros answers s ps H; cbn [ws_reads] in H.
  - simplify_eq. split_and!; [done|intros e He; by apply not_elem_of_nil in He|intros _ He; by apply not_elem_of_nil in He|].
    intros _ Hl. cbn in Hl. apply length_zero_iff_nil. lia.
  - pose proof (poll_read_ok room answers s) as Hr. destruct (poll_read room answers s) as [[p s1] a1].
    destruct (ws_reads rooms a1 s1) as [[ps1 s2] a2] eqn:E. simplify_eq. destruct Hr as (Hc & (used & ->) & Herr & Hend & Heof & Hpr).
    destruct (IH _ _ _ E) as (Ic & Ierr & Iend & Ipr). unfold delivered in *. cbn [fmap list_fmap concat]. split_and!.
    + by rewrite Hc, Ic, app_assoc.
    + intros e [Hp|Hp]%elem_of_cons; [by apply Herr|]. destruct (Ierr e Hp) as (e' & ? & ->). exists e'. split; [by apply elem_of_app; right|done].
    + intros [Hpos Hf]%Forall_cons [Hp|Hp]%elem_of_cons; [by apply Hend|].
      destruct (Iend Hf Hp) as [Hs|(x & Hx & Ex)]; [by apply Heof|]. right. exists x. split; [by apply elem_of_app; right|done].
    + intros [Hpos Hf]%Forall_cons Hl. rewrite Hc, !length_app in Hl. cbn [length] in Hl. destruct (Hpr Hpos) as [Hp|[Hp|Hp]].
      * apply Ipr; [done|]. destruct (poll_bytes p); [done|]. cbn in Hl. lia.
      * rewrite Hp in Ic. symmetry in Ic. by apply app_nil in Ic as [_ ->].
      * apply Ipr; [done|]. rewrite length_app in Hp. lia.
Qed.

(** ** Writing *)

Fixpoint ws_writes (config : WebSocketConfig) (ops : list (Sink * bytes)) (s : WsStream) :
    list (poll (result io_error nat)) * WsStream :=
  match ops with
  | [] => ([], s)
  | (sink, buf) :: ops =>
      let '(p, s) := poll_write config sink buf s in
      let '(ps, s) := ws_writes config ops s in (p :: ps, s)
  end.

(** The bytes a caller knows to be written. *)
Definition accepted (p : poll (result io_error nat)) (buf : bytes) : bytes :=
  match p with Ready (Ok n) => take n buf | _ => [] end.
Definition all_accepted (ps : list (poll (result io_error nat))) (ops : list (Sink * bytes)) : bytes :=
  concat (zip_with (λ p op, accepted p op.2) ps ops).

(** A flush that fails behind a message the sink has taken. *)
Definition flush_fails (op : Sink * bytes) : bool := match s_flush op.1 with Ready (Err _) => true | _ => false end.

Lemma poll_write_ok config sink buf s p s' :
  poll_write config sink buf s = (p, s') →
  ∃ ms, taken s' = taken s ++ ms ∧ Forall (λ m, 0 < length m ≤ MAX_WRITE_FRAME)%nat ms
  ∧ (flush_fails (sink, buf) = false → concat ms = accepted p buf)
  ∧ (∀ n, p = Ready (Ok n) → concat ms = take n buf ∧ (n = O → buf = [])).
Proof.
  unfold poll_write, flush_fails. intros H. destruct buf as [|b buf]; [simplify_eq; exists []; rewrite app_nil_r; split_and!; try done; naive_solver|].
  destruct (s_ready sink) as [|[u|e]]; [simplify_eq; exists []; rewrite app_nil_r; split_and!; done| |simplify_eq; exists []; rewrite app_nil_r; split_and!; done].
  destruct (s_send sink) as [u'|e]; [|simplify_eq; exists []; rewrite app_nil_r; split_and!; done].
  set (n := Nat.min (length (b :: buf)) MAX_WRITE_FRAME) in *. set (m := take n (b :: buf)) in *.
  assert (0 < length m ≤ MAX_WRITE_FRAME)%nat as Hm.
  { unfold m, n. rewrite length_take. assert (MAX_WRITE_FRAME = S (pred MAX_WRITE_FRAME)) as -> by (unfold MAX_WRITE_FRAME; lia).
    cbn [length]. lia. }
  exists [m]. destruct (if c_write_buffer_size config =? 0 then s_flush sink else Pending) as [|[u2|e]] eqn:Ef; simplify_eq; cbn [taken fst];
    (split_and!; [done|by constructor| |]); cbn [concat]; rewrite ?app_nil_r; try done.
  1, 2: intros k [= <-]; split; [done|]; intros E; unfold m in Hm; rewrite E in Hm; cbn in Hm; lia.
  destruct (c_write_buffer_size config =? 0); [by rewrite Ef|done].
Qed.

Lemma ws_writes_ok config ops s ps s' :
  ws_writes config ops s = (ps, s') →
  ∃ ms, taken s' = taken s ++ ms ∧ Forall (λ m, 0 < length m ≤ MAX_WRITE_FRAME)%nat ms
  ∧ (Forall (λ op, flush_fails op = false) ops → concat ms = all_accepted ps ops).
Proof.
  revert s ps. induction ops as [|[sink buf] ops IH]; intros s ps H; cbn [ws_writes] in H.
  { simplify_eq. exists []. by rewrite app_nil_r. }
  destruct (poll_write config sink buf s) as [p s1] eqn:E1. destruct (ws_writes config ops s1) as [ps1 s2] eqn:E2. simplify_eq.
  destruct (poll_write_ok _ _ _ _ _ _ E1) as (ms1 & T1 & F1 & A1 & _). destruct (IH _ _ E2) as (ms2 & T2 & F2 & A2).
  exists (ms1 ++ ms2). split_and!; [by rewrite T2, T1, app_assoc|by apply Forall_app|].
  intros [Hf1 Hf2]%Forall_cons. unfold all_accepted. cbn [zip_with concat snd]. rewrite concat_app. f_equal; auto.
Qed.

(** C31: Bytes over a WebSocket connection, with a library that delivers messages in
    order: what is read is a beginning of what the other side's sink has taken,
    and all of it when it came before the end and enough reads are made,
    whatever else came between (empty messages, text, pings, waits); a read
    ends the stream only if the connection ended and fails only if the library
    did. No message is empty or longer than the limit; and what the sink has
    taken is what the writer was told was written, unless a flush failed. *)
Theorem ws_transfer config ops ws wr rooms answers w ps s' answers' :
  ws_writes config ops ws_new = (ws, wr) →
  concat (taken wr) = carried answers ++ w →
  ws_reads rooms answers ws_new = (ps, s', answers') →
  delivered ps `prefix_of` concat (taken wr)
  ∧ (∀ e, Ready (Err e) ∈ ps → ∃ e', NextErr e' ∈ answers ∧ e = ws_to_io e')
  ∧ Forall (λ m, 0 < length m ≤ MAX_WRITE_FRAME)%nat (taken wr)
  ∧ (Forall (λ op, flush_fails op = false) ops → concat (taken wr) = all_accepted ws ops)
  ∧ (Forall (λ room, 0 < room)%nat rooms →
     (Ready (Ok []) ∈ ps → ∃ a, a ∈ answers ∧ ends a = true)
     ∧ (live answers = concat (taken wr) → (length (concat (taken wr)) + length answers ≤ length rooms)%nat →
        delivered ps = concat (taken wr))).
Proof.
  intros Hw Hd Hr. destruct (ws_writes_ok _ _ _ _ _ Hw) as (ms & Ht & Hf & Ha). cbn in Ht. rewrite Ht in *.
  destruct (ws_reads_ok _ _ _ _ _ _ Hr) as (Hc & Herr & Hend & Hall). change (content answers ws_new) with (live answers) in *.
  split_and!; try done.
  - rewrite Hd. etransitivity; [|apply prefix_app_r, live_prefix]. rewrite Hc. by apply prefix_app_r.
  - intros Hpos. split.
    + intros He. by destruct (Hend Hpos He).
    + intros Hl Hlen. rewrite <-Hl in *. rewrite (Hall Hpos Hlen), app_nil_r in Hc. by rewrite Hc.
Qed.

(** ** Paths *)

Lemma trim_elem c s : c ∈ trim s → c ∈ s.
Proof.
  assert (∀ fuel s, c ∈ trim_start_fuel fuel s → c ∈ s) as H1.
  { intros fuel. induction fuel as [|fuel IH]; intros t; cbn; [done|]. destruct (ws_len t) as [|n]; [done|].
    intros H%IH. rewrite <-(take_drop (S n) t). apply elem_of_app. by right. }
  assert (∀ fuel s, c ∈ trim_end_fuel fuel s → c ∈ s) as H2.
  { intros fuel. induction fuel as [|fuel IH]; intros t; cbn; [done|]. destruct (ws_end_len t) as [|n]; [done|].
    intros H%IH. rewrite <-(take_drop (length t - S n) t). apply elem_of_app. by left. }
  unfold trim, trim_start, trim_end. intros H%H2. by apply H1 in H.
Qed.

(** A resolved path is absolute and has no characters but the slash that the given
    one, or the default, has not. *)
Lemma normalize_path_ok p :
  (∃ rest, normalize_path p = 47 :: rest) ∧ ∀ c, c ∈ normalize_path p → c = 47 ∨ c ∈ p ∨ c ∈ DEFAULT_WS_PATH.
Proof.
  unfold normalize_path. destruct (trim p) as [|b t] eqn:E.
  - split; [by eexists|]. auto.
  - pose proof (trim_elem) as Ht. specialize (λ c, Ht c p). rewrite E in Ht. cbn [starts_with]. destruct (Z.eqb_spec 47 b) as [<-|Hb].
    + split; [by eexists|]. intros c Hc. right. left. by apply Ht.
    + split; [by eexists|]. intros c [->|Hc]%elem_of_cons; [by left|]. right. left. by apply Ht.
Qed.

Section paths.

(** [Uri::path] of the http library: what stands between the authority and the
    query. *)
Context (uri_path : bytes → bytes).
Hypothesis uri_path_plain : ∀ host p,
  host ≠ [] → Forall (λ c, c ≠ 47 ∧ c ≠ 63 ∧ c ≠ 35) host → Forall (λ c, c ≠ 63 ∧ c ≠ 35) p →
  uri_path (str "ws://" ++ host ++ 47 :: p) = 47 :: p.
Hypothesis uri_path_no_query : ∀ u, 63 ∉ uri_path u.

(** A hop and a listener with the same parameters find each other, whatever the
    host, and the listener shows any other path a 404. *)
Lemma ws_paths_meet node host default_max url_ok header_ok bind tls server req :
  Forall (λ c, c ≠ 47 ∧ c ≠ 63 ∧ c ≠ 35) host → Forall (λ c, c ≠ 63 ∧ c ≠ 35) (default [] (values node !! str "path")) →
  build default_max bind (ws_options node) tls = Ok server →
  ws_request default_max url_ok header_ok host [] (ws_options_for node) = Ok req →
  upgrade_check (w_path server) (uri_path (url req)) = Ok ()
  ∧ ∀ got, got ≠ w_path server → upgrade_check (w_path server) got = Err not_found.
Proof using uri_path_plain.
  intros Hh Hp Hb Hr. unfold build, rbind in Hb. destruct bind; [|done]. injection Hb as <-. cbn [w_path].
  unfold ws_request in Hr. destruct host as [|h host]; [done|]. change (trim []) with (@nil Z) in Hr. cbv iota zeta in Hr.
  destruct (url_ok _); [|done]. destruct (header_ok _); [|done]. injection Hr as <-. cbn [url].
  split; [|intros got Hne; unfold upgrade_check; by rewrite bool_decide_eq_false_2].
  unfold resolved_path. change (path (ws_options node)) with (path (ws_options_for node)).
  destruct (normalize_path_ok (path (ws_options_for node))) as [(rest & E) Hc]. rewrite E.
  assert (Forall (λ c, c ≠ 63 ∧ c ≠ 35) rest) as Hrest;
    [|unfold upgrade_check; rewrite bool_decide_eq_true_2; [done|]; exact (uri_path_plain (h :: host) rest ltac:(done) Hh Hrest)].
  apply Forall_forall. intros c Hin. assert (c ∈ normalize_path (path (ws_options_for node))) as Hin2 by (rewrite E; by right).
  destruct (Hc c Hin2) as [->|[Hi|Hi]]; [done| |].
  - cbn [ws_options_for path] in Hi. unfold non_empty in Hi. destruct (values node !! str "path") as [[|b v]|];
      [|cbn in Hp; rewrite Forall_forall in Hp; by apply Hp|]; vm_compute in Hi; repeat (apply elem_of_cons in Hi as [->|Hi]; [done|]); by apply not_elem_of_nil in Hi.
  - vm_compute in Hi. repeat (apply elem_of_cons in Hi as [->|Hi]; [done|]). by apply not_elem_of_nil in Hi.
Qed.

(** A path with a query is one no request has: such a listener serves nobody. *)
Lemma query_path_unserved p u : 63 ∈ normalize_path p → upgrade_check (normalize_path p) (uri_path u) = Err not_found.
Proof using uri_path_no_query.
  intros H. unfold upgrade_check. rewrite bool_decide_eq_false_2; [done|]. intros E. apply (uri_path_no_query u). by rewrite E.
Qed.

End paths.

(** The library accepts the configuration, which it requires to leave room behind
    the buffer. *)
Lemma ws_config_valid default_max o :
  0 ≤ write_buffer_size o < u64_max → c_write_buffer_size (ws_config default_max o) < max_write_buffer_size (ws_config default_max o).
Proof. unfold ws_config. cbn. lia. Qed.

(** ** Examples *)

Definition open_sink : Sink := mkSink (Ready (Ok ())) (Ok ()) (Ready (Ok ())).
Definition demo_ops : list (Sink * bytes) := [(open_sink, str "hello "); (mkSink Pending (Ok ()) Pending, str "lost"); (open_sink, str "world")].
Definition demo_answers : list Next :=
  [NextMsg (Binary (str "hello ")); NextMsg Ping; NextPending; NextMsg (Binary []); NextMsg (Binary (str "world")); NextMsg Closing].

Example demo_read :
  delivered (ws_reads (replicate 20 4%nat) demo_answers ws_new).1.1 = str "hello world".
Proof. vm_compute. reflexivity. Qed.

Lemma ws_transfer_witness : delivered (ws_reads (replicate 20 4%nat) demo_answers ws_new).1.1 = str "hello world".
Proof.
  destruct (ws_writes (mkConfig 0 1) demo_ops ws_new) as [ws wr] eqn:Ew.
  destruct (ws_reads (replicate 20 4%nat) demo_answers ws_new) as [[ps s'] rest] eqn:E.
  destruct (ws_transfer (mkConfig 0 1) demo_ops ws wr (replicate 20 4%nat) demo_answers [] ps s' rest Ew) as (_ & _ & _ & _ & H).
  - vm_compute in Ew. injection Ew as <- <-. vm_compute. reflexivity.
  - exact E.
  - vm_compute in Ew. injection Ew as <- <-. destruct H as [_ H]; [apply (bool_decide_unpack _); vm_compute; exact I|].
    cbn [fst]. rewrite H; [vm_compute; reflexivity..|apply (bool_decide_unpack _); vm_compute; exact I].
Defined.

End Ws.
