(* ===== verification/MuxDial.v ===== *)
(** * Multiplexed transports

    Models src/mux_transport.rs over the sessions of MuxSession.v: [MuxDialer],
    which any number of dials share, as a transition system in which they
    interleave with each other and with everything else that happens to the
    sessions; [MuxDialerPool]; the configuration from a node's parameters; and the
    loop of [MuxHandler] that hands a session's streams out. The transports a
    dialer builds sessions on are the answers of its factory. *)

From stdpp Require Import base list option numbers strings pretty gmap.
From Stdlib Require Import ZArith Lia.
From S2P Require Import Prelude Text MuxFrame MuxQueue MuxStream MuxSession MuxCredit Node Ws.

Module MuxDial.

(** ** The dialer *)

Inductive DialErr : Set := Transport (e : bytes) | Session_err (e : io_error).

(** Where a call of [dial] is. From [Recheck] to [Publish] it holds the build
    lock. *)
Inductive Pc : Set :=
| Start
| Warm (k : nat)
| Lock
| Recheck
| Held (k : nat)
| Factory
| Fresh (k : nat)
| Publish (k : nat) (h : MuxStream)
| Done (k : nat) (h : MuxStream)
| Failed (e : DialErr)
| Dropped.

#[export] Instance DialErr_eq_dec : EqDecision DialErr.
Proof. solve_decision. Defined.
#[export] Instance Pc_eq_dec : EqDecision Pc.
Proof. solve_decision. Defined.

(** Sessions are known by the order in which they were built. *)
Record MuxDialer : Type := mkDialer {
  d_config : MuxConfig;
  cached : option nat;
  build_lock : option nat;
  built : Z;
  d_label : bytes;
  sessions : list Session;
  dials : list Pc
}.

Definition set_cached c d := mkDialer (d_config d) c (build_lock d) (built d) (d_label d) (sessions d) (dials d).
Definition set_lock l d := mkDialer (d_config d) (cached d) l (built d) (d_label d) (sessions d) (dials d).
Definition set_sessions b ss d := mkDialer (d_config d) (cached d) (build_lock d) b (d_label d) ss (dials d).
Definition set_dials ps d := mkDialer (d_config d) (cached d) (build_lock d) (built d) (d_label d) (sessions d) ps.
Definition set_pc (t : nat) (pc : Pc) (d : MuxDialer) : MuxDialer := set_dials (<[t := pc]> (dials d)) d.

Definition new (config : MuxConfig) : result io_error MuxDialer :=
  _ <-? verify config ;; Ok (mkDialer config None None 0 [] [] []).
Definition with_label (label : bytes) (d : MuxDialer) : MuxDialer :=
  mkDialer (d_config d) (cached d) (build_lock d) (built d) label (sessions d) (dials d).

Definition is_closed (k : nat) (d : MuxDialer) : bool :=
  match sessions d !! k with Some s => closed s | None => true end.

(** A dead session is evicted on the way past. *)
Definition live_session (d : MuxDialer) : option nat * MuxDialer :=
  match cached d with
  | Some k => if negb (is_closed k d) then (Some k, d) else (None, set_cached None d)
  | None => (None, d)
  end.

Definition has_live_session (d : MuxDialer) : bool * MuxDialer :=
  let '(o, d) := live_session d in (bool_decide (is_Some o), d).
Definition num_streams (d : MuxDialer) : nat * MuxDialer :=
  let '(o, d) := live_session d in (default O (MuxSession.num_streams <$> (o ≫= λ k, sessions d !! k)), d).

Definition close (d : MuxDialer) : MuxDialer :=
  match cached d with
  | Some k => set_sessions (built d) (alter session_close k (sessions d)) d
  | None => d
  end.

(** [open_stream] on session [k], with what its caller does next. *)
Definition open_on (k : nat) (d : MuxDialer) (ok : MuxStream → MuxDialer → MuxDialer) (err : io_error → MuxDialer → MuxDialer) :
    MuxDialer :=
  match sessions d !! k with
  | None => d
  | Some s =>
      let '(r, s') := open_stream s in
      let d := set_sessions (built d) (<[k := s']> (sessions d)) d in
      match r with Ok h => ok h d | Err e => err e d end
  end.

(** The end of [dial], where its guard is dropped. *)
Definition finish (t : nat) (pc : Pc) (d : MuxDialer) : MuxDialer := set_pc t pc (set_lock None d).

(** What dial [t] does next, when it can; [answer] is the factory's. *)
Definition dial_on (t : nat) (answer : result bytes ()) (d : MuxDialer) : MuxDialer :=
  match dials d !! t with
  | Some Start =>
      let '(o, d) := live_session d in set_pc t (match o with Some k => Warm k | None => Lock end) d
  | Some (Warm k) => open_on k d (λ h, set_pc t (Done k h)) (λ _, set_pc t Lock)
  | Some Lock =>
      match build_lock d with
      | None => set_pc t Recheck (set_lock (Some t) d)
      | Some _ => d
      end
  | Some Recheck =>
      let '(o, d) := live_session d in set_pc t (match o with Some k => Held k | None => Factory end) d
  | Some (Held k) => open_on k d (λ h, finish t (Done k h)) (λ _, set_pc t Factory)
  | Some Factory =>
      match answer with
      | Err e => finish t (Failed (Transport e)) d
      | Ok _ =>
          match MuxSession_new (d_config d) true with
          | Err e => finish t (Failed (Session_err e)) d
          | Ok s => set_pc t (Fresh (length (sessions d))) (set_sessions (u64 (built d + 1)) (sessions d ++ [s]) d)
          end
      end
  | Some (Fresh k) => open_on k d (λ h, set_pc t (Publish k h)) (λ e, finish t (Failed (Session_err e)))
  | Some (Publish k h) => finish t (Done k h) (set_cached (Some k) d)
  | _ => d
  end.

(** A call that is dropped while it waits: before it began, for the lock, or for
    the factory. The other awaits never wait. *)
Definition drop_dial (t : nat) (d : MuxDialer) : MuxDialer :=
  match dials d !! t with
  | Some Start | Some Lock => set_pc t Dropped d
  | Some Factory => finish t Dropped d
  | _ => d
  end.

(** A session that gives no more streams, and how a session may change. *)
Definition spent (s : Session) : bool := closed s || go_away s || q_closed (queue s).
Definition keeps (s s' : Session) : bool :=
  implb (closed s) (closed s') && implb (go_away s) (go_away s') && implb (q_closed (queue s)) (q_closed (queue s')).

(** [Act] is all that others do to a session: its tasks, its peer and its
    streams; none of it brings a session back. *)
Inductive Ev : Type :=
| Dial
| On (t : nat) (answer : result bytes ())
| Drop (t : nat)
| Close
| Look
| Act (k : nat) (s : Session).

Definition step (ev : Ev) (d : MuxDialer) : MuxDialer :=
  match ev with
  | Dial => set_dials (dials d ++ [Start]) d
  | On t answer => dial_on t answer d
  | Drop t => drop_dial t d
  | Close => close d
  | Look => (num_streams (has_live_session d).2).2
  | Act k s' =>
      match sessions d !! k with
      | Some s => if keeps s s' then set_sessions (built d) (<[k := s']> (sessions d)) d else d
      | None => d
      end
  end.

Definition run (evs : list Ev) (d : MuxDialer) : MuxDialer := foldl (λ d ev, step ev d) d evs.

(** ** The pool *)

Record MuxDialerPool : Type := mkPool { dialers : gmap bytes nat; made : list MuxDialer }.
Definition pool_new : MuxDialerPool := mkPool ∅ [].

Definition get_or_create (key : bytes) (config : MuxConfig) (p : MuxDialerPool) : result io_error nat * MuxDialerPool :=
  match dialers p !! key with
  | Some i => (Ok i, p)
  | None =>
      match new config with
      | Err e => (Err e, p)
      | Ok d => (Ok (length (made p)), mkPool (<[key := length (made p)]> (dialers p)) (made p ++ [with_label key d]))
      end
  end.

Definition remove (key : bytes) (p : MuxDialerPool) : option nat * MuxDialerPool :=
  match dialers p !! key with
  | Some i => (Some i, mkPool (delete key (dialers p)) (alter close i (made p)))
  | None => (None, p)
  end.

Definition pool_len (p : MuxDialerPool) : nat := size (dialers p).

(** ** Configuration *)

Definition u8_max : Z := 255.

Definition mux_config_from_values (smux_ver smux_buf stream_buf keepalive_secs : Z) : result io_error MuxConfig :=
  let defaults := MuxConfig_default in
  if u8_max <? smux_ver then Err (IoError InvalidInput ("smux: unsupported protocol version " +:+ pretty smux_ver))
  else
    let config := mkMuxConfig
      (if smux_ver =? 0 then VERSION_1 else u8 smux_ver)
      (keep_alive_disabled defaults)
      (if keepalive_secs =? 0 then keep_alive_interval defaults else secs keepalive_secs)
      (keep_alive_timeout defaults) (max_frame_size defaults)
      (if smux_buf =? 0 then max_receive_buffer defaults else smux_buf)
      (if stream_buf =? 0 then max_stream_buffer defaults else stream_buf) in
    _ <-? verify config ;; Ok config.

(** The casts: an [i64] that is not negative is a [u64] and a [usize]; [as u32]
    keeps its low half. *)
Definition non_negative (value : Z) : Z := Z.max value 0.
Definition mux_config_from_node (node : Node) : result io_error MuxConfig :=
  mux_config_from_values
    (u32 (non_negative (get_int node (str "smuxver"))))
    (non_negative (get_int node (str "smuxbuf")))
    (non_negative (get_int node (str "streambuf")))
    (non_negative (get_int node (str "keepalive"))).

(** ** The server's side of a session *)

Record MuxHandler : Set := mkHandler { h_config : MuxConfig; h_sessions : Z }.

(** What the accept loop of a session meets: a change others made to it, an
    [accept_stream] that is over, or the cancelled token. *)
Inductive AcceptEv : Type := Changed (s : Session) | Accepted (sender : bool) | Cancelled.

(** The streams handed to the handler, each with a task of its own, and whether
    the loop is over. *)
Fixpoint accept_loop (evs : list AcceptEv) (s : Session) : list MuxStream * bool * Session :=
  match evs with
  | [] => ([], false, s)
  | Changed s' :: evs => accept_loop evs s'
  | Cancelled :: _ => ([], true, s)
  | Accepted sender :: evs =>
      match accept_stream sender s with
      | None => accept_loop evs s
      | Some (Some h, s) => let '(hs, over, s) := accept_loop evs s in (h :: hs, over, s)
      | Some (None, s) => ([], true, s)
      end
  end.

Definition mux_handle (m : MuxHandler) (evs : list AcceptEv) : result io_error (list MuxStream * bool * Session) * MuxHandler :=
  match MuxSession_new (h_config m) false with
  | Err e => (Err e, m)
  | Ok s => (Ok (accept_loop evs s), mkHandler (h_config m) (u64 (h_sessions m + 1)))
  end.

(** ** Listeners *)

(** What its pipeline has around the sessions; [bind] is the system's answer. *)
Record MuxServer : Set := mkServer { m_tls : bool; m_ws : option Ws.WsHandler; m_muxer : MuxHandler; m_tag : bytes }.

Definition new_mtls (bind : result io_error ()) (config : MuxConfig) : result io_error MuxServer :=
  _ <-? verify config ;; _ <-? bind ;; Ok (mkServer true None (mkHandler config 0) (str "mtls")).

Definition build_ws (default_max : Z) (bind : result io_error ()) (options : Ws.WsOptions) (tls : bool) (config : MuxConfig) (tag : bytes) :
    result io_error MuxServer :=
  _ <-? verify config ;; _ <-? bind ;;
  Ok (mkServer tls (Some (Ws.handler_new default_max options)) (mkHandler config 0) tag).

Definition new_mws default_max bind options config := build_ws default_max bind options false config (str "mws").
Definition new_mwss default_max bind options config := build_ws default_max bind options true config (str "mwss").

(** ** How sessions change *)

Lemma keeps_spec s s' :
  keeps s s' = true ↔ (closed s = true → closed s' = true) ∧ (go_away s = true → go_away s' = true) ∧ (q_closed (queue s) = true → q_closed (queue s') = true).
Proof.
  unfold keeps. destruct (closed s), (closed s'), (go_away s), (go_away s'), (q_closed (queue s)), (q_closed (queue s')); cbn; naive_solver.
Qed.

Lemma keeps_spent s s' : keeps s s' = true → spent s = true → spent s' = true.
Proof. rewrite keeps_spec. unfold spent. rewrite !orb_true_iff. naive_solver. Qed.

Lemma keeps_refl s : keeps s s = true.
Proof. by rewrite keeps_spec. Qed.

Lemma open_keeps s : keeps s (open_stream s).2 = true.
Proof.
  rewrite keeps_spec. unfold open_stream, next_id, alloc_stream, remove_stream, force_push_data, free_loc.
  repeat case_goal; simplify_eq/=; naive_solver.
Qed.

(** A session only refuses a stream when it has none left to give. *)
Lemma open_refused s e s' : open_stream s = (Err e, s') → spent s' = true.
Proof.
  unfold open_stream, next_id, alloc_stream, remove_stream, force_push_data, free_loc, spent. intros H.
  repeat case_hyp H; simplify_eq/=; rewrite ?orb_true_iff; naive_solver.
Qed.

Lemma close_keeps s : keeps s (session_close s) = true.
Proof. 
  rewrite keeps_spec. unfold session_close. rewrite fail_closed. split; [done|]. unfold fail.
  destruct (closed s); [done|]. cbn. split; [done|]. unfold MuxQueue.close. by destruct (q_closed (queue s)) eqn:E.
Qed.

(** What the tasks and streams of a session do to it, the writer included as long
    as it does not open the queue again, is an [Act]. *)
Lemma mstep_keeps ic m m' :
  mstep ic m m' → (q_closed (queue (m_s m)) = true → q_closed (queue (m_s m')) = true) → keeps (m_s m) (m_s m') = true.
Proof.
  intros Hs Hq. rewrite keeps_spec. split; [exact (step_closed _ _ _ Hs)|]. split; [|exact Hq]. clear Hq.
  assert (∀ s e, go_away (fail s e) = go_away s) as Hfail by (intros; unfold fail; by case_goal).
  assert (∀ s h, go_away (drop_stream s h) = go_away s) as Hdrop.
  { intros. unfold drop_stream, send_fin, remove_stream, return_tokens. repeat case_goal; simplify_eq/=; done. }
  intros Hg. destruct Hs; cbn; rewrite ?Hdrop, ?Hfail; try done.
  - by injection H1 as <- <-.
  - unfold reader_frame, alloc_stream in H3. repeat case_hyp H3; simplify_eq/=; by rewrite ?Hfail.
  - unfold deliver_accept in H0. repeat case_hyp H0; simplify_eq/=; by rewrite ?Hdrop.
  - unfold accept_stream in H. repeat case_hyp H; by simplify_eq/=.
  - pose proof (open_keeps (m_s m)) as Hk. rewrite H, keeps_spec in Hk. naive_solver.
  - unfold poll_read, return_tokens in H0. repeat case_hyp H0; by simplify_eq/=.
  - unfold poll_write in H0. repeat case_hyp H0; by simplify_eq/=.
  - unfold poll_flush in H0. repeat case_hyp H0; by simplify_eq/=.
  - unfold poll_shutdown, send_fin in H0. repeat case_hyp H0; by simplify_eq/=.
  - unfold ping_tick, push_ctrl in H. repeat case_hyp H; by simplify_eq/=.
  - unfold deadline_tick in H. repeat case_hyp H; simplify_eq/=; by rewrite ?Hfail.
Qed.

(** ** At most one session is of use *)

Definition critical (pc : Pc) : bool :=
  match pc with Recheck | Held _ | Factory | Fresh _ | Publish _ _ => true | _ => false end.
Definition building (pc : Pc) : bool := match pc with Fresh _ | Publish _ _ => true | _ => false end.

Definition spent_at (k : nat) (d : MuxDialer) : Prop := ∃ s, sessions d !! k = Some s ∧ spent s = true.
Definition last_spent (d : MuxDialer) : Prop := ∀ k, S k = length (sessions d) → spent_at k d.
Definition is_last (k : nat) (d : MuxDialer) : Prop := S k = length (sessions d).

Definition pc_ok (d : MuxDialer) (pc : Pc) : Prop :=
  match pc with
  | Warm k | Done k _ => (k < length (sessions d))%nat
  | Held k => (k < length (sessions d))%nat ∧ (is_last k d ∨ last_spent d)
  | Factory => last_spent d
  | Fresh k | Publish k _ => is_last k d
  | _ => True
  end.

(** The build lock is held by the one dial that is past it; every session but the
    last is spent; and the last is cached, being published, or spent too. *)
Record inv (d : MuxDialer) : Prop := {
  i_lock t : build_lock d = Some t ↔ ∃ pc, dials d !! t = Some pc ∧ critical pc = true;
  i_cached k : cached d = Some k → (k < length (sessions d))%nat;
  i_old k : (S k < length (sessions d))%nat → spent_at k d;
  i_last : last_spent d ∨ (∃ k, cached d = Some k ∧ is_last k d) ∨ ∃ t pc, dials d !! t = Some pc ∧ building pc = true;
  i_pc t pc : dials d !! t = Some pc → pc_ok d pc;
  i_built : built d = u64 (Z.of_nat (length (sessions d))) }.

Lemma dialer_new_inv config d : new config = Ok d → inv d.
Proof.
  unfold new, rbind. destruct (verify config); [|done]. intros [= <-]. split; cbn; try done.
  - intros t. split; [done|]. intros (pc & H & _). done.
  - intros k H. lia.
  - left. intros k H. cbn in H. lia.
Qed.

(** *** Sessions change *)

Lemma spent_evolves d ss b k :
  Forall2 (λ s s', keeps s s' = true) (sessions d) ss → spent_at k d → spent_at k (set_sessions b ss d).
Proof.
  intros H (s & Hs & Hp). destruct (Forall2_lookup_l _ _ _ _ _ H Hs) as (s' & Hs' & Hk). exists s'. split; [done|]. by eapply keeps_spent.
Qed.

Lemma inv_evolves d ss :
  Forall2 (λ s s', keeps s s' = true) (sessions d) ss → inv d → inv (set_sessions (built d) ss d).
Proof.
  intros H [Hl Hc Ho Hla Hp Hb]. pose proof (Forall2_length _ _ _ H) as Hlen.
  assert (last_spent d → last_spent (set_sessions (built d) ss d)) as Hls.
  { intros Hs k Hk. apply spent_evolves; [done|]. apply Hs. cbn in Hk. lia. }
  split; cbn.
  - exact Hl.
  - rewrite <-Hlen. exact Hc.
  - intros k Hk. apply spent_evolves; [done|]. apply Ho. lia.
  - destruct Hla as [Hs|[(k & Hk & Hi)|Ht]]; [left; auto|right; left; exists k; split; [done|]; unfold is_last in *; cbn; lia|by right; right].
  - intros t pc Ht. specialize (Hp t pc Ht). destruct pc; cbn in *; unfold is_last in *; cbn; rewrite <- ?Hlen; try done; [|by auto].
    destruct Hp as [? [?|?]]; auto.
  - by rewrite <-Hlen.
Qed.

Lemma insert_evolves (ss : list Session) k s s' :
  ss !! k = Some s → keeps s s' = true → Forall2 (λ s s', keeps s s' = true) ss (<[k := s']> ss).
Proof.
  intros Hs Hk. apply Forall2_same_length_lookup_2; [by rewrite length_insert|]. intros j a b Ha Hb.
  destruct (decide (j = k)) as [->|Hne].
  - rewrite list_lookup_insert_eq in Hb by (by eapply lookup_lt_Some). simplify_eq. done.
  - rewrite list_lookup_insert_ne in Hb by done. simplify_eq. apply keeps_refl.
Qed.

Lemma close_inv d : inv d → inv (close d).
Proof.
  intros H. unfold close. destruct (cached d) as [k|]; [|done]. apply inv_evolves; [|done].
  apply Forall2_same_length_lookup_2; [by rewrite length_alter|]. intros j a b Ha Hb. destruct (decide (j = k)) as [->|Hne].
  - rewrite list_lookup_alter_eq, Ha in Hb. injection Hb as <-. apply close_keeps.
  - rewrite list_lookup_alter_ne in Hb by done. simplify_eq. apply keeps_refl.
Qed.

(** *** Dials go on *)

Lemma lock_unique d t t' pc pc' :
  inv d → dials d !! t = Some pc → critical pc = true → dials d !! t' = Some pc' → critical pc' = true → t' = t.
Proof.
  intros H Ht Hc Ht' Hc'. pose proof (proj2 (i_lock d H t) (ex_intro _ pc (conj Ht Hc))) as E.
  pose proof (proj2 (i_lock d H t') (ex_intro _ pc' (conj Ht' Hc'))) as E'. congruence.
Qed.

Lemma building_critical pc : building pc = true → critical pc = true.
Proof. by destruct pc. Qed.

(** The build lock and the programme counters after a change of dial [t]. *)
Lemma lock_pc d t pc pc' lk :
  inv d → dials d !! t = Some pc →
  lk = (if critical pc' then Some t else if critical pc then None else build_lock d) →
  (critical pc' = true → critical pc = true ∨ build_lock d = None) →
  ∀ u, lk = Some u ↔ ∃ q, <[t := pc']> (dials d) !! u = Some q ∧ critical q = true.
Proof.
  intros H Ht -> Hen u. pose proof (lookup_lt_Some _ _ _ Ht) as Hlt. destruct (decide (u = t)) as [->|Hne].
  - rewrite list_lookup_insert_eq by done. split.
    + destruct (critical pc') eqn:E; [eauto|]. destruct (critical pc) eqn:E'; [done|]. intros Hb.
      apply (i_lock d H) in Hb as (q & Hq & Hc). congruence.
    + intros (q & [= <-] & Hc). by rewrite Hc.
  - rewrite list_lookup_insert_ne by done. rewrite <-(i_lock d H u). destruct (critical pc') eqn:E.
    + split; [intros; congruence|]. intros Hb. destruct (Hen eq_refl) as [Hc|Hn]; [|congruence].
      apply (i_lock d H) in Hb as (q & Hq & Hcq). destruct Hne. by eapply (lock_unique d t).
    + destruct (critical pc) eqn:E'; [|done]. split; [done|]. intros Hb. apply (i_lock d H) in Hb as (q & Hq & Hcq).
      destruct Hne. by eapply (lock_unique d t).
Qed.

Lemma inv_move d t pc pc' lk c :
  inv d → dials d !! t = Some pc →
  lk = (if critical pc' then Some t else if critical pc then None else build_lock d) →
  (critical pc' = true → critical pc = true ∨ build_lock d = None) →
  pc_ok d pc' → (∀ k, c = Some k → (k < length (sessions d))%nat) →
  last_spent d ∨ (∃ k, c = Some k ∧ is_last k d) ∨ building pc' = true ∨ (c = cached d ∧ building pc = false) →
  inv (set_pc t pc' (set_lock lk (set_cached c d))).
Proof.
  intros H Ht Hlk Hen Hok Hc Hla. pose proof (lookup_lt_Some _ _ _ Ht) as Hlt. split; cbn.
  - by eapply lock_pc.
  - exact Hc.
  - exact (i_old d H).
  - destruct Hla as [?|[?|[Hb|[-> Hb]]]]; [by left|by right; left|right; right; exists t, pc'; by rewrite list_lookup_insert_eq|].
    destruct (i_last d H) as [?|[?|(u & q & Hu & Hq)]]; [by left|by right; left|right; right; exists u, q].
    rewrite list_lookup_insert_ne; [done|]. intros <-. congruence.
  - intros u q Hu. destruct (decide (u = t)) as [->|Hne].
    + rewrite list_lookup_insert_eq in Hu by done. by injection Hu as <-.
    + rewrite list_lookup_insert_ne in Hu by done. exact (i_pc d H u q Hu).
  - exact (i_built d H).
Qed.

Lemma inv_live d :
  inv d →
  let '(o, d1) := live_session d in
  inv d1 ∧ dials d1 = dials d ∧ build_lock d1 = build_lock d ∧ cached d1 = o ∧ sessions d1 = sessions d.
Proof.
  intros H. unfold live_session. destruct (cached d) as [k|] eqn:Ec; [|done]. pose proof (i_cached d H k Ec) as Hk.
  destruct (is_closed k d) eqn:E; cbn [negb]; [|done]. split_and!; try done. destruct H as [Hl Hc Ho Hla Hp Hb]. split; cbn; try done.
  destruct Hla as [?|[(j & Hj & Hi)|?]]; [by left| |by right; right]. left. rewrite Ec in Hj. injection Hj as <-.
  intros j Hj. unfold is_last in Hi. cbn in Hj. assert (j = k) as -> by lia. unfold is_closed in E.
  destruct (sessions d !! k) as [s|] eqn:Es; [|by apply lookup_ge_None in Es; lia]. exists s. split; [done|]. unfold spent. by rewrite E.
Qed.

Lemma inv_open d k ok err P :
  inv d → (k < length (sessions d))%nat →
  (∀ h d1, inv d1 → dials d1 = dials d → build_lock d1 = build_lock d → length (sessions d1) = length (sessions d) → P (ok h d1)) →
  (∀ e d1, inv d1 → dials d1 = dials d → build_lock d1 = build_lock d → length (sessions d1) = length (sessions d) → spent_at k d1 → P (err e d1)) →
  P (open_on k d ok err).
Proof.
  intros H Hk Hok Herr. unfold open_on. destruct (sessions d !! k) as [s|] eqn:Es; [|apply lookup_ge_None in Es; lia].
  pose proof (open_keeps s) as Hkeep. destruct (open_stream s) as [r s'] eqn:Eo. cbn in Hkeep.
  assert (inv (set_sessions (built d) (<[k := s']> (sessions d)) d)) as Hi by (apply inv_evolves; [by eapply insert_evolves|done]).
  destruct r as [h|e]; [apply Hok|apply Herr]; try done; cbn; rewrite ?length_insert; try done.
  exists s'. split; [cbn; by rewrite list_lookup_insert_eq|]. by eapply open_refused.
Qed.

Lemma inv_pc d t pc pc' :
  inv d → dials d !! t = Some pc → critical pc = critical pc' → pc_ok d pc' →
  last_spent d ∨ building pc' = true ∨ building pc = false → inv (set_pc t pc' d).
Proof.
  intros H Ht Hc Hok Hb. replace (set_pc t pc' d) with (set_pc t pc' (set_lock (build_lock d) (set_cached (cached d) d))) by by destruct d.
  eapply (inv_move d t pc); try done; rewrite <- ?Hc.
  - destruct (critical pc) eqn:E; [|done]. apply (i_lock d H). eauto.
  - auto.
  - exact (i_cached d H).
  - naive_solver.
Qed.

Lemma dialer_finish_inv d t pc pc' :
  inv d → dials d !! t = Some pc → critical pc = true → critical pc' = false → pc_ok d pc' →
  last_spent d ∨ (∃ k, cached d = Some k ∧ is_last k d) ∨ building pc = false → inv (finish t pc' d).
Proof.
  intros H Ht Hc Hc' Hok Hb. unfold finish. replace (set_lock None d) with (set_lock None (set_cached (cached d) d)) by by destruct d.
  eapply (inv_move d t pc); try done; rewrite ?Hc, ?Hc'; try done.
  - exact (i_cached d H).
  - naive_solver.
Qed.

Lemma inv_build d t s :
  inv d → dials d !! t = Some Factory →
  inv (set_pc t (Fresh (length (sessions d))) (set_sessions (u64 (built d + 1)) (sessions d ++ [s]) d)).
Proof.
  intros H Ht. pose proof (lookup_lt_Some _ _ _ Ht) as Hlt. pose proof (i_pc d H t _ Ht) as Hs. cbn in Hs.
  assert (∀ k, spent_at k d → spent_at k (set_sessions (u64 (built d + 1)) (sessions d ++ [s]) d)) as Hsp.
  { intros k (x & Hx & Hp). exists x. split; [|done]. cbn. rewrite lookup_app_l; [done|]. by eapply lookup_lt_Some. }
  split; cbn; rewrite ?length_app; cbn [length].
  - intros u. pose proof (lock_pc d t Factory (Fresh (length (sessions d))) (Some t) H Ht eq_refl (λ _, or_introl eq_refl) u) as E.
    rewrite <-E. by rewrite (proj2 (i_lock d H t) (ex_intro _ Factory (conj Ht eq_refl))).
  - intros k Hk%(i_cached d H). lia.
  - intros k Hk. apply Hsp. destruct (decide (S k = length (sessions d))) as [E|E]; [by apply Hs|]. apply (i_old d H). lia.
  - right. right. exists t, (Fresh (length (sessions d))). by rewrite list_lookup_insert_eq.
  - intros u q Hu. destruct (decide (u = t)) as [->|Hne].
    + rewrite list_lookup_insert_eq in Hu by done. injection Hu as <-. cbn. unfold is_last. cbn. rewrite length_app. cbn. lia.
    + rewrite list_lookup_insert_ne in Hu by done. pose proof (i_pc d H u q Hu) as Hq.
      assert (critical q = false) as Hcq.
      { destruct (critical q) eqn:E; [|done]. destruct Hne. by eapply (lock_unique d t). }
      destruct q; cbn in *; rewrite ?length_app; cbn; try done; lia.
  - rewrite (i_built d H). rewrite Nat2Z.inj_add. unfold wrap. by rewrite Zplus_mod_idemp_l.
Qed.

Lemma no_building d t pc :
  inv d → dials d !! t = Some pc → critical pc = true → building pc = false → last_spent d ∨ ∃ k, cached d = Some k ∧ is_last k d.
Proof.
  intros H Ht Hc Hb. destruct (i_last d H) as [?|[?|(u & q & Hu & Hq)]]; [by left|by right|].
  assert (u = t) as -> by (eapply (lock_unique d t); eauto using building_critical). congruence.
Qed.

Lemma dial_inv t answer d : inv d → inv (dial_on t answer d).
Proof.
  intros H. unfold dial_on. destruct (dials d !! t) as [pc|] eqn:Ht; [|done]. pose proof (i_pc d H t pc Ht) as Hok.
  destruct pc as [|k| | |k| |k|k h|k h|e|]; try done.
  - pose proof (inv_live d H) as Hl. destruct (live_session d) as [o d1]. destruct Hl as (H1 & Hd & Hb & Hc & Hs). rewrite <-Hd in Ht.
    eapply inv_pc; [done|exact Ht|..]; destruct o as [k|]; cbn; try done; auto. by apply (i_cached d1 H1).
  - apply inv_open; [done|exact Hok|..].
    + intros h d1 H1 Hd _ Hlen. rewrite <-Hd in Ht. eapply inv_pc; [done|exact Ht|done|cbn in *; lia|auto].
    + intros e d1 H1 Hd _ Hlen _. rewrite <-Hd in Ht. eapply inv_pc; [done|exact Ht|done..|auto].
  - destruct (build_lock d) as [u|] eqn:Eb; [done|].
    replace (set_lock (Some t) d) with (set_lock (Some t) (set_cached (cached d) d)) by by destruct d.
    eapply (inv_move d t Lock); try done; [auto|exact (i_cached d H)|auto].
  - pose proof (inv_live d H) as Hl. destruct (live_session d) as [o d1]. destruct Hl as (H1 & Hd & Hb & Hc & Hs). rewrite <-Hd in Ht.
    pose proof (no_building d1 t Recheck H1 Ht eq_refl eq_refl) as Hn. destruct o as [k|].
    + eapply inv_pc; [done|exact Ht|done| |auto]. split; [by apply (i_cached d1 H1)|]. destruct Hn as [?|(j & Hj & Hi)]; [by right|].
      left. congruence.
    + eapply inv_pc; [done|exact Ht|done| |auto]. destruct Hn as [?|(j & Hj & _)]; [done|]. congruence.
  - destruct Hok as [Hk Hor]. apply inv_open; [done|exact Hk|..].
    + intros h d1 H1 Hd _ Hlen. rewrite <-Hd in Ht. eapply dialer_finish_inv; [done|exact Ht|done|done|cbn; lia|auto].
    + intros e d1 H1 Hd _ Hlen Hsp. rewrite <-Hd in Ht. eapply inv_pc; [done|exact Ht|done| |auto].
      destruct (i_pc d1 H1 t _ Ht) as [_ [Hi|Hl]]; [|done]. intros j Hj. unfold is_last in Hi. by assert (j = k) as -> by lia.
  - destruct answer as [[]|e]; [|eapply dialer_finish_inv; [done|exact Ht|done..|auto]]. destruct (MuxSession_new (d_config d) true) as [s|e]; [by apply inv_build|].
    eapply dialer_finish_inv; [done|exact Ht|done..|auto].
  - apply inv_open; [done|unfold pc_ok, is_last in Hok; lia|..].
    + intros h d1 H1 Hd _ Hlen. rewrite <-Hd in Ht. eapply inv_pc; [done|exact Ht|done|unfold pc_ok, is_last in *; lia|auto].
    + intros e d1 H1 Hd _ Hlen Hsp. rewrite <-Hd in Ht. eapply dialer_finish_inv; [done|exact Ht|done..|]. left.
      intros j Hj. unfold pc_ok, is_last in Hok. by assert (j = k) as -> by lia.
  - unfold finish. eapply (inv_move d t (Publish k h)); try done; cbn in *; unfold is_last in *; try lia.
    + intros j [= <-]. lia.
    + right. left. by exists k.
Qed.

Lemma dialer_drop_inv t d : inv d → inv (drop_dial t d).
Proof.
  intros H. unfold drop_dial. destruct (dials d !! t) as [[| | | | | | | | | |]|] eqn:Ht; try done.
  1, 2: eapply inv_pc; [done|exact Ht|done..|auto]. eapply dialer_finish_inv; [done|exact Ht|done..|auto].
Qed.

Lemma look_inv d : inv d → inv (step Look d).
Proof.
  intros H. cbn. unfold num_streams, has_live_session. pose proof (inv_live d H) as Hl. destruct (live_session d) as [o d1]. cbn.
  destruct Hl as [H1 _]. pose proof (inv_live d1 H1) as Hl. destruct (live_session d1) as [o' d2]. apply Hl.
Qed.

Lemma dialer_step_inv ev d : inv d → inv (step ev d).
Proof.
  intros H. destruct ev as [|t answer|t| | |k s']; cbn [step].
  - assert (∀ t pc, (dials d ++ [Start]) !! t = Some pc → dials d !! t = Some pc ∨ pc = Start) as Hd.
    { intros t pc [?|[_ E]]%lookup_app_Some; [by left|right]. destruct (t - length (dials d))%nat; [by injection E|done]. }
    destruct H as [Hl Hc Ho Hla Hp Hb]. split; cbn; try done.
    + intros t. rewrite Hl. split; intros (pc & Hpc & Hcr).
      * exists pc. split; [|done]. by apply lookup_app_l_Some.
      * destruct (Hd t pc Hpc) as [?| ->]; [eauto|done].
    + destruct Hla as [?|[?|(t & pc & Ht & Hb')]]; [by left|by right; left|]. right. right. exists t, pc. split; [|done].
      by apply lookup_app_l_Some.
    + intros t pc Ht. destruct (Hd t pc Ht) as [?| ->]; [by apply Hp with t|done].
  - by apply dial_inv.
  - by apply dialer_drop_inv.
  - by apply close_inv.
  - by apply (look_inv d).
  - destruct (sessions d !! k) as [s|] eqn:Es; [|done]. destruct (keeps s s') eqn:E; [|done].
    apply inv_evolves; [by eapply insert_evolves|done].
Qed.

Lemma run_inv evs d : inv d → inv (run evs d).
Proof. revert d. induction evs as [|ev evs IH]; intros d H; [done|]. by apply IH, dialer_step_inv. Qed.

(** C22: any number of dials may share a dialer, in any interleaving with each other,
    with calls that are dropped and with all that happens to the sessions: of
    the sessions built so far only the last can be of any use, each earlier one
    being closed or out of streams for good; so however many dials there are, a
    second session is only built when the first gives no more streams. At most
    one dial builds at a time, the dialer's count is right, and every stream
    handed out is one of a session that was built. *)
Theorem dial_shared config d0 evs :
  new config = Ok d0 →
  let d := run evs d0 in
  (∀ k s, sessions d !! k = Some s → spent s = false → S k = length (sessions d))
  ∧ (∀ t t' pc pc', dials d !! t = Some pc → dials d !! t' = Some pc' → critical pc = true → critical pc' = true → t = t')
  ∧ built d = u64 (Z.of_nat (length (sessions d)))
  ∧ (∀ t k h, dials d !! t = Some (Done k h) → (k < length (sessions d))%nat).
Proof.
  intros Hn d. pose proof (run_inv evs d0 (dialer_new_inv config d0 Hn)) as H. fold d in H. split_and!.
  - intros k s Hs Hsp. destruct (decide (S k < length (sessions d))%nat) as [Hlt|Hge].
    + destruct (i_old d H k Hlt) as (s' & Hs' & E). congruence.
    + apply lookup_lt_Some in Hs. lia.
  - intros t t' pc pc' Ht Ht' Hc Hc'. symmetry. by eapply (lock_unique d t).
  - exact (i_built d H).
  - intros t k h Ht. exact (i_pc d H t _ Ht).
Qed.

(** ** Every dial comes to an end *)

(** What is left of a call. *)
Definition rank (pc : Pc) : nat :=
  match pc with
  | Start => 8 | Warm _ => 7 | Lock => 6 | Recheck => 5 | Held _ => 4 | Factory => 3 | Fresh _ => 2 | Publish _ _ => 1
  | Done _ _ | Failed _ | Dropped => 0
  end.
Definition work (d : MuxDialer) : nat := sum_list (rank <$> dials d).

Lemma live_dials d : dials (live_session d).2 = dials d.
Proof. unfold live_session. by destruct (cached d) as [k|]; [destruct (is_closed k d)|]. Qed.

Lemma work_pc d t pc pc' :
  dials d !! t = Some pc → (rank pc' < rank pc)%nat → (sum_list (rank <$> <[t := pc']> (dials d)) < work d)%nat.
Proof.
  intros Ht Hr. unfold work. rewrite <-(take_drop_middle _ _ _ Ht) at 2. rewrite insert_take_drop by by eapply lookup_lt_Some.
  rewrite !fmap_app, !fmap_cons, !sum_list_with_app. cbn. lia.
Qed.

Lemma dial_works d t a pc :
  inv d → dials d !! t = Some pc → (0 < rank pc)%nat → (pc = Lock → build_lock d = None) → (work (dial_on t a d) < work d)%nat.
Proof.
  intros H Ht Hr Hlock. pose proof (i_pc d H t pc Ht) as Hok. unfold dial_on. rewrite Ht. pose proof (live_dials d) as Hl.
  assert (∀ pc' x, dials x = dials d → (rank pc' < rank pc)%nat → (work (set_pc t pc' x) < work d)%nat) as Hset.
  { intros pc' x Hx Hlt. unfold work at 1. cbn. rewrite Hx. by apply (work_pc d t pc). }
  assert (∀ pc' x, dials x = dials d → (rank pc' < rank pc)%nat → (work (finish t pc' x) < work d)%nat) as Hfin by (intros; by apply Hset).
  destruct pc as [|k| | |k| |k|k h|k h|e|]; cbn in Hr; try lia.
  - destruct (live_session d) as [o d1]. apply Hset; [done|]. destruct o; cbn; lia.
  - apply (inv_open d k _ _ (λ x, work x < work d)%nat H Hok); intros; apply Hset; try done; cbn; lia.
  - rewrite (Hlock eq_refl). apply Hset; [done|cbn; lia].
  - destruct (live_session d) as [o d1]. apply Hset; [done|]. destruct o; cbn; lia.
  - apply (inv_open d k _ _ (λ x, work x < work d)%nat H (proj1 Hok)); intros; [apply Hfin|apply Hset]; try done; cbn; lia.
  - destruct a; [|apply Hfin; [done|cbn; lia]]. destruct (MuxSession_new _ _); [apply Hset|apply Hfin]; try done; cbn; lia.
  - apply (inv_open d k _ _ (λ x, work x < work d)%nat H); [unfold pc_ok, is_last in Hok; lia|..]; intros; [apply Hset|apply Hfin]; try done; cbn; lia.
  - apply Hfin; [done|cbn; lia].
Qed.

(** Nobody waits for ever: the dial that has the lock can go on, and when none has
    it, every dial can. *)
Lemma somebody_works d t pc :
  inv d → dials d !! t = Some pc → (0 < rank pc)%nat → ∃ u, ∀ a, (work (dial_on u a d) < work d)%nat.
Proof.
  intros H Ht Hr. destruct (build_lock d) as [u|] eqn:E.
  - destruct (proj1 (i_lock d H u) E) as (q & Hq & Hc). exists u. intros a. eapply dial_works; [done|exact Hq|destruct q; cbn in *; (done || lia)|].
    by intros ->.
  - exists t. intros a. by eapply dial_works.
Qed.

Definition over (d : MuxDialer) : Prop := ∀ t pc, dials d !! t = Some pc → rank pc = O.

Lemma all_over d answers :
  inv d → ∃ ts, (length ts ≤ work d)%nat ∧ over (run ((λ t, On t (answers t)) <$> ts) d).
Proof.
  remember (work d) as n eqn:E. revert d E. induction (lt_wf n) as [n _ IH]. intros d -> H.
  destruct (decide (Forall (λ pc, rank pc = O) (dials d))) as [Ho|Ho].
  - exists []. split; [cbn; lia|]. intros t pc Ht. by eapply Forall_lookup in Ho.
  - apply not_Forall_Exists in Ho; [|apply _]. apply Exists_exists in Ho as (pc & (t & Ht)%list_elem_of_lookup_1 & Hr). cbn in Hr.
    destruct (somebody_works d t pc H Ht ltac:(lia)) as [u Hu].
    destruct (IH _ (Hu (answers u)) _ eq_refl (dial_inv u (answers u) d H)) as (ts & Hlen & Hover).
    exists (u :: ts). split; [cbn; specialize (Hu (answers u)); lia|exact Hover].
Qed.

(** C32: a call of [dial] always comes to an end, with one build at most: a dial that
    goes on has less to do than before, eight steps to begin with, or it waits
    for the lock; there is no deadlock, since whenever a call is not over some
    call can go on; and so from every state, whatever the transports answer,
    finitely many steps end all the calls. *)
Theorem dial_progress config d0 evs answers :
  new config = Ok d0 →
  let d := run evs d0 in
  (∀ t a, dial_on t a d = d ∨ (work (dial_on t a d) < work d)%nat)
  ∧ (∀ t pc, dials d !! t = Some pc → (0 < rank pc)%nat → ∃ u, ∀ a, (work (dial_on u a d) < work d)%nat)
  ∧ ∃ ts, (length ts ≤ work d)%nat ∧ over (run ((λ t, On t (answers t)) <$> ts) d).
Proof.
  intros Hn d. pose proof (run_inv evs d0 (dialer_new_inv config d0 Hn)) as H. fold d in H. split_and!.
  - intros t a. destruct (dials d !! t) as [pc|] eqn:Ht; [|left; unfold dial_on; by rewrite Ht].
    destruct (decide (rank pc = O)) as [Hr|Hr]; [left; unfold dial_on; rewrite Ht; by destruct pc|].
    destruct (decide (pc = Lock ∧ is_Some (build_lock d))) as [[-> [u Hu]]|Hne]; [left; unfold dial_on; by rewrite Ht, Hu|].
    right. eapply dial_works; [done|exact Ht|lia|]. intros ->. destruct (build_lock d); [|done]. destruct Hne. eauto.
  - intros t pc. by apply somebody_works.
  - by apply all_over.
Qed.

(** With a session that gives a stream, a dial takes two steps, builds nothing and
    does not touch the lock. *)
Lemma warm_dial d t k s h s' a a' :
  dials d !! t = Some Start → cached d = Some k → sessions d !! k = Some s → open_stream s = (Ok h, s') →
  let d' := dial_on t a' (dial_on t a d) in
  dials d' !! t = Some (Done k h) ∧ build_lock d' = build_lock d ∧ sessions d' = <[k := s']> (sessions d).
Proof.
  intros Ht Hc Hs Ho. pose proof (lookup_lt_Some _ _ _ Ht) as Hlt.
  assert (closed s = false) as Hcl by (unfold open_stream in Ho; by destruct (closed s)).
  unfold dial_on at 2, live_session. rewrite Ht, Hc. unfold is_closed. rewrite Hs, Hcl. cbn [negb].
  unfold dial_on. cbn [set_pc set_dials dials]. rewrite list_lookup_insert_eq by done. unfold open_on. cbn [set_pc set_dials sessions].
  rewrite Hs, Ho. cbn. rewrite list_insert_insert_eq, list_lookup_insert_eq by (rewrite ?length_insert; done). done.
Qed.

(** ** The pool *)

Inductive PoolOp : Type := Get (key : bytes) (config : MuxConfig) | Remove (key : bytes) | At (i : nat) (ev : Ev).

Definition pool_op (op : PoolOp) (p : MuxDialerPool) : MuxDialerPool :=
  match op with
  | Get key config => (get_or_create key config p).2
  | Remove key => (remove key p).2
  | At i ev => mkPool (dialers p) (alter (step ev) i (made p))
  end.
Definition pool_ops (ops : list PoolOp) (p : MuxDialerPool) : MuxDialerPool := foldl (λ p op, pool_op op p) p ops.

(** Different keys never share a dialer. *)
Record pool_ok (p : MuxDialerPool) : Prop := {
  p_made key i : dialers p !! key = Some i → (i < length (made p))%nat;
  p_inj key key' i : dialers p !! key = Some i → dialers p !! key' = Some i → key = key' }.

Lemma pool_op_ok op p : pool_ok p → pool_ok (pool_op op p).
Proof.
  intros [Hm Hi]. destruct op as [key config|key|i ev]; cbn.
  - unfold get_or_create. destruct (dialers p !! key) as [i|] eqn:E; [done|]. destruct (new config); [|done]. split; cbn.
    + intros k i. rewrite length_app. cbn. rewrite lookup_insert. case_decide; [intros [= <-]; lia|]. intros Hlt%Hm. lia.
    + intros k k' i. rewrite !lookup_insert. repeat case_decide; intros H1 H2; simplify_eq; try done.
      * apply Hm in H2. lia.
      * apply Hm in H1. lia.
      * by eapply Hi.
  - unfold remove. destruct (dialers p !! key) as [i|] eqn:E; [|done]. split; cbn.
    + intros k j [_ H]%lookup_delete_Some. rewrite length_alter. by eapply Hm.
    + intros k k' j [_ H]%lookup_delete_Some [_ H']%lookup_delete_Some. by eapply Hi.
  - split; cbn; [|done]. intros key j. rewrite length_alter. apply Hm.
Qed.

(** Every request for a key gets the dialer of the first, until it is removed. *)
Lemma pool_shares key config i p ops :
  dialers p !! key = Some i → Forall (λ op, op ≠ Remove key) ops →
  get_or_create key config (pool_ops ops p) = (Ok i, pool_ops ops p).
Proof.
  intros Hi Hops. assert (dialers (pool_ops ops p) !! key = Some i) as E; [|unfold get_or_create; by rewrite E].
  revert p Hi. induction Hops as [|op ops Hop _ IH]; intros p Hi; [done|]. apply IH. destruct op as [k c|k|j ev]; cbn; [..|done].
  - unfold get_or_create. destruct (dialers p !! k) as [j|] eqn:E; [done|]. destruct (new c); [|done]. cbn.
    rewrite lookup_insert_ne; [done|]. intros ->. congruence.
  - unfold remove. destruct (dialers p !! k); [|done]. cbn. rewrite lookup_delete_ne; [done|]. intros ->. done.
Qed.

(** ** Configuration *)

(** Exactly the parameters that are accepted, and the configuration they give. *)
Lemma config_from_values v b sb k c :
  0 ≤ v ≤ u32_max → 0 ≤ b ≤ u64_max → 0 ≤ sb ≤ u64_max → 0 ≤ k ≤ u64_max →
  let buf := if b =? 0 then 4194304 else b in
  let sbuf := if sb =? 0 then 65536 else sb in
  mux_config_from_values v b sb k = Ok c ↔
  v ≤ 1 ∧ k ≤ 30 ∧ sbuf ≤ buf
  ∧ c = mkMuxConfig VERSION_1 false (if k =? 0 then secs 10 else secs k) (secs 30) MAX_FRAME_SIZE buf sbuf.
Proof.
  intros Hv Hb Hsb Hk buf sbuf. unfold mux_config_from_values. destruct (Z.ltb_spec u8_max v) as [H|H].
  { split; [done|]. unfold u8_max in H. intros (? & _). lia. }
  set (cfg := mkMuxConfig _ _ _ _ _ _ _).
  assert (config_wf cfg) as Hw.
  { subst cfg. unfold u32_max, u64_max, u8_max in *. split; cbn -[Z.mul]; unfold is_byte, wrap, secs, MAX_FRAME_SIZE, VERSION_1, u64_max;
      repeat case_match; zbool; try lia. change (2 ^ 8) with 256. pose proof (Z.mod_pos_bound v 256). lia. }
  assert (0 < buf ∧ 0 < sbuf) as [Hb1 Hs1] by (subst buf sbuf; destruct (Z.eqb_spec b 0), (Z.eqb_spec sb 0); lia).
  pose proof (verify_iff cfg Hw) as Hver. unfold rbind. transitivity (verify cfg = Ok () ∧ cfg = c).
  { destruct (verify cfg) as [[]|e]; split; [intros [= <-]; done|intros [_ ->]; done|done|by intros []]. }
  rewrite Hver. subst cfg. cbn [version keep_alive_disabled keep_alive_interval keep_alive_timeout max_frame_size max_receive_buffer max_stream_buffer MuxConfig_default].
  change (4 * 1024 * 1024) with 4194304. fold buf. fold sbuf.
  assert ((if v =? 0 then VERSION_1 else u8 v) = VERSION_1 ↔ v ≤ 1) as Hvv.
  { unfold VERSION_1, u8_max in *. destruct (Z.eqb_spec v 0); [lia|]. rewrite wrap_small by (change (2 ^ 8) with 256; lia). lia. }
  rewrite Hvv. assert (0 < MAX_FRAME_SIZE ≤ MAX_FRAME_DATA) by (vm_compute; split; congruence).
  split.
  - intros ((Hv1 & Hi & _ & Hs) & <-). specialize (Hi eq_refl). split_and!; try done; try lia.
    + unfold secs in Hi. destruct (Z.eqb_spec k 0); lia.
    + f_equal. by apply Hvv.
  - intros (Hv1 & Hk1 & Hs & ->). split_and!; try done; try lia.
    + unfold secs. destruct (Z.eqb_spec k 0); lia.
    + f_equal. by apply Hvv.
Qed.

(** A version that is one only in its low half is taken for version one. *)
Example version_wraps :
  let node := mkNode 0 [] [] [] [] [] None {[str "smuxver" := str "4294967297"]} 0 None in
  mux_config_from_node node = Ok MuxConfig_default.
Proof. vm_compute. reflexivity. Qed.

(** ** Handing streams out *)

(** A session that ends, or a token that is cancelled, ends the loop; the streams
    that came before were all handed out, in their order. *)
Lemma accept_loop_spec hs evs s :
  accept s = hs → Forall (λ ev, ∃ sender, ev = Accepted sender) evs → (length hs < length evs)%nat →
  last evs = Some (Accepted false) →
  ∃ s', accept_loop evs s = (hs, true, s').
Proof.
  revert hs s. induction evs as [|ev evs IH]; intros hs s Ha Hf Hlen Hl; [cbn in Hlen; lia|].
  apply Forall_cons in Hf as [[sender ->] Hf]. cbn [accept_loop]. unfold accept_stream. rewrite Ha. destruct hs as [|h hs].
  - destruct sender; [|eauto]. destruct evs as [|ev evs]; [done|]. destruct (IH [] s Ha Hf ltac:(cbn; lia) Hl) as (s' & ->). eauto.
  - destruct evs as [|ev evs]; [cbn in Hlen; lia|].
    destruct (IH hs (set_accept s hs (accept_closed s)) eq_refl Hf ltac:(cbn in *; lia) Hl) as (s' & ->). eauto.
Qed.

(** A listener that starts can make a session of any connection it accepts. *)
Lemma server_sessions default_max bind options tls config tag srv evs :
  build_ws default_max bind options tls config tag = Ok srv ∨ new_mtls bind config = Ok srv →
  ∃ out m, mux_handle (m_muxer srv) evs = (Ok out, m).
Proof.
  unfold build_ws, new_mtls, rbind, mux_handle, MuxSession_new. destruct (verify config) as [[]|e] eqn:E; [|by intros [?|?]].
  destruct bind; [|by intros [?|?]]. intros [[= <-]|[= <-]]; cbn; rewrite E; eauto.
Qed.

(** ** Examples *)

Definition demo_dialer : MuxDialer := mkDialer MuxConfig_default None None 0 [] [] [].

(** Two cold dials at once. *)
Definition demo_events : list Ev :=
  [Dial; Dial; On 0 (Ok ()); On 1 (Ok ()); On 0 (Ok ()); On 1 (Ok ()); On 0 (Ok ()); On 0 (Ok ()); On 0 (Ok ()); On 0 (Ok ());
   On 1 (Ok ()); On 1 (Ok ()); On 1 (Ok ())].

Example cold_dials_share :
  let d := run demo_events demo_dialer in
  built d = 1 ∧ (match dials d with [Done 0 a; Done 0 b] => [ms_id a; ms_id b] | _ => [] end) = [3; 5].
Proof. vm_compute. done. Qed.

Lemma dial_shared_witness : built (run demo_events demo_dialer) = u64 (Z.of_nat (length (sessions (run demo_events demo_dialer)))).
Proof. exact (proj1 (proj2 (proj2 (dial_shared MuxConfig_default demo_dialer demo_events eq_refl)))). Defined.

Lemma dial_progress_witness :
  ∃ ts, (length ts ≤ work (run [Dial; Dial; On 0%nat (Ok ())] demo_dialer))%nat
    ∧ over (run ((λ t, On t (Ok ())) <$> ts) (run [Dial; Dial; On 0%nat (Ok ())] demo_dialer)).
Proof. exact (proj2 (proj2 (dial_progress MuxConfig_default demo_dialer [Dial; Dial; On 0 (Ok ())] (λ _, Ok ()) eq_refl))). Defined.

End MuxDial.
