(* ===== verification/KcpConf.v ===== *)
(** * KCP configuration

    Models [KcpConfig] of src/kcp.rs: defaults, mode presets, validation, and the
    sizes it reserves; the contents of a configuration file, which are serde's,
    are a parameter. The datagrams a session sends are proved to fit the
    configured and the largest readable size. *)

From stdpp Require Import base list option numbers strings gmap.
From Stdlib Require Import ZArith Lia.
From S2P Require Import Prelude Text MuxFrame Node KcpCrypt KcpFec KcpFrame Ws MuxDial.

Module KcpConf.

Definition DEFAULT_KEY : bytes := str "it's a secrect".

Record KcpConfig : Set := mkKcpConfig {
  key : bytes; crypt : bytes; mode : bytes;
  mtu : Z; sndwnd : Z; rcvwnd : Z; datashard : Z; parityshard : Z; dscp : Z;
  nocomp : bool; acknodelay : bool;
  nodelay : Z; interval : Z; resend : Z; nc : Z;
  sockbuf : Z; smuxbuf : Z; streambuf : Z; smuxver : Z; keepalive : Z;
  tcp : bool
}.

Definition default_mtu : Z := 1350.
Definition default_sndwnd : Z := 1024.
Definition default_rcvwnd : Z := 1024.
Definition default_datashard : Z := 10.
Definition default_parityshard : Z := 3.
Definition default_interval : Z := 50.
Definition default_sockbuf : Z := 4194304.
Definition default_smuxver : Z := 1.
Definition default_keepalive : Z := 10.

Definition default_config : KcpConfig :=
  mkKcpConfig DEFAULT_KEY (str "aes") (str "fast") default_mtu default_sndwnd default_rcvwnd default_datashard default_parityshard 0
    false false 0 default_interval 0 0 default_sockbuf 0 0 default_smuxver default_keepalive false.

Definition set_timing (nd iv rs n : Z) (c : KcpConfig) : KcpConfig :=
  mkKcpConfig (key c) (crypt c) (mode c) (mtu c) (sndwnd c) (rcvwnd c) (datashard c) (parityshard c) (dscp c) (nocomp c) (acknodelay c)
    nd iv rs n (sockbuf c) (smuxbuf c) (streambuf c) (smuxver c) (keepalive c) (tcp c).
Definition set_smux (buf sbuf ver : Z) (c : KcpConfig) : KcpConfig :=
  mkKcpConfig (key c) (crypt c) (mode c) (mtu c) (sndwnd c) (rcvwnd c) (datashard c) (parityshard c) (dscp c) (nocomp c) (acknodelay c)
    (nodelay c) (interval c) (resend c) (nc c) (sockbuf c) buf sbuf ver (keepalive c) (tcp c).
Definition set_tcp (b : bool) (c : KcpConfig) : KcpConfig :=
  mkKcpConfig (key c) (crypt c) (mode c) (mtu c) (sndwnd c) (rcvwnd c) (datashard c) (parityshard c) (dscp c) (nocomp c) (acknodelay c)
    (nodelay c) (interval c) (resend c) (nc c) (sockbuf c) (smuxbuf c) (streambuf c) (smuxver c) (keepalive c) b.

Definition init (c : KcpConfig) : KcpConfig :=
  let named (s : string) := bool_decide (mode c = str s) in
  let c :=
    if named "normal"%string then set_timing 0 40 2 1 c
    else if named "fast"%string then set_timing 0 30 2 1 c
    else if named "fast2"%string then set_timing 1 20 2 1 c
    else if named "fast3"%string then set_timing 1 10 2 1 c
    else c in
  set_smux (if smuxbuf c =? 0 then sockbuf c else smuxbuf c) (if streambuf c =? 0 then sockbuf c / 2 else streambuf c)
    (if smuxver c =? 0 then 1 else smuxver c) c.

Definition fec_overhead (c : KcpConfig) : Z :=
  if (0 <? datashard c) && (0 <? parityshard c) then Z.of_nat FEC_HEADER_SIZE_PLUS2 else 0.

Definition mux_config (c : KcpConfig) : result io_error MuxConfig :=
  MuxDial.mux_config_from_values (smuxver c) (smuxbuf c) (streambuf c) (keepalive c).

(** The subtraction does not underflow in a valid configuration. *)
Definition arq_mtu (c : KcpConfig) : Z := mtu c - Z.of_nat CRYPT_HEADER_SIZE - fec_overhead c.

Inductive ConfErr : Set :=
| TcpFraming | SmuxVersion (v : Z) | MtuTooLarge (m : Z) | MtuTooSmall (m reserved : Z)
| BadCrypt (name : string) | BadMux (e : io_error) | Reading (path e : bytes).

Section config.
Context (IKCP_OVERHEAD : nat).
Context (pbkdf2 : bytes → bytes → Z → nat → bytes) (new_cipher : string → bytes → option BlockEnc).

Definition validate (c : KcpConfig) : result ConfErr () :=
  if tcp c then Err TcpFraming
  else if 1 <? smuxver c then Err (SmuxVersion (smuxver c))
  else
    let reserved := Z.of_nat CRYPT_HEADER_SIZE + fec_overhead c in
    if Z.of_nat MTU_LIMIT <? mtu c then Err (MtuTooLarge (mtu c))
    else if mtu c <=? reserved + Z.of_nat IKCP_OVERHEAD + 1 then Err (MtuTooSmall (mtu c) reserved)
    else
      match Crypt_new pbkdf2 new_cipher (key c) (crypt c) KCP_SALT with
      | Err name => Err (BadCrypt name)
      | Ok _ => match mux_config c with Err e => Err (BadMux e) | Ok _ => Ok () end
      end.

(** [parse]: what a file gives, with its missing fields filled in, or the error. *)
Definition load (parse : bytes → result bytes KcpConfig) (path : bytes) : result bytes KcpConfig :=
  match parse path with Ok c => Ok (init c) | Err e => Err e end.

Definition from_node (parse : bytes → result bytes KcpConfig) (node : Node) : result ConfErr KcpConfig :=
  let config :=
    match values node !! str "c" with
    | Some (b :: path) => match load parse (b :: path) with Ok c => Ok c | Err e => Err (Reading (b :: path) e) end
    | _ => Ok (set_tcp (get_bool node (str "tcp")) default_config)
    end in
  c <-? config ;;
  let c := init c in
  _ <-? validate c ;; Ok c.

(** ** Initialisation *)

(** A file's configuration is initialised twice, which changes nothing. *)
Lemma init_twice c : init (init c) = init c.
Proof.
  assert (∀ x d, (if (if x =? 0 then d else x) =? 0 then d else if x =? 0 then d else x) = if x =? 0 then d else x) as H.
  { intros x d. destruct (Z.eqb_spec x 0) as [->|Hx]; [by destruct (Z.eqb_spec d 0)|]. by destruct (Z.eqb_spec x 0). }
  unfold init. destruct (bool_decide (mode c = str "normal")) eqn:E1; [|destruct (bool_decide (mode c = str "fast")) eqn:E2;
    [|destruct (bool_decide (mode c = str "fast2")) eqn:E3; [|destruct (bool_decide (mode c = str "fast3")) eqn:E4]]];
    cbn [set_smux set_timing mode smuxbuf streambuf smuxver sockbuf]; rewrite ?E1, ?E2, ?E3, ?E4;
    unfold set_smux, set_timing; cbn [key crypt mode mtu sndwnd rcvwnd datashard parityshard dscp nocomp acknodelay nodelay interval resend nc
      sockbuf smuxbuf streambuf smuxver keepalive tcp]; by rewrite !H.
Qed.

End config.

(** ** The size of datagrams *)

Section sizes.
Context (IKCP_OVERHEAD : nat).
Context (pbkdf2 : bytes → bytes → Z → nat → bytes) (new_cipher : string → bytes → option BlockEnc).
Context (salsa20 : bytes → bytes → nat → bytes) (rs_new : nat → nat → bool)
        (rs_encode : nat → nat → list bytes → option (list bytes)).

(** The codec works on shards of one size. *)
Hypothesis rs_encode_size : ∀ d p n shards out,
  Forall (λ s, length s = n) shards → rs_encode d p shards = Some out → Forall (λ s, length s = n) out.

Lemma seal_length c nonce pkt :
  length nonce = NONCE_SIZE → (CRYPT_HEADER_SIZE ≤ length pkt)%nat → length (seal salsa20 c nonce pkt) = length pkt.
Proof.
  intros Hn Hp. unfold seal. rewrite encrypt_length. unfold CRYPT_HEADER_SIZE, NONCE_SIZE in *.
  rewrite length_splice; rewrite length_splice; rewrite ?length_to_le, ?Hn; lia.
Qed.

Lemma parity_sizes m max bodies e out e' :
  (CRYPT_HEADER_SIZE + FEC_HEADER_SIZE ≤ max ≤ m)%nat → Forall (λ b, length b = max - (CRYPT_HEADER_SIZE + FEC_HEADER_SIZE))%nat bodies →
  parity_packets max (CRYPT_HEADER_SIZE + FEC_HEADER_SIZE) bodies e = (out, e') →
  Forall (λ p, CRYPT_HEADER_SIZE ≤ length p ≤ m)%nat out.
Proof.
  intros Hm Hb. revert e out e'. induction Hb as [|b bodies Hl _ IH]; intros e out e'; cbn [parity_packets]; [by intros [= <- <-]|].
  unfold mark_parity at 1. destruct (parity_packets _ _ bodies _) as [ps e1] eqn:E. intros [<- <-]%pair_eq. constructor; [|by eapply IH].
  clear IH E. set (off := (CRYPT_HEADER_SIZE + FEC_HEADER_SIZE)%nat) in *. assert (FEC_HEADER_SIZE ≤ off ∧ CRYPT_HEADER_SIZE ≤ off)%nat by (unfold off; lia).
  assert (length (to_le 4 (e_next e) ++ to_le 2 TYPE_PARITY) = FEC_HEADER_SIZE) as H6 by (by rewrite length_app, !length_to_le).
  assert (length (splice off b (replicate max 0)) = max) as E1 by (rewrite length_splice, length_replicate; rewrite ?length_replicate; lia).
  rewrite length_splice; rewrite E1; lia.
Qed.

(** The encoder has seen no packet longer than [m]. *)
Definition seen (m : nat) (e : FecEncoder) : Prop := (e_max_size e ≤ m)%nat.

Lemma push_sizes m pkt e out e' :
  (CRYPT_HEADER_SIZE + FEC_HEADER_SIZE ≤ length pkt ≤ m)%nat → seen m e →
  push rs_encode pkt (CRYPT_HEADER_SIZE + FEC_HEADER_SIZE) e = (out, e') →
  Forall (λ p, CRYPT_HEADER_SIZE ≤ length p ≤ m)%nat out ∧ seen m e'.
Proof.
  intros Hp He. unfold push, seen in *. cbn [e_cache e_datashard e_max_size e_parityshard].
  destruct (_ <? _)%nat; [intros [= <- <-]; split; [done|cbn; lia]|].
  set (max := Nat.max (e_max_size e) (length pkt)) in *.
  destruct (rs_encode _ _ _) as [shards|] eqn:E; [|intros [= <- <-]; split; [done|cbn; lia]].
  destruct (parity_packets _ _ _ _) as [ps e1] eqn:Ep. intros [= <- <-]. split; [|cbn; lia].
  eapply parity_sizes; [|..|exact Ep]; [lia|]. apply Forall_drop. eapply rs_encode_size; [|exact E]. apply Forall_app. split.
  - apply Forall_fmap, Forall_true. intros p. cbn. apply length_zero_pad.
  - apply Forall_replicate. by rewrite length_replicate.
Qed.

Lemma frame_sizes m f segments pkt parity fec :
  (header_len f + length segments ≤ m)%nat → (∀ e, f_fec f = Some e → seen m e) →
  frame rs_encode (header_len f) (f_fec f) segments = (pkt, parity, fec) →
  Forall (λ p, CRYPT_HEADER_SIZE ≤ length p ≤ m)%nat (pkt :: parity) ∧ (∀ e, fec = Some e → seen m e)
  ∧ bool_decide (is_Some fec) = bool_decide (is_Some (f_fec f)).
Proof.
  intros Hl Hs. unfold frame, header_len in *. destruct (f_fec f) as [e|].
  - unfold mark_data. set (h := to_le 4 _ ++ _). assert (length h = FEC_HEADER_SIZE_PLUS2) as Hh by (unfold h; by rewrite !length_app, !length_to_le).
    set (e1 := mkEncoder _ _ _ _ _ _). set (p0 := splice _ _ _).
    assert (length p0 = CRYPT_HEADER_SIZE + FEC_HEADER_SIZE_PLUS2 + length segments)%nat as Hp0.
    { unfold p0. rewrite length_splice; rewrite length_app, length_replicate; lia. }
    destruct (push rs_encode p0 _ e1) as [ps e2] eqn:E. intros [= <- <- <-].
    apply (push_sizes m) in E as [Hf He2]; [|unfold FEC_HEADER_SIZE, FEC_HEADER_SIZE_PLUS2 in *; lia|exact (Hs e eq_refl)].
    split; [constructor; [lia|done]|]. split; [by intros ? [= <-]|done].
  - intros [[<- <-]%pair_eq <-]%pair_eq. split; [|done]. constructor; [|done]. rewrite length_app, length_replicate. lia.
Qed.

Definition fits (m : nat) (f : PacketFramer) : Prop :=
  Forall (λ p, CRYPT_HEADER_SIZE ≤ length p ≤ m)%nat (f_queue f) ∧ ∀ e, f_fec f = Some e → seen m e.

Lemma write_fits m nonces segments f :
  (∀ k, length (nonces k) = NONCE_SIZE) → (header_len f + length segments ≤ m)%nat → fits m f →
  fits m (write salsa20 rs_encode nonces segments f) ∧ header_len (write salsa20 rs_encode nonces segments f) = header_len f.
Proof.
  intros Hn Hl [Hq Hs]. unfold write. destruct (frame rs_encode (header_len f) (f_fec f) segments) as [[pkt parity] fec] eqn:E.
  destruct (frame_sizes m f segments pkt parity fec Hl Hs E) as (Hf & He & Hb). split.
  - split; [|exact He]. cbn [f_queue]. apply Forall_app. split; [done|]. apply Forall_lookup. intros i x Hi.
    rewrite list_lookup_imap in Hi. apply fmap_Some in Hi as (p & Hp & ->). rewrite Forall_lookup in Hf. specialize (Hf _ _ Hp).
    rewrite seal_length; [done|apply Hn|lia].
  - unfold header_len. cbn [f_fec]. by destruct fec, (f_fec f).
Qed.

Lemma writes_fit m writes f :
  Forall (λ w, (∀ k, length (w.1 k) = NONCE_SIZE) ∧ header_len f + length w.2 ≤ m)%nat writes → fits m f →
  fits m (foldl (λ f w, write salsa20 rs_encode w.1 w.2 f) f writes).
Proof.
  revert f. induction writes as [|[nonces segments] writes IH]; intros f Hw Hf; [done|]. apply Forall_cons in Hw as [[Hn Hl] Hw].
  destruct (write_fits m nonces segments f Hn Hl Hf) as [Hf' Hh]. apply IH; [|exact Hf']. cbn [fst snd]. eapply Forall_impl; [exact Hw|]. intros w. cbn beta. by rewrite Hh.
Qed.

(** C33: every datagram of a session with a valid configuration, parity included, is
    at most as long as the configured size, which no peer's buffer cuts, as long
    as the protocol engine keeps to the size it is given; and that size leaves
    the engine room for data behind its own header. *)
Theorem kcp_datagrams_fit config c writes :
  validate IKCP_OVERHEAD pbkdf2 new_cipher config = Ok () → 0 ≤ datashard config → 0 ≤ parityshard config →
  Forall (λ w, (∀ k, length (w.1 k) = NONCE_SIZE) ∧ zlen w.2 ≤ arq_mtu config) writes →
  let f := mkFramer c (FecEncoder_new rs_new (Z.to_nat (datashard config)) (Z.to_nat (parityshard config))) [] in
  Forall (λ p, zlen p ≤ mtu config ≤ Z.of_nat MTU_LIMIT) (f_queue (foldl (λ f w, write salsa20 rs_encode w.1 w.2 f) f writes))
  ∧ Z.of_nat IKCP_OVERHEAD + 1 < arq_mtu config.
Proof using rs_encode_size.
  intros Hv Hd Hp Hw f. unfold validate in Hv. destruct (tcp config); [done|]. destruct (1 <? smuxver config); [done|].
  destruct (Z.ltb_spec (Z.of_nat MTU_LIMIT) (mtu config)) as [|Hm]; [done|].
  destruct (Z.leb_spec (mtu config) (Z.of_nat CRYPT_HEADER_SIZE + fec_overhead config + Z.of_nat IKCP_OVERHEAD + 1)) as [|Hr]; [done|].
  clear Hv. assert (0 ≤ fec_overhead config) as H0 by (unfold fec_overhead; destruct (_ && _); lia).
  assert (Z.of_nat (header_len f) ≤ Z.of_nat CRYPT_HEADER_SIZE + fec_overhead config) as Hh.
  { unfold header_len, f. cbn [f_fec]. destruct (FecEncoder_new _ _ _) as [e|] eqn:E; [|lia]. unfold FecEncoder_new in E.
    destruct (Nat.eqb_spec (Z.to_nat (datashard config)) 0); [done|]. destruct (Nat.eqb_spec (Z.to_nat (parityshard config)) 0); [done|].
    unfold fec_overhead. destruct (Z.ltb_spec 0 (datashard config)); [|lia]. destruct (Z.ltb_spec 0 (parityshard config)); [|lia]. cbn [andb]. lia. }
  split; [|unfold arq_mtu; lia].
  assert (fits (Z.to_nat (mtu config)) (foldl (λ f w, write salsa20 rs_encode w.1 w.2 f) f writes)) as [Hq _].
  { apply writes_fit.
    - eapply Forall_impl; [exact Hw|]. intros [nonces segments] [Hn Hl]. split; [done|]. unfold arq_mtu, zlen in Hl. cbn in *. lia.
    - split; [done|]. unfold f. cbn [f_fec]. intros e E. unfold FecEncoder_new in E. repeat case_hyp E; try done. injection E as <-.
      unfold seen. cbn. lia. }
  eapply Forall_impl; [exact Hq|]. intros p [_ Hl]. cbn. split; [|done]. unfold zlen. lia.
Qed.

End sizes.

(** Shard counts no codec takes: the configuration is valid, and error correction
    is off without a word. *)
Definition many_shards : KcpConfig :=
  let c := default_config in
  mkKcpConfig (key c) (str "none") (mode c) (mtu c) (sndwnd c) (rcvwnd c) 200 100 (dscp c) (nocomp c) (acknodelay c)
    (nodelay c) (interval c) (resend c) (nc c) (sockbuf c) (smuxbuf c) (streambuf c) (smuxver c) (keepalive c) (tcp c).

Example shards_dropped :
  validate 24 (λ _ _ _ _, []) (λ _ _, None) (init many_shards) = Ok ()
  ∧ FecEncoder_new (λ d p, (d + p <=? 256)%nat) 200 100 = None.
Proof. vm_compute. done. Qed.

Definition plain_config : KcpConfig :=
  let c := default_config in
  mkKcpConfig (key c) (str "none") (mode c) (mtu c) (sndwnd c) (rcvwnd c) 2 1 (dscp c) (nocomp c) (acknodelay c)
    (nodelay c) (interval c) (resend c) (nc c) (sockbuf c) (smuxbuf c) (streambuf c) (smuxver c) (keepalive c) (tcp c).

Lemma kcp_datagrams_fit_witness :
  Forall (λ p, zlen p ≤ 1350 ≤ 1500)
    (f_queue (foldl (λ f w, write (λ _ _ n, replicate n 0) (λ _ _ shards, Some shards) w.1 w.2 f)
      (mkFramer CryptNone (FecEncoder_new (λ _ _, true) 2 1) []) (replicate 3 ((λ _, replicate 16 7), replicate 30 1)))).
Proof.
  refine (proj1 (kcp_datagrams_fit 24 (λ _ _ _ _, []) (λ _ _, None) (λ _ _ n, replicate n 0) (λ _ _, true) (λ _ _ shards, Some shards) _
    (init plain_config) CryptNone (replicate 3 ((λ _, replicate 16 7), replicate 30 1)) _ _ _ _)).
  - intros d p n shards out H [= <-]. exact H.
  - vm_compute. reflexivity.
  - vm_compute. discriminate.
  - vm_compute. discriminate.
  - repeat constructor; vm_compute; try done; discriminate.
Defined.

End KcpConf.
