(* ===== verification/KcpSession.v ===== *)
(** * KCP sessions

    Models [KcpStream] and [SessionDriver] of src/kcp.rs: the stream an
    application reads and writes, the task that owns the protocol engine, and
    the two channels between them, as a transition system. The engine is an
    external library: its answers (bytes it has put together, room in its window,
    a dead link, datagrams it has formed) are part of the events. *)

From stdpp Require Import base list option numbers strings.
From Stdlib Require Import ZArith Lia.
From S2P Require Import Prelude AsyncIo KcpCrypt.

Module KcpSession.

Definition DELIVER_CHUNK : nat := Z.to_nat 32768.
Definition CHANNEL : nat := 8.

Definition session_closed : io_error := IoError BrokenPipe "kcp: session closed".

(** ** The driver's work on the engine *)

(** Answers to [recv]. *)
Inductive RecvAns : Set := Got (b : bytes) | BufTooSmall | RecvErr.

(** The bytes collected, and the size of the scratch buffer after it. *)
Fixpoint drain_core (answers : list RecvAns) (scratch : Z) (out : option bytes) : option bytes * Z :=
  match answers with
  | [] | RecvErr :: _ | Got [] :: _ => (out, scratch)
  | Got b :: answers =>
      let o := default [] out ++ b in
      if (DELIVER_CHUNK <=? length o)%nat then (Some o, scratch) else drain_core answers scratch (Some o)
  | BufTooSmall :: answers => drain_core answers (scratch * 2) out
  end.

(** [send]: the pieces the engine took, and whether it took them all; [answers]
    are its answers, and it takes a piece when none is left. *)
Fixpoint send (fuel mss : nat) (answers : list bool) (data : bytes) : list bytes * bool :=
  match fuel, data with
  | _, [] => ([], true)
  | O, _ => ([], false)
  | S fuel, _ =>
      let n := Nat.min mss (length data) in
      match answers with
      | false :: _ => ([], false)
      | _ => let '(ps, ok) := send fuel mss (tail answers) (drop n data) in (take n data :: ps, ok)
      end
  end.

(** [pump_out]: the datagrams put on the wire and those left; one whose sending
    fails is gone. *)
Fixpoint pump_out (results : list bool) (queue : list bytes) : list bytes * list bytes :=
  match queue with
  | [] => ([], [])
  | p :: queue =>
      match results with
      | false :: _ => ([], queue)
      | _ => let '(sent, rest) := pump_out (tail results) queue in (p :: sent, rest)
      end
  end.

(** ** The state *)

Record Session : Set := mkSess {
  pending : option (bytes * nat);   (* the stream *)
  eof : bool;
  app : list bytes;                 (* from the stream to the driver *)
  app_closed : bool;
  out : list bytes;                 (* from the driver to the stream *)
  reader_gone : bool;
  deliver : option bytes;           (* the driver *)
  scratch : Z;
  writer_closed : bool;
  running : bool;
  queue : list bytes
}.

Definition set_stream p e s := mkSess p e (app s) (app_closed s) (out s) (reader_gone s) (deliver s) (scratch s) (writer_closed s) (running s) (queue s).
Definition set_app a c s := mkSess (pending s) (eof s) a c (out s) (reader_gone s) (deliver s) (scratch s) (writer_closed s) (running s) (queue s).
Definition set_out o g s := mkSess (pending s) (eof s) (app s) (app_closed s) o g (deliver s) (scratch s) (writer_closed s) (running s) (queue s).
Definition set_deliver d sc s := mkSess (pending s) (eof s) (app s) (app_closed s) (out s) (reader_gone s) d sc (writer_closed s) (running s) (queue s).
Definition set_writer_closed s := mkSess (pending s) (eof s) (app s) (app_closed s) (out s) (reader_gone s) (deliver s) (scratch s) true (running s) (queue s).
Definition stop s := mkSess (pending s) (eof s) (app s) (app_closed s) (out s) (reader_gone s) (deliver s) (scratch s) (writer_closed s) false (queue s).
Definition set_queue q s := mkSess (pending s) (eof s) (app s) (app_closed s) (out s) (reader_gone s) (deliver s) (scratch s) (writer_closed s) (running s) q.

(** [updated]: whether the engine's first [update] succeeded. *)
Definition start (updated : bool) : Session :=
  mkSess None false [] false [] false None (Z.max (Z.of_nat DELIVER_CHUNK) (Z.of_nat MTU_LIMIT)) false updated [].

(** What a step does that others see: bytes the stream's user was told were
    written, bytes it read, pieces the engine took, bytes it gave, datagrams. *)
Inductive Out : Set := Accepted (b : bytes) | ReadBytes (b : bytes) | Fed (b : bytes) | Drained (b : bytes) | Datagram (b : bytes).

(** ** The stream *)

Definition hand_over (room : nat) (data : bytes) (off : nat) (s : Session) : poll (result io_error bytes) * Session :=
  let n := Nat.min room (length data - off) in
  (Ready (Ok (take n (drop off data))), set_stream (if (off + n =? length data)%nat then None else Some (data, (off + n)%nat)) (eof s) s).

Definition poll_read (room : nat) (s : Session) : poll (result io_error bytes) * Session :=
  match pending s with
  | Some (data, off) => hand_over room data off s
  | None =>
      if eof s then (Ready (Ok []), s)
      else match out s with
      | data :: out => hand_over room data 0 (set_out out (reader_gone s) s)
      | [] => if running s then (Pending, s) else (Ready (Ok []), set_stream None true s)
      end
  end.

Definition poll_write (buf : bytes) (s : Session) : poll (result io_error nat) * Session :=
  match buf with
  | [] => (Ready (Ok 0%nat), s)
  | _ =>
      if app_closed s || negb (running s) then (Ready (Err session_closed), s)
      else if (CHANNEL <=? length (app s))%nat then (Pending, s)
      else
        let n := Nat.min (length buf) DELIVER_CHUNK in
        (Ready (Ok n), set_app (app s ++ [take n buf]) (app_closed s) s)
  end.

Definition poll_flush : poll (result io_error ()) := Ready (Ok ()).
Definition poll_shutdown (s : Session) : poll (result io_error ()) * Session := (Ready (Ok ()), set_app (app s) true s).

Definition drop_stream (s : Session) : Session := set_out [] true (set_app (app s) true (set_stream None (eof s) s)).

(** ** A turn of the driver *)

(** The branch [select!] takes. It prefers the earlier ones; here any that is
    ready may be taken. *)
Inductive Branch : Set :=
| Inbound              (* a packet, which the engine takes or discards *)
| InboundClosed
| Permit               (* room in the channel to the reader, or its end *)
| FromApp (answers : list bool)
| Tick (ok : bool).

Record Turn : Set := mkTurn {
  t_recv : list RecvAns;
  t_dead : bool;
  t_can_send : bool;
  t_branch : Branch;
  t_formed : list bytes;     (* datagrams the engine forms meanwhile *)
  t_sends : list bool;       (* how their sending goes *)
  t_last : list bool
}.

(** The end of the task: a last [pump_out]. *)
Definition finish (results : list bool) (s : Session) : Session * list Out :=
  let '(sent, rest) := pump_out results (queue s) in (stop (set_queue rest s), Datagram <$> sent).

(** The part before [select!]; [None] when the loop is over. *)
Definition before (t : Turn) (s : Session) : Session * list Out * bool :=
  let '(sent, rest) := pump_out (t_sends t) (queue s) in
  let s := set_queue rest s in
  let '(s, got) :=
    match deliver s with
    | Some _ => (s, [])
    | None => let '(d, sc) := drain_core (t_recv t) (scratch s) None in (set_deliver d sc s, match d with Some b => [Drained b] | None => [] end)
    end in
  (s, (Datagram <$> sent) ++ got, t_dead t || (writer_closed s && reader_gone s)).

(** The branch itself; the [bool] says that the loop is over. *)
Definition branch (mss : nat) (t : Turn) (s : Session) : Session * list Out * bool :=
  match t_branch t with
  | Inbound => (s, [], false)
  | InboundClosed => (s, [], true)
  | Permit =>
      match deliver s with
      | None => (s, [], false)
      | Some d =>
          if reader_gone s then (set_deliver None (scratch s) s, [], writer_closed s)
          else if (length (out s) <? CHANNEL)%nat then (set_deliver None (scratch s) (set_out (out s ++ [d]) false s), [], false)
          else (s, [], false)
      end
  | FromApp answers =>
      if t_can_send t && negb (writer_closed s) then
        match app s with
        | data :: app => let '(ps, _) := send (length data) mss answers data in (set_app app (app_closed s) s, Fed <$> ps, false)
        | [] => if app_closed s then (set_writer_closed s, [], false) else (s, [], false)
        end
      else (s, [], false)
  | Tick ok => (s, [], negb ok)
  end.

Definition turn (mss : nat) (t : Turn) (s : Session) : Session * list Out :=
  if negb (running s) then (s, [])
  else
    let '(s, o1, over) := before t s in
    if over then let '(s, o2) := finish (t_last t) s in (s, o1 ++ o2)
    else
      let '(s, o2, over) := branch mss t s in
      let s := set_queue (queue s ++ t_formed t) s in
      if over then let '(s, o3) := finish (t_last t) s in (s, o1 ++ o2 ++ o3) else (s, o1 ++ o2).

Inductive Ev : Set := Read (room : nat) | Write (buf : bytes) | Shutdown | DropStream | Drive (t : Turn).

Definition step (mss : nat) (ev : Ev) (s : Session) : Session * list Out :=
  match ev with
  | Read room =>
      if reader_gone s then (s, [])
      else let '(p, s) := poll_read room s in (s, match p with Ready (Ok b) => [ReadBytes b] | _ => [] end)
  | Write buf =>
      if reader_gone s then (s, [])
      else let '(p, s') := poll_write buf s in (s', match p with Ready (Ok n) => [Accepted (take n buf)] | _ => [] end)
  | Shutdown => if reader_gone s then (s, []) else ((poll_shutdown s).2, [])
  | DropStream => (drop_stream s, [])
  | Drive t => turn mss t s
  end.

Fixpoint run (mss : nat) (evs : list Ev) (s : Session) : Session * list Out :=
  match evs with
  | [] => (s, [])
  | ev :: evs => let '(s, o) := step mss ev s in let '(s, os) := run mss evs s in (s, o ++ os)
  end.

(** ** Pieces *)

Lemma send_all mss answers data fuel :
  (1 ≤ mss)%nat → Forall (λ a, a = true) answers → (length data ≤ fuel)%nat →
  let '(ps, ok) := send fuel mss answers data in
  concat ps = data ∧ ok = true ∧ Forall (λ p, 0 < length p ≤ mss)%nat ps.
Proof.
  intros Hm. revert answers data. induction fuel as [|fuel IH]; intros answers data Ha Hl.
  { destruct data; [done|cbn in Hl; lia]. }
  cbn [send]. destruct data as [|b data]; [done|].
  set (n := Nat.min mss (length (b :: data))). assert (1 ≤ n ≤ mss ∧ n ≤ length (b :: data))%nat as Hn by (unfold n; cbn [length]; lia).
  assert (Forall (λ a, a = true) (tail answers)) as Ht by (by destruct Ha).
  specialize (IH (tail answers) (drop n (b :: data)) Ht ltac:(rewrite length_drop; cbn [length] in *; lia)).
  destruct (send fuel mss (tail answers) (drop n (b :: data))) as [ps ok]. destruct IH as (Hc & Hok & Hf).
  destruct answers as [|[] answers]; [| |by inversion Ha].
  all: (split_and!; [cbn [concat]; rewrite Hc; apply take_drop|done|constructor; [rewrite length_take; lia|done]]).
Qed.

(** ** What happened *)

Definition accepted (os : list Out) : bytes := concat (omap (λ o, match o with Accepted b => Some b | _ => None end) os).
Definition read_bytes (os : list Out) : bytes := concat (omap (λ o, match o with ReadBytes b => Some b | _ => None end) os).
Definition fed (os : list Out) : list bytes := omap (λ o, match o with Fed b => Some b | _ => None end) os.
Definition drained (os : list Out) : bytes := concat (omap (λ o, match o with Drained b => Some b | _ => None end) os).

Lemma accepted_app a b : accepted (a ++ b) = accepted a ++ accepted b.
Proof. unfold accepted. by rewrite omap_app, concat_app. Qed.
Lemma read_app a b : read_bytes (a ++ b) = read_bytes a ++ read_bytes b.
Proof. unfold read_bytes. by rewrite omap_app, concat_app. Qed.
Lemma fed_app a b : fed (a ++ b) = fed a ++ fed b.
Proof. unfold fed. by rewrite omap_app. Qed.
Lemma drained_app a b : drained (a ++ b) = drained a ++ drained b.
Proof. unfold drained. by rewrite omap_app, concat_app. Qed.
#[local] Create Rewrite HintDb kcp_outs.
#[local] Hint Rewrite accepted_app read_app fed_app drained_app : kcp_outs.

(** Datagrams are none of these. *)
Lemma datagrams_nothing l :
  accepted (Datagram <$> l) = [] ∧ read_bytes (Datagram <$> l) = [] ∧ fed (Datagram <$> l) = [] ∧ drained (Datagram <$> l) = [].
Proof. induction l as [|x l (I1 & I2 & I3 & I4)]; [done|]. cbn. by unfold accepted, read_bytes, fed, drained in *; cbn; rewrite I1, I2, I3, I4. Qed.

Lemma fed_fed l :
  accepted (Fed <$> l) = [] ∧ read_bytes (Fed <$> l) = [] ∧ fed (Fed <$> l) = l ∧ drained (Fed <$> l) = [].
Proof. induction l as [|x l (I1 & I2 & I3 & I4)]; [done|]. cbn. by unfold accepted, read_bytes, fed, drained in *; cbn; rewrite I1, I2, I3, I4. Qed.

(** ** The invariant *)

(** Bytes on their way to the reader, past the engine. *)
Definition rest (p : option (bytes * nat)) : bytes := match p with Some (d, off) => drop off d | None => [] end.
Definition in_hand (s : Session) : bytes := rest (pending s) ++ concat (out s) ++ default [] (deliver s).

Record inv (mss : nat) (s : Session) (os : list Out) : Prop := {
  i_written : accepted os = concat (fed os) ++ concat (app s);
  i_pieces : Forall (λ p, 0 < length p ≤ mss)%nat (fed os);
  i_read : read_bytes os `prefix_of` drained os;
  i_hand : reader_gone s = false → drained os = read_bytes os ++ in_hand s;
  i_app : (length (app s) ≤ CHANNEL)%nat ∧ Forall (λ d, 0 < length d ≤ DELIVER_CHUNK)%nat (app s);
  i_out : (length (out s) ≤ CHANNEL)%nat;
  i_chunks : Forall (λ d, d ≠ []) (out s) ∧ deliver s ≠ Some [] ∧ (∀ d off, pending s = Some (d, off) → (off < length d)%nat);
  i_eof : eof s = true → running s = false ∧ pending s = None ∧ out s = [] }.

Definition agrees (ev : Ev) : Prop :=
  match ev with Drive t => match t_branch t with FromApp answers => Forall (λ a, a = true) answers | _ => True end | _ => True end.

Lemma session_start_inv mss updated : inv mss (start updated) [].
Proof. split; try done. cbn. unfold CHANNEL. split; [lia|done]. cbn. unfold CHANNEL. lia. Qed.

(** Steps that touch neither channel nor the bytes in hand. *)
Lemma inv_same mss s s' os o :
  inv mss s os → app s' = app s → out s' = out s → deliver s' = deliver s → pending s' = pending s → eof s' = eof s →
  (running s' = true → running s = true) → (reader_gone s' = false → reader_gone s = false) →
  accepted o = [] → read_bytes o = [] → fed o = [] → drained o = [] → inv mss s' (os ++ o).
Proof.
  intros [Hw Hp Hr Hh Ha Ho Hc He] Ea Eo Ed Ep Ee Hrun Hg A1 A2 A3 A4.
  split; autorewrite with kcp_outs; rewrite ?A1, ?A2, ?A3, ?A4, ?app_nil_r; unfold in_hand; rewrite ?Ea, ?Eo, ?Ed, ?Ep, ?Ee; auto.
  intros E. destruct (He E) as (Hn & ? & ?). split; [|done]. destruct (running s'); [|done]. by rewrite Hrun in Hn.
Qed.

(** *** The stream's side *)

Lemma hand_over_ok room d off s p s' :
  hand_over room d off s = (p, s') → (off < length d)%nat →
  ∃ b, p = Ready (Ok b) ∧ drop off d = b ++ rest (pending s') ∧ ((0 < room)%nat → b ≠ [])
  ∧ (∀ d' off', pending s' = Some (d', off') → (off' < length d')%nat)
  ∧ app s' = app s ∧ out s' = out s ∧ deliver s' = deliver s ∧ eof s' = eof s ∧ running s' = running s ∧ reader_gone s' = reader_gone s.
Proof.
  unfold hand_over. intros [= <- <-] Hlt. set (n := Nat.min room (length d - off)). eexists. split; [reflexivity|]. cbn [set_stream pending].
  split_and!; try done.
  - destruct (Nat.eqb_spec (off + n) (length d)) as [E|E]; cbn [rest].
    + rewrite app_nil_r. symmetry. apply take_ge. rewrite length_drop. lia.
    + rewrite <-drop_drop. symmetry. apply take_drop.
  - intros Hr E. apply (f_equal length) in E. rewrite length_take, length_drop in E. cbn in E. lia.
  - destruct (Nat.eqb_spec (off + n) (length d)) as [E|E]; [done|]. intros d' off' [= <- <-]. lia.
Qed.

Lemma inv_read mss room s os :
  inv mss s os → inv mss (step mss (Read room) s).1 (os ++ (step mss (Read room) s).2).
Proof.
  intros H. cbn [step]. destruct (reader_gone s) eqn:Eg; [by rewrite app_nil_r|].
  assert (∀ b s', app s' = app s → deliver s' = deliver s → running s' = running s → reader_gone s' = false →
    (length (out s') ≤ CHANNEL)%nat → Forall (λ d, d ≠ []) (out s') → (∀ d off, pending s' = Some (d, off) → (off < length d)%nat) →
    (eof s' = true → running s = false ∧ pending s' = None ∧ out s' = []) →
    in_hand s = b ++ in_hand s' → inv mss s' (os ++ [ReadBytes b])) as Hstep.
  { intros b s' Ea Ed Er Egg Hol Hof Hpl He Hb. destruct H as [Hw Hp Hr Hh Ha Ho Hc Heo]. specialize (Hh Eg).
    assert (accepted [ReadBytes b] = [] ∧ read_bytes [ReadBytes b] = b ∧ fed [ReadBytes b] = [] ∧ drained [ReadBytes b] = []) as (A1 & A2 & A3 & A4).
    { unfold read_bytes. cbn. by rewrite app_nil_r. }
    split; autorewrite with kcp_outs; rewrite ?A1, ?A2, ?A3, ?A4, ?app_nil_r, ?Ea, ?Ed; auto.
    - rewrite Hh, Hb, app_assoc. by apply prefix_app_r.
    - intros _. by rewrite Hh, Hb, app_assoc.
    - destruct Hc as (_ & Hd & _). by split.
    - rewrite Er. done. }
  pose proof (i_chunks _ _ _ H) as (Hc1 & Hc2 & Hc3). pose proof (i_eof _ _ _ H) as Heof. pose proof (i_out _ _ _ H) as Hout.
  unfold poll_read. destruct (pending s) as [[d off]|] eqn:Ep.
  - destruct (hand_over room d off s) as [p s'] eqn:E. pose proof (Hc3 d off eq_refl) as Hlt.
    destruct (hand_over_ok _ _ _ _ _ _ E Hlt) as (b & -> & Hb & _ & Hlt' & Ea & Eo & Ed & Ee & Er & Egg). cbn.
    apply Hstep; try done; try congruence.
    + rewrite Ee. intros Ht. by destruct (Heof Ht) as (_ & ? & _).
    + unfold in_hand. rewrite Ep, Eo, Ed. cbn [rest]. by rewrite Hb, <-app_assoc.
  - destruct (eof s) eqn:Ee; [cbn; apply Hstep; try done; naive_solver|].
    destruct (out s) as [|d o] eqn:Eo.
    + destruct (running s) eqn:Er; [cbn; by rewrite app_nil_r|]. cbn. apply Hstep; cbn; try done; rewrite ?Eo; try done.
      unfold in_hand. cbn. by rewrite Ep, Eo.
    + apply Forall_cons in Hc1 as [Hd Hc1]. destruct (hand_over room d 0 (set_out o (reader_gone s) s)) as [p s'] eqn:E.
      destruct (hand_over_ok _ _ _ _ _ _ E ltac:(destruct d; [done|cbn; lia])) as (b & -> & Hb & _ & Hlt' & Ea & Eo' & Ed & Ee' & Er & Egg).
      cbn in *. apply Hstep; try done; try congruence.
      * rewrite Eo'. lia.
      * unfold in_hand. rewrite Ep, Eo, Eo', Ed. cbn [rest concat]. rewrite drop_0 in Hb. by rewrite Hb, <-!app_assoc.
Qed.

Lemma session_write_inv mss buf s os :
  inv mss s os → inv mss (step mss (Write buf) s).1 (os ++ (step mss (Write buf) s).2).
Proof.
  intros H. cbn [step]. destruct (reader_gone s) eqn:Eg; [by rewrite app_nil_r|]. unfold poll_write. destruct buf as [|b buf].
  { cbn. by eapply inv_same. }
  destruct (app_closed s || negb (running s)); [cbn; by rewrite app_nil_r|].
  destruct (Nat.leb_spec CHANNEL (length (app s))) as [|Hlt]; [cbn; by rewrite app_nil_r|].
  set (n := Nat.min (length (b :: buf)) DELIVER_CHUNK). cbn [fst snd].
  assert (0 < length (take n (b :: buf)) ≤ DELIVER_CHUNK)%nat as Hn.
  { rewrite length_take. assert (DELIVER_CHUNK = S (pred DELIVER_CHUNK)) by (unfold DELIVER_CHUNK; lia). unfold n. cbn [length]. lia. }
  set (x := take n (b :: buf)) in *.
  assert (accepted [Accepted x] = x) as A1 by (unfold accepted; cbn; by rewrite app_nil_r).
  destruct H as [Hw Hp Hr Hh Ha Ho Hc Heo].
  split; autorewrite with kcp_outs; rewrite ?A1; cbn [set_app app out deliver pending eof running reader_gone]; rewrite ?app_nil_r; try done.
  - rewrite Hw, concat_app. cbn. by rewrite app_nil_r, app_assoc.
  - rewrite length_app. cbn. split; [lia|]. apply Forall_app. split; [apply Ha|by constructor].
Qed.

Lemma inv_drop mss s os : inv mss s os → inv mss (drop_stream s) os.
Proof.
  intros [Hw Hp Hr Hh Ha Ho Hc Heo]. split; cbn; try done; [lia|..].
  - split; [done|]. split; [apply Hc|done].
  - intros E. by destruct (Heo E).
Qed.

(** *** The driver's side *)

Lemma drain_some answers sc out d sc' :
  drain_core answers sc out = (Some d, sc') → out ≠ Some [] → d ≠ [].
Proof.
  revert sc out. induction answers as [|a answers IH]; intros sc out H Ho; cbn in H; [congruence|].
  destruct a as [[|b g]| |]; [congruence| |by eapply IH|congruence].
  assert (default [] out ++ b :: g ≠ []) as Hne by (by destruct (default [] out)).
  destruct (_ <=? _)%nat; [congruence|]. eapply IH; [exact H|]. congruence.
Qed.

Lemma inv_before mss t s os s' o over :
  inv mss s os → running s = true → before t s = (s', o, over) →
  inv mss s' (os ++ o) ∧ running s' = true ∧ (over = false → reader_gone s' = true → writer_closed s' = false).
Proof.
  intros H Hrun E. unfold before in E. destruct (pump_out (t_sends t) (queue s)) as [sent left]. cbn [set_queue deliver scratch] in E.
  destruct (datagrams_nothing sent) as (A1 & A2 & A3 & A4).
  destruct (deliver s) as [d|] eqn:Ed.
  - simplify_eq. rewrite app_nil_r. split; [by eapply inv_same|]. split; [done|]. cbn.
    intros [_ Ho]%orb_false_iff Hg. rewrite Hg, andb_true_r in Ho. done.
  - destruct (drain_core (t_recv t) (scratch s) None) as [d sc] eqn:Edr. simplify_eq. cbn.
    split; [|split; [done|]; intros [_ Ho]%orb_false_iff Hg; rewrite Hg, andb_true_r in Ho; done].
    pose proof H as [Hw Hp Hr Hh Ha Hou Hc Heo]. rewrite app_assoc.
    set (got := match d with Some b => [Drained b] | None => [] end).
    assert (accepted got = [] ∧ read_bytes got = [] ∧ fed got = [] ∧ drained got = default [] d) as (B1 & B2 & B3 & B4).
    { unfold got. destruct d; [|done]. unfold drained. cbn. by rewrite app_nil_r. }
    split; autorewrite with kcp_outs; rewrite ?A1, ?A2, ?A3, ?A4, ?B1, ?B2, ?B3, ?B4, ?app_nil_r; cbn; auto.
    + by apply prefix_app_r.
    + intros Hg. rewrite (Hh Hg). unfold in_hand. cbn. rewrite Ed. cbn. by rewrite app_nil_r, <-!app_assoc.
    + destruct Hc as (Hc1 & _ & Hc3). split_and!; try done. intros ->. by apply drain_some in Edr.
Qed.

Lemma inv_branch mss t s os s' o over :
  (1 ≤ mss)%nat → agrees (Drive t) → inv mss s os → running s = true → branch mss t s = (s', o, over) →
  inv mss s' (os ++ o) ∧ running s' = true.
Proof.
  intros Hm Hag H Hrun E. unfold branch in E. cbn in Hag. destruct (t_branch t) as [| | |answers|ok].
  - simplify_eq. by rewrite app_nil_r.
  - simplify_eq. by rewrite app_nil_r.
  - destruct (deliver s) as [d|] eqn:Ed; [|simplify_eq; by rewrite app_nil_r]. destruct (reader_gone s) eqn:Eg.
    + simplify_eq. rewrite app_nil_r. split; [|done]. destruct H as [Hw Hp Hr Hh Ha Hou Hc Heo]. split; cbn; try done; [by rewrite Eg|].
      destruct Hc as (? & _ & ?). by split_and!.
    + destruct (Nat.ltb_spec (length (out s)) CHANNEL) as [Hlt|]; [|simplify_eq; by rewrite app_nil_r].
      simplify_eq. rewrite app_nil_r. split; [|done]. destruct H as [Hw Hp Hr Hh Ha Hou Hc Heo]. split; cbn; try done.
      * intros _. rewrite (Hh Eg). unfold in_hand. cbn. rewrite Ed, concat_app. cbn. by rewrite !app_nil_r.
      * rewrite length_app. cbn. lia.
      * destruct Hc as (Hc1 & Hc2 & Hc3). split_and!; try done. apply Forall_app. split; [done|]. constructor; [|done]. intros ->. done.
      * intros E. destruct (Heo E) as [Hf _]. congruence.
  - destruct (t_can_send t && negb (writer_closed s)); [|simplify_eq; by rewrite app_nil_r].
    destruct (app s) as [|data rest'] eqn:Ea.
    { destruct (app_closed s); simplify_eq; rewrite app_nil_r; [|done]. split; [|done]. destruct H as [Hw Hp Hr Hh Ha Hou Hc Heo]. by split. }
    pose proof (send_all mss answers data (length data) Hm Hag (le_n _)) as Hs.
    destruct (send (length data) mss answers data) as [ps ok]. destruct Hs as (Hps & _ & Hf). injection E as <- <- <-. cbn. split; [|done].
    destruct (fed_fed ps) as (A1 & A2 & A3 & A4). destruct H as [Hw Hp Hr Hh Ha Hou Hc Heo]. rewrite Ea in *.
    split; autorewrite with kcp_outs; rewrite ?A1, ?A2, ?A3, ?A4, ?app_nil_r; cbn; auto.
    + rewrite Hw, concat_app, Hps. cbn [concat]. by rewrite <-app_assoc.
    + by apply Forall_app.
    + destruct Ha as [Hl Hd]. apply Forall_cons in Hd as [_ Hd]. cbn in Hl. split; [lia|done].
  - simplify_eq. by rewrite app_nil_r.
Qed.

Lemma session_finish_inv mss results s os s' o :
  inv mss s os → finish results s = (s', o) → inv mss s' (os ++ o) ∧ running s' = false.
Proof.
  intros H E. unfold finish in E. destruct (pump_out results (queue s)) as [sent left]. simplify_eq.
  destruct (datagrams_nothing sent) as (A1 & A2 & A3 & A4). split; [|done]. by eapply inv_same.
Qed.

Lemma session_step_inv mss ev s os :
  (1 ≤ mss)%nat → agrees ev → inv mss s os → inv mss (step mss ev s).1 (os ++ (step mss ev s).2).
Proof.
  intros Hm Hag H. destruct ev as [room|buf| | |t].
  - by apply inv_read.
  - by apply session_write_inv.
  - cbn. destruct (reader_gone s); cbn; rewrite app_nil_r; [done|]. destruct H as [Hw Hp Hr Hh Ha Hou Hc Heo]. by split.
  - cbn. rewrite app_nil_r. by apply inv_drop.
  - cbn [step]. unfold turn. destruct (running s) eqn:Hrun; cbn [negb]; [|cbn; by rewrite app_nil_r].
    destruct (before t s) as [[s1 o1] over1] eqn:E1. destruct (inv_before mss t s os s1 o1 over1 H Hrun E1) as (H1 & Hr1 & _).
    destruct over1.
    { destruct (finish (t_last t) s1) as [s2 o2] eqn:E2. cbn. rewrite app_assoc. by eapply session_finish_inv. }
    destruct (branch mss t s1) as [[s2 o2] over2] eqn:E2. destruct (inv_branch mss t s1 _ s2 o2 over2 Hm Hag H1 Hr1 E2) as (H2 & Hr2).
    assert (inv mss (set_queue (queue s2 ++ t_formed t) s2) ((os ++ o1) ++ o2)) as H3.
    { rewrite <-(app_nil_r ((os ++ o1) ++ o2)). by eapply inv_same. }
    destruct over2; [|cbn; by rewrite app_assoc]. destruct (finish (t_last t) _) as [s3 o3] eqn:E3. cbn. rewrite !app_assoc. by eapply session_finish_inv.
Qed.

Lemma session_run_inv mss evs s os :
  (1 ≤ mss)%nat → Forall agrees evs → inv mss s os → inv mss (run mss evs s).1 (os ++ (run mss evs s).2).
Proof.
  intros Hm Hf. revert s os. induction Hf as [|ev evs Hag _ IH]; intros s os H; cbn [run]; [cbn; by rewrite app_nil_r|].
  pose proof (session_step_inv mss ev s os Hm Hag H) as Hs. destruct (step mss ev s) as [s1 o1]. specialize (IH s1 _ Hs).
  destruct (run mss evs s1) as [s2 o2]. cbn in *. by rewrite app_assoc.
Qed.


(** ** Examples *)

Definition plain_turn (recv : list RecvAns) (b : Branch) : Ev := Drive (mkTurn recv false true b [] [] []).

Definition demo_events : list Ev :=
  [Write [1; 2; 3]; plain_turn [] (FromApp []); Write [4]; plain_turn [Got [7; 8]; Got []] Permit; Read 1; plain_turn [Got [9]] Permit; Read 5; Read 5].

Example demo_session :
  let '(s, os) := run 2 demo_events (start true) in
  fed os = [[1; 2]; [3]] ∧ app s = [[4]] ∧ read_bytes os = [7; 8; 9].
Proof. vm_compute. done. Qed.

(** A driver that is told its listener is gone while it holds bytes for the
    reader: they are lost, and the reader sees a regular end. *)
Example held_bytes_lost :
  let '(s, os) := run 2 [plain_turn [Got [7; 8]] InboundClosed; Read 5] (start true) in
  drained os = [7; 8] ∧ read_bytes os = [] ∧ eof s = true.
Proof. vm_compute. done. Qed.


End KcpSession.
