(* ===== verification/KcpListen.v ===== *)
(** * KCP listener and transporter

    Models [KcpListener] and [KcpTransporter] of src/kcp.rs: the loop that decrypts
    datagrams, undoes the error correction and hands segments to the session of
    their sender, as a transition system with the ends of sessions interleaved;
    and the client's reader and pool of dialers. *)

From stdpp Require Import base list option numbers strings gmap.
From Stdlib Require Import ZArith Lia.
From S2P Require Import Prelude MuxFrame IpAddr Socks5Addr Udp KcpCrypt KcpFec KcpFrame Ws MuxDial KcpConf.

Module KcpListen.

Definition INBOUND : nat := 256.
Definition CLOSED : nat := 64.

(** One session: the queue to its driver, and whether the driver still has the
    other end. [s_got] is all that was ever queued. *)
Record Sess : Set := mkSess { s_peer : SocketAddr; s_conv : Z; s_id : Z; s_queue : list bytes; s_open : bool; s_got : list bytes }.

Record PeerSession : Set := mkPeer { p_sess : nat; p_conv : Z; p_id : Z }.

Record Listener : Set := mkListener {
  peers : gmap SocketAddr PeerSession;
  fec : gmap SocketAddr FecDecoder;
  next_id : Z;
  sessions : list Sess;
  closed_q : list (SocketAddr * Z);
  serving : bool
}.

Definition start : Listener := mkListener ∅ ∅ 0 [] [] true.

Definition set_peers p l := mkListener p (fec l) (next_id l) (sessions l) (closed_q l) (serving l).
Definition set_fec f l := mkListener (peers l) f (next_id l) (sessions l) (closed_q l) (serving l).
Definition set_sessions ss l := mkListener (peers l) (fec l) (next_id l) ss (closed_q l) (serving l).
Definition set_closed q l := mkListener (peers l) (fec l) (next_id l) (sessions l) q (serving l).

Definition push (b : bytes) (s : Sess) : Sess := mkSess (s_peer s) (s_conv s) (s_id s) (s_queue s ++ [b]) (s_open s) (s_got s ++ [b]).
Definition pop (s : Sess) : Sess := mkSess (s_peer s) (s_conv s) (s_id s) (tail (s_queue s)) (s_open s) (s_got s).
Definition shut (s : Sess) : Sess := mkSess (s_peer s) (s_conv s) (s_id s) (s_queue s) false (s_got s).

Section listener.
Context (IKCP_OVERHEAD : nat).
Context (salsa20 : bytes → bytes → nat → bytes) (rs_new : nat → nat → bool)
        (rs_reconstruct : nat → nat → list (option bytes) → option (list (option bytes))).
Context (datashard parityshard : nat) (crypt : Crypt).

(** A new session for the sender; [setup] says whether [spawn_session] succeeded. *)
Definition new_session (setup : bool) (peer : SocketAddr) (conv : Z) (segments : bytes) (l : Listener) : Listener :=
  let id := next_id l + 1 in
  if setup then
    mkListener (<[peer := mkPeer (length (sessions l)) conv id]> (peers l)) (fec l) id
      (sessions l ++ [mkSess peer conv id [segments] true [segments]]) (closed_q l) (serving l)
  else mkListener (peers l) (fec l) id (sessions l) (closed_q l) (serving l).

(** One block of segments of a datagram. *)
Definition route (setup : bool) (peer : SocketAddr) (l : Listener) (segments : bytes) : Listener :=
  match peek_conv IKCP_OVERHEAD segments with
  | None => l
  | Some (conv, sn) =>
      match peers l !! peer with
      | Some p =>
          if p_conv p =? conv then
            match sessions l !! p_sess p with
            | Some s =>
                if negb (s_open s) then set_peers (delete peer (peers l)) l
                else if (length (s_queue s) <? INBOUND)%nat then set_sessions (<[p_sess p := push segments s]> (sessions l)) l
                else l
            | None => l
            end
          else if negb (sn =? 0) then l
          else new_session setup peer conv segments (set_peers (delete peer (peers l)) l)
      | None => new_session setup peer conv segments l
      end
  end.

(** A datagram: the sender's decoder is made first, whatever it sent. *)
Definition datagram (now : Z) (setup : bool) (peer : SocketAddr) (packet : bytes) (l : Listener) : Listener :=
  let decoder :=
    match FecDecoder_new rs_new datashard parityshard with
    | Some fresh => Some (default fresh (fec l !! peer))
    | None => None
    end in
  let '(blocks, decoder) := packet_unframe_fec IKCP_OVERHEAD salsa20 rs_reconstruct now crypt packet decoder in
  let l := match decoder with Some d => set_fec (<[peer := d]> (fec l)) l | None => l end in
  foldl (route setup peer) l blocks.

Inductive Ev : Set :=
| Datagram (now : Z) (setup : bool) (peer : SocketAddr) (packet : bytes)
| RecvErr
| DriverTakes (k : nat)     (* the driver of a session takes a block *)
| DriverEnds (k : nat)      (* and drops its end *)
| TaskEnds (k : nat)        (* the task that handles a session tells the loop *)
| SeeClosed
| SeeCancel.

Definition step (ev : Ev) (l : Listener) : Listener :=
  match ev with
  | Datagram now setup peer packet => if serving l then datagram now setup peer packet l else l
  | RecvErr => l
  | DriverTakes k => set_sessions (alter pop k (sessions l)) l
  | DriverEnds k => set_sessions (alter shut k (sessions l)) l
  | TaskEnds k =>
      match sessions l !! k with
      | Some s => if (length (closed_q l) <? CLOSED)%nat then set_closed (closed_q l ++ [(s_peer s, s_id s)]) l else l
      | None => l
      end
  | SeeClosed =>
      match closed_q l with
      | (peer, id) :: q =>
          let l := set_closed q l in
          if serving l && bool_decide (p_id <$> peers l !! peer = Some id)
          then set_fec (delete peer (fec l)) (set_peers (delete peer (peers l)) l) else l
      | [] => l
      end
  | SeeCancel => mkListener ∅ (fec l) (next_id l) (sessions l) (closed_q l) false
  end.

Definition run (evs : list Ev) (l : Listener) : Listener := foldl (λ l ev, step ev l) l evs.

(** ** The client *)

(** The reader of a client's session: what it hands to the driver for each
    datagram, until the driver is gone. *)
Fixpoint client_reader (dec : option FecDecoder) (recvs : list (option (Z * bytes))) : list bytes :=
  match recvs with
  | [] => []
  | None :: recvs => client_reader dec recvs
  | Some (now, packet) :: recvs =>
      let '(blocks, dec) := packet_unframe_fec IKCP_OVERHEAD salsa20 rs_reconstruct now crypt packet dec in
      blocks ++ client_reader dec recvs
  end.

(** ** Routing *)

(** Entries lead to sessions of their address and conversation; sessions have
    different ids, and got segments of their own conversation only. *)
Record inv (l : Listener) : Prop := {
  i_peers a p : peers l !! a = Some p →
    ∃ s, sessions l !! p_sess p = Some s ∧ s_peer s = a ∧ s_conv s = p_conv p ∧ s_id s = p_id p;
  i_ids k s : sessions l !! k = Some s → s_id s ≤ next_id l;
  i_unique k k' s s' : sessions l !! k = Some s → sessions l !! k' = Some s' → s_id s = s_id s' → k = k';
  i_got k s b : sessions l !! k = Some s → b ∈ s_got s → ∃ sn, peek_conv IKCP_OVERHEAD b = Some (s_conv s, sn);
  i_queue k s : sessions l !! k = Some s → (length (s_queue s) ≤ INBOUND)%nat;
  i_closed a id : (a, id) ∈ closed_q l → ∃ k s, sessions l !! k = Some s ∧ s_peer s = a ∧ s_id s = id }.

Lemma listen_start_inv : inv start.
Proof. split; cbn; try done. intros a id H. by apply not_elem_of_nil in H. Qed.

(** A session changes without changing whose it is. *)
Definition same (s s' : Sess) : Prop := s_peer s' = s_peer s ∧ s_conv s' = s_conv s ∧ s_id s' = s_id s.

Lemma inv_alter l f k :
  (∀ s, sessions l !! k = Some s → same s (f s) ∧ (length (s_queue (f s)) ≤ INBOUND)%nat
     ∧ ∀ b, b ∈ s_got (f s) → ∃ sn, peek_conv IKCP_OVERHEAD b = Some (s_conv s, sn)) →
  inv l → inv (set_sessions (alter f k (sessions l)) l).
Proof.
  intros Hf [Hp Hi Hu Hg Hq Hc].
  assert (∀ j s', alter f k (sessions l) !! j = Some s' → ∃ s, sessions l !! j = Some s ∧ same s s' ∧ (length (s_queue s') ≤ INBOUND)%nat
     ∧ ∀ b, b ∈ s_got s' → ∃ sn, peek_conv IKCP_OVERHEAD b = Some (s_conv s, sn)) as Hback.
  { intros j s' H. destruct (decide (j = k)) as [->|Hne].
    - rewrite list_lookup_alter_eq in H. apply fmap_Some in H as (s & Hs & ->). exists s. split; [done|]. by apply Hf.
    - rewrite list_lookup_alter_ne in H by done. exists s'. split_and!; try done; [by apply Hq in H|]. intros b. by apply Hg with j. }
  assert (∀ j s, sessions l !! j = Some s → ∃ s', alter f k (sessions l) !! j = Some s' ∧ same s s') as Hfwd.
  { intros j s H. destruct (decide (j = k)) as [->|Hne].
    - rewrite list_lookup_alter_eq, H. exists (f s). split; [done|]. by apply Hf.
    - rewrite list_lookup_alter_ne by done. exists s. by split_and!. }
  split; cbn.
  - intros a p H. destruct (Hp a p H) as (s & Hs & H1 & H2 & H3). destruct (Hfwd _ _ Hs) as (s' & Hs' & E1 & E2 & E3). exists s'. split_and!; congruence.
  - intros j s H. destruct (Hback j s H) as (s0 & H0 & (_ & _ & ->) & _). by apply Hi in H0.
  - intros j j' s s' H H' E. destruct (Hback j s H) as (s0 & H0 & (_ & _ & E0) & _). destruct (Hback j' s' H') as (s1 & H1 & (_ & _ & E1) & _).
    eapply Hu; [done..|congruence].
  - intros j s b H Hb. destruct (Hback j s H) as (s0 & H0 & (_ & -> & _) & _ & Hgot). by apply Hgot.
  - intros j s H. by destruct (Hback j s H) as (s0 & H0 & _ & ? & _).
  - intros a id H. destruct (Hc a id H) as (j & s & Hs & H1 & H2). destruct (Hfwd _ _ Hs) as (s' & Hs' & E1 & E2 & E3). exists j, s'. split_and!; congruence.
Qed.

Lemma inv_fewer l p : p ⊆ peers l → inv l → inv (set_peers p l).
Proof. intros Hs [Hp Hi Hu Hg Hq Hc]. split; cbn; try done. intros a x H. apply Hp. by eapply lookup_weaken. Qed.

Lemma listen_new_inv setup peer conv sn segments l :
  peek_conv IKCP_OVERHEAD segments = Some (conv, sn) → inv l → inv (new_session setup peer conv segments l).
Proof.
  intros Hk [Hp Hi Hu Hg Hq Hc]. unfold new_session. destruct setup.
  2: { split; cbn; try done. intros k s H%Hi. lia. }
  assert (∀ k s, (sessions l ++ [mkSess peer conv (next_id l + 1) [segments] true [segments]]) !! k = Some s →
    sessions l !! k = Some s ∨ (k = length (sessions l) ∧ s = mkSess peer conv (next_id l + 1) [segments] true [segments])) as Hlk.
  { intros k s [H|[Hge H]]%lookup_app_Some; [by left|right]. destruct (k - length (sessions l))%nat eqn:E; [|done]. injection H as <-.
    split; [lia|done]. }
  split; cbn.
  - intros a p. rewrite lookup_insert. case_decide as Ha.
    + intros [= <-]. subst a. cbn. eexists. rewrite lookup_app_r, Nat.sub_diag by lia. by split_and!.
    + intros H. destruct (Hp a p H) as (s & Hs & ?). exists s. split; [by apply lookup_app_l_Some|done].
  - intros k s [H%Hi|[_ ->]]%Hlk; cbn; lia.
  - intros k k' s s' [H|[-> ->]]%Hlk [H'|[-> ->]]%Hlk; cbn; try done.
    + by eapply Hu.
    + intros E. apply Hi in H. lia.
    + intros E. apply Hi in H'. lia.
  - intros k s b [H|[_ ->]]%Hlk; [by eapply Hg|]. cbn. intros ->%list_elem_of_singleton. eauto.
  - intros k s [H|[_ ->]]%Hlk; [by eapply Hq|]. cbn. unfold INBOUND. lia.
  - intros a id H. destruct (Hc a id H) as (k & s & Hs & ?). exists k, s. split; [by apply lookup_app_l_Some|done].
Qed.

Lemma inv_route setup peer l segments : inv l → inv (route setup peer l segments).
Proof.
  intros H. unfold route. destruct (peek_conv IKCP_OVERHEAD segments) as [[conv sn]|] eqn:Ek; [|done].
  destruct (peers l !! peer) as [p|] eqn:Ep; [|by eapply listen_new_inv].
  destruct (Z.eqb_spec (p_conv p) conv) as [Hc|_].
  - destruct (sessions l !! p_sess p) as [s|] eqn:Es; [|done]. destruct (s_open s); cbn [negb].
    2: { apply inv_fewer; [apply delete_subseteq|done]. }
    destruct (Nat.ltb_spec (length (s_queue s)) INBOUND) as [Hlt|]; [|done].
    assert (<[p_sess p := push segments s]> (sessions l) = alter (push segments) (p_sess p) (sessions l)) as ->.
    { apply list_eq. intros j. destruct (decide (j = p_sess p)) as [->|Hne].
      - rewrite list_lookup_insert_eq by (by eapply lookup_lt_Some). by rewrite list_lookup_alter_eq, Es.
      - by rewrite list_lookup_insert_ne, list_lookup_alter_ne. }
    apply inv_alter; [|done]. intros s' Hs'. rewrite Es in Hs'. injection Hs' as <-. split; [by split_and!|]. cbn. split; [rewrite length_app; cbn; lia|].
    intros b [Hb| ->%list_elem_of_singleton]%elem_of_app; [by eapply i_got|]. exists sn. destruct (i_peers l H _ _ Ep) as (s0 & Hs0 & _ & Hcv & _). congruence.
  - destruct (negb (sn =? 0)); [done|]. eapply listen_new_inv; [done|]. apply inv_fewer; [apply delete_subseteq|done].
Qed.

Lemma inv_datagram now setup peer packet l : inv l → inv (datagram now setup peer packet l).
Proof.
  intros H. unfold datagram. set (dec := match FecDecoder_new _ _ _ with Some _ => _ | None => _ end).
  destruct (packet_unframe_fec _ _ _ _ _ _ _) as [blocks dec']. assert (inv (match dec' with Some d => set_fec (<[peer := d]> (fec l)) l | None => l end)) as H1
    by (destruct dec'; [destruct H; by split|done]).
  revert H1. generalize (match dec' with Some d => set_fec (<[peer := d]> (fec l)) l | None => l end). clear H dec.
  induction blocks as [|b blocks IH]; intros m Hm; [done|]. cbn. by apply IH, inv_route.
Qed.

Lemma listen_step_inv ev l : inv l → inv (step ev l).
Proof.
  intros H. destruct ev as [now setup peer packet| |k|k|k| |]; cbn [step].
  - destruct (serving l); [by apply inv_datagram|done].
  - done.
  - apply inv_alter; [|done]. intros s Hs. split_and!; try done; cbn; [|intros b; by eapply i_got].
    pose proof (i_queue l H k s Hs). destruct (s_queue s); cbn in *; lia.
  - apply inv_alter; [|done]. intros s Hs. split_and!; try done; cbn; [by eapply i_queue|intros b; by eapply i_got].
  - destruct (sessions l !! k) as [s|] eqn:Es; [|done]. destruct (_ <? _)%nat; [|done]. destruct H as [Hp Hi Hu Hg Hq Hc]. split; cbn; try done.
    intros a id [Hin|[= -> ->]%list_elem_of_singleton]%elem_of_app; [by apply Hc|eauto].
  - destruct (closed_q l) as [|[a id] q] eqn:Eq; [done|].
    assert (inv (set_closed q l)) as H1.
    { destruct H as [Hp Hi Hu Hg Hq Hc]. split; cbn; try done. intros x y Hin. apply Hc. rewrite Eq. by right. }
    destruct (_ && _); [|done]. apply (inv_fewer (set_closed q l) (delete a (peers l))) in H1; [|apply delete_subseteq].
    destruct H1 as [Hp Hi Hu Hg Hq Hc]. by split.
  - destruct H as [Hp Hi Hu Hg Hq Hc]. by split.
Qed.

Lemma listen_run_inv evs l : inv l → inv (run evs l).
Proof. revert l. induction evs as [|ev evs IH]; intros l H; [done|]. by apply IH, listen_step_inv. Qed.

(** What a sender does leaves the others alone. *)
Definition apart (peer : SocketAddr) (l l' : Listener) : Prop :=
  (∀ a, a ≠ peer → peers l' !! a = peers l !! a)
  ∧ (∀ k s, sessions l !! k = Some s → s_peer s ≠ peer → sessions l' !! k = Some s).

Lemma new_apart setup peer conv segments l : apart peer l (new_session setup peer conv segments l).
Proof.
  unfold new_session. destruct setup; [|done]. split; cbn; [intros a Ha; by rewrite lookup_insert_ne|]. intros k s H _. by apply lookup_app_l_Some.
Qed.

Lemma route_apart setup peer l segments : inv l → apart peer l (route setup peer l segments).
Proof.
  intros H. unfold route. destruct (peek_conv IKCP_OVERHEAD segments) as [[conv sn]|]; [|done].
  destruct (peers l !! peer) as [p|] eqn:Ep; [|apply new_apart]. destruct (Z.eqb_spec (p_conv p) conv).
  - destruct (sessions l !! p_sess p) as [s|] eqn:Es; [|done]. destruct (s_open s); cbn [negb].
    + destruct (_ <? _)%nat; [|done]. split; cbn; [done|]. intros k s' Hs' Hne. rewrite list_lookup_insert_ne; [done|]. intros <-.
      destruct (i_peers l H _ _ Ep) as (s0 & Hs0 & Hp & _). congruence.
    + split; cbn; [|done]. intros a Ha. by rewrite lookup_delete_ne.
  - destruct (negb (sn =? 0)); [done|]. destruct (new_apart setup peer conv segments (set_peers (delete peer (peers l)) l)) as [H1 H2].
    split; [|exact H2]. intros a Ha. rewrite H1 by done. cbn. by rewrite lookup_delete_ne.
Qed.

Lemma datagram_apart now setup peer packet l : inv l → apart peer l (datagram now setup peer packet l).
Proof.
  intros H. unfold datagram. destruct (packet_unframe_fec _ _ _ _ _ _ _) as [blocks dec'].
  set (m := match dec' with Some d => set_fec (<[peer := d]> (fec l)) l | None => l end).
  assert (inv m ∧ apart peer l m) as [Hm Ha] by (unfold m; destruct dec'; split; try done; destruct H; by split).
  clearbody m. clear dec'. revert m Hm Ha. induction blocks as [|b blocks IH]; intros m Hm [Ha1 Ha2]; [done|]. cbn.
  destruct (route_apart setup peer m b Hm) as [Hr1 Hr2]. apply IH; [by apply inv_route|]. split.
  - intros a Hne. by rewrite Hr1, Ha1.
  - intros k s Hs Hne. apply Hr2; [by apply Ha2|done].
Qed.

(** Nothing comes out of a datagram whose checksum is wrong. *)
Lemma unframe_refused now packet dec :
  open_packet salsa20 crypt packet = None →
  packet_unframe_fec IKCP_OVERHEAD salsa20 rs_reconstruct now crypt packet dec = ([], dec).
Proof. intros H. unfold packet_unframe_fec, packet_unframe. rewrite H. by destruct dec. Qed.


End listener.

(** [KcpTransporter]: its validated configuration and its pool. *)
Record KcpTransporter : Type := mkTransporter { t_config : KcpConf.KcpConfig; t_crypt : Crypt; t_mux : MuxConfig; t_pool : MuxDial.MuxDialerPool }.

Section transporter.
Context (IKCP_OVERHEAD : nat) (pbkdf2 : bytes → bytes → Z → nat → bytes) (new_cipher : string → bytes → option BlockEnc).

Definition transporter_new (config : KcpConf.KcpConfig) : result KcpConf.ConfErr KcpTransporter :=
  let config := KcpConf.init config in
  _ <-? KcpConf.validate IKCP_OVERHEAD pbkdf2 new_cipher config ;;
  match Crypt_new pbkdf2 new_cipher (KcpConf.key config) (KcpConf.crypt config) KCP_SALT with
  | Err name => Err (KcpConf.BadCrypt name)
  | Ok c =>
      match KcpConf.mux_config config with
      | Err e => Err (KcpConf.BadMux e)
      | Ok mux => Ok (mkTransporter config c mux MuxDial.pool_new)
      end
  end.

(** [KcpListener::new]: what a listener is made of; [bind] is the system's answer. *)
Definition listener_new (bind : result io_error ()) (config : KcpConf.KcpConfig) :
    result (KcpConf.ConfErr + io_error) (KcpConf.KcpConfig * Crypt * MuxDial.MuxHandler) :=
  let config := KcpConf.init config in
  match KcpConf.validate IKCP_OVERHEAD pbkdf2 new_cipher config, bind with
  | Err e, _ => Err (inl e)
  | Ok _, Err e => Err (inr e)
  | Ok _, Ok _ =>
      match Crypt_new pbkdf2 new_cipher (KcpConf.key config) (KcpConf.crypt config) KCP_SALT, KcpConf.mux_config config with
      | Err name, _ => Err (inl (KcpConf.BadCrypt name))
      | _, Err e => Err (inl (KcpConf.BadMux e))
      | Ok c, Ok mux => Ok (config, c, MuxDial.mkHandler mux 0)
      end
  end.

Definition dialer (addr : bytes) (t : KcpTransporter) : result io_error nat * KcpTransporter :=
  let '(r, pool) := MuxDial.get_or_create addr (t_mux t) (t_pool t) in
  (r, mkTransporter (t_config t) (t_crypt t) (t_mux t) pool).

Definition remove (addr : bytes) (t : KcpTransporter) : option nat * KcpTransporter :=
  let '(r, pool) := MuxDial.remove addr (t_pool t) in (r, mkTransporter (t_config t) (t_crypt t) (t_mux t) pool).

(** Once a configuration is valid only the socket can keep a listener from
    starting, and the other side's transporter takes the same configuration. *)
Lemma listener_starts config :
  KcpConf.validate IKCP_OVERHEAD pbkdf2 new_cipher (KcpConf.init config) = Ok () →
  is_ok (listener_new (Ok ()) config) = true ∧ is_ok (transporter_new config) = true.
Proof.
  intros H. unfold listener_new, transporter_new, rbind. rewrite H. unfold KcpConf.validate in H. repeat case_hyp H; done.
Qed.

(** A transporter that was made can make a dialer for any address: its
    configuration was checked. *)
Lemma transporter_dials config t addr :
  transporter_new config = Ok t → ∃ i t', dialer addr t = (Ok i, t').
Proof.
  unfold transporter_new, rbind. destruct (KcpConf.validate _ _ _ _); [|done]. destruct (Crypt_new _ _ _ _ _); [|done].
  destruct (KcpConf.mux_config (KcpConf.init config)) as [mux|] eqn:E; [|done]. intros [= <-]. unfold dialer. cbn.
  unfold MuxDial.get_or_create. cbn. rewrite lookup_empty. unfold MuxDial.new, rbind.
  assert (verify mux = Ok ()) as Hv.
  { unfold KcpConf.mux_config, MuxDial.mux_config_from_values, rbind in E. destruct (_ <? _); [done|].
    destruct (verify _) as [[]|] eqn:Ev; [|done]. by injection E as <-. }
  rewrite Hv. eauto.
Qed.

End transporter.

(** ** Examples *)

Definition demo_peer (n : Z) : SocketAddr := mkAddr (V4 [10; 0; 0; n]) 4000.
Definition demo_run (evs : list Ev) : Listener :=
  run 24 (λ _ _ n, replicate n 0) (λ _ _, true) (λ _ _ _, None) 2 1 CryptNone evs start.

(** Every address something comes from gets a decoder, even for bytes no peer has
    sealed, and nothing ever takes it away again. *)
Example garbage_keeps_decoder :
  let l := demo_run [Datagram 0 true (demo_peer 1) [1]; Datagram 0 true (demo_peer 2) [2]; Datagram 0 true (demo_peer 3) (replicate 40 9)] in
  size (fec l) = 3%nat ∧ peers l = ∅ ∧ sessions l = [].
Proof. vm_compute. done. Qed.

End KcpListen.
