(* ===== verification/Auto.v ===== *)
(** * Protocol detection

    [AutoHandler] of src/handler.rs: the first byte of a connection, looked at
    without being consumed, decides which handler serves it. *)

From stdpp Require Import base list option numbers strings sets.
From Stdlib Require Import ZArith Lia.
From S2P Require Import Prelude Text Utf8 IpAddr Permissions Conn Socks5Addr Effects Socks5 Socks4 HttpConnect Words HttpDate SniHello Http.

Section auto.
Context (opts : Http.Options) (env : Env) (henv : Http.HttpEnv).
Let o : HandlerOptions := Http.base opts.

Definition connection_closed : HandlerError := Io (IoError UnexpectedEof "connection closed").

Definition auto_handle : act () :=
  peek_buf <- say (cmap_err Io (peek 1)) ;;
  match peek_buf with
  | [] => afail connection_closed
  | b :: _ =>
      if b =? 5 then Socks5.handle o env
      else if b =? 4 then if requires_auth o then afail AuthFailed else Socks4.handle o env
      else Http.handle opts henv
  end.

Lemma peek_one c b c' :
  rx_end c = None → peek 1 c = (Ok b, c') →
  incoming c' = incoming c ∧ b = take 1 (incoming c).
Proof.
  intros He H. unfold peek in H. destruct (peek_loop 2 1 c) as [[[]|e] c1] eqn:E; simplify_eq.
  destruct (peek_loop_spec 1 1 c c') as (Hi & _ & _ & Hl); [lia|done|exact E|]. split; [done|].
  rewrite <-Hi. unfold incoming. destruct (prefix c') as [|x p]; [|done]. by rewrite Hl by (cbn; lia).
Qed.

End auto.

(** A listener that detects the protocol acts on the network only through the
    handler its client's first byte selects, which still sees that byte: as
    SOCKS5 within [socks5_safe]'s terms, credentials included; as SOCKS4, which
    has none, only if no credentials are configured; as HTTP within [http_safe]'s. *)
Theorem auto_safe opts env henv c r w :
  rx_end c = None → auto_handle opts env henv (mkWorld c []) = (r, w) →
  w_trace w = []
  ∨ (∃ b rest c', incoming c = b :: rest ∧ incoming c' = incoming c
     ∧ ((b = 5 ∧ ∃ c1 cmd target c2, logged_in (Http.base opts) env c' c1 ∧ read_request c1 = (Ok (cmd, target), c2)
           ∧ Forall (action_ok (Http.base opts) env cmd target) (w_trace w))
        ∨ (b = 4 ∧ requires_auth (Http.base opts) = false
           ∧ ∃ rq c2, Socks4.read_request c' = (Ok rq, c2) ∧ Forall (Socks4.action_ok (Http.base opts) env rq) (w_trace w))
        ∨ (b ≠ 5 ∧ b ≠ 4 ∧ ∃ rq c2, Http.read_head henv c' = (Ok (Some rq), c2) ∧ Forall (Http.action_ok opts henv rq) (w_trace w)))).
Proof.
  intros He H. unfold auto_handle, abind, say, cmap_err in H. cbn [w_conn w_trace] in H.
  destruct (peek 1 c) as [[b|e] c'] eqn:Ep; [|simplify_eq; by left].
  destruct (peek_one _ _ _ He Ep) as [Hi Hb]. subst b. destruct (incoming c) as [|b rest] eqn:Ei; cbn [take] in H.
  { left. unfold afail in H. by simplify_eq. }
  destruct (Z.eqb_spec b 5) as [->|H5]; [|destruct (Z.eqb_spec b 4) as [->|H4]].
  - destruct (socks5_safe_run (Http.base opts) env c' r w H) as [?|Hs]; [by left|]. right. exists 5, rest, c'. split_and!; [done..|]. by left.
  - destruct (requires_auth (Http.base opts)) eqn:Er; [left; unfold afail in H; by simplify_eq|].
    unfold Socks4.handle, abind, say in H. cbn [w_conn w_trace] in H.
    destruct (Socks4.read_request c') as [[rq|e] c2] eqn:Eq; [|left; by simplify_eq].
    apply Socks4.dispatch4_allowed in H as (evs & E & Hf). cbn [w_trace app] in E. rewrite <-E in Hf.
    right. exists 4, rest, c'. split_and!; [done..|]. right. left. split_and!; [done..|]. by exists rq, c2.
  - destruct (Http.http_run opts henv c' r w H) as [?|(rq & c2 & Hr & Hf)]; [by left|].
    right. exists b, rest, c'. split_and!; [done..|]. right. right. split_and!; [done..|]. by exists rq, c2.
Qed.

Lemma auto_safe_witness :
  let c := talk demo_hello [] in
  let opts := Http.mkHttpOptions demo_server [] [] [] in
  let '(r, w) := auto_handle opts demo_env Http.demo_henv (mkWorld c []) in
  r = Ok tt ∧ w_trace w ≠ [] ∧ ∃ rest c', incoming c = 5 :: rest ∧ incoming c' = incoming c
    ∧ ∃ c1 cmd target c2, logged_in demo_server demo_env c' c1 ∧ read_request c1 = (Ok (cmd, target), c2)
      ∧ Forall (action_ok demo_server demo_env cmd target) (w_trace w).
Proof.
  intros c opts. destruct (auto_handle opts demo_env Http.demo_henv (mkWorld c [])) as [r w] eqn:E.
  assert (r = Ok tt ∧ w_trace w ≠ []) as [? Hw] by (vm_compute in E; by simplify_eq).
  destruct (auto_safe opts demo_env Http.demo_henv c r w eq_refl E) as [Hz|(b & rest & c' & Hb & Hi & Hs)]; [contradiction|].
  assert (b = 5) as -> by (vm_compute in Hb; congruence).
  split; [assumption|]. split; [assumption|]. exists rest, c'. split; [exact Hb|]. split; [exact Hi|].
  destruct Hs as [[_ Hs]|[[Hs _]|[Hs _]]]; [exact Hs|discriminate Hs|congruence].
Defined.
