(* ===== verification/Chain.v ===== *)
(** * Proxy chains

    [Chain] of src/chain.rs: the retry rule of [dial_with_options], name
    resolution, the walk over the hops ([dial_once]), the transport and protocol
    of a hop ([layer_transport], [connect_via]) and its SOCKS connectors. TCP,
    TLS, WebSocket, HTTP/2, QUIC, KCP, SSH and Shadowsocks hops are parameters;
    the steps taken towards the target are recorded, so that the route of a
    dial can be stated. *)

From stdpp Require Import base list option numbers gmap strings sets.
From Stdlib Require Import ZArith Lia.
From S2P Require Import Prelude Text Utf8 IpAddr Node Hosts Permissions Conn Socks5Addr Socks5Tunnel Effects Socks5 Relay HttpConnect.

Module Chain.

(** ** Addresses *)

(** [split_host_port] of src/chain.rs. *)
Definition split_host_port (addr : bytes) : result ChainError (bytes * Z) :=
  hp <-? (match strip_prefix [ch_lbracket] addr with
          | Some rest =>
              match split_once ch_rbracket rest with
              | None => Err (chain_proxy "unbalanced IPv6 brackets")
              | Some (host, rest) =>
                  match strip_prefix [ch_colon] rest with
                  | None => Err (chain_proxy "missing port")
                  | Some port => Ok (host, port)
                  end
              end
          | None =>
              match rfind_char ch_colon addr with
              | None => Err (chain_proxy "invalid target address")
              | Some i => Ok (take i addr, drop (S i) addr)
              end
          end) ;;
  match parse_u16 hp.2 with
  | None => Err (chain_proxy "invalid port")
  | Some port => Ok (hp.1, port)
  end.

Definition join_host_port (host : bytes) (port : Z) : bytes :=
  if contains_char ch_colon host && negb (starts_with [ch_lbracket] host)
  then [ch_lbracket] ++ host ++ [ch_rbracket; ch_colon] ++ show_int port
  else host ++ [ch_colon] ++ show_int port.

Definition DIAL_TIMEOUT : Z := 5.

Definition is_mux_transport (transport : bytes) : bool :=
  bool_decide (transport ∈ [str "mtls"; str "mws"; str "mwss"]).

(** The name presented to a hop's transport. *)
Definition hop_hostname (node : Node) : bytes :=
  match Node_get node (str "host") with
  | Some (x :: h) => x :: h
  | _ => match split_host_port (Node.addr node) with Ok (h, _) => h | Err _ => str "localhost" end
  end.

(** ** SOCKS connectors of a hop *)

Definition c_read (n : nat) : conv ChainError bytes := cmap_err ChainIo (read_exact n).
Definition c_write (b : bytes) : conv ChainError () := cmap_err ChainIo (write_all b).

(** A byte as [0x{:02X}]. *)
Definition upper_hex (d : Z) : Z := if d <? 10 then 48 + d else 55 + d.
Definition hex_byte (b : Z) : bytes := str "0x" ++ [upper_hex (b / 16); upper_hex (b mod 16)].

Definition socks4_connect (target : bytes) (user : option Credentials) (allow_domain : bool) : conv ChainError () :=
  hp <~ clift (split_host_port target) ;;
  dest <~ (match parse_ipv4 hp.1 with
           | Some ip => cret (ip, None)
           | None =>
               if allow_domain then cret ([0; 0; 0; 1], Some hp.1)
               else cfail (chain_proxy "SOCKS4 requires an IPv4 target address; use socks4a for domains")
           end) ;;
  c_write ([4; 1] ++ to_be 2 hp.2 ++ dest.1 ++ match user with Some (name, _) => name | None => [] end ++ [0]
           ++ match dest.2 with Some domain => domain ++ [0] | None => [] end) ;;!
  resp <~ c_read 8 ;;
  if negb (nth 1 resp 0 =? 90)
  then cfail (ProxyError (str "SOCKS4 connect rejected with code: " ++ hex_byte (nth 1 resp 0))) else
  cret tt.

Section hops.
(** A TLS client session over a connection, or why there is none; and base64. *)
Context (tls_connect : bytes → Conn → result bytes Conn) (base64 : bytes → bytes).

Definition offered_methods (node : Node) : bytes :=
  [METHOD_NO_AUTH] ++ (match Node.user node with Some _ => [METHOD_USER_PASS] | None => [] end)
  ++ (if get_bool node (str "notls") then [] else [METHOD_TLS]).

Definition hop_tls (node : Node) : conv ChainError () := λ c,
  match tls_connect (hop_hostname node) c with
  | Ok c' => (Ok tt, c')
  | Err e =>
      (Err (ProxyError (str "SOCKS5 TLS handshake with " ++ hop_hostname node ++ str " failed: " ++ e)), c)
  end.

Definition hop_login (user : option Credentials) : conv ChainError () :=
  match user with
  | None => cfail (chain_proxy "proxy requires credentials but none were configured")
  | Some u =>
      if (255 <? length (u.1))%nat || (255 <? length (default [] (u.2)))%nat
      then cfail (chain_proxy "SOCKS5 username/password exceeds 255 bytes") else
      c_write (auth_request u) ;;!
      reply <~ c_read 2 ;;
      if negb (nth 1 reply 0 =? 0) then cfail (chain_proxy "SOCKS5 authentication rejected") else cret tt
  end.

(** [socks5_connect]; the address in its request is laid out as in
    src/socks5.rs. *)
Definition socks5_connect (target : bytes) (node : Node) : conv ChainError () :=
  let methods := offered_methods node in
  c_write ([5; u8 (zlen methods)] ++ methods) ;;!
  buf <~ c_read 2 ;;
  if negb (nth 0 buf 0 =? 5) then cfail (chain_proxy "SOCKS5 handshake failed") else
  let method := nth 1 buf 0 in
  (if (method =? METHOD_TLS) || (method =? METHOD_TLS_AUTH) then hop_tls node else cret tt) ;;!
  (if (method =? METHOD_NO_AUTH) || (method =? METHOD_TLS) then cret tt
   else if (method =? METHOD_USER_PASS) || (method =? METHOD_TLS_AUTH) then hop_login (Node.user node)
   else if method =? METHOD_NO_ACCEPTABLE
   then cfail (chain_proxy "SOCKS5 proxy rejected all offered authentication methods")
   else cfail (ProxyError (str "SOCKS5 proxy selected unsupported auth method " ++ hex_byte method))) ;;!
  hp <~ clift (split_host_port target) ;;
  c_write ([5; 1; 0] ++ encode_address hp.1 hp.2) ;;!
  resp <~ c_read 4 ;;
  if negb (nth 1 resp 0 =? 0)
  then cfail (ProxyError (str "SOCKS5 connect failed with code: " ++ show_int (nth 1 resp 0))) else
  let atyp := nth 3 resp 0 in
  if atyp =? 1 then c_read 6 ;;! cret tt
  else if atyp =? 3 then len <~ c_read 1 ;; c_read (Z.to_nat (nth 0 len 0) + 2) ;;! cret tt
  else if atyp =? 4 then c_read 18 ;;! cret tt
  else cret tt.

End hops.

(** ** The walk over the hops *)

(** What a dial does, in order: it connects a socket, opens a stream on a hop's
    session or a channel on its SSH session, layers a transport, asks a hop for
    an address, or passes through it. *)
Inductive Step : Type :=
| ConnectTo (addr : bytes)
| OpenSession (node : Node)
| OpenChannel (node : Node) (target : bytes)
| Layer (node : Node)
| Ask (node : Node) (target : bytes)
| Through (node : Node).

(** The network of one attempt. [tcp_connect] connects to an address,
    [lookup_host] resolves one, [socket_connect] connects a socket that was
    given a mark and an interface first, each within the timeout it is given.
    [layer] is a transport of [layer_transport]
    other than plain TCP, [session] a hop of a multiplexed, QUIC or KCP
    transport, [other_connector] the connector of an sni, http2 or ss hop. *)
Record Net : Type := mkNet {
  tcp_connect : Z → bytes → result ChainError Conn;
  lookup_host : Z → bytes → result ChainError (list SocketAddr);
  socket_connect : Z → Z → bytes → SocketAddr → result ChainError Conn;
  session : Z → Node → result ChainError Conn;
  ssh_channel : Z → Node → bytes → result ChainError Conn;
  layer : Node → Conn → result ChainError Conn;
  other_connector : Node → bytes → Conn → result ChainError Conn;
  tls_connect : bytes → Conn → result bytes Conn;
  base64 : bytes → bytes;
}.

(** [Chain], as far as dialling uses it; [hosts] and [resolver] answer for a
    name. A node group is its list of nodes. *)
Record Chain : Type := mkChain {
  retries : nat;
  mark : Z;
  interface : bytes;
  timeout : Z;
  hosts : option Hosts;
  resolver : option (bytes → result () (list IpAddr));
  node_groups : list (list Node);
}.

(** [Chain::new] and [Chain::empty]. *)
Definition Chain_new (ns : list Node) : Chain := mkChain 0 0 [] 0 None None ((λ n, [n]) <$> ns).
Definition Chain_empty : Chain := mkChain 0 0 [] 0 None None [].

Record ChainOptions : Type := mkChainOptions {
  o_retries : nat; o_timeout : Z; o_hosts : option Hosts; o_resolver : option (bytes → result () (list IpAddr)) }.

Definition is_empty (c : Chain) : bool := match node_groups c with [] => true | _ => false end.
(** The first node of each group that has one. *)
Definition nodes (c : Chain) : list Node := omap head (node_groups c).
Definition last_node (c : Chain) : option Node := last (node_groups c) ≫= head.
Definition add_node (n : Node) (c : Chain) : Chain :=
  mkChain (retries c) (mark c) (interface c) (timeout c) (hosts c) (resolver c) (node_groups c ++ [[n]]).
Definition add_node_group (g : list Node) (c : Chain) : Chain :=
  mkChain (retries c) (mark c) (interface c) (timeout c) (hosts c) (resolver c) (node_groups c ++ [g]).

Definition default_options (c : Chain) : ChainOptions := mkChainOptions (retries c) (timeout c) (hosts c) (resolver c).

(** The hosts table first, then the name servers, then the address as it is. *)
Definition resolve (addr : bytes) (resolver : option (bytes → result () (list IpAddr))) (hosts : option Hosts) : bytes :=
  match split_host_port addr with
  | Err _ => addr
  | Ok (host, port) =>
      match hosts ≫= λ h, hosts_lookup h host with
      | Some ip => join_host_port (show_ip ip) port
      | None =>
          match resolver with
          | None => addr
          | Some r =>
              match r host with
              | Ok (ip :: _) => join_host_port (show_ip ip) port
              | _ => addr
              end
          end
      end
  end.

Definition layered_transports : list bytes :=
  [str "tls"; str "ws"; str "wss"; str "ohttp"; str "otls"; str "http2"; str "h2"; str "h2c"].

(** [{:?}] of a text without characters to escape. *)
Definition debug_str (s : bytes) : bytes := [34] ++ s ++ [34].

(** Dials are steps with a result; they stop at the first error. *)
Definition walk (A : Type) : Type := list Step → result ChainError A * list Step.
Definition wret {A} (a : A) : walk A := λ tr, (Ok a, tr).
Definition wlift {A} (r : result ChainError A) : walk A := λ tr, (r, tr).
Definition wstep (st : Step) : walk () := λ tr, (Ok tt, tr ++ [st]).
Definition wbind {A B} (m : walk A) (k : A → walk B) : walk B :=
  λ tr, match m tr with (Ok a, tr) => k a tr | (Err e, tr) => (Err e, tr) end.
Notation "x <-- m ;; k" := (wbind m (λ x, k)) (at level 100, m at next level, right associativity).

Section dial.
Context (net : Net).

Definition layer_transport (node : Node) (stream : Conn) : walk Conn :=
  let t := Node.transport node in
  if bool_decide (t = []) || bool_decide (t = str "tcp") then wret stream
  else if bool_decide (t ∈ layered_transports) then
    _ <-- wstep (Layer node) ;; wlift (layer net node stream)
  else wlift (Err (ProxyError (str "chain node transport " ++ debug_str t ++ str " is not implemented"))).

(** A connector run on the stream. *)
Definition run_connector (m : conv ChainError ()) (c : Conn) : result ChainError Conn :=
  match m c with (Ok _, c) => Ok c | (Err e, _) => Err e end.

(** [to_string] of the errors. *)
Definition show_io (e : io_error) : bytes := match e with IoError _ msg => str msg end.
Definition show_chain_error (e : ChainError) : bytes :=
  match e with
  | EmptyChain => str "empty chain"
  | Timeout => str "connection timeout"
  | ChainIo e => str "IO error: " ++ show_io e
  | ProxyError msg => str "proxy error: " ++ msg
  end.
Definition show_handler_error (e : HandlerError) : bytes :=
  match e with
  | Io e => str "IO error: " ++ show_io e
  | Proxy msg => str "proxy error: " ++ msg
  | AuthFailed => str "authentication failed"
  | Forbidden => str "forbidden"
  | ChainFailed e => str "chain error: " ++ show_chain_error e
  end.

Definition relay_hop (node : Node) (target : bytes) (c : Conn) : result ChainError Conn :=
  match Relay.relay_connect (Node.user node) false target c with
  | (Ok _, c) => Ok c
  | (Err e, _) => Err (ProxyError (show_handler_error e))
  end.

Definition is_protocol (node : Node) (names : list bytes) : bool := bool_decide (Node.protocol node ∈ names).

(** [connect_via]. A relay hop's stream is then read and written through
    [RelayConn] (Relay.v). *)
Definition connect_via (stream : Conn) (node : Node) (target : bytes) : walk Conn :=
  let ask r := _ <-- wstep (Ask node target) ;; wlift r in
  if is_protocol node [str "http"; []] then
    ask (run_connector (http_connect (base64 net) target (Node.user node)) stream)
  else if is_protocol node [str "sni"] then _ <-- wstep (Through node) ;; wlift (other_connector net node target stream)
  else if is_protocol node [str "http2"; str "ss"] then ask (other_connector net node target stream)
  else if is_protocol node [str "socks5"] then ask (run_connector (socks5_connect (tls_connect net) target node) stream)
  else if is_protocol node [str "socks4"] then ask (run_connector (socks4_connect target (Node.user node) false) stream)
  else if is_protocol node [str "socks4a"] then ask (run_connector (socks4_connect target (Node.user node) true) stream)
  else if is_protocol node [str "relay"] then ask (relay_hop node target stream)
  else if is_protocol node [str "forward"; str "direct"; str "remote"] then _ <-- wstep (Through node) ;; wret stream
  else
    wlift (Err (ProxyError (str "chain node protocol " ++ debug_str (Node.protocol node)
                            ++ str " is not supported as a chain connector"))).

(** The address a hop is asked for: the next hop's, or the target. *)
Definition hop_target (rest : list Node) (target : bytes) : bytes :=
  match rest with [] => target | n :: _ => Node.addr n end.

(** Transports that own their dial. *)
Definition owns_dial (node : Node) : bool :=
  is_mux_transport (Node.transport node)
  || bool_decide (Node.transport node ∈ [str "quic"; str "ssh"; str "kcp"]).

(** The hops after the first. *)
Fixpoint more_hops (current : Conn) (ns : list Node) (target : bytes) : walk Conn :=
  match ns with
  | [] => wret current
  | node :: rest =>
      if owns_dial node then
        wlift (Err (ProxyError (str "chain node transport " ++ debug_str (Node.transport node)
                                ++ str " is only supported on the first hop (in " ++ Node_display node ++ str ")")))
      else
        current <-- layer_transport node current ;;
        current <-- connect_via current node (hop_target rest target) ;;
        more_hops current rest target
  end.

(** An outbound connection with the chain's mark and interface. *)
Definition connect_tcp (c : Chain) (timeout : Z) (addr : bytes) : result ChainError Conn :=
  if (mark c =? 0) && bool_decide (interface c = []) then tcp_connect net timeout addr
  else
    match lookup_host net timeout addr with
    | Err e => Err e
    | Ok [] => Err (ProxyError (str "could not resolve " ++ addr))
    | Ok (sockaddr :: _) => socket_connect net timeout (mark c) (interface c) sockaddr
    end.

(** How the first hop is reached. *)
Definition first_hop (c : Chain) (timeout : Z) (node : Node) : walk Conn :=
  if is_mux_transport (Node.transport node) || bool_decide (Node.transport node ∈ [str "quic"; str "kcp"])
  then _ <-- wstep (OpenSession node) ;; wlift (session net timeout node)
  else
    _ <-- wstep (ConnectTo (Node.addr node)) ;;
    conn <-- wlift (connect_tcp c timeout (Node.addr node)) ;;
    layer_transport node conn.

(** The target of a dial, once resolved. *)
Definition dial_address (address : bytes) (options : ChainOptions) : bytes :=
  let resolved := resolve address (o_resolver options) (o_hosts options) in
  match resolved with [] => address | _ => resolved end.

(** In nanoseconds; five seconds by default. *)
Definition dial_timeout (options : ChainOptions) : Z :=
  if 0 <? o_timeout options then o_timeout options else DIAL_TIMEOUT * 1000000000.

Definition dial_once (c : Chain) (address : bytes) (options : ChainOptions) : walk Conn :=
  let target := dial_address address options in
  let timeout := dial_timeout options in
  if is_empty c then _ <-- wstep (ConnectTo target) ;; wlift (connect_tcp c timeout target)
  else
    match nodes c with
    | [] => wlift (Err EmptyChain)
    | first :: rest =>
        if bool_decide (Node.transport first = str "ssh") then
          _ <-- wstep (OpenChannel first (hop_target rest target)) ;;
          wlift (ssh_channel net timeout first (hop_target rest target))
        else
          current <-- first_hop c timeout first ;;
          current <-- connect_via current first (hop_target rest target) ;;
          more_hops current rest target
    end.
End dial.

(** [dial_with_options]: the option's number of tries, else the chain's, else
    one; each attempt meets the network anew. *)
Definition tries (c : Chain) (options : ChainOptions) : nat :=
  if (0 <? o_retries options)%nat then o_retries options
  else if (0 <? retries c)%nat then retries c else 1%nat.

Fixpoint dial_attempts (c : Chain) (address : bytes) (options : ChainOptions) (last_err : ChainError) (nets : list Net) :
    result ChainError Conn * list (list Step) :=
  match nets with
  | [] => (Err last_err, [])
  | net :: nets =>
      match dial_once net c address options [] with
      | (Ok conn, tr) => (Ok conn, [tr])
      | (Err e, tr) => let '(r, trs) := dial_attempts c address options e nets in (r, tr :: trs)
      end
  end.

(** [net i] is the network the [i]-th attempt meets. *)
Definition dial_with_options (net : nat → Net) (c : Chain) (address : bytes) (options : ChainOptions) :
    result ChainError Conn * list (list Step) :=
  dial_attempts c address options EmptyChain (net <$> seq 0 (tries c options)).

Definition dial (net : nat → Net) (c : Chain) (address : bytes) : result ChainError Conn * list (list Step) :=
  dial_with_options net c address (default_options c).

(** [dial_udp]: what carries the datagrams. [udp_socket] binds a local socket. *)
Inductive UdpChannel : Type :=
| Direct (bind : SocketAddr)
| Tunnelled (tunnel : Tunnel).

Definition dial_udp (udp_socket : SocketAddr → result io_error ()) (net : nat → Net) (c : Chain) (bind : SocketAddr) :
    result ChainError UdpChannel * list (list Step) :=
  if is_empty c then (match udp_socket bind with Ok _ => Ok (Direct bind) | Err e => Err (ChainIo e) end, [])
  else
    let protocol := match last_node c with Some n => Node.protocol n | None => [] end in
    if negb (bool_decide (protocol ∈ [str "socks5"; str "socks"])) then
      (Err (ProxyError (str "chain last hop " ++ debug_str protocol
                        ++ str " cannot carry UDP; only socks5 supports it (via CmdUDPTun)")), [])
    else
      match last_node c with
      | None => (Err EmptyChain, [])
      | Some last =>
          let '(r, trs) := dial net c (Node.addr last) in
          (match r with
           | Err e => Err e
           | Ok control =>
               match udp_tunnel (Node.user last) (show_addr bind) None control with
               | (Ok t, _) => Ok (Tunnelled t)
               | (Err e, _) => Err (ProxyError (str "socks5 UDP tunnel failed: " ++ show_handler_error e))
               end
           end, trs)
      end.

(** ** The route of a dial *)

(** [walks spec m]: [m] takes the steps [spec] if it succeeds, and a beginning of
    them if it fails. *)
Definition walks {A} (spec : list Step) (m : walk A) : Prop :=
  ∀ tr r tr', m tr = (r, tr') →
  ∃ dn, tr' = tr ++ dn ∧ dn `prefix_of` spec ∧ (∀ a, r = Ok a → dn = spec).

Lemma walks_ret {A} (a : A) : walks [] (wret a).
Proof. intros tr r tr' [= <- <-]. exists []. by rewrite app_nil_r. Qed.
Lemma walks_lift {A} (x : result ChainError A) : walks [] (wlift x).
Proof. intros tr r tr' [= <- <-]. exists []. by rewrite app_nil_r. Qed.
Lemma walks_err {A} spec (e : ChainError) : walks spec (wlift (A := A) (Err e)).
Proof. intros tr r tr' [= <- <-]. exists []. rewrite app_nil_r. split_and!; [done|apply prefix_nil|done]. Qed.
Lemma walks_step st : walks [st] (wstep st).
Proof. intros tr r tr' [= <- <-]. by exists [st]. Qed.
Lemma walks_bind {A B} s1 s2 (m : walk A) (k : A → walk B) :
  walks s1 m → (∀ a, walks s2 (k a)) → walks (s1 ++ s2) (wbind m k).
Proof.
  intros Hm Hk tr r tr' H. unfold wbind in H. destruct (m tr) as [[a|e] tr1] eqn:E1.
  - apply Hm in E1 as (d1 & -> & P1 & F1). rewrite (F1 a eq_refl) in *. apply Hk in H as (d2 & -> & P2 & F2).
    exists (s1 ++ d2). split_and!; [by rewrite app_assoc|by apply prefix_app|]. intros b Hb. by rewrite (F2 b Hb).
  - simplify_eq. apply Hm in E1 as (d1 & -> & P1 & _). exists d1. split_and!; [done|by apply prefix_app_r|done].
Qed.

(** What a hop contributes to the route: its transport, and the address it is
    asked for unless it is passed through. *)
Definition passes (node : Node) : bool := is_protocol node [str "sni"; str "forward"; str "direct"; str "remote"].
Definition ask_step (node : Node) (target : bytes) : Step := if passes node then Through node else Ask node target.
Definition layer_steps (node : Node) : list Step :=
  if bool_decide (Node.transport node ∈ layered_transports) then [Layer node] else [].

Fixpoint route (ns : list Node) (target : bytes) : list Step :=
  match ns with
  | [] => []
  | [node] => layer_steps node ++ [ask_step node target]
  | node :: ((next :: _) as rest) => layer_steps node ++ [ask_step node (Node.addr next)] ++ route rest target
  end.
Definition entry (node : Node) : list Step :=
  if is_mux_transport (Node.transport node) || bool_decide (Node.transport node ∈ [str "quic"; str "kcp"])
  then [OpenSession node] else [ConnectTo (Node.addr node)].

Lemma route_cons node rest target :
  route (node :: rest) target = layer_steps node ++ [ask_step node (hop_target rest target)] ++ route rest target.
Proof. destruct rest; [|reflexivity]. cbn [route app]. reflexivity. Qed.

Lemma layer_walks net node c : walks (layer_steps node) (layer_transport net node c).
Proof.
  unfold layer_transport, layer_steps. cbv zeta. destruct (decide (Node.transport node = [])) as [->|E1].
  { replace (bool_decide ([] ∈ layered_transports)) with false by (by vm_compute). apply walks_ret. }
  destruct (decide (Node.transport node = str "tcp")) as [->|E2].
  { replace (bool_decide (str "tcp" ∈ layered_transports)) with false by (by vm_compute). apply walks_ret. }
  rewrite !(bool_decide_false (_ = _)) by done. cbn [orb].
  case_bool_decide; [|apply walks_err]. apply (walks_bind [_] []); [apply walks_step|]. intros _. apply walks_lift.
Qed.


Lemma connect_walks net c node target : walks [ask_step node target] (connect_via net c node target).
Proof.
  unfold connect_via, ask_step, passes, is_protocol. cbv zeta.
  assert (∀ st (x : result ChainError Conn), walks [st] (_ <-- wstep st ;; wlift x)) as Hs.
  { intros st x. apply (walks_bind [_] []); [apply walks_step|]. intros _. apply walks_lift. }
  repeat match goal with
  | |- walks _ (if bool_decide ?P then _ else _) =>
      let E := fresh "E" in destruct (bool_decide P) eqn:E;
      [apply bool_decide_eq_true in E;
       repeat (apply elem_of_cons in E as [E|E];
               [rewrite E; match goal with |- context [bool_decide ?Q] => let b := eval vm_compute in (bool_decide Q) in
                  replace (bool_decide Q) with b by (by vm_compute) end; first [apply Hs|apply (Hs _ (Ok c))]|]);
       by apply elem_of_nil in E
      |clear E]
  end.
  apply walks_err.
Qed.

Lemma more_hops_walks net ns target c : walks (route ns target) (more_hops net c ns target).
Proof.
  revert c. induction ns as [|node rest IH]; intros c; cbn [more_hops]; [apply walks_ret|]. rewrite route_cons.
  destruct (owns_dial node); [apply walks_err|].
  apply walks_bind; [apply layer_walks|]. intros c1. apply walks_bind; [apply connect_walks|]. intros c2. apply IH.
Qed.

Lemma session_no_layer node :
  is_mux_transport (Node.transport node) || bool_decide (Node.transport node ∈ [str "quic"; str "kcp"]) = true →
  layer_steps node = [].
Proof.
  unfold is_mux_transport, layer_steps. intros H. apply orb_true_iff in H as [H|H]; apply bool_decide_eq_true in H;
    repeat (apply elem_of_cons in H as [H|H]; [rewrite H; by vm_compute|]); by apply elem_of_nil in H.
Qed.

Lemma first_hop_walks net c timeout node : walks (entry node ++ layer_steps node) (first_hop net c timeout node).
Proof.
  unfold first_hop, entry. destruct (_ || _) eqn:E.
  - rewrite session_no_layer by done. apply walks_bind; [apply walks_step|]. intros _. apply walks_lift.
  - apply walks_bind; [apply walks_step|]. intros _. apply (walks_bind [] _); [apply walks_lift|]. intros conn. apply layer_walks.
Qed.

Lemma dial_once_walks net c address options first rest :
  nodes c = first :: rest → Node.transport first ≠ str "ssh" →
  walks (entry first ++ route (first :: rest) (dial_address address options)) (dial_once net c address options).
Proof.
  intros Hn Ht. unfold dial_once. assert (is_empty c = false) as ->.
  { unfold is_empty, nodes in *. by destruct (node_groups c). }
  rewrite Hn, bool_decide_false by done. rewrite route_cons, (app_assoc (entry first)).
  apply walks_bind; [apply first_hop_walks|]. intros c1. apply walks_bind; [apply connect_walks|]. intros c2. apply more_hops_walks.
Qed.

(** A hop no connector or transport exists for. *)
Definition known_protocols : list bytes :=
  [str "http"; []; str "sni"; str "http2"; str "ss"; str "socks5"; str "socks4"; str "socks4a"; str "relay"; str "forward";
   str "direct"; str "remote"].

Lemma wbind_ok {A B} (m : walk A) (k : A → walk B) tr b tr' :
  wbind m k tr = (Ok b, tr') → ∃ a tr1, m tr = (Ok a, tr1) ∧ k a tr1 = (Ok b, tr').
Proof. unfold wbind. destruct (m tr) as [[a|e] tr1]; [eauto|done]. Qed.

Lemma connect_via_known net c node target tr c' tr' :
  connect_via net c node target tr = (Ok c', tr') → Node.protocol node ∈ known_protocols.
Proof.
  unfold connect_via, is_protocol. cbv zeta. intros H.
  repeat match type of H with
  | (if bool_decide ?P then _ else _) _ = _ =>
      let E := fresh "E" in destruct (bool_decide P) eqn:E; [apply bool_decide_eq_true in E; clear H; set_solver|]
  end.
  done.
Qed.

Lemma more_hops_known net ns target c tr c' tr' :
  more_hops net c ns target tr = (Ok c', tr') →
  Forall (λ n, Node.protocol n ∈ known_protocols ∧ owns_dial n = false) ns.
Proof.
  revert c tr. induction ns as [|node rest IH]; intros c tr H; cbn [more_hops] in H; [constructor|].
  destruct (owns_dial node) eqn:Eo; [done|].
  apply wbind_ok in H as (c1 & t1 & _ & H). apply wbind_ok in H as (c2 & t2 & H2 & H).
  constructor; [|by eapply IH]. split; [|done]. by eapply connect_via_known.
Qed.

Lemma dial_once_known net c address options first rest tr conn tr' :
  nodes c = first :: rest → Node.transport first ≠ str "ssh" →
  dial_once net c address options tr = (Ok conn, tr') →
  Node.protocol first ∈ known_protocols ∧ Forall (λ n, Node.protocol n ∈ known_protocols ∧ owns_dial n = false) rest.
Proof.
  intros Hn Ht H. unfold dial_once in H. assert (is_empty c = false) as Ee.
  { unfold is_empty, nodes in *. by destruct (node_groups c). }
  rewrite Ee, Hn, bool_decide_false in H by done. apply wbind_ok in H as (c1 & t1 & _ & H). apply wbind_ok in H as (c2 & t2 & H2 & H).
  split; [by eapply connect_via_known|by eapply more_hops_known].
Qed.

Lemma tries_pos c options : (0 < tries c options)%nat.
Proof. unfold tries. destruct (Nat.ltb_spec 0 (o_retries options)); [done|]. destruct (Nat.ltb_spec 0 (retries c)); lia. Qed.

(** The attempts are made one after the other until one succeeds. *)
Lemma dial_attempts_run (net : nat → Net) c address options e (n k : nat) :
  (0 < n)%nat →
  ∃ i, (i < n)%nat
    ∧ (∀ j, (j < i)%nat → ∃ e, (dial_once (net (k + j)%nat) c address options []).1 = Err e)
    ∧ dial_attempts c address options e (net <$> seq k n)
      = ((dial_once (net (k + i)%nat) c address options []).1,
         (λ j, (dial_once (net j) c address options []).2) <$> seq k (S i))
    ∧ ((∃ conn, (dial_once (net (k + i)%nat) c address options []).1 = Ok conn) ∨ S i = n).
Proof.
  revert k e. induction n as [|n IH]; intros k e Hn; [lia|]. cbn [seq fmap list_fmap dial_attempts].
  destruct (dial_once (net k) c address options []) as [[conn|e1] tr] eqn:E1.
  { exists 0%nat. rewrite Nat.add_0_r, E1. split_and!; [lia|lia|done|eauto]. }
  destruct n as [|n].
  { exists 0%nat. rewrite Nat.add_0_r, E1. split_and!; [lia|lia|done|by right]. }
  destruct (IH (S k) e1) as (i & Hi & Hf & Hr & Hd); [lia|].
  exists (S i). rewrite Hr. replace (k + S i)%nat with (S k + i)%nat by lia. split_and!; [lia| |done|].
  - intros [|j] Hj; [rewrite Nat.add_0_r, E1; eauto|]. replace (k + S j)%nat with (S k + j)%nat by lia. apply Hf. lia.
  - destruct Hd; [by left|right; lia].
Qed.

(** The last hop is the last of the walk. *)
Lemma last_node_nodes c last : last_node c = Some last → ∃ before, nodes c = before ++ [last].
Proof.
  unfold last_node, nodes. intros H. destruct (node_groups c) as [|g gs _] using rev_ind; [done|].
  rewrite last_snoc in H. cbn in H. rewrite omap_app. exists (omap head gs). f_equal. cbn. by rewrite H.
Qed.

Lemma route_snoc before last target : ∃ steps, route (before ++ [last]) target = steps ++ [ask_step last target].
Proof.
  induction before as [|n ns [steps IH]]; cbn [app]; rewrite route_cons; cbn [hop_target].
  - exists (layer_steps last). done.
  - rewrite IH. exists (layer_steps n ++ [ask_step n (hop_target (ns ++ [last]) target)] ++ steps). rewrite <- !app_assoc. reflexivity.
Qed.

Lemma dial_success net c address conn trs :
  dial net c address = (Ok conn, trs) →
  ∃ i tr, dial_once (net i) c address (default_options c) [] = (Ok conn, tr) ∧ last trs = Some tr.
Proof.
  unfold dial, dial_with_options. intros H.
  destruct (dial_attempts_run net c address (default_options c) EmptyChain _ 0 (tries_pos c (default_options c)))
    as (i & _ & _ & Hr & _).
  rewrite Hr, pair_equal_spec in H. destruct H as [H1 <-]. cbn [Nat.add] in H1. exists i, (dial_once (net i) c address (default_options c) []).2.
  split; [|by rewrite fmap_last, seq_S, last_snoc]. rewrite <- H1. by apply surjective_pairing.
Qed.

(** The hop a datagram channel goes through. *)
Lemma udp_hop_socks5 (p : bytes) : p ∈ [str "socks5"; str "socks"] → p ∈ known_protocols → p = str "socks5".
Proof.
  intros [->|[->|H%elem_of_nil]%elem_of_cons]%elem_of_cons Hk; [done| |done].
  apply (bool_decide_eq_true_2 _) in Hk. by vm_compute in Hk.
Qed.

End Chain.


(** The number of attempts of a dial is the option's, else the chain's, else
    one; they stop at the first that succeeds, and the error of a dial without
    success is that of its last attempt. *)
Theorem chain_retries net c address options :
  let run i := Chain.dial_once (net i) c address options [] in
  ∃ i, (i < Chain.tries c options)%nat ∧ (∀ j, (j < i)%nat → ∃ e, (run j).1 = Err e)
    ∧ Chain.dial_with_options net c address options = ((run i).1, (λ j, (run j).2) <$> seq 0 (S i))
    ∧ ((∃ conn, (run i).1 = Ok conn) ∨ S i = Chain.tries c options).
Proof. apply (Chain.dial_attempts_run net c address options EmptyChain _ 0 (Chain.tries_pos c options)). Qed.

(** With SSH as the first of several hops, the connection handed out is a
    channel to the second hop: no hop behind it is asked for anything, and the
    target never comes up. *)
Theorem chain_ssh_misroutes net c address options first second rest :
  Chain.nodes c = first :: second :: rest → Node.transport first = str "ssh" →
  Chain.dial_once net c address options []
  = (Chain.ssh_channel net (Chain.dial_timeout options) first (Node.addr second), [Chain.OpenChannel first (Node.addr second)]).
Proof.
  intros Hn Ht. unfold Chain.dial_once. assert (Chain.is_empty c = false) as ->.
  { unfold Chain.is_empty, Chain.nodes in *. by destruct (Chain.node_groups c). }
  rewrite Hn, Ht, bool_decide_true by done. done.
Qed.

(** A datagram channel through a chain asks the last hop, before the
    association, to connect to its own address: the control connection runs
    through that hop and not only through those before it. *)
Theorem chain_udp_control udp_socket net c bind tunnel trs first rest :
  Chain.nodes c = first :: rest → Node.transport first ≠ str "ssh" →
  Chain.dial_udp udp_socket net c bind = (Ok (Chain.Tunnelled tunnel), trs) →
  ∃ hop tr, Chain.last_node c = Some hop ∧ Node.protocol hop = str "socks5" ∧ last trs = Some tr
    ∧ last tr = Some (Chain.Ask hop (Chain.dial_address (Node.addr hop) (Chain.default_options c))).
Proof.
  intros Hn Ht H. unfold Chain.dial_udp in H. destruct (Chain.is_empty c) eqn:Ee.
  { destruct (udp_socket bind); discriminate. }
  destruct (negb _) eqn:Ep; [done|]. destruct (Chain.last_node c) as [hop|] eqn:El; [|done].
  destruct (Chain.dial net c (Node.addr hop)) as [[control|e] trs0] eqn:Ed; [|done].
  assert (trs0 = trs) as -> by (by injection H). clear H.
  destruct (Chain.dial_success _ _ _ _ _ Ed) as (i & tr & E & Hl).
  destruct (Chain.dial_once_walks _ _ _ _ _ _ Hn Ht _ _ _ E) as (dn & Htr & _ & Hf). cbn [app] in Htr. subst dn.
  destruct (Chain.dial_once_known _ _ _ _ _ _ _ _ _ Hn Ht E) as [Hk1 Hk2].
  destruct (Chain.last_node_nodes _ _ El) as [before Hb]. rewrite Hn in Hb.
  assert (Node.protocol hop ∈ Chain.known_protocols) as Hk.
  { assert (hop ∈ first :: rest) as Hi by (rewrite Hb; set_solver).
    apply elem_of_cons in Hi as [->|Hi]; [done|]. rewrite Forall_forall in Hk2. by apply Hk2. }
  assert (Node.protocol hop = str "socks5") as Hs.
  { apply negb_false_iff, bool_decide_eq_true in Ep. by apply Chain.udp_hop_socks5. }
  exists hop, tr. split_and!; [done|done|done|]. rewrite (Hf control eq_refl), Hb.
  destruct (Chain.route_snoc before hop (Chain.dial_address (Node.addr hop) (Chain.default_options c))) as [steps ->].
  rewrite app_assoc, last_snoc. f_equal. unfold Chain.ask_step, Chain.passes, Chain.is_protocol. rewrite Hs.
  match goal with |- (if ?b then _ else _) = _ => replace b with false by (by vm_compute) end. done.
Qed.

(** ** A chain of two hops *)

Definition demo_hop (protocol transport addr : bytes) : Node :=
  mkNode 0 addr [] protocol transport [] None ∅ 0 None.
Definition demo_chain (ns : list Node) : Chain.Chain := Chain.Chain_new ns.

(** A network where every hop answers the SOCKS5 and then the HTTP requests. *)
Definition demo_net (reply : bytes) : Chain.Net :=
  Chain.mkNet (λ _ _, Ok (talk reply [])) (λ _ _, Err Timeout) (λ _ _ _ _, Err Timeout) (λ _ _, Err Timeout) (λ _ _ _, Ok (talk [] [])) (λ _ c, Ok c) (λ _ _ c, Ok c)
    (λ _ c, Ok c) (λ b, b).

Definition socks5_yes : bytes := [5; 0] ++ [5; 0; 0; 1; 0; 0; 0; 0; 0; 0].
Definition http_yes : bytes := str "HTTP/1.1 200 OK" ++ [13; 10; 13; 10].

Definition demo_first : Node := demo_hop (str "socks5") (str "tcp") (str "p1:1080").
Definition demo_second : Node := demo_hop (str "http") (str "tls") (str "p2:443").


Lemma chain_ssh_misroutes_witness :
  let first := demo_hop [] (str "ssh") (str "p1:22") in
  let c := demo_chain [first; demo_second] in
  Chain.dial_once (demo_net []) c (str "x.org:80") (Chain.default_options c) []
  = (Ok (talk [] []), [Chain.OpenChannel first (str "p2:443")]).
Proof. intros first c. apply (chain_ssh_misroutes (demo_net []) c _ _ first demo_second []); by vm_compute. Defined.

Lemma chain_udp_control_witness :
  let c := demo_chain [demo_first] in
  let net _ := demo_net (socks5_yes ++ socks5_yes) in
  ∃ tunnel trs hop tr, Chain.dial_udp (λ _, Ok tt) net c (mkAddr unspecified_v4 0) = (Ok (Chain.Tunnelled tunnel), trs)
    ∧ Chain.last_node c = Some hop ∧ last trs = Some tr ∧ last tr = Some (Chain.Ask hop (str "p1:1080")).
Proof.
  intros c net.
  destruct (Chain.dial_udp (λ _, Ok tt) net c (mkAddr unspecified_v4 0)) as [r trs] eqn:E.
  destruct r as [[b|tunnel]|e]; [vm_compute in E; discriminate| |vm_compute in E; discriminate].
  destruct (chain_udp_control _ _ c _ _ _ demo_first [] eq_refl ltac:(by vm_compute) E) as (hop & tr & H1 & _ & H2 & H3).
  exists tunnel, trs, hop, tr. split_and!; [done|done|done|]. rewrite H3. injection H1 as <-. by vm_compute.
Defined.
