(* ===== verification/Setup.v ===== *)
(** * Starting a listener

    src/main.rs and src/config.rs: the routes of a configuration, the gates for
    transports, the options a listener's URL gives its handler, and which
    handler and which listener serve it. Files, the resolver, certificates and
    the constructors of the handlers and transports that are not modelled are
    parameters. *)

From stdpp Require Import base list option numbers gmap strings sets.
From Stdlib Require Import ZArith Lia.
From S2P Require Import Prelude Text Utf8 AsyncIo IpAddr Node Reload Auth Hosts Bypass Permissions Conn Socks5Addr Effects Socks5 Chain Udp.

(** ** Handler options *)

Section options.
(** [File::open]; and [Resolver::parse] with the [init] that follows it: its
    specification, the chain, timeout, time to live, preference and client
    address; and the crates that parse networks and match names. *)
Context {IpNet : Type} (parse_net : bytes → option IpNet) (net_contains : IpNet → IpAddr → bool)
        (glob_match : bytes → bytes → bool).
Context (open : bytes → result io_error Reader).
Context (make_resolver : bytes → Chain.Chain → Z → Z → bytes → option IpAddr → option (bytes → result () (list IpAddr))).

Definition load_secrets_file (path : bytes) : result io_error LocalAuthenticator :=
  f <-? open path ;;
  match auth_reload f (LocalAuthenticator_new ∅) with
  | (Ok _, au) => Ok au
  | (Err e, _) => Err e
  end.

Definition load_hosts_file (path : bytes) : option Hosts :=
  match open path with
  | Err _ => None
  | Ok f =>
      match hosts_reload f (Hosts_new []) with
      | (Ok _, h) => Some h
      | (Err _, _) => None
      end
  end.

Definition node_authenticator (node : Node) : option LocalAuthenticator :=
  match Node_get node (str "secrets") with
  | Some path => match load_secrets_file path with Ok au => Some au | Err _ => None end
  | None =>
      match Node.user node with
      | Some (user, pass) => Some (LocalAuthenticator_new {[user := default [] pass]})
      | None => None
      end
  end.

Definition node_bypass (node : Node) : option (Bypass IpNet) :=
  match Node_get node (str "bypass") with
  | None => None
  | Some s =>
      let '(reversed, patterns) := match strip_prefix [126] s with Some p => (true, p) | None => (false, s) end in
      Some (from_patterns parse_net reversed (filter (λ p, p ≠ []) (split_char ch_comma patterns)))
  end.

Definition node_permissions (node : Node) (key : bytes) : option Permissions :=
  match Node_get node key with
  | None => None
  | Some s => match Permissions_parse s with Ok ps => Some ps | Err _ => None end
  end.

(** [node.get_int(key) as usize] and [node.get_int(key).max(0) as usize]. *)
Definition get_usize (node : Node) (key : bytes) : nat := Z.to_nat (u64 (get_int node key)).
Definition get_count (node : Node) (key : bytes) : nat := Z.to_nat (Z.max 0 (get_int node key)).

(** What a listener's URL configures; the fields the SOCKS and relay handlers
    read are [base]. *)
Record ListenerOptions : Type := mkListener {
  base : HandlerOptions;
  l_chain : Chain.Chain;
  l_node : Node;
  l_host : bytes;
  proxy_agent : bytes;
  strategy : bytes;
  max_fails : Z;
  fail_timeout : Z;
  fastest_count : nat;
  probe_resist : bytes;
  knocking_host : bytes;
}.

Definition node_text (node : Node) (key : bytes) (dflt : bytes) : bytes := default dflt (Node_get node key).

Definition build_handler_options (node : Node) (chain : Chain.Chain) : ListenerOptions :=
  let hosts := Node_get node (str "hosts") ≫= load_hosts_file in
  let timeout := get_duration node (str "timeout") in
  let retries := get_usize node (str "retry") in
  let chain :=
    Chain.mkChain (if (0 <? retries)%nat then retries else Chain.retries chain) (Chain.mark chain) (Chain.interface chain)
      timeout hosts (Chain.resolver chain) (Chain.node_groups chain) in
  let resolver := spec ← Node_get node (str "dns");
    make_resolver spec chain timeout (get_duration node (str "ttl")) (node_text node (str "prefer") [])
      (Node_get node (str "ip") ≫= parse_ip) in
  let chain :=
    Chain.mkChain (Chain.retries chain) (Chain.mark chain) (Chain.interface chain) timeout hosts resolver
      (Chain.node_groups chain) in
  mkListener
    (mkOptions (match Node.user node with Some u => [u] | None => [] end)
       (Auth.authenticate <$> node_authenticator node)
       (node_permissions node (str "whitelist")) (node_permissions node (str "blacklist"))
       (contains net_contains glob_match <$> node_bypass node) retries timeout)
    chain node (node_text node (str "host") []) (node_text node (str "proxyAgent") [])
    (node_text node (str "strategy") (str "round"))
    (u32 (Z.max 0 (get_int node (str "max_fails")))) (get_duration node (str "fail_timeout"))
    (get_count node (str "fastest_count")) (node_text node (str "probe_resist") []) (node_text node (str "knock") []).

End options.

(** ** Transports *)

Definition SUPPORTED_LISTENER_TRANSPORTS : list bytes :=
  str <$> ["tcp"; "tls"; "ws"; "wss"; "mtls"; "mws"; "mwss"; "quic"; "kcp"; "udp"; "rtcp"; "rudp"; "dns"; "redu"; "h2";
           "h2c"; "http2"; "ohttp"; "otls"]%string.
Definition SUPPORTED_CHAIN_TRANSPORTS : list bytes :=
  str <$> [""; "tcp"; "tls"; "ws"; "wss"; "mtls"; "mws"; "mwss"; "quic"; "kcp"; "h2"; "h2c"; "http2"; "ohttp"; "otls"]%string.

(** An error carries what its message shows. *)
Inductive SetupError : Type :=
| ParseFailed (e : ParseNodeError)
| ListenerSsh (protocol : bytes)
| ChainSsh (protocol : bytes)
| ListenerTransport (transport shown : bytes)
| ChainTransport (transport shown : bytes)
| RudpThroughChain (shown : bytes)
| PartFailed (msg : bytes).

(** Of src/ssh.rs. *)
Definition ssh_listener_support (protocol : bytes) : result SetupError () :=
  if bool_decide (protocol = str "forward") then Ok tt else Err (ListenerSsh protocol).
Definition ssh_chain_support (protocol : bytes) : result SetupError () :=
  if bool_decide (protocol ∈ [str "direct"; str "remote"; str "forward"]) then Ok tt else Err (ChainSsh protocol).

Definition ensure_listener_transport_supported (node : Node) : result SetupError () :=
  let transport := Node.transport node in
  if bool_decide (transport = str "ssh") then ssh_listener_support (Node.protocol node)
  else if bool_decide (transport = []) || bool_decide (transport ∈ SUPPORTED_LISTENER_TRANSPORTS) then Ok tt
  else Err (ListenerTransport transport (Node_display node)).

Definition ensure_chain_transport_supported (node : Node) : result SetupError () :=
  let transport := Node.transport node in
  if bool_decide (transport = str "ssh") then ssh_chain_support (Node.protocol node)
  else if bool_decide (transport ∈ SUPPORTED_CHAIN_TRANSPORTS) then Ok tt
  else Err (ChainTransport transport (Node_display node)).

(** ** Handlers and listeners *)

Inductive HandlerKind : Set :=
| HttpHandler | Socks5Handler | Socks4Handler
| ShadowHandler (method password : bytes)
| ShadowUdpHandler (method password : bytes)
| Http2Handler
| RelayHandler (remote : bytes)
| SniHandler
| TcpDirectForwardHandler (remote : bytes)
| UdpDirectForwardHandler (remote : bytes)
| UdpRemoteForwardHandler (remote : bytes)
| TcpRemoteForwardHandler (remote : bytes)
| DnsHandler (remote : bytes)
| TcpRedirectHandler | UdpRedirectHandler | SshForwardHandler | AutoHandler.

(** [TlsServer]s carry the protocols they negotiate. *)
Inductive Listener : Set :=
| Server (capture_original_dst : bool)
| TlsServer (alpn : list bytes)
| KcpListener
| QuicServer
| MuxServer (tls ws : bool)
| ObfsServer (tls : bool)
| H2Server (tls : bool)
| WsServer (tls : bool)
| UdpServer.

(** The constructors that can fail. *)
Record Parts : Type := mkParts {
  shadow_new : bytes → bytes → result bytes ();
  shadow_udp_new : bytes → bytes → result bytes ();
  ssh_forward_new : Node → result bytes ();
  tls_config : Node → result bytes ();
  kcp_config : Node → result bytes ();
  quic_config : Node → result bytes ();
  mux_config : Node → result bytes ();
  bind : Node → result bytes ();
}.

Definition part (r : result bytes ()) : result SetupError () :=
  match r with Ok _ => Ok tt | Err msg => Err (PartFailed msg) end.

(** The cipher and password of a Shadowsocks URL. *)
Definition shadow_method (node : Node) : bytes :=
  match Node.user node with
  | Some ((x :: m), _) => x :: m
  | _ => default (str "plain") (Node_get node (str "method"))
  end.
Definition shadow_password (node : Node) : bytes := default [] (Node.user node ≫= snd).

Definition choose_handler (ps : Parts) (node : Node) : result SetupError HandlerKind :=
  let p := Node.protocol node in
  let remote := Node.remote node in
  let named names := bool_decide (p ∈ str <$> names) in
  if named ["http"%string] then Ok HttpHandler
  else if named ["socks5"; "socks"]%string then Ok Socks5Handler
  else if named ["socks4"; "socks4a"]%string then Ok Socks4Handler
  else if named ["ss"%string] then
    _ <-? part (shadow_new ps (shadow_method node) (shadow_password node)) ;;
    Ok (ShadowHandler (shadow_method node) (shadow_password node))
  else if named ["ssu"%string] then
    _ <-? part (shadow_udp_new ps (shadow_method node) (shadow_password node)) ;;
    Ok (ShadowUdpHandler (shadow_method node) (shadow_password node))
  else if named ["http2"%string] then Ok Http2Handler
  else if named ["relay"%string] then Ok (RelayHandler remote)
  else if named ["sni"%string] then Ok SniHandler
  else if named ["tcp"%string] then Ok (TcpDirectForwardHandler remote)
  else if named ["udp"%string] then Ok (UdpDirectForwardHandler remote)
  else if named ["rudp"%string] then Ok (UdpRemoteForwardHandler remote)
  else if named ["rtcp"%string] then Ok (TcpRemoteForwardHandler remote)
  else if named ["dns"; "dot"; "doh"]%string then Ok (DnsHandler remote)
  else if named ["red"; "redirect"]%string then Ok TcpRedirectHandler
  else if named ["redu"; "redirectu"]%string then Ok UdpRedirectHandler
  else if named ["forward"%string] then _ <-? part (ssh_forward_new ps node) ;; Ok SshForwardHandler
  else match remote with [] => Ok AutoHandler | _ => Ok (TcpDirectForwardHandler remote) end.

Definition choose_listener (ps : Parts) (node : Node) (chain_is_empty : bool) : result SetupError Listener :=
  let t := Node.transport node in
  let named names := bool_decide (t ∈ str <$> names) in
  if named [""; "tcp"; "ssh"; "rtcp"; "dns"; "redu"]%string then
    _ <-? part (bind ps node) ;; Ok (Server (bool_decide (Node.protocol node ∈ [str "red"; str "redirect"])))
  else if named ["tls"%string] then _ <-? part (tls_config ps node) ;; _ <-? part (bind ps node) ;; Ok (TlsServer [])
  else if named ["kcp"%string] then _ <-? part (kcp_config ps node) ;; _ <-? part (bind ps node) ;; Ok KcpListener
  else if named ["quic"%string] then
    _ <-? part (quic_config ps node) ;; _ <-? part (tls_config ps node) ;; _ <-? part (bind ps node) ;; Ok QuicServer
  else if named ["mtls"; "mws"; "mwss"]%string then
    _ <-? part (mux_config ps node) ;;
    let tls := negb (named ["mws"%string]) in
    _ <-? (if tls then part (tls_config ps node) else Ok tt) ;;
    _ <-? part (bind ps node) ;; Ok (MuxServer tls (negb (named ["mtls"%string])))
  else if named ["ohttp"; "otls"]%string then _ <-? part (bind ps node) ;; Ok (ObfsServer (named ["otls"%string]))
  else if named ["http2"%string] then
    _ <-? part (tls_config ps node) ;; _ <-? part (bind ps node) ;; Ok (TlsServer [str "h2"])
  else if named ["h2"; "h2c"]%string then
    _ <-? (if named ["h2"%string] then part (tls_config ps node) else Ok tt) ;;
    _ <-? part (bind ps node) ;; Ok (H2Server (named ["h2"%string]))
  else if named ["ws"; "wss"]%string then
    _ <-? (if named ["wss"%string] then part (tls_config ps node) else Ok tt) ;;
    _ <-? part (bind ps node) ;; Ok (WsServer (named ["wss"%string]))
  else if named ["udp"; "rudp"]%string then
    if named ["rudp"%string] && negb chain_is_empty then Err (RudpThroughChain (Node_display node))
    else _ <-? part (bind ps node) ;; Ok UdpServer
  else Err (ListenerTransport t (Node_display node)).

(** [run_server], until it serves. *)
Definition run_server (ps : Parts) (node : Node) (chain : Chain.Chain) : result SetupError (HandlerKind * Listener) :=
  _ <-? ensure_listener_transport_supported node ;;
  h <-? choose_handler ps node ;;
  l <-? choose_listener ps node (Chain.is_empty chain) ;;
  Ok (h, l).

(** ** Routes *)

Section start.
Context (url_parse : bytes → option Url).

(** The nodes of a list of URLs, each with a fresh marker from [l] on. *)
Fixpoint parse_nodes (l : nat) (gate : Node → result SetupError ()) (urls : list bytes) : result SetupError (list Node) :=
  match urls with
  | [] => Ok []
  | u :: urls =>
      match Node_parse url_parse l u with
      | Err e => Err (ParseFailed e)
      | Ok node => _ <-? gate node ;; ns <-? parse_nodes (S l) gate urls ;; Ok (node :: ns)
      end
  end.

Definition with_route (retries : nat) (mark : Z) (interface : bytes) (c : Chain.Chain) : Chain.Chain :=
  Chain.mkChain retries mark interface (Chain.timeout c) (Chain.hosts c) (Chain.resolver c) (Chain.node_groups c).

(** The listeners to spawn with their chain. *)
Definition start_from_cli (listen forward : list bytes) (mark : Z) (interface : option bytes) :
    result SetupError (list Node * Chain.Chain) :=
  chain <-? (match forward with
             | [] => Ok Chain.Chain_empty
             | _ =>
                 ns <-? parse_nodes 0 ensure_chain_transport_supported forward ;;
                 Ok (with_route 0 mark (default [] interface) (Chain.Chain_new ns))
             end) ;;
  servers <-? parse_nodes (length forward) (λ _, Ok tt) listen ;;
  Ok (servers, chain).

Record RouteConfig : Type := mkRoute {
  serve_nodes : list bytes; chain_nodes : list bytes; r_retries : nat; r_mark : Z; r_interface : bytes }.

(** [load_config] on a parsed file. *)
Definition config_routes (default_route : RouteConfig) (routes : list RouteConfig) : list RouteConfig :=
  match serve_nodes default_route with [] => routes | _ => default_route :: routes end.

Definition route_chain (route : RouteConfig) : result SetupError Chain.Chain :=
  match chain_nodes route with
  | [] => Ok Chain.Chain_empty
  | _ =>
      ns <-? parse_nodes 0 ensure_chain_transport_supported (chain_nodes route) ;;
      Ok (with_route (r_retries route) (r_mark route) (r_interface route) (Chain.Chain_new ns))
  end.

Fixpoint start_from_config (routes : list RouteConfig) : result SetupError (list (list Node * Chain.Chain)) :=
  match routes with
  | [] => Ok []
  | route :: routes =>
      chain <-? route_chain route ;;
      servers <-? parse_nodes (length (chain_nodes route)) (λ _, Ok tt) (serve_nodes route) ;;
      rest <-? start_from_config routes ;;
      Ok ((servers, chain) :: rest)
  end.

End start.

(** ** No listener in the clear *)

(** The transports whose name promises encryption, and the listeners that give
    it. *)
Definition secure_transports : list bytes := str <$> ["tls"; "mtls"; "wss"; "mwss"; "http2"; "h2"; "quic"]%string.
Definition encrypts (l : Listener) : bool :=
  match l with TlsServer _ | QuicServer | MuxServer true _ | H2Server true | WsServer true => true | _ => false end.
(** Those a plain TCP listener serves. *)
Definition plain_transports : list bytes := str <$> [""; "tcp"; "ssh"; "rtcp"; "dns"; "redu"]%string.

Lemma rbind_ok {E A B} (m : result E A) (k : A → result E B) b : rbind m k = Ok b → ∃ a, m = Ok a ∧ k a = Ok b.
Proof. destruct m; [eauto|done]. Qed.

(** A step that can fail but answers nothing. *)
Lemma part_bind {B} (m : result bytes ()) (k : result SetupError B) b : rbind (part m) (λ _, k) = Ok b → k = Ok b.
Proof. intros (a & _ & H)%rbind_ok. done. Qed.

Lemma part_err {B} (m : result bytes ()) (k : result SetupError B) t shown :
  rbind (part m) (λ _, k) = Err (ListenerTransport t shown) → k = Err (ListenerTransport t shown).
Proof. by destruct m. Qed.

(** One transport at a time: [t] is one of a list. *)
Ltac each_of H :=
  repeat (apply elem_of_cons in H as [->|H]); [..|by apply elem_of_nil in H].
Ltac decide_names :=
  repeat match goal with
  | |- context [bool_decide (?t ∈ str <$> ?l)] =>
      let b := eval vm_compute in (bool_decide (t ∈ str <$> l)) in change (bool_decide (t ∈ str <$> l)) with b
  | H : context [bool_decide (?t ∈ str <$> ?l)] |- _ =>
      let b := eval vm_compute in (bool_decide (t ∈ str <$> l)) in change (bool_decide (t ∈ str <$> l)) with b in H
  end.

Definition listener_ok (t : bytes) (l : Listener) : bool :=
  (negb (bool_decide (t ∈ secure_transports)) || encrypts l)
  && (match l with Server _ => bool_decide (t ∈ plain_transports) | _ => true end).

Lemma choose_listener_ok ps node e :
  Node.transport node ∈ [] :: str "ssh" :: SUPPORTED_LISTENER_TRANSPORTS →
  match choose_listener ps node e with
  | Ok l => listener_ok (Node.transport node) l = true
  | Err (ListenerTransport _ _) => False
  | Err _ => True
  end.
Proof.
  intros Ht. unfold choose_listener. cbv zeta. unfold SUPPORTED_LISTENER_TRANSPORTS in Ht. cbn [fmap list_fmap] in Ht.
  each_of Ht; decide_names; cbn [negb andb];
    repeat match goal with |- context [part ?m] => destruct m; cbn [part rbind] end;
    try destruct e; cbn [negb rbind]; done || by vm_compute.
Qed.

Lemma listener_gate node u :
  ensure_listener_transport_supported node = Ok u →
  Node.transport node ∈ [] :: str "ssh" :: SUPPORTED_LISTENER_TRANSPORTS
  ∧ (Node.transport node = str "ssh" → Node.protocol node = str "forward").
Proof.
  unfold ensure_listener_transport_supported, ssh_listener_support. cbv zeta.
  case_bool_decide as E1; [case_bool_decide; [|done]; intros _; split; [rewrite E1; set_solver|done]|].
  case_bool_decide as E2; [intros _; rewrite E2; split; [set_solver|done]|].
  case_bool_decide; [|done]. intros _. split; [set_solver|done].
Qed.

Lemma choose_handler_forward ps node h :
  Node.protocol node = str "forward" → choose_handler ps node = Ok h → h = SshForwardHandler.
Proof.
  intros E H. unfold choose_handler in H. cbv zeta in H. rewrite E in H. decide_names. apply part_bind in H. congruence.
Qed.

(** ** Logins *)

(** Where the credentials of a listener come from: the file it names, if it can
    be read; its URL, if it names none; nowhere else. *)
Inductive login_source : Type :=
| FromFile (au : LocalAuthenticator)
| FromUrl (user pass : bytes)
| Open.

Definition source_of (open : bytes → result io_error Reader) (node : Node) : login_source :=
  match Node_get node (str "secrets"), Node.user node with
  | Some path, _ => match load_secrets_file open path with Ok au => FromFile au | Err _ => Open end
  | None, Some (user, pass) => FromUrl user (default [] pass)
  | None, None => Open
  end.

Definition lets_in (s : login_source) (user pass : bytes) : Prop :=
  match s with
  | FromFile au => Auth.authenticate au user pass = true
  | FromUrl u p => user = u ∧ (p = [] ∨ pass = p)
  | Open => True
  end.

Lemma single_login (u p user pass : bytes) :
  Auth.authenticate (LocalAuthenticator_new {[u := p]}) user pass = true ↔ user = u ∧ (p = [] ∨ pass = p).
Proof.
  unfold Auth.authenticate. cbn [kvs LocalAuthenticator_new]. rewrite bool_decide_false by apply map_non_empty_singleton.
  destruct (decide (user = u)) as [->|Hne].
  - rewrite lookup_singleton_eq, orb_true_iff, !bool_decide_eq_true. naive_solver.
  - rewrite lookup_singleton_ne by done. naive_solver.
Qed.

(** ** Theorems *)

(** C37: a listener whose transport promises encryption is only ever served by one
    that encrypts, a plain TCP listener only where the transport is plain (or
    where the handler runs SSH itself), and a transport the first gate lets
    through never runs into the second. *)
Theorem run_server_encrypts ps node chain :
  match run_server ps node chain with
  | Ok (h, l) =>
      (Node.transport node ∈ secure_transports → encrypts l = true)
      ∧ (∀ b, l = Server b → Node.transport node ∈ plain_transports)
      ∧ (Node.transport node = str "ssh" → h = SshForwardHandler)
  | Err (ListenerTransport t shown) => ensure_listener_transport_supported node = Err (ListenerTransport t shown)
  | Err _ => True
  end.
Proof.
  unfold run_server. destruct (ensure_listener_transport_supported node) as [u|e] eqn:Eg; cbn [rbind]; [|by destruct e].
  apply listener_gate in Eg as [Ht Hs].
  destruct (choose_handler ps node) as [h|e] eqn:Eh; cbn [rbind].
  2:{ unfold choose_handler in Eh. cbv zeta in Eh.
      repeat match type of Eh with (if ?b then _ else _) = _ => destruct b end; try done;
        try (unfold part in Eh; destruct (shadow_new _ _ _) + destruct (shadow_udp_new _ _ _) + destruct (ssh_forward_new _ _);
             cbn in Eh; simplify_eq; done). }
  pose proof (choose_listener_ok ps node (Chain.is_empty chain) Ht) as Hl.
  destruct (choose_listener ps node (Chain.is_empty chain)) as [l|e]; cbn [rbind]; [|by destruct e].
  unfold listener_ok in Hl. apply andb_true_iff in Hl as [H1 H2]. split_and!.
  - intros Hin. rewrite (bool_decide_true (_ ∈ secure_transports)) in H1 by done. done.
  - intros b ->. by apply bool_decide_eq_true in H2.
  - intros E. by eapply choose_handler_forward, Eh; apply Hs.
Qed.

Section login.
Context {IpNet : Type} (parse_net : bytes → option IpNet) (net_contains : IpNet → IpAddr → bool)
        (glob_match : bytes → bytes → bool) (open : bytes → result io_error Reader)
        (make_resolver : bytes → Chain.Chain → Z → Z → bytes → option IpAddr → option (bytes → result () (list IpAddr))).

Abbreviation built node chain := (build_handler_options parse_net net_contains glob_match open make_resolver node chain).

Lemma built_authenticator node chain :
  authenticator (base (built node chain)) = Auth.authenticate <$> node_authenticator open node.
Proof. done. Qed.

(** Who may log in to a SOCKS5 listener is decided by its secrets file or its
    URL, and a listener asks for a login exactly if it has one of them. *)
Theorem listener_login node chain user pass :
  let o := base (built node chain) in
  (Socks5.authenticate o user pass = true ↔ lets_in (source_of open node) user pass)
  ∧ (requires_login o = false ↔ source_of open node = Open).
Proof.
  cbv zeta. unfold Socks5.authenticate, requires_login, source_of. rewrite built_authenticator. unfold node_authenticator.
  destruct (Node_get node (str "secrets")) as [path|].
  - by destruct (load_secrets_file open path).
  - destruct (Node.user node) as [[u p]|]; [|done]. cbn [fmap option_fmap option_map lets_in].
    rewrite single_login. done.
Qed.


(** A negative number of retries is taken for one just below 2^64. *)
Theorem retry_negative node chain n :
  get_int node (str "retry") = - n → 0 < n ≤ i64_max →
  let c := l_chain (built node chain) in
  Z.of_nat (Chain.tries c (Chain.default_options c)) = 2 ^ 64 - n.
Proof.
  intros Hg Hn. cbv zeta. unfold Chain.tries, Chain.default_options. cbn [Chain.o_retries].
  assert (Chain.retries (l_chain (built node chain)) = Z.to_nat (2 ^ 64 - n)) as ->.
  { unfold build_handler_options. cbn [l_chain Chain.retries]. unfold get_usize. rewrite Hg.
    assert (u64 (- n) = 2 ^ 64 - n) as ->.
    { unfold wrap. unfold i64_max in Hn. symmetry. apply Z.mod_unique_pos with (-1); lia. }
    destruct (Nat.ltb_spec 0 (Z.to_nat (2 ^ 64 - n))); [done|]. unfold i64_max in Hn. lia. }
  unfold i64_max in Hn. destruct (Nat.ltb_spec 0 (Z.to_nat (2 ^ 64 - n))); lia.
Qed.
End login.

(** The mark and interface of the command line reach the sockets of a chain, but
    without a forward address they are dropped: the sockets are connected as
    without them. *)
Theorem cli_mark_dropped url_parse listen forward mark iface servers chain net timeout addr :
  start_from_cli url_parse listen forward mark iface = Ok (servers, chain) →
  Chain.connect_tcp net chain timeout addr
  = if bool_decide (forward = []) || ((mark =? 0) && bool_decide (default [] iface = []))
    then Chain.tcp_connect net timeout addr
    else match Chain.lookup_host net timeout addr with
         | Err e => Err e
         | Ok [] => Err (ProxyError (str "could not resolve " ++ addr))
         | Ok (sockaddr :: _) => Chain.socket_connect net timeout mark (default [] iface) sockaddr
         end.
Proof.
  unfold start_from_cli. intros (c & Hc & H)%rbind_ok. apply rbind_ok in H as (s & _ & H). injection H as <- <-.
  destruct forward as [|f fs]; [injection Hc as <-; done|].
  apply rbind_ok in Hc as (ns & _ & Hc). injection Hc as <-. rewrite bool_decide_false by done. done.
Qed.

(** A remote forwarding listener binds its port on this host, whatever chain it
    is given. *)
Theorem rtcp_binds_here ps node chain :
  Node.transport node = str "rtcp" → Node.protocol node = str "rtcp" → bind ps node = Ok tt →
  run_server ps node chain = Ok (TcpRemoteForwardHandler (Node.remote node), Server false).
Proof.
  intros Ht Hp Hb. unfold run_server, ensure_listener_transport_supported, choose_handler, choose_listener. cbv zeta.
  rewrite Ht, Hp, Hb. by vm_compute.
Qed.

(** ** On a concrete listener *)

(** ** The size of UDP listeners *)

Definition udp_listen_config (node : Node) : Udp.UdpListenConfig :=
  Udp.mkConfig (get_duration node (str "ttl")) (Z.max (get_int node (str "backlog")) 0) (Z.max (get_int node (str "queue")) 0).

(** Whatever a node says, its listener has room for a connection and a datagram, as
    the theorems of Udp.v ask for. *)
Lemma udp_listen_sizes node :
  1 ≤ Udp.queue_size (Udp.normalized (udp_listen_config node)) ∧ 1 ≤ Udp.backlog (Udp.normalized (udp_listen_config node)).
Proof.
  unfold Udp.normalized, udp_listen_config, Udp.DEFAULT_QUEUE_SIZE, Udp.DEFAULT_BACKLOG. cbn [Udp.queue_size Udp.backlog Udp.ttl].
  split; [destruct (Z.eqb_spec (Z.max (get_int node (str "queue")) 0) 0)|destruct (Z.eqb_spec (Z.max (get_int node (str "backlog")) 0) 0)]; lia.
Qed.

(** A URL [socks5://bob:pw@:1080] with one query parameter. *)
Definition demo_listener (key value : bytes) : Node :=
  mkNode 0 (str ":1080") (str ":1080") (str "socks5") (str "tcp") [] (Some (str "bob", Some (str "pw")))
    {[key := value]} 0 None.
Definition no_file (_ : bytes) : result io_error Reader := Err broken_pipe.

Abbreviation demo_built node :=
  (build_handler_options (IpNet := ()) (λ _, None) (λ _ _, false) (λ _ _, false) no_file (λ _ _ _ _ _ _, None) node
     Chain.Chain_empty).

(** A network where every target answers. *)
Definition open_env : Env :=
  mkEnv (λ _ _ _, Ok (talk [42] [])) 0 None (λ _, None)
    (λ _, Err broken_pipe) Closed (λ a, Ok (Ok a)) None (λ _ _, [])
    (Ok tt) (λ _, Err []) (Ok tt) [] broken_pipe [] [] (λ b, [RData b]).


Lemma retry_negative_witness :
  let c := l_chain (demo_built (demo_listener (str "retry") (str "-1"))) in
  Z.of_nat (Chain.tries c (Chain.default_options c)) = 18446744073709551615.
Proof. apply (retry_negative (IpNet := ()) _ _ _ _ _ (demo_listener (str "retry") (str "-1")) _ 1); by vm_compute. Defined.

(** A parser for the URLs [scheme://host:port] of the example. *)
Definition demo_url (_ : bytes) : option Url := Some (mkUrl (str "http") None [] [] None []).

Lemma cli_mark_dropped_witness :
  ∃ servers chain,
    start_from_cli demo_url [str "http://:8080"] [] 7 None = Ok (servers, chain)
    ∧ ∀ net addr, Chain.connect_tcp net chain 0 addr = Chain.tcp_connect net 0 addr.
Proof.
  destruct (start_from_cli demo_url [str "http://:8080"] [] 7 None) as [[servers chain]|e] eqn:E; [|vm_compute in E; done].
  exists servers, chain. split; [done|]. intros net addr. rewrite (cli_mark_dropped _ _ _ _ _ _ _ net 0 addr E). done.
Defined.

Lemma rtcp_binds_here_witness :
  let node := mkNode 0 (str ":2222") (str ":2222") (str "rtcp") (str "rtcp") (str "192.168.1.1:22") None ∅ 0 None in
  let ok (_ : Node) := Ok tt in
  run_server (mkParts (λ _ _, Ok tt) (λ _ _, Ok tt) ok ok ok ok ok ok) node (Chain.Chain_new [demo_second])
  = Ok (TcpRemoteForwardHandler (str "192.168.1.1:22"), Server false).
Proof. intros node ok. apply (rtcp_binds_here _ node); reflexivity. Defined.
