(* ===== verification/Forward.v ===== *)
(** * Port forwarding

    The handlers of src/forward.rs and src/remote_forward.rs: the targets of a
    forwarding listener as a node group, the retry loop over it, which marks
    the targets that fail, and the relays of datagrams. Dialling, the clock and
    the random index are arguments, one per attempt. *)

From stdpp Require Import base list option numbers gmap strings sets.
From Stdlib Require Import ZArith Lia.
From S2P Require Import Prelude Text Utf8 IpAddr Node Selector Permissions Conn Effects Chain Setup.

(** ** The targets *)

(** The addresses of [raddr], and the [?ip=] of the listener. *)
Definition target_addrs (raddr : bytes) (ip : option bytes) : list bytes :=
  filter (λ a, a ≠ []) (split_char ch_comma raddr ++ match ip with Some a => [a] | None => [] end).

(** The [i]-th target, with a marker of its own. *)
Definition target_node (l i : nat) (a : bytes) : Node := mkNode (Z.of_nat i + 1) a a [] [] [] None ∅ (l + i) None.
Definition target_nodes (l : nat) (addrs : list bytes) : list Node := imap (target_node l) addrs.

Definition target_group (l : nat) (addrs : list bytes) : NodeGroup :=
  foldl (λ g n, add_node n g) (NodeGroup_new []) (target_nodes l addrs).

(** [TcpDirectForwardHandler::new], [UdpDirectForwardHandler::new] and
    [UdpRemoteForwardHandler::new] (the latter two without [?ip=]). *)
Definition forward_group (l : nat) (addrs : list bytes) (o : ListenerOptions) : NodeGroup :=
  set_selector (with_filters (strategy o) (max_fails o) (fail_timeout o) (fastest_count o)) (target_group l addrs).
(** [TcpRemoteForwardHandler::new], which keeps the group's own selector. *)
Definition remote_group (l : nat) (addrs : list bytes) : NodeGroup := target_group l addrs.

(** ** The retry loop *)

Section attempts.
Context {E : Type}.

(** What an attempt meets. *)
Record Attempt : Type := mkAttempt {
  at_clock : nat → nat → Z; at_random : nat → nat; at_dial : bytes → result E Conn; at_now : Z }.

Inductive Tried : Type :=
| NoNode
| Reached (c : Conn) (node : Node)
| GaveUp (last_err : option E).

(** [fresh] is the marker of the [Node::default()] that stands for [raddr] when
    the group has no nodes. The addresses dialled are listed. *)
Fixpoint try_targets (fresh : nat) (raddr : bytes) (atts : list Attempt) (g : NodeGroup) (ms : Markers) (node : Node)
    (last_err : option E) : Tried * NodeGroup * Markers * list bytes :=
  match atts with
  | [] => (GaveUp last_err, g, ms, [])
  | a :: atts =>
      let '(picked, g) :=
        match g_nodes g with
        | [] => (Ok node, g)
        | _ => let '(r, g, _) := next fresh ms (at_clock a) (at_random a) g in (r, g)
        end in
      match picked with
      | Err NoneAvailable => (NoNode, g, ms, [])
      | Ok node =>
          let target := match Node.addr node with [] => raddr | t => t end in
          match at_dial a target with
          | Ok c => (Reached c node, g, reset_dead node ms, [target])
          | Err e =>
              let '(r, g, ms, dialled) := try_targets fresh raddr atts g (mark_dead (at_now a) node ms) node (Some e) in
              (r, g, ms, target :: dialled)
          end
      end
  end.
End attempts.
Arguments Attempt : clear implicits.

(** The number of attempts of a handler. *)
Definition forward_tries (o : ListenerOptions) : nat :=
  if (0 <? retries (base o))%nat then retries (base o) else 1%nat.

Definition no_node : HandlerError := Proxy (str "no node available").

(** ** The TCP handlers *)

Section tcp.
Context (fresh : nat) (raddr : bytes) (o : ListenerOptions).

(** [TcpDirectForwardHandler::handle]: [env i] is the [i]-th attempt, which
    dials through the chain; [debug_err] is [{:?}]. *)
Definition tcp_direct_handle (debug_err : option ChainError → bytes) (env : nat → Attempt ChainError) (conn : Conn)
    (g : NodeGroup) (ms : Markers) : result HandlerError () * NodeGroup * Markers * list Event :=
  let '(r, g, ms, dialled) :=
    try_targets fresh raddr (env <$> seq 0 (forward_tries o)) g ms (Node_default fresh) None in
  let trace := Dialled <$> dialled in
  match r with
  | NoNode => (Err no_node, g, ms, trace)
  | GaveUp e => (Err (Proxy (str "failed to connect to " ++ raddr ++ str ": " ++ debug_err e)), g, ms, trace)
  | Reached c _ => (Ok tt, g, ms, trace ++ [Spliced conn c])
  end.

(** [TcpRemoteForwardHandler::handle]: the target is connected to directly; an
    attempt's error is already a handler's. *)
Definition tcp_remote_handle (env : nat → Attempt HandlerError) (conn : Conn) (g : NodeGroup) (ms : Markers) :
    result HandlerError () * NodeGroup * Markers * list Event :=
  let '(r, g, ms, dialled) :=
    try_targets fresh raddr (env <$> seq 0 (forward_tries o)) g ms (Node_default fresh) None in
  let trace := Connected <$> dialled in
  match r with
  | NoNode => (Err no_node, g, ms, trace)
  | GaveUp e => (Err (default (Proxy (str "no target")) e), g, ms, trace)
  | Reached c _ => (Ok tt, g, ms, trace ++ [Spliced c conn])
  end.
End tcp.

(** ** The UDP relays *)

(** One turn of a relay's [select!]: a read from the client with the outcome of
    sending it on, a datagram from the target with the outcome of writing it
    back, or the idle timer. *)
Inductive RelayEv : Set :=
| FromClient (r : result io_error bytes) (sent : result io_error ())
| FromTarget (r : result io_error bytes) (written : result io_error ())
| IdleFor.

(** The datagrams sent on, the bytes written back, and how it ended; [None] if
    it is still running. *)
Fixpoint relay_loop (evs : list RelayEv) : option (result HandlerError ()) * list bytes * list bytes :=
  match evs with
  | [] => (None, [], [])
  | IdleFor :: _ | FromClient (Err _) _ :: _ | FromClient (Ok []) _ :: _ | FromTarget (Err _) _ :: _ => (Some (Ok tt), [], [])
  | FromClient (Ok d) (Err e) :: _ => (Some (Err (Io e)), [d], [])
  | FromTarget (Ok d) (Err e) :: _ => (Some (Err (Io e)), [], [d])
  | FromClient (Ok d) (Ok _) :: evs => let '(r, out, back) := relay_loop evs in (r, d :: out, back)
  | FromTarget (Ok d) (Ok _) :: evs => let '(r, out, back) := relay_loop evs in (r, out, d :: back)
  end.

(** The target of a datagram relay. *)
Definition pick_target (fresh : nat) (raddr : bytes) (clock : nat → nat → Z) (random : nat → nat) (g : NodeGroup)
    (ms : Markers) : result HandlerError Node * NodeGroup :=
  match g_nodes g with
  | [] => (Ok (Node_default fresh), g)
  | _ =>
      let '(r, g, _) := next fresh ms clock random g in
      (match r with Ok n => Ok n | Err _ => Err no_node end, g)
  end.
Definition node_target (raddr : bytes) (n : Node) : bytes := match Node.addr n with [] => raddr | t => t end.

(** [UdpDirectForwardHandler::handle], with the outcome of [dial_udp]: where the
    datagrams are sent. *)
Definition udp_direct_handle (fresh : nat) (raddr : bytes) (clock : nat → nat → Z) (random : nat → nat)
    (dial_udp : result ChainError ()) (show_addr_error : AddrError → bytes) (g : NodeGroup) (ms : Markers)
    (evs : list RelayEv) : option (result HandlerError ()) * NodeGroup * list (bytes * Z * bytes) * list bytes :=
  match pick_target fresh raddr clock random g ms with
  | (Err e, g) => (Some (Err e), g, [], [])
  | (Ok node, g) =>
      let target := node_target raddr node in
      let fail msg := (Some (Err (Proxy (str "udp forward target " ++ target ++ str ": " ++ msg))), g, [], []) in
      match Permissions.split_host_port target with
      | Err e => fail (show_addr_error e)
      | Ok (host, port) =>
          match parse_u16 port with
          | None => fail (str "bad port")
          | Some port =>
              match dial_udp with
              | Err e => (Some (Err (ChainFailed e)), g, [], [])
              | Ok _ => let '(r, out, back) := relay_loop evs in (r, g, (λ d, (host, port, d)) <$> out, back)
              end
          end
      end
  end.

(** [UdpRemoteForwardHandler::handle]: binding a socket and connecting it. *)
Definition udp_remote_handle (fresh : nat) (raddr : bytes) (clock : nat → nat → Z) (random : nat → nat) (now : Z)
    (bound : result io_error ()) (connected : bytes → result io_error ()) (g : NodeGroup) (ms : Markers)
    (evs : list RelayEv) : option (result HandlerError ()) * NodeGroup * Markers * list (bytes * bytes) * list bytes :=
  match pick_target fresh raddr clock random g ms with
  | (Err e, g) => (Some (Err e), g, ms, [], [])
  | (Ok node, g) =>
      let target := node_target raddr node in
      match bound with
      | Err e => (Some (Err (Io e)), g, ms, [], [])
      | Ok _ =>
          match connected target with
          | Err e => (Some (Err (Io e)), g, mark_dead now node ms, [], [])
          | Ok _ =>
              let '(r, out, back) := relay_loop evs in (r, g, reset_dead node ms, (λ d, (target, d)) <$> out, back)
          end
      end
  end.

(** ** The group of a handler *)

Lemma foldl_add_nodes ns g :
  foldl (λ g n, add_node n g) g ns = mkGroup (g_id g) (g_nodes g ++ ns) (g_selector g).
Proof.
  revert g. induction ns as [|n ns IH]; intros g; cbn [foldl].
  - by destruct g; cbn; rewrite app_nil_r.
  - rewrite IH. cbn. by rewrite <-app_assoc.
Qed.

Lemma target_group_eq l addrs : target_group l addrs = mkGroup 0 (target_nodes l addrs) (Some (DefaultSelector 0)).
Proof. unfold target_group. by rewrite foldl_add_nodes. Qed.

Lemma target_node_lookup l addrs n :
  n ∈ target_nodes l addrs ↔ ∃ i a, addrs !! i = Some a ∧ n = target_node l i a.
Proof.
  unfold target_nodes. rewrite list_elem_of_lookup. setoid_rewrite list_lookup_imap. split.
  - intros [i H]. destruct (addrs !! i) as [a|] eqn:E; [|done]. cbn in H. simplify_eq. eauto.
  - intros (i & a & E & ->). exists i. by rewrite E.
Qed.

(** Targets have markers of their own. *)
Lemma target_markers l addrs n m : n ∈ target_nodes l addrs → m ∈ target_nodes l addrs → marker n = marker m → n = m.
Proof.
  intros (i & a & Ea & ->)%target_node_lookup (j & b & Eb & ->)%target_node_lookup E. cbn in E.
  assert (i = j) as -> by lia. congruence.
Qed.

Lemma target_addrs_nonempty raddr ip a : a ∈ target_addrs raddr ip → a ≠ [].
Proof. unfold target_addrs. rewrite list_elem_of_filter. tauto. Qed.

Lemma next_group fresh nodes ms clock random gid sel :
  nodes ≠ [] →
  ∃ r sel' p, next fresh ms clock random (mkGroup gid nodes (Some sel)) = (r, mkGroup gid nodes (Some sel'), p)
    ∧ select fresh ms clock random sel nodes = (r, sel', p).
Proof.
  intros Hne. destruct (select fresh ms clock random sel nodes) as [[r sel'] p] eqn:Es. exists r, sel', p. split; [|done].
  unfold next. cbn [g_nodes g_selector g_id]. destruct nodes; [done|]. by rewrite Es.
Qed.

Lemma nonempty_match {A B} (l : list A) (x y : B) : l ≠ [] → match l with [] => x | _ => y end = y.
Proof. by destruct l. Qed.

(** ** Reaching a live target *)

Section reach.
Context {E : Type} (fresh : nat) (raddr : bytes) (nodes : list Node) (ft : Z).
Hypothesis Hmarkers : ∀ n m, n ∈ nodes → m ∈ nodes → marker n = marker m → n = m.
Hypothesis Haddrs : ∀ n, n ∈ nodes → Node.addr n ≠ [].
Hypothesis Hft : 0 ≤ as_secs ft < 2 ^ 63.

Definition valid_nodes : list Node := filter (λ n, valid_port n = true) nodes.

(** The targets that failed so far: they are marked, at one of the times
    [times]; the others are not. *)
Definition failed_ok (times : list Z) (failed : list Node) (ms : Markers) : Prop :=
  (∀ n, n ∈ failed → fail_count (marker_at ms (marker n)) = 1 ∧ fail_time (marker_at ms (marker n)) ∈ times)
  ∧ (∀ n, n ∈ nodes → n ∉ failed → fail_count (marker_at ms (marker n)) = 0).

Lemma failed_ok_mark times failed ms t n :
  failed_ok times failed ms → (∀ m, m ∈ failed → m ∈ nodes) → n ∈ nodes → n ∉ failed → t ∈ times →
  failed_ok times (n :: failed) (mark_dead t n ms).
Proof.
  intros [Hf Hn] Hsub Hin Hnot Ht. split.
  - intros m [->|Hm]%elem_of_cons; unfold mark_dead, marker_at.
    + rewrite lookup_insert_eq. cbn. fold (marker_at ms (marker n)). rewrite Hn by done. done.
    + rewrite lookup_insert_ne; [by apply Hf|]. intros Em. apply Hnot.
      rewrite (Hmarkers n m); [done|done|by apply Hsub|done].
  - intros m Hm [Hne Hnf]%not_elem_of_cons. unfold mark_dead, marker_at. rewrite lookup_insert_ne; [by apply Hn|].
    intros Em. apply Hne. symmetry. by apply Hmarkers.
Qed.

(** A failed target is not picked again, unless it is the only one. *)
Lemma picked_not_failed times failed ms now n live :
  failed_ok times failed ms → (∀ t, t ∈ times → now - t < as_secs ft) →
  live ∈ nodes → valid_port live = true → live ∉ failed →
  n ∈ eligible ms now 1 ft nodes → n ∈ valid_nodes ∧ n ∉ failed.
Proof.
  intros [Hf _] Ht Hl Hv Hnl Hn. unfold eligible in Hn. fold valid_nodes in Hn.
  assert (live ∈ valid_nodes) as Hlv by (by apply list_elem_of_filter).
  destruct (Nat.leb_spec (length valid_nodes) 1) as [Hlen|Hlen].
  - split; [done|]. destruct valid_nodes as [|x [|y vs]]; [set_solver| |cbn in Hlen; lia].
    apply list_elem_of_singleton in Hlv, Hn. congruence.
  - apply list_elem_of_filter in Hn as [Hk Hn]. split; [done|]. intros Hin. destruct (Hf n Hin) as [Hc Htime].
    specialize (Ht _ Htime). unfold fail_keeps in Hk. rewrite Hc in Hk. unfold to_signed in Hk.
    destruct (Z.ltb_spec (as_secs ft) (2 ^ (64 - 1))); [|lia]. zbool. lia.
Qed.

Lemma live_eligible times failed ms now live :
  failed_ok times failed ms → live ∈ nodes → valid_port live = true → live ∉ failed →
  live ∈ eligible ms now 1 ft nodes.
Proof.
  intros [_ Hn] Hl Hv Hnl. unfold eligible. fold valid_nodes.
  assert (live ∈ valid_nodes) as Hlv by (by apply list_elem_of_filter).
  destruct (_ <=? 1)%nat; [done|]. apply list_elem_of_filter. split; [|done]. unfold fail_keeps. rewrite Hn by done. done.
Qed.

(** With an attempt for each target, one that answers is reached. *)
Lemma try_targets_reach (atts : list (Attempt E)) gid sel ms node err failed live :
  fail_selector 1 ft sel →
  Forall (λ a, (∀ k, (0 < k)%nat → (at_random a k < k)%nat)
    ∧ (∀ b, b ∈ atts → at_clock a 1%nat 0%nat - at_now b < as_secs ft)
    ∧ ∃ c, at_dial a (Node.addr live) = Ok c) atts →
  live ∈ nodes → valid_port live = true → live ∉ failed → NoDup failed → (∀ m, m ∈ failed → m ∈ valid_nodes) →
  (length valid_nodes ≤ length atts + length failed)%nat →
  ∀ times, failed_ok times failed ms → (∀ a t, a ∈ atts → t ∈ times → at_clock a 1%nat 0%nat - t < as_secs ft) →
  ∃ c n g' ms' dialled, try_targets fresh raddr atts (mkGroup gid nodes (Some sel)) ms node err
      = (Reached c n, g', ms', dialled)
    ∧ n ∈ nodes ∧ last dialled = Some (Node.addr n)
    ∧ Forall (λ d, ∃ m, m ∈ nodes ∧ d = Node.addr m) dialled ∧ marker_at ms' (marker n) = FailMarker_new.
Proof.
  intros Hsel Hatts Hl Hv. revert sel ms node err failed Hsel. induction atts as [|a atts IH];
    intros sel ms node err failed Hsel Hnl Hnd Hsub Hlen times Hok Htime.
  { exfalso. assert (length (live :: failed) ≤ length valid_nodes)%nat; [|cbn in *; lia].
    apply submseteq_length, NoDup_submseteq; [by constructor|]. intros m [->|Hm]%elem_of_cons; [|by apply Hsub].
    by apply list_elem_of_filter. }
  apply Forall_cons in Hatts as [(Hg & Hc & c & Hd) Hrest]. cbn [try_targets g_nodes].
  assert (nodes ≠ []) as Hnodes by (intros E0; rewrite E0 in Hl; by apply elem_of_nil in Hl).
  destruct (next_group fresh nodes ms (at_clock a) (at_random a) gid sel Hnodes) as (r & sel' & p & En & Es).
  pose proof (fail_selector_step fresh ms (at_clock a) (at_random a) 1 ft sel nodes Hsel Hg) as Hs. rewrite Es in Hs.
  destruct Hs as [Hsel' Hs]. rewrite nonempty_match, En by exact Hnodes.
  destruct r as [n|[]].
  2:{ exfalso. pose proof (live_eligible times failed ms (at_clock a 1%nat 0%nat) live Hok Hl Hv Hnl) as Hel.
      rewrite Hs in Hel. by apply elem_of_nil in Hel. }
  destruct (picked_not_failed times failed ms (at_clock a 1%nat 0%nat) n live) as [Hnv Hnf];
    [done|intros t Ht; apply Htime; [apply elem_of_cons; by left|done]|done..|].
  assert (n ∈ nodes) as Hn by (apply list_elem_of_filter in Hnv; tauto).
  assert (match Node.addr n with [] => raddr | t => t end = Node.addr n) as Et.
  { specialize (Haddrs n Hn). by destruct (Node.addr n). }
  rewrite Et. destruct (at_dial a (Node.addr n)) as [cn|e] eqn:Ed.
  { eexists cn, n, _, _, _. split_and!; [reflexivity|done|done|repeat constructor; eauto|].
    unfold reset_dead, marker_at. by rewrite lookup_insert_eq. }
  assert (live ≠ n) as Hne by (intros ->; congruence).
  destruct (IH ltac:(eapply Forall_impl; [exact Hrest|]; cbn; intros b (H1 & H2 & H3); split_and!; [done|intros d Hb; apply H2, elem_of_cons; by right|done])
               sel' (mark_dead (at_now a) n ms) n (Some e) (n :: failed) Hsel') with (times := at_now a :: times)
    as (c' & n' & g' & ms' & dialled & -> & Hn' & Hlast & Hall & Hm).
  - apply not_elem_of_cons. done.
  - by constructor.
  - intros m [->|Hm]%elem_of_cons; [done|by apply Hsub].
  - cbn in *. lia.
  - apply failed_ok_mark; [|intros m Hm; apply Hsub, list_elem_of_filter in Hm; tauto|done|done|apply elem_of_cons; by left].
    destruct Hok as [H1 H2]. split; [|done]. intros m Hm. destruct (H1 m Hm) as [? ?]. split; [done|apply elem_of_cons; by right].
  - intros b t Hb [->|Ht]%elem_of_cons; [|apply Htime; [apply elem_of_cons; by right|done]].
    rewrite Forall_forall in Hrest. destruct (Hrest b Hb) as (_ & H2 & _). apply H2, elem_of_cons. by left.
  - eexists c', n', _, _, _. split_and!; [reflexivity|done| |constructor; eauto|done].
    destruct dialled as [|d ds]; [done|]. by rewrite last_cons_cons.
Qed.
End reach.

(** ** Only the targets *)

Lemma filter_sub ms now f nodes n : n ∈ (Filter_filter ms now f nodes).1.1 → n ∈ nodes.
Proof.
  destruct f as [|mf ft|top pt results]; cbn [Filter_filter].
  - cbn [fst]. rewrite list_elem_of_filter. tauto.
  - destruct (_ <=? _)%nat; cbn [fst]; [done|]. rewrite list_elem_of_filter. tauto.
  - destruct (Nat.eqb_spec top 0); [done|].
    destruct (fastest_filter_spec ms now top pt results nodes) as (sorted & r' & p & H & _ & _ & Hp & _); [done|].
    cbn [Filter_filter] in H. destruct (Nat.eqb_spec top 0); [done|]. rewrite H. cbn [fst]. intros Hn.
    rewrite <-Hp. by eapply subseteq_take.
Qed.

Lemma run_filters_sub ms clock fs nodes l fs' p :
  run_filters ms clock fs nodes = (Some l, fs', p) → nodes ≠ [] → l ≠ [] ∧ ∀ n, n ∈ l → n ∈ nodes.
Proof.
  revert clock nodes l fs' p. induction fs as [|f fs IH]; intros clock nodes l fs' p H Hne; cbn [run_filters] in H.
  { by simplify_eq. }
  pose proof (filter_sub ms (clock 0%nat) f nodes) as Hsub.
  destruct (Filter_filter ms (clock 0%nat) f nodes) as [[cand f1] p1]. cbn [fst] in Hsub.
  destruct (decide (cand = [])) as [->|Ec]; [done|]. rewrite nonempty_match in H by done.
  destruct (run_filters ms (λ k, clock (S k)) fs cand) as [[r fs2] p2] eqn:Er. simplify_eq.
  destruct (IH _ _ _ _ _ Er) as [H1 H2]; [done|]. split; [done|]. intros n Hn. by apply Hsub, H2.
Qed.

(** Any selector picks one of the nodes. *)
Lemma select_in fresh ms clock random sel nodes n sel' p :
  (∀ k, (0 < k)%nat → (random k < k)%nat) → nodes ≠ [] →
  select fresh ms clock random sel nodes = (Ok n, sel', p) → n ∈ nodes.
Proof.
  intros Hg Hne H. destruct sel as [c|fs st]; cbn [select] in H.
  - assert (n = nth_mod fresh nodes c) as -> by (destruct nodes; congruence).
    eapply list_elem_of_lookup_2. by apply nth_mod_lookup.
  - destruct (run_filters ms clock fs nodes) as [[[l|] fs'] p'] eqn:Er; [|done].
    destruct (run_filters_sub _ _ _ _ _ _ _ Er Hne) as [Hl Hsub].
    pose proof (Strategy_apply_in fresh random st l Hg Hl) as Ha.
    destruct (Strategy_apply fresh random st l) as [n' st']. simplify_eq. by apply Hsub.
Qed.

Lemma try_targets_only {E} fresh raddr (atts : list (Attempt E)) gid nodes sel ms node err r g' ms' dialled :
  Forall (λ a, ∀ k, (0 < k)%nat → (at_random a k < k)%nat) atts → nodes ≠ [] → (∀ n, n ∈ nodes → Node.addr n ≠ []) →
  try_targets fresh raddr atts (mkGroup gid nodes (Some sel)) ms node err = (r, g', ms', dialled) →
  Forall (λ d, ∃ n, n ∈ nodes ∧ d = Node.addr n) dialled ∧ ∃ sel', g' = mkGroup gid nodes (Some sel').
Proof.
  intros Hatts Hne Ha. revert sel ms node err r g' ms' dialled.
  induction Hatts as [|a atts Hg Hatts IH]; intros sel ms node err r g' ms' dialled H; cbn [try_targets g_nodes] in H.
  { simplify_eq. split; [constructor|eauto]. }
  destruct (next_group fresh nodes ms (at_clock a) (at_random a) gid sel Hne) as (q & sel' & p & En & Es).
  rewrite nonempty_match, En in H by exact Hne. destruct q as [n|[]]; [|simplify_eq; split; [constructor|eauto]].
  pose proof (select_in _ _ _ _ _ _ _ _ _ Hg Hne Es) as Hn.
  assert (match Node.addr n with [] => raddr | t => t end = Node.addr n) as Et.
  { specialize (Ha n Hn). by destruct (Node.addr n). }
  rewrite Et in H. destruct (at_dial a (Node.addr n)); [simplify_eq; split; [repeat constructor; eauto|eauto]|].
  destruct (try_targets _ _ _ _ _ _ _) as [[[r1 g1] ms1] d1] eqn:Er. simplify_eq.
  apply IH in Er as [Hf Hgr]. split; [constructor; eauto|done].
Qed.

Lemma target_nodes_empty l addrs : target_nodes l addrs = [] ↔ addrs = [].
Proof.
  split; [|by intros ->]. intros H. destruct addrs as [|a addrs]; [done|].
  assert (target_node l 0 a ∈ target_nodes l (a :: addrs)) as Hin by (apply target_node_lookup; by exists 0%nat, a).
  rewrite H in Hin. by apply elem_of_nil in Hin.
Qed.

Lemma target_node_addr l addrs n : n ∈ target_nodes l addrs → Node.addr n ∈ addrs.
Proof. intros (i & a & Ha & ->)%target_node_lookup. cbn. by eapply list_elem_of_lookup_2. Qed.

Lemma target_nodes_addrs l raddr ip n : n ∈ target_nodes l (target_addrs raddr ip) → Node.addr n ≠ [].
Proof. intros Hn. by eapply target_addrs_nonempty, target_node_addr. Qed.

Definition timeout_of (o : ListenerOptions) : Z := if fail_timeout o =? 0 then DEFAULT_FAIL_TIMEOUT else fail_timeout o.

(** A handler that fails a target after one failure, as by default. *)
Lemma forward_selector o :
  0 ≤ max_fails o ≤ 1 →
  fail_selector 1 (timeout_of o) (with_filters (strategy o) (max_fails o) (fail_timeout o) (fastest_count o)).
Proof.
  intros Hm. unfold with_filters, FailFilter_new, timeout_of.
  assert ((if max_fails o =? 0 then DEFAULT_MAX_FAILS else max_fails o) = 1) as ->.
  { unfold DEFAULT_MAX_FAILS. destruct (Z.eqb_spec (max_fails o) 0); lia. }
  eexists _, _. split; [reflexivity|]. destruct (fastest_count o) as [|top]; cbn; [by left|right]. by eexists (S top), _, _.
Qed.


(** A forwarding listener connects its clients to its targets and to nothing
    else, in whatever state its selector is and whatever has failed. *)
Theorem forward_only_targets fresh l raddr o debug_err env conn ms sel r g' ms' tr :
  let addrs := target_addrs raddr (Node_get (l_node o) (str "ip")) in
  (∀ i k, (0 < k)%nat → (at_random (env i) k < k)%nat) → addrs ≠ [] →
  tcp_direct_handle fresh raddr o debug_err env conn (mkGroup 0 (target_nodes l addrs) (Some sel)) ms = (r, g', ms', tr) →
  (∃ sel', g' = mkGroup 0 (target_nodes l addrs) (Some sel'))
  ∧ ∃ dialled, Forall (λ d, d ∈ addrs) dialled
    ∧ ((∃ e, r = Err e ∧ tr = Dialled <$> dialled) ∨ (r = Ok tt ∧ ∃ c, tr = (Dialled <$> dialled) ++ [Spliced conn c])).
Proof.
  intros addrs Hg Hne H. unfold tcp_direct_handle in H.
  destruct (try_targets _ _ _ _ _ _ _) as [[[q g1] ms1] dialled] eqn:E.
  assert (g1 = g') as -> by (by destruct q; simplify_eq).
  apply try_targets_only in E as [Hall Hsel].
  - split; [done|]. exists dialled. split.
    + eapply Forall_impl; [exact Hall|]. intros d (m & Hin & ->). by eapply target_node_addr.
    + destruct q; simplify_eq; eauto.
  - apply Forall_fmap, Forall_true. intros i. exact (Hg i).
  - by rewrite target_nodes_empty.
  - apply target_nodes_addrs.
Qed.

(** Remote forwarding picks its next target without regard to failures: dead
    targets stay in the rotation. *)
Theorem remote_ignores_failures fresh l addrs c ms ms' clock clock' random random' :
  let g := mkGroup 0 (target_nodes l addrs) (Some (DefaultSelector c)) in
  next fresh ms clock random g = next fresh ms' clock' random' g
  ∧ remote_group l addrs = mkGroup 0 (target_nodes l addrs) (Some (DefaultSelector 0)).
Proof. intros g. split; [|apply target_group_eq]. unfold next, g. by destruct (target_nodes l addrs). Qed.

(** ** On two targets *)

Definition demo_options (n : Node) : ListenerOptions :=
  mkListener (mkOptions [] None None None None 2 0) Chain.Chain_empty n [] [] (str "fifo") 0 0 0 [] [].

(** The first target is dead, and the clock stands still. *)
Definition half_dead (_ : nat) : Attempt ChainError :=
  mkAttempt (λ _ _, 100) (λ _, 0%nat) (λ a, if bool_decide (a = str "b:2") then Ok (talk [42] []) else Err Timeout) 100.


Lemma forward_only_targets_witness :
  let o := demo_options (Node_default 0) in
  let '(r, _, _, tr) := tcp_direct_handle 9 (str "a:1,b:2") o (λ _, []) half_dead (talk [7] [])
     (mkGroup 0 (target_nodes 1 (target_addrs (str "a:1,b:2") None)) (Some (DefaultSelector 0))) ∅ in
  r = Ok tt ∧ ∃ dialled, Forall (λ d, d ∈ target_addrs (str "a:1,b:2") None) dialled
    ∧ ((∃ e, r = Err e ∧ tr = Dialled <$> dialled) ∨ (r = Ok tt ∧ ∃ c, tr = (Dialled <$> dialled) ++ [Spliced (talk [7] []) c])).
Proof.
  intros o. destruct (tcp_direct_handle _ _ _ _ _ _ _ _) as [[[r g'] ms'] tr] eqn:E.
  destruct (forward_only_targets 9 1 (str "a:1,b:2") o (λ _, []) half_dead (talk [7] []) ∅ (DefaultSelector 0) r g' ms' tr)
    as [_ H]; [intros i k Hk; exact Hk|by vm_compute|exact E|]. split; [vm_compute in E; congruence|exact H].
Defined.
