(* ===== verification/Ssh.v ===== *)
(** * SSH port forwarding, the server

    Models the listener's half of src/ssh.rs: configuration, authorised keys, the
    credentials a listener accepts, and the session of one client, as a transition
    system in which the requests of the client interleave with the tasks of the
    ports it had opened. The SSH protocol itself is russh's: it calls the handler,
    and the calls are the events of the system. Keys, their fingerprints and files
    are parameters. *)

From stdpp Require Import base list option numbers strings gmap sets.
From Stdlib Require Import ZArith Lia.
From S2P Require Import Prelude Text Utf8 AsyncIo IpAddr Node Reload Auth Permissions Conn Socks5Addr SocketText Effects Chain Setup.

Module Ssh.

(** ** Errors *)

(** An error carries what its message shows. *)
Inductive ConfigError : Set :=
| CannotRead (path : bytes) (e : io_error)
| CannotParse (path : bytes)
| BadLine (n : nat)
| NoHostKey
| NoAuthentication
| NoCredentials
| TunnelUnsupported (role : bytes).

Inductive ProtocolError : Set :=
| Unbalanced (addr : bytes)
| MissingPort (addr : bytes)
| InvalidAddress (addr : bytes)
| InvalidPort (addr : bytes)
| HandshakeTimeout (addr : bytes)
| DirectFailed (raddr addr : bytes)
| ForwardFailed (address addr : bytes).

Inductive SshError : Set :=
| SshIo (e : io_error)
| Config (e : ConfigError)
| Protocol (e : ProtocolError)
| SshAuthFailed
| Russh (msg : bytes)
| Key (msg : bytes)
| SshChain (e : ChainError).

(** [From<SshError> for HandlerError]; [text] is the error's message. *)
Definition to_handler_error (text : SshError → bytes) (e : SshError) : HandlerError :=
  match e with
  | SshIo e => Io e
  | SshAuthFailed => AuthFailed
  | SshChain e => ChainFailed e
  | other => Proxy (text other)
  end.

(** ** Configuration *)

Record SshConfig : Set := mkConfig {
  key_file : option bytes;
  authorized_keys_file : option bytes;
  key_passphrase : option bytes;
  password : option bytes;
  user : option bytes;
  host_key_file : option bytes;
  ping_interval : Z;
  ping_retries : Z;
  cfg_timeout : Z
}.

Definition given (node : Node) (key : string) : option bytes :=
  s ← Node_get node (str key); if bool_decide (s = []) then None else Some s.

Definition from_node (node : Node) : SshConfig :=
  let '(user, password) := match Node.user node with Some (u, p) => (Some u, p) | None => (None, None) end in
  mkConfig (given node "ssh_key") (given node "ssh_authorized_keys") (given node "ssh_key_passphrase") password user
    (given node "ssh_host_key") (get_duration node (str "ping")) (Z.max (get_int node (str "retry")) 0)
    (get_duration node (str "timeout")).

Definition DEFAULT_HANDSHAKE_TIMEOUT : Z := 30000000000.

Definition handshake_timeout (c : SshConfig) : Z :=
  if cfg_timeout c =? 0 then DEFAULT_HANDSHAKE_TIMEOUT else cfg_timeout c.

(** ** Addresses *)

Definition join_host_port (host : bytes) (port : Z) : bytes :=
  if contains_char ch_colon host && negb (starts_with [ch_lbracket] host)
  then [ch_lbracket] ++ host ++ [ch_rbracket; ch_colon] ++ show_int port
  else host ++ [ch_colon] ++ show_int port.

Definition split_host_port (addr : bytes) : result SshError (bytes * Z) :=
  hp <-? (match strip_prefix [ch_lbracket] addr with
          | Some rest =>
              match split_once ch_rbracket rest with
              | None => Err (Protocol (Unbalanced addr))
              | Some (host, rest) =>
                  match strip_prefix [ch_colon] rest with
                  | None => Err (Protocol (MissingPort addr))
                  | Some port => Ok (host, port)
                  end
              end
          | None =>
              match rsplit_once ch_colon addr with
              | None => Err (Protocol (InvalidAddress addr))
              | Some hp => Ok hp
              end
          end) ;;
  match parse_u16 hp.2 with
  | None => Err (Protocol (InvalidPort addr))
  | Some port => Ok (hp.1, port)
  end.

(** ** Comparing secrets *)

Definition constant_time_eq (a b : bytes) : bool :=
  if negb (length a =? length b)%nat then false
  else foldl (λ diff xy, Z.lor diff (Z.lxor xy.1 xy.2)) 0 (zip a b) =? 0.

Lemma constant_time_eq_spec a b : constant_time_eq a b = true ↔ a = b.
Proof.
  unfold constant_time_eq. destruct (Nat.eqb_spec (length a) (length b)) as [Hl|Hl]; cbn [negb];
    [|split; [done|intros ->; done]].
  rewrite Z.eqb_eq.
  cut (∀ d, foldl (λ diff xy, Z.lor diff (Z.lxor xy.1 xy.2)) d (zip a b) = 0 ↔ d = 0 ∧ a = b).
  { intros H. rewrite H. tauto. }
  revert b Hl. induction a as [|x a IH]; intros [|y b] Hl d; try done.
  - cbn. tauto.
  - cbn. rewrite IH by (cbn in Hl; lia). cbn. rewrite Z.lor_eq_0_iff, Z.lxor_eq_0_iff. split; [|intros [-> [= -> ->]]; done].
    intros [[-> ->] ->]. done.
Qed.

(** ** Credentials of a listener *)

Section server.
(** [std::fs::read_to_string]; [PublicKey::from_openssh]; the SHA-256 fingerprint;
    [decode_secret_key] and [rcgen]'s fresh key. *)
Context {PublicKey PrivateKey : Type}.
Context (read_to_string : bytes → result io_error bytes) (from_openssh : bytes → option PublicKey)
        (fingerprint : PublicKey → bytes) (decode_secret_key : bytes → option bytes → option PrivateKey)
        (fresh_key : option PrivateKey).

Definition read_file (path : bytes) : result SshError bytes :=
  match read_to_string path with Ok t => Ok t | Err e => Err (Config (CannotRead path e)) end.

Definition parse_ssh_key_file (path : bytes) (passphrase : option bytes) : result SshError PrivateKey :=
  text <-? read_file path ;;
  match decode_secret_key text passphrase with Some k => Ok k | None => Err (Config (CannotParse path)) end.

Definition generate_host_key : result SshError PrivateKey :=
  match fresh_key with Some k => Ok k | None => Err (Config NoHostKey) end.

(** [AuthorizedKeys]: the fingerprints. *)
Definition AuthorizedKeys : Type := gset bytes.

(** The lines of [text], numbered from [n]; a line's end is no part of it and is
    white space anyway. *)
Fixpoint parse_keys (n : nat) (lines : list bytes) (fingerprints : AuthorizedKeys) : result SshError AuthorizedKeys :=
  match lines with
  | [] => Ok fingerprints
  | line :: lines =>
      let line := trim line in
      if bool_decide (line = []) || starts_with [ch_hash] line then parse_keys (S n) lines fingerprints
      else
        match from_openssh line with
        | None => Err (Config (BadLine n))
        | Some key => parse_keys (S n) lines ({[fingerprint key]} ∪ fingerprints)
        end
  end.
Definition AuthorizedKeys_parse (text : bytes) : result SshError AuthorizedKeys := parse_keys 1 (split_char ch_lf text) ∅.

Definition keys_contain (ks : AuthorizedKeys) (key : PublicKey) : bool := bool_decide (fingerprint key ∈ ks).

Definition parse_ssh_authorized_keys_file (path : bytes) : result SshError AuthorizedKeys :=
  text <-? read_file path ;; AuthorizedKeys_parse text.

Record SshServerAuth : Type := mkServerAuth {
  auth_users : gmap bytes bytes;
  auth_source : option (bytes → bytes → bool);
  authorized_keys : AuthorizedKeys
}.

Definition users_map (us : list (bytes * option bytes)) : gmap bytes bytes :=
  foldl (λ m up, <[up.1 := default [] up.2]> m) ∅ us.

Definition auth_build (options : HandlerOptions) (config : SshConfig) : result SshError SshServerAuth :=
  keys <-? (match authorized_keys_file config with
            | Some path => parse_ssh_authorized_keys_file path
            | None => Ok ∅
            end) ;;
  let us := users_map (users options) in
  if bool_decide (us = ∅) && bool_decide (authenticator options = None) && bool_decide (keys = ∅)
  then Err (Config NoAuthentication)
  else Ok (mkServerAuth us (authenticator options) keys).

Definition password_enabled (a : SshServerAuth) : bool :=
  negb (bool_decide (auth_users a = ∅)) || bool_decide (is_Some (auth_source a)).

Definition check_password (a : SshServerAuth) (user password : bytes) : bool :=
  match auth_users a !! user with Some expected => constant_time_eq expected password | None => false end
  || match auth_source a with Some au => au user password | None => false end.

Definition check_publickey (a : SshServerAuth) (key : PublicKey) : bool := keys_contain (authorized_keys a) key.

(** ** The handler *)

Inductive MethodKind : Set := Password | PublicKeyMethod.

(** The options of the listener, the host key and the methods it offers. *)
Record SshForwardHandler : Type := mkHandler {
  h_options : HandlerOptions;
  h_auth : SshServerAuth;
  host_key : PrivateKey;
  methods : list MethodKind
}.

Definition handler_new (options : HandlerOptions) (config : SshConfig) : result SshError SshForwardHandler :=
  auth <-? auth_build options config ;;
  key <-? (match key_file config with
           | Some path => parse_ssh_key_file path (key_passphrase config)
           | None => generate_host_key
           end) ;;
  Ok (mkHandler options auth key
        ((if password_enabled auth then [Password] else [])
         ++ (if bool_decide (authorized_keys auth = ∅) then [] else [PublicKeyMethod]))).

(** [handle]: [opened] is how [run_stream] went and [ended] how the session did. *)
Definition handle (text : SshError → bytes) (opened ended : result SshError ()) : result HandlerError () :=
  match opened with
  | Err e => Err (to_handler_error text e)
  | Ok _ => match ended with Ok _ => Ok tt | Err _ => Ok tt end
  end.

(** ** The session of one client *)

(** A port opened for the client: what was asked for, where it listens, whether
    its task still runs and whether its token is cancelled. *)
Record Forward : Set := mkForward { f_address : bytes; f_port : Z; f_local : SocketAddr; f_open : bool; f_cancelled : bool }.

(** [forwards] leads to the tokens, which are known by the order they were made in;
    [tasks] are the loops that watch them. *)
Record Session : Type := mkSession { s_user : bytes; forwards : gmap (bytes * Z) nat; tasks : list Forward }.

Definition session_start : Session := mkSession [] ∅ [].

(** The calls of the SSH library, with what the system answers to them, and the
    steps of the tasks. [Dropped] is the end of the session. *)
Inductive Ev : Type :=
| AuthPassword (user password : bytes)
| AuthPublickey (user : bytes) (key : PublicKey)
| DirectTcpip (host : bytes) (port : Z) (dialled : bool)
| TcpipForward (address : bytes) (port : Z) (bound : result io_error (result io_error SocketAddr))
| CancelForward (address : bytes) (port : Z)
| Accepted (id : nat) (from : SocketAddr) (opened : bool)
| AcceptFailed (id : nat)
| SawCancel (id : nat)
| Dropped.

(** What the session does. *)
Inductive Act : Set :=
| AuthAnswer (accept : bool)
| ChannelAnswer (accept : bool)
| Dial (raddr : bytes)
| Splice (raddr : bytes)
| Bind (addr : bytes)
| ForwardAnswer (ok : bool) (port : Z)
| SpliceBack (address : bytes) (port : Z) (from : SocketAddr)
| Fail (e : io_error).

#[export] Instance Act_eq_dec : EqDecision Act.
Proof. solve_decision. Defined.

Section session.
Context (o : HandlerOptions) (auth : SshServerAuth).

Definition allowed (action : string) (addr : bytes) : bool :=
  if negb (may action o addr) then false else negb (bypassed o addr).

Definition nil_host (host : bytes) : bytes := if bool_decide (host = str "<nil>") then [] else host.

Definition auth_step (accept : bool) (user : bytes) (s : Session) : list Act * Session :=
  ([AuthAnswer accept], if accept then mkSession user (forwards s) (tasks s) else s).

Definition channel_open_direct_tcpip (host : bytes) (port : Z) (dialled : bool) (s : Session) : list Act * Session :=
  let raddr := join_host_port (nil_host host) port in
  if negb (allowed "tcp" raddr) then ([ChannelAnswer false], s)
  else (ChannelAnswer true :: Dial raddr :: (if dialled then [Splice raddr] else []), s).

Definition bind_text (address : bytes) (port : Z) : bytes :=
  if bool_decide (address = []) then str "0.0.0.0:" ++ show_int port else join_host_port address port.

Definition tcpip_forward (address : bytes) (port : Z) (bound : result io_error (result io_error SocketAddr)) (s : Session) :
    list Act * Session :=
  if negb (may "rtcp" o (join_host_port address port)) then ([ForwardAnswer false port], s)
  else
    let bind := Bind (bind_text address port) in
    match bound with
    | Err _ => ([bind; ForwardAnswer false port], s)
    | Ok (Err e) => ([bind; Fail e], s)
    | Ok (Ok local) =>
        let port := if port =? 0 then sa_port local else port in
        ([bind; ForwardAnswer true port],
         mkSession (s_user s) (<[(address, port) := length (tasks s)]> (forwards s))
           (tasks s ++ [mkForward address port local true false]))
    end.

Definition cancel_task (f : Forward) : Forward := mkForward (f_address f) (f_port f) (f_local f) (f_open f) true.
Definition end_task (f : Forward) : Forward := mkForward (f_address f) (f_port f) (f_local f) false (f_cancelled f).

Definition cancel_tcpip_forward (address : bytes) (port : Z) (s : Session) : list Act * Session :=
  match forwards s !! (address, port) with
  | Some id => ([ForwardAnswer true port], mkSession (s_user s) (delete (address, port) (forwards s)) (alter cancel_task id (tasks s)))
  | None => ([ForwardAnswer false port], s)
  end.

(** [Drop]: every token still in the map is cancelled. *)
Definition drop_session (s : Session) : Session :=
  mkSession (s_user s) ∅ (foldr (λ id ts, alter cancel_task id ts) (tasks s) ((map_to_list (forwards s)).*2)).

(** The loop of a task: of a cancelled token and a waiting connection, [select!]
    takes either. *)
Definition task_step (id : nat) (ev : Ev) (s : Session) : list Act * Session :=
  match tasks s !! id with
  | Some f =>
      if f_open f then
        match ev with
        | Accepted _ from opened => (if opened then [SpliceBack (f_address f) (f_port f) from] else [], s)
        | AcceptFailed _ => ([], mkSession (s_user s) (forwards s) (alter end_task id (tasks s)))
        | SawCancel _ => ([], if f_cancelled f then mkSession (s_user s) (forwards s) (alter end_task id (tasks s)) else s)
        | _ => ([], s)
        end
      else ([], s)
  | None => ([], s)
  end.

Definition step (ev : Ev) (s : Session) : list Act * Session :=
  match ev with
  | AuthPassword user password => auth_step (check_password auth user password) user s
  | AuthPublickey user key => auth_step (check_publickey auth key) user s
  | DirectTcpip host port dialled => channel_open_direct_tcpip host port dialled s
  | TcpipForward address port bound => tcpip_forward address port bound s
  | CancelForward address port => cancel_tcpip_forward address port s
  | Accepted id _ _ | AcceptFailed id | SawCancel id => task_step id ev s
  | Dropped => ([], drop_session s)
  end.

Definition run (evs : list Ev) (s : Session) : Session := foldl (λ s ev, (step ev s).2) s evs.

(** ** What the SSH library promises *)

(** Whether an event lets the client in. *)
Definition lets_in (ev : Ev) : bool :=
  match ev with
  | AuthPassword user password => check_password auth user password
  | AuthPublickey _ key => check_publickey auth key
  | _ => false
  end.

(** The services that RFC 4252 opens after authentication only. *)
Definition request (ev : Ev) : bool :=
  match ev with DirectTcpip _ _ _ | TcpipForward _ _ _ | CancelForward _ _ => true | _ => false end.

(** The library calls for a channel or a forward only when an authentication was
    accepted before, and calls nothing once it dropped the handler. *)
Fixpoint ssh_order (authenticated ended : bool) (evs : list Ev) : Prop :=
  match evs with
  | [] => True
  | ev :: evs =>
      (request ev = true → authenticated = true ∧ ended = false)
      ∧ ssh_order (authenticated || lets_in ev) (ended || match ev with Dropped => true | _ => false end) evs
  end.

End session.

(** The credentials the configuration names: an inline user, an entry of the
    secrets file, or a key of the file of authorised keys. *)
Definition configured (options : HandlerOptions) (config : SshConfig) (ev : Ev) : Prop :=
  match ev with
  | AuthPassword u p =>
      (∃ po, (u, po) ∈ users options ∧ p = default [] po) ∨ ∃ au, authenticator options = Some au ∧ au u p = true
  | AuthPublickey _ key =>
      ∃ path text line key', authorized_keys_file config = Some path ∧ read_to_string path = Ok text
        ∧ line ∈ split_char ch_lf text ∧ from_openssh (trim line) = Some key' ∧ fingerprint key' = fingerprint key
  | _ => False
  end.

(** What a configuration lets a client have done. *)
Definition permitted (options : HandlerOptions) (a : Act) : Prop :=
  match a with
  | Dial raddr | Splice raddr =>
      ∃ host port, raddr = join_host_port host port ∧ may "tcp" options raddr = true ∧ bypassed options raddr = false
  | Bind addr => ∃ address port, addr = bind_text address port ∧ may "rtcp" options (join_host_port address port) = true
  | SpliceBack address port _ => ∃ asked, (asked = port ∨ asked = 0) ∧ may "rtcp" options (join_host_port address asked) = true
  | _ => True
  end.

(** Whether an action uses the network on the client's behalf. *)
Definition networked (a : Act) : bool :=
  match a with Dial _ | Splice _ | Bind _ | SpliceBack _ _ _ => true | _ => false end.

(** ** Credentials *)

Lemma users_map_Some us u p : users_map us !! u = Some p → ∃ po, (u, po) ∈ us ∧ p = default [] po.
Proof.
  unfold users_map. induction us as [|[u' po] us IH] using rev_ind; [done|]. rewrite foldl_app. cbn.
  rewrite lookup_insert_Some. intros [[-> <-]|[_ H]].
  - exists po. split; [set_solver|done].
  - destruct (IH H) as (po' & Hi & ->). exists po'. set_solver.
Qed.

Lemma parse_keys_elem n lines ks ks' fp :
  parse_keys n lines ks = Ok ks' → fp ∈ ks' →
  fp ∈ ks ∨ ∃ line key, line ∈ lines ∧ from_openssh (trim line) = Some key ∧ fingerprint key = fp.
Proof.
  revert n ks. induction lines as [|line lines IH]; intros n ks; cbn [parse_keys]; [intros [= ->]; auto|].
  destruct (_ || _).
  { intros H Hi. destruct (IH _ _ H Hi) as [?|(l & k & ? & ?)]; [auto|]. right. exists l, k. set_solver. }
  destruct (from_openssh (trim line)) as [key|] eqn:E; [|done]. intros H Hi.
  destruct (IH _ _ H Hi) as [Hk|(l & k & ? & ?)]; [|right; exists l, k; set_solver].
  apply elem_of_union in Hk as [->%elem_of_singleton|?]; [|auto]. right. exists line, key. set_solver.
Qed.

Lemma auth_build_inv o c a :
  auth_build o c = Ok a →
  auth_users a = users_map (users o) ∧ auth_source a = authenticator o
  ∧ (∀ fp, fp ∈ authorized_keys a →
       ∃ path text line key, authorized_keys_file c = Some path ∧ read_to_string path = Ok text
         ∧ line ∈ split_char ch_lf text ∧ from_openssh (trim line) = Some key ∧ fingerprint key = fp)
  ∧ (auth_users a ≠ ∅ ∨ is_Some (auth_source a) ∨ authorized_keys a ≠ ∅).
Proof.
  unfold auth_build. destruct (match authorized_keys_file c with Some _ => _ | None => _ end) as [keys|e] eqn:Ek; [|done].
  cbn [rbind]. destruct (_ && _) eqn:Eb; [done|]. intros [= <-]. cbn. split_and!; [done..| |].
  - intros fp Hi. destruct (authorized_keys_file c) as [path|] eqn:Ef; [|injection Ek as <-; set_solver].
    unfold parse_ssh_authorized_keys_file, read_file in Ek. destruct (read_to_string path) as [text|] eqn:Er; [|done].
    cbn [rbind] in Ek. destruct (parse_keys_elem _ _ _ _ fp Ek Hi) as [?|(l & k & ? & ? & ?)]; [set_solver|].
    by exists path, text, l, k.
  - destruct (decide (users_map (users o) = ∅)); [|auto]. destruct (authenticator o); [right; left; eauto|].
    right. right. intros ->. rewrite !bool_decide_eq_true_2 in Eb by done. done.
Qed.

Lemma lets_in_configured o c a ev : auth_build o c = Ok a → lets_in a ev = true → configured o c ev.
Proof.
  intros (Hu & Hs & Hk & _)%auth_build_inv. destruct ev; cbn; try done.
  - unfold check_password. rewrite Hu, Hs. intros [H|H]%orb_true_iff.
    + destruct (users_map (users o) !! user0) as [e|] eqn:El; [|done]. apply constant_time_eq_spec in H as <-. left.
      by apply users_map_Some.
    + destruct (authenticator o) as [au|]; [|done]. right. eauto.
  - unfold check_publickey, keys_contain. rewrite bool_decide_eq_true. intros (p & t & l & k & ?)%Hk. by exists p, t, l, k.
Qed.

(** ** Safety *)

Section safety.
Context (o : HandlerOptions) (auth : SshServerAuth).

Lemma order_authenticated a e pre ev post :
  ssh_order auth a e (pre ++ ev :: post) → request ev = true → a = true ∨ ∃ cred, cred ∈ pre ∧ lets_in auth cred = true.
Proof.
  revert a e. induction pre as [|x pre IH]; intros a e; cbn [app ssh_order].
  - intros [H _] Hr. left. by apply H.
  - intros [_ H] Hr. destruct (IH _ _ H Hr) as [[?|?]%orb_true_iff|(c & ? & ?)]; [auto| |].
    + right. exists x. set_solver.
    + right. exists c. set_solver.
Qed.

(** An open port was permitted. *)
Definition port_permitted (f : Forward) : Prop :=
  ∃ asked, (asked = f_port f ∨ asked = 0) ∧ may "rtcp" o (join_host_port (f_address f) asked) = true.

Lemma Forall_alter_task (P : Forward → Prop) (g : Forward → Forward) id (ts : list Forward) :
  (∀ f, P f → P (g f)) → Forall P ts → Forall P (alter g id ts).
Proof. intros Hg H. apply Forall_alter; [done|]. intros f _. apply Hg. Qed.

Lemma Forall_drop (P : Forward → Prop) s : (∀ f, P f → P (cancel_task f)) → Forall P (tasks s) → Forall P (tasks (drop_session s)).
Proof.
  intros Hc H. cbn. induction ((map_to_list (forwards s)).*2) as [|id l IH]; cbn; [done|]. by apply Forall_alter_task.
Qed.

(** A property of a port's description that holds when it is opened holds of all. *)
Lemma session_step_tasks (P : Forward → Prop) ev s :
  (∀ f, P f → P (cancel_task f)) → (∀ f, P f → P (end_task f)) →
  (∀ address port local, ev = TcpipForward address port (Ok (Ok local)) → may "rtcp" o (join_host_port address port) = true →
     P (mkForward address (if port =? 0 then sa_port local else port) local true false)) →
  Forall P (tasks s) → Forall P (tasks (step o auth ev s).2).
Proof.
  intros Hc He Hn H. destruct ev; cbn [step].
  1,2: unfold auth_step; cbn; by case_match.
  - unfold channel_open_direct_tcpip. by case_match.
  - unfold tcpip_forward. destruct (may _ _ _) eqn:Em; cbn [negb]; [|done]. destruct bound as [[local|]|]; try done. cbn.
    apply Forall_app. split; [done|]. apply Forall_singleton. by apply Hn.
  - unfold cancel_tcpip_forward. case_match; [|done]. cbn. by apply Forall_alter_task.
  - unfold task_step. repeat case_match; done.
  - unfold task_step. repeat case_match; try done. cbn. by apply Forall_alter_task.
  - unfold task_step. repeat case_match; try done; cbn; by apply Forall_alter_task.
  - by apply Forall_drop.
Qed.

Lemma session_run_snoc evs ev s : run o auth (evs ++ [ev]) s = (step o auth ev (run o auth evs s)).2.
Proof. unfold run. by rewrite foldl_app. Qed.

Lemma run_permitted evs : Forall port_permitted (tasks (run o auth evs session_start)).
Proof.
  induction evs as [|ev evs IH] using rev_ind; [constructor|]. rewrite session_run_snoc. apply session_step_tasks; try done.
  intros address port local _ Hm. exists port. cbn. split; [|done]. destruct (Z.eqb_spec port 0); auto.
Qed.

(** No port is open without a client that was let in. *)
Lemma run_authenticated evs post :
  ssh_order auth false false (evs ++ post) → tasks (run o auth evs session_start) ≠ [] →
  ∃ cred, cred ∈ evs ∧ lets_in auth cred = true.
Proof.
  revert post. induction evs as [|ev evs IH] using rev_ind; [done|]. intros post Ho Hn. rewrite <-app_assoc in Ho. cbn in Ho.
  destruct (decide (tasks (run o auth evs session_start) = [])) as [E|E].
  - destruct (order_authenticated _ _ _ _ _ Ho) as [?|(c & ? & ?)]; [|done|exists c; set_solver].
    destruct (request ev) eqn:Er; [done|]. exfalso. apply Hn. rewrite session_run_snoc.
    assert (Forall (λ _, False) (tasks (step o auth ev (run o auth evs session_start)).2)) as HF.
    { apply session_step_tasks; try done; [|by rewrite E]. by intros ??? ->. }
    by destruct HF.
  - destruct (IH _ Ho E) as (c & ? & ?). exists c. set_solver.
Qed.

Lemma step_permitted ev s a : Forall port_permitted (tasks s) → a ∈ (step o auth ev s).1 → permitted o a.
Proof.
  intros Hp. destruct ev; cbn [step].
  1,2: cbn; intros ->%list_elem_of_singleton; done.
  - unfold channel_open_direct_tcpip, allowed. destruct (may "tcp" o _) eqn:Em; cbn [negb].
    2: { cbn. intros ->%list_elem_of_singleton. done. }
    destruct (bypassed o _) eqn:Eb; cbn [negb]. { cbn. intros ->%list_elem_of_singleton. done. }
    cbn [fst]. rewrite !elem_of_cons. intros [->|[->|Hs]]; [done|by eexists _, _|].
    destruct dialled; [apply list_elem_of_singleton in Hs as ->; by eexists _, _|by apply not_elem_of_nil in Hs].
  - unfold tcpip_forward. destruct (may _ _ _) eqn:Em; cbn [negb].
    2: { cbn. intros ->%list_elem_of_singleton. done. }
    assert (permitted o (Bind (bind_text address port))) as Hb by by eexists _, _.
    destruct bound as [[local|]|]; cbn [fst]; rewrite elem_of_cons, list_elem_of_singleton; by intros [->| ->].
  - unfold cancel_tcpip_forward. case_match; cbn; intros ->%list_elem_of_singleton; done.
  - unfold task_step. destruct (tasks s !! id) as [f|] eqn:Ef; [|by intros ?%not_elem_of_nil].
    destruct (f_open f); [|by intros ?%not_elem_of_nil]. destruct opened; [|by intros ?%not_elem_of_nil].
    intros ->%list_elem_of_singleton. by apply (Forall_lookup_1 _ _ _ _ Hp Ef).
  - unfold task_step. repeat case_match; by intros ?%not_elem_of_nil.
  - unfold task_step. repeat case_match; by intros ?%not_elem_of_nil.
  - by intros ?%not_elem_of_nil.
Qed.

(** The network is only used for a request or by the task of an open port. *)
Lemma step_networked ev s a :
  a ∈ (step o auth ev s).1 → networked a = true → request ev = true ∨ tasks s ≠ [].
Proof.
  destruct ev; cbn [step request]; auto.
  1,2: cbn; intros ->%list_elem_of_singleton; done.
  all: try by (unfold task_step; destruct (tasks s !! id) as [f|] eqn:Ef; [|by intros ?%not_elem_of_nil];
    intros _ _; right; intros E; rewrite E in Ef).
  by intros ?%not_elem_of_nil.
Qed.

End safety.


(** ** The ports of a session *)

Section ports.
Context (o : HandlerOptions) (auth : SshServerAuth).

Definition key_of (f : Forward) : bytes * Z := (f_address f, f_port f).

(** The system opens no port that a running task still holds under the same name. *)
Definition apart (evs : list Ev) : Prop :=
  ∀ pre address port local post id f,
    evs = pre ++ TcpipForward address port (Ok (Ok local)) :: post →
    tasks (run o auth pre session_start) !! id = Some f → f_open f = true →
    key_of f ≠ (address, if port =? 0 then sa_port local else port).

(** An entry leads to a task of its name that was not cancelled, and a task that
    runs and was not cancelled has its entry. *)
Definition entries_ok (s : Session) : Prop :=
  (∀ k id, forwards s !! k = Some id → ∃ f, tasks s !! id = Some f ∧ key_of f = k ∧ f_cancelled f = false)
  ∧ (∀ id f, tasks s !! id = Some f → f_open f = true → f_cancelled f = false → forwards s !! key_of f = Some id).

Lemma entries_end s id : entries_ok s → entries_ok (mkSession (s_user s) (forwards s) (alter end_task id (tasks s))).
Proof.
  intros [He Ht]. split; cbn.
  - intros k i Hk. destruct (He k i Hk) as (f & Hf & ? & ?). destruct (decide (id = i)) as [->|].
    + exists (end_task f). rewrite list_lookup_alter_eq, Hf. done.
    + exists f. by rewrite list_lookup_alter_ne.
  - intros i f Hf. destruct (decide (id = i)) as [->|]; [|rewrite list_lookup_alter_ne in Hf by done; by apply Ht].
    rewrite list_lookup_alter_eq in Hf. destruct (tasks s !! i); [|done]. by injection Hf as <-.
Qed.

Lemma entries_cancel k id s :
  entries_ok s → forwards s !! k = Some id →
  entries_ok (mkSession (s_user s) (delete k (forwards s)) (alter cancel_task id (tasks s))).
Proof.
  intros [He Ht] Hk. destruct (He k id Hk) as (f & Hf & Hfk & _). split; cbn.
  - intros k' i [Hne Hk']%lookup_delete_Some. destruct (He k' i Hk') as (f' & Hf' & ? & ?).
    destruct (decide (id = i)) as [->|]; [congruence|]. exists f'. by rewrite list_lookup_alter_ne.
  - intros i f' Hf' Ho Hc. destruct (decide (id = i)) as [->|].
    + rewrite list_lookup_alter_eq, Hf in Hf'. by injection Hf' as <-.
    + rewrite list_lookup_alter_ne in Hf' by done. pose proof (Ht i f' Hf' Ho Hc) as Hi.
      rewrite lookup_delete_ne; [done|]. intros ->. congruence.
Qed.

Lemma entries_open address port local s :
  entries_ok s →
  (∀ id f, tasks s !! id = Some f → f_open f = true → key_of f ≠ (address, port)) →
  entries_ok (mkSession (s_user s) (<[(address, port) := length (tasks s)]> (forwards s))
                (tasks s ++ [mkForward address port local true false])).
Proof.
  intros [He Ht] Hn. split; cbn.
  - intros k i [[<- <-]|[_ Hk]]%lookup_insert_Some.
    + exists (mkForward address port local true false). by rewrite list_lookup_middle.
    + destruct (He k i Hk) as (f & Hf & ?). exists f. by rewrite lookup_app_l by (by eapply lookup_lt_Some).
  - intros i f [Hf|[Hi Hf]]%lookup_app_Some Ho Hc.
    + rewrite lookup_insert_ne; [by apply Ht|]. intros E. by apply (Hn i f).
    + apply list_lookup_singleton_Some in Hf as [Hi' <-]. cbn. rewrite lookup_insert_eq. f_equal. lia.
Qed.

Lemma lookup_cancel_all ids (ts : list Forward) i f :
  ts !! i = Some f →
  foldr (λ id ts, alter cancel_task id ts) ts ids !! i = Some (if bool_decide (i ∈ ids) then cancel_task f else f).
Proof.
  intros Hf. induction ids as [|id ids IH]; cbn [foldr].
  - by rewrite bool_decide_eq_false_2 by (intros ?%elem_of_nil; done).
  - destruct (decide (id = i)) as [->|].
    + rewrite list_lookup_alter_eq, IH, (bool_decide_eq_true_2 (i ∈ i :: ids)) by set_solver. cbn. f_equal. by case_bool_decide.
    + rewrite list_lookup_alter_ne, IH by done. f_equal. do 2 case_bool_decide; set_solver.
Qed.

Lemma lookup_drop s i f :
  entries_ok s → tasks s !! i = Some f → f_open f = true →
  ∃ f', tasks (drop_session s) !! i = Some f' ∧ key_of f' = key_of f ∧ f_open f' = true ∧ f_cancelled f' = true.
Proof.
  intros [_ Ht] Hf Ho. cbn. rewrite (lookup_cancel_all _ _ _ f Hf). eexists. split; [done|].
  case_bool_decide as Hi; [done|]. split_and!; [done..|]. destruct (f_cancelled f) eqn:Ec; [done|]. destruct Hi.
  apply list_elem_of_fmap. exists (key_of f, i). split; [done|]. by apply elem_of_map_to_list, Ht.
Qed.

Lemma entries_drop s : entries_ok s → entries_ok (drop_session s).
Proof.
  intros Hs. split; [done|]. intros i f' Hf' Ho Hc. exfalso.
  destruct (tasks s !! i) as [f|] eqn:Hf.
  - destruct (f_open f) eqn:Eo.
    + destruct (lookup_drop s i f Hs Hf Eo) as (? & ? & _ & _ & ?). congruence.
    + cbn in Hf'. rewrite (lookup_cancel_all _ _ _ f Hf) in Hf'. injection Hf' as <-. case_bool_decide; cbn in Ho; congruence.
  - apply lookup_lt_Some in Hf'. apply lookup_ge_None in Hf. cbn in Hf'.
    assert (∀ ids, length (foldr (λ id ts, alter cancel_task id ts) (tasks s) ids) = length (tasks s)) as Hl.
    { induction ids as [|id ids IH]; cbn; [done|]. by rewrite length_alter. }
    rewrite Hl in Hf'. lia.
Qed.

Lemma step_entries ev s :
  (∀ address port local id f, ev = TcpipForward address port (Ok (Ok local)) → tasks s !! id = Some f → f_open f = true →
     key_of f ≠ (address, if port =? 0 then sa_port local else port)) →
  entries_ok s → entries_ok (step o auth ev s).2.
Proof.
  intros Hn Hs. destruct ev; cbn [step].
  1,2: unfold auth_step; cbn; by case_match.
  - unfold channel_open_direct_tcpip. by case_match.
  - unfold tcpip_forward. case_match; [done|]. destruct bound as [[local|]|]; try done. apply entries_open; [done|].
    intros id f. by apply Hn.
  - unfold cancel_tcpip_forward. case_match; [|done]. by apply entries_cancel.
  - unfold task_step. repeat case_match; done.
  - unfold task_step. repeat case_match; try done. by apply entries_end.
  - unfold task_step. repeat case_match; try done; by apply entries_end.
  - by apply entries_drop.
Qed.

Lemma run_entries evs : apart evs → entries_ok (run o auth evs session_start).
Proof.
  induction evs as [|ev evs IH] using rev_ind; intros Ha; [done|]. rewrite session_run_snoc. apply step_entries.
  - intros address port local id f ->. by apply (Ha evs _ _ _ []).
  - apply IH. intros pre address port local post id f ->. apply (Ha _ _ _ _ (post ++ [ev])). by rewrite <-app_assoc.
Qed.

Definition opens (ev : Ev) : bool := match ev with TcpipForward _ _ (Ok (Ok _)) => true | _ => false end.

Lemma run_no_tasks evs : forallb (λ ev, negb (opens ev)) evs = true → tasks (run o auth evs session_start) = [].
Proof.
  induction evs as [|ev evs IH] using rev_ind; [done|]. rewrite forallb_app. cbn. intros [He [Hv _]%andb_true_iff]%andb_true_iff.
  rewrite session_run_snoc. assert (Forall (λ _, False) (tasks (step o auth ev (run o auth evs session_start)).2)) as HF.
  { apply session_step_tasks; [done..| |by rewrite IH]. by intros a p l ->. }
  by destruct HF.
Qed.

(** The first port of a session is held by no other task. *)
Lemma apart_first pre ev : forallb (λ ev, negb (opens ev)) pre = true → apart (pre ++ [ev]).
Proof.
  intros Hp pre' address port local post id f E. destruct post as [|x post _] using rev_ind.
  - apply app_inj_tail in E as [<- _]. by rewrite run_no_tasks.
  - rewrite app_comm_cons, app_assoc in E. apply app_inj_tail in E as [-> _]. rewrite forallb_app in Hp. cbn in Hp.
    by rewrite andb_false_r in Hp.
Qed.

End ports.

(** While the system opens no port twice, every port that a client had opened and
    that is still served can be closed: the client's request to cancel it, by the
    address and port it was told, succeeds and cancels its task; the end of the
    session cancels it too; and a cancelled task ends at its next look. *)
Theorem ssh_ports_close o auth evs id f :
  apart o auth evs →
  let s := run o auth evs session_start in
  tasks s !! id = Some f → f_open f = true →
  (f_cancelled f = false →
     ∃ s', step o auth (CancelForward (f_address f) (f_port f)) s = ([ForwardAnswer true (f_port f)], s')
       ∧ tasks s' !! id = Some (cancel_task f))
  ∧ (∃ f', tasks (drop_session s) !! id = Some f' ∧ f_cancelled f' = true)
  ∧ (f_cancelled f = true → tasks (step o auth (SawCancel id) s).2 !! id = Some (end_task f)).
Proof.
  intros Ha s Hf Ho. pose proof (run_entries _ _ _ Ha) as Hs. fold s in Hs. split_and!.
  - intros Hc. destruct Hs as [_ Ht]. pose proof (Ht _ _ Hf Ho Hc) as Hk. eexists. cbn [step]. unfold cancel_tcpip_forward.
    unfold key_of in Hk. rewrite Hk. split; [done|]. cbn. by rewrite list_lookup_alter_eq, Hf.
  - destruct (lookup_drop s id f Hs Hf Ho) as (f' & ? & _ & _ & ?). eauto.
  - intros Hc. cbn [step]. unfold task_step. rewrite Hf, Ho, Hc. cbn. by rewrite list_lookup_alter_eq, Hf.
Qed.

(** A listener without credentials does not start. *)
Lemma no_credentials_refused options config :
  users options = [] → authenticator options = None → authorized_keys_file config = None →
  handler_new options config = Err (Config NoAuthentication).
Proof. intros Hu Ha Hk. unfold handler_new, auth_build. by rewrite Hk, Hu, Ha. Qed.

(** One whose secrets file has no entries does, and takes any password. *)
Theorem empty_secrets_open {IpNet} parse_net net_contains glob_match open make_resolver node chain path au h u p :
  Node_get node (str "secrets") = Some path → load_secrets_file open path = Ok au → kvs au = ∅ →
  handler_new (base (build_handler_options (IpNet := IpNet) parse_net net_contains glob_match open make_resolver node chain))
    (from_node node) = Ok h →
  check_password (h_auth h) u p = true.
Proof.
  intros Hs Hl He Hn. unfold handler_new in Hn. destruct (auth_build _ _) as [a|] eqn:Eb; [|done]. cbn [rbind] in Hn.
  destruct (match key_file _ with Some _ => _ | None => _ end); [|done]. injection Hn as <-. cbn [h_auth].
  apply auth_build_inv in Eb as (_ & Ha & _). unfold check_password. rewrite Ha. cbn. unfold node_authenticator. rewrite Hs, Hl.
  cbn. unfold Auth.authenticate. rewrite bool_decide_eq_true_2 by done. by rewrite orb_true_r.
Qed.

End server.

(** ** Instances *)

(** Keys that are their own fingerprint, and one file. *)
Definition demo_file (path : bytes) : result io_error bytes :=
  if bool_decide (path = str "keys") then Ok (str "# admin
  AAAA
") else Err broken_pipe.
Definition demo_print (k : bytes) : bytes := k.
Definition demo_options : HandlerOptions :=
  mkOptions [(str "bob", Some (str "pw"))] None None
    (match Permissions_parse (str "tcp:10.0.0.1:*") with Ok b => Some b | Err _ => None end) None 0 0.
Definition demo_config : SshConfig := mkConfig None (Some (str "keys")) None None None None 0 0 0.

Definition demo_new : result SshError (SshForwardHandler (PrivateKey := bytes)) :=
  handler_new (PublicKey := bytes) demo_file Some demo_print (λ _ _, None) (Some (str "host key")) demo_options demo_config.
Definition demo_auth : SshServerAuth := mkServerAuth {[str "bob" := str "pw"]} None {[str "AAAA"]}.

Definition demo_events : list (Ev (PublicKey := bytes)) :=
  [AuthPassword (str "bob") (str "guess"); AuthPublickey (str "eve") (str "BBBB"); AuthPassword (str "bob") (str "pw");
   DirectTcpip (str "10.0.0.1") 22 true; TcpipForward (str "localhost") 0 (Ok (Ok (mkAddr (V4 [127; 0; 0; 1]) 4000)))].


Lemma ssh_ports_close_witness :
  let s := run demo_print demo_options demo_auth demo_events session_start in
  ∃ s', step demo_print demo_options demo_auth (CancelForward (str "localhost") 4000) s = ([ForwardAnswer true 4000], s')
    ∧ tasks s' !! 0%nat = Some (mkForward (str "localhost") 4000 (mkAddr (V4 [127; 0; 0; 1]) 4000) true true).
Proof.
  intros s.
  destruct (ssh_ports_close demo_print demo_options demo_auth demo_events 0
              (mkForward (str "localhost") 4000 (mkAddr (V4 [127; 0; 0; 1]) 4000) true false)) as [H _].
  - by apply (apart_first _ _ _ (take 4 demo_events)).
  - by vm_compute.
  - done.
  - exact (H eq_refl).
Defined.

(** A name with two addresses is listened on twice; the second entry replaces the
    first, whose task outlives the session. *)
Example rebind_leaks :
  let evs := [AuthPassword (str "bob") (str "pw");
              TcpipForward (str "localhost") 4000 (Ok (Ok (mkAddr (V4 [127; 0; 0; 1]) 4000)));
              TcpipForward (str "localhost") 4000 (Ok (Ok (mkAddr (V6 [0; 0; 0; 0; 0; 0; 0; 1]) 4000)));
              CancelForward (str "localhost") 4000; Dropped] in
  ssh_order demo_print demo_auth false false evs
  ∧ tasks (run demo_print demo_options demo_auth evs session_start) !! 0%nat
    = Some (mkForward (str "localhost") 4000 (mkAddr (V4 [127; 0; 0; 1]) 4000) true false).
Proof. split; [vm_compute; naive_solver|by vm_compute]. Qed.

(** A rule for the wildcard address does not stop a request with no address, which
    listens on it. *)
Example wildcard_unruled :
  let o := mkOptions [(str "bob", Some (str "pw"))] None None
             (match Permissions_parse (str "rtcp:0.0.0.0:*") with Ok b => Some b | Err _ => None end) None 0 0 in
  tcpip_forward o (str "0.0.0.0") 4000 (Err broken_pipe) session_start = ([ForwardAnswer false 4000], session_start)
  ∧ (tcpip_forward o [] 4000 (Err broken_pipe) session_start).1 = [Bind (str "0.0.0.0:4000"); ForwardAnswer false 4000].
Proof. split; by vm_compute. Qed.

(** A secrets file of comments. *)
Lemma empty_secrets_open_witness :
  let node := demo_listener (str "secrets") (str "users.txt") in
  let open := (λ _, Ok (mkReader (str "# nobody yet
") None)) in
  let o := base (build_handler_options (IpNet := ()) (λ _, None) (λ _ _, false) (λ _ _, false) open (λ _ _ _ _ _ _, None)
                   node Chain.Chain_empty) in
  ∃ h, handler_new (PublicKey := bytes) demo_file Some demo_print (λ _ _, None) (Some (str "host key")) o (from_node node) = Ok h
    ∧ check_password (h_auth h) (str "anyone") (str "anything") = true.
Proof.
  intros node open o.
  destruct (handler_new (PublicKey := bytes) demo_file Some demo_print (λ _ _, None) (Some (str "host key")) o (from_node node))
    as [h|] eqn:E; [|by vm_compute in E].
  exists h. split; [done|].
  eapply (empty_secrets_open demo_file Some demo_print (λ _ _, None) (Some (str "host key")) (λ _, None) (λ _ _, false) (λ _ _, false)
            open (λ _ _ _ _ _ _, None) node Chain.Chain_empty (str "users.txt")); [by vm_compute|by vm_compute|done|exact E].
Defined.

End Ssh.
