(* ===== verification/SshClient.v ===== *)
(** * SSH port forwarding, the client

    Models the chain's half of src/ssh.rs and the pool of src/chain.rs: loading the
    identity and the pinned host key, the handshake with its authentication, the
    queue of connections handed back by the server, and the sessions that calls
    share, as a transition system in which the calls interleave. *)

From stdpp Require Import base list option numbers strings gmap sets.
From Stdlib Require Import ZArith Lia.
From S2P Require Import Prelude Text AsyncIo IpAddr Node Conn Permissions Socks5Addr SocketText Ssh.

Module SshClient.
Import Ssh.

Section client.
(** Files and keys as for the listener. *)
Context {PublicKey PrivateKey : Type}.
Context (read_to_string : bytes → result io_error bytes) (from_openssh : bytes → option PublicKey)
        (fingerprint : PublicKey → bytes) (decode_secret_key : bytes → option bytes → option PrivateKey).

(** ** The transporter *)

Record SshForwardTransporter : Type := mkTransporter {
  t_config : SshConfig;
  identity : option PrivateKey;
  pinned_host_key : option bytes
}.

Definition load_pin (path : bytes) : result SshError bytes :=
  text <-? read_file read_to_string path ;;
  match from_openssh (trim text) with Some key => Ok (fingerprint key) | None => Err (Config (CannotParse path)) end.

Definition transporter_new (config : SshConfig) : result SshError SshForwardTransporter :=
  identity <-? (match key_file config with
                | Some path => k <-? parse_ssh_key_file read_to_string decode_secret_key path (key_passphrase config) ;; Ok (Some k)
                | None => Ok None
                end) ;;
  if bool_decide (identity = None) && bool_decide (default [] (password config) = []) then Err (Config NoCredentials)
  else
    pin <-? (match host_key_file config with
             | Some path => fp <-? load_pin path ;; Ok (Some fp)
             | None => Ok None
             end) ;;
    Ok (mkTransporter config identity pin).

(** ** The handshake *)

(** What a server presents itself with. *)
Inductive Offered : Type := PlainKey (key : PublicKey) | Certificate.

Definition check_server_key (pinned : option bytes) (offered : Offered) : bool :=
  match offered with
  | Certificate => match pinned with Some _ => false | None => true end
  | PlainKey key => match pinned with Some expected => constant_time_eq expected (fingerprint key) | None => true end
  end.

(** A server: its host key, and its answers to the two kinds of login. *)
Record Peer : Type := mkPeer {
  offered : Offered;
  answer_key : bytes → PrivateKey → result bytes bool;
  answer_password : bytes → bytes → result bytes bool
}.

(** What is shown to the server. *)
Inductive Sent : Type := SentKey (user : bytes) (key : PrivateKey) | SentPassword (user password : bytes).

(** [russh::client::connect_stream], given the check of the server's key. *)
Context (connect_stream : (Offered → bool) → Peer → result bytes ()).

Record ClientConfig : Set := mkClient { keepalive_interval : option Z; keepalive_max : Z }.

Definition client_config (c : SshConfig) : ClientConfig :=
  mkClient (if ping_interval c =? 0 then None else Some (ping_interval c)) (Z.max (ping_retries c) 1).

Definition try_key (t : SshForwardTransporter) (p : Peer) (user : bytes) : bool * list Sent :=
  match identity t with
  | None => (false, [])
  | Some key => (match answer_key p user key with Ok b => b | Err _ => false end, [SentKey user key])
  end.

Definition try_password (t : SshForwardTransporter) (p : Peer) (user : bytes) : result SshError bool * list Sent :=
  match password (t_config t) with
  | None | Some [] => (Ok false, [])
  | Some password =>
      (match answer_password p user password with Ok b => Ok b | Err m => Err (Russh m) end, [SentPassword user password])
  end.

Definition handshake (t : SshForwardTransporter) (p : Peer) : result SshError () * list Sent :=
  match connect_stream (check_server_key (pinned_host_key t)) p with
  | Err m => (Err (Russh m), [])
  | Ok _ =>
      let u := default [] (user (t_config t)) in
      let '(authenticated, sent) := try_key t p u in
      if authenticated then (Ok tt, sent)
      else
        let '(r, sent') := try_password t p u in
        (match r with
         | Err e => Err e
         | Ok true => Ok tt
         | Ok false => Err SshAuthFailed
         end, sent ++ sent')
  end.

(** ** Safety of the handshake *)

(** The library gives no session unless the check accepted the server's key. *)
Hypothesis keys_checked : ∀ check p, connect_stream check p = Ok tt → check (offered p) = true.

Lemma check_pinned pin off : check_server_key (Some pin) off = true → ∃ key, off = PlainKey key ∧ fingerprint key = pin.
Proof. destruct off as [key|]; cbn; [|done]. intros ->%constant_time_eq_spec. eauto. Qed.

(** C34: Whatever the server answers, the client shows a key or password of its own
    configuration only to a server whose host key has the pinned fingerprint, where
    one is pinned; a password only when there is no identity or the server did not
    take it, and never an empty one; and it has a session only if the server took
    one of the two, so a transporter never runs without credentials. *)
Theorem ssh_credentials_guarded config t p r sent :
  transporter_new config = Ok t → handshake t p = (r, sent) →
  (sent ≠ [] → ∀ path, host_key_file config = Some path →
     ∃ text key key', read_to_string path = Ok text ∧ from_openssh (trim text) = Some key
       ∧ offered p = PlainKey key' ∧ fingerprint key' = fingerprint key)
  ∧ (∀ u pw, SentPassword u pw ∈ sent →
       password config = Some pw ∧ pw ≠ [] ∧ u = default [] (user config)
       ∧ ∀ k, identity t = Some k → SentKey u k ∈ sent ∧ answer_key p u k ≠ Ok true)
  ∧ (r = Ok tt → ∃ u, (∃ k, SentKey u k ∈ sent ∧ answer_key p u k = Ok true)
                    ∨ (∃ pw, SentPassword u pw ∈ sent ∧ answer_password p u pw = Ok true)).
Proof using keys_checked.
  intros Hn Hh. assert (t_config t = config ∧ ∀ path, host_key_file config = Some path →
     ∃ text key, read_to_string path = Ok text ∧ from_openssh (trim text) = Some key
       ∧ pinned_host_key t = Some (fingerprint key)) as [Hc Hpin].
  { unfold transporter_new in Hn. destruct (match key_file config with Some _ => _ | None => _ end) as [ident|]; [|done].
    cbn [rbind] in Hn. case_match; [done|]. destruct (host_key_file config) as [path|]; cbn [rbind] in Hn.
    - unfold load_pin, read_file in Hn. destruct (read_to_string path) as [text|] eqn:Et; [|done]. cbn [rbind] in Hn.
      destruct (from_openssh (trim text)) as [key|] eqn:Ek; [|done]. cbn [rbind] in Hn. injection Hn as <-. split; [done|].
      intros ? [= <-]. by exists text, key.
    - injection Hn as <-. done. }
  unfold handshake in Hh. destruct (connect_stream _ p) as [[]|m] eqn:Es; [|injection Hh as <- <-; set_solver].
  apply keys_checked in Es. split.
  { intros _ path Hp. destruct (Hpin path Hp) as (text & key & ? & ? & E). rewrite E in Es.
    apply check_pinned in Es as (key' & ? & ?). by exists text, key, key'. }
  rewrite Hc in Hh. cbv zeta in Hh. unfold try_key, try_password in Hh. rewrite Hc in Hh.
  destruct (identity t) as [k|] eqn:Ei; [destruct (answer_key p _ k) as [[]|] eqn:Ek|].
  1: injection Hh as <- <-; split; [set_solver|]; intros _; exists (default [] (user config)); left; exists k; set_solver.
  all: destruct (password config) as [[|x pw]|] eqn:Ep; cbn in Hh;
    [injection Hh as <- <-; set_solver| |injection Hh as <- <-; set_solver].
  all: destruct (answer_password p _ _) as [[]|] eqn:Ea; injection Hh as <- <-; (split; [|try done]).
  all: try by (intros _; exists (default [] (user config)); right; exists (x :: pw); set_solver).
  all: intros u pw'; rewrite ?elem_of_cons; intros Hi; destruct_or? Hi; simplify_eq; try by apply not_elem_of_nil in Hi.
  all: split_and!; try done; intros k0 Hk; try done; injection Hk as <-; (split; [left|congruence]).
Qed.
End client.

(** ** Sessions that calls share *)

(** A session of an address; [se_closed] is what [is_closed] says. *)
Record Sess : Set := mkSess { se_addr : bytes; se_closed : bool }.

(** Where a call is: waiting for the lock of the map, building a session under it,
    opening a channel, about to take out the entry of a dead session, or over.
    [again] marks the one retry. *)
Inductive Pc : Set :=
| WantSession (again : bool)
| Building (again : bool)
| Opening (again : bool) (k : nat)
| Evict
| Opened (k : nat)
| Failed (e : SshError)
| Gone.

(** A call for a channel through the server at [c_addr]: [SshForwardTransporter::connect]
    retries, the chain's hop ([session_over] and then [SshSession::connect]) does not. *)
Record Call : Set := mkCall { c_addr : bytes; c_retry : bool; c_pc : Pc }.

Record Pool : Set := mkPool { sessions : gmap bytes nat; lock : option nat; made : list Sess; calls : list Call }.

Definition pool_start : Pool := mkPool ∅ None [] [].

Definition set_pc (t : nat) (pc : Pc) (p : Pool) : Pool :=
  mkPool (sessions p) (lock p) (made p) (alter (λ c, mkCall (c_addr c) (c_retry c) pc) t (calls p)).
Definition set_lock (l : option nat) (p : Pool) : Pool := mkPool (sessions p) l (made p) (calls p).
Definition set_sessions m (p : Pool) : Pool := mkPool m (lock p) (made p) (calls p).
Definition is_closed (k : nat) (p : Pool) : bool := match made p !! k with Some s => se_closed s | None => true end.

(** The next step of call [t], where it can go on. [dial] is how dialling and the
    handshake go, [chan] how opening the channel does. *)
Definition turn (t : nat) (dial chan : result SshError ()) (p : Pool) : Pool :=
  match calls p !! t with
  | None => p
  | Some c =>
      match c_pc c with
      | WantSession again =>
          match lock p with
          | Some _ => p
          | None =>
              let build := set_pc t (Building again) (set_lock (Some t) (set_sessions (delete (c_addr c) (sessions p)) p)) in
              match sessions p !! c_addr c with
              | Some k => if negb (is_closed k p) then set_pc t (Opening again k) p else build
              | None => build
              end
          end
      | Building again =>
          match dial with
          | Err e => set_pc t (Failed e) (set_lock None p)
          | Ok _ =>
              set_pc t (Opening again (length (made p)))
                (mkPool (<[c_addr c := length (made p)]> (sessions p)) None (made p ++ [mkSess (c_addr c) false]) (calls p))
          end
      | Opening again k =>
          match chan with
          | Ok _ => set_pc t (Opened k) p
          | Err e => set_pc t (if c_retry c && negb again && is_closed k p then Evict else Failed e) p
          end
      | Evict =>
          match lock p with
          | Some _ => p
          | None => set_pc t (WantSession true) (set_sessions (delete (c_addr c) (sessions p)) p)
          end
      | Opened _ | Failed _ | Gone => p
      end
  end.

Inductive PoolEv : Set :=
| Begin (addr : bytes) (retry : bool)
| Turn (t : nat) (dial chan : result SshError ())
| Close (k : nat)
| Abandon (t : nat).

(** An abandoned call gives the lock back if it holds it. *)
Definition abandon (t : nat) (p : Pool) : Pool :=
  set_pc t Gone (if bool_decide (lock p = Some t) then set_lock None p else p).

Definition pool_step (p : Pool) (ev : PoolEv) : Pool :=
  match ev with
  | Begin addr retry => mkPool (sessions p) (lock p) (made p) (calls p ++ [mkCall addr retry (WantSession false)])
  | Turn t dial chan => turn t dial chan p
  | Close k => mkPool (sessions p) (lock p) (alter (λ s, mkSess (se_addr s) true) k (made p)) (calls p)
  | Abandon t => match calls p !! t with Some _ => abandon t p | None => p end
  end.
Definition pool_run (evs : list PoolEv) (p : Pool) : Pool := foldl pool_step p evs.

(** Only the hop of a chain calls. *)
Definition no_retry (ev : PoolEv) : Prop := match ev with Begin _ retry => retry = false | _ => True end.

(** Every live session has its entry; a call that builds holds the lock, and there
    is no entry for its address meanwhile. *)
Record pool_ok (p : Pool) : Prop := {
  ok_entry : ∀ a k, sessions p !! a = Some k → ∃ s, made p !! k = Some s ∧ se_addr s = a;
  ok_live : ∀ k s, made p !! k = Some s → se_closed s = false → sessions p !! se_addr s = Some k;
  ok_lock : ∀ t, lock p = Some t → ∃ c again, calls p !! t = Some c ∧ c_pc c = Building again ∧ sessions p !! c_addr c = None;
  ok_held : ∀ t c again, calls p !! t = Some c → c_pc c = Building again → lock p = Some t;
  ok_first : ∀ t c, calls p !! t = Some c → c_retry c = false ∧ c_pc c ≠ Evict
}.

Lemma lookup_pc t pc (cs : list Call) t' c' :
  alter (λ c, mkCall (c_addr c) (c_retry c) pc) t cs !! t' = Some c' →
  if decide (t = t') then ∃ c, cs !! t = Some c ∧ c' = mkCall (c_addr c) (c_retry c) pc else cs !! t' = Some c'.
Proof.
  case_decide as E; [subst|by rewrite list_lookup_alter_ne].
  rewrite list_lookup_alter_eq. destruct (cs !! t') as [c|]; [|done]. intros [= <-]. eauto.
Qed.

(** A step of a call that neither has nor takes the lock. *)
Lemma pool_ok_pc t c pc p :
  pool_ok p → calls p !! t = Some c → (∀ again, c_pc c ≠ Building again) → (∀ again, pc ≠ Building again) → pc ≠ Evict →
  pool_ok (set_pc t pc p).
Proof.
  intros [He Hl Hk Hh Hf] Hc Hb Hb' Hv. split; cbn; try done.
  - intros t' Ht'. destruct (Hk t' Ht') as (c' & again & Hc' & Hp & ?). exists c', again. split_and!; [|done..].
    rewrite list_lookup_alter_ne; [done|]. intros ->. naive_solver.
  - intros t' c' again Hc' Hp. apply lookup_pc in Hc'. case_decide; [|by eapply Hh]. naive_solver.
  - intros t' c' Hc'. apply lookup_pc in Hc'. case_decide; [|by eapply Hf]. destruct Hc' as (c0 & Hc0 & ->). cbn.
    split; [|done]. by eapply Hf.
Qed.

(** Taking out the entry of a dead session, and the lock. *)
Lemma pool_ok_build t c again p :
  pool_ok p → calls p !! t = Some c → lock p = None →
  (∀ k s, sessions p !! c_addr c = Some k → made p !! k = Some s → se_closed s = true) →
  pool_ok (set_pc t (Building again) (set_lock (Some t) (set_sessions (delete (c_addr c) (sessions p)) p))).
Proof.
  intros [He Hl Hk Hh Hf] Hc Hn Hd. split; cbn.
  - intros a k [_ Ha]%lookup_delete_Some. by apply He.
  - intros k s Hs Ho. pose proof (Hl k s Hs Ho) as Hi. rewrite lookup_delete_ne; [done|]. intros E. rewrite <-E in Hi.
    by rewrite (Hd k s) in Ho.
  - intros ? [= <-]. eexists _, again. rewrite list_lookup_alter_eq, Hc. split_and!; [done..|]. cbn. apply lookup_delete_eq.
  - intros t' c' again' Hc' Hp. apply lookup_pc in Hc'. case_decide; [by subst|].
    pose proof (Hh _ _ _ Hc' Hp). congruence.
  - intros t' c' Hc'. apply lookup_pc in Hc'. case_decide; [|by eapply Hf]. destruct Hc' as (c0 & Hc0 & ->). cbn.
    split; [|done]. by eapply Hf.
Qed.

(** The end of a build: the lock is given back, with a new session or without. *)
Lemma pool_ok_release t c again pc p :
  pool_ok p → calls p !! t = Some c → c_pc c = Building again → (∀ again, pc ≠ Building again) → pc ≠ Evict →
  pool_ok (set_pc t pc (set_lock None p)).
Proof.
  intros [He Hl Hk Hh Hf] Hc Hp Hb Hv. split; cbn; try done.
  - intros t' c' again' Hc' Hp'. apply lookup_pc in Hc'. case_decide; [naive_solver|].
    pose proof (Hh _ _ _ Hc' Hp'). pose proof (Hh _ _ _ Hc Hp). congruence.
  - intros t' c' Hc'. apply lookup_pc in Hc'. case_decide; [|by eapply Hf]. destruct Hc' as (c0 & Hc0 & ->). cbn.
    split; [|done]. by eapply Hf.
Qed.

Lemma pool_ok_made t c again p :
  pool_ok p → calls p !! t = Some c → c_pc c = Building again →
  pool_ok (set_pc t (Opening again (length (made p)))
    (mkPool (<[c_addr c := length (made p)]> (sessions p)) None (made p ++ [mkSess (c_addr c) false]) (calls p))).
Proof.
  intros Hp Hc Hb. assert (sessions p !! c_addr c = None) as Hno.
  { destruct (ok_lock _ Hp t) as (c' & ? & Hc' & _ & ?); [by eapply ok_held|]. congruence. }
  destruct (pool_ok_release t c again (Opening again (length (made p))) p Hp Hc Hb) as [He Hl Hk Hh Hf]; [done..|].
  split; cbn; try done.
  - intros a k [[<- <-]|[_ Ha]]%lookup_insert_Some; [eexists; by rewrite list_lookup_middle|].
    destruct (He a k Ha) as (s & Hs & ?). exists s. by rewrite lookup_app_l by (by eapply lookup_lt_Some).
  - intros k s [Hs|[Hi Hs]]%lookup_app_Some Ho.
    + pose proof (Hl k s Hs Ho) as Hi. cbn in Hi. rewrite lookup_insert_ne; [done|]. congruence.
    + apply list_lookup_singleton_Some in Hs as [Hi' <-]. cbn. rewrite lookup_insert_eq. f_equal. lia.
Qed.

Lemma turn_ok t dial chan p : pool_ok p → pool_ok (turn t dial chan p).
Proof.
  intros Hp. unfold turn. destruct (calls p !! t) as [c|] eqn:Hc; [|done].
  destruct (ok_first _ Hp _ _ Hc) as [Hr Hv]. destruct (c_pc c) as [again|again|again k| |k|e|] eqn:Ec; try done.
  - destruct (lock p) eqn:El; [done|]. cbv zeta. destruct (sessions p !! c_addr c) as [k|] eqn:Es.
    + unfold is_closed. destruct (made p !! k) as [s|] eqn:Em; [destruct (se_closed s) eqn:Eo|]; cbn [negb].
      * apply pool_ok_build; [done..|]. intros k' s' Hk Hs. congruence.
      * by apply (pool_ok_pc t c); [..|rewrite Ec| |].
      * apply pool_ok_build; [done..|]. intros k' s' Hk Hs. congruence.
    + apply pool_ok_build; [done..|]. congruence.
  - destruct dial; [by apply pool_ok_made|]. by apply (pool_ok_release t c again).
  - destruct chan; [by apply (pool_ok_pc t c); [..|rewrite Ec| |]|]. rewrite Hr. cbn [andb].
    by apply (pool_ok_pc t c); [..|rewrite Ec| |].
Qed.

Lemma pool_step_ok p ev : no_retry ev → pool_ok p → pool_ok (pool_step p ev).
Proof.
  intros Hn Hp. destruct ev as [addr retry|t dial chan|k|t]; cbn [pool_step]; [|by apply turn_ok| |].
  - cbn in Hn. subst. destruct Hp as [He Hl Hk Hh Hf].
    assert (∀ t c, (calls p ++ [mkCall addr false (WantSession false)]) !! t = Some c →
              calls p !! t = Some c ∨ c = mkCall addr false (WantSession false)) as Hsplit.
    { intros t c [?|[_ Hs]]%lookup_app_Some; [auto|]. apply list_lookup_singleton_Some in Hs as [_ <-]. auto. }
    split; cbn; try done.
    + intros t Ht. destruct (Hk t Ht) as (c & again & Hc & ?). exists c, again.
      by rewrite lookup_app_l by (by eapply lookup_lt_Some).
    + intros t c again Hc Hb. destruct (Hsplit t c Hc) as [?| ->]; [by eapply Hh|done].
    + intros t c Hc. destruct (Hsplit t c Hc) as [?| ->]; [by eapply Hf|done].
  - destruct Hp as [He Hl Hk Hh Hf]. split; cbn; try done.
    + intros a i Hi. destruct (He a i Hi) as (s & Hs & ?). destruct (decide (k = i)) as [->|].
      * eexists. by rewrite list_lookup_alter_eq, Hs.
      * exists s. by rewrite list_lookup_alter_ne.
    + intros i s Hs Ho. destruct (decide (k = i)) as [->|]; [|rewrite list_lookup_alter_ne in Hs by done; by apply Hl].
      rewrite list_lookup_alter_eq in Hs. destruct (made p !! i); [|done]. by injection Hs as <-.
  - destruct (calls p !! t) as [c|] eqn:Hc; [|done]. unfold abandon. case_bool_decide as El.
    + destruct (ok_lock _ Hp _ El) as (c' & again & Hc' & Hb & _). by apply (pool_ok_release t c' again).
    + apply (pool_ok_pc t c); try done. intros again Hb. destruct El. by eapply ok_held.
Qed.

(** However the calls of a chain's hops interleave with each other, with sessions
    that end and with calls that are given up, at most one live session is there
    for an address, and it is the one the next call finds. *)
Theorem ssh_session_shared evs k k' s s' :
  Forall no_retry evs →
  let p := pool_run evs pool_start in
  made p !! k = Some s → made p !! k' = Some s' → se_addr s = se_addr s' → se_closed s = false → se_closed s' = false →
  k = k' ∧ sessions p !! se_addr s = Some k.
Proof.
  intros Hn p Hs Hs' Ha Ho Ho'. assert (pool_ok p) as Hp.
  { subst p. clear -Hn. induction evs as [|ev evs IH] using rev_ind; [by split|]. unfold pool_run in *. rewrite foldl_app.
    apply Forall_app in Hn as [Hn [Hv _]%Forall_cons]. cbn [foldl]. apply pool_step_ok; [done|]. by apply IH. }
  pose proof (ok_live _ Hp _ _ Hs Ho) as H1. pose proof (ok_live _ Hp _ _ Hs' Ho') as H2. split; [congruence|done].
Qed.

(** ** Calls come to an end *)

(** A bound on the turns a call still takes. *)
Definition rank (pc : Pc) : nat :=
  match pc with
  | WantSession again => if again then 3 else 7
  | Building again => if again then 2 else 6
  | Opening again _ => if again then 1 else 5
  | Evict => 4
  | Opened _ | Failed _ | Gone => 0
  end.

Lemma turn_rank t dial chan p c :
  calls p !! t = Some c → rank (c_pc c) ≠ 0%nat → lock p = None ∨ (∃ again, c_pc c = Building again) →
  ∃ c', calls (turn t dial chan p) !! t = Some c' ∧ (rank (c_pc c') < rank (c_pc c))%nat.
Proof.
  intros Hc Hr Hl. unfold turn. rewrite Hc. cbv zeta. destruct (c_pc c) as [again|again|again k| |k|e|] eqn:Ec; try done.
  1,4: destruct Hl as [->|[? ?]]; [|done].
  all: repeat case_match; (eexists; split; [cbn; by rewrite list_lookup_alter_eq, Hc|]); cbn; zbool; destruct_and?;
    try (destruct again; cbn in *; (lia || done)).
  lia.
Qed.

Definition lock_ok (p : Pool) : Prop :=
  ∀ t, lock p = Some t → ∃ c again, calls p !! t = Some c ∧ c_pc c = Building again.

Lemma lock_ok_pc t c pc p :
  lock_ok p → calls p !! t = Some c → (∀ again, c_pc c ≠ Building again) → lock_ok (set_pc t pc p).
Proof.
  intros Hk Hc Hb t' Ht'. destruct (Hk t' Ht') as (c' & again & Hc' & ?). exists c', again. split; [|done]. cbn.
  rewrite list_lookup_alter_ne; [done|]. intros ->. naive_solver.
Qed.

Lemma pool_step_lock p ev : lock_ok p → lock_ok (pool_step p ev).
Proof.
  intros Hk. destruct ev as [addr retry|t dial chan|k|t]; cbn [pool_step].
  - intros t' Ht'. destruct (Hk t' Ht') as (c' & again & Hc' & ?). exists c', again. cbn.
    by rewrite lookup_app_l by (by eapply lookup_lt_Some).
  - unfold turn. destruct (calls p !! t) as [c|] eqn:Hc; [|done]. cbv zeta.
    destruct (c_pc c) as [again|again|again k| |k|e|] eqn:Ec; try done.
    + destruct (lock p) eqn:El; [done|].
      assert (lock_ok (set_pc t (Building again) (set_lock (Some t) (set_sessions (delete (c_addr c) (sessions p)) p)))) as Hb.
      { intros ? [= <-]. eexists _, again. cbn. rewrite list_lookup_alter_eq, Hc. done. }
      repeat case_match; try done. apply (lock_ok_pc t c); [done..|]. by rewrite Ec.
    + destruct dial; by intros ?.
    + destruct chan; (apply (lock_ok_pc t c); [done..|]; by rewrite Ec).
    + destruct (lock p) eqn:El; [done|]. intros t' Ht'. cbn in Ht'. congruence.
  - done.
  - destruct (calls p !! t) as [c|] eqn:Hc; [|done]. unfold abandon. case_bool_decide as El; [by intros ?|].
    intros t' Ht'. cbn in Ht'. destruct (Hk t' Ht') as (c' & again & Hc' & ?). exists c', again. split; [|done]. cbn.
    rewrite list_lookup_alter_ne; [done|]. congruence.
Qed.

(** A call takes at most seven turns in which it goes on, whatever the servers
    answer; and whenever some call is not over, some call can go on. *)
Theorem ssh_calls_end evs t c dial chan :
  let p := pool_run evs pool_start in
  calls p !! t = Some c → rank (c_pc c) ≠ 0%nat →
  ∃ t' c1 c2, calls p !! t' = Some c1 ∧ calls (turn t' dial chan p) !! t' = Some c2
    ∧ (rank (c_pc c2) < rank (c_pc c1) ≤ 7)%nat.
Proof.
  intros p Hc Hr. assert (lock_ok p) as Hk.
  { subst p. clear. induction evs as [|ev evs IH] using rev_ind; [done|]. unfold pool_run in *. rewrite foldl_app.
    by apply pool_step_lock. }
  assert (∀ pc, (rank pc ≤ 7)%nat) as H7 by (intros [[]|[]|[]| | | |]; cbn; lia).
  destruct (lock p) as [t'|] eqn:El.
  - destruct (Hk t' El) as (c1 & again & Hc1 & Hb). destruct (turn_rank t' dial chan p c1 Hc1) as (c2 & ? & ?).
    { rewrite Hb. by destruct again. } { eauto. } by exists t', c1, c2.
  - destruct (turn_rank t dial chan p c Hc Hr) as (c2 & ? & ?); [auto|]. by exists t, c, c2.
Qed.

(** Two calls that retry on the same dead session: the second takes out the live
    session that the first has just built, and builds another. *)
Example retry_evicts_live :
  let a := str "host:22" in
  let lost := Err (Protocol (DirectFailed (str "x:1") a)) in
  let p := pool_run
    [Begin a true; Turn 0 (Ok tt) lost; Turn 0 (Ok tt) lost; Begin a true; Turn 1 (Ok tt) lost; Close 0;
     Turn 0 (Ok tt) lost; Turn 1 (Ok tt) lost;
     Turn 0 (Ok tt) lost; Turn 0 (Ok tt) lost; Turn 0 (Ok tt) lost; Turn 0 (Ok tt) (Ok tt);
     Turn 1 (Ok tt) lost; Turn 1 (Ok tt) lost; Turn 1 (Ok tt) lost; Turn 1 (Ok tt) (Ok tt)] pool_start in
  c_pc <$> calls p = [Opened 1; Opened 2] ∧ made p = [mkSess a true; mkSess a false; mkSess a false].
Proof. by vm_compute. Qed.

(** ** The chain's pool *)

(** [SshTransporterPool::get_or_create]; [created] is the new transporter. *)
Definition get_or_create {T} (key : bytes) (created : result ChainError T) (m : gmap bytes T) : result ChainError T * gmap bytes T :=
  match m !! key with
  | Some existing => (Ok existing, m)
  | None => match created with Ok t => (Ok t, <[key := t]> m) | Err e => (Err e, m) end
  end.

(** [Chain::dial_ssh_hop] up to the session, with the transporter of its config. *)
Definition hop_transporter {T} (new : SshConfig → result ChainError T) (node : Node) (m : gmap bytes T) :
    result ChainError T * gmap bytes T :=
  get_or_create (str "ssh|" ++ Node.addr node) (new (from_node node)) m.

(** Two nodes with the same address share the transporter of the first, whatever
    user, password and keys the second names. *)
Lemma hop_first_credentials {T} (new : SshConfig → result ChainError T) node node' m t m' :
  hop_transporter new node m = (Ok t, m') → Node.addr node' = Node.addr node → hop_transporter new node' m' = (Ok t, m').
Proof.
  unfold hop_transporter, get_or_create. intros H ->. destruct (m !! _) as [e|] eqn:E.
  - injection H as <- <-. by rewrite E.
  - destruct (new (from_node node)) as [t'|]; [|done]. injection H as <- <-. by rewrite lookup_insert_eq.
Qed.

(** ** Forwarding through a session *)

(** [SshSession::connect]: what is asked of the server, and its [answer]. *)
Definition session_connect (addr raddr : bytes) (answer : bytes → Z → result bytes ()) : result SshError () :=
  hp <-? split_host_port raddr ;;
  match answer hp.1 hp.2 with Ok _ => Ok tt | Err _ => Err (Protocol (DirectFailed raddr addr)) end.

(** [SshSession::remote_forward]. *)
Definition remote_request (address : bytes) : result SshError (bytes * Z) :=
  split_host_port (match strip_prefix [ch_colon] address with Some port => str "0.0.0.0:" ++ port | None => address end).
Definition remote_forward (addr address : bytes) (answer : bytes → Z → result bytes Z) : result SshError Z :=
  hp <-? remote_request address ;;
  match answer hp.1 hp.2 with
  | Err _ => Err (Protocol (ForwardFailed address addr))
  | Ok bound => Ok (if hp.2 =? 0 then u16 bound else hp.2)
  end.

(** A connection handed back: where it came in and from whom. *)
Abbreviation Returned := (bytes * Z * SocketAddr)%type.
Definition REMOTE_FORWARD_BACKLOG : nat := 1024.

(** [server_channel_open_forwarded_tcpip]: [try_send] to the queue, which fails when
    it is full or its receiver is gone. *)
Definition channel_open_forwarded (receiver : bool) (q : list Returned) (conn : Returned) : list Returned :=
  if receiver && (length q <? REMOTE_FORWARD_BACKLOG)%nat then q ++ [conn] else q.

(** [accept_forwarded], and [SshRemoteForward::accept] of any port of the session. *)
Definition accept_forwarded (q : list Returned) : option Returned * list Returned :=
  match q with [] => (None, []) | c :: q => (Some c, q) end.

Lemma ssh_split_join host port :
  0 ≤ port ≤ u16_max → starts_with [ch_lbracket] host = false → ch_rbracket ∉ host →
  split_host_port (join_host_port host port) = Ok (host, port).
Proof.
  intros Hp Hb Hr. unfold split_host_port, join_host_port. rewrite Hb. cbn [negb]. rewrite andb_true_r.
  assert (parse_u16 (show_int port) = Some port) as Hport by (apply parse_show_unsigned; unfold u16_max in *; lia).
  assert (ch_colon ∉ show_int port) as Hc.
  { intros Hi. apply (Permissions.show_int_no_sep port ch_colon); [lia|done|done]. }
  destruct (contains_char ch_colon host) eqn:Ec.
  - change (strip_prefix [ch_lbracket] ([ch_lbracket] ++ host ++ [ch_rbracket; ch_colon] ++ show_int port))
      with (Some (host ++ ch_rbracket :: [ch_colon] ++ show_int port)).
    cbv iota.
    rewrite (proj2 (split_once_Some ch_rbracket _ host ([ch_colon] ++ show_int port))) by done. cbv iota beta.
    change (strip_prefix [ch_colon] ([ch_colon] ++ show_int port)) with (Some (show_int port)).
    cbn [rbind fst snd]. by rewrite Hport.
  - assert (strip_prefix [ch_lbracket] (host ++ [ch_colon] ++ show_int port) = None) as ->.
    { unfold strip_prefix. destruct host as [|x h]; [done|]. cbn in Hb |- *. by rewrite Hb. }
    unfold rsplit_once. cbn [app]. rewrite rfind_middle by done.
    rewrite take_app_exact by done. rewrite cons_middle, app_assoc, drop_app_exact by (rewrite length_app; cbn; lia).
    cbn [rbind fst snd]. by rewrite Hport.
Qed.

(** The tunnel transport of gost is refused on both sides. *)
Definition unsupported_tunnel (role : string) : SshError := Config (TunnelUnsupported (str role)).
Definition tunnel_transporter_new (config : SshConfig) : result SshError () := Err (unsupported_tunnel "chain node").
Definition tunnel_listener_new (addr : bytes) (config : SshConfig) : result SshError () := Err (unsupported_tunnel "listener").

(** ** The two ends of a forward *)

(** What the client asks for reaches the server as the same host and port, so what
    the server checks and dials is the client's target. *)
Lemma ssh_direct_exchange o addr raddr host port dialled s :
  split_host_port raddr = Ok (host, port) → starts_with [ch_lbracket] host = false → ch_rbracket ∉ host →
  host ≠ str "<nil>" →
  let target := join_host_port host port in
  let ok := allowed o "tcp" target in
  channel_open_direct_tcpip o host port dialled s
  = (if ok then ChannelAnswer true :: Dial target :: (if dialled then [Splice target] else []) else [ChannelAnswer false], s)
  ∧ session_connect addr raddr (λ h p, if bool_decide (h = host) && (p =? port) && ok then Ok tt else Err [])
    = (if ok then Ok tt else Err (Protocol (DirectFailed raddr addr)))
  ∧ split_host_port target = Ok (host, port).
Proof.
  intros Hs Hb Hr Hn target ok. split_and!.
  - unfold channel_open_direct_tcpip, nil_host. rewrite bool_decide_eq_false_2 by done. fold target ok. by destruct ok.
  - unfold session_connect. rewrite Hs. cbn. rewrite bool_decide_eq_true_2 by done. rewrite Z.eqb_refl. cbn. by destruct ok.
  - apply ssh_split_join; [|done..]. unfold split_host_port in Hs. destruct (match strip_prefix _ raddr with Some _ => _ | None => _ end) as [hp|];
      [|done]. cbn in Hs. destruct (parse_u16 hp.2) as [q|] eqn:Eq; [|done]. injection Hs as _ <-.
    by apply parse_unsigned_range in Eq.
Qed.

Lemma queue_fills conns q :
  (length q ≤ REMOTE_FORWARD_BACKLOG)%nat →
  foldl (channel_open_forwarded true) q conns = take REMOTE_FORWARD_BACKLOG (q ++ conns).
Proof.
  revert q. induction conns as [|c conns IH]; intros q Hq; cbn [foldl]; [by rewrite app_nil_r, take_ge|].
  unfold channel_open_forwarded at 2. cbn [andb]. destruct (Nat.ltb_spec (length q) REMOTE_FORWARD_BACKLOG) as [Hl|Hl].
  - rewrite IH by (rewrite length_app; cbn; lia). by rewrite <-app_assoc.
  - rewrite IH by done. rewrite !take_app_le by lia. done.
Qed.

(** A remote forward agreed between a client and a server that permits it: the
    server listens where the client asked, on every address for a bare port, and
    the port the client reports is the one listened on, also when it asked for any;
    every connection accepted there is handed back under the name the client used,
    in order, and the client can take them in that order, the first 1024 of those
    that came before it took any. *)
Theorem ssh_remote_exchange o auth addr address host port local s froms :
  remote_request address = Ok (host, port) →
  may "rtcp" o (join_host_port host port) = true →
  port_ok (sa_port local) → (port ≠ 0 → sa_port local = port) →
  let bound := sa_port local in
  ∃ s', tcpip_forward o host port (Ok (Ok local)) s = ([Bind (bind_text host port); ForwardAnswer true bound], s')
    ∧ remote_forward addr address (λ h p, if bool_decide (h = host) && (p =? port) then Ok bound else Err []) = Ok bound
    ∧ forwards s' !! (host, bound) = Some (length (tasks s))
    ∧ concat ((λ from, (step (PublicKey := bytes) (λ k, k) o auth (Accepted (length (tasks s)) from true) s').1) <$> froms)
      = SpliceBack host bound <$> froms
    ∧ foldl (channel_open_forwarded true) [] ((λ from, (host, bound, from)) <$> froms)
      = take REMOTE_FORWARD_BACKLOG ((λ from, (host, bound, from)) <$> froms).
Proof.
  intros Hr Hm Hp Hl bound. unfold tcpip_forward. rewrite Hm. cbn [negb].
  assert ((if port =? 0 then sa_port local else port) = bound) as -> by (destruct (Z.eqb_spec port 0); [done|symmetry; by apply Hl]).
  eexists. split_and!; [done| | | |apply (queue_fills _ []); cbn; lia].
  - unfold remote_forward. rewrite Hr. cbn [rbind fst snd]. rewrite bool_decide_eq_true_2, Z.eqb_refl by done. cbn [andb].
    destruct (Z.eqb_spec port 0) as [->|Hne]; [|f_equal; symmetry; by apply Hl]. f_equal. apply wrap_small. unfold port_ok, u16_max in Hp. subst bound. lia.
  - cbn. by rewrite lookup_insert_eq.
  - induction froms as [|from froms IH]; [done|]. rewrite !fmap_cons. cbn [concat]. rewrite IH. cbn [step]. unfold task_step.
    cbn [tasks]. rewrite list_lookup_middle by done. done.
Qed.

(** Forwards of one session share its queue: a connection that came in on one port
    is taken by the acceptor of the other. *)
Example forwards_mixed from :
  let q := foldl (channel_open_forwarded true) [] [(str "localhost", 5000, from); (str "localhost", 4000, from)] in
  (accept_forwarded q).1 = Some (str "localhost", 5000, from).
Proof. done. Qed.

(** ** Instances *)

Definition demo_connect (check : Offered (PublicKey := bytes) → bool) (p : Peer (PrivateKey := bytes)) : result bytes () :=
  if check (offered p) then Ok tt else Err (str "unknown key").
Definition demo_disk (path : bytes) : result io_error bytes :=
  if bool_decide (path = str "pin") then Ok (str "HOSTKEY
") else Ok (str "secret").
Definition demo_client : SshConfig :=
  mkConfig (Some (str "id")) None None (Some (str "pw")) (Some (str "bob")) (Some (str "pin")) 0 0 0.

(** A server that takes the password only, under the pinned key. *)
Lemma ssh_credentials_guarded_witness :
  let t := mkTransporter demo_client (Some (str "secret")) (Some (str "HOSTKEY")) in
  let p := mkPeer (PlainKey (str "HOSTKEY")) (λ _ _, Ok false) (λ _ pw, Ok (bool_decide (pw = str "pw"))) in
  handshake demo_print demo_connect t p = (Ok tt, [SentKey (str "bob") (str "secret"); SentPassword (str "bob") (str "pw")])
  ∧ ∃ text key key', demo_disk (str "pin") = Ok text ∧ Some (trim text) = Some key
      ∧ offered p = PlainKey key' ∧ demo_print key' = demo_print key.
Proof.
  intros t p.
  assert (handshake demo_print demo_connect t p
          = (Ok tt, [SentKey (str "bob") (str "secret"); SentPassword (str "bob") (str "pw")])) as Hh by by vm_compute.
  split; [done|].
  destruct (ssh_credentials_guarded demo_disk Some demo_print (λ t _, Some t) demo_connect) with (config := demo_client) (t := t)
    (p := p) (r := Ok tt : result SshError ()) (sent := [SentKey (str "bob") (str "secret"); SentPassword (str "bob") (str "pw")])
    as [H _].
  - intros check q. unfold demo_connect. by destruct (check (offered q)).
  - by vm_compute.
  - exact Hh.
  - by apply (H ltac:(done) (str "pin")).
Defined.

Lemma ssh_session_shared_witness :
  let p := pool_run [Begin (str "h:22") false; Begin (str "h:22") false; Turn 0 (Ok tt) (Ok tt); Turn 1 (Ok tt) (Ok tt);
                     Turn 0 (Ok tt) (Ok tt); Turn 1 (Ok tt) (Ok tt)] pool_start in
  sessions p !! str "h:22" = Some 0%nat.
Proof.
  intros p. destruct (ssh_session_shared
    [Begin (str "h:22") false; Begin (str "h:22") false; Turn 0 (Ok tt) (Ok tt); Turn 1 (Ok tt) (Ok tt);
     Turn 0 (Ok tt) (Ok tt); Turn 1 (Ok tt) (Ok tt)] 0 0 (mkSess (str "h:22") false) (mkSess (str "h:22") false)) as [_ H];
    [by repeat constructor|by vm_compute..|exact H].
Defined.

Lemma ssh_remote_exchange_witness :
  let local := mkAddr (V4 [0; 0; 0; 0]) 4000 in
  ∃ s', tcpip_forward demo_options (str "0.0.0.0") 0 (Ok (Ok local)) session_start
      = ([Bind (str "0.0.0.0:0"); ForwardAnswer true 4000], s')
    ∧ remote_forward (str "host:22") (str ":0") (λ h p, if bool_decide (h = str "0.0.0.0") && (p =? 0) then Ok 4000 else Err [])
      = Ok 4000.
Proof.
  intros local.
  destruct (ssh_remote_exchange demo_options demo_auth (str "host:22") (str ":0") (str "0.0.0.0") 0 local session_start [])
    as (s' & H1 & H2 & _); [by vm_compute|by vm_compute|vm_compute; by split|done|].
  exists s'. split; [exact H1|exact H2].
Defined.

End SshClient.
