(* ===== verification/Quic.v ===== *)
(** * The QUIC transport

    Models src/quic_transport.rs: configuration, the layer that seals every
    datagram with the key of [?cipher=], the dialer that keeps one connection for
    an address, as a transition system in which dials interleave, the transporters
    of a chain, and the listener. QUIC itself is quinn's; its answers are
    arguments and events. *)

From stdpp Require Import base list option numbers strings gmap sets.
From Stdlib Require Import ZArith Lia.
From S2P Require Import Prelude Text AsyncIo IpAddr Node Conn Permissions Socks5Addr SocketText.

Module Quic.

(** ** Configuration *)

Record QuicConfig : Set := mkConfig {
  keep_alive : bool;
  keep_alive_period : Z;
  timeout : Z;
  idle_timeout : Z;
  key : option bytes
}.

Definition secs (n : Z) : Z := n * 1000000000.
Definition default_config : QuicConfig := mkConfig false (secs 10) (secs 5) (secs 30) None.

(** What a constructor fails with. *)
Inductive QuicError : Set :=
| BadKey (len : nat)
| BadIdle
| QuicIo (e : io_error)
| Connection_lost
| HandshakeTimedOut (addr : bytes).

Definition validate (c : QuicConfig) : result QuicError () :=
  match key c with
  | Some k => if bool_decide (length k ∈ [16; 32]%nat) then Ok tt else Err (BadKey (length k))
  | None => Ok tt
  end.

Definition is_encrypted (c : QuicConfig) : bool := bool_decide (is_Some (key c)).

Section config.
(** SHA-256, and quinn's limit on idle timeouts. *)
Context (sha256 : bytes → bytes) (idle_ok : Z → bool).

Definition key_from_cipher (cipher : bytes) : bytes := sha256 cipher.

Definition quic_config_from_node (node : Node) : result QuicError QuicConfig :=
  let keep_alive := get_bool node (str "keepalive") in
  let period :=
    if keep_alive then (let ttl := get_duration node (str "ttl") in if ttl =? 0 then secs 10 else ttl) else 0 in
  let key := match Node_get node (str "cipher") with
             | Some (x :: c) => Some (key_from_cipher (x :: c))
             | _ => None
             end in
  let config := mkConfig keep_alive period (get_duration node (str "timeout")) (get_duration node (str "idle")) key in
  _ <-? validate config ;; Ok config.

(** quinn's parameters: [None] where its default stays. *)
Record TransportConfig : Set := mkTransport { max_idle_timeout : option Z; keep_alive_interval : option Z }.

Definition quic_transport_config (c : QuicConfig) : result QuicError TransportConfig :=
  idle <-? (if idle_timeout c =? 0 then Ok None
            else if idle_ok (idle_timeout c) then Ok (Some (idle_timeout c)) else Err BadIdle) ;;
  Ok (mkTransport idle (if keep_alive c && negb (keep_alive_period c =? 0) then Some (keep_alive_period c) else None)).

(** A node whose URL has a cipher is encrypted, and keep-alives are on exactly when
    asked for. *)
Lemma config_from_node node c :
  (∀ b, length (sha256 b) = 32%nat) → quic_config_from_node node = Ok c →
  (is_encrypted c = true ↔ ∃ x s, Node_get node (str "cipher") = Some (x :: s))
  ∧ ∀ t, quic_transport_config c = Ok t →
      (is_Some (keep_alive_interval t) ↔ get_bool node (str "keepalive") = true)
      ∧ max_idle_timeout t = (if get_duration node (str "idle") =? 0 then None else Some (get_duration node (str "idle"))).
Proof.
  intros Hs. unfold quic_config_from_node. cbv zeta. destruct (validate _); [|done]. cbn [rbind]. intros [= <-].
  unfold is_encrypted, quic_transport_config. cbn [key keep_alive keep_alive_period idle_timeout]. split.
  - rewrite bool_decide_eq_true. destruct (Node_get node (str "cipher")) as [[|x s]|]; 
      (split; [intros [? ?]|intros (? & ? & ?)]; try done; eauto).

  - intros t. destruct (get_duration node (str "idle") =? 0); cbn [rbind].
    2: destruct (idle_ok _); cbn [rbind]; [|done].
    all: intros [= <-]; cbn [max_idle_timeout keep_alive_interval]; (split; [|done]); destruct (get_bool node (str "keepalive")); cbn [andb negb]; [|by split; [intros [? ?]|]].
    all: destruct (get_duration node (str "ttl") =? 0) eqn:E; rewrite ?E; cbn [negb]; split; eauto.
Qed.
End config.

(** ** Sealed datagrams *)

Definition NONCE_LEN : nat := 12.
Definition TAG_LEN : nat := 16.
Definition MAX_DATAGRAM : nat := Z.to_nat 65536.

(** AES-GCM, detached: key, nonce and text to text and tag, and back. *)
Record Gcm : Type := mkGcm {
  encrypt : bytes → bytes → bytes → option (bytes * bytes);
  decrypt : bytes → bytes → bytes → bytes → option bytes
}.

Class GcmOk (x : Gcm) : Prop := {
  encrypt_shape k n p c t : encrypt x k n p = Some (c, t) → length c = length p ∧ length t = TAG_LEN;
  decrypt_encrypt k n p c t : encrypt x k n p = Some (c, t) → decrypt x k n c t = Some p;
  encrypt_total k n p : length n = NONCE_LEN → (length p ≤ MAX_DATAGRAM)%nat → is_Some (encrypt x k n p)
}.

Definition encryption_failed : io_error := IoError Other "quic: datagram encryption failed".
Definition too_short : io_error := IoError InvalidData "quic: datagram too short to carry a nonce and tag".
Definition tag_mismatch : io_error := IoError InvalidData "quic: datagram authentication tag mismatch".
Definition bad_key : io_error := IoError InvalidInput "quic: a datagram key must be 16 or 32 bytes".

Section cipher.
Context (x : Gcm).

(** [PacketCipher]: its key. *)
Definition cipher_new (key : bytes) : result io_error bytes :=
  if bool_decide (length key ∈ [16; 32]%nat) then Ok key else Err bad_key.

Definition seal (key nonce plain : bytes) : result io_error bytes :=
  match encrypt x key nonce plain with
  | Some (body, tag) => Ok (nonce ++ body ++ tag)
  | None => Err encryption_failed
  end.

Definition open (key datagram : bytes) : result io_error bytes :=
  if (length datagram <? NONCE_LEN + TAG_LEN)%nat then Err too_short
  else
    let nonce := take NONCE_LEN datagram in
    let rest := drop NONCE_LEN datagram in
    let body := take (length rest - TAG_LEN) rest in
    let tag := drop (length rest - TAG_LEN) rest in
    match decrypt x key nonce body tag with Some p => Ok p | None => Err tag_mismatch end.

(** [chunks(n)] for a positive [n]. *)
Fixpoint chunks (fuel n : nat) (b : bytes) : list bytes :=
  match fuel, b with
  | S fuel, _ :: _ => take n b :: chunks fuel n (drop n b)
  | _, _ => []
  end.

(** [CipherSocket::try_send]: the datagrams given to the socket below, which answers
    each, up to the first that fails. [nonces] are the random ones. *)
Fixpoint send_chunks (key : bytes) (nonces : list bytes) (answers : list (result io_error ())) (cs : list bytes) :
    result io_error () * list bytes :=
  match cs, nonces, answers with
  | c :: cs, nonce :: nonces, a :: answers =>
      match seal key nonce c with
      | Err e => (Err e, [])
      | Ok sealed =>
          match a with
          | Err e => (Err e, [sealed])
          | Ok _ => let '(r, out) := send_chunks key nonces answers cs in (r, sealed :: out)
          end
      end
  | _, _, _ => (Ok tt, [])
  end.

Definition try_send (key : bytes) (nonces : list bytes) (answers : list (result io_error ())) (segment_size : option nat)
    (contents : bytes) : result io_error () * list bytes :=
  let segment := Nat.max (default (length contents) segment_size) 1 in
  send_chunks key nonces answers (chunks (length contents) segment contents).

(** What the socket below has: a datagram and its sender, nothing, or an error. *)
Inductive Incoming : Set := Datagram (from : SocketAddr) (data : bytes) | NoDatagram | RecvErr (e : io_error).

(** [CipherSocket::poll_recv] into a buffer of [room] bytes; with no answer left it is
    pending. *)
Fixpoint poll_recv (key : bytes) (room : nat) (answers : list Incoming) :
    poll (result io_error (option (SocketAddr * bytes))) * list Incoming :=
  match answers with
  | [] => (Pending, [])
  | RecvErr e :: answers => (Ready (Err e), answers)
  | NoDatagram :: answers => (Ready (Ok None), answers)
  | Datagram from data :: answers =>
      match open key (take MAX_DATAGRAM data) with
      | Err _ => poll_recv key room answers
      | Ok plain => if (room <? length plain)%nat then poll_recv key room answers else (Ready (Ok (Some (from, plain))), answers)
      end
  end.

Context `{!GcmOk x}.

Lemma quic_open_seal key nonce plain sealed :
  length nonce = NONCE_LEN → seal key nonce plain = Ok sealed →
  open key sealed = Ok plain ∧ length sealed = (length plain + NONCE_LEN + TAG_LEN)%nat.
Proof.
  intros Hn. unfold seal. destruct (encrypt x key nonce plain) as [[body tag]|] eqn:E; [|done]. intros [= <-].
  destruct (encrypt_shape _ _ _ _ _ E) as [Hb Ht]. assert (length (nonce ++ body ++ tag) = (length plain + NONCE_LEN + TAG_LEN)%nat) as Hl
    by (rewrite !length_app; lia).
  split; [|done]. unfold open. rewrite Hl. destruct (Nat.ltb_spec (length plain + NONCE_LEN + TAG_LEN) (NONCE_LEN + TAG_LEN)); [lia|].
  rewrite take_app_exact, drop_app_exact by done. cbv zeta.
  rewrite (take_app_exact body tag), (drop_app_exact body tag) by (rewrite length_app; lia).
  by rewrite (decrypt_encrypt _ _ _ _ _ E).
Qed.

Lemma chunks_concat fuel n b : (0 < n)%nat → (length b ≤ fuel)%nat → concat (chunks fuel n b) = b.
Proof.
  intros Hn. revert b. induction fuel as [|fuel IH]; intros b Hb; [destruct b; [done|cbn in Hb; lia]|].
  destruct b as [|y b]; [done|]. cbn [chunks concat]. rewrite IH; [by rewrite take_drop|].
  rewrite length_drop. cbn in *. lia.
Qed.

Lemma send_chunks_out key nonces cs out :
  Forall (λ n, length n = NONCE_LEN) nonces → length nonces = length cs →
  send_chunks key nonces (replicate (length cs) (Ok tt)) cs = (Ok tt, out) →
  Forall2 (λ c o, open key o = Ok c ∧ length o = (length c + NONCE_LEN + TAG_LEN)%nat) cs out.
Proof.
  revert nonces out. induction cs as [|c cs IH]; intros [|n ns] out Hf Hl; cbn; try done.
  - by intros [= <-].
  - apply Forall_cons in Hf as [Hn Hf]. destruct (seal key n c) as [o|] eqn:Es; [|done].
    destruct (send_chunks key ns _ cs) as [r o'] eqn:E. intros [= -> <-]. constructor; [by apply (quic_open_seal key n)|].
    eapply IH; [exact Hf| |exact E]. cbn in Hl. lia.
Qed.

(** Datagrams that do not open, or do not fit, are passed over, and the first that
    does is handed over. *)
Definition passed_over (key : bytes) (room : nat) (i : Incoming) : Prop :=
  match i with
  | Datagram _ data => ∀ plain, open key (take MAX_DATAGRAM data) = Ok plain → (room < length plain)%nat
  | _ => False
  end.

Lemma poll_recv_skips key room noise answers :
  Forall (passed_over key room) noise → poll_recv key room (noise ++ answers) = poll_recv key room answers.
Proof.
  induction 1 as [|i noise Hi _ IH]; [done|]. destruct i as [from data| |]; [|done..]. cbn [passed_over poll_recv app] in Hi |- *.
  destruct (open key (take MAX_DATAGRAM data)) as [p|]; [|done]. destruct (Nat.ltb_spec room (length p)); [done|].
  pose proof (Hi p eq_refl). lia.
Qed.

(** Through the sealing layer a QUIC endpoint receives what the other sent,
    whatever else reaches its port: a transmission is cut into datagrams whose
    contents together are its own, each 28 bytes longer than its content; each,
    arriving after any number of datagrams that do not open under the key or do not
    fit the buffer, is the one that is handed over, with its sender and as it was
    sent, and what follows it is left for the next call. *)
Theorem quic_datagrams_sealed key nonces segment_size contents out :
  Forall (λ n, length n = NONCE_LEN) nonces →
  let segment := Nat.max (default (length contents) segment_size) 1 in
  let cs := chunks (length contents) segment contents in
  length nonces = length cs → (segment + NONCE_LEN + TAG_LEN ≤ MAX_DATAGRAM)%nat →
  try_send key nonces (replicate (length cs) (Ok tt)) segment_size contents = (Ok tt, out) →
  concat cs = contents
  ∧ Forall2 (λ c o, length o = (length c + 28)%nat
      ∧ ∀ room noise from later, (length c ≤ room)%nat → Forall (passed_over key room) noise →
          poll_recv key room (noise ++ Datagram from o :: later) = (Ready (Ok (Some (from, c))), later)) cs out.
Proof.
  intros Hf segment cs Hl Hm Hs. split; [apply chunks_concat; lia|].
  assert (Forall (λ c, (length c ≤ segment)%nat) cs) as Hc.
  { subst cs. generalize (length contents) as fuel. clear -segment. generalize contents as b.
    intros b fuel. revert b. induction fuel as [|fuel IH]; intros [|y b]; cbn [chunks]; [constructor..|].
    constructor; [rewrite length_take; lia|apply IH]. }
  unfold try_send in Hs. fold segment cs in Hs. apply send_chunks_out in Hs; [|done..].
  clear -Hs Hc Hm. induction Hs as [|c o cs out [Ho Hlen] _ IH]; [constructor|].
  apply Forall_cons in Hc as [Hc0 Hc]. constructor; [|by apply IH]. split; [unfold NONCE_LEN, TAG_LEN in *; lia|].
  intros room noise from later Hr Hn. rewrite poll_recv_skips by done. cbn [poll_recv]. rewrite take_ge by lia. rewrite Ho.
  destruct (Nat.ltb_spec room (length c)); [lia|done].
Qed.

(** Sealing fails for no datagram of the sizes QUIC sends. *)
Lemma seal_total key nonce plain :
  length nonce = NONCE_LEN → (length plain ≤ MAX_DATAGRAM)%nat → is_Some (match seal key nonce plain with Ok b => Some b | Err _ => None end).
Proof. intros Hn Hp. unfold seal. destruct (encrypt_total key nonce plain Hn Hp) as [[c t] ->]. eauto. Qed.

(** The largest datagram quinn sends, 1452 bytes, sealed and under the headers of UDP
    and IPv4, is larger than 1500 bytes. *)
Lemma sealed_exceeds_path key nonce plain sealed :
  length nonce = NONCE_LEN → length plain = 1452%nat → seal key nonce plain = Ok sealed →
  (length sealed + 8 + 20 = 1508)%nat.
Proof. intros Hn Hp Hs. destruct (quic_open_seal _ _ _ _ Hn Hs) as [_ ->]. unfold NONCE_LEN, TAG_LEN. lia. Qed.
End cipher.

(** ** The dialer *)

(** Where a call of [dial] is. From [Recheck] to [Fresh] it holds the build lock. *)
Inductive Pc : Set :=
| Start
| Warm (k : nat)
| Lock
| Recheck
| Held (k : nat)
| Connect
| Fresh (k : nat)
| Done (k : nat)
| Failed (e : QuicError)
| Dropped.

(** Connections are known by the order they were made in; [live] has those whose
    [close_reason] is [None]. *)
Record QuicDialer : Type := mkDialer {
  cached : option nat;
  build_lock : option nat;
  built : Z;
  conns : nat;
  live : gset nat;
  dials : list Pc
}.

Definition dialer_start : QuicDialer := mkDialer None None 0 0 ∅ [].

Definition set_pc t pc d := mkDialer (cached d) (build_lock d) (built d) (conns d) (live d) (<[t := pc]> (dials d)).
Definition set_cached c d := mkDialer c (build_lock d) (built d) (conns d) (live d) (dials d).
Definition set_lock l d := mkDialer (cached d) l (built d) (conns d) (live d) (dials d).
Definition lose (k : nat) d := mkDialer (cached d) (build_lock d) (built d) (conns d) (live d ∖ {[k]}) (dials d).

(** A dead connection is evicted on the way past. *)
Definition live_session (d : QuicDialer) : option nat * QuicDialer :=
  match cached d with
  | Some k => if bool_decide (k ∈ live d) then (Some k, d) else (None, set_cached None d)
  | None => (None, d)
  end.

(** The end of [dial], where its guard is dropped. *)
Definition finish (t : nat) (pc : Pc) (d : QuicDialer) : QuicDialer := set_pc t pc (set_lock None d).

(** [open_bi] on connection [k]: a stream when the peer allows one ([room]), an error
    once the connection is lost, and otherwise it waits. *)
Definition open_bi (room : bool) (k : nat) (d : QuicDialer) (ok err : QuicDialer → QuicDialer) : QuicDialer :=
  if bool_decide (k ∈ live d) then if room then ok d else d else err d.

(** What dial [t] does next, when it can; [answer] is how [connect] goes. *)
Definition dial_on (t : nat) (room : bool) (answer : result QuicError ()) (d : QuicDialer) : QuicDialer :=
  match dials d !! t with
  | Some Start => let '(o, d) := live_session d in set_pc t (match o with Some k => Warm k | None => Lock end) d
  | Some (Warm k) => open_bi room k d (set_pc t (Done k)) (set_pc t Lock)
  | Some Lock => match build_lock d with None => set_pc t Recheck (set_lock (Some t) d) | Some _ => d end
  | Some Recheck => let '(o, d) := live_session d in set_pc t (match o with Some k => Held k | None => Connect end) d
  | Some (Held k) => open_bi room k d (finish t (Done k)) (set_pc t Connect)
  | Some Connect =>
      match answer with
      | Err e => finish t (Failed e) d
      | Ok _ => set_pc t (Fresh (conns d))
                  (mkDialer (cached d) (build_lock d) (u64 (built d + 1)) (S (conns d)) ({[conns d]} ∪ live d) (dials d))
      end
  | Some (Fresh k) =>
      open_bi room k d (λ d, finish t (Done k) (set_cached (Some k) d)) (finish t (Failed Connection_lost))
  | _ => d
  end.

(** A call that is dropped: its guard goes, and with a connection that it has not
    published the connection too. *)
Definition drop_dial (t : nat) (d : QuicDialer) : QuicDialer :=
  match dials d !! t with
  | Some (Start | Warm _ | Lock) => set_pc t Dropped d
  | Some (Recheck | Held _ | Connect) => finish t Dropped d
  | Some (Fresh k) => finish t Dropped (lose k d)
  | _ => d
  end.

Definition close (d : QuicDialer) : QuicDialer :=
  match cached d with Some k => lose k (set_cached None d) | None => d end.

Inductive Ev : Type :=
| Dial
| On (t : nat) (room : bool) (answer : result QuicError ())
| Drop (t : nat)
| Close
| Look
| Lost (k : nat).

Definition step (ev : Ev) (d : QuicDialer) : QuicDialer :=
  match ev with
  | Dial => mkDialer (cached d) (build_lock d) (built d) (conns d) (live d) (dials d ++ [Start])
  | On t room answer => dial_on t room answer d
  | Drop t => drop_dial t d
  | Close => close d
  | Look => (live_session d).2
  | Lost k => lose k d
  end.
Definition run (evs : list Ev) (d : QuicDialer) : QuicDialer := foldl (λ d ev, step ev d) d evs.

Definition critical (pc : Pc) : bool := match pc with Recheck | Held _ | Connect | Fresh _ => true | _ => false end.

(** The connection a dial has under the lock. *)
Definition holds (pc : Pc) : option nat := match pc with Held k | Fresh k => Some k | _ => None end.

(** The last connection made is the only one that can be alive, and while it is, it is
    the cached one or a dial has just made it. *)
Record dialer_ok (d : QuicDialer) : Prop := {
  ok_last : ∀ k, k ∈ live d → S k = conns d;
  ok_known : ∀ k, k ∈ live d → cached d = Some k ∨ ∃ t, dials d !! t = Some (Fresh k);
  ok_lock : ∀ t pc, dials d !! t = Some pc → critical pc = true → build_lock d = Some t;
  ok_made : ∀ t pc k, dials d !! t = Some pc → holds pc = Some k → S k = conns d;
  ok_connect : ∀ t, dials d !! t = Some Connect → live d = ∅;
  ok_built : built d = u64 (Z.of_nat (conns d))
}.

(** A step of one dial that makes no connection and takes none out of the cache. *)
Lemma ok_pc t pc pc' l d :
  dialer_ok d → dials d !! t = Some pc → (∀ k, pc ≠ Fresh k) → (∀ k, pc' ≠ Fresh k) →
  (pc' = Connect → live d = ∅) → (∀ k, holds pc' = Some k → S k = conns d) →
  (critical pc' = true → l = Some t) → (l = build_lock d ∨ critical pc = true ∨ build_lock d = None) →
  dialer_ok (set_pc t pc' (set_lock l d)).
Proof.
  intros [Hl Hk Hc Hm Hn Hb] Ht Hf Hf' He Hh Hcr Hlk. split; cbn; try done.
  - intros k Hi. destruct (Hk k Hi) as [?|[t' Ht']]; [auto|]. right. exists t'. rewrite list_lookup_insert_ne; [done|].
    intros ->. rewrite Ht in Ht'. injection Ht' as ->. by eapply Hf.
  - intros t' p Hp Hcp. destruct (decide (t = t')) as [<-|Hne].
    + rewrite list_lookup_insert_eq in Hp by (by eapply lookup_lt_Some). injection Hp as <-. by apply Hcr.
    + rewrite list_lookup_insert_ne in Hp by done. pose proof (Hc _ _ Hp Hcp) as Hlt.
      destruct Hlk as [->|[Hpc| ?]]; [done| |congruence]. pose proof (Hc _ _ Ht Hpc). congruence.
  - intros t' p k Hp Hpk. destruct (decide (t = t')) as [<-|Hne].
    + rewrite list_lookup_insert_eq in Hp by (by eapply lookup_lt_Some). injection Hp as ->. by apply Hh.
    + rewrite list_lookup_insert_ne in Hp by done. by eapply Hm.
  - intros t' Hp. destruct (decide (t = t')) as [<-|Hne].
    + rewrite list_lookup_insert_eq in Hp by (by eapply lookup_lt_Some). apply He. congruence.
    + rewrite list_lookup_insert_ne in Hp by done. by eapply Hn.
Qed.

Lemma ok_evict d : dialer_ok d → dialer_ok (live_session d).2 ∧
  match (live_session d).1 with Some k => k ∈ live d | None => live d = ∅ ∨ ∃ t k, dials d !! t = Some (Fresh k) end.
Proof.
  intros Hd. unfold live_session. destruct (cached d) as [k|] eqn:Ec.
  - case_bool_decide as Hi; [done|]. destruct Hd as [Hl Hk Hc Hm Hn Hb]. split.
    + split; cbn; try done. intros k' Hi'. destruct (Hk k' Hi') as [E|?]; [|auto]. congruence.
    + destruct (decide (live d = ∅)) as [|Hne]; [by left|]. apply set_choose_L in Hne as [k' Hi']. right.
      destruct (Hk k' Hi') as [E|[t Ht]]; [congruence|eauto].
  - split; [done|]. destruct (decide (live d = ∅)) as [|Hne]; [by left|]. apply set_choose_L in Hne as [k' Hi']. right.
    destruct (ok_known _ Hd k' Hi') as [E|[t Ht]]; [congruence|eauto].
Qed.

Lemma live_session_dials d : dials (live_session d).2 = dials d ∧ live (live_session d).2 = live d ∧ build_lock (live_session d).2 = build_lock d.
Proof. unfold live_session. destruct (cached d); [case_bool_decide|]; done. Qed.

(** The end of a dial that has made a connection, which it publishes or loses. *)
Lemma ok_fresh t k pc b d :
  dialer_ok d → dials d !! t = Some (Fresh k) → critical pc = false →
  dialer_ok (finish t pc (if b : bool then set_cached (Some k) d else lose k d)).
Proof.
  intros [Hl Hk Hc Hm Hn Hb] Ht Hcr.
  assert (∀ t' k', dials d !! t' = Some (Fresh k') → t' = t) as Hone.
  { intros t' k' Ht'. pose proof (Hc _ _ Ht eq_refl). pose proof (Hc _ _ Ht' eq_refl). congruence. }
  assert (∀ t' p, <[t := pc]> (dials d) !! t' = Some p → critical p = true → False) as Hno.
  { intros t' p Hp Hcp. destruct (decide (t = t')) as [<-|Hne].
    - rewrite list_lookup_insert_eq in Hp by (by eapply lookup_lt_Some). congruence.
    - rewrite list_lookup_insert_ne in Hp by done. pose proof (Hc _ _ Hp Hcp). pose proof (Hc _ _ Ht eq_refl). congruence. }
  destruct b; split; cbn; try done.
  - intros k' Hi'. left. f_equal. pose proof (Hl k' Hi'). pose proof (Hm _ _ k Ht eq_refl). lia.
  - intros t' p Hp Hcp. destruct (Hno t' p Hp Hcp).
  - intros t' p k' Hp Hpk. destruct (Hno t' p Hp); by destruct p.
  - intros t' Hp. destruct (Hno t' Connect Hp eq_refl).
  - intros k' Hi'. set_solver.
  - intros k' [Hi' Hne]%elem_of_difference. destruct (Hk k' Hi') as [E|[t' Ht']]; [auto|].
    pose proof (Hone _ _ Ht') as ->. set_solver.
  - intros t' p Hp Hcp. destruct (Hno t' p Hp Hcp).
  - intros t' p k' Hp Hpk. destruct (Hno t' p Hp); by destruct p.
  - intros t' Hp. destruct (Hno t' Connect Hp eq_refl).
Qed.

(** A new connection, under the lock and with none alive. *)
Lemma ok_new t d :
  dialer_ok d → dials d !! t = Some Connect →
  dialer_ok (set_pc t (Fresh (conns d))
    (mkDialer (cached d) (build_lock d) (u64 (built d + 1)) (S (conns d)) ({[conns d]} ∪ live d) (dials d))).
Proof.
  intros [Hl Hk Hc Hm Hn Hb] Ht. pose proof (Hn _ Ht) as He. rewrite He.
  assert (∀ t' p, <[t := Fresh (conns d)]> (dials d) !! t' = Some p → critical p = true → t' = t ∧ p = Fresh (conns d)) as Hone.
  { intros t' p Hp Hcp. destruct (decide (t = t')) as [<-|Hne].
    - rewrite list_lookup_insert_eq in Hp by (by eapply lookup_lt_Some). by injection Hp.
    - rewrite list_lookup_insert_ne in Hp by done. pose proof (Hc _ _ Hp Hcp). pose proof (Hc _ _ Ht eq_refl). congruence. }
  split; cbn.
  - intros k Hi. assert (k = conns d) as -> by set_solver. done.
  - intros k Hi. assert (k = conns d) as -> by set_solver. right. exists t. rewrite list_lookup_insert_eq; [done|].
    by eapply lookup_lt_Some.
  - intros t' p Hp Hcp. destruct (Hone _ _ Hp Hcp) as [-> ->]. by apply (Hc _ _ Ht).
  - intros t' p k Hp Hpk. destruct (Hone _ _ Hp) as [_ ->]; [by destruct p|]. by injection Hpk as <-.
  - intros t' Hp. by destruct (Hone _ _ Hp eq_refl).
  - rewrite Hb. unfold wrap. rewrite Zplus_mod_idemp_l. f_equal. lia.
Qed.

Lemma ok_lose k d : dialer_ok d → dialer_ok (lose k d).
Proof.
  intros [Hl Hk Hc Hm Hn Hb]. split; cbn; try done.
  - set_solver.
  - set_solver.
  - intros t Ht. rewrite (Hn t Ht). set_solver.
Qed.

Lemma ok_step_pc t pc pc' d :
  dialer_ok d → dials d !! t = Some pc → (∀ k, pc ≠ Fresh k) → (∀ k, pc' ≠ Fresh k) →
  (pc' = Connect → live d = ∅) → (∀ k, holds pc' = Some k → S k = conns d) →
  (critical pc' = true → critical pc = true) → dialer_ok (set_pc t pc' d).
Proof.
  intros Hd Ht Hf Hf' He Hh Hcr. change (set_pc t pc' d) with (set_pc t pc' (set_lock (build_lock d) d)).
  apply (ok_pc t pc); try done; [|by left]. intros Hc. by apply (ok_lock _ Hd _ _ Ht), Hcr.
Qed.

Lemma ok_finish t pc pc' d :
  dialer_ok d → dials d !! t = Some pc → (∀ k, pc ≠ Fresh k) → critical pc = true → critical pc' = false →
  dialer_ok (finish t pc' d).
Proof. intros Hd Ht Hf Hc Hc'. apply (ok_pc t pc); try done; [by destruct pc'..|rewrite Hc'; done|auto]. Qed.

Lemma ok_lost_fresh t k pc d :
  dialer_ok d → dials d !! t = Some (Fresh k) → k ∉ live d → critical pc = false → dialer_ok (finish t pc d).
Proof.
  intros Hd Ht Hk Hc. replace d with (lose k d); [by apply (ok_fresh t k pc false)|].
  destruct d. unfold lose. cbn in *. f_equal. set_solver.
Qed.

Lemma dial_on_ok t room answer d : dialer_ok d → dialer_ok (dial_on t room answer d).
Proof.
  intros Hd. unfold dial_on. destruct (dials d !! t) as [pc|] eqn:Ht; [|done].
  destruct (ok_evict d Hd) as [Hd' Hs]. destruct (live_session_dials d) as (Edl & Elv & Elk).
  destruct pc as [|k| | |k| |k|k|e|]; try done.
  - destruct (live_session d) as [os d'] eqn:El. cbn in *. rewrite <-Edl in Ht.
    destruct os; by apply (ok_step_pc t Start).
  - unfold open_bi. case_bool_decide; [destruct room; [|done]|]; by apply (ok_step_pc t (Warm k)).
  - destruct (build_lock d) eqn:El; [done|]. apply (ok_pc t Lock); try done. auto.
  - destruct (live_session d) as [os d'] eqn:El. cbn in *. rewrite <-Edl in Ht.
    destruct os as [k|]; apply (ok_step_pc t Recheck); try done.
    + intros ? [= <-]. rewrite <-Elv in Hs. by apply (ok_last _ Hd').
    + intros _. rewrite Elv. destruct Hs as [?|(t' & k & Ht')]; [done|]. rewrite <-Edl in Ht'.
      pose proof (ok_lock _ Hd' _ _ Ht eq_refl). pose proof (ok_lock _ Hd' _ _ Ht' eq_refl). congruence.
  - unfold open_bi. case_bool_decide as Hk; [destruct room; [|done]|].
    + by apply (ok_finish t (Held k)).
    + apply (ok_step_pc t (Held k)); try done. intros _. destruct (decide (live d = ∅)) as [|Hne]; [done|].
      apply set_choose_L in Hne as [k' Hi]. pose proof (ok_last _ Hd _ Hi). pose proof (ok_made _ Hd _ _ k Ht eq_refl).
      assert (k = k') by lia. by subst.
  - destruct answer; [by apply ok_new|by apply (ok_finish t Connect)].
  - unfold open_bi. case_bool_decide as Hk; [destruct room; [|done]|].
    + by apply (ok_fresh t k (Done k) true).
    + by apply (ok_lost_fresh t k).
Qed.

Lemma step_ok ev d : dialer_ok d → dialer_ok (step ev d).
Proof.
  intros Hd. destruct ev as [|t room answer|t| | |k]; cbn [step].
  - destruct Hd as [Hl Hk Hc Hm Hn Hb].
    assert (∀ t pc, (dials d ++ [Start]) !! t = Some pc → dials d !! t = Some pc ∨ pc = Start) as Hsplit.
    { intros t pc [?|[_ Hs]]%lookup_app_Some; [auto|]. apply list_lookup_singleton_Some in Hs as [_ <-]. auto. }
    split; cbn; try done.
    + intros k Hi. destruct (Hk k Hi) as [?|[t Ht]]; [auto|]. right. exists t. by rewrite lookup_app_l by (by eapply lookup_lt_Some).
    + intros t pc Ht Hcr. destruct (Hsplit _ _ Ht) as [?| ->]; [by eapply Hc|done].
    + intros t pc k Ht Hh. destruct (Hsplit _ _ Ht) as [?| ->]; [by eapply Hm|done].
    + intros t Ht. destruct (Hsplit _ _ Ht) as [?|?]; [by eapply Hn|done].
  - by apply dial_on_ok.
  - unfold drop_dial. destruct (dials d !! t) as [pc|] eqn:Ht; [|done].
    destruct pc as [|k| | |k| |k|k|e|]; try done; try (by eapply ok_step_pc); try (by eapply ok_finish).
    by apply (ok_fresh t k Dropped false).
  - unfold close. destruct (cached d) as [k|] eqn:Ec; [|done]. destruct Hd as [Hl Hk Hc Hm Hn Hb]. split; cbn; try done.
    + set_solver.
    + intros k' [Hi Hne]%elem_of_difference. destruct (Hk k' Hi) as [E|?]; [set_solver|auto].
    + intros t Ht. rewrite (Hn t Ht). set_solver.
  - by apply ok_evict.
  - by apply ok_lose.
Qed.

(** However many dials share a QUIC dialer, and however they interleave with each
    other, with connections that are lost, with [close] and with dials that are
    given up: at most one connection is alive, the last one made; it is the cached
    one or belongs to a dial that has just made it under the lock; one dial at a
    time builds; and the count of connections made is right. *)
Theorem quic_dial_shared evs k k' :
  let d := run evs dialer_start in
  k ∈ live d → k' ∈ live d →
  k = k' ∧ S k = conns d ∧ built d = u64 (Z.of_nat (conns d))
  ∧ (cached d = Some k ∨ ∃ t, dials d !! t = Some (Fresh k) ∧ build_lock d = Some t)
  ∧ ∀ t t' pc pc', dials d !! t = Some pc → dials d !! t' = Some pc' → critical pc = true → critical pc' = true → t = t'.
Proof.
  intros d Hk Hk'. assert (dialer_ok d) as Hd.
  { subst d. clear. induction evs as [|ev evs IH] using rev_ind; [by split|]. unfold run in *. rewrite foldl_app. by apply step_ok. }
  pose proof (ok_last _ Hd _ Hk). pose proof (ok_last _ Hd _ Hk'). split_and!; [lia|done|by apply ok_built| |].
  - destruct (ok_known _ Hd _ Hk) as [?|[t Ht]]; [auto|]. right. exists t. split; [done|]. by apply (ok_lock _ Hd _ _ Ht).
  - intros t t' pc pc' Ht Ht' Hc Hc'. pose proof (ok_lock _ Hd _ _ Ht Hc). pose proof (ok_lock _ Hd _ _ Ht' Hc'). congruence.
Qed.

(** ** Connecting *)

(** The host of an address, for the default name in SNI. *)
Definition host_of (addr : bytes) : bytes :=
  let plain :=
    match rsplit_once ch_colon addr with
    | Some (x :: host, _) => x :: host
    | _ => str "localhost"
    end in
  match strip_prefix [ch_lbracket] addr with
  | Some rest => match split_once ch_rbracket rest with Some (host, _) => host | None => plain end
  | None => plain
  end.

Definition no_address : io_error := IoError Other "quic: resolved to no address".

(** [resolve], with the answer of the system's lookup. *)
Definition resolve (lookup : bytes → result io_error (list SocketAddr)) (addr : bytes) : result QuicError SocketAddr :=
  match lookup addr with
  | Err e => Err (QuicIo e)
  | Ok (a :: _) => Ok a
  | Ok [] => Err (QuicIo no_address)
  end.

(** [build_endpoint] on a bound socket: whether datagrams are sealed. *)
Definition build_endpoint (bind : result io_error ()) (key : option bytes) : result QuicError bool :=
  match bind with
  | Err e => Err (QuicIo e)
  | Ok _ =>
      match key with
      | Some k => match cipher_new k with Ok _ => Ok true | Err e => Err (QuicIo e) end
      | None => Ok false
      end
  end.

(** A socket of the family of the remote end. *)
Definition bind_for (remote : SocketAddr) : SocketAddr :=
  match sa_ip remote with
  | V6 _ => mkAddr (V6 [0; 0; 0; 0; 0; 0; 0; 0]) 0
  | V4 _ => mkAddr (V4 [0; 0; 0; 0]) 0
  end.

(** [QuicDialer::connect]: how long the handshake takes, and how it ends. *)
Definition connect (lookup : bytes → result io_error (list SocketAddr)) (bind : SocketAddr → result io_error ())
    (connecting : SocketAddr → bytes → bool → Z * result QuicError ()) (config : QuicConfig) (addr server_name : bytes) :
    result QuicError () :=
  remote <-? resolve lookup addr ;;
  sealed <-? build_endpoint (bind (bind_for remote)) (key config) ;;
  let '(took, r) := connecting remote server_name sealed in
  if timeout config =? 0 then r else if timeout config <? took then Err (HandshakeTimedOut addr) else r.

(** A handshake is sealed exactly when the configuration has a key, and ends within
    the timeout that is set. *)
Lemma connect_sealed lookup bind connecting config addr name :
  connect lookup bind connecting config addr name = Ok tt →
  ∃ remote, resolve lookup addr = Ok remote ∧ (connecting remote name (is_encrypted config)).2 = Ok tt
    ∧ (timeout config ≠ 0 → (connecting remote name (is_encrypted config)).1 ≤ timeout config).
Proof.
  unfold connect. destruct (resolve lookup addr) as [remote|]; [|done]. cbn [rbind].
  destruct (build_endpoint _ _) as [sealed|] eqn:Eb; [|done]. cbn [rbind].
  assert (sealed = is_encrypted config) as ->.
  { unfold build_endpoint in Eb. unfold is_encrypted. destruct (bind _); [|done]. destruct (key config) as [k|].
    - destruct (cipher_new k); [|done]. by injection Eb as <-.
    - by injection Eb as <-. }
  destruct (connecting remote name (is_encrypted config)) as [took r] eqn:Ec. intros H. exists remote. rewrite Ec. cbn.
  destruct (Z.eqb_spec (timeout config) 0); [by subst r|]. destruct (Z.ltb_spec (timeout config) took); [done|]. by subst r.
Qed.

(** ** Transporters *)

(** A dialer as it is made: its address, the name it presents, whether it verifies
    the server's certificate, and its configuration. *)
Record DialerSpec : Set := mkSpec { d_addr : bytes; d_name : bytes; d_verifies : bool; d_config : QuicConfig }.

Definition with_client_config (addr : bytes) (config : QuicConfig) (verifies : bool) (idle_ok : Z → bool) :
    result QuicError DialerSpec :=
  _ <-? validate config ;; _ <-? quic_transport_config idle_ok config ;; Ok (mkSpec addr (host_of addr) verifies config).
Definition dialer_new (addr : bytes) (config : QuicConfig) (idle_ok : Z → bool) : result QuicError DialerSpec :=
  with_client_config addr config false idle_ok.
Definition with_server_name (name : bytes) (d : DialerSpec) : DialerSpec := mkSpec (d_addr d) name (d_verifies d) (d_config d).

Record QuicTransporter : Set := mkTransporter {
  t_config : QuicConfig;
  t_crypto : option bool;
  t_name : option bytes;
  t_dialers : gmap bytes DialerSpec
}.

Definition transporter_new (config : QuicConfig) : result QuicError QuicTransporter :=
  _ <-? validate config ;; Ok (mkTransporter config None None ∅).

Definition t_with_client_config (verifies : bool) (t : QuicTransporter) : QuicTransporter :=
  mkTransporter (t_config t) (Some verifies) (t_name t) (t_dialers t).
Definition t_with_server_name (name : bytes) (t : QuicTransporter) : QuicTransporter :=
  mkTransporter (t_config t) (t_crypto t) (Some name) (t_dialers t).

Definition dialer (idle_ok : Z → bool) (addr : bytes) (t : QuicTransporter) : result QuicError DialerSpec * QuicTransporter :=
  match t_dialers t !! addr with
  | Some d => (Ok d, t)
  | None =>
      match (match t_crypto t with
             | Some verifies => with_client_config addr (t_config t) verifies idle_ok
             | None => dialer_new addr (t_config t) idle_ok
             end) with
      | Err e => (Err e, t)
      | Ok d =>
          let d := match t_name t with Some name => with_server_name name d | None => d end in
          (Ok d, mkTransporter (t_config t) (t_crypto t) (t_name t) (<[addr := d]> (t_dialers t)))
      end
  end.

Definition remove (addr : bytes) (t : QuicTransporter) : option DialerSpec * QuicTransporter :=
  (t_dialers t !! addr, mkTransporter (t_config t) (t_crypto t) (t_name t) (delete addr (t_dialers t))).

(** An address keeps its dialer, of the transporter's own configuration, until it is
    removed. *)
Lemma dialer_kept idle_ok addr t d t' :
  t_dialers t !! addr = None → dialer idle_ok addr t = (Ok d, t') →
  dialer idle_ok addr t' = (Ok d, t') ∧ d_addr d = addr ∧ d_config d = t_config t
  ∧ d_name d = default (host_of addr) (t_name t) ∧ d_verifies d = default false (t_crypto t)
  ∧ t_dialers (remove addr t').2 !! addr = None.
Proof.
  unfold dialer at 1. intros ->. destruct (match t_crypto t with Some _ => _ | None => _ end) as [d0|] eqn:E; [|done].
  intros [= <- <-]. split; [unfold dialer; cbn; by rewrite lookup_insert_eq|]. cbn. rewrite lookup_delete_eq.
  assert (d0 = mkSpec addr (host_of addr) (default false (t_crypto t)) (t_config t)) as ->.
  { destruct (t_crypto t); unfold dialer_new, with_client_config in E; destruct (validate _), (quic_transport_config _ _); try done;
      by injection E as <-. }
  by destruct (t_name t).
Qed.

(** The chain's pool of transporters and the key of a hop. *)
Definition hop_key (node : Node) : bytes :=
  str "quic|" ++ Node.addr node ++ str "|" ++ default [] (Node_get node (str "cipher")) ++ str "|"
  ++ default [] (Node_get node (str "keepalive")).

Definition get_or_create (k : bytes) (config : QuicConfig) (m : gmap bytes QuicTransporter) :
    result QuicError QuicTransporter * gmap bytes QuicTransporter :=
  match m !! k with
  | Some existing => (Ok existing, m)
  | None => match transporter_new config with Ok t => (Ok t, <[k := t]> m) | Err e => (Err e, m) end
  end.

(** Two hops that differ in their idle time, timeout or keep-alive period only share
    the configuration of the first. *)
Lemma hop_first_config config config' k m t m' :
  get_or_create k config m = (Ok t, m') → get_or_create k config' m' = (Ok t, m').
Proof.
  unfold get_or_create. destruct (m !! k) eqn:E; [intros [= <- <-]; by rewrite E|].
  destruct (transporter_new config); [|done]. intros [= <- <-]. by rewrite lookup_insert_eq.
Qed.

(** ** The listener *)

Inductive ListenPhase : Set := Accepting | Draining | Closed.
#[export] Instance ListenPhase_eq_dec : EqDecision ListenPhase.
Proof. solve_decision. Defined.

(** Connections whose handshake runs, connections whose loop runs, and handlers of
    streams, each known by a number; [l_total] is the [ConnectionCount]. *)
Record Listener : Set := mkListener {
  l_phase : ListenPhase;
  l_shaking : gset nat;
  l_serving : gset nat;
  l_streams : gmap nat nat;
  l_next : nat;
  l_total : Z
}.

Definition listener_start : Listener := mkListener Accepting ∅ ∅ ∅ 0 0.

(** [StreamIn] may win against a cancelled token, which [ConnEnds] and [HandlerEnds]
    stand for as well as for the ends of connections and handlers. *)
Inductive ListenEv : Set :=
| Incoming_conn
| StopAccepting
| HandshakeEnds (k : nat) (ok : bool)
| StreamIn (k : nat)
| ConnEnds (k : nat)
| HandlerEnds (s : nat)
| Drained.

Definition listen_step (l : Listener) (ev : ListenEv) : Listener :=
  match ev with
  | Incoming_conn =>
      match l_phase l with
      | Accepting => mkListener Accepting ({[l_next l]} ∪ l_shaking l) (l_serving l) (l_streams l) (S (l_next l)) (l_total l)
      | _ => l
      end
  | StopAccepting =>
      match l_phase l with
      | Accepting => mkListener Draining (l_shaking l) (l_serving l) (l_streams l) (l_next l) (l_total l)
      | _ => l
      end
  | HandshakeEnds k ok =>
      if bool_decide (k ∈ l_shaking l) then
        if ok then mkListener (l_phase l) (l_shaking l ∖ {[k]}) ({[k]} ∪ l_serving l) (l_streams l) (l_next l) (u64 (l_total l + 1))
        else mkListener (l_phase l) (l_shaking l ∖ {[k]}) (l_serving l) (l_streams l) (l_next l) (l_total l)
      else l
  | StreamIn k =>
      if bool_decide (k ∈ l_serving l)
      then mkListener (l_phase l) (l_shaking l) (l_serving l) (<[l_next l := k]> (l_streams l)) (S (l_next l)) (l_total l)
      else l
  | ConnEnds k => mkListener (l_phase l) (l_shaking l) (l_serving l ∖ {[k]}) (l_streams l) (l_next l) (l_total l)
  | HandlerEnds s => mkListener (l_phase l) (l_shaking l) (l_serving l) (delete s (l_streams l)) (l_next l) (l_total l)
  | Drained =>
      match l_phase l with
      | Draining =>
          if bool_decide (l_shaking l = ∅ ∧ l_serving l = ∅ ∧ l_streams l = ∅)
          then mkListener Closed (l_shaking l) (l_serving l) (l_streams l) (l_next l) (l_total l)
          else l
      | _ => l
      end
  end.
Definition listen_run (evs : list ListenEv) (l : Listener) : Listener := foldl listen_step l evs.

Record listener_ok (l : Listener) : Prop := {
  ok_closed : l_phase l = Closed → l_shaking l = ∅ ∧ l_serving l = ∅ ∧ l_streams l = ∅;
  ok_next : ∀ s k, l_streams l !! s = Some k → (s < l_next l)%nat
}.

(** A closed listener has nothing to do. *)
Lemma closed_stays l ev : listener_ok l → l_phase l = Closed → listen_step l ev = l.
Proof.
  intros Hl E. destruct (ok_closed _ Hl E) as (E1 & E2 & E3). destruct l as [p sh se st n tot]. cbn in *. subst.
  destruct ev; cbn; try done; f_equal; set_solver.
Qed.

Lemma listen_step_ok l ev : listener_ok l → listener_ok (listen_step l ev).
Proof.
  intros Hl. destruct (decide (l_phase l = Closed)) as [E|E]; [by rewrite closed_stays|].
  assert (∀ s k, l_streams l !! s = Some k → (s < S (l_next l))%nat) as Hn by (intros s k ?%(ok_next _ Hl); lia).
  pose proof (ok_next _ Hl) as Hn0.
  destruct ev; cbn [listen_step]; repeat case_match; try exact Hl; (split; cbn [l_phase l_shaking l_serving l_streams l_next]).
  all: try (intros E'; congruence).
  all: try (intros s' k'; rewrite ?lookup_insert_Some, ?lookup_delete_Some; naive_solver (eauto; lia)).
  intros _. match goal with H : bool_decide _ = true |- _ => by apply bool_decide_eq_true in H end.
Qed.

(** The endpoint is closed only when every connection and every handler is over,
    and then nothing starts again; nothing but its own end stops a handler. *)
Theorem quic_drains evs ev :
  let l := listen_run evs listener_start in
  (l_phase l = Closed → l_shaking l = ∅ ∧ l_serving l = ∅ ∧ l_streams l = ∅ ∧ listen_step l ev = l)
  ∧ ∀ s k, l_streams l !! s = Some k → ev ≠ HandlerEnds s → l_streams (listen_step l ev) !! s = Some k.
Proof.
  intros l. assert (listener_ok l) as Hl.
  { subst l. clear. induction evs as [|e evs IH] using rev_ind; [by split|]. unfold listen_run in *. rewrite foldl_app.
    by apply listen_step_ok. }
  split.
  - intros E. destruct (ok_closed _ Hl E) as (? & ? & ?). by rewrite closed_stays.
  - intros s k Hs Hne. pose proof (ok_next _ Hl _ _ Hs). destruct ev; cbn; repeat case_match; cbn; try done.
    + rewrite lookup_insert_ne by lia. done.
    + rewrite lookup_delete_ne by congruence. done.
Qed.

(** ** Instances *)

(** A cipher that changes nothing, with the key's length for a tag. *)
Definition demo_gcm : Gcm :=
  mkGcm (λ k _ p, Some (p, replicate TAG_LEN (zlen k)))
    (λ k _ c t, if bool_decide (t = replicate TAG_LEN (zlen k)) then Some c else None).

#[export] Instance demo_gcm_ok : GcmOk demo_gcm.
Proof.
  split; cbn [encrypt decrypt demo_gcm].
  - intros k n p c t E. by injection E as <- <-.
  - intros k n p c t E. injection E as <- <-. by rewrite bool_decide_eq_true_2.
  - eauto.
Qed.

Definition demo_key : bytes := replicate 16 7.
Definition demo_nonce : bytes := replicate NONCE_LEN 3.

Lemma quic_datagrams_sealed_witness :
  let o := demo_nonce ++ str "hello" ++ replicate TAG_LEN 16 in
  let a := mkAddr (V4 [10; 0; 0; 1]) 9000 in
  try_send demo_gcm demo_key [demo_nonce] [Ok tt] None (str "hello") = (Ok tt, [o])
  ∧ poll_recv demo_gcm demo_key 1500 [Datagram a (str "scan"); Datagram a o; NoDatagram]
    = (Ready (Ok (Some (a, str "hello"))), [NoDatagram]).
Proof.
  intros o a. assert (try_send demo_gcm demo_key [demo_nonce] [Ok tt] None (str "hello") = (Ok tt, [o])) as Hs by by vm_compute.
  split; [done|].
  destruct (quic_datagrams_sealed demo_gcm demo_key [demo_nonce] None (str "hello") [o]) as [_ H];
    [by repeat constructor|done|unfold MAX_DATAGRAM, NONCE_LEN, TAG_LEN; cbn [default Nat.max length]; change (length (str "hello")) with 5%nat; lia|exact Hs|].
  cbn in H. apply Forall2_cons_1 in H as [[_ H] _]. apply (H 1500%nat [Datagram a (str "scan")] a [NoDatagram]).
  - cbn. lia.
  - repeat constructor. intros plain Hp. by vm_compute in Hp.
Defined.

Lemma quic_dial_shared_witness :
  let d := run [Dial; Dial; On 0 true (Ok tt); On 1 true (Ok tt); On 0 true (Ok tt); On 1 true (Ok tt); On 0 true (Ok tt);
                On 0 true (Ok tt); On 0 true (Ok tt); On 1 true (Ok tt); On 1 true (Ok tt)] dialer_start in
  conns d = 1%nat ∧ (cached d = Some 0%nat ∨ ∃ t, dials d !! t = Some (Fresh 0) ∧ build_lock d = Some t).
Proof.
  intros d. destruct (quic_dial_shared
    [Dial; Dial; On 0 true (Ok tt); On 1 true (Ok tt); On 0 true (Ok tt); On 1 true (Ok tt); On 0 true (Ok tt);
     On 0 true (Ok tt); On 0 true (Ok tt); On 1 true (Ok tt); On 1 true (Ok tt)] 0 0) as (_ & H1 & _ & H2 & _).
  - by apply (bool_decide_eq_true_1 (0%nat ∈ live d)); vm_compute.
  - by apply (bool_decide_eq_true_1 (0%nat ∈ live d)); vm_compute.
  - split; [symmetry; exact H1|exact H2].
Defined.

End Quic.
