(* ===== verification/Http2.v ===== *)
(** * HTTP/2

    Models src/h2_transport.rs, the tunnel in one HTTP/2 stream, and
    src/http2_transport.rs, the HTTP/2 proxy. Frames, requests and flow control are
    the [h2] crate's, whose answers are arguments; the parts of a request's URI and
    what a header may hold are the [http] crate's. *)

From stdpp Require Import base list option numbers strings sets.
From Stdlib Require Import ZArith Lia.
From S2P Require Import Prelude Text Utf8 AsyncIo IpAddr Node Permissions Conn Effects HttpConnect Words SniHello Http SocketText.

Module Http2.

(** ** The byte stream *)

(** What [poll_data] answers. *)
Inductive Data : Set := DataPending | Chunk (b : bytes) | DataErr (e : io_error) | DataEnd.

(** [released] is the window given back to the peer, [sent] the DATA frames, and
    [ended] whether END_STREAM was sent. *)
Record H2Stream : Set := mkStream { chunk : bytes; released : nat; sent : list bytes; ended : bool }.

Definition h2_new : H2Stream := mkStream [] 0 [] false.

(** Every turn of the loop but the last takes one answer. *)
Fixpoint poll_read (room : nat) (answers : list Data) (s : H2Stream) : poll (result io_error bytes) * H2Stream * list Data :=
  match chunk s with
  | _ :: _ =>
      let n := Nat.min (length (chunk s)) room in
      (Ready (Ok (take n (chunk s))), mkStream (drop n (chunk s)) (released s + n) (sent s) (ended s), answers)
  | [] =>
      match answers with
      | [] => (Pending, s, [])
      | DataPending :: answers => (Pending, s, answers)
      | DataErr e :: answers => (Ready (Err e), s, answers)
      | DataEnd :: answers => (Ready (Ok []), s, answers)
      | Chunk b :: answers => poll_read room answers (mkStream b (released s) (sent s) (ended s))
      end
  end.

(** What [poll_capacity] answers after [reserve_capacity]. *)
Inductive Capacity : Set := CapPending | CapOk (n : nat) | CapErr (e : io_error) | CapNone.

Definition stream_closed : io_error := IoError BrokenPipe "h2 stream closed".

(** [sending] is the answer of [send_data]. *)
Definition poll_write (cap : Capacity) (sending : result io_error ()) (buf : bytes) (s : H2Stream) : poll (result io_error nat) * H2Stream :=
  match buf with
  | [] => (Ready (Ok 0%nat), s)
  | _ =>
      match cap with
      | CapOk n =>
          let n := Nat.min n (length buf) in
          if (n =? 0)%nat then (Pending, s)
          else match sending with
               | Ok _ => (Ready (Ok n), mkStream (chunk s) (released s) (sent s ++ [take n buf]) (ended s))
               | Err e => (Ready (Err e), s)
               end
      | CapErr e => (Ready (Err e), s)
      | CapNone => (Ready (Err stream_closed), s)
      | CapPending => (Pending, s)
      end
  end.

Definition poll_flush (s : H2Stream) : poll (result io_error ()) * H2Stream := (Ready (Ok tt), s).

Definition poll_shutdown (sending : result io_error ()) (s : H2Stream) : poll (result io_error ()) * H2Stream :=
  match sending with
  | Ok _ => (Ready (Ok tt), mkStream (chunk s) (released s) (sent s) true)
  | Err e => (Ready (Err e), s)
  end.

(** ** The tunnel *)

Record H2Config : Set := mkConfig { path : bytes }.
Definition from_node (node : Node) : H2Config :=
  mkConfig (match Node_get node (str "path") with Some (x :: p) => x :: p | _ => [] end).
Definition default_config : H2Config := mkConfig [].

Definition METHOD_NOT_ALLOWED : Z := 405.
Definition BAD_REQUEST : Z := 400.

(** The check of a request, from its method and the path of its URI: [None] for one
    that is accepted. *)
Definition check_request (c : H2Config) (method uri_path : bytes) : option Z :=
  match path c with
  | [] => if bool_decide (method = str "CONNECT") then None else Some METHOD_NOT_ALLOWED
  | p => if bool_decide (uri_path = p) then None else Some BAD_REQUEST
  end.

(** What the accept loop meets: a request and how its response was sent, or an
    error, which ends it. *)
Inductive Accepted : Set := Req (method uri_path : bytes) (responded : bool) | AcceptErr.
Inductive Answer2 : Set := Refused (status : Z) | Served.

Fixpoint h2_accept (c : H2Config) (evs : list Accepted) : list Answer2 :=
  match evs with
  | [] => []
  | AcceptErr :: _ => []
  | Req m p responded :: evs =>
      match check_request c m p with
      | Some status => Refused status :: h2_accept c evs
      | None => (if responded then [Served] else []) ++ h2_accept c evs
      end
  end.

(** [h2_connect]: the request, and what its response makes of it. *)
Definition h2_request (host : bytes) (c : H2Config) : bytes * bytes :=
  match path c with
  | [] => (str "CONNECT", str "https://" ++ host)
  | p => (str "GET", str "https://" ++ host ++ p)
  end.

Inductive H2Err : Set := H2Lib (e : bytes) | BadUri | TunnelRejected (status : Z).

Definition h2_connect (handshake : result bytes ()) (uri_ok : bytes → bool) (respond : bytes → bytes → result bytes Z)
    (host : bytes) (c : H2Config) : result H2Err H2Stream :=
  match handshake with
  | Err e => Err (H2Lib e)
  | Ok _ =>
      let '(method, uri) := h2_request host c in
      if negb (uri_ok uri) then Err BadUri
      else match respond method uri with
           | Err e => Err (H2Lib e)
           | Ok status => if status =? 200 then Ok h2_new else Err (TunnelRejected status)
           end
  end.

Definition http2_connect handshake uri_ok respond (target : bytes) : result H2Err H2Stream :=
  h2_connect handshake uri_ok respond target default_config.

(** ** The proxy: requests *)

(** A header value; [to_str] gives its text when it has only visible characters. *)
Definition to_str (v : bytes) : option bytes :=
  if forallb (λ c, (c =? 9) || ((32 <=? c) && (c <? 127))) v then Some v else None.

(** The parts of a request: those of its URI, its headers with names in lower case,
    and the pieces of its body as they arrive. *)
Record Request : Set := mkRequest {
  method : bytes;
  uri_host : option bytes;
  uri_port : option Z;
  uri_scheme : option bytes;
  uri_authority : option bytes;
  uri_path_and_query : option bytes;
  headers : list (bytes * bytes);
  body : list (result bytes bytes)
}.

Definition CONNECT : bytes := str "CONNECT".

Definition request_target (rq : Request) : option bytes :=
  host ← uri_host rq;
  let port := default (if bool_decide (method rq = CONNECT) || bool_decide (uri_scheme rq = Some (str "https")) then 443 else 80)
                (uri_port rq) in
  Some (if contains_char ch_colon host && negb (starts_with [ch_lbracket] host)
        then [ch_lbracket] ++ host ++ [ch_rbracket; ch_colon] ++ show_int port
        else host ++ [ch_colon] ++ show_int port).

Definition header_get (rq : Request) (name : string) : option bytes :=
  snd <$> List.find (λ h : bytes * bytes, bool_decide (h.1 = str name)) (headers rq).
Definition header_str (rq : Request) (name : string) : bytes := default [] (header_get rq name ≫= to_str).

(** What is done for a stream: a response without a body, dials, the tunnel, what is
    written to the origin, and the response that is relayed. *)
Inductive Act : Set :=
| Status (code : Z)
| Dial (host : bytes)
| Tunnel (host : bytes)
| ToOrigin (b : bytes)
| Reply (status : Z) (headers : list (bytes * bytes)) (body : bytes).

(** A task returns, or panics. *)
Inductive Outcome : Set := Returned (r : result HandlerError ()) | Panicked.

Definition BAD_GATEWAY : Z := 502.
Definition FORBIDDEN : Z := 403.
Definition PROXY_AUTHENTICATION_REQUIRED : Z := 407.

Definition hop_by_hop : list bytes :=
  str <$> ["host"; "connection"; "proxy-connection"; "proxy-authorization"; "keep-alive"; "transfer-encoding"; "upgrade"; "te"]%string.
Definition response_hop_by_hop : list bytes :=
  str <$> ["connection"; "transfer-encoding"; "keep-alive"; "upgrade"; "proxy-connection"]%string.

Definition forward_head (rq : Request) (host : bytes) : bytes :=
  Http.line (method rq ++ str " " ++ default (str "/") (uri_path_and_query rq) ++ str " HTTP/1.1")
  ++ Http.line (str "Host: " ++ default host (uri_authority rq))
  ++ concat ((λ h, match to_str h.2 with Some v => Http.line (h.1 ++ str ": " ++ v) | None => [] end)
             <$> filter (λ h, h.1 ∉ hop_by_hop) (headers rq))
  ++ Http.line (str "Connection: close") ++ crlf.

(** The body: its pieces in turn, up to one that fails. *)
Fixpoint relay_body (pieces : list (result bytes bytes)) : conv HandlerError () :=
  match pieces with
  | [] => cret tt
  | Err e :: _ => cfail (Proxy (str "h2 body: " ++ e))
  | Ok b :: pieces => h_write b ;;! relay_body pieces
  end.

Definition status_of (line : bytes) : Z :=
  default BAD_GATEWAY
    (w ← nth_error (split_whitespace line) 1;
     c ← parse_u16 w;
     if (100 <=? c) && (c <? 1000) then Some c else None).

(** The headers of the response, up to a blank line or the end. *)
Fixpoint read_reply_headers (fuel : nat) (hs : list (bytes * bytes)) (buf : bytes) : conv HandlerError (list (bytes * bytes) * bytes) :=
  match fuel with
  | O => cfail (Io early_eof)
  | S fuel =>
      l <~ Http.read_line buf ;;
      if bool_decide (l.1 = []) then cret (hs, l.2)
      else match trim_end (l.1) with
           | [] => cret (hs, l.2)
           | header =>
               match split_once ch_colon header with
               | None => read_reply_headers fuel hs (l.2)
               | Some (name, value) =>
                   let name := lower <$> trim name in
                   if bool_decide (name ∈ response_hop_by_hop) then read_reply_headers fuel hs (l.2)
                   else read_reply_headers fuel (hs ++ [(name, trim value)]) (l.2)
               end
           end
  end.

Section proxy.
(** [header_ok] is whether the [http] crate takes a header; [responds] and [sends] how
    the response and its body go. *)
Context (header_ok : bytes → bytes → bool) (responds sends : result bytes ()).
Context (o : HandlerOptions) (env : Http.HttpEnv).

Definition forward_request (rq : Request) (host : bytes) (origin : Conn) : Outcome * list Act :=
  let head := forward_head rq host in
  let wrote c := ToOrigin (drop (length (tx origin)) (tx c)) in
  match (h_write head ;;! relay_body (body rq)) origin with
  | (Err e, c) => (Returned (Err e), [wrote c])
  | (Ok _, c) =>
      match Http.read_line [] c with
      | (Err e, c) => (Returned (Err e), [wrote c])
      | (Ok ([], _), c) => (Returned (Ok tt), [wrote c; Status BAD_GATEWAY])
      | (Ok (line, buf), c) =>
          match read_reply_headers (S (length (buf ++ incoming c))) [] buf c with
          | (Err e, c) => (Returned (Err e), [wrote c])
          | (Ok (hs, buf), c) =>
              if negb (forallb (λ h, header_ok h.1 h.2) hs) then (Panicked, [wrote c])
              else match responds with
                   | Err e => (Returned (Err (Proxy (str "h2 response failed: " ++ e))), [wrote c])
                   | Ok _ =>
                       match sends with
                       | Err e => (Returned (Err (Proxy (str "h2 send: " ++ e))), [wrote c; Reply (status_of line) hs []])
                       | Ok _ =>
                           (Returned (match rx_end c with None => Ok tt | Some e => Err (Io e) end),
                            [wrote c; Reply (status_of line) hs (buf ++ incoming c)])
                       end
                   end
          end
      end
  end.

Definition authenticate (user password : bytes) : bool :=
  match authenticator o with Some auth => auth user password | None => true end.

(** The target that counts: a name carried in [Gost-Target] overrides the URI's. *)
Definition effective_target (rq : Request) (host : bytes) : bytes :=
  match header_str rq "gost-target" with
  | [] => host
  | carried =>
      match Sni.decode_server_name (Http.b64url_decode env) carried with
      | None => host
      | Some real =>
          if contains_char ch_colon real then real
          else real ++ [ch_colon] ++ match rsplit_once ch_colon host with Some (_, p) => p | None => str "80" end
      end
  end.

Fixpoint dial_loop (n i : nat) (host : bytes) : option Conn * list Act :=
  match n with
  | O => (None, [])
  | S n =>
      match Http.chain_dial env host i with
      | Ok c => (Some c, [Dial host])
      | Err _ => let '(r, acts) := dial_loop n (S i) host in (r, Dial host :: acts)
      end
  end.

Definition credentials (rq : Request) : bytes * bytes :=
  let '(u, p, _) := Http.basic_proxy_auth env (header_str rq "proxy-authorization") in (u, p).

Definition serve_request (rq : Request) : Outcome * list Act :=
  match request_target rq with
  | None => (Returned (Ok tt), [Status BAD_REQUEST])
  | Some host =>
      let host := effective_target rq host in
      if bypassed o host then (Returned (Ok tt), [Status FORBIDDEN])
      else
        let '(u, p) := credentials rq in
        if negb (authenticate u p) then (Returned (Ok tt), [Status PROXY_AUTHENTICATION_REQUIRED])
        else
          let '(r, dials) := dial_loop (Nat.max (retries o) 1) 0 host in
          match r with
          | None => (Returned (Ok tt), dials ++ [Status BAD_GATEWAY])
          | Some c =>
              if bool_decide (method rq = CONNECT) then
                match responds with
                | Err e => (Returned (Err (Proxy (str "h2 response failed: " ++ e))), dials)
                | Ok _ => (Returned (Ok tt), dials ++ [Status 200; Tunnel host])
                end
              else let '(out, acts) := forward_request rq host c in (out, dials ++ acts)
          end
  end.

(** The accept loop: each request is served by a task of its own; an error ends the
    loop. *)
Fixpoint http2_accept (evs : list (option Request)) : list (Outcome * list Act) :=
  match evs with
  | Some rq :: evs => serve_request rq :: http2_accept evs
  | _ => []
  end.
End proxy.

(** ** The stream carries what was sent *)

Definition payload (d : Data) : bytes := match d with Chunk b => b | _ => [] end.
Definition carried (answers : list Data) : bytes := concat (payload <$> answers).

Lemma h2_poll_read_ok room answers s p s' answers' :
  poll_read room answers s = (p, s', answers') →
  chunk s ++ carried answers = poll_bytes p ++ chunk s' ++ carried answers'
  ∧ released s' = (released s + length (poll_bytes p))%nat
  ∧ sent s' = sent s
  ∧ (∃ used, answers = used ++ answers' ∧ (p = Ready (Ok []) → (0 < room)%nat → DataEnd ∈ used)
       ∧ ∀ e, p = Ready (Err e) → DataErr e ∈ used)
  ∧ ((0 < room)%nat → poll_bytes p = [] → (length answers' < length answers)%nat ∨ chunk s' ++ carried answers' = []).
Proof.
  revert s. induction answers as [|a answers IH]; intros s H; cbn [poll_read] in H; destruct (chunk s) as [|b c] eqn:Ec.
  2, 4: rewrite <-Ec in H; injection H as <- <- <-; cbn [poll_bytes chunk released sent];
    assert ((0 < room)%nat → take (Nat.min (length (chunk s)) room) (chunk s) ≠ []) as Hne
      by (rewrite Ec; destruct room; [lia|done]);
    (split_and!; [by rewrite <-Ec, app_assoc, take_drop|rewrite length_take; lia|done| |intros Hr E; by destruct (Hne Hr)]);
    (exists []; split_and!; [done| |done]); intros [= E] Hr; by destruct (Hne Hr).
  - injection H as <- <- <-. rewrite Ec. cbn. split_and!; [done|lia|done|by exists []|auto].
  - assert (∀ q, poll_bytes q = [] → (q = Ready (Ok []) → a = DataEnd) → (∀ e, q = Ready (Err e) → a = DataErr e) → payload a = [] →
      (q, s, answers) = (p, s', answers') →
      [] ++ carried (a :: answers) = poll_bytes p ++ chunk s' ++ carried answers'
      ∧ released s' = (released s + length (poll_bytes p))%nat ∧ sent s' = sent s
      ∧ (∃ used, a :: answers = used ++ answers' ∧ (p = Ready (Ok []) → (0 < room)%nat → DataEnd ∈ used)
           ∧ ∀ e, p = Ready (Err e) → DataErr e ∈ used)
      ∧ ((0 < room)%nat → poll_bytes p = [] →
           (length answers' < length (a :: answers))%nat ∨ chunk s' ++ carried answers' = [])) as Hstop.
    { intros q Hq Hend Herr Hpay [= <- <- <-]. rewrite Hq, Ec. unfold carried. cbn [fmap list_fmap concat]. rewrite Hpay.
      split_and!; [done|cbn; lia|done| |left; cbn; lia]. exists [a]. split_and!; [done| |].
      - intros E _. rewrite (Hend E). left.
      - intros e E. rewrite (Herr e E). left. }
    destruct a as [|d|e|]; [by apply (Hstop Pending)| |apply (Hstop (Ready (Err e))); try done; congruence|by apply (Hstop (Ready (Ok [])))].
    clear Hstop. destruct (IH _ H) as (H1 & H2 & H3 & (used & -> & H4 & H5) & H6). cbn [chunk released sent] in *. split_and!; try done.
    + exists (Chunk d :: used). split_and!; [done|intros; right; auto|intros; right; auto].
    + intros Hr Hp. left. cbn. rewrite length_app. lia.
Qed.

Fixpoint h2_reads (rooms : list nat) (answers : list Data) (s : H2Stream) : list (poll (result io_error bytes)) * H2Stream * list Data :=
  match rooms with
  | [] => ([], s, answers)
  | room :: rooms =>
      let '(p, s, answers) := poll_read room answers s in
      let '(ps, s, answers) := h2_reads rooms answers s in (p :: ps, s, answers)
  end.

Lemma h2_reads_ok rooms answers s ps s' answers' :
  h2_reads rooms answers s = (ps, s', answers') →
  chunk s ++ carried answers = delivered ps ++ chunk s' ++ carried answers'
  ∧ released s' = (released s + length (delivered ps))%nat
  ∧ (Forall (λ r, 0 < r)%nat rooms → Ready (Ok []) ∈ ps → DataEnd ∈ answers)
  ∧ (Forall (λ r, 0 < r)%nat rooms → (length (chunk s ++ carried answers) + length answers ≤ length rooms)%nat →
       chunk s' ++ carried answers' = []).
Proof.
  revert answers s ps. induction rooms as [|room rooms IH]; intros answers s ps; cbn [h2_reads].
  - intros [= <- <- <-]. split_and!; [done|unfold delivered; cbn; lia|by intros _ ?%not_elem_of_nil|].
    intros _ Hl. cbn [length] in Hl. destruct (chunk s ++ carried answers); [done|cbn in Hl; lia].
  - destruct (poll_read room answers s) as [[p s1] a1] eqn:Er. destruct (h2_reads rooms a1 s1) as [[ps1 s2] a2] eqn:Es.
    intros [= <- <- <-]. destruct (h2_poll_read_ok _ _ _ _ _ _ Er) as (H1 & H2 & _ & (used & -> & H4 & _) & H6).
    destruct (IH _ _ _ Es) as (I1 & I2 & I3 & I4). unfold delivered in *. cbn [fmap list_fmap concat]. split_and!.
    + by rewrite H1, I1, app_assoc.
    + rewrite I2, H2, length_app. lia.
    + intros [Hr Hf]%Forall_cons [Hp|Hp]%elem_of_cons; apply elem_of_app; [left; by apply H4|right; by apply I3].
    + intros [Hr Hf]%Forall_cons Hl. rewrite H1 in Hl. rewrite !length_app in Hl. cbn [length] in Hl.
      destruct (poll_bytes p) as [|y l] eqn:Ep; [|cbn [length] in Hl; apply I4; [done|]; rewrite length_app; lia].
      destruct (H6 Hr eq_refl) as [Hlt|He].
      * rewrite length_app in Hlt. apply I4; [done|]. rewrite length_app. cbn [length] in Hl. lia.
      * rewrite He in I1. symmetry in I1. by apply app_nil in I1 as [_ ?].
Qed.

(** Writes in turn, each with the window and the library's answer. *)
Fixpoint h2_writes (ops : list (Capacity * result io_error () * bytes)) (s : H2Stream) : list (poll (result io_error nat)) * H2Stream :=
  match ops with
  | [] => ([], s)
  | (cap, sending, buf) :: ops =>
      let '(p, s) := poll_write cap sending buf s in
      let '(ps, s) := h2_writes ops s in (p :: ps, s)
  end.

(** What a write reports as taken. *)
Definition taken (p : poll (result io_error nat)) (buf : bytes) : bytes :=
  match p with Ready (Ok n) => take n buf | _ => [] end.
Definition all_taken (ps : list (poll (result io_error nat))) (ops : list (Capacity * result io_error () * bytes)) : bytes :=
  concat (zip_with (λ p op, taken p op.2) ps ops).

(** The window a write was given. *)
Definition window (cap : Capacity) : nat := match cap with CapOk n => n | _ => 0 end.

Lemma h2_poll_write_ok cap sending buf s p s' :
  poll_write cap sending buf s = (p, s') →
  concat (sent s') = concat (sent s) ++ taken p buf ∧ (length (taken p buf) ≤ window cap)%nat
  ∧ chunk s' = chunk s ∧ released s' = released s ∧ (∀ n, p = Ready (Ok n) → (n ≤ length buf)%nat ∧ (buf ≠ [] → 0 < n)%nat).
Proof.
  unfold poll_write. destruct buf as [|b buf].
  { intros [= <- <-]. cbn. rewrite app_nil_r. split_and!; try done; [lia|]. intros n [= <-]. done. }
  destruct cap as [|n|e|]; try (intros [= <- <-]; cbn; rewrite app_nil_r; split_and!; (lia || done)).
  cbv zeta. remember (Nat.min n (length (b :: buf))) as k eqn:Ek. destruct (Nat.eqb_spec k 0) as [E|E].
  { intros [= <- <-]. cbn. rewrite app_nil_r. split_and!; (lia || done). }
  destruct sending as [|e]; intros [= <- <-]; cbn [sent chunk released taken window].
  - rewrite concat_app. cbn [concat]. rewrite app_nil_r. split_and!; try done; [rewrite length_take; lia|].
    intros ? [= <-]. split; [lia|intros _; lia].
  - rewrite app_nil_r. split_and!; (cbn; lia) || done.
Qed.

(** An HTTP/2 stream between two ends: what is taken for writing goes out as DATA,
    never more than the window allows; and what is read of DATA, however it is cut,
    is a beginning of what it carries, all of it when polled often enough, the
    window given back for exactly what was read, and an end only where the peer
    ended. *)
Theorem h2_transfer ops ws w answers rooms ps r answers' :
  h2_writes ops h2_new = (ws, w) → carried answers = concat (sent w) →
  Forall (λ room, 0 < room)%nat rooms → h2_reads rooms answers h2_new = (ps, r, answers') →
  (∃ rest, all_taken ws ops = delivered ps ++ rest)
  ∧ released r = length (delivered ps)
  ∧ (Ready (Ok []) ∈ ps → DataEnd ∈ answers)
  ∧ ((length (all_taken ws ops) + length answers ≤ length rooms)%nat → delivered ps = all_taken ws ops).
Proof.
  intros Hw Hc Hr Hrd.
  assert (∀ ops s ws w, h2_writes ops s = (ws, w) → concat (sent w) = concat (sent s) ++ all_taken ws ops) as Htaken.
  { clear. induction ops as [|[[cap sending] buf] ops IH]; intros s ws w H; cbn [h2_writes] in H.
    - injection H as <- <-. unfold all_taken. cbn. by rewrite app_nil_r.
    - destruct (poll_write cap sending buf s) as [p s1] eqn:Ep. destruct (h2_writes ops s1) as [ws1 w1] eqn:Ew.
      injection H as <- <-. destruct (h2_poll_write_ok _ _ _ _ _ _ Ep) as (H1 & _). rewrite (IH _ _ _ Ew), H1.
      unfold all_taken. cbn. by rewrite app_assoc. }
  apply Htaken in Hw. cbn in Hw. rewrite Hw in Hc. clear Htaken.
  destruct (h2_reads_ok _ _ _ _ _ _ Hrd) as (H1 & H2 & H3 & H4). cbn [chunk released h2_new app] in *. rewrite Hc in *. split_and!.
  - by eexists.
  - done.
  - by apply H3.
  - intros Hl. rewrite H1, (H4 Hr Hl), app_nil_r. done.
Qed.

(** ** Paths *)

(** A client and a listener with the same parameters meet, where the path is that of
    the URI, as for one that begins with a slash and has no query. *)
Lemma h2_paths_meet c host uri_path :
  (path c ≠ [] → uri_path (h2_request host c).2 = path c) →
  check_request c (h2_request host c).1 (uri_path (h2_request host c).2) = None.
Proof.
  unfold h2_request, check_request. destruct (path c) as [|x p]; [done|]. cbn [fst snd]. intros ->; [|done].
  by rewrite bool_decide_eq_true_2.
Qed.

(** One that does not begin with a slash is served to nobody, as paths of URIs do. *)
Lemma bare_path_unserved c method uri_path x p :
  path c = x :: p → x ≠ ch_slash → starts_with [ch_slash] uri_path = true → check_request c method uri_path = Some BAD_REQUEST.
Proof.
  intros Hp Hx Hu. unfold check_request. rewrite Hp. rewrite bool_decide_eq_false_2; [done|]. intros ->.
  apply starts_with_spec in Hu as [t [= -> _]]. done.
Qed.

(** ** Safety of the proxy *)

Section safety.
Context (header_ok : bytes → bytes → bool) (responds sends : result bytes ()) (o : HandlerOptions) (env : Http.HttpEnv).

Lemma dial_loop_acts n i host a r acts : dial_loop env n i host = (r, acts) → a ∈ acts → a = Dial host ∧ (length acts ≤ n)%nat.
Proof.
  revert a i r acts. induction n as [|n IH]; intros a i r acts; cbn [dial_loop]; [intros [= <- <-] ?%not_elem_of_nil; done|].
  destruct (Http.chain_dial env host i); [intros [= <- <-] ->%list_elem_of_singleton; cbn; split; [done|lia]|].
  destruct (dial_loop env n (S i) host) as [r' acts'] eqn:E. intros [= <- <-] [->|Ha]%elem_of_cons.
  - split; [done|]. destruct acts' as [|a' l]; [cbn; lia|]. destruct (IH _ _ _ _ E (list_elem_of_here a' l)). cbn in *. lia.
  - destruct (IH _ _ _ _ E Ha). cbn. split; [done|lia].
Qed.

(** Actions that use the network for the client. *)
Definition networked (a : Act) : bool := match a with Dial _ | Tunnel _ | ToOrigin _ => true | _ => false end.

(** C29: the HTTP/2 proxy dials, tunnels and forwards only for a request that names a
    target, whose client gave credentials that are accepted, and only to that
    target, or the one its [Gost-Target] header carries, and only where the bypass
    does not contain it; it dials at most as often as configured. *)
Theorem http2_safe rq out acts a :
  serve_request header_ok responds sends o env rq = (out, acts) → a ∈ acts → networked a = true →
  ∃ named, request_target rq = Some named
    ∧ let host := effective_target env rq named in
      bypassed o host = false
      ∧ (let '(u, p) := credentials env rq in authenticate o u p = true)
      ∧ Dial host ∈ acts
      ∧ match a with Dial h | Tunnel h => h = host | _ => method rq ≠ CONNECT end.
Proof.
  unfold serve_request. destruct (request_target rq) as [named|]; [|intros [= <- <-] ->%list_elem_of_singleton; done].
  cbv zeta. set (host := effective_target env rq named).
  destruct (bypassed o host) eqn:Eb; [intros [= <- <-] ->%list_elem_of_singleton; done|].
  destruct (credentials env rq) as [u p] eqn:Ec. destruct (authenticate o u p) eqn:Ea; cbn [negb];
    [|intros [= <- <-] ->%list_elem_of_singleton; done].
  destruct (dial_loop env _ 0 host) as [r dials] eqn:Ed. intros H Ha Hn. exists named. split; [done|]. fold host. cbv zeta.
  split; [done|]. split; [done|].
  assert (∀ c, r = Some c → Dial host ∈ dials) as Hd.
  { intros c ->. destruct dials as [|d l].
    - exfalso. clear -Ed. destruct (Nat.max (retries o) 1) as [|n] eqn:E; [lia|]. cbn in Ed. destruct (Http.chain_dial env host 0); [done|].
      by destruct (dial_loop env n 1 host).
    - destruct (dial_loop_acts _ _ _ d _ _ Ed (list_elem_of_here d l)) as [-> _]. left. }
  assert (∀ d, d ∈ dials → d = Dial host) as Hdials by (intros d Hi; by apply (dial_loop_acts _ _ _ d _ _ Ed)).
  destruct r as [c|].
  2: { injection H as <- <-. apply elem_of_app in Ha as [Ha| ->%list_elem_of_singleton]; [|done].
       pose proof (Hdials a Ha) as ->. split; [apply elem_of_app; by left|done]. }
  specialize (Hd c eq_refl). case_bool_decide as Em.
  - destruct responds; injection H as <- <-.
    + split; [apply elem_of_app; by left|]. apply elem_of_app in Ha as [Ha|Ha]; [by rewrite (Hdials a Ha)|].
      rewrite elem_of_cons, list_elem_of_singleton in Ha. by destruct Ha as [->| ->].
    + split; [done|]. by rewrite (Hdials a Ha).
  - destruct (forward_request _ _ _ rq host c) as [out' acts'] eqn:Ef. injection H as <- <-.
    split; [apply elem_of_app; by left|]. apply elem_of_app in Ha as [Ha|Ha]; [by rewrite (Hdials a Ha)|].
    assert (∀ h, a ≠ Dial h ∧ a ≠ Tunnel h) as Hf.
    { intros h. unfold forward_request in Ef. cbv zeta in Ef. repeat case_match; simplify_eq;
        rewrite ?elem_of_cons, ?list_elem_of_singleton in Ha; destruct_or? Ha; subst; try done; by apply not_elem_of_nil in Ha. }
    destruct a; try done; by destruct (Hf host0).
Qed.

(** The access rules of the listener play no part: a request is served as it would
    be without them. *)
Theorem rules_ignored rq wl bl :
  serve_request header_ok responds sends
    (mkOptions (users o) (authenticator o) wl bl (bypass o) (retries o) (timeout o)) env rq
  = serve_request header_ok responds sends o env rq.
Proof. done. Qed.

(** A hop's request, which has no credentials, is refused by a proxy that wants any. *)
Lemma hop_unauthenticated rq named au :
  headers rq = [] → request_target rq = Some named → bypassed o named = false → authenticator o = Some au → au [] [] = false →
  serve_request header_ok responds sends o env rq = (Returned (Ok tt), [Status PROXY_AUTHENTICATION_REQUIRED]).
Proof.
  intros Hh Ht Hb Ha Hau. unfold serve_request, effective_target, credentials, header_str, header_get. rewrite Hh, Ht. cbn [List.find fmap option_fmap option_map mbind option_bind default].
  rewrite Hb. cbn. unfold authenticate. by rewrite Ha, Hau.
Qed.

End safety.

(** ** Runs *)

Definition demo_opts : HandlerOptions :=
  mkOptions [] (Some (λ u p, bool_decide (u = str "ann") && bool_decide (p = str "pw"))) None None
    (Some (λ h, bool_decide (h = str "intranet:80"))) 0 0.

(** Origins that answer with a given text. *)
Definition demo_env (reply : bytes) : Http.HttpEnv :=
  Http.mkHttpEnv (λ _ _, Ok (talk reply [])) (λ _, None) Sni.hex_decode Sni.hex_decode (λ _, Err early_eof) 0
    (λ _, Err early_eof) (λ _ _, Err early_eof) (λ _, []).

(** A POST with a body and no Content-Length, as HTTP/2 allows. *)
Definition demo_post : Request :=
  mkRequest (str "POST") (Some (str "example.org")) None (Some (str "http")) (Some (str "example.org")) (Some (str "/x"))
    [(str "proxy-authorization", str "Basic " ++ Sni.hex_encode (str "ann:pw")); (str "accept", str "*/*")] [Ok (str "a=1")].

Definition crlf_lines (ls : list string) : bytes := concat (Http.line ∘ str <$> ls) ++ crlf.

(** The body goes out after a head that announces none, so the origin reads an empty
    body and takes the bytes for the start of another request. *)
Example unframed_body :
  serve_request (λ _ _, true) (Ok tt) (Ok tt) demo_opts
    (demo_env (crlf_lines ["HTTP/1.1 200 OK"; "Connection: close"; "X-A:  b "]%string ++ str "hi")) demo_post
  = (Returned (Ok tt),
     [Dial (str "example.org:80");
      ToOrigin (crlf_lines ["POST /x HTTP/1.1"; "Host: example.org"; "accept: */*"; "Connection: close"]%string ++ str "a=1");
      Reply 200 [(str "x-a", str "b")] (str "hi")]).
Proof. by vm_compute. Qed.

(** A chunked response loses the header that says so and keeps the chunk sizes in its
    body. *)
Example chunked_body_raw :
  last (serve_request (λ _ _, true) (Ok tt) (Ok tt) demo_opts
    (demo_env (crlf_lines ["HTTP/1.1 200 OK"; "Transfer-Encoding: chunked"]%string ++ crlf_lines ["2"; "hi"; "0"]%string)) demo_post).2
  = Some (Reply 200 [] (crlf_lines ["2"; "hi"; "0"]%string)).
Proof. by vm_compute. Qed.

(** A response header that HTTP does not allow ends the task in a panic. *)
Example bad_header_panics :
  (serve_request (λ n _, negb (contains_char ch_space n)) (Ok tt) (Ok tt) demo_opts
    (demo_env (crlf_lines ["HTTP/1.1 200 OK"; "X A: b"]%string)) demo_post).1 = Panicked.
Proof. by vm_compute. Qed.

Lemma http2_safe_witness :
  let host := str "example.org:80" in
  bypassed demo_opts host = false
  ∧ ∃ acts, (serve_request (λ _ _, true) (Ok tt) (Ok tt) demo_opts (demo_env (crlf_lines ["HTTP/1.1 200 OK"]%string)) demo_post).2 = acts
    ∧ Dial host ∈ acts.
Proof.
  intros host.
  destruct (serve_request (λ _ _, true) (Ok tt) (Ok tt) demo_opts (demo_env (crlf_lines ["HTTP/1.1 200 OK"]%string)) demo_post)
    as [out acts] eqn:E.
  destruct (http2_safe (λ _ _, true) (Ok tt) (Ok tt) demo_opts (demo_env (crlf_lines ["HTTP/1.1 200 OK"]%string)) demo_post
              out acts (Dial host) E) as (named & Ht & Hb & _ & Hd & Hh).
  - vm_compute in E. injection E as <- <-. left.
  - done.
  - cbn zeta in *. rewrite <-Hh in Hb. split; [exact Hb|]. exists acts. split; [done|]. rewrite Hh. exact Hd.
Defined.

Lemma h2_transfer_witness :
  let ops : list (Capacity * result io_error () * bytes) := [(CapOk 3, Ok tt, str "hello"); (CapPending, Ok tt, str "lo"); (CapOk 9, Ok tt, str "lo")] in
  let answers := [Chunk (str "h"); DataPending; Chunk []; Chunk (str "ello"); DataEnd] in
  ∃ ps r rest, h2_reads (replicate 20 2%nat) answers h2_new = (ps, r, rest) ∧ delivered ps = str "hello".
Proof.
  intros ops answers.
  destruct (h2_writes ops h2_new) as [ws w] eqn:Ew. destruct (h2_reads (replicate 20 2%nat) answers h2_new) as [[ps r] rest] eqn:Er.
  exists ps, r, rest. split; [done|].
  destruct (h2_transfer ops ws w answers (replicate 20 2%nat) ps r rest Ew) as (_ & _ & _ & H).
  - vm_compute in Ew. injection Ew as <- <-. by vm_compute.
  - by apply Forall_replicate; lia.
  - exact Er.
  - vm_compute in Ew. injection Ew as <- <-. apply H. vm_compute. lia.
Defined.

End Http2.
