(* ===== verification/Devices.v ===== *)
(** * Transparent proxying and devices

    Models the handlers of src/redirect.rs, the TUN and TAP set-up of src/tuntap.rs
    with its parsers, and the addresses of src/vsock_transport.rs. A system command
    is what is run and how starting it went; its exit code is read by nobody. The
    [ipnet] crate is a parameter. *)

From stdpp Require Import base list option numbers strings sets.
From Stdlib Require Import ZArith Lia.
From S2P Require Import Prelude Text AsyncIo IpAddr Permissions Conn Socks5Addr Effects HttpConnect SocketText.

Module Devices.

(** ** Redirected connections *)

Definition no_original_dst : bytes := str "redirect: no original destination (SO_ORIGINAL_DST unavailable); is this listener behind an iptables REDIRECT rule?".
Definition own_address (dst : SocketAddr) : bytes :=
  str "redirect: original destination " ++ show_addr dst ++ str " is the listener's own address; refusing to dial ourselves".

(** [TcpRedirectHandler::handle], on Linux: the destination the listener recorded and
    the local address of the connection. *)
Definition redirect_handle (o : HandlerOptions) (dial : bytes → result ChainError Conn) (original_dst local_addr : option SocketAddr) :
    act () :=
  match original_dst with
  | None => afail (Proxy no_original_dst)
  | Some dst =>
      if bool_decide (Some dst = local_addr) then afail (Proxy (own_address dst)) else
      let target := show_addr dst in
      if negb (may "tcp" o target) then afail Forbidden else
      if bypassed o target then aret tt else
      emit (Dialled target) ;;;
      match dial target with
      | Ok cc => splice cc
      | Err e => afail (ChainFailed e)
      end
  end.

Definition udp_redirect_handle : act () := afail (Proxy (str "UDP redirect handler requires tproxy integration")).

(** A redirected connection is only ever dialled to its own destination, which is not
    the listener, which the rules permit and the bypass does not contain; and the
    handler does dial it then. *)
Theorem redirect_safe o dial original_dst local_addr c tr r w :
  redirect_handle o dial original_dst local_addr (mkWorld c tr) = (r, w) →
  (∃ evs, w_trace w = tr ++ evs
     ∧ Forall (λ ev, ∃ dst, original_dst = Some dst ∧ Some dst ≠ local_addr
          ∧ may "tcp" o (show_addr dst) = true ∧ bypassed o (show_addr dst) = false
          ∧ match ev with
            | Dialled t => t = show_addr dst
            | Spliced c' cc => c' = c ∧ dial (show_addr dst) = Ok cc
            | _ => False
            end) evs)
  ∧ ∀ dst, original_dst = Some dst → Some dst ≠ local_addr → may "tcp" o (show_addr dst) = true →
      bypassed o (show_addr dst) = false → Dialled (show_addr dst) ∈ w_trace w.
Proof.
  unfold redirect_handle. destruct original_dst as [dst|].
  2: { intros [= <- <-]. split; [exists []; by rewrite app_nil_r|done]. }
  case_bool_decide as Eo.
  { intros [= <- <-]. split; [exists []; by rewrite app_nil_r|]. intros ? [= <-]. done. }
  cbv zeta. destruct (may "tcp" o (show_addr dst)) eqn:Em; cbn [negb].
  2: { intros [= <- <-]. split; [exists []; by rewrite app_nil_r|]. intros ? [= <-] _. congruence. }
  destruct (bypassed o (show_addr dst)) eqn:Eb.
  { intros [= <- <-]. split; [exists []; by rewrite app_nil_r|]. intros ? [= <-] _ _. congruence. }
  unfold abind, emit, splice. cbn [w_conn w_trace]. destruct (dial (show_addr dst)) as [cc|e] eqn:Ed; cbn; intros [= <- <-]; cbn.
  - split.
    + exists [Dialled (show_addr dst); Spliced c cc]. split; [by rewrite <-app_assoc|]. repeat constructor; by exists dst.
    + intros ? [= <-] _ _ _. set_solver.
  - split; [exists [Dialled (show_addr dst)]; split; [done|]; repeat constructor; by exists dst|].
    intros ? [= <-] _ _ _. set_solver.
Qed.

(** ** VSOCK addresses *)

Record VsockAddr : Set := mkVsock { context_id : Z; v_port : Z }.
Inductive VsockError : Set := MissingPort (addr : bytes) | InvalidCid (host : bytes) | InvalidPort (port : bytes).

Definition parse_u32 : bytes → option Z := parse_unsigned u32_max.

Definition vsock_parse (addr : bytes) : result VsockError VsockAddr :=
  match rsplit_once ch_colon addr with
  | None => Err (MissingPort addr)
  | Some (host, port) =>
      cid <-? (match host with
               | [] => Ok 0
               | _ => match parse_u32 host with Some c => Ok c | None => Err (InvalidCid host) end
               end) ;;
      match parse_u32 port with Some p => Ok (mkVsock cid p) | None => Err (InvalidPort port) end
  end.
Definition vsock_display (a : VsockAddr) : bytes := show_int (context_id a) ++ [ch_colon] ++ show_int (v_port a).

Lemma vsock_roundtrip a :
  0 ≤ context_id a ≤ u32_max → 0 ≤ v_port a ≤ u32_max → vsock_parse (vsock_display a) = Ok a.
Proof.
  intros Hc Hp. unfold vsock_parse, vsock_display, rsplit_once. cbn [app].
  assert (ch_colon ∉ show_int (v_port a)) as Hn by (intros Hi; by apply (show_int_no_sep (v_port a) ch_colon); [lia|..]).
  rewrite rfind_middle by done. rewrite take_app_exact by done.
  rewrite cons_middle, app_assoc, drop_app_exact by (rewrite length_app; cbn; lia).
  unfold parse_u32. rewrite !parse_show_unsigned by (unfold u32_max in *; lia).
  destruct (show_int_cons (context_id a)) as (d & ds & ->); [lia|]. cbn [rbind]. by destruct a.
Qed.

(** ** TUN and TAP devices *)

(** A command: the program and its arguments. *)
Record Command : Set := mkCommand { program : bytes; args : list bytes }.

(** Commands in turn, up to one that cannot be started: [start] answers with whether
    the command succeeded, which is not looked at. *)
Fixpoint run_commands (start : Command → result io_error bool) (cs : list Command) : result io_error () * list Command :=
  match cs with
  | [] => (Ok tt, [])
  | c :: cs =>
      match start c with
      | Err e => (Err e, [c])
      | Ok _ => let '(r, done) := run_commands start cs in (r, c :: done)
      end
  end.

Section devices.
(** Networks: parsing, printing, the address and the mask. *)
Context {IpNet : Type} (parse_net : bytes → option IpNet) (show_net : IpNet → bytes) (net_addr net_mask : IpNet → bytes).

Record IpRoute : Type := mkRoute { dest : IpNet; gateway : option IpAddr }.
Record TunConfig : Type := mkTun { tun_name : bytes; tun_addr : bytes; tun_peer : bytes; tun_mtu : Z; tun_routes : list IpRoute; tun_gateway : bytes }.
Record TapConfig : Type := mkTap { tap_name : bytes; tap_addr : bytes; tap_mtu : Z; tap_routes : list bytes; tap_gateway : bytes }.

Definition or_else (name : bytes) (default : string) : bytes := match name with [] => str default | _ => name end.
Definition mtu_text (mtu : Z) (default : string) : bytes := if 0 <? mtu then show_int mtu else str default.
Definition when {A} (b : bool) (l : list A) : list A := if b then l else [].
Definition given (s : bytes) : bool := match s with [] => false | _ => true end.

Definition cmd (p : string) (l : list bytes) : Command := mkCommand (str p) l.

(** Linux. *)
Definition linux_tun_routes (name : bytes) (routes : list IpRoute) : list Command :=
  (λ r, cmd "ip" ([str "route"; str "add"; show_net (dest r); str "dev"; name]
                  ++ match gateway r with Some gw => [str "via"; show_ip gw] | None => [] end)) <$> routes.
Definition linux_tap_routes (name gw : bytes) (routes : list bytes) : list Command :=
  (λ r, cmd "ip" ([str "route"; str "add"; r; str "dev"; name] ++ when (given gw) [str "via"; gw])) <$> filter (λ r, given r = true) routes.
Definition linux_up (name addr mtu : bytes) : list Command :=
  when (given addr) [cmd "ip" [str "address"; str "add"; addr; str "dev"; name]]
  ++ [cmd "ip" [str "link"; str "set"; name; str "mtu"; mtu; str "up"]].
Definition linux_create_tun (c : TunConfig) : bytes * list Command :=
  let name := or_else (tun_name c) "tun0" in
  (name, linux_up name (tun_addr c) (mtu_text (tun_mtu c) "1350") ++ linux_tun_routes name (tun_routes c)).
Definition linux_create_tap (c : TapConfig) : bytes * list Command :=
  let name := or_else (tap_name c) "tap0" in
  (name, linux_up name (tap_addr c) (mtu_text (tap_mtu c) "1500") ++ linux_tap_routes name (tap_gateway c) (tap_routes c)).

(** macOS and the other systems with [route]. *)
Definition unix_tun_routes (name : bytes) (routes : list IpRoute) : list Command :=
  (λ r, cmd "route" ([str "-n"; str "add"; str "-net"; show_net (dest r)]
                     ++ match gateway r with Some gw => [show_ip gw] | None => [str "-interface"; name] end)) <$> routes.
Definition macos_create_tun (c : TunConfig) : bytes * list Command :=
  let name := or_else (tun_name c) "utun0" in
  (name,
   when (given (tun_addr c))
     [cmd "ifconfig" ([name; str "inet"; tun_addr c] ++ when (given (tun_peer c)) [tun_peer c]
                      ++ [str "mtu"; mtu_text (tun_mtu c) "1350"; str "up"])]
   ++ unix_tun_routes name (tun_routes c)).
Definition no_tap : io_error := IoError Unsupported "TAP is not supported on macOS".
Definition macos_create_tap (c : TapConfig) : result io_error bytes := Err no_tap.
Definition macos_tap_routes (name gw : bytes) (routes : list bytes) : result io_error () := Err no_tap.

Definition bsd_tap_routes (name gw : bytes) (routes : list bytes) : list Command :=
  (λ r, cmd "route" ([str "-n"; str "add"; str "-net"; r] ++ if given gw then [gw] else [str "-interface"; name]))
    <$> filter (λ r, given r = true) routes.
Definition bsd_create_tun (c : TunConfig) : bytes * list Command :=
  let name := or_else (tun_name c) "tun0" in
  (name,
   when (given (tun_addr c)) [cmd "ifconfig" [name; str "inet"; tun_addr c; str "mtu"; mtu_text (tun_mtu c) "1350"; str "up"]]
   ++ unix_tun_routes name (tun_routes c)).
Definition bsd_create_tap (c : TapConfig) : bytes * list Command :=
  let name := or_else (tap_name c) "tap0" in
  (name,
   [cmd "ifconfig" ([name] ++ when (given (tap_addr c)) [str "inet"; tap_addr c] ++ [str "mtu"; mtu_text (tap_mtu c) "1500"; str "up"])]
   ++ bsd_tap_routes name (tap_gateway c) (tap_routes c)).

(** Windows. *)
Definition windows_address (name addr gw : bytes) : list Command :=
  when (given addr)
    (match parse_net addr with
     | Some net =>
         let ip := net_addr net in
         [cmd "netsh" [str "interface"; str "ip"; str "set"; str "address"; name; str "static"; ip; net_mask net;
                       if given gw then gw else ip]]
     | None => []
     end).
Definition windows_tun_routes (name : bytes) (routes : list IpRoute) : list Command :=
  (λ r, cmd "netsh" ([str "interface"; str "ip"; str "add"; str "route"; show_net (dest r); name]
                     ++ match gateway r with Some gw => [show_ip gw] | None => [] end)) <$> routes.
Definition windows_tap_routes (name gw : bytes) (routes : list bytes) : list Command :=
  (λ r, cmd "netsh" ([str "interface"; str "ip"; str "add"; str "route"; r; name] ++ when (given gw) [gw]))
    <$> filter (λ r, given r = true) routes.
Definition windows_create_tun (c : TunConfig) : bytes * list Command :=
  let name := or_else (tun_name c) "rt-tun" in
  (name, windows_address name (tun_addr c) (tun_gateway c) ++ windows_tun_routes name (tun_routes c)).
Definition windows_create_tap (c : TapConfig) : bytes * list Command :=
  let name := or_else (tap_name c) "rt-tap" in
  (name, windows_address name (tap_addr c) (tap_gateway c) ++ windows_tap_routes name (tap_gateway c) (tap_routes c)).

(** [create_tun] and [create_tap]: the name, once every command was started. *)
Definition create (start : Command → result io_error bool) (plan : bytes * list Command) : result io_error bytes * list Command :=
  let '(r, ran) := run_commands start plan.2 in
  (match r with Ok _ => Ok plan.1 | Err e => Err e end, ran).

(** ** Routes and packets *)

Definition parse_ip_routes (s : bytes) : list IpRoute :=
  omap (λ entry,
    let entry := trim entry in
    match entry with
    | [] => None
    | _ =>
        let parts := split_whitespace entry in
        d ← head parts ≫= parse_net;
        Some (mkRoute d (nth_error parts 1 ≫= parse_ip))
    end) (match s with [] => [] | _ => split_char ch_comma s end).
End devices.

Inductive IpProtocol : Set := Icmp | Tcp | Udp | Icmpv6 | Unknown (v : Z).
Definition protocol_from (v : Z) : IpProtocol :=
  if v =? 1 then Icmp else if v =? 6 then Tcp else if v =? 17 then Udp else if v =? 58 then Icmpv6 else Unknown v.
Definition protocol_display (p : IpProtocol) : bytes :=
  match p with
  | Icmp => str "ICMP" | Tcp => str "TCP" | Udp => str "UDP" | Icmpv6 => str "ICMPv6"
  | Unknown n => str "unknown(" ++ show_int n ++ str ")"
  end.

Definition at_ (data : bytes) (i : nat) : Z := nth i data 0.
Definition parse_ipv4_header (data : bytes) : option (IpAddr * IpAddr * IpProtocol) :=
  if (length data <? 20)%nat then None
  else if negb (Z.land (Z.shiftr (at_ data 0) 4) 15 =? 4) then None
  else Some (V4 [at_ data 12; at_ data 13; at_ data 14; at_ data 15], V4 [at_ data 16; at_ data 17; at_ data 18; at_ data 19],
             protocol_from (at_ data 9)).

(** Commands run in order, all of them unless one cannot be started. *)
Lemma run_commands_prefix start cs r ran :
  run_commands start cs = (r, ran) →
  ran `prefix_of` cs ∧ (r = Ok tt → ran = cs) ∧ (∀ e, r = Err e → ∃ c, last ran = Some c ∧ start c = Err e).
Proof.
  revert r ran. induction cs as [|c cs IH]; intros r ran; cbn [run_commands]; [intros [= <- <-]; done|].
  destruct (start c) as [b|e] eqn:E.
  - destruct (run_commands start cs) as [r' ran'] eqn:Er. intros [= <- <-]. destruct (IH _ _ eq_refl) as (Hp & Ho & He). split_and!.
    + by apply prefix_cons.
    + intros H. by rewrite (Ho H).
    + intros e H. destruct (He e H) as (c' & Hl & ?). exists c'. split; [|done]. by destruct ran'.
  - intros [= <- <-]. split_and!; [apply prefix_cons, prefix_nil|done|]. intros e' [= <-]. by exists c.
Qed.

(** A device is reported as created although every command failed. *)
Lemma failures_ignored plan : create (λ _, Ok false) plan = (Ok plan.1, plan.2).
Proof.
  unfold create. assert (∀ cs, run_commands (λ _, Ok false) cs = (Ok tt, cs)) as H by (induction cs as [|c cs IH]; cbn; [done|by rewrite IH]).
  by rewrite H.
Qed.

(** The header of a packet between two addresses. *)
Lemma parse_ipv4_built ihl tos src dst proto rest payload :
  0 ≤ ihl < 16 → length src = 4%nat → length dst = 4%nat → length rest = 7%nat →
  parse_ipv4_header ([64 + ihl] ++ [tos] ++ rest ++ [proto] ++ [0; 0] ++ src ++ dst ++ payload) = Some (V4 src, V4 dst, protocol_from proto).
Proof.
  intros Hi Hs Hd Hr. destruct src as [|s0 [|s1 [|s2 [|s3 [|]]]]]; try done. destruct dst as [|d0 [|d1 [|d2 [|d3 [|]]]]]; try done.
  destruct rest as [|r0 [|r1 [|r2 [|r3 [|r4 [|r5 [|r6 [|]]]]]]]]; try done. unfold parse_ipv4_header, at_. cbn [app length nth].
  assert (Z.land (Z.shiftr (64 + ihl) 4) 15 =? 4 = true) as ->; [|done]. apply Z.eqb_eq.
  assert (Z.shiftr (64 + ihl) 4 = 4) as ->; [|done]. rewrite Z.shiftr_div_pow2 by done. change (2 ^ 4) with 16. Z.to_euclidean_division_equations. lia.
Qed.

End Devices.
